(* ===== verification/_CoqProject ===== *)
-Q . S2P
Prelude.v
PyStr.v
PyVal.v
Config.v
Effects.v
Semantics.v
Redis.v
Sim.v
Interleave.v
Consumer.v
ConsumerMain.v
Session.v
Repo.v
Backup.v
NoLoss.v
Progress.v
Prune.v
Lock.v
Jobs.v
Argparse.v
Cli.v
System.v
BackEnd.v
EventText.v
Debouncer.v
Wal.v
Agent.v
AgentMain.v
AgentConfig.v
Probe.v
EndToEnd.v
