(* ===== verification/Prelude.v ===== *)
(** * A model of file-tracker: agent, collector and backup tools

    file-tracker watches a file system with an eBPF agent:

    - the {b agent} ([src/main.cpp] and its parts, C++) turns the kernel's
      events into texts, holds back the changes of busy files (the debouncer),
      and sends the texts to Kafka, with a write-ahead log for those it cannot
      send;

    The Python programs consume the events:

    - the {b collector} ([consumer/consumer.py], [consumer/main.py]) reads the
      events in batches, keeps in the Redis hash [pending] the paths that have
      to be backed up, and commits to Kafka after each flush;
    - the {b backup} ([backup/backup.py]) renames [pending] to [processing],
      groups its paths by restic repository, backs the repositories up in a
      thread pool, and puts the paths of failed repositories back;
    - {b prune} ([backup/prune.py]) forgets old snapshots in every repository,
      under the same Redis lock;
    - the {b command line} ([backup/cli.py]) shows the status and the snapshots
      and restores files.

    Agent and collector meet in the text of an event; the Python programs meet
    in Redis (hashes [pending] and [processing], key [backup:lock]) and in the
    naming of the restic repositories.

    ** How code is translated

    A Python function is a [prog] ([Effects.v]): a tree of external calls
    ([Do]) and of accesses to the process's own objects ([Mem]), built with the
    constructs of the code ([let*], [try_except], [try_finally], [for_each],
    [while_true]).  Exceptions are values of [result] ([Prelude.exn] has one
    constructor per class that the code names or lets escape).  Logging is left
    out, but the evaluation of a log line's arguments is kept where it calls
    something or can raise.  Pure code is a function ([parse_event],
    [get_repo_id], [collect], ...).  The agent's code is functions on the state
    of each part (the debouncer's table, the bytes of the log, the sender's
    queues); what librdkafka, the clock or the order of a hash table decide is
    an argument.

    Redis, Kafka, restic, MinIO, the clock and the operating system are not in
    this repository: they are a [handler] over an abstract world, universally
    quantified in the theorems.  A theorem with no law about the handler holds
    whatever these services answer, including errors and calls that never
    return.  The laws about Redis are the class [RedisLaws] ([Redis.v]): the
    documented effect of each command on the keyspace, the possibility that a
    command whose answer is lost was executed, and the guarantee of a full
    [HSCAN] iteration; its parameter [rely] bounds what other clients may do.
    [Sim.v] is a concrete handler that satisfies the laws; every witness runs
    the code against it.

    [Semantics.v] runs programs to their end ([run]) or up to a kill after any
    number of nodes ([run_for]); [wpc] is a weakest precondition with a crash
    condition that speaks about both, [only] and [keeps] are rules for
    invariants of the calls and of the world, and [pool] interleaves the jobs
    of a thread pool node by node, with [twp] and [wpc_pool] to verify each job
    alone.

    ** The files

    - [Prelude]: exceptions, results, notations.  [PyStr]: strings.  [PyVal]:
      JSON values and [json.loads].  [Config]: the [config.toml] record and the
      ways the code reads it.
    - [Effects], [Semantics], [Redis], [Sim]: see above.
    - [Consumer]: [consumer.py].  State: [heap], the [EventProcessor] and the
      Prometheus metrics.  [parse_event], [flush_batch], [update_metrics].
      Abstract specification: [file_event] and [apply_rule], the event rules of
      the documentation; [consume_applies_rules] is the refinement.
    - [ConsumerMain]: [main.py].  One definition per stage of the loop
      ([poll_once], [refresh_gauge], [try_reconnect], [on_idle], [on_error],
      [on_message]), composed in [loop_body], [poll_loop], [shutdown],
      [main_loop] and [main]; [locals] are the loop's variables.
    - [Session]: the collector's contract with Kafka and Redis.  [view] is the
      abstract session (what was delivered, what is committed, which Redis
      commands were executed).  The contract is about any services: at every
      kill point the executed commands are those of a prefix of the delivered
      events that covers what is committed ([applied_before_commit]).  What it
      says about Redis's [pending] follows from [RedisLaws], for a collector
      alone ([at_least_once], [redelivery_exact], [clean_exit_complete]) and
      beside a backup that moves paths ([at_least_once_beside_backup]).  The
      contract needs every pipeline to succeed ([good]);
      [failed_flush_loses_events] shows a run where one fails.
    - [Repo]: [get_repo_id], [RepoManager] and [backup_repo], a job of the pool.
      [handled] says, on a trace, what happened to a path.
    - [Backup]: the lock, the scan and its work list, [run_pool], [finish],
      [run_backup] and [main] of [backup.py].  [sched] and [order] are the
      choices of the thread pool and of [as_completed].
    - [NoLoss]: [no_path_lost], the safety of a whole backup run at every kill
      point, for every schedule and whatever fails.  [Progress]: what a run
      without faults achieves, [faultless_run_settles].
    - [Interleave]: a program that executes node by node among calls of others
      ([amid]); a fact about a program that does not depend on them survives
      ([robust]).
    - [Prune]: [prune.py].  [Lock]: an abstract lock protocol between the jobs of
      all nodes, its invariant, and the refinement theorems that tie the code's
      lock functions to it.  [Jobs]: the calls that a backup or
      prune run makes in each phase of the protocol, proved of the whole code
      ([backup_main_follows], [prune_main_follows]).
    - [System]: a collector and any number of backup and prune runs on one Redis
      as a transition system, beside any other processes ([bystander]), each
      killed and started anywhere.  [system_refines_lock] is the simulation by
      the lock protocol, [work_is_exclusive] what follows for the code.
      [BackEnd]: [written_path_safe] follows an entry of [pending] through any
      interleaving; [committed_change_safe] is the at-least-once promise of the
      whole back end.  What is assumed of the lock is that it expires only while
      no job holds it (the services' time limit equals [LOCK_TTL]), and that no
      other process deletes it.  The jobs are the whole [main] of [backup.py] and
      [prune.py]; in [BackEnd] their configuration file does not change ([loads]).
    - [Argparse]: the part of [argparse] that the command line uses.  [Cli]:
      [cli.py]: its parsers, the commands, [main].
    - [EventText]: [json_escape], [build_json] and the text of a rename, with
      the exact values that [json.loads] reads from them; an event on UTF-8
      paths reaches [parse_event] as it is ([event_text_roundtrip]).
    - [Debouncer]: [debouncer.cpp], its table as a map; [Wal]: [wal.cpp], the
      log as its bytes and whether it is open, CRC-32 included; [fopen], [stat]
      and each write may fail ([disk]).
    - [Agent]: [build_path], [handle_event] with the pairing of renames, and the
      sender ([send], [dr_msg_cb], the fallback to the log, the replay) as a
      step relation whose invariant accounts for every text: acknowledged,
      queued, in the log, dropped at the limit, or lost in a failed write, whose
      result the code ignores ([lost], [copied] are history).
    - [AgentMain]: the agent's main loop ([turn], [shutdown], [main]), which
      composes debouncer, sender and log; [agent_conserves] follows every text
      from the ring buffer to one of these places.  [steady] is what is assumed of
      the disk: [stat] works and a record is written whole or not at all (what a
      record cut short does is [torn_log] and [torn_log_blocks]).
    - [AgentConfig]: [config.cpp] over the table the TOML parser hands over, what
      [main] makes of the settings, and the directory of the log
      ([wal_dir_made], over the laws [FileSystemLaws] of [mkdir]);
      [configured_agent] runs the agent from its configuration file and the
      directories on disk on, whether its log could be opened or not;
      [bare_log_name_loses] is a configuration with which it never can.
    - [Probe]: the eBPF program, as far as it decides what the agent sees: the
      walk along a file's parents, the operations that are reported, the
      suppression of repeated modifications, which [agent_sees_operations] states
      on the history of the operations ([repeated]).  The map of recent modifications
      is one map with the code's eviction left as an argument, dentries are
      finite chains of names, and the clock is a [u64].
    - [EndToEnd]: the composition, from an operation on a file to the field of
      [pending] in Redis ([change_reaches_redis]), to restic in a run without
      faults ([change_is_backed_up]), and through any run of a [system]
      ([change_never_lost]).  [change_seen] collects what is assumed of the
      agent's run.

    ** Bounds

    [fuel] bounds the iterations of the [while] loops only; a run that it cuts
    off ends in [Running].  Safety theorems hold for every fuel, so they speak
    about all finite prefixes of a run.  Termination is stated with the exact
    fuel: [connect_redis_retries] and [hscan_terminates].  The liveness theorems
    are about runs that are not cut off, which [hscan_terminates] and the
    witnesses show to exist.  [json.loads],
    [argparse] and the log's reader get fuel from the length of their input,
    and [loads_returns], [parse_args_returns] and [read_wal] prove it enough.
    Times are integers in ticks of 2^-22 s, the spacing of the doubles that
    [time.time()] returns until 2038, so the code's differences are exact.
    Strings are their UTF-8 bytes.

    ** Not modelled

    The agent's set-up of libbpf and librdkafka (it is the argument [started] of
    [agent_main]) and its statistics lines; the TOML parsers; how the kernel's
    helpers fail, and the probe's state on other CPUs; bytes that a failed
    [fflush] leaves in the stream's buffer for a later write (they count as not
    written), and [truncate]'s [fclose]; the texts [argparse]
    prints; logging and its configuration, [stats_cb] (it only logs), the
    signal handlers beyond the flag they set ([ReadRunning]); deployment files
    and the end-to-end shell tests. *)
From stdpp Require Export base tactics list strings gmap sorting.
From Stdlib Require Export ZArith Lia.

Declare Scope py_scope.
Delimit Scope py_scope with py.

(** ** Python exceptions

    One constructor per exception class the code names or lets escape.  The
    redis-py classes keep the class tree the handlers depend on: every
    [Redis*] constructor is a subclass of [RedisError]. *)
Inductive exn : Type :=
| KeyError (key : string)
| TypeError
| ValueError
| AttributeError
| IndexError
| JSONDecodeError
| UnicodeDecodeError
| UnicodeEncodeError
| RuntimeError (msg : string)
| OSError
| TimeoutExpired
| RedisConnectionError
| RedisTimeoutError
| RedisResponseError
| RedisDataError
| RedisOtherError
| KafkaException
| MinioError
| SystemExit (code : Z).

(** [isinstance(e, redis.exceptions.RedisError)] *)
Definition is_RedisError (e : exn) : bool :=
  match e with
  | RedisConnectionError | RedisTimeoutError | RedisResponseError
  | RedisDataError | RedisOtherError => true
  | _ => false
  end.

(** [isinstance(e, (redis.exceptions.ConnectionError,
    redis.exceptions.TimeoutError))] *)
Definition is_conn_or_timeout (e : exn) : bool :=
  match e with
  | RedisConnectionError | RedisTimeoutError => true
  | _ => false
  end.

(** [isinstance(e, redis.exceptions.ResponseError)] *)
Definition is_ResponseError (e : exn) : bool :=
  match e with RedisResponseError => true | _ => false end.

(** [isinstance(e, KafkaException)] *)
Definition is_KafkaException (e : exn) : bool :=
  match e with KafkaException => true | _ => false end.

(** [isinstance(e, Exception)]: [SystemExit] derives from [BaseException]. *)
Definition is_Exception (e : exn) : bool :=
  match e with SystemExit _ => false | _ => true end.

(** ** Results of Python code

    [Ok a]: the code returned [a]; [Exc e]: it raised [e]; [Running]: it has
    not returned yet (a call that blocks for ever, or a [while True] loop cut
    off by the bound of the model). *)
Inductive result (A : Type) : Type :=
| Ok (a : A)
| Exc (e : exn)
| Running.
Arguments Ok {A} a.
Arguments Exc {A} e.
Arguments Running {A}.

Definition rbind {A B} (r : result A) (f : A -> result B) : result B :=
  match r with
  | Ok a => f a
  | Exc e => Exc e
  | Running => Running
  end.

Notation "'let?' x := r 'in' k" := (rbind r (fun x => k))
  (at level 10, x pattern, r at level 100, k at level 200) : py_scope.

Definition is_ok {A} (r : result A) : bool :=
  match r with Ok _ => true | _ => false end.
