(* ===== verification/PyStr.v ===== *)
(** Python string operations used by the code.

    A Python [str] is represented by its UTF-8 encoding (lone surrogates
    encoded like any other code point, the codec's [surrogatepass] mode), held
    in a Rocq [string].  The operations below only cut at ASCII separators or
    at the end of a known prefix, where cutting the encoding and cutting the
    sequence of code points agree; [take_chars] is the one operation that
    counts code points.  Byte order on the encodings is code point order, so
    [sorted] compares the encodings. *)
From S2P Require Import Prelude.
From stdpp Require Import pretty.
From Stdlib Require Import Ascii.

Local Open Scope string_scope.
#[global] Arguments String.append : simpl nomatch.

(** [s.startswith(p)] *)
Fixpoint startswith (s p : string) : bool :=
  match p, s with
  | EmptyString, _ => true
  | String c p', String d s' => Ascii.eqb c d && startswith s' p'
  | String _ _, EmptyString => false
  end.

(** [s[n:]] *)
Fixpoint drop_str (n : nat) (s : string) : string :=
  match n, s with
  | O, _ => s
  | S n', String _ s' => drop_str n' s'
  | S _, EmptyString => EmptyString
  end.

(** [s[:n]] *)
Fixpoint take_str (n : nat) (s : string) : string :=
  match n, s with
  | O, _ => EmptyString
  | S n', String c s' => String c (take_str n' s')
  | S _, EmptyString => EmptyString
  end.

(** [s.endswith(p)] *)
Definition endswith (s p : string) : bool :=
  let n := String.length s in
  let k := String.length p in
  (k <=? n)%nat && String.eqb (drop_str (n - k) s) p.

(** [s.split(c)] for a one-character separator: never the empty list. *)
Fixpoint split (c : ascii) (s : string) : list string :=
  match s with
  | EmptyString => [EmptyString]
  | String d s' =>
      if Ascii.eqb d c then EmptyString :: split c s'
      else match split c s' with
           | [] => [String d EmptyString]
           | part :: rest => String d part :: rest
           end
  end.

(** [sep.join(parts)] *)
Definition join (sep : string) (parts : list string) : string :=
  String.concat sep parts.

(** Index of the last occurrence of [sep] in [s], as [s.rfind(sep)]
    ([None] for -1). *)
Fixpoint rfind (sep s : string) : option nat :=
  match s with
  | EmptyString => if startswith s sep then Some O else None
  | String _ s' =>
      match rfind sep s' with
      | Some k => Some (S k)
      | None => if startswith s sep then Some O else None
      end
  end.

(** [s.rsplit(sep, 1)[0]]: what comes before the last [sep], all of [s] when
    there is none. *)
Definition rsplit1_head (sep s : string) : string :=
  match rfind sep s with
  | Some k => take_str k s
  | None => s
  end.

(** A byte that continues a multi-byte UTF-8 sequence (10xxxxxx). *)
Definition is_cont_byte (c : ascii) : bool :=
  let n := N_of_ascii c in (128 <=? n)%N && (n <? 192)%N.

(** [s[:n]] counted in code points: a continuation byte belongs to the code
    point before it. *)
Fixpoint take_chars (n : nat) (s : string) : string :=
  match s with
  | EmptyString => EmptyString
  | String c s' =>
      if is_cont_byte c then String c (take_chars n s')
      else match n with
           | O => EmptyString
           | S n' => String c (take_chars n' s')
           end
  end.

(** [str(z)] for a Python int *)
Definition str_of_Z (z : Z) : string := pretty z.

(** [c not in s] for a one-character string *)
Fixpoint lacks (c : ascii) (s : string) : bool :=
  match s with
  | EmptyString => true
  | String d s' => negb (Ascii.eqb d c) && lacks c s'
  end.

(** [sorted] on a list of strings: a stable merge sort for code point
    order. *)
Definition str_le (s t : string) : Prop := String.leb s t = true.

#[export] Instance str_le_dec : RelDecision str_le.
Proof. intros s t. unfold str_le. apply _. Defined.

Definition sorted_str (l : list string) : list string := merge_sort str_le l.

(** ** Lemmas *)

Lemma app_assoc_str s t u : (s ++ t) ++ u = s ++ t ++ u.
Proof. induction s as [|c s IH]; simpl; congruence. Qed.

Lemma app_empty_r s : s ++ "" = s.
Proof. induction s as [|c s IH]; simpl; congruence. Qed.

Lemma length_app_str s t :
  String.length (s ++ t) = (String.length s + String.length t)%nat.
Proof. induction s as [|c s IH]; simpl; [done|]. by rewrite IH. Qed.

Lemma app_inv_head_str s t u : s ++ t = s ++ u -> t = u.
Proof. induction s as [|c s IH]; simpl; intros H; [done|]. apply IH. congruence. Qed.

Lemma drop_app s t : drop_str (String.length s) (s ++ t) = t.
Proof. induction s as [|c s IH]; [by destruct t|done]. Qed.

Lemma take_app s t : take_str (String.length s) (s ++ t) = s.
Proof. induction s as [|c s IH]; simpl; [by destruct t|congruence]. Qed.

Lemma take_drop_str n s : take_str n s ++ drop_str n s = s.
Proof.
  revert s. induction n as [|n IH]; intros [|c s]; simpl; try done.
  by rewrite IH.
Qed.

Lemma startswith_app s t : startswith (s ++ t) s = true.
Proof. induction s as [|c s IH]; simpl; [by destruct t|]. by rewrite Ascii.eqb_refl. Qed.

Lemma startswith_inv s p : startswith s p = true -> exists t, s = p ++ t.
Proof.
  revert s. induction p as [|c p IH]; intros s H; [by exists s|].
  destruct s as [|d s]; simpl in H; [done|].
  apply andb_true_iff in H as [->%Ascii.eqb_eq H].
  destruct (IH s H) as [t ->]. by exists t.
Qed.

Lemma startswith_iff s p : startswith s p = true <-> exists t, s = p ++ t.
Proof.
  split; [apply startswith_inv|]. intros [t ->]. apply startswith_app.
Qed.

Lemma endswith_app s p : endswith (s ++ p) p = true.
Proof.
  unfold endswith. rewrite length_app_str.
  replace (String.length s + String.length p - String.length p)%nat
    with (String.length s) by lia.
  rewrite drop_app, String.eqb_refl, andb_true_r. apply Nat.leb_le. lia.
Qed.

Lemma endswith_inv s p : endswith s p = true -> exists t, s = t ++ p.
Proof.
  unfold endswith. intros [_ H%String.eqb_eq]%andb_true_iff.
  exists (take_str (String.length s - String.length p) s).
  rewrite <-H at 2. by rewrite take_drop_str.
Qed.

Lemma startswith_full s : startswith s s = true.
Proof. rewrite <-(app_empty_r s) at 1. apply startswith_app. Qed.

Lemma startswith_length s p :
  startswith s p = true -> (String.length p <= String.length s)%nat.
Proof. intros [t ->]%startswith_inv. rewrite length_app_str. lia. Qed.

Lemma rfind_suffix sep s :
  sep <> "" -> rfind sep (s ++ sep) = Some (String.length s).
Proof.
  intros Hne. induction s as [|c s IH]; [|by simpl; rewrite IH].
  destruct sep as [|d sep]; [done|]. simpl.
  assert (rfind (String d sep) sep = None) as ->.
  { assert (forall u, (String.length u <= String.length sep)%nat ->
      rfind (String d sep) u = None) as Hshort; [|by apply Hshort].
    induction u as [|e u IHu]; intros Hlen; [done|].
    simpl in Hlen. cbn [rfind]. rewrite IHu by lia.
    destruct (startswith (String e u) (String d sep)) eqn:E; [|done].
    apply startswith_length in E. simpl in E. lia. }
  by rewrite Ascii.eqb_refl, startswith_full.
Qed.

(** When [s] ends with [sep], [s.rsplit(sep, 1)[0]] strips exactly that
    suffix. *)
Lemma rsplit1_head_suffix sep s :
  sep <> "" -> rsplit1_head sep (s ++ sep) = s.
Proof.
  intros Hne. unfold rsplit1_head. rewrite rfind_suffix by done. apply take_app.
Qed.

Lemma split_not_nil c s : split c s <> [].
Proof.
  destruct s as [|d s]; simpl; [done|].
  destruct (Ascii.eqb d c); [done|]. by destruct (split c s).
Qed.

Lemma split_length c s : (1 <= length (split c s))%nat.
Proof. pose proof (split_not_nil c s). destruct (split c s); [done|simpl; lia]. Qed.

Lemma join_cons sep part rest :
  rest <> [] -> join sep (part :: rest) = part ++ sep ++ join sep rest.
Proof. destruct rest; done. Qed.

Lemma join_singleton sep part : join sep [part] = part.
Proof. done. Qed.

(** [c.join(s.split(c)) == s] *)
Lemma join_split c s : join (String c "") (split c s) = s.
Proof.
  induction s as [|d s IH]; simpl; [done|].
  destruct (Ascii.eqb d c) eqn:E.
  - apply Ascii.eqb_eq in E as ->.
    rewrite join_cons by apply split_not_nil. simpl. by rewrite IH.
  - destruct (split c s) as [|part rest] eqn:Hs; [by apply split_not_nil in Hs|].
    destruct rest as [|p2 rest].
    + by rewrite <-IH.
    + rewrite <-IH. by rewrite !join_cons by done.
Qed.

Lemma lacks_app c s t : lacks c (s ++ t) = lacks c s && lacks c t.
Proof. induction s as [|d s IH]; simpl; [done|]. by rewrite IH, andb_assoc. Qed.

Lemma split_lacks c s : lacks c s = true -> split c s = [s].
Proof.
  induction s as [|d s IH]; simpl; [done|].
  intros [Hd Hs]%andb_true_iff. destruct (Ascii.eqb d c); [done|].
  by rewrite IH.
Qed.

Lemma split_app_sep c s t :
  lacks c s = true -> split c (s ++ String c t) = s :: split c t.
Proof.
  induction s as [|d s IH]; simpl.
  - intros _. by rewrite Ascii.eqb_refl.
  - intros [Hd Hs]%andb_true_iff. destruct (Ascii.eqb d c); [done|].
    by rewrite IH.
Qed.

Lemma split_app_any c s t :
  split c (s ++ String c t) = (split c s ++ split c t)%list.
Proof.
  induction s as [|d s IH]; simpl; [by rewrite Ascii.eqb_refl|].
  destruct (Ascii.eqb d c); [by rewrite IH|]. rewrite IH.
  pose proof (split_not_nil c s). by destruct (split c s).
Qed.

(** Splitting a joined list gives the pieces of its parts. *)
Lemma split_join_bind c parts :
  parts <> [] -> split c (join (String c "") parts) = parts ≫= split c.
Proof.
  intros Hne. induction parts as [|p rest IH]; [done|]. destruct rest as [|q rest].
  { simpl. by rewrite app_nil_r. }
  rewrite join_cons by done. change (String c "" ++ ?x) with (String c x).
  rewrite split_app_any, IH by done. done.
Qed.

(** [c.join(parts).split(c) == parts], for parts without the separator. *)
Lemma split_join c parts :
  parts <> [] -> Forall (fun p => lacks c p = true) parts ->
  split c (join (String c "") parts) = parts.
Proof.
  intros Hne Hall. induction Hall as [|p rest Hp Hrest IH]; [done|].
  destruct rest as [|q rest].
  - by apply split_lacks.
  - rewrite join_cons by done. change (String c "" ++ ?x) with (String c x).
    rewrite split_app_sep by done. by rewrite IH.
Qed.

Lemma split_parts_lack c s : Forall (fun p => lacks c p = true) (split c s).
Proof.
  induction s as [|d s IH]; simpl; [by repeat constructor|].
  destruct (Ascii.eqb d c) eqn:E; [by constructor|].
  destruct (split c s) as [|part rest]; inversion_clear IH; constructor;
    simpl; rewrite ?E; auto.
Qed.

Lemma join_app sep l k :
  l <> [] -> k <> [] -> join sep (l ++ k)%list = join sep l ++ sep ++ join sep k.
Proof.
  intros Hl Hk. induction l as [|p l IH]; [done|].
  destruct l as [|q l].
  - simpl app. by rewrite join_cons.
  - simpl app. simpl app in IH. rewrite !(join_cons _ p) by done. rewrite IH by done.
    by rewrite !app_assoc_str.
Qed.

Lemma str_of_Z_inj x y : str_of_Z x = str_of_Z y -> x = y.
Proof. unfold str_of_Z. intros H. by apply (inj pretty) in H. Qed.

Lemma sorted_str_perm l : sorted_str l ≡ₚ l.
Proof. apply merge_sort_Permutation. Qed.

#[export] Instance str_le_total : Total str_le.
Proof. intros s t. unfold str_le. apply String.leb_total. Qed.

Lemma sorted_str_sorted l : Sorted str_le (sorted_str l).
Proof. apply Sorted_merge_sort, _. Qed.
