(* ===== verification/PyVal.v ===== *)
(** Dynamically typed Python values, text codecs and [json.loads].

    Kafka payloads and the output of restic are parsed by [json.loads]; what
    comes out is an arbitrary Python value, and the code's [.get], [if x:] and
    [==] are applied to it as it is. *)
From S2P Require Import Prelude PyStr.
From Stdlib Require Import Ascii.

Local Open Scope string_scope.
Local Open Scope Z_scope.
Local Open Scope py_scope.

(** A value [json.loads] can build.  [VFloat m e] is the double nearest to the
    decimal literal [m * 10^e]; a dict keeps its insertion order. *)
#[warnings="-register-all"]
Inductive pyval : Type :=
| VNone
| VBool (b : bool)
| VInt (z : Z)
| VFloat (m e : Z)
| VNaN
| VInfinity (negative : bool)
| VStr (s : string)
| VList (l : list pyval)
| VDict (d : list (string * pyval)).

(** [d[k] = v] keeps the place of a key that is already there. *)
Fixpoint dict_set {V} (d : list (string * V)) (k : string) (v : V)
    : list (string * V) :=
  match d with
  | [] => [(k, v)]
  | (k', v') :: d' =>
      if String.eqb k k' then (k, v) :: d' else (k', v') :: dict_set d' k v
  end.

Fixpoint dict_find {V} (d : list (string * V)) (k : string) : option V :=
  match d with
  | [] => None
  | (k', v') :: d' => if String.eqb k k' then Some v' else dict_find d' k
  end.

(** [x.get(k)]: only dicts have [get]. *)
Definition py_get (x : pyval) (k : string) : result pyval :=
  match x with
  | VDict d => Ok (default VNone (dict_find d k))
  | _ => Exc AttributeError
  end.

(** The double nearest to [m * 10^e] is zero: at most half the least positive
    double, 2^-1074 (ties go to even, that is to zero). *)
Definition float_is_zero (m e : Z) : bool :=
  (m =? 0) || ((e <? 0) && (Z.abs m * 2 ^ 1075 <=? 10 ^ (- e))).

(** [bool(x)] *)
Definition truthy (x : pyval) : bool :=
  match x with
  | VNone => false
  | VBool b => b
  | VInt z => negb (z =? 0)
  | VFloat m e => negb (float_is_zero m e)
  | VNaN | VInfinity _ => true
  | VStr s => negb (String.eqb s "")
  | VList l => match l with [] => false | _ => true end
  | VDict d => match d with [] => false | _ => true end
  end.

(** [x == "..."] *)
Definition eq_str (x : pyval) (s : string) : bool :=
  match x with VStr t => String.eqb t s | _ => false end.

(** ** Codecs *)

Definition byte (c : ascii) : Z := Z.of_N (N_of_ascii c).
Definition in_range (lo hi : Z) (c : ascii) : bool :=
  (lo <=? byte c) && (byte c <=? hi).
Definition chr (z : Z) : ascii := ascii_of_N (Z.to_N z).

(** Well-formed UTF-8; [surrogates] lets the three-byte encodings of
    U+D800..U+DFFF pass (error handler [surrogatepass]). *)
Fixpoint utf8_ok (surrogates : bool) (s : string) : bool :=
  match s with
  | EmptyString => true
  | String c1 s1 =>
    if byte c1 <? 128 then utf8_ok surrogates s1 else
    match s1 with
    | EmptyString => false
    | String c2 s2 =>
      if in_range 194 223 c1 then in_range 128 191 c2 && utf8_ok surrogates s2 else
      match s2 with
      | EmptyString => false
      | String c3 s3 =>
        if in_range 224 239 c1 then
          in_range (if byte c1 =? 224 then 160 else 128)
                   (if (byte c1 =? 237) && negb surrogates then 159 else 191) c2
          && in_range 128 191 c3 && utf8_ok surrogates s3
        else match s3 with
        | EmptyString => false
        | String c4 s4 =>
          in_range 240 244 c1
          && in_range (if byte c1 =? 240 then 144 else 128)
                      (if byte c1 =? 244 then 143 else 191) c2
          && in_range 128 191 c3 && in_range 128 191 c4 && utf8_ok surrogates s4
        end
      end
    end
  end.

(** [b.decode()]: UTF-8, strict. *)
Definition decode (b : string) : result string :=
  if utf8_ok false b then Ok b else Exc UnicodeDecodeError.

(** The UTF-8 encoding of one code point (surrogates like the others). *)
Definition utf8_encode (z : Z) : string :=
  if z <? 128 then String (chr z) ""
  else if z <? 2048 then
    String (chr (192 + z / 64)) (String (chr (128 + z mod 64)) "")
  else if z <? 65536 then
    String (chr (224 + z / 4096))
      (String (chr (128 + z / 64 mod 64)) (String (chr (128 + z mod 64)) ""))
  else
    String (chr (240 + z / 262144))
      (String (chr (128 + z / 4096 mod 64))
        (String (chr (128 + z / 64 mod 64)) (String (chr (128 + z mod 64)) ""))).

Definition is_high_surrogate (z : Z) : bool := (55296 <=? z) && (z <=? 56319).
Definition is_low_surrogate (z : Z) : bool := (56320 <=? z) && (z <=? 57343).
Definition join_surrogates (hi lo : Z) : Z :=
  65536 + (hi - 55296) * 1024 + (lo - 56320).

(** 16-bit units of a UTF-16 byte string; [None] for an odd byte count. *)
Fixpoint units16 (big : bool) (s : string) : option (list Z) :=
  match s with
  | EmptyString => Some []
  | String a (String b s') =>
      let u := if big then byte a * 256 + byte b else byte b * 256 + byte a in
      cons u <$> units16 big s'
  | String _ EmptyString => None
  end.

Fixpoint join_units (us : list Z) : string :=
  match us with
  | [] => ""
  | u :: us' =>
      match us' with
      | v :: us'' =>
          if is_high_surrogate u && is_low_surrogate v
          then utf8_encode (join_surrogates u v) +:+ join_units us''
          else utf8_encode u +:+ join_units us'
      | [] => utf8_encode u
      end
  end.

Definition decode16 (big : bool) (s : string) : result string :=
  match units16 big s with
  | Some us => Ok (join_units us)
  | None => Exc UnicodeDecodeError
  end.

Fixpoint decode32 (big : bool) (s : string) : result string :=
  match s with
  | EmptyString => Ok ""
  | String a (String b (String c (String d s'))) =>
      let z := if big
               then byte a * 16777216 + byte b * 65536 + byte c * 256 + byte d
               else byte d * 16777216 + byte c * 65536 + byte b * 256 + byte a in
      if z <=? 1114111
      then let? t := decode32 big s' in Ok (utf8_encode z +:+ t)
      else Exc UnicodeDecodeError
  | _ => Exc UnicodeDecodeError
  end.

(** JSON texts written with single quotes. *)
Fixpoint json_text (s : string) : string :=
  match s with
  | EmptyString => EmptyString
  | String c s' => String (if byte c =? 39 then chr 34 else c) (json_text s')
  end.

(** [json.detect_encoding]: the codec name, and the bytes its BOM takes. *)
Inductive encoding : Type :=
| enc_utf8
| enc_utf8_sig
| enc_utf16 (big bom : bool)
| enc_utf32 (big bom : bool).

Definition bytes_of (l : list Z) : string :=
  foldr (fun z s => String (chr z) s) "" l.

Definition nonzero_at (n : nat) (s : string) : bool :=
  match String.get n s with Some c => negb (byte c =? 0) | None => false end.

Definition detect_encoding (b : string) : encoding :=
  if startswith b (bytes_of [0; 0; 254; 255]) then enc_utf32 true true
  else if startswith b (bytes_of [255; 254; 0; 0]) then enc_utf32 false true
  else if startswith b (bytes_of [254; 255]) then enc_utf16 true true
  else if startswith b (bytes_of [255; 254]) then enc_utf16 false true
  else if startswith b (bytes_of [239; 187; 191]) then enc_utf8_sig
  else if (4 <=? String.length b)%nat then
    if negb (nonzero_at 0 b) then
      if nonzero_at 1 b then enc_utf16 true false else enc_utf32 true false
    else if negb (nonzero_at 1 b) then
      if nonzero_at 2 b || nonzero_at 3 b
      then enc_utf16 false false else enc_utf32 false false
    else enc_utf8
  else if (String.length b =? 2)%nat then
    if negb (nonzero_at 0 b) then enc_utf16 true false
    else if negb (nonzero_at 1 b) then enc_utf16 false false
    else enc_utf8
  else enc_utf8.

(** [b.decode(detect_encoding(b), 'surrogatepass')] *)
Definition decode_json_bytes (b : string) : result string :=
  match detect_encoding b with
  | enc_utf8 => if utf8_ok true b then Ok b else Exc UnicodeDecodeError
  | enc_utf8_sig =>
      let b' := drop_str 3 b in
      if utf8_ok true b' then Ok b' else Exc UnicodeDecodeError
  | enc_utf16 big bom => decode16 big (if bom then drop_str 2 b else b)
  | enc_utf32 big bom => decode32 big (if bom then drop_str 4 b else b)
  end.

(** ** [json.loads] *)

Definition is_ws (c : ascii) : bool :=
  (byte c =? 32) || (byte c =? 9) || (byte c =? 10) || (byte c =? 13).

Fixpoint skip_ws (s : string) : string :=
  match s with
  | String c s' => if is_ws c then skip_ws s' else s
  | EmptyString => s
  end.

Definition hex_digit (c : ascii) : option Z :=
  if in_range 48 57 c then Some (byte c - 48)
  else if in_range 97 102 c then Some (byte c - 87)
  else if in_range 65 70 c then Some (byte c - 55)
  else None.

Definition hex4 (a b c d : ascii) : option Z :=
  match hex_digit a, hex_digit b, hex_digit c, hex_digit d with
  | Some x, Some y, Some z, Some w => Some (x * 4096 + y * 256 + z * 16 + w)
  | _, _, _, _ => None
  end.

Definition simple_escape (c : ascii) : option ascii :=
  if (byte c =? 34) || (byte c =? 92) || (byte c =? 47) then Some c
  else if byte c =? 98 then Some (chr 8)
  else if byte c =? 102 then Some (chr 12)
  else if byte c =? 110 then Some (chr 10)
  else if byte c =? 114 then Some (chr 13)
  else if byte c =? 116 then Some (chr 9)
  else None.

Definition put (t : string) (r : result (string * string))
    : result (string * string) :=
  let? (v, rest) := r in Ok (t +:+ v, rest).

(** [py_scanstring], strict mode: the text up to the closing quote and what
    follows it. *)
Fixpoint scan_string (s : string) : result (string * string) :=
  match s with
  | EmptyString => Exc JSONDecodeError
  | String c s' =>
    if byte c =? 34 then Ok ("", s')
    else if byte c <? 32 then Exc JSONDecodeError
    else if negb (byte c =? 92) then put (String c "") (scan_string s')
    else match s' with
    | EmptyString => Exc JSONDecodeError
    | String e s1 =>
      if negb (byte e =? 117) then
        match simple_escape e with
        | Some x => put (String x "") (scan_string s1)
        | None => Exc JSONDecodeError
        end
      else match s1 with
      | String a (String b (String d (String f s2))) =>
        match hex4 a b d f with
        | None => Exc JSONDecodeError
        | Some u =>
          if negb (is_high_surrogate u) then put (utf8_encode u) (scan_string s2)
          else match s2 with
          | String q (String w (String a' (String b' (String d' (String f' s3))))) =>
            if negb ((byte q =? 92) && (byte w =? 117))
            then put (utf8_encode u) (scan_string s2)
            else match hex4 a' b' d' f' with
            | None => Exc JSONDecodeError
            | Some v =>
              if is_low_surrogate v
              then put (utf8_encode (join_surrogates u v)) (scan_string s3)
              else put (utf8_encode u) (scan_string s2)
            end
          | _ => put (utf8_encode u) (scan_string s2)
          end
        end
      | _ => Exc JSONDecodeError
      end
    end
  end.

Definition is_digit (c : ascii) : bool := in_range 48 57 c.

Fixpoint span_digits (s : string) : string * string :=
  match s with
  | String c s' =>
      if is_digit c then let (ds, rest) := span_digits s' in (String c ds, rest)
      else ("", s)
  | EmptyString => ("", "")
  end.

Fixpoint digits_value (acc : Z) (s : string) : Z :=
  match s with
  | String c s' => digits_value (acc * 10 + (byte c - 48)) s'
  | EmptyString => acc
  end.

(** [int(numstr)] refuses more than [sys.get_int_max_str_digits()] digits. *)
Definition int_max_str_digits : nat := 4300.

(** The optional fraction and exponent of the scanner's number pattern: each
    is taken only when at least one digit follows. *)
Definition scan_frac (s : string) : option string * string :=
  match s with
  | String c s' =>
      if byte c =? 46 then
        match span_digits s' with
        | ("", _) => (None, s)
        | (ds, rest) => (Some ds, rest)
        end
      else (None, s)
  | EmptyString => (None, s)
  end.

Definition scan_exp_digits (neg : bool) (orig s : string) : option Z * string :=
  match span_digits s with
  | ("", _) => (None, orig)
  | (ds, rest) =>
      (Some (if neg then - digits_value 0 ds else digits_value 0 ds), rest)
  end.

Definition scan_exp (s : string) : option Z * string :=
  match s with
  | String c s' =>
      if (byte c =? 101) || (byte c =? 69) then
        match s' with
        | String d s'' =>
            if byte d =? 45 then scan_exp_digits true s s''
            else if byte d =? 43 then scan_exp_digits false s s''
            else scan_exp_digits false s s'
        | EmptyString => (None, s)
        end
      else (None, s)
  | EmptyString => (None, s)
  end.

(** The integer part: a zero, or digits that start with no zero. *)
Definition scan_int (s : string) : option (string * string) :=
  match s with
  | String c s' =>
      if byte c =? 48 then Some (String c "", s')
      else if is_digit c then Some (span_digits s)
      else None
  | EmptyString => None
  end.

Definition scan_number (neg : bool) (s : string) : result (pyval * string) :=
  match scan_int s with
  | None => Exc JSONDecodeError
  | Some (ds, s1) =>
      let sign := if neg then -1 else 1 in
      let '(frac, s2) := scan_frac s1 in
      let '(expo, s3) := scan_exp s2 in
      match frac, expo with
      | None, None =>
          if (int_max_str_digits <? String.length ds)%nat then Exc ValueError
          else Ok (VInt (sign * digits_value 0 ds), s3)
      | _, _ =>
          let fr := default "" frac in
          Ok (VFloat (sign * digits_value 0 (ds +:+ fr))
                     (default 0 expo - Z.of_nat (String.length fr)), s3)
      end
  end.

(** Literals and numbers: every value that is not a string or a container. *)
Definition scan_atom (s : string) : result (pyval * string) :=
  if startswith s "null" then Ok (VNone, drop_str 4 s)
  else if startswith s "true" then Ok (VBool true, drop_str 4 s)
  else if startswith s "false" then Ok (VBool false, drop_str 5 s)
  else if startswith s "NaN" then Ok (VNaN, drop_str 3 s)
  else if startswith s "Infinity" then Ok (VInfinity false, drop_str 8 s)
  else if startswith s "-Infinity" then Ok (VInfinity true, drop_str 9 s)
  else match s with
  | String c s' => if byte c =? 45 then scan_number true s' else scan_number false s
  | EmptyString => Exc JSONDecodeError
  end.

(** [scan_once] and the loops of [JSONObject] and [JSONArray]; [scan_pairs]
    starts at a key, [scan_items] at an element. *)
Fixpoint scan_once (fuel : nat) (s : string) : result (pyval * string) :=
  match fuel with
  | O => Running
  | S fuel' =>
    match s with
    | EmptyString => Exc JSONDecodeError
    | String c s' =>
      if byte c =? 34 then let? (t, rest) := scan_string s' in Ok (VStr t, rest)
      else if byte c =? 123 then
        match skip_ws s' with
        | String d s2 =>
            if byte d =? 125 then Ok (VDict [], s2)
            else scan_pairs fuel' [] (String d s2)
        | EmptyString => Exc JSONDecodeError
        end
      else if byte c =? 91 then
        match skip_ws s' with
        | String d s2 =>
            if byte d =? 93 then Ok (VList [], s2)
            else scan_items fuel' [] (String d s2)
        | EmptyString => Exc JSONDecodeError
        end
      else scan_atom s
    end
  end
with scan_pairs (fuel : nat) (acc : list (string * pyval)) (s : string)
    : result (pyval * string) :=
  match fuel with
  | O => Running
  | S fuel' =>
    match s with
    | String q s1 =>
      if negb (byte q =? 34) then Exc JSONDecodeError else
      let? (key, s2) := scan_string s1 in
      match skip_ws s2 with
      | String colon s3 =>
        if negb (byte colon =? 58) then Exc JSONDecodeError else
        let? (v, s4) := scan_once fuel' (skip_ws s3) in
        let acc' := dict_set acc key v in
        match skip_ws s4 with
        | String d s5 =>
            if byte d =? 125 then Ok (VDict acc', s5)
            else if byte d =? 44 then scan_pairs fuel' acc' (skip_ws s5)
            else Exc JSONDecodeError
        | EmptyString => Exc JSONDecodeError
        end
      | EmptyString => Exc JSONDecodeError
      end
    | EmptyString => Exc JSONDecodeError
    end
  end
with scan_items (fuel : nat) (acc : list pyval) (s : string)
    : result (pyval * string) :=
  match fuel with
  | O => Running
  | S fuel' =>
    let? (v, s1) := scan_once fuel' s in
    let acc' := (acc ++ [v])%list in
    match skip_ws s1 with
    | String d s2 =>
        if byte d =? 93 then Ok (VList acc', s2)
        else if byte d =? 44 then scan_items fuel' acc' (skip_ws s2)
        else Exc JSONDecodeError
    | EmptyString => Exc JSONDecodeError
    end
  end.

(** Every scan consumes a character or descends from [scan_once] into one
    loop, so twice the length of the text bounds the recursion. *)
Definition json_fuel (s : string) : nat := 2 * String.length s + 2.

(** [json.loads(s)] on a [str] *)
Definition loads_str (s : string) : result pyval :=
  let s0 := skip_ws s in
  let? (v, rest) := scan_once (json_fuel s0) s0 in
  match skip_ws rest with
  | EmptyString => Ok v
  | String _ _ => Exc JSONDecodeError
  end.

(** [json.loads(b)] on [bytes]; [None] stands for Python's [None] (a Kafka
    tombstone), which [json.loads] refuses with a [TypeError]. *)
Definition loads (b : option string) : result pyval :=
  match b with
  | None => Exc TypeError
  | Some b => let? s := decode_json_bytes b in loads_str s
  end.

(** ** [json.loads] returns on every input

    Each scan leaves less text than it was given, so [json_fuel] is enough:
    the parser never stops for want of fuel. *)

Lemma string_length_ind (P : string -> Prop) :
  (forall s, (forall t, (String.length t < String.length s)%nat -> P t) -> P s) ->
  forall s, P s.
Proof.
  intros H s. remember (String.length s) as n eqn:E. revert s E.
  induction (Nat.lt_wf_0 n) as [n _ IH]. intros s ->. apply H.
  intros t Ht. by eapply IH.
Qed.

Lemma skip_ws_length s : (String.length (skip_ws s) <= String.length s)%nat.
Proof. induction s as [|c s IH]; simpl; [done|]. case_match; simpl; lia. Qed.

(** [consumes r s]: [r] is a value with less text left than [s], or an
    exception. *)
Definition consumes {A} (r : result (A * string)) (s : string) : Prop :=
  match r with
  | Ok (_, rest) => (String.length rest < String.length s)%nat
  | Exc _ => True
  | Running => False
  end.

Lemma consumes_put t r s : consumes r s -> consumes (put t r) s.
Proof. by destruct r as [[]| |]. Qed.

Lemma consumes_le {A} (r : result (A * string)) s t :
  consumes r s -> (String.length s <= String.length t)%nat -> consumes r t.
Proof. destruct r as [[]| |]; simpl; [lia|done|done]. Qed.

Lemma scan_string_consumes s : consumes (scan_string s) s.
Proof.
  induction s as [s IH] using string_length_ind.
  assert (Hrec : forall t u, (String.length u < String.length s)%nat ->
    consumes (put t (scan_string u)) s).
  { intros t u Hu. apply consumes_put. eapply consumes_le; [by apply IH|lia]. }
  destruct s as [|c s]; [done|]. cbn [scan_string].
  repeat case_match; subst; try done; try (apply Hrec); simpl; try lia.
Qed.

Lemma span_digits_length s ds rest :
  span_digits s = (ds, rest) ->
  String.length s = (String.length ds + String.length rest)%nat.
Proof.
  revert ds rest. induction s as [|c s IH]; simpl; intros ds rest H; [by simplify_eq|].
  destruct (is_digit c); [|by simplify_eq].
  destruct (span_digits s) as [ds' rest'] eqn:E. simplify_eq. simpl.
  by rewrite (IH _ _ eq_refl).
Qed.

Lemma scan_frac_length s o rest :
  scan_frac s = (o, rest) -> (String.length rest <= String.length s)%nat.
Proof.
  unfold scan_frac. intros H. repeat case_match; simplify_eq; try done.
  apply span_digits_length in H2. simpl in *. lia.
Qed.

Lemma scan_exp_length s o rest :
  scan_exp s = (o, rest) -> (String.length rest <= String.length s)%nat.
Proof.
  assert (Hd : forall neg orig u o' rest', (String.length u <= String.length orig)%nat ->
    scan_exp_digits neg orig u = (o', rest') ->
    (String.length rest' <= String.length orig)%nat).
  { unfold scan_exp_digits. intros neg orig u o' rest' Hu H.
    destruct (span_digits u) as [ds v] eqn:E. apply span_digits_length in E.
    destruct ds; simplify_eq; simpl in *; lia. }
  unfold scan_exp. intros H. repeat case_match; simplify_eq; try done;
    (eapply Hd; [|exact H]); simpl; lia.
Qed.

Lemma scan_int_length s ds rest :
  scan_int s = Some (ds, rest) -> (String.length rest < String.length s)%nat.
Proof.
  destruct s as [|c s]; [done|]. cbn [scan_int].
  destruct (byte c =? 48); [intros [= <- <-]; simpl; lia|].
  destruct (is_digit c) eqn:Ed; [|done]. intros [= E]. cbn [span_digits] in E.
  rewrite Ed in E. destruct (span_digits s) as [ds' r] eqn:E'.
  apply span_digits_length in E'. simplify_eq. simpl. lia.
Qed.

Lemma scan_number_consumes neg s : consumes (scan_number neg s) s.
Proof.
  unfold scan_number. destruct (scan_int s) as [[ds s1]|] eqn:E1; [|done].
  apply scan_int_length in E1.
  destruct (scan_frac s1) as [o s2] eqn:E2. apply scan_frac_length in E2.
  destruct (scan_exp s2) as [e s3] eqn:E3. apply scan_exp_length in E3.
  repeat case_match; simplify_eq; simpl; done || lia.
Qed.

Lemma drop_str_length n s :
  String.length (drop_str n s) = (String.length s - n)%nat.
Proof. revert s. induction n as [|n IH]; intros [|c s]; simpl; done || apply IH. Qed.

Lemma scan_atom_consumes s : consumes (scan_atom s) s.
Proof.
  unfold scan_atom. destruct s as [|c s]; [done|].
  repeat case_match; subst;
    try (eapply consumes_le; [apply scan_number_consumes|simpl; lia]);
    cbn [consumes]; rewrite drop_str_length; simpl; lia.
Qed.

Lemma scan_consumes fuel :
  (forall s, (2 * String.length s + 1 <= fuel)%nat -> consumes (scan_once fuel s) s) /\
  (forall acc s, (2 * String.length s + 2 <= fuel)%nat -> consumes (scan_pairs fuel acc s) s) /\
  (forall acc s, (2 * String.length s + 2 <= fuel)%nat -> consumes (scan_items fuel acc s) s).
Proof.
  induction fuel as [|fuel (IHo & IHp & IHi)]; [repeat split; intros; lia|].
  split; [|split].
  - intros s Hs. destruct s as [|c s]; [done|]. simpl in Hs. cbn [scan_once].
    pose proof (skip_ws_length s) as Hws.
    destruct (byte c =? 34).
    { pose proof (scan_string_consumes s) as Hc.
      destruct (scan_string s) as [[t rest]| |]; simpl in *; [lia|done|done]. }
    destruct (byte c =? 123); [|destruct (byte c =? 91); [|apply scan_atom_consumes]];
      destruct (skip_ws s) as [|d s2]; try done; simpl in Hws;
      (case_match; [simpl; lia|]);
      (eapply consumes_le; [apply IHp || apply IHi; simpl; lia|simpl; lia]).
  - intros acc s Hs. destruct s as [|q s1]; [done|]. simpl in Hs. cbn [scan_pairs].
    destruct (negb (byte q =? 34)); [done|].
    pose proof (scan_string_consumes s1) as Hc.
    destruct (scan_string s1) as [[key s2]| |]; cbn [rbind consumes] in *; try done.
    pose proof (skip_ws_length s2). destruct (skip_ws s2) as [|colon s3]; [done|].
    simpl in *. destruct (negb (byte colon =? 58)); [done|].
    pose proof (skip_ws_length s3). pose proof (IHo (skip_ws s3) ltac:(lia)) as Ho.
    destruct (scan_once fuel (skip_ws s3)) as [[v s4]| |]; cbn [rbind consumes] in *; try done.
    pose proof (skip_ws_length s4). destruct (skip_ws s4) as [|d s5]; [done|].
    simpl in *. destruct (byte d =? 125); [simpl; lia|].
    destruct (byte d =? 44); [|done]. pose proof (skip_ws_length s5).
    eapply consumes_le; [apply IHp; lia|simpl; lia].
  - intros acc s Hs. cbn [scan_items].
    pose proof (IHo s ltac:(lia)) as Ho.
    destruct (scan_once fuel s) as [[v s1]| |]; cbn [rbind consumes] in *; try done.
    pose proof (skip_ws_length s1). destruct (skip_ws s1) as [|d s2]; [done|].
    simpl in *. destruct (byte d =? 93); [simpl; lia|].
    destruct (byte d =? 44); [|done]. pose proof (skip_ws_length s2).
    eapply consumes_le; [apply IHi; lia|simpl; lia].
Qed.

Lemma loads_str_returns s : loads_str s <> Running.
Proof.
  unfold loads_str, json_fuel. set (s0 := skip_ws s).
  destruct (scan_consumes (2 * String.length s0 + 2)) as [Ho _].
  specialize (Ho s0 ltac:(lia)).
  destruct (scan_once _ s0) as [[v rest]| |]; simpl in *; [|done|done].
  by destruct (skip_ws rest).
Qed.

Lemma decode32_returns big s : decode32 big s <> Running.
Proof.
  induction s as [s IH] using string_length_ind.
  destruct s as [|a [|b [|c [|d s]]]]; try done. cbn [decode32].
  case_match; [|done]. pose proof (IH s ltac:(simpl; lia)).
  by destruct (decode32 big s).
Qed.

Lemma decode_json_bytes_returns b : decode_json_bytes b <> Running.
Proof.
  unfold decode_json_bytes, decode16.
  repeat case_match; try done; apply decode32_returns.
Qed.

Lemma loads_returns b : loads b <> Running.
Proof.
  destruct b as [b|]; [|done]. simpl. pose proof (decode_json_bytes_returns b).
  destruct (decode_json_bytes b); simpl; [apply loads_str_returns|done|done].
Qed.
