(* ===== verification/Config.v ===== *)
(** The configuration ([config.toml]) as [toml.load] returns it.

    The TOML parser is a library; its result is read by the code with [[]]
    (a missing key raises [KeyError]) and [.get].  Every section and every key
    may be absent; the keys that are there have the types the shipped
    [config.toml] files give them. *)
From S2P Require Import Prelude.

Local Open Scope string_scope.
Local Open Scope Z_scope.
Local Open Scope py_scope.

Record kafka_section := KafkaSection {
  kafka_brokers : option string;
  kafka_topic : option string;
  kafka_group_id : option string
}.

Record backup_section := BackupSection {
  restic_binary : option string;
  backup_workers : option Z;
  base_path : option string;
  repo_depth : option Z;
  restic_password : option string
}.

Record minio_section := MinioSection {
  minio_endpoint : option string;
  minio_bucket : option string;
  minio_use_tls : option bool;
  minio_access_key : option string;
  minio_secret_key : option string
}.

Record config := Config {
  cfg_kafka : option kafka_section;
  cfg_backup : option backup_section;
  cfg_minio : option minio_section;
  cfg_redis_url : option (option string);  (* section [db], key [redis_url] *)
  cfg_keep_days : option (option Z);       (* section [prune], key [keep_days] *)
  cfg_port : option (option Z)             (* section [metrics], key [port] *)
}.

(** [d[k]] *)
Definition getitem {A} (k : string) (o : option A) : result A :=
  match o with
  | Some a => Ok a
  | None => Exc (KeyError k)
  end.

Lemma getitem_Some {A} k (o : option A) a : getitem k o = Ok a -> o = Some a.
Proof. destruct o; simpl; congruence. Qed.

(** [cfg[s][k]] *)
Definition cfg_item {A B} (sect : string) (o : option A) (key : string)
    (proj : A -> option B) : result B :=
  let? s := getitem sect o in getitem key (proj s).

(** [cfg[s].get(k, d)]: the section must be there, the key need not. *)
Definition cfg_get {A B} (sect : string) (o : option A)
    (proj : A -> option B) (d : B) : result B :=
  let? s := getitem sect o in Ok (default d (proj s)).

(** [cfg.get(s, {}).get(k, d)] *)
Definition cfg_get2 {B} (o : option (option B)) (d : B) : B :=
  match o with Some (Some b) => b | _ => d end.

Definition get_base_path (cfg : config) : result string :=
  cfg_item "backup" (cfg_backup cfg) "base_path" base_path.
Definition get_repo_depth (cfg : config) : result Z :=
  cfg_item "backup" (cfg_backup cfg) "repo_depth" repo_depth.
Definition get_restic_binary (cfg : config) : result string :=
  cfg_get "backup" (cfg_backup cfg) restic_binary "restic".
Definition get_workers (cfg : config) : result Z :=
  cfg_get "backup" (cfg_backup cfg) backup_workers 4.
Definition get_endpoint (cfg : config) : result string :=
  cfg_item "minio" (cfg_minio cfg) "endpoint" minio_endpoint.
Definition get_bucket (cfg : config) : result string :=
  cfg_item "minio" (cfg_minio cfg) "bucket" minio_bucket.
Definition get_use_tls (cfg : config) : result bool :=
  cfg_get "minio" (cfg_minio cfg) minio_use_tls false.
Definition get_redis_url (cfg : config) : result string :=
  cfg_item "db" (cfg_redis_url cfg) "redis_url" id.
Definition get_keep_days (cfg : config) : Z := cfg_get2 (cfg_keep_days cfg) 90.
Definition get_metrics_port (cfg : config) : Z := cfg_get2 (cfg_port cfg) 9101.
Definition get_kafka {B} (key : string) (proj : kafka_section -> option B)
    (cfg : config) : result B :=
  cfg_item "kafka" (cfg_kafka cfg) key proj.
Definition get_restic_password (cfg : config) : result string :=
  cfg_get "backup" (cfg_backup cfg) restic_password "".
Definition get_access_key (cfg : config) : result string :=
  cfg_get "minio" (cfg_minio cfg) minio_access_key "".
Definition get_secret_key (cfg : config) : result string :=
  cfg_get "minio" (cfg_minio cfg) minio_secret_key "".
