(* ===== verification/Effects.v ===== *)
(** Programs that call the outside world.

    A Python function is a [prog]: a tree whose nodes are the calls it makes
    to the services and libraries around it ([Do]) and the accesses to the
    mutable objects of its own process ([Mem]); its leaves carry the result.
    What a call answers is not fixed: a [handler] over an abstract world [W]
    answers it, with a value or with an exception.  A theorem stated for every
    handler holds whatever Redis, Kafka, restic, MinIO and the operating
    system do; a theorem that relies on a service's documented behaviour names
    that behaviour as a law of the handler. *)
From S2P Require Import Prelude PyStr PyVal Config.

Local Open Scope string_scope.
Local Open Scope Z_scope.
Local Open Scope py_scope.

(** ** Calls *)

(** A command queued on a redis-py pipeline. *)
Inductive pcmd : Type :=
| PHSet (name : string) (key value : pyval)
| PHDel (name : string) (key : pyval).

(** [subprocess.CompletedProcess] *)
Record completed := Completed {
  returncode : Z;
  stdout : string;
  stderr : string
}.

(** [KafkaError.code()] *)
Inductive kafka_code : Type :=
| _PARTITION_EOF
| _ALL_BROKERS_DOWN
| _TRANSPORT
| OtherCode (code : Z).

#[export] Instance kafka_code_eq_dec : EqDecision kafka_code.
Proof. solve_decision. Defined.

(** A polled message: an error event, or a record's value ([None] for a
    tombstone). *)
Inductive kafka_msg : Type :=
| MsgError (code : kafka_code)
| MsgValue (value : option string).

(** What one [poll] does: the error callbacks librdkafka runs from inside it,
    and the message it returns, if any. *)
Record poll_reply := PollReply {
  poll_errors : list kafka_code;
  poll_msg : option kafka_msg
}.

(** Times are counted in ticks of 2^-22 s, the spacing of the doubles
    [time.time()] returns from 2004 to 2038: the code's subtractions and
    comparisons of times are exact in it. *)
Definition tick : Z := 4194304.
Definition seconds (n : Z) : Z := n * tick.

Inductive call : Type :=
| RedisFromUrl (url : string)
| RedisPing
| RedisHLen (name : string)
| RedisHGetAll (name : string)
| RedisExists (name : string)
| RedisRename (src dst : string)
| RedisHScan (name : string) (cursor count : Z)
| RedisDelete (name : string)
| RedisSetNX (name value : string) (ex : Z)
| RedisGet (name : string)
| RedisHSetMapping (name : string) (mapping : list (string * string))
| RedisPipeline (cmds : list pcmd)
| KafkaNew (brokers group_id auto_offset_reset : string) (enable_auto_commit : bool)
| KafkaListTopics (timeout : Z)
| KafkaSubscribe (topics : list string)
| KafkaPoll (timeout : Z)
| KafkaCommit
| KafkaClose
| SubprocessRun (argv : list string) (env : gmap string string)
                (timeout : option Z)
| OsPathExists (path : string)
| TempFile (suffix : string)
| FileWrite (name content : string)
| OsUnlink (name : string)
| OsEnviron
| SysArgv
| GetHostname
| TomlLoad (path : string)
| TimeTime
| TimeSleep (secs : Z)
| ReadRunning
| StartHttpServer (port : Z)
| MinioListObjects (endpoint access_key secret_key : string) (secure : bool)
                   (bucket : string)
| Print (line : string)
| PrintErr (line : string).

(** The type of a call's answer. *)
Definition resp (c : call) : Type :=
  match c with
  | RedisHLen _ | RedisExists _ | RedisDelete _ | RedisHSetMapping _ _ => Z
  | RedisHGetAll _ => list (string * string)
  | RedisHScan _ _ _ => Z * list (string * string)
  | RedisSetNX _ _ _ => bool
  | RedisGet _ => option string
  | KafkaListTopics _ => Z
  | KafkaPoll _ => poll_reply
  | SubprocessRun _ _ _ => completed
  | OsPathExists _ => bool
  | TempFile _ => string
  | OsEnviron => gmap string string
  | SysArgv => list string
  | GetHostname => string
  | TomlLoad _ => config
  | TimeTime => Z
  | ReadRunning => bool
  | MinioListObjects _ _ _ _ _ => list string
  | _ => unit
  end.

(** ** Programs *)

Inductive prog (S A : Type) : Type :=
| Ret (a : A)
| Do (c : call) (k : result (resp c) -> prog S A)
| Mem (X : Type) (f : S -> X * S) (k : X -> prog S A).
Arguments Ret {S A} a.
Arguments Do {S A} c k.
Arguments Mem {S A X} f k.

(** A Python computation over process state [S]: returns or raises. *)
Abbreviation py S A := (prog S (result A)).

Fixpoint pbind {S A B} (p : prog S A) (f : A -> prog S B) : prog S B :=
  match p with
  | Ret a => f a
  | Do c k => Do c (fun r => pbind (k r) f)
  | Mem g k => Mem g (fun x => pbind (k x) f)
  end.

Definition ret {S A} (a : A) : py S A := Ret (Ok a).
Definition raise {S A} (e : exn) : py S A := Ret (Exc e).
Definition lift {S A} (r : result A) : py S A := Ret r.

Definition bind {S A B} (m : py S A) (f : A -> py S B) : py S B :=
  pbind m (fun r => match r with
                    | Ok a => f a
                    | Exc e => Ret (Exc e)
                    | Running => Ret Running
                    end).

Notation "'let*' x := m 'in' k" := (bind m (fun x => k))
  (at level 10, x pattern, m at level 100, k at level 200) : py_scope.
Notation "m ;; k" := (bind m (fun _ => k))
  (at level 100, right associativity) : py_scope.

(** One external call. *)
Definition do {S} (c : call) : py S (resp c) := Do c Ret.

(** Access to the process's own mutable objects. *)
Definition get_state {S} : py S S := Mem (fun s => (Ok s, s)) Ret.
Definition modify {S} (f : S -> S) : py S unit := Mem (fun s => (Ok tt, f s)) Ret.
Definition atomically {S A} (f : S -> result A * S) : py S A := Mem f Ret.

(** [try: m / except E as e: handler]: [catch e] is [None] when no clause
    matches [e]. *)
Definition try_except {S A} (m : py S A) (catch : exn -> option (py S A)) : py S A :=
  pbind m (fun r => match r with
                    | Exc e => match catch e with Some c => c | None => Ret r end
                    | _ => Ret r
                    end).

(** [try: m / finally: fin]: an exception of [fin] replaces what [m] did; code
    that never returns has no [finally]. *)
Definition try_finally {S A} (m : py S A) (fin : py S unit) : py S A :=
  pbind m (fun r => match r with
                    | Running => Ret Running
                    | _ => pbind fin (fun f => match f with
                                               | Ok _ => Ret r
                                               | Exc e => Ret (Exc e)
                                               | Running => Ret Running
                                               end)
                    end).

(** [for x in l: body] *)
Fixpoint for_each {S A} (l : list A) (body : A -> py S unit) : py S unit :=
  match l with
  | [] => ret tt
  | a :: l' => body a ;; for_each l' body
  end.

(** [[f(x) for x in l]] *)
Fixpoint map_each {S A B} (l : list A) (f : A -> py S B) : py S (list B) :=
  match l with
  | [] => ret []
  | a :: l' => let* b := f a in let* bs := map_each l' f in ret (b :: bs)
  end.

(** [while True], from loop variables [v]: the body returns the next loop
    variables ([inl]) or leaves the loop ([inr]).  [fuel] bounds the number
    of iterations that are looked at. *)
Fixpoint while_true {S V A} (fuel : nat) (body : V -> py S (V + A)) (v : V) : py S A :=
  match fuel with
  | O => Ret Running
  | S fuel' =>
      let* x := body v in
      match x with
      | inl v' => while_true fuel' body v'
      | inr a => ret a
      end
  end.

(** [[x for x in l if f(x)]] *)
Fixpoint filter_each {S A} (l : list A) (f : A -> py S bool) : py S (list A) :=
  match l with
  | [] => ret []
  | a :: l' =>
      let* b := f a in
      let* bs := filter_each l' f in
      ret (if b : bool then a :: bs else bs)
  end.

(** [sys.argv[1] if len(sys.argv) > 1 else "config.toml"], the first statement
    of each daemon's [main]. *)
Definition config_path {S} : py S string :=
  let* argv := do SysArgv in
  ret (match argv with _ :: p :: _ => p | _ => "config.toml" end).
