(* ===== verification/Semantics.v ===== *)
(** Running programs against a world, to the end or up to a kill; weakest
    preconditions with a crash condition; thread pools.

    [run] executes a program; [run_for n] executes its first [n] nodes, which
    is what is left of it when the process is killed there (no [finally] block
    runs).  [wpc C Q] is the weakest precondition under which the program ends
    in [Q] and [C] holds at every point where a kill can hit.  [pool]
    interleaves the programs of a [ThreadPoolExecutor] node by node. *)
From S2P Require Import Prelude PyStr PyVal Config Effects.

Local Open Scope py_scope.

(** What the outside world does with a call. *)
Definition handler (W : Type) : Type := forall c : call, W -> result (resp c) * W.

Section Run.
Context {W : Type} (h : handler W) {S : Type}.

Fixpoint run {A} (p : prog S A) (s : S) (w : W) : A * S * W :=
  match p with
  | Ret a => (a, s, w)
  | Do c k => let '(r, w') := h c w in run (k r) s w'
  | Mem f k => let '(x, s') := f s in run (k x) s' w
  end.

(** The first [n] nodes only. *)
Fixpoint run_for {A} (n : nat) (p : prog S A) (s : S) (w : W) : S * W :=
  match n, p with
  | O, _ | _, Ret _ => (s, w)
  | Datatypes.S n', Do c k => let '(r, w') := h c w in run_for n' (k r) s w'
  | Datatypes.S n', Mem f k => let '(x, s') := f s in run_for n' (k x) s' w
  end.

Fixpoint wpc {A} (C : S -> W -> Prop) (Q : A -> S -> W -> Prop) (p : prog S A)
    (s : S) (w : W) : Prop :=
  C s w /\
  match p with
  | Ret a => Q a s w
  | Do c k => let '(r, w') := h c w in wpc C Q (k r) s w'
  | Mem f k => let '(x, s') := f s in wpc C Q (k x) s' w
  end.

(** Without a crash condition. *)
Definition wp {A} (Q : A -> S -> W -> Prop) : prog S A -> S -> W -> Prop :=
  wpc (fun _ _ => True) Q.

End Run.

(** ** Traces *)

Inductive entry : Type := Entry (c : call) (r : result (resp c)).

(** A world that remembers every call and its answer, oldest first. *)
Record logged (W : Type) := Logged { base : W; trace : list entry }.
Arguments Logged {W} base trace.
Arguments base {W} _.
Arguments trace {W} _.

Definition log_handler {W} (h : handler W) : handler (logged W) :=
  fun c lw => let '(r, w') := h c (base lw) in
              (r, Logged w' (trace lw ++ [Entry c r])).

(** ** Thread pools *)

Section Pool.
Context {S A : Type}.

Definition is_done (t : prog S A) : bool :=
  match t with Ret _ => true | _ => false end.

(** Execute one node of [t] and go on with what is left of it. *)
Definition advance {B} (t : prog S A) (k : prog S A -> prog S B) : prog S B :=
  match t with
  | Ret a => k (Ret a)
  | Do c f => Do c (fun r => k (f r))
  | Mem f g => Mem f (fun x => k (g x))
  end.

(** Jobs are started in submission order, [workers] at a time: the jobs that
    can make a step are the first [workers] unfinished ones. *)
Fixpoint unfinished (i : nat) (ts : list (prog S A)) : list nat :=
  match ts with
  | [] => []
  | t :: ts' => if is_done t then unfinished (Datatypes.S i) ts'
                else i :: unfinished (Datatypes.S i) ts'
  end.

Definition runnable (workers : nat) (ts : list (prog S A)) : list nat :=
  take workers (unfinished 0 ts).

(** Run what is left of the jobs one after the other. *)
Fixpoint drain (ts : list (prog S A)) : prog S (list A) :=
  match ts with
  | [] => Ret []
  | t :: ts' => pbind t (fun a => pbind (drain ts') (fun l => Ret (a :: l)))
  end.

(** [sched] picks, for each step, one of the running jobs; after it the jobs
    still unfinished run to their end in order.  Every finite interleaving of
    the jobs is [pool sched] for some [sched].  The results come in
    submission order. *)
Fixpoint pool (workers : nat) (sched : list nat) (ts : list (prog S A))
    : prog S (list A) :=
  match sched with
  | [] => drain ts
  | n :: sched' =>
      match runnable workers ts !! n with
      | Some i =>
          match ts !! i with
          | Some t => advance t (fun t' => pool workers sched' (<[i:=t']> ts))
          | None => pool workers sched' ts
          end
      | None => pool workers sched' ts
      end
  end.
End Pool.

(** ** Lemmas on [run] and [wpc] *)

Section WpcLemmas.
Context {W : Type} (h : handler W) {S : Type}.
Implicit Types (C : S -> W -> Prop).

Lemma wpc_crash {A} C (Q : A -> S -> W -> Prop) p s w : wpc h C Q p s w -> C s w.
Proof. destruct p; simpl; tauto. Qed.

(** [wpc] says exactly what it should about [run] and [run_for]. *)
Lemma wpc_iff {A} C (Q : A -> S -> W -> Prop) p s w :
  wpc h C Q p s w <->
  (let '(a, s', w') := run h p s w in Q a s' w') /\
  (forall n, let '(s', w') := run_for h n p s w in C s' w').
Proof.
  revert s w. induction p as [a|c k IH|X f k IH]; intros s w; simpl.
  - split.
    + intros [HC HQ]. split; [done|]. by intros [|n].
    + intros [HQ HC]. split; [apply (HC 0%nat)|done].
  - destruct (h c w) as [r w'] eqn:E. rewrite IH. split.
    + intros (HC & HQ & HF). split; [done|]. intros [|n]; [done|].
      simpl. rewrite E. apply HF.
    + intros (HQ & HF). split; [apply (HF 0%nat)|]. split; [done|].
      intros n. specialize (HF (Datatypes.S n)). simpl in HF. by rewrite E in HF.
  - destruct (f s) as [x s'] eqn:E. rewrite IH. split.
    + intros (HC & HQ & HF). split; [done|]. intros [|n]; [done|].
      simpl. rewrite E. apply HF.
    + intros (HQ & HF). split; [apply (HF 0%nat)|]. split; [done|].
      intros n. specialize (HF (Datatypes.S n)). simpl in HF. by rewrite E in HF.
Qed.

Lemma wpc_run {A} C (Q : A -> S -> W -> Prop) p s w a s' w' :
  wpc h C Q p s w -> run h p s w = (a, s', w') -> Q a s' w'.
Proof. intros [H _]%wpc_iff E. by rewrite E in H. Qed.

Lemma wpc_killed {A} C (Q : A -> S -> W -> Prop) p s w n s' w' :
  wpc h C Q p s w -> run_for h n p s w = (s', w') -> C s' w'.
Proof. intros [_ H]%wpc_iff E. specialize (H n). by rewrite E in H. Qed.

Lemma wp_run {A} (Q : A -> S -> W -> Prop) p s w :
  wp h Q p s w <-> (let '(a, s', w') := run h p s w in Q a s' w').
Proof.
  unfold wp. rewrite wpc_iff. split; [tauto|]. intros H. split; [done|].
  intros n. by destruct (run_for h n p s w).
Qed.

Lemma wpc_mono {A} C C' (Q Q' : A -> S -> W -> Prop) p s w :
  wpc h C Q p s w ->
  (forall s' w', C s' w' -> C' s' w') ->
  (forall a s' w', C s' w' -> Q a s' w' -> Q' a s' w') ->
  wpc h C' Q' p s w.
Proof.
  intros H HC HQ. revert s w H.
  induction p as [a|c k IH|X f k IH]; intros s w; simpl.
  - intros [??]; auto.
  - destruct (h c w). intros [??]; auto.
  - destruct (f s). intros [??]; auto.
Qed.

Lemma wpc_pbind {A B} C (Q : B -> S -> W -> Prop) (p : prog S A) f s w :
  wpc h C (fun a s' w' => wpc h C Q (f a) s' w') p s w ->
  wpc h C Q (pbind p f) s w.
Proof.
  revert s w. induction p as [a|c k IH|X g k IH]; intros s w; simpl.
  - tauto.
  - destruct (h c w). intros [??]; auto.
  - destruct (g s). intros [??]; auto.
Qed.

Lemma wpc_ret {A} C (Q : A -> S -> W -> Prop) a s w :
  C s w -> Q a s w -> wpc h C Q (Ret a) s w.
Proof. done. Qed.

Lemma run_pbind {A B} (p : prog S A) (f : A -> prog S B) s w :
  run h (pbind p f) s w
  = let '(a, s', w') := run h p s w in run h (f a) s' w'.
Proof.
  revert s w. induction p as [a|c k IH|X g k IH]; intros s w; simpl; [done| |].
  - by destruct (h c w).
  - by destruct (g s).
Qed.

Lemma run_bind {A B} (m : py S A) (f : A -> py S B) s w :
  run h (bind m f) s w
  = match run h m s w with
    | (Ok a, s', w') => run h (f a) s' w'
    | (Exc e, s', w') => (Exc e, s', w')
    | (Running, s', w') => (Running, s', w')
    end.
Proof.
  unfold bind. rewrite run_pbind. by destruct (run h m s w) as [[[]]].
Qed.

Lemma run_try_except {A} (m : py S A) catch s w :
  run h (try_except m catch) s w
  = match run h m s w with
    | (Exc e, s', w') => match catch e with
                         | Some c => run h c s' w'
                         | None => (Exc e, s', w')
                         end
    | (r, s', w') => (r, s', w')
    end.
Proof.
  unfold try_except. rewrite run_pbind. destruct (run h m s w) as [[[a|e|] s'] w']; try done.
  by destruct (catch e).
Qed.

Lemma run_try_finally {A} (m : py S A) fin s w :
  run h (try_finally m fin) s w
  = match run h m s w with
    | (Running, s', w') => (Running, s', w')
    | (r, s', w') => match run h fin s' w' with
                     | (Ok _, s'', w'') => (r, s'', w'')
                     | (Exc e, s'', w'') => (Exc e, s'', w'')
                     | (Running, s'', w'') => (Running, s'', w'')
                     end
    end.
Proof.
  unfold try_finally. rewrite run_pbind. destruct (run h m s w) as [[[a|e|] s'] w'];
    try done; rewrite run_pbind; by destruct (run h fin s' w') as [[[]]].
Qed.

Lemma run_ret {A} (a : A) (s : S) w : run h (ret a) s w = (Ok a, s, w).
Proof. done. Qed.

Lemma run_do c (s : S) w :
  run h (do c) s w = ((h c w).1, s, (h c w).2).
Proof. simpl. by destruct (h c w). Qed.

Lemma run_lift {A B} (r : result A) (f : A -> py S B) s w :
  run h (bind (lift r) f) s w
  = match r with
    | Ok a => run h (f a) s w
    | Exc e => (Exc e, s, w)
    | Running => (Running, s, w)
    end.
Proof. by destruct r. Qed.

Lemma run_while {V A} fuel (body : V -> py S (V + A)) v s w :
  run h (while_true (Datatypes.S fuel) body v) s w
  = match run h (body v) s w with
    | (Ok (inl v'), s', w') => run h (while_true fuel body v') s' w'
    | (Ok (inr a), s', w') => (Ok a, s', w')
    | (Exc e, s', w') => (Exc e, s', w')
    | (Running, s', w') => (Running, s', w')
    end.
Proof.
  simpl. rewrite run_bind. by destruct (run h (body v) s w) as [[[[]| |]]].
Qed.

(** The rules for the Python constructs. *)
Lemma wpc_bind {A B} C (Q : result B -> S -> W -> Prop) (m : py S A) f s w :
  wpc h C (fun r s' w' => match r with
                          | Ok a => wpc h C Q (f a) s' w'
                          | Exc e => Q (Exc e) s' w'
                          | Running => Q Running s' w'
                          end) m s w ->
  wpc h C Q (bind m f) s w.
Proof.
  intros H. apply wpc_pbind. eapply wpc_mono; [exact H|done|].
  intros [a|e|] s' w' HC HQ; done.
Qed.

Lemma wpc_try_except {A} C (Q : result A -> S -> W -> Prop) m catch s w :
  wpc h C (fun r s' w' => match r with
                          | Exc e => match catch e with
                                     | Some c => wpc h C Q c s' w'
                                     | None => Q r s' w'
                                     end
                          | _ => Q r s' w'
                          end) m s w ->
  wpc h C Q (try_except m catch) s w.
Proof.
  intros H. apply wpc_pbind. eapply wpc_mono; [exact H|done|].
  intros [a|e|] s' w' HC HQ; [done| |done]. by destruct (catch e).
Qed.

Lemma wpc_try_finally {A} C (Q : result A -> S -> W -> Prop) m fin s w :
  wpc h C (fun r s' w' =>
    match r with
    | Running => Q r s' w'
    | _ => wpc h C (fun f s'' w'' => match f with
                                     | Ok _ => Q r s'' w''
                                     | Exc e => Q (Exc e) s'' w''
                                     | Running => Q Running s'' w''
                                     end) fin s' w'
    end) m s w ->
  wpc h C Q (try_finally m fin) s w.
Proof.
  intros H. apply wpc_pbind. eapply wpc_mono; [exact H|done|].
  intros r s' w' HC HQ.
  destruct r as [a|e|]; [| |done]; apply wpc_pbind;
    (eapply wpc_mono; [exact HQ|done|]); intros [u|e'|] s'' w'' ??; done.
Qed.

Lemma wpc_do C c (Q : result (resp c) -> S -> W -> Prop) s w :
  C s w -> C s (h c w).2 -> Q (h c w).1 s (h c w).2 -> wpc h C Q (do c) s w.
Proof. simpl. by destruct (h c w). Qed.

Lemma wpc_lift {A} C (Q : result A -> S -> W -> Prop) (r : result A) s w :
  C s w -> Q r s w -> wpc h C Q (lift r) s w.
Proof. done. Qed.

Lemma wpc_modify C (Q : result unit -> S -> W -> Prop) f s w :
  C s w -> C (f s) w -> Q (Ok tt) (f s) w -> wpc h C Q (modify f) s w.
Proof. done. Qed.

Lemma wpc_get C (Q : result S -> S -> W -> Prop) s w :
  C s w -> Q (Ok s) s w -> wpc h C Q get_state s w.
Proof. done. Qed.

Lemma wpc_atomically {A} C (Q : result A -> S -> W -> Prop) f s w :
  C s w -> C (f s).2 w -> Q (f s).1 (f s).2 w -> wpc h C Q (atomically f) s w.
Proof. simpl. by destruct (f s). Qed.

(** A loop over a list keeps an invariant indexed by what is left. *)
Lemma wpc_for_each {A} C (I : list A -> S -> W -> Prop)
    (Q : result unit -> S -> W -> Prop) (l : list A) body s w :
  (forall s' w', I [] s' w' -> Q (Ok tt) s' w') ->
  (forall l' s' w', I l' s' w' -> C s' w') ->
  (forall a l' s' w', I (a :: l') s' w' ->
    wpc h C (fun r s'' w'' => match r with
                              | Ok _ => I l' s'' w''
                              | _ => Q r s'' w''
                              end) (body a) s' w') ->
  I l s w -> wpc h C Q (for_each l body) s w.
Proof.
  intros HQ HC Hstep. revert s w.
  induction l as [|a l IH]; intros s w HI; simpl.
  - split; eauto.
  - apply wpc_bind. eapply wpc_mono; [by apply Hstep|done|].
    intros [[]|e|] s' w' ??; simpl; auto.
Qed.

(** A [while True] loop keeps an invariant on its loop variables. *)
Lemma wpc_while {V A} C (I : V -> S -> W -> Prop)
    (Q : result A -> S -> W -> Prop) (body : V -> py S (V + A)) fuel v s w :
  (forall v' s' w', I v' s' w' -> C s' w') ->
  (forall v' s' w', I v' s' w' -> Q Running s' w') ->
  (forall v' s' w', I v' s' w' ->
    wpc h C (fun r s'' w'' => match r with
                              | Ok (inl v'') => I v'' s'' w''
                              | Ok (inr a) => Q (Ok a) s'' w''
                              | Exc e => Q (Exc e) s'' w''
                              | Running => Q Running s'' w''
                              end) (body v') s' w') ->
  I v s w -> wpc h C Q (while_true fuel body v) s w.
Proof.
  intros HC HR Hstep. revert v s w.
  induction fuel as [|fuel IH]; intros v s w HI; simpl; [by eauto|].
  apply wpc_bind. eapply wpc_mono; [by apply Hstep|done|].
  intros [[v'|a]|e|] s' w' HC' HI'; simpl; auto.
Qed.

End WpcLemmas.

(** ** Programs that only make certain calls and certain state changes *)

Section Only.
Context {S : Type} (P : call -> Prop) (R : S -> S -> Prop).

(** Every call satisfies [P] and every access to the process state moves it
    along [R], whatever is answered. *)
Fixpoint only {A} (p : prog S A) : Prop :=
  match p with
  | Ret _ => True
  | Do c k => P c /\ forall r, only (k r)
  | Mem f k => forall s, R s (f s).2 /\ only (k (f s).1)
  end.

Lemma only_pbind {A B} (p : prog S A) (f : A -> prog S B) :
  only p -> (forall a, only (f a)) -> only (pbind p f).
Proof.
  intros Hp Hf. induction p as [a|c k IH|X g k IH]; simpl in *; [done| |].
  - destruct Hp; eauto.
  - intros s. destruct (Hp s); eauto.
Qed.

Lemma only_bind {A B} (m : py S A) (f : A -> py S B) :
  only m -> (forall a, only (f a)) -> only (bind m f).
Proof. intros Hm Hf. apply only_pbind; [done|]. by intros [a|e|]. Qed.

Lemma only_try_except {A} (m : py S A) catch :
  only m -> (forall e c, catch e = Some c -> only c) -> only (try_except m catch).
Proof.
  intros Hm Hc. apply only_pbind; [done|]. intros [a|e|]; simpl; try done.
  destruct (catch e) eqn:E; [by eapply Hc|done].
Qed.

Lemma only_try_finally {A} (m : py S A) fin :
  only m -> only fin -> only (try_finally m fin).
Proof.
  intros Hm Hf. apply only_pbind; [done|].
  intros [a|e|]; [| |done]; (apply only_pbind; [done|by intros []]).
Qed.

Lemma only_for_each {A} (l : list A) body :
  (forall a, only (body a)) -> only (for_each l body).
Proof.
  intros Hb. induction l as [|a l IH]; [done|]. by apply only_bind.
Qed.

Lemma only_while {V A} fuel (body : V -> py S (V + A)) v :
  (forall v', only (body v')) -> only (while_true fuel body v).
Proof.
  intros Hb. revert v. induction fuel as [|fuel IH]; intros v; [done|].
  apply only_bind; [done|]. by intros [v'|a].
Qed.

Lemma only_do c : P c -> only (do (S := S) c).
Proof. done. Qed.

Lemma only_atomically {A} (f : S -> result A * S) :
  (forall s, R s (f s).2) -> only (atomically f).
Proof. done. Qed.

(** What such a program preserves. *)
Lemma wpc_only {A W} (h : handler W) (C : S -> W -> Prop) (p : prog S A) s w :
  (forall c s' w', P c -> C s' w' -> C s' (h c w').2) ->
  (forall s' s'' w', R s' s'' -> C s' w' -> C s'' w') ->
  only p -> C s w -> wpc h C (fun _ => C) p s w.
Proof.
  intros Hcall Hmem. revert s w. induction p as [a|c k IH|X f k IH]; simpl;
    intros s w Hp HC; (split; [done|]); [done| |].
  - destruct Hp as [Hc Hk]. specialize (Hcall c s w Hc HC).
    destruct (h c w) as [r w']. by apply IH.
  - destruct (Hp s) as [Hr Hk]. specialize (Hmem s (f s).2 w Hr HC).
    destruct (f s) as [x s']. by apply IH.
Qed.
End Only.

Lemma only_all {S A} (p : prog S A) : only (fun _ => True) (fun _ _ => True) p.
Proof. induction p as [a|c k IH|X f k IH]; simpl; auto. Qed.

Lemma only_mono {S A} (P P' : call -> Prop) (R R' : S -> S -> Prop) (p : prog S A) :
  (forall c, P c -> P' c) -> (forall s s', R s s' -> R' s s') ->
  only P R p -> only P' R' p.
Proof.
  intros HP HR. induction p as [a|c k IH|X f k IH]; simpl; [done| |].
  - intros [??]. eauto.
  - intros H s. destruct (H s). eauto.
Qed.

Section OnlyPool.
Context {S A : Type} (P : call -> Prop) (R : S -> S -> Prop).

Lemma only_drain (ts : list (prog S A)) :
  Forall (only P R) ts -> only P R (drain ts).
Proof.
  induction 1 as [|t ts Ht _ IH]; [done|]. simpl.
  apply only_pbind; [done|]. intros a. by apply only_pbind.
Qed.

Lemma only_pool workers sched (ts : list (prog S A)) :
  Forall (only P R) ts -> only P R (pool workers sched ts).
Proof.
  revert ts. induction sched as [|n sched IH]; intros ts Hts; simpl; [by apply only_drain|].
  destruct (runnable workers ts !! n) as [i|]; [|by apply IH].
  destruct (ts !! i) as [t|] eqn:Ht; [|by apply IH].
  assert (Hupd : forall t', only P R t' -> Forall (only P R) (<[i:=t']> ts)).
  { intros t' Ht'. by apply Forall_insert. }
  rewrite Forall_lookup in Hts. specialize (Hts i t Ht). destruct t as [a|c k|X f k]; simpl in *.
  - apply IH. by apply Hupd.
  - destruct Hts as [Hc Hk]. split; [done|]. intros r. by apply IH, Hupd.
  - intros s. destruct (Hts s) as [Hr Hk]. split; [done|]. by apply IH, Hupd.
Qed.
End OnlyPool.

(** ** Residual programs

    [T] holds of the program and of all that can be left of it later, when the
    answers are as [ok] allows. *)
Section AtEvery.
Context {S : Type} (ok : entry -> Prop).

Fixpoint at_every {A : Type} (T : prog S A -> Prop) (p : prog S A) : Prop :=
  T p /\
  match p with
  | Ret _ => True
  | Do c k => forall r, ok (Entry c r) -> at_every T (k r)
  | Mem f k => forall s, at_every T (k (f s).1)
  end.

Lemma at_every_here {A} (T : prog S A -> Prop) p : at_every T p -> T p.
Proof. destruct p; simpl; tauto. Qed.

Lemma at_every_only {A} P R (T : prog S A -> Prop) (p : prog S A) :
  (forall q, only P R q -> T q) -> only P R p -> at_every T p.
Proof.
  intros HT. induction p as [a|c k IH|X f k IH]; intros Hp; (split; [by apply HT|]).
  - done.
  - intros r _. apply IH. by destruct Hp.
  - intros s. apply IH. by destruct (Hp s).
Qed.

Lemma at_every_pbind {A B} (T : prog S A -> Prop) (T' : prog S B -> Prop) (p : prog S A) f :
  (forall q, at_every T q -> T' (pbind q f)) -> (forall a, at_every T' (f a)) ->
  at_every T p -> at_every T' (pbind p f).
Proof.
  intros HT Hf. induction p as [a|c k IH|X g k IH]; intros Hp; [apply Hf|..];
    (split; [exact (HT _ Hp)|]); destruct Hp as [_ Hk]; intros x; [intros Hx|]; by apply IH; auto.
Qed.
End AtEvery.

(** Discharge an [only] goal by the shape of the program. *)
Ltac solve_only :=
  repeat match goal with
  | |- only _ _ (bind _ _) => apply only_bind; [|intros ?]
  | |- only _ _ (try_except _ _) => apply only_try_except; [|intros ? ? ?]
  | |- only _ _ (try_finally _ _) => apply only_try_finally
  | |- only _ _ (for_each _ _) => apply only_for_each; intros ?
  | |- only _ _ (while_true _ _ _) => apply only_while; intros ?
  | |- only _ _ (if ?b then _ else _) => destruct b
  | H : (if ?b then _ else _) = Some _ |- _ => destruct b; [|done]; injection H as <-
  | |- only _ _ (match ?x with _ => _ end) => destruct x
  | |- only _ _ _ => assumption
  end.

(** ** Results under given answers

    When every call is answered as [ok] allows, in whatever world and whatever
    else happens to the process's memory, the result satisfies [Q]. *)
Section Obeys.
Context {S : Type} (ok : entry -> Prop).

Fixpoint obeys {A} (Q : A -> Prop) (p : prog S A) : Prop :=
  match p with
  | Ret a => Q a
  | Do c k => forall r, ok (Entry c r) -> obeys Q (k r)
  | Mem f k => forall s, obeys Q (k (f s).1)
  end.

Lemma obeys_mono {A} (Q Q' : A -> Prop) p : (forall a, Q a -> Q' a) -> obeys Q p -> obeys Q' p.
Proof. intros HQ. induction p; simpl; eauto. Qed.

Lemma obeys_pbind {A B} (Q : B -> Prop) (p : prog S A) f :
  obeys (fun a => obeys Q (f a)) p -> obeys Q (pbind p f).
Proof. induction p; simpl; eauto. Qed.

(** The result is a value that satisfies [Q]. *)
Definition yields {A} (Q : A -> Prop) (r : result A) : Prop :=
  match r with Ok a => Q a | _ => False end.

Lemma obeys_bind {A B} (Q : A -> Prop) (Q' : B -> Prop) (m : py S A) (f : A -> py S B) :
  obeys (yields Q) m -> (forall a, Q a -> obeys (yields Q') (f a)) ->
  obeys (yields Q') (bind m f).
Proof.
  intros Hm Hf. apply obeys_pbind. eapply obeys_mono; [|exact Hm].
  intros [a|e|]; simpl; [apply Hf|done..].
Qed.

Lemma obeys_try_finally {A} (Q : A -> Prop) (m : py S A) fin :
  obeys (yields Q) m -> obeys (yields (fun _ => True)) fin ->
  obeys (yields Q) (try_finally m fin).
Proof.
  intros Hm Hf. apply obeys_pbind. eapply obeys_mono; [|exact Hm].
  intros [a|e|] Ha; simpl in *; [|done..]. apply obeys_pbind.
  eapply obeys_mono; [|exact Hf]. by intros [u|e|].
Qed.

Lemma obeys_drain {A} (Q : A -> Prop) (ts : list (prog S A)) :
  Forall (obeys Q) ts -> obeys (Forall Q) (drain ts).
Proof.
  induction 1 as [|t ts Ht _ IH]; simpl; [constructor|]. apply obeys_pbind.
  eapply obeys_mono; [|exact Ht]. intros a Ha. apply obeys_pbind.
  eapply obeys_mono; [|exact IH]. intros l Hl. by constructor.
Qed.

Lemma obeys_pool {A} (Q : A -> Prop) workers sched (ts : list (prog S A)) :
  Forall (obeys Q) ts -> obeys (Forall Q) (pool workers sched ts).
Proof.
  revert ts. induction sched as [|n sched IH]; intros ts Hts; simpl; [by apply obeys_drain|].
  destruct (runnable workers ts !! n) as [i|]; [|by apply IH].
  destruct (ts !! i) as [t|] eqn:Ht; [|by apply IH].
  pose proof (Forall_lookup_1 _ _ _ _ Hts Ht) as Hi.
  destruct t as [a|c k|X f k]; simpl in *; [|intros r Hr|intros s];
    apply IH, Forall_insert; auto.
Qed.
End Obeys.

(** A run only adds to the trace. *)
Lemma run_extends {S A W} (h : handler W) (p : prog S A) s lw a s' lw' :
  run (log_handler h) p s lw = (a, s', lw') -> trace lw `prefix_of` trace lw'.
Proof.
  intros E. pose proof (wpc_only (fun _ => True) (fun _ _ => True) (log_handler h)
    (fun _ lw2 => trace lw `prefix_of` trace lw2) p s lw) as H.
  eapply wpc_run in H; [exact H|..|exact E]; [|done|apply only_all|done].
  intros c s2 lw2 _ H2. etrans; [exact H2|]. unfold log_handler.
  destruct (h c (base lw2)). by apply prefix_app_r.
Qed.

Lemma obeys_wp {S A W} (h : handler W) (ok : entry -> Prop) (Q : A -> Prop) (p : prog S A) s lw :
  obeys ok Q p ->
  wp (log_handler h) (fun a _ lw' => Forall ok (trace lw') -> Q a) p s lw.
Proof.
  intros Hp. apply wp_run. destruct (run (log_handler h) p s lw) as [[a s'] lw'] eqn:E.
  revert s lw E. induction p as [b|c k IH|X f k IH]; intros s lw E; simpl in *.
  - by injection E as <- _ _.
  - destruct (log_handler h c lw) as [r lw1] eqn:Ec. intros Hall.
    eapply IH; [|exact E|done]. apply Hp.
    destruct (run_extends h _ _ _ _ _ _ E) as [l Hl].
    rewrite Hl in Hall. apply Forall_app in Hall as [Hall _].
    unfold log_handler in Ec. destruct (h c (base lw)). injection Ec as <- <-. simpl in Hall.
    apply Forall_app in Hall as [_ Hall]. by inversion Hall.
  - destruct (f s) as [x s1] eqn:Ef. specialize (Hp s). rewrite Ef in Hp. by eapply IH.
Qed.

Lemma obeys_while {S V A} ok (fuel : nat) (body : V -> py S (V + A)) v :
  (forall v', obeys ok (fun r => match r with Exc _ => False | _ => True end) (body v')) ->
  obeys ok (fun r => match r with Exc _ => False | _ => True end) (while_true fuel body v).
Proof.
  intros Hb. revert v. induction fuel as [|fuel IH]; intros v; [done|].
  apply obeys_pbind. eapply obeys_mono; [|apply Hb]. intros [[v'|a]|e|]; simpl; auto.
Qed.

Lemma wp_and {S A W} (h : handler W) (Q1 Q2 : A -> S -> W -> Prop) p s w :
  wp h Q1 p s w -> wp h Q2 p s w -> wp h (fun a s' w' => Q1 a s' w' /\ Q2 a s' w') p s w.
Proof. rewrite !wp_run. by destruct (run h p s w) as [[a s'] w']. Qed.

(** ** Invariants of programs *)

Section Keeps.
Context {S W : Type} (h : handler W) (C : S -> W -> Prop).

(** From a point where [C] holds, [C] holds at every point of the program. *)
Definition keeps_at {A} (p : prog S A) (s : S) (w : W) : Prop :=
  C s w -> wpc h C (fun _ => C) p s w.
Definition keeps {A} (p : prog S A) : Prop := forall s w, keeps_at p s w.

Lemma keeps_bind_at {A B} (m : py S A) (f : A -> py S B) s w :
  keeps_at m s w -> (forall a, keeps (f a)) -> keeps_at (bind m f) s w.
Proof.
  intros Hm Hf HC. apply wpc_bind. eapply wpc_mono; [by apply Hm|done|].
  intros [a|e|] s' w' _ HC'; [by apply Hf|done|done].
Qed.

Lemma keeps_bind {A B} (m : py S A) (f : A -> py S B) :
  keeps m -> (forall a, keeps (f a)) -> keeps (bind m f).
Proof. intros Hm Hf s w. by apply keeps_bind_at. Qed.

Lemma keeps_get {B} (f : S -> py S B) :
  (forall s w, keeps_at (f s) s w) -> keeps (bind get_state f).
Proof. intros Hf s w HC. apply wpc_bind, wpc_get; [done|]. by apply Hf. Qed.

Lemma keeps_ret {A} (a : A) : keeps (Ret a).
Proof. done. Qed.

Lemma keeps_try_except {A} (m : py S A) catch :
  keeps m -> (forall e c, catch e = Some c -> keeps c) -> keeps (try_except m catch).
Proof.
  intros Hm Hc s w HC. apply wpc_try_except. eapply wpc_mono; [by apply Hm|done|].
  intros [a|e|] s' w' _ HC'; [done| |done]. destruct (catch e) eqn:E; [|done].
  by eapply Hc.
Qed.

Lemma keeps_try_finally {A} (m : py S A) fin :
  keeps m -> keeps fin -> keeps (try_finally m fin).
Proof.
  intros Hm Hf s w HC. apply wpc_try_finally. eapply wpc_mono; [by apply Hm|done|].
  intros r s' w' _ HC'. destruct r; [| |done];
    (eapply wpc_mono; [by apply Hf|done|by intros []]).
Qed.

Lemma keeps_while {V A} fuel (body : V -> py S (V + A)) v :
  (forall v', keeps (body v')) -> keeps (while_true fuel body v).
Proof.
  intros Hb s w HC. apply (wpc_while h C (fun _ => C)); [done|done| |done].
  intros v' s' w' HC'. eapply wpc_mono; [by apply Hb|done|]. by intros [[]| |].
Qed.

Lemma keeps_only {A} P R (p : prog S A) :
  (forall c s' w', P c -> C s' w' -> C s' (h c w').2) ->
  (forall s' s'' w', R s' s'' -> C s' w' -> C s'' w') ->
  only P R p -> keeps p.
Proof. intros ??? s w HC. by eapply wpc_only. Qed.

Lemma keeps_run {A} (p : prog S A) s w :
  keeps p -> C s w ->
  (forall n, let '(s', w') := run_for h n p s w in C s' w') /\
  (let '(_, s', w') := run h p s w in C s' w').
Proof. intros Hp HC. specialize (Hp s w HC). apply wpc_iff in Hp. tauto. Qed.
End Keeps.

(** ** Thread-local reasoning

    [twp] is the weakest precondition of a thread that shares its process and
    the world with other threads: between any two of its own steps the world
    may move along the preorder [le] and the shared state may become any one
    that satisfies the invariant [J].  Each step of the thread must move the
    world along [le] and keep [J] as well. *)
Section Threads.
Context {W : Type} (h : handler W) {S A : Type}.
Context (le : W -> W -> Prop) `{!PreOrder le} (J : S -> W -> Prop).

Fixpoint twp {B} (Q : B -> W -> Prop) (p : prog S B) (w : W) : Prop :=
  forall s w', le w w' -> J s w' ->
  match p with
  | Ret a => Q a w'
  | Do c k => let '(r, w'') := h c w' in
              le w' w'' /\ J s w'' /\ twp Q (k r) w''
  | Mem f k => let '(x, s') := f s in J s' w' /\ twp Q (k x) w'
  end.

Lemma twp_le {B} (Q : B -> W -> Prop) p w w' : twp Q p w -> le w w' -> twp Q p w'.
Proof.
  intros H Hle. destruct p; simpl in *; intros s w'' Hle'; apply H; by etrans.
Qed.

Lemma twp_mono {B} (Q Q' : B -> W -> Prop) p w :
  twp Q p w -> (forall a w', le w w' -> Q a w' -> Q' a w') -> twp Q' p w.
Proof.
  revert w. induction p as [a|c k IH|X f k IH]; intros w H HQ; simpl in *;
    intros s w' Hle HJ; specialize (H s w' Hle HJ); [by eauto| |].
  - destruct (h c w') as [r w'']. destruct H as (Hle' & HJ' & H).
    do 2 (split; [done|]). apply IH; [done|].
    intros a v Hv. apply HQ. by do 2 (etrans; [done|]).
  - destruct (f s) as [x s']. destruct H as [HJ' H].
    split; [done|]. apply IH; [done|]. intros a v Hv. apply HQ. by etrans.
Qed.

Lemma twp_pbind {B D} (Q : D -> W -> Prop) (p : prog S B) f w :
  twp (fun a w' => twp Q (f a) w') p w -> twp Q (pbind p f) w.
Proof.
  revert w. induction p as [a|c k IH|X g k IH]; intros w H.
  - change (pbind (Ret a) f) with (f a). simpl in H.
    destruct (f a); simpl in *; intros s w' Hle HJ;
      by apply (H s w' Hle HJ s w').
  - intros s w' Hle HJ. specialize (H s w' Hle HJ). simpl in *.
    destruct (h c w'). destruct H as (?&?&?). eauto.
  - intros s w' Hle HJ. specialize (H s w' Hle HJ). simpl in *.
    destruct (g s). destruct H as (?&?). eauto.
Qed.

Lemma twp_bind {B D} (Q : result D -> W -> Prop) (m : py S B) f w :
  twp (fun r w' => match r with
                   | Ok a => twp Q (f a) w'
                   | Exc e => forall v, le w' v -> Q (Exc e) v
                   | Running => forall v, le w' v -> Q Running v
                   end) m w ->
  twp Q (bind m f) w.
Proof.
  intros H. apply twp_pbind. eapply twp_mono; [exact H|].
  intros [b|e|] w' _ HQ; [done| |]; intros s v Hv _; eauto.
Qed.

Lemma twp_do c (Q : result (resp c) -> W -> Prop) w :
  (forall s w', le w w' -> J s w' ->
    le w' (h c w').2 /\ J s (h c w').2 /\
    forall v, le (h c w').2 v -> Q (h c w').1 v) ->
  twp Q (do c) w.
Proof.
  intros H s w' Hle HJ. specialize (H s w' Hle HJ).
  destruct (h c w') as [r w'']; simpl in *. destruct H as (?&?&HQ).
  do 2 (split; [done|]). intros s' v Hv _. by apply HQ.
Qed.

Lemma twp_ret {B} (Q : result B -> W -> Prop) (r : result B) w :
  (forall v, le w v -> Q r v) -> twp Q (lift r) w.
Proof. intros H s v Hv _. auto. Qed.

Lemma twp_atomically {B} (Q : result B -> W -> Prop) (f : S -> result B * S) w :
  (forall s w', le w w' -> J s w' ->
    J (f s).2 w' /\ forall v, le w' v -> Q (f s).1 v) ->
  twp Q (atomically f) w.
Proof.
  intros H s w' Hle HJ. specialize (H s w' Hle HJ).
  destruct (f s) as [x s']; simpl in *. destruct H as [HJ' HQ].
  split; [done|]. intros s'' v Hv _. by apply HQ.
Qed.

Lemma twp_modify (Q : result unit -> W -> Prop) (f : S -> S) w :
  (forall s w', le w w' -> J s w' -> J (f s) w') ->
  (forall v, le w v -> Q (Ok tt) v) -> twp Q (modify f) w.
Proof.
  intros HJ HQ. apply (twp_atomically Q (fun s => (Ok tt, f s))). intros s w' Hle Hs.
  split; [by apply HJ|]. intros v Hv. apply HQ. by etrans.
Qed.

Lemma twp_try_finally {B} (Q : result B -> W -> Prop) (m : py S B) fin w :
  twp (fun r w' => match r with
                   | Running => forall v, le w' v -> Q Running v
                   | _ => twp (fun f v' => forall v, le v' v ->
                                 Q (match f with
                                    | Ok _ => r
                                    | Exc e => Exc e
                                    | Running => Running
                                    end) v) fin w'
                   end) m w ->
  twp Q (try_finally m fin) w.
Proof.
  intros H. apply twp_pbind. eapply twp_mono; [exact H|].
  intros [b|e|] w' _ HQ; [| |by intros s v Hv _; eauto];
    (apply twp_pbind; eapply twp_mono; [exact HQ|]);
    intros [u|e'|] v Hv Hq s v' Hv' _; by apply Hq.
Qed.

(** A pool of threads: each job is verified alone, the pool gives all their
    postconditions, for every schedule and every number of workers. *)
Definition all_twp (Qs : list (A -> W -> Prop)) (ts : list (prog S A)) (w : W) : Prop :=
  Forall2 (fun t Q => twp Q t w) ts Qs.

Definition all_post (Qs : list (A -> W -> Prop)) (l : list A) (w : W) : Prop :=
  Forall2 (fun a (Q : A -> W -> Prop) => Q a w) l Qs.

Lemma all_twp_le Qs ts w w' : all_twp Qs ts w -> le w w' -> all_twp Qs ts w'.
Proof.
  intros H Hle. eapply Forall2_impl; [exact H|].
  intros t Q Ht. eapply twp_le; [exact Ht|done].
Qed.

Definition stable (Q : A -> W -> Prop) : Prop :=
  forall a w w', Q a w -> le w w' -> Q a w'.

Lemma wpc_twp {B} (C : S -> W -> Prop) (Q : B -> W -> Prop) p s w0 w :
  (forall s' w', le w0 w' -> J s' w' -> C s' w') ->
  twp Q p w -> le w0 w -> J s w ->
  wpc h C (fun a s' w' => Q a w' /\ J s' w' /\ le w0 w') p s w.
Proof.
  intros HC. revert s w. induction p as [a|c k IH|X f k IH]; intros s w H Hle HJ;
    simpl; (split; [by eauto|]); simpl in H; specialize (H s w (reflexivity _) HJ).
  - done.
  - destruct (h c w) as [r w']. destruct H as (?&?&?).
    apply IH; [done| |done]. by etrans.
  - destruct (f s) as [x s']. destruct H as (?&?). by apply IH.
Qed.

Lemma wpc_drain C (Qs : list (A -> W -> Prop)) ts s w0 w :
  (forall s' w', le w0 w' -> J s' w' -> C s' w') -> Forall stable Qs ->
  all_twp Qs ts w -> le w0 w -> J s w ->
  wpc h C (fun l s' w' => all_post Qs l w' /\ J s' w' /\ le w0 w') (drain ts) s w.
Proof.
  revert Qs s w0 w. induction ts as [|t ts IH]; intros Qs s w0 w HC Hst Hts Hle HJ.
  { unfold all_twp in Hts. inversion_clear Hts. split; [by apply HC|]. by split; [apply Forall2_nil|]. }
  apply Forall2_cons_inv_l in Hts as (Q & Qs' & Ht & Hts' & ->).
  inversion_clear Hst as [|?? HstQ HstQs]. simpl. apply wpc_pbind.
  assert (HCw : forall v s' w', le w0 v -> le v w' -> J s' w' -> C s' w').
  { intros v s' w' ???. apply HC; [by etrans|done]. }
  eapply wpc_mono; [apply (wpc_twp C Q t s w w); [by eauto|done|done|done]|done|].
  intros a s' w' _ (HQ & HJ' & Hle'). apply wpc_pbind.
  assert (le w0 w') by (by etrans).
  eapply wpc_mono; [apply (IH Qs' s' w' w'); [by eauto|done| |done|done]|done|].
  { by eapply all_twp_le. }
  intros l s'' w'' HCc (Hl & HJ'' & Hle''). simpl. split; [done|].
  split; [|split; [done|by etrans]]. unfold all_post. constructor; [|done].
  by apply (HstQ a w').
Qed.

Lemma wpc_pool C workers sched (Qs : list (A -> W -> Prop)) ts s w0 w :
  (forall s' w', le w0 w' -> J s' w' -> C s' w') -> Forall stable Qs ->
  all_twp Qs ts w -> le w0 w -> J s w ->
  wpc h C (fun l s' w' => all_post Qs l w' /\ J s' w' /\ le w0 w')
    (pool workers sched ts) s w.
Proof.
  intros HC Hst. revert ts s w.
  induction sched as [|n sched IH]; intros ts s w Hts Hle HJ; simpl;
    [by eapply wpc_drain|].
  destruct (runnable workers ts !! n) as [i|]; [|by apply IH].
  destruct (ts !! i) as [t|] eqn:Ht; [|by apply IH].
  destruct (Forall2_lookup_l _ _ _ _ _ Hts Ht) as (Q & HQ & Htw).
  assert (Hupd : forall t' w', le w w' -> twp Q t' w' ->
    all_twp Qs (<[i:=t']> ts) w').
  { intros t' w' Hw' Ht'. rewrite <-(list_insert_id Qs i Q) by done.
    apply Forall2_insert; [by eapply all_twp_le|done]. }
  destruct t as [a|c k|X f k]; simpl.
  - apply IH; [|done|done]. apply Hupd; [done|]. done.
  - split; [by apply HC|]. specialize (Htw s w (reflexivity _) HJ). simpl in Htw.
    destruct (h c w) as [r w']. destruct Htw as (Hle' & HJ' & Htw).
    apply IH; [by apply Hupd|by etrans|done].
  - split; [by apply HC|]. specialize (Htw s w (reflexivity _) HJ). simpl in Htw.
    destruct (f s) as [x s']. destruct Htw as (HJ' & Htw).
    apply IH; [by apply Hupd|done|done].
Qed.

End Threads.
