(* ===== verification/Redis.v ===== *)
(** Redis, as the code relies on it.

    Redis is a service, not code of this repository: a handler's Redis calls
    are constrained only by the laws of the class [RedisLaws], which state the
    documented behaviour of the commands on the keyspace ([rs_db]), of a lost
    connection (the command may have been executed or not) and of a full
    [HSCAN] iteration.  [rely] bounds what the other clients may do between and
    around this process's commands: theorems choose it, from "nothing"
    ([eq]) to "anything but ...". *)
From S2P Require Import Prelude PyStr PyVal Config Effects Semantics.

Local Open Scope string_scope.
Local Open Scope Z_scope.

(** ** Keyspace: hashes and strings.  An empty hash and a missing one are the
    same thing. *)
Record redis_db := RedisDb {
  db_hashes : gmap string (gmap string string);
  db_strings : gmap string string
}.

Definition hash (d : redis_db) (name : string) : gmap string string :=
  default ∅ (db_hashes d !! name).

Definition set_hash (name : string) (m : gmap string string) (d : redis_db) : redis_db :=
  RedisDb (<[name := m]> (db_hashes d)) (db_strings d).

Definition key_exists (d : redis_db) (name : string) : Prop :=
  hash d name <> ∅ \/ is_Some (db_strings d !! name).

#[export] Instance key_exists_dec d name : Decision (key_exists d name).
Proof. unfold key_exists. apply _. Defined.

Definition delete_key (name : string) (d : redis_db) : redis_db :=
  RedisDb (delete name (db_hashes d)) (delete name (db_strings d)).

Definition rename_key (src dst : string) (d : redis_db) : redis_db :=
  let d0 := delete_key dst (delete_key src d) in
  RedisDb (partial_alter (fun _ => db_hashes d !! src) dst (db_hashes d0))
          (partial_alter (fun _ => db_strings d !! src) dst (db_strings d0)).

(** [HSET name k1 v1 k2 v2 ...] *)
Definition hset_all (name : string) (kvs : list (string * string)) (d : redis_db) : redis_db :=
  set_hash name (foldl (fun m kv => <[kv.1 := kv.2]> m) (hash d name) kvs) d.

(** ** Commands of a pipeline

    [enc] is redis-py's encoding of an argument ([None]: it raises
    [DataError]). *)
Section Pipeline.
Context (enc : pyval -> option string).

Definition encodable (c : pcmd) : Prop :=
  match c with
  | PHSet _ k v => is_Some (enc k) /\ is_Some (enc v)
  | PHDel _ k => is_Some (enc k)
  end.

Definition exec_pcmd (d : redis_db) (c : pcmd) : redis_db :=
  match c with
  | PHSet name k v =>
      match enc k, enc v with
      | Some k', Some v' => set_hash name (<[k' := v']> (hash d name)) d
      | _, _ => d
      end
  | PHDel name k =>
      match enc k with
      | Some k' => set_hash name (delete k' (hash d name)) d
      | None => d
      end
  end.

(** The effect of a call that Redis executes; other calls leave the keyspace
    alone. *)
Definition redis_step (c : call) (d : redis_db) : redis_db :=
  match c with
  | RedisRename src dst => if decide (key_exists d src) then rename_key src dst d else d
  | RedisDelete name => delete_key name d
  | RedisSetNX name value _ =>
      if decide (key_exists d name) then d
      else RedisDb (db_hashes d) (<[name := value]> (db_strings d))
  | RedisHSetMapping name kvs => hset_all name kvs d
  | RedisPipeline cmds => foldl exec_pcmd d cmds
  | _ => d
  end.

(** What a successful reply says about the keyspace the command ran on. *)
Definition redis_reply (c : call) (d : redis_db) : resp c -> Prop :=
  match c return resp c -> Prop with
  | RedisHLen name => fun z => z = Z.of_nat (size (hash d name))
  | RedisHGetAll name => fun l => list_to_map l = hash d name /\ NoDup l.*1
  | RedisExists name => fun z => z <> 0 <-> key_exists d name
  | RedisRename src _ => fun _ => key_exists d src
  | RedisSetNX name _ _ => fun b => b = true <-> ~ key_exists d name
  | RedisGet name => fun o => o = db_strings d !! name
  | RedisPipeline cmds => fun _ => Forall encodable cmds
  | _ => fun _ => True
  end.

(** A call that raises or hangs may have been executed or not, a pipeline in
    part; an error reply to a single command means it was not. *)
Definition redis_outcome (c : call) (d : redis_db) (r : result (resp c))
    (d' : redis_db) : Prop :=
  match r with
  | Ok x => d' = redis_step c d /\ redis_reply c d x
  | _ =>
      d' = d \/
      match c with
      | RedisPipeline cmds => exists cmds', sublist cmds' cmds /\ d' = foldl exec_pcmd d cmds'
      | _ => match r with
             | Exc RedisResponseError => False
             | _ => d' = redis_step c d
             end
      end
  end.
End Pipeline.

(** ** The interface *)

Class RedisServer {W : Type} (h : handler W) := {
  rs_db : W -> redis_db;
  rs_encode : pyval -> option string;
  (** Fields an [HSCAN] at a cursor has still to return. *)
  rs_scan : W -> string -> Z -> gset string
}.

Class RedisLaws {W : Type} (h : handler W) `{!RedisServer h}
    (rely : redis_db -> redis_db -> Prop) : Prop := {
  rl_exec : forall c w, exists d d',
    rely (rs_db w) d /\ redis_outcome rs_encode c d (h c w).1 d' /\
    rely d' (rs_db (h c w).2);
  rl_encode_str : forall s, rs_encode (VStr s) = Some s;
  rl_scan_start : forall w name, dom (hash (rs_db w) name) ⊆ rs_scan w name 0;
  (** An element that is there during the whole iteration is returned by it;
      as a law for the hashes that the other clients leave alone. *)
  rl_scan_next : forall w name cur count cur' items,
    (forall d d', rely d d' -> hash d' name = hash d name) ->
    (h (RedisHScan name cur count) w).1 = Ok (cur', items) ->
    rs_scan w name cur ∩ dom (hash (rs_db (h (RedisHScan name cur count) w).2) name)
    ⊆ list_to_set items.*1 ∪
      (if cur' =? 0 then ∅ else rs_scan (h (RedisHScan name cur count) w).2 name cur')
}.

(** The commands of other clients between two replies of an [HSCAN] iteration
    only take away from it what they remove. *)
Class RedisScans {W : Type} (h : handler W) `{!RedisServer h} : Prop :=
  rl_scan_keep : forall c w name cur,
    (forall cur' count, c <> RedisHScan name cur' count) ->
    rs_scan w name cur ∩ dom (hash (rs_db (h c w).2) name) ⊆ rs_scan (h c w).2 name cur.

Lemma redis_laws_mono {W} (h : handler W) `{!RedisServer h} (R R' : redis_db -> redis_db -> Prop) :
  (forall d d', R d d' -> R' d d') -> RedisLaws h R -> RedisLaws h R'.
Proof.
  intros HR [He Hs H0 H1]. split; [|done..|].
  - intros c w. destruct (He c w) as (d & d' & H & Ho & H'). exists d, d'. eauto.
  - intros w name cur count cur' items Hn. apply H1. eauto.
Qed.

(** What a call that is not a pipeline can do, when [rely] allows its effect. *)
Lemma exec_rely {W} (h : handler W) `{!RedisServer h} R `{!PreOrder R} `{!RedisLaws h R} c w :
  (forall cmds, c <> RedisPipeline cmds) -> (forall enc d, R d (redis_step enc c d)) ->
  R (rs_db w) (rs_db (h c w).2).
Proof.
  intros Hnp Hs. destruct (rl_exec c w) as (d & d' & H1 & Hout & H2).
  etrans; [exact H1|]. etrans; [|exact H2].
  assert (d' = d \/ d' = redis_step rs_encode c d) as [-> | ->]; [|done|apply Hs].
  destruct (h c w).1 as [x|e|]; simpl in Hout.
  - right. by destruct Hout.
  - destruct Hout as [->|Hout]; [by left|].
    destruct c; try (by destruct (Hnp cmds)); destruct e; (by right) || done.
  - destruct Hout as [->|Hout]; [by left|].
    destruct c; try (by destruct (Hnp cmds)); by right.
Qed.

(** With idle other clients, a call that does not write leaves the keyspace as
    it is, whatever it answers. *)
Lemma rs_db_idle {W} (h : handler W) `{!RedisServer h} `{!RedisLaws h eq} c w :
  (forall enc d, redis_step enc c d = d) -> (forall cmds, c <> RedisPipeline cmds) ->
  rs_db (h c w).2 = rs_db w.
Proof.
  intros Hs Hp. destruct (rl_exec c w) as (d & d' & <- & Hout & <-).
  specialize (Hs rs_encode (rs_db w)).
  destruct (h c w).1 as [x|e|]; [by destruct Hout as [-> _]|..];
    (destruct Hout as [->|Hout]; [done|]); destruct c; try (by destruct (Hp cmds)); simpl in *;
    try destruct e; try done; congruence.
Qed.
(** ** Lemmas on the keyspace *)

Lemma hash_set_hash_eq d name m : hash (set_hash name m d) name = m.
Proof. unfold hash, set_hash; simpl. by rewrite lookup_insert_eq. Qed.

Lemma hash_set_hash_ne d name name' m :
  name <> name' -> hash (set_hash name m d) name' = hash d name'.
Proof. intros Hne. unfold hash, set_hash; simpl. by rewrite lookup_insert_ne. Qed.

Lemma hash_delete_eq d name : hash (delete_key name d) name = ∅.
Proof. unfold hash, delete_key; simpl. by rewrite lookup_delete_eq. Qed.

Lemma hash_delete_ne d name name' :
  name <> name' -> hash (delete_key name d) name' = hash d name'.
Proof. intros Hne. unfold hash, delete_key; simpl. by rewrite lookup_delete_ne. Qed.

Lemma hash_rename_dst d src dst : hash (rename_key src dst d) dst = hash d src.
Proof. unfold hash, rename_key; simpl. by rewrite lookup_partial_alter_eq. Qed.

Lemma hash_rename_src d src dst : src <> dst -> hash (rename_key src dst d) src = ∅.
Proof.
  intros Hne. unfold hash, rename_key; simpl. rewrite lookup_partial_alter_ne by done.
  by rewrite lookup_delete_ne, lookup_delete_eq.
Qed.

Lemma hash_rename_other d src dst name :
  name <> src -> name <> dst -> hash (rename_key src dst d) name = hash d name.
Proof.
  intros ??. unfold hash, rename_key; simpl. rewrite lookup_partial_alter_ne by done.
  by rewrite !lookup_delete_ne.
Qed.

Lemma dom_hash_field d name f : f ∈ dom (hash d name) -> key_exists d name.
Proof. intros H. left. intros E. rewrite E in H. set_solver. Qed.

Create Rewrite HintDb redis.
#[export] Hint Rewrite hash_set_hash_eq hash_delete_eq hash_rename_dst : redis.
