(* ===== verification/Sim.v ===== *)
(** A concrete world in which the laws hold.

    The theorems about the services are stated for every handler that obeys
    their laws; this file gives one such handler, small enough to evaluate, so
    that each theorem can be applied to a concrete run.  It models no code of
    the repository. *)
From S2P Require Import Prelude PyStr PyVal Config Effects Semantics Redis.

Local Open Scope string_scope.
Local Open Scope Z_scope.

(** [sim_redis_up] and [sim_running] script the coming Redis calls (false: the
    connection fails) and the coming reads of the stop flag; when a script is
    used up, Redis is up and the stop flag is set. *)
Record sim := Sim {
  sim_db : redis_db;
  sim_redis_up : list bool;
  sim_polls : list poll_reply;
  sim_running : list bool;
  sim_files : list string;
  sim_exit : list string -> Z;
  sim_clock : Z;
  sim_env : gmap string string;
  sim_argv : list string;
  sim_cfg : config;
  sim_objects : list string
}.

Definition empty_config : config := Config None None None None None None.
Definition empty_db : redis_db := RedisDb ∅ ∅.
Definition sim0 : sim :=
  Sim empty_db [] [] [] [] (fun _ => 0) 0 ∅ [] empty_config [].

Definition with_db (d : redis_db) (w : sim) : sim :=
  Sim d (sim_redis_up w) (sim_polls w) (sim_running w) (sim_files w) (sim_exit w)
      (sim_clock w) (sim_env w) (sim_argv w) (sim_cfg w) (sim_objects w).
Definition with_up (l : list bool) (w : sim) : sim :=
  Sim (sim_db w) l (sim_polls w) (sim_running w) (sim_files w) (sim_exit w)
      (sim_clock w) (sim_env w) (sim_argv w) (sim_cfg w) (sim_objects w).
Definition with_polls (l : list poll_reply) (w : sim) : sim :=
  Sim (sim_db w) (sim_redis_up w) l (sim_running w) (sim_files w) (sim_exit w)
      (sim_clock w) (sim_env w) (sim_argv w) (sim_cfg w) (sim_objects w).
Definition with_running (l : list bool) (w : sim) : sim :=
  Sim (sim_db w) (sim_redis_up w) (sim_polls w) l (sim_files w) (sim_exit w)
      (sim_clock w) (sim_env w) (sim_argv w) (sim_cfg w) (sim_objects w).
Definition with_files (l : list string) (w : sim) : sim :=
  Sim (sim_db w) (sim_redis_up w) (sim_polls w) (sim_running w) l (sim_exit w)
      (sim_clock w) (sim_env w) (sim_argv w) (sim_cfg w) (sim_objects w).
Definition with_exit (f : list string -> Z) (w : sim) : sim :=
  Sim (sim_db w) (sim_redis_up w) (sim_polls w) (sim_running w) (sim_files w) f
      (sim_clock w) (sim_env w) (sim_argv w) (sim_cfg w) (sim_objects w).
Definition with_clock (t : Z) (w : sim) : sim :=
  Sim (sim_db w) (sim_redis_up w) (sim_polls w) (sim_running w) (sim_files w)
      (sim_exit w) t (sim_env w) (sim_argv w) (sim_cfg w) (sim_objects w).
Definition with_cfg (c : config) (w : sim) : sim :=
  Sim (sim_db w) (sim_redis_up w) (sim_polls w) (sim_running w) (sim_files w)
      (sim_exit w) (sim_clock w) (sim_env w) (sim_argv w) c (sim_objects w).
Definition with_env (e : gmap string string) (w : sim) : sim :=
  Sim (sim_db w) (sim_redis_up w) (sim_polls w) (sim_running w) (sim_files w)
      (sim_exit w) (sim_clock w) e (sim_argv w) (sim_cfg w) (sim_objects w).
Definition with_objects (l : list string) (w : sim) : sim :=
  Sim (sim_db w) (sim_redis_up w) (sim_polls w) (sim_running w) (sim_files w)
      (sim_exit w) (sim_clock w) (sim_env w) (sim_argv w) (sim_cfg w) l.
Definition with_argv (l : list string) (w : sim) : sim :=
  Sim (sim_db w) (sim_redis_up w) (sim_polls w) (sim_running w) (sim_files w)
      (sim_exit w) (sim_clock w) (sim_env w) l (sim_cfg w) (sim_objects w).

Definition sim_encode (v : pyval) : option string :=
  match v with
  | VStr s => Some s
  | VInt z => Some (str_of_Z z)
  | _ => None
  end.

#[export] Instance encodable_dec c : Decision (encodable sim_encode c).
Proof. destruct c; simpl; apply _. Defined.

(** One Redis call: consume the script; if Redis is up, execute. *)
Definition on_redis {A} (f : redis_db -> result A * redis_db) (w : sim) : result A * sim :=
  let w' := with_up (tail (sim_redis_up w)) w in
  match sim_redis_up w with
  | false :: _ => (Exc RedisConnectionError, w')
  | _ => let '(r, d) := f (sim_db w) in (r, with_db d w')
  end.

Definition b2Z (b : bool) : Z := if b then 1 else 0.

Definition sim_handler : handler sim := fun c w =>
  match c with
  | RedisFromUrl _ => (Ok tt, w)
  | RedisPing => on_redis (fun d => (Ok tt, d)) w
  | RedisHLen n => on_redis (fun d => (Ok (Z.of_nat (size (hash d n))), d)) w
  | RedisHGetAll n => on_redis (fun d => (Ok (map_to_list (hash d n)), d)) w
  | RedisExists n => on_redis (fun d => (Ok (b2Z (bool_decide (key_exists d n))), d)) w
  | RedisRename src dst =>
      on_redis (fun d => if decide (key_exists d src)
                         then (Ok tt, rename_key src dst d)
                         else (Exc RedisResponseError, d)) w
  | RedisHScan n cur _ =>
      on_redis (fun d => (Ok (0, if cur =? 0 then map_to_list (hash d n) else []), d)) w
  | RedisDelete n =>
      on_redis (fun d => (Ok (b2Z (bool_decide (key_exists d n))), delete_key n d)) w
  | RedisSetNX n v ex =>
      on_redis (fun d => (Ok (negb (bool_decide (key_exists d n))),
                          redis_step sim_encode (RedisSetNX n v ex) d)) w
  | RedisGet n => on_redis (fun d => (Ok (db_strings d !! n), d)) w
  | RedisHSetMapping n kvs => on_redis (fun d => (Ok (Z.of_nat (length kvs)), hset_all n kvs d)) w
  | RedisPipeline cmds =>
      on_redis (fun d => if decide (Forall (encodable sim_encode) cmds)
                         then (Ok tt, foldl (exec_pcmd sim_encode) d cmds)
                         else (Exc RedisDataError, d)) w
  | KafkaNew _ _ _ _ => (Ok tt, w)
  | KafkaListTopics _ => (Ok 1, w)
  | KafkaSubscribe _ => (Ok tt, w)
  | KafkaPoll _ =>
      match sim_polls w with
      | [] => (Ok (PollReply [] None), w)
      | p :: ps => (Ok p, with_polls ps w)
      end
  | KafkaCommit => (Ok tt, w)
  | KafkaClose => (Ok tt, w)
  | SubprocessRun argv _ _ => (Ok (Completed (sim_exit w argv) "" ""), w)
  | OsPathExists p => (Ok (bool_decide (p ∈ sim_files w)), w)
  | TempFile _ => (Ok "/tmp/list.txt", w)
  | FileWrite _ _ => (Ok tt, w)
  | OsUnlink _ => (Ok tt, w)
  | OsEnviron => (Ok (sim_env w), w)
  | SysArgv => (Ok (sim_argv w), w)
  | GetHostname => (Ok "node-001", w)
  | TomlLoad _ => (Ok (sim_cfg w), w)
  | TimeTime => (Ok (sim_clock w), with_clock (sim_clock w + tick) w)
  | TimeSleep n => (Ok tt, with_clock (sim_clock w + seconds n) w)
  | ReadRunning =>
      match sim_running w with
      | [] => (Ok false, w)
      | b :: bs => (Ok b, with_running bs w)
      end
  | StartHttpServer _ => (Ok tt, w)
  | MinioListObjects _ _ _ _ _ => (Ok (sim_objects w), w)
  | Print _ => (Ok tt, w)
  | PrintErr _ => (Ok tt, w)
  end.

#[export] Instance sim_server : RedisServer sim_handler := {
  rs_db := sim_db;
  rs_encode := sim_encode;
  rs_scan := fun w name cur => if cur =? 0 then dom (hash (sim_db w) name) else ∅
}.

(** A call that consumes the script and executes [f] obeys the outcome law
    when [f] does. *)
Lemma on_redis_outcome (c : call) (f : redis_db -> result (resp c) * redis_db) w :
  (forall d, redis_outcome sim_encode c d (f d).1 (f d).2) ->
  exists d d', sim_db w = d /\ redis_outcome sim_encode c d (on_redis f w).1 d' /\
    d' = sim_db (on_redis f w).2.
Proof.
  intros Hf. unfold on_redis. exists (sim_db w).
  assert (forall d, redis_outcome sim_encode c d (Exc RedisConnectionError) d) as Hdown
    by (by left).
  specialize (Hf (sim_db w)). destruct (f (sim_db w)) as [r d].
  destruct (sim_redis_up w) as [|[] up]; simpl; eauto.
Qed.

Lemma idle_outcome (c : call) d r :
  redis_step sim_encode c d = d -> (forall x, redis_reply sim_encode c d x) ->
  redis_outcome sim_encode c d r d.
Proof. intros Hs Hr. destruct r; simpl; auto. Qed.

#[export] Instance sim_laws : RedisLaws sim_handler eq.
Proof.
  split.
  - intros c w. destruct c;
      try (exists (sim_db w), (sim_db w); split; [done|]; split;
           [apply idle_outcome; done|simpl; repeat case_match; done]);
      apply on_redis_outcome; intros d; simpl;
      rewrite ?bool_decide_decide; repeat case_decide; simpl; try by auto.
    + split; [done|]. split; [apply list_to_map_to_list|apply NoDup_fst_map_to_list].
    + by rewrite decide_True.
  - done.
  - intros w name. simpl. done.
  - intros w name cur count cur' items _. simpl. unfold on_redis.
    assert (forall l : list (string * string), dom (list_to_map l : gmap string string)
      ⊆ list_to_set l.*1) as Hdom by (intros l; by rewrite dom_list_to_map_L).
    specialize (Hdom (map_to_list (hash (sim_db w) name))).
    rewrite list_to_map_to_list in Hdom.
    destruct (sim_redis_up w) as [|[] up]; simpl; intros [= <- <-];
      (destruct (cur =? 0); simpl; [|by intros x [?%elem_of_empty _]%elem_of_intersection]);
      intros x [_ Hx]%elem_of_intersection; apply elem_of_union; left; by apply Hdom.
Qed.

#[export] Instance sim_scans : RedisScans sim_handler.
Proof.
  intros c w name cur _ x [Hx Hd]%elem_of_intersection. simpl in *.
  destruct (cur =? 0); [done|by apply elem_of_empty in Hx].
Qed.
