(* ===== verification/Interleave.v ===== *)
(** Processes on one world.

    A process makes its calls in between those of others.  [amid h] is the
    handler such a process sees: before each of its own calls the others make
    any calls of a class [P].  What [wpc] proves under [amid h], for all calls
    of the others, is [robust]: it holds in every interleaving, whatever moves
    next.  [amid_laws] gives the process the laws of Redis, with what calls in
    [P] do to the keyspace as [rely]. *)
From S2P Require Import Prelude PyStr PyVal Config Effects Semantics Redis.

Local Open Scope Z_scope.
#[local] Set Warnings "-clear-no-such-hyp".

(** ** One node of a program *)

(** What is left of the program, and the call it has made, if any. *)
Definition next {W S A} (h : handler W) (p : prog S A) (s : S) (w : W)
    : prog S A * S * W * list entry :=
  match p with
  | Ret a => (Ret a, s, w, [])
  | Do c k => let '(r, w') := h c w in (k r, s, w', [Entry c r])
  | Mem f k => let '(x, s') := f s in (k x, s', w, [])
  end.

(** ** The others *)

Section Amid.
Context {W : Type} (h : handler W) (P : call -> Prop).

(** For each of the process's calls to come, the calls the others make before
    it. *)
Definition others : Type := nat -> list {c : call | P c}.

Definition intrude (cs : list {c : call | P c}) (w : W) : W :=
  foldl (fun w c => (h (proj1_sig c) w).2) w cs.

Definition amid : handler (W * others) := fun c we =>
  let '(r, w') := h c (intrude (we.2 0%nat) we.1) in (r, (w', fun n => we.2 (S n))).

(** The others make one call more before the next one of the process. *)
Definition before (c : {c : call | P c}) (env : others) : others :=
  fun n => match n with O => c :: env 0%nat | S n' => env (S n') end.

(** *** Robust programs *)

Section Robust.
Context {S : Type} (C : S -> logged (W * others) -> Prop).

(** The condition [C] looks at the world only, and calls in [P] keep it. *)
Class Unmoved : Prop := {
  unmoved_env s w env env' tr : C s (Logged (w, env) tr) -> C s (Logged (w, env') tr);
  unmoved_call s w env tr c : P c -> C s (Logged (w, env) tr) -> C s (Logged ((h c w).2, env) tr)
}.

Definition robust {A} (p : prog S A) (s : S) (w : W) (tr : list entry) : Prop :=
  forall env, wpc (log_handler amid) C (fun _ => C) p s (Logged (w, env) tr).

Lemma robust_here {A} (p : prog S A) s w tr env : robust p s w tr -> C s (Logged (w, env) tr).
Proof. intros H. by eapply wpc_crash, H. Qed.

Lemma robust_ret {A} (a : A) s w tr :
  (forall env, C s (Logged (w, env) tr)) -> robust (Ret a) s w tr.
Proof. intros H env. by split. Qed.

Lemma robust_next {A} (p : prog S A) s w tr :
  robust p s w tr ->
  let '(p', s', w', l) := next h p s w in robust p' s' w' (tr ++ l).
Proof.
  intros H. destruct p as [a|c k|X f k]; simpl.
  - by rewrite app_nil_r.
  - destruct (h c w) as [r w'] eqn:E. intros env.
    destruct (H (fun n => match n with O => [] | Datatypes.S n' => env n' end)) as [_ Hk].
    unfold log_handler, amid in Hk; simpl in Hk. rewrite E in Hk. exact Hk.
  - destruct (f s) as [x s'] eqn:E. intros env. destruct (H env) as [_ Hk].
    rewrite E in Hk. by rewrite app_nil_r.
Qed.

Lemma wpc_before `{!Unmoved} {A} (p : prog S A) s w tr c (Hc : P c) env :
  wpc (log_handler amid) C (fun _ => C) p s (Logged (w, before (exist P c Hc) env) tr) ->
  wpc (log_handler amid) C (fun _ => C) p s (Logged ((h c w).2, env) tr).
Proof.
  revert s. induction p as [a|d k _|X f k IH]; intros s [H0 Hk];
    (apply (unmoved_env _ _ _ env) in H0; apply (unmoved_call _ _ _ _ c Hc) in H0).
  - by split.
  - split; [done|]. exact Hk.
  - split; [done|]. simpl in Hk. destruct (f s) as [x s']. by apply IH.
Qed.

Lemma robust_call `{!Unmoved} {A} (p : prog S A) s w tr c :
  P c -> robust p s w tr -> robust p s (h c w).2 tr.
Proof. intros Hc Hr env. apply (wpc_before p s w tr c Hc env), Hr. Qed.
End Robust.

(** *** Redis, for a process among others *)

Context `{!RedisServer h}.

#[export] Instance amid_server : RedisServer amid := {
  rs_db we := rs_db we.1;
  rs_encode := rs_encode;
  rs_scan we := rs_scan we.1
}.

Context (rely : redis_db -> redis_db -> Prop) `{!PreOrder rely}.
Hypothesis P_rely : forall c w, P c -> rely (rs_db w) (rs_db (h c w).2).
Hypothesis P_scan : forall c, P c -> forall name cur count, c <> RedisHScan name cur count.

Lemma intrude_rely cs w : rely (rs_db w) (rs_db (intrude cs w)).
Proof.
  revert w. induction cs as [|[c Hc] cs IH]; intros w; [done|].
  etrans; [by apply (P_rely c)|]. apply IH.
Qed.

Lemma intrude_scan `{!RedisScans h} name cs w cur :
  (forall d d', rely d d' -> hash d' name = hash d name) ->
  rs_scan w name cur ∩ dom (hash (rs_db w) name) ⊆ rs_scan (intrude cs w) name cur.
Proof.
  intros Hn. revert w. induction cs as [|[c Hc] cs IH]; intros w; [set_solver|].
  simpl. etrans; [|apply IH].
  pose proof (rl_scan_keep c w name cur (fun cur' count => P_scan c Hc name cur' count)) as Hk.
  pose proof (Hn _ _ (P_rely c w Hc)) as Hh. rewrite Hh in Hk |- *. set_solver.
Qed.

#[export] Instance amid_laws `{!RedisLaws h eq} `{!RedisScans h} : RedisLaws amid rely.
Proof.
  split.
  - intros c [w env]. destruct (rl_exec (h := h) c (intrude (env 0%nat) w)) as (d & d' & Hd & Hout & Hd').
    exists d, d'. unfold amid. simpl. subst d. split; [apply intrude_rely|].
    destruct (h c _) as [r w']. simpl in *. split; [done|]. by rewrite Hd'.
  - exact (rl_encode_str (h := h) (rely := eq)).
  - intros [w env] name. exact (rl_scan_start (h := h) (rely := eq) w name).
  - intros [w env] name cur count cur' items Hn. unfold amid. simpl.
    pose proof (rl_scan_next (h := h) (rely := eq) (intrude (env 0%nat) w) name cur count cur' items
      ltac:(by intros d d' ->)) as Hs.
    pose proof (intrude_scan name (env 0%nat) w cur Hn) as Hi.
    pose proof (Hn _ _ (intrude_rely (env 0%nat) w)) as Hw.
    assert (Hidle : rs_db (h (RedisHScan name cur count) (intrude (env 0%nat) w)).2
                    = rs_db (intrude (env 0%nat) w)) by (by apply rs_db_idle).
    destruct (h (RedisHScan name cur count) _) as [r w']. simpl in *. intros ->.
    specialize (Hs eq_refl). rewrite Hidle in Hs |- *. rewrite <-Hw in Hi. set_solver.
Qed.
End Amid.
