(* ===== verification/Consumer.v ===== *)
(** [consumer/consumer.py]: the Kafka event processor.

    [parse_event] turns one Kafka payload into at most one queued action and
    makes no call; [flush_batch] sends the queued actions to Redis in one
    pipeline; [update_metrics] refreshes the gauge.  The objects of the process
    (the processor and the Prometheus metrics of this module and of [main.py])
    are the [heap]. *)
From S2P Require Import Prelude PyStr PyVal Config Effects Semantics Redis Sim.

Local Open Scope string_scope.
Local Open Scope Z_scope.
Local Open Scope py_scope.
#[local] Set Warnings "-clear-no-such-hyp".

(** ** State *)

(** The Prometheus metrics of [consumer.py] and [main.py]. *)
Record metrics := Metrics {
  EVENTS_PROCESSED : Z;
  EVENTS_SKIPPED_DELETE : Z;
  EVENTS_ERRORS : Z;
  EVENTS_REDIS_ERRORS : Z;
  PENDING_TOTAL : Z;
  KAFKA_ERRORS : gmap string Z;
  KAFKA_COMMIT_ERRORS : Z
}.

Record stats_dict := Stats {
  processed : Z;
  skipped_delete : Z;
  errors : Z
}.

(** An entry of [_batch]: [("hset", (path, event_type))] or
    [("rename", (old_path, new_path))]. *)
Inductive action : Type :=
| hset (path event_type : pyval)
| rename (old_path new_path : pyval).

Record EventProcessor := Processor {
  stats : stats_dict;
  _batch : list action
}.

Record heap := Heap {
  processor : EventProcessor;
  prom : metrics
}.

Definition init_processor : EventProcessor := Processor (Stats 0 0 0) [].
Definition init_heap : heap := Heap init_processor (Metrics 0 0 0 0 0 ∅ 0).

(** [self.stats["processed"] += 1; EVENTS_PROCESSED.inc()] *)
Definition count_processed (h : heap) : heap :=
  let '(Heap (Processor (Stats p d e) b) (Metrics P D E R G K C)) := h in
  Heap (Processor (Stats (p + 1) d e) b) (Metrics (P + 1) D E R G K C).

(** [self.stats["skipped_delete"] += 1; EVENTS_SKIPPED_DELETE.inc()] *)
Definition count_skipped_delete (h : heap) : heap :=
  let '(Heap (Processor (Stats p d e) b) (Metrics P D E R G K C)) := h in
  Heap (Processor (Stats p (d + 1) e) b) (Metrics P (D + 1) E R G K C).

(** [self.stats["errors"] += 1; EVENTS_ERRORS.inc()] *)
Definition count_error (h : heap) : heap :=
  let '(Heap (Processor (Stats p d e) b) (Metrics P D E R G K C)) := h in
  Heap (Processor (Stats p d (e + 1)) b) (Metrics P D (E + 1) R G K C).

(** [self._batch.append(a)] *)
Definition append_batch (a : action) (h : heap) : heap :=
  let '(Heap (Processor st b) m) := h in Heap (Processor st (b ++ [a])) m.

(** [self._batch.clear()] *)
Definition clear_batch (h : heap) : heap :=
  let '(Heap (Processor st _) m) := h in Heap (Processor st []) m.

Definition batch (h : heap) : list action := _batch (processor h).

(** [EVENTS_REDIS_ERRORS.inc(len(self._batch))] *)
Definition count_redis_errors (h : heap) : heap :=
  let '(Heap pr (Metrics P D E R G K C)) := h in
  Heap pr (Metrics P D E (R + Z.of_nat (length (_batch pr))) G K C).

(** [PENDING_TOTAL.set(n)] *)
Definition set_pending_total (n : Z) (h : heap) : heap :=
  let '(Heap pr (Metrics P D E R _ K C)) := h in Heap pr (Metrics P D E R n K C).

(** [batch_size] *)
Definition batch_size (h : heap) : Z := Z.of_nat (length (batch h)).

(** ** [parse_event] *)

Notation "'attempt' x := r 'with' h 'in' k" :=
  (match r with
   | Ok x => k
   | Exc e => (Exc e, h)
   | Running => (Running, h)
   end) (at level 10, x pattern, r at level 100, h at level 99, k at level 200) : py_scope.

Definition parse_event (msg_value : option string) (h : heap) : result unit * heap :=
  match loads msg_value with
  | Exc JSONDecodeError => (Ok tt, count_error h)
  | Exc e => (Exc e, h)
  | Running => (Running, h)
  | Ok event =>
    attempt event_type := py_get event "event" with h in
    if eq_str event_type "delete" then
      (Ok tt, count_processed (count_skipped_delete h))
    else if eq_str event_type "rename" then
      attempt old_path := py_get event "old_path" with h in
      attempt new_path := py_get event "new_path" with h in
      if negb (truthy old_path) || negb (truthy new_path) then
        (Ok tt, count_error h)
      else
        (Ok tt, count_processed (append_batch (rename old_path new_path) h))
    else if eq_str event_type "mtime_change" then
      attempt path := py_get event "path" with h in
      (Ok tt, count_processed
                (if truthy path then append_batch (hset path event_type) h else h))
    else
      (Ok tt, count_error h)
  end.

(** ** [flush_batch] *)

(** The commands one action puts on the pipeline. *)
Definition queue_action (a : action) : list pcmd :=
  match a with
  | hset path event_type => [PHSet "pending" path event_type]
  | rename old_path new_path =>
      [PHDel "pending" old_path; PHSet "pending" new_path (VStr "rename")]
  end.

Definition pipeline_of (b : list action) : list pcmd := concat (queue_action <$> b).

#[global] Arguments pipeline_of : simpl never.

Definition flush_batch : py heap bool :=
  let* h := get_state in
  match batch h with
  | [] => ret true
  | b =>
    try_except
      (do (RedisPipeline (pipeline_of b)) ;; modify clear_batch ;; ret true)
      (fun e => if is_conn_or_timeout e || is_RedisError e
                then Some (modify count_redis_errors ;; modify clear_batch ;; ret false)
                else None)
  end.

(** ** [update_metrics] *)
Definition update_metrics : py heap unit :=
  try_except
    (let* n := do (RedisHLen "pending") in modify (set_pending_total n))
    (fun e => if is_RedisError e then Some (ret tt) else None).

(** ** The event rules of the README

    What a well-formed event asks for, and what it does to the [pending]
    hash: the table under "event processing rules". *)
Inductive file_event : Type :=
| MtimeChange (path : string)
| Deleted
| Renamed (old_path new_path : string).

Definition str_field (d : list (string * pyval)) (k : string) : option string :=
  match dict_find d k with Some (VStr s) => Some s | _ => None end.

Definition event_of (v : pyval) : option file_event :=
  match v with
  | VDict d =>
      match str_field d "event" with
      | Some kind =>
          if String.eqb kind "mtime_change" then
            match str_field d "path" with
            | Some p => if String.eqb p "" then None else Some (MtimeChange p)
            | None => None
            end
          else if String.eqb kind "delete" then Some Deleted
          else if String.eqb kind "rename" then
            match str_field d "old_path", str_field d "new_path" with
            | Some o, Some n =>
                if String.eqb o "" || String.eqb n "" then None else Some (Renamed o n)
            | _, _ => None
            end
          else None
      | None => None
      end
  | _ => None
  end.

Definition apply_rule (pending : gmap string string) (ev : file_event) : gmap string string :=
  match ev with
  | MtimeChange p => <[p := "mtime_change"]> pending
  | Deleted => pending
  | Renamed o n => <[n := "rename"]> (delete o pending)
  end.

(** The action a well-formed event is queued as. *)
Definition actions_of (ev : file_event) : list action :=
  match ev with
  | MtimeChange p => [hset (VStr p) (VStr "mtime_change")]
  | Deleted => []
  | Renamed o n => [rename (VStr o) (VStr n)]
  end.

(** Parse the payloads one after the other, then flush. *)
Definition consume (msgs : list (option string)) : py heap bool :=
  for_each msgs (fun m => atomically (parse_event m)) ;; flush_batch.

(** The type of a queued action: what [parse_event] lets through.  The paths
    need not be strings. *)
Definition action_ok (a : action) : bool :=
  match a with
  | hset path event_type => truthy path && eq_str event_type "mtime_change"
  | rename old_path new_path => truthy old_path && truthy new_path
  end.

Definition queue_ok (h : heap) : Prop := Forall (fun a => action_ok a = true) (batch h).

(** The module's counters and their Prometheus copies agree. *)
Definition metrics_agree (h : heap) : Prop :=
  EVENTS_PROCESSED (prom h) = processed (stats (processor h)) /\
  EVENTS_SKIPPED_DELETE (prom h) = skipped_delete (stats (processor h)) /\
  EVENTS_ERRORS (prom h) = errors (stats (processor h)).

Definition events_seen (h : heap) : Z :=
  processed (stats (processor h)) + errors (stats (processor h)).

(** ** Lemmas *)

Ltac destruct_heap h := destruct h as [[[] ?] []].

Lemma batch_append a h : batch (append_batch a h) = (batch h ++ [a])%list.
Proof. by destruct_heap h. Qed.
Lemma batch_count_processed h : batch (count_processed h) = batch h.
Proof. by destruct_heap h. Qed.
Lemma batch_count_skipped_delete h : batch (count_skipped_delete h) = batch h.
Proof. by destruct_heap h. Qed.
Lemma batch_count_error h : batch (count_error h) = batch h.
Proof. by destruct_heap h. Qed.
Lemma batch_clear h : batch (clear_batch h) = [].
Proof. by destruct_heap h. Qed.
Lemma batch_count_redis_errors h : batch (count_redis_errors h) = batch h.
Proof. by destruct_heap h. Qed.

Create Rewrite HintDb heap.
#[export] Hint Rewrite batch_append batch_count_processed batch_count_skipped_delete
  batch_count_error batch_clear batch_count_redis_errors : heap.

Lemma str_field_get d k s : str_field d k = Some s -> py_get (VDict d) k = Ok (VStr s).
Proof.
  unfold str_field. simpl. destruct (dict_find d k) as [[]|]; try done.
  by intros [= ->].
Qed.

Lemma eqb_neq_str s t : s <> t -> String.eqb s t = false.
Proof. apply String.eqb_neq. Qed.

Lemma event_of_inv v ev :
  event_of v = Some ev ->
  exists d, v = VDict d /\
  match ev with
  | MtimeChange p => py_get v "event" = Ok (VStr "mtime_change") /\
      py_get v "path" = Ok (VStr p) /\ p <> ""
  | Deleted => py_get v "event" = Ok (VStr "delete")
  | Renamed o n => py_get v "event" = Ok (VStr "rename") /\
      py_get v "old_path" = Ok (VStr o) /\ py_get v "new_path" = Ok (VStr n) /\
      o <> "" /\ n <> ""
  end.
Proof.
  destruct v as [| | | | | | | |d]; try done. cbn [event_of]. intros H. exists d.
  split; [done|].
  destruct (str_field d "event") as [kind|] eqn:Ek; [|done].
  apply str_field_get in Ek.
  destruct (String.eqb_spec kind "mtime_change") as [->|_].
  { destruct (str_field d "path") as [p|] eqn:Ep; [|done]. apply str_field_get in Ep.
    destruct (String.eqb_spec p ""); by simplify_eq. }
  destruct (String.eqb_spec kind "delete") as [->|_]; [by simplify_eq|].
  destruct (String.eqb_spec kind "rename") as [->|_]; [|done].
  destruct (str_field d "old_path") as [o|] eqn:Eo; [|done].
  destruct (str_field d "new_path") as [n|] eqn:En; [|done].
  apply str_field_get in Eo, En.
  destruct (String.eqb_spec o ""), (String.eqb_spec n ""); simpl in H; by simplify_eq.
Qed.

Lemma truthy_str s : s <> "" -> truthy (VStr s) = true.
Proof. intros H. simpl. by rewrite eqb_neq_str. Qed.

(** A well-formed event is queued as its rule says. *)
Lemma parse_event_wf m v ev h :
  loads m = Ok v -> event_of v = Some ev ->
  exists h', parse_event m h = (Ok tt, h') /\ batch h' = (batch h ++ actions_of ev)%list.
Proof.
  intros Hl (d & -> & He)%event_of_inv. unfold parse_event. rewrite Hl.
  destruct ev as [p| |o n].
  - destruct He as (-> & Hp & Hne). simpl eq_str. cbv iota. rewrite Hp, truthy_str by done.
    eexists. split; [done|]. by autorewrite with heap.
  - rewrite He. simpl eq_str. cbv iota. eexists. split; [done|].
    autorewrite with heap. by rewrite app_nil_r.
  - destruct He as (-> & Ho & Hn & Hone & Hnne). simpl eq_str. cbv iota.
    rewrite Ho, Hn, !truthy_str by done. eexists. split; [done|].
    by autorewrite with heap.
Qed.

(** Every payload that is parsed without an exception is counted once, as
    processed or as an error, and queues at most one action. *)
Lemma parse_event_step m h h' :
  parse_event m h = (Ok tt, h') ->
  events_seen h' = events_seen h + 1 /\
  (metrics_agree h -> metrics_agree h') /\
  EVENTS_REDIS_ERRORS (prom h') = EVENTS_REDIS_ERRORS (prom h) /\
  exists l, batch h' = (batch h ++ l)%list /\ (length l <= 1)%nat.
Proof.
  unfold parse_event, events_seen, metrics_agree. destruct_heap h.
  intros H. repeat case_match; simplify_eq; simpl in *;
    (split; [lia|]); (split; [lia|]); (split; [done|]);
    first [exists []; rewrite app_nil_r; split; [done|simpl; lia]
          |eexists [_]; split; [done|simpl; lia]].
Qed.

Lemma parse_event_raises m h r h' :
  parse_event m h = (r, h') -> r <> Running /\ (r <> Ok tt -> h' = h).
Proof.
  unfold parse_event. pose proof (loads_returns m) as Hl. intros H.
  assert (forall v k, py_get v k <> Running) as Hg by (by intros [] k).
  repeat case_match; simplify_eq; try done; exfalso; by eapply Hg.
Qed.

(** What is queued is well typed. *)
Lemma parse_event_queue m h : queue_ok h -> queue_ok (parse_event m h).2.
Proof.
  unfold queue_ok, parse_event. intros H.
  repeat case_match; simplify_eq; cbn [snd] in *; autorewrite with heap; try done;
    (apply Forall_app; split; [done|]; constructor; [|done]); simpl.
  - match goal with E : negb _ || negb _ = false |- _ =>
      apply orb_false_iff in E as [-> %negb_false_iff ->%negb_false_iff] end. done.
  - by apply andb_true_iff.
Qed.

(** The pipeline of a batch is that of its actions in order. *)
Lemma pipeline_app b b' : pipeline_of (b ++ b') = (pipeline_of b ++ pipeline_of b')%list.
Proof. unfold pipeline_of. by rewrite fmap_app, concat_app. Qed.

Section Rules.
Context (enc : pyval -> option string) (Henc : forall s, enc (VStr s) = Some s).

Lemma exec_actions ev d :
  hash (foldl (exec_pcmd enc) d (pipeline_of (actions_of ev))) "pending"
  = apply_rule (hash d "pending") ev.
Proof.
  destruct ev as [p| |o n]; simpl; rewrite ?Henc; [|done|]; by autorewrite with redis.
Qed.

Lemma exec_events evs d :
  hash (foldl (exec_pcmd enc) d (pipeline_of (evs ≫= actions_of))) "pending"
  = foldl apply_rule (hash d "pending") evs.
Proof.
  revert d. induction evs as [|ev evs IH]; intros d; [done|].
  rewrite bind_cons, pipeline_app, foldl_app, IH. simpl. by rewrite exec_actions.
Qed.
End Rules.

(** ** Running the processor *)
Section Running.
Context {W : Type} (h : handler W).

Lemma run_atomically {S A} (f : S -> result A * S) s w :
  run h (atomically f) s w = (let '(r, s') := f s in (r, s', w)).
Proof. simpl. by destruct (f s). Qed.

Lemma run_flush_batch s w :
  run h flush_batch s w =
  match batch s with
  | [] => (Ok true, s, w)
  | _ :: _ =>
      match h (RedisPipeline (pipeline_of (batch s))) w with
      | (Ok _, w') => (Ok true, clear_batch s, w')
      | (Exc e, w') =>
          if is_RedisError e then (Ok false, clear_batch (count_redis_errors s), w')
          else (Exc e, s, w')
      | (Running, w') => (Running, s, w')
      end
  end.
Proof.
  unfold flush_batch. simpl. destruct (batch s) as [|a b]; [done|]. simpl.
  destruct (h _ w) as [[[]|e|] w']; simpl; try done.
  by destruct e.
Qed.

(** The proof rule for [flush_batch] on a non-empty queue. *)
Lemma wpc_flush_batch C (Q : result bool -> heap -> W -> Prop) s w :
  batch s <> [] -> C s w ->
  (let '(a, w') := h (RedisPipeline (pipeline_of (batch s))) w in
   C s w' /\
   match a with
   | Ok _ => C (clear_batch s) w' /\ Q (Ok true) (clear_batch s) w'
   | Exc e =>
       if is_RedisError e
       then C (count_redis_errors s) w' /\ C (clear_batch (count_redis_errors s)) w' /\
            Q (Ok false) (clear_batch (count_redis_errors s)) w'
       else Q (Exc e) s w'
   | Running => Q Running s w'
   end) ->
  wpc h C Q flush_batch s w.
Proof.
  intros Hne HC H. unfold flush_batch. simpl. destruct (batch s) as [|a b]; [done|].
  do 2 (split; [done|]).
  destruct (h _ w) as [[u|e|] w']; simpl in *; [tauto| |tauto].
  destruct H as [HC' H]. assert (is_conn_or_timeout e || is_RedisError e = is_RedisError e)
    as -> by (by destruct e). destruct (is_RedisError e); simpl; tauto.
Qed.

Lemma run_update_metrics s w :
  run h update_metrics s w =
  match h (RedisHLen "pending") w with
  | (Ok n, w') => (Ok tt, set_pending_total n s, w')
  | (Exc e, w') => (if is_RedisError e then Ok tt else Exc e, s, w')
  | (Running, w') => (Running, s, w')
  end.
Proof.
  simpl. destruct (h _ w) as [[n|e|] w']; simpl; try done.
  by destruct (is_RedisError e).
Qed.

Definition well_formed (m : option string) (ev : file_event) : Prop :=
  exists v, loads m = Ok v /\ event_of v = Some ev.

Lemma run_parse_all msgs evs s w :
  Forall2 well_formed msgs evs ->
  exists s', run h (for_each msgs (fun m => atomically (parse_event m))) s w
             = (Ok tt, s', w) /\
    batch s' = (batch s ++ (evs ≫= actions_of))%list.
Proof.
  intros H. revert s. induction H as [|m ev msgs evs (v & Hl & Hev) _ IH]; intros s.
  { exists s. by rewrite app_nil_r. }
  destruct (parse_event_wf m v ev s Hl Hev) as (s1 & Hp & Hb1).
  destruct (IH s1) as (s2 & Hr & Hb2). exists s2. split.
  - simpl for_each. rewrite run_bind, run_atomically, Hp. done.
  - by rewrite Hb2, Hb1, bind_cons, app_assoc.
Qed.
End Running.

(** *** Replays *)

(** A write sets a field or removes it, whatever was there. *)
Definition write (m : gmap string string) (kv : string * option string) : gmap string string :=
  partial_alter (fun _ => kv.2) kv.1 m.

Definition last_write (k : string) (ws : list (string * option string)) : option (option string) :=
  foldl (fun acc kv => if decide (kv.1 = k) then Some kv.2 else acc) None ws.

Lemma last_write_snoc k ws kv :
  last_write k (ws ++ [kv]) = if decide (kv.1 = k) then Some kv.2 else last_write k ws.
Proof. unfold last_write. by rewrite foldl_app. Qed.

Lemma lookup_writes k ws m :
  foldl write m ws !! k = match last_write k ws with Some o => o | None => m !! k end.
Proof.
  induction ws as [|kv ws IH] using rev_ind; [done|].
  rewrite foldl_app, last_write_snoc. simpl. unfold write.
  destruct (decide (kv.1 = k)) as [<-|Hne].
  - by rewrite lookup_partial_alter_eq.
  - by rewrite lookup_partial_alter_ne.
Qed.

Lemma last_write_prefix k ws ws' :
  last_write k (ws ++ ws') = None -> last_write k ws = None.
Proof.
  induction ws' as [|kv ws' IH] using rev_ind; [by rewrite app_nil_r|].
  rewrite app_assoc, last_write_snoc. case_decide; [done|]. done.
Qed.

Lemma writes_absorb ws ws' m :
  foldl write (foldl write m ws) (ws ++ ws') = foldl write m (ws ++ ws').
Proof.
  apply map_eq. intros k. rewrite !lookup_writes.
  destruct (last_write k (ws ++ ws')) eqn:E; [done|].
  by rewrite (last_write_prefix k ws ws').
Qed.

Section Replay.
Context (enc : pyval -> option string).

(** The writes a pipeline command makes to the hash [name]. *)
Definition writes_of (name : string) (c : pcmd) : list (string * option string) :=
  match c with
  | PHSet n k v =>
      match enc k, enc v with
      | Some k', Some v' => if decide (n = name) then [(k', Some v')] else []
      | _, _ => []
      end
  | PHDel n k =>
      match enc k with
      | Some k' => if decide (n = name) then [(k', None)] else []
      | None => []
      end
  end.

Lemma exec_pcmds_writes name cmds d :
  hash (foldl (exec_pcmd enc) d cmds) name
  = foldl write (hash d name) (cmds ≫= writes_of name).
Proof.
  revert d. induction cmds as [|c cmds IH]; intros d; [done|].
  rewrite bind_cons, foldl_app. simpl. rewrite IH. f_equal.
  destruct c as [n k v|n k]; simpl; repeat case_match; subst; simpl;
    autorewrite with redis; try done; by rewrite hash_set_hash_ne.
Qed.
End Replay.

(** ** Properties *)

(** C10. Any batch of well-formed payloads, parsed one by one from an empty
    queue and then flushed, changes Redis's [pending] hash exactly as the
    README's event rules say, in order: [mtime_change] sets the path, [delete]
    is ignored, [rename] moves the entry; and the queue is empty afterwards.
    The other clients are assumed idle during the flush. *)
Theorem consume_applies_rules {W} (h : handler W) `{!RedisServer h} `{!RedisLaws h eq}
    msgs evs s w s' w' :
  Forall2 well_formed msgs evs -> batch s = [] ->
  run h (consume msgs) s w = (Ok true, s', w') ->
  hash (rs_db w') "pending" = foldl apply_rule (hash (rs_db w) "pending") evs /\
  batch s' = [].
Proof.
  intros Hwf Hs. unfold consume. rewrite run_bind.
  destruct (run_parse_all h msgs evs s w Hwf) as (s1 & -> & Hb).
  rewrite Hs, app_nil_l in Hb.
  rewrite <-(exec_events rs_encode rl_encode_str evs (rs_db w)), <-Hb.
  rewrite run_flush_batch. destruct (batch s1) as [|a b] eqn:E.
  { intros [= <- <-]. by rewrite E. }
  destruct (rl_exec (RedisPipeline (pipeline_of (a :: b))) w) as (d & d' & <- & Hout & Hd).
  destruct (h (RedisPipeline (pipeline_of (a :: b))) w) as [[[]|e|] w1]; cbn [fst snd] in *;
    [|destruct (is_RedisError e); intros; simplify_eq|intros; simplify_eq].
  destruct Hout as [Hd' _]. intros H. injection H as <- <-.
  split; [by rewrite <-Hd, Hd'|apply batch_clear].
Qed.

(** Redelivery is harmless: when the commands of the first [n] actions of
    a batch have already been executed, executing the whole batch's pipeline
    leaves [pending] as executing it once does (whatever the fields and values
    are, and also where redis-py cannot encode one). *)
Theorem pipeline_replay enc b n d :
  let once := foldl (exec_pcmd enc) d (pipeline_of b) in
  let prefix := foldl (exec_pcmd enc) d (pipeline_of (take n b)) in
  hash (foldl (exec_pcmd enc) prefix (pipeline_of b)) "pending" = hash once "pending".
Proof.
  intros once prefix. unfold once, prefix. rewrite !exec_pcmds_writes.
  assert (pipeline_of b = pipeline_of (take n b) ++ pipeline_of (drop n b))%list as ->
    by (by rewrite <-pipeline_app, take_drop).
  rewrite bind_app. apply writes_absorb.
Qed.

(** [flush_batch], against any Redis: an empty queue makes no call and
    reports success; otherwise exactly one call is made, the pipeline of the
    whole queue, and the queue is dropped when it succeeds ([True]) and also
    when Redis fails ([False], with the dropped actions added to the error
    counter); an exception of another class keeps the queue and escapes. *)
Theorem flush_batch_outcome {W} (h : handler W) s lw r s' lw' :
  run (log_handler h) flush_batch s lw = (r, s', lw') ->
  match batch s with
  | [] => r = Ok true /\ s' = s /\ trace lw' = trace lw
  | _ :: _ =>
      exists a, trace lw' = (trace lw ++ [Entry (RedisPipeline (pipeline_of (batch s))) a])%list /\
      match a with
      | Ok _ => r = Ok true /\ s' = clear_batch s
      | Exc e =>
          if is_RedisError e
          then r = Ok false /\ s' = clear_batch (count_redis_errors s) /\
               EVENTS_REDIS_ERRORS (prom s')
               = EVENTS_REDIS_ERRORS (prom s) + batch_size s
          else r = Exc e /\ s' = s
      | Running => r = Running /\ s' = s
      end
  end.
Proof.
  rewrite run_flush_batch. destruct (batch s) as [|a b] eqn:E; [by intros [= <- <- <-]|].
  unfold log_handler at 1. rewrite <-E.
  destruct (h (RedisPipeline (pipeline_of (batch s))) (base lw)) as [a' w'].
  intros H. exists a'. destruct a' as [[]|e|]; [| |by injection H as <- <- <-].
  - by injection H as <- <- <-.
  - destruct (is_RedisError e); injection H as <- <- <-; [|done].
    split; [done|]. by destruct_heap s.
Qed.

(** Payload accounting: every payload that is parsed without an exception
    is counted exactly once, as processed or as an error, the Prometheus
    counters stay equal to the processor's own statistics, no queued action is
    lost or changed, and at most one is added. *)
Theorem parse_event_counts m h h' :
  parse_event m h = (Ok tt, h') ->
  events_seen h' = events_seen h + 1 /\
  (metrics_agree h -> metrics_agree h') /\
  exists l, batch h' = (batch h ++ l)%list /\ (length l <= 1)%nat.
Proof. intros H%parse_event_step. tauto. Qed.

Definition is_dict (v : pyval) : bool := match v with VDict _ => true | _ => false end.

(** What escapes from [parse_event]: malformed JSON text is counted and
    swallowed, but an undecodable payload, a tombstone and an oversized integer
    raise what [json.loads] raises, and a JSON document that is not an object
    raises [AttributeError]; the state is then unchanged, and these are the
    only exceptions. *)
Theorem parse_event_escapes m h e h' :
  parse_event m h = (Exc e, h') <->
  h' = h /\ ((loads m = Exc e /\ e <> JSONDecodeError) \/
             (e = AttributeError /\ exists v, loads m = Ok v /\ is_dict v = false)).
Proof.
  assert (Hd : forall v k, is_dict v = true -> exists x, py_get v k = Ok x)
    by (intros [] k; try done; eauto).
  assert (Hn : forall v k, is_dict v = false -> py_get v k = Exc AttributeError)
    by (by intros [] k).
  unfold parse_event. destruct (loads m) as [v|e'|] eqn:El.
  - destruct (is_dict v) eqn:Ev.
    + destruct (Hd v "event" Ev) as [x1 ->], (Hd v "old_path" Ev) as [x2 ->],
        (Hd v "new_path" Ev) as [x3 ->], (Hd v "path" Ev) as [x4 ->].
      split; [by repeat case_match|]. intros (_ & [[[=] _]|(_ & v' & [= <-] & ?)]). congruence.
    + rewrite Hn by done. split.
      * intros [= <- <-]. eauto 10.
      * intros (-> & [[[=] _]|(-> & _)]). done.
  - split.
    + intros H. destruct e'; simplify_eq; (split; [done|]); left; done.
    + intros (-> & [[[= ->] Hne]|(-> & v & [=] & _)]). by destruct e.
  - by destruct (loads_returns m).
Qed.

Fixpoint rename_chain (p : string) (ps : list string) : list file_event :=
  match ps with
  | [] => []
  | q :: ps' => Renamed p q :: rename_chain q ps'
  end.

Lemma apply_rename_chain p ps m k :
  NoDup (p :: ps) -> ps <> [] ->
  foldl apply_rule m (rename_chain p ps) !! k =
  if decide (last ps = Some k) then Some "rename"
  else if decide (k ∈ p :: ps) then None else m !! k.
Proof.
  revert p m. induction ps as [|q ps IH]; intros p m Hnd Hne; [done|].
  apply NoDup_cons in Hnd as [Hp Hnd]. destruct ps as [|q' ps].
  - simpl. destruct (decide (Some q = Some k)) as [[= ->]|Hk]; [by rewrite lookup_insert_eq|].
    rewrite lookup_insert_ne by congruence.
    destruct (decide (k = p)) as [->|Hkp].
    + rewrite lookup_delete_eq, decide_True; [done|set_solver].
    + rewrite lookup_delete_ne, decide_False; [done|set_solver|done].
  - cbn [rename_chain foldl]. cbn [rename_chain foldl] in IH. rewrite (IH q _ Hnd) by done.
    rewrite last_cons_cons. case_decide as Hl; [done|].
    destruct (decide (k ∈ q :: q' :: ps)) as [Hk|Hk].
    { rewrite decide_True; [done|set_solver]. }
    simpl. rewrite lookup_insert_ne by set_solver.
    destruct (decide (k = p)) as [->|Hkp].
    + rewrite lookup_delete_eq, decide_True; [done|set_solver].
    + rewrite lookup_delete_ne, decide_False; [done|set_solver|done].
Qed.

(** A modified file renamed through a chain of distinct paths ends with
    one entry, its last name, marked ["rename"]; its earlier names are gone
    from [pending] and every other entry is untouched. *)
Theorem rename_chain_pending enc p ps d k :
  (forall s, enc (VStr s) = Some s) -> NoDup (p :: ps) -> ps <> [] ->
  let evs := MtimeChange p :: rename_chain p ps in
  hash (foldl (exec_pcmd enc) d (pipeline_of (evs ≫= actions_of))) "pending" !! k =
  if decide (last ps = Some k) then Some "rename"
  else if decide (k ∈ p :: ps) then None else hash d "pending" !! k.
Proof.
  intros Henc Hnd Hne evs. unfold evs. rewrite exec_events by done.
  cbn [foldl]. rewrite apply_rename_chain by done.
  case_decide; [done|]. case_decide as Hk; [done|]. simpl.
  rewrite lookup_insert_ne; [done|set_solver].
Qed.

(** ** Witnesses *)

Definition demo_msgs : list (option string) :=
  [ Some (json_text "{'ts':1710000000000,'event':'mtime_change','path':'/home/s/u/a'}");
    Some (json_text "{'event':'delete','path':'/home/s/u/b'}");
    Some (json_text "{'event':'rename','old_path':'/home/s/u/a','new_path':'/home/s/u/c'}") ].

Definition demo_events : list file_event :=
  [MtimeChange "/home/s/u/a"; Deleted; Renamed "/home/s/u/a" "/home/s/u/c"].

Lemma consume_applies_rules_witness :
  let '(_, s', w') := run sim_handler (consume demo_msgs) init_heap sim0 in
  hash (rs_db w') "pending" !! "/home/s/u/c" = Some "rename" /\
  hash (rs_db w') "pending" !! "/home/s/u/a" = None /\ batch s' = [].
Proof.
  destruct (run sim_handler (consume demo_msgs) init_heap sim0) as [[r s'] w'] eqn:E.
  destruct (consume_applies_rules sim_handler demo_msgs demo_events init_heap sim0 s' w')
    as [-> ->].
  - repeat (constructor; [eexists; split; vm_compute; reflexivity|]). constructor.
  - reflexivity.
  - rewrite E. vm_compute in E. congruence.
  - done.
Defined.

Lemma flush_batch_outcome_witness :
  let s := append_batch (hset (VStr "/home/a") (VStr "mtime_change")) init_heap in
  let '(r, s', lw') := run (log_handler sim_handler) flush_batch s
                         (Logged (with_up [false] sim0) []) in
  exists a, trace lw' = [Entry (RedisPipeline (pipeline_of (batch s))) a].
Proof.
  intros s.
  destruct (run (log_handler sim_handler) flush_batch s (Logged (with_up [false] sim0) []))
    as [[r s'] lw'] eqn:E.
  destruct (flush_batch_outcome sim_handler s _ r s' lw' E) as (a & Ha & _).
  exists a. exact Ha.
Defined.

Lemma parse_event_counts_witness :
  exists h', parse_event (Some "not json") init_heap = (Ok tt, h') /\
    events_seen h' = 1 /\ errors (stats (processor h')) = 1.
Proof.
  eexists. split; [vm_compute; reflexivity|]. split; [|reflexivity].
  apply (parse_event_counts (Some "not json") init_heap). vm_compute. reflexivity.
Defined.

Lemma rename_chain_pending_witness :
  let evs := MtimeChange "A" :: rename_chain "A" ["B"; "C"] in
  hash (foldl (exec_pcmd sim_encode) empty_db (pipeline_of (evs ≫= actions_of)))
    "pending" !! "C" = Some "rename".
Proof.
  intros evs. unfold evs.
  rewrite (rename_chain_pending sim_encode "A" ["B"; "C"] empty_db "C");
    [reflexivity|reflexivity| |discriminate].
  apply (bool_decide_unpack _). vm_compute. exact I.
Defined.
