(* ===== verification/ConsumerMain.v ===== *)
(** [consumer/main.py]: the collector daemon.

    Startup (Redis, metrics server, Kafka), the poll loop with its batch and
    outage logic, and the final flush.  [fuel] bounds how many iterations of
    the [while True] and [while running] loops are looked at; a run that is
    cut off ends in [Running]. *)
From S2P Require Import Prelude PyStr PyVal Config Effects Semantics Redis Sim Consumer.

Local Open Scope string_scope.
Local Open Scope Z_scope.
Local Open Scope py_scope.

Definition BATCH_SIZE : Z := 100.
Definition BATCH_TIMEOUT : Z := seconds 5.
Definition REDIS_RETRY_INTERVAL : Z := 5.
Definition KAFKA_CONNECT_TIMEOUT : Z := 30.
Definition KAFKA_CONNECT_RETRY : Z := 5.

(** [KAFKA_ERRORS.labels(type=label).inc()] *)
Definition inc_kafka_errors (label : string) (h : heap) : heap :=
  let '(Heap pr (Metrics P D E R G K C)) := h in
  Heap pr (Metrics P D E R G (<[label := default 0 (K !! label) + 1]> K) C).

(** [KAFKA_COMMIT_ERRORS.inc()] *)
Definition inc_commit_errors (h : heap) : heap :=
  let '(Heap pr (Metrics P D E R G K C)) := h in
  Heap pr (Metrics P D E R G K (C + 1)).

(** ** Connections *)

Definition connect_redis (fuel : nat) (cfg : config) : py heap unit :=
  let* url := lift (get_redis_url cfg) in
  while_true fuel (fun _ : unit =>
    try_except
      (do (RedisFromUrl url) ;; do RedisPing ;; ret (inr tt))
      (fun e => if is_conn_or_timeout e
                then Some (do (TimeSleep REDIS_RETRY_INTERVAL) ;; ret (inl tt))
                else None)) tt.

(** The librdkafka error callback, nested in [create_kafka_consumer]. *)
Definition error_cb (code : kafka_code) : heap -> heap :=
  match code with
  | _ALL_BROKERS_DOWN => inc_kafka_errors "all_brokers_down"
  | _TRANSPORT => inc_kafka_errors "transport"
  | _ => inc_kafka_errors "other"
  end.

Definition create_kafka_consumer (fuel : nat) (cfg : config) : py heap unit :=
  while_true fuel (fun _ : unit =>
    let* brokers := lift (get_kafka "brokers" kafka_brokers cfg) in
    let* group_id := lift (get_kafka "group_id" kafka_group_id cfg) in
    do (KafkaNew brokers group_id "earliest" false) ;;
    try_except
      (do (KafkaListTopics KAFKA_CONNECT_TIMEOUT) ;; ret (inr tt))
      (fun e => if is_KafkaException e
                then Some (do KafkaClose ;;
                           modify (inc_kafka_errors "connect_failed") ;;
                           do (TimeSleep KAFKA_CONNECT_RETRY) ;; ret (inl tt))
                else None)) tt.

Definition safe_commit : py heap unit :=
  try_except (do KafkaCommit)
    (fun e => if is_KafkaException e then Some (modify inc_commit_errors) else None).

(** ** The poll loop *)

(** Local variables of [main] that the loop assigns. *)
Record locals := Locals {
  last_log_count : Z;
  last_metrics_time : Z;
  batch_start_time : Z;
  redis_down : bool
}.

Definition set_last_log_count (n : Z) (v : locals) : locals :=
  Locals n (last_metrics_time v) (batch_start_time v) (redis_down v).
Definition set_last_metrics_time (t : Z) (v : locals) : locals :=
  Locals (last_log_count v) t (batch_start_time v) (redis_down v).
Definition set_batch_start_time (t : Z) (v : locals) : locals :=
  Locals (last_log_count v) (last_metrics_time v) t (redis_down v).
Definition set_redis_down (b : bool) (v : locals) : locals :=
  Locals (last_log_count v) (last_metrics_time v) (batch_start_time v) b.

(** [kafka_consumer.poll(1.0)], with the callbacks librdkafka runs in it. *)
Definition poll_once : py heap (option kafka_msg) :=
  let* reply := do (KafkaPoll 1) in
  for_each (poll_errors reply) (fun code => modify (error_cb code)) ;;
  ret (poll_msg reply).

(** Refresh the gauge every ten seconds. *)
Definition refresh_gauge (now : Z) (v : locals) : py heap locals :=
  if seconds 10 <=? now - last_metrics_time v then
    update_metrics ;; ret (set_last_metrics_time now v)
  else ret v.

(** [r.ping()] while Redis is down: has it come back? *)
Definition try_reconnect : py heap bool :=
  try_except (do RedisPing ;; ret true)
    (fun e => if is_RedisError e then Some (do (TimeSleep 1) ;; ret false) else None).

(** No message: flush a batch that has waited long enough. *)
Definition on_idle (now : Z) (v : locals) : py heap locals :=
  let* h := get_state in
  if (0 <? batch_size h) && (BATCH_TIMEOUT <=? now - batch_start_time v) then
    let* flushed := flush_batch in
    if flushed : bool then safe_commit ;; ret (set_batch_start_time now v)
    else ret (set_redis_down true v)
  else ret v.

Definition on_error (code : kafka_code) (v : locals) : py heap locals :=
  if decide (code = _PARTITION_EOF) then ret v
  else modify (inc_kafka_errors "message") ;; ret v.

(** Flush and commit a full batch. *)
Definition flush_full (v : locals) : py heap locals :=
  let* h := get_state in
  if BATCH_SIZE <=? batch_size h then
    let* flushed := flush_batch in
    if flushed : bool then
      safe_commit ;; let* t := do TimeTime in ret (set_batch_start_time t v)
    else ret (set_redis_down true v)
  else ret v.

(** Log every thousand events; the log line's argument is an [HLEN]. *)
Definition log_progress (v : locals) : py heap locals :=
  let* h := get_state in
  let n := processed (stats (processor h)) in
  if 1000 <=? n - last_log_count v then
    update_metrics ;;
    let* t := do TimeTime in
    (if redis_down v then ret tt else do (RedisHLen "pending") ;; ret tt) ;;
    ret (set_last_metrics_time t (set_last_log_count n v))
  else ret v.

Definition on_message (value : option string) (v : locals) : py heap locals :=
  atomically (parse_event value) ;;
  let* v := flush_full v in
  log_progress v.

Definition handle_message (now : Z) (m : option kafka_msg) (v : locals) : py heap locals :=
  match m with
  | None => on_idle now v
  | Some (MsgError code) => on_error code v
  | Some (MsgValue value) => on_message value v
  end.

(** One iteration of the loop. *)
Definition loop_body (v : locals) : py heap locals :=
  let* msg := poll_once in
  let* now := do TimeTime in
  let* v := refresh_gauge now v in
  if redis_down v then
    let* up := try_reconnect in
    if up : bool then handle_message now msg (set_redis_down false v) else ret v
  else handle_message now msg v.

(** [while running: ...] *)
Definition poll_loop (fuel : nat) (v : locals) : py heap unit :=
  while_true fuel (fun v =>
    let* running := do ReadRunning in
    if running : bool then let* v' := loop_body v in ret (inl v') else ret (inr tt)) v.

(** The [finally] block. *)
Definition shutdown : py heap unit :=
  let* h := get_state in
  (if 0 <? batch_size h then
     let* flushed := flush_batch in
     if flushed : bool then safe_commit else ret tt
   else ret tt) ;;
  do KafkaClose.

Definition main_loop (fuel : nat) (v : locals) : py heap unit :=
  try_finally (poll_loop fuel v) shutdown.

Definition main (fuel : nat) : py heap unit :=
  let* path := config_path in
  let* cfg := do (TomlLoad path) in
  connect_redis fuel cfg ;;
  do (RedisHLen "pending") ;;
  do (StartHttpServer (get_metrics_port cfg)) ;;
  create_kafka_consumer fuel cfg ;;
  let* topic := lift (get_kafka "topic" kafka_topic cfg) in
  do (KafkaSubscribe [topic]) ;;
  let* t1 := do TimeTime in
  let* t2 := do TimeTime in
  main_loop fuel (Locals 0 t1 t2 false).

(** ** What each part of the loop may do *)

(** The queue is as before, or has been dropped. *)
Definition same_batch (s s' : heap) : Prop := batch s' = batch s.
Definition same_or_empty (s s' : heap) : Prop := batch s' = batch s \/ batch s' = [].

(** Calls that neither commit, nor poll, nor write to Redis. *)
Definition neutral (c : call) : Prop :=
  match c with
  | KafkaCommit | KafkaPoll _ | RedisPipeline _ | RedisRename _ _ | RedisDelete _
  | RedisSetNX _ _ _ | RedisHSetMapping _ _ => False
  | _ => True
  end.

Definition not_commit (c : call) : Prop :=
  match c with KafkaCommit => False | _ => True end.

Lemma neutral_not_commit c : neutral c -> not_commit c.
Proof. by destruct c. Qed.

Lemma batch_inc_kafka_errors l h : batch (inc_kafka_errors l h) = batch h.
Proof. by destruct_heap h. Qed.
Lemma batch_inc_commit_errors h : batch (inc_commit_errors h) = batch h.
Proof. by destruct_heap h. Qed.
Lemma batch_set_pending_total n h : batch (set_pending_total n h) = batch h.
Proof. by destruct_heap h. Qed.
Lemma batch_error_cb c h : batch (error_cb c h) = batch h.
Proof. destruct c; apply batch_inc_kafka_errors. Qed.
#[export] Hint Rewrite batch_inc_kafka_errors batch_inc_commit_errors
  batch_set_pending_total batch_error_cb : heap.

Ltac solve_neutral :=
  solve_only; simpl; unfold same_batch; repeat split; intros;
  autorewrite with heap; auto.

Lemma update_metrics_neutral : only neutral same_batch update_metrics.
Proof. unfold update_metrics. solve_neutral. Qed.

Lemma refresh_gauge_neutral now v : only neutral same_batch (refresh_gauge now v).
Proof.
  unfold refresh_gauge. solve_only; try apply update_metrics_neutral; done.
Qed.

Lemma try_reconnect_neutral : only neutral same_batch try_reconnect.
Proof. unfold try_reconnect. solve_neutral. Qed.

Lemma on_error_neutral code v : only neutral same_batch (on_error code v).
Proof. unfold on_error. destruct (decide _); solve_neutral. Qed.

Lemma log_progress_neutral v : only neutral same_batch (log_progress v).
Proof.
  unfold log_progress. apply only_bind; [done|]. intros h.
  destruct (1000 <=? _); [|done].
  apply only_bind; [apply update_metrics_neutral|]. intros _. solve_neutral.
Qed.

Lemma callbacks_neutral codes :
  only neutral same_batch (for_each codes (fun code => modify (error_cb code))).
Proof. solve_neutral. Qed.

Lemma safe_commit_only :
  only (fun c => c = KafkaCommit) same_batch safe_commit.
Proof. unfold safe_commit. solve_only; simpl; try split; intros; auto; apply batch_inc_commit_errors. Qed.

Lemma flush_batch_only :
  only (fun c => exists cmds, c = RedisPipeline cmds) same_or_empty flush_batch.
Proof.
  unfold flush_batch. apply only_bind; [by split; [left|]|]. intros h.
  destruct (batch h); [done|]. solve_only; simpl; try split; intros; eauto;
    unfold same_or_empty; autorewrite with heap; auto.
Qed.

(** ** The batch bound *)

Definition below (n : Z) (s : heap) : Prop := batch_size s < n.

Lemma same_batch_size s s' : same_batch s s' -> batch_size s' = batch_size s.
Proof. unfold same_batch, batch_size. by intros ->. Qed.

Lemma parse_event_size m s : batch_size (parse_event m s).2 <= batch_size s + 1.
Proof.
  destruct (parse_event m s) as [r s'] eqn:E.
  destruct (parse_event_raises m s r s' E) as [Hr Hs].
  destruct r as [[]|e|]; [|by rewrite Hs; simpl; [lia|]|done].
  destruct (parse_event_step m s s' E) as (_ & _ & _ & l & Hb & Hl).
  unfold batch_size. simpl. rewrite Hb, length_app. lia.
Qed.

Section Bound.
Context {W : Type} (h : handler W).

Definition at_most (s : heap) (_ : W) : Prop := batch_size s <= BATCH_SIZE.

(** A program that leaves the queue alone or drops it keeps every bound. *)
Lemma wpc_only_below {A} P R (p : prog heap A) n s w :
  (forall s' s'', R s' s'' -> same_or_empty s' s'') -> 0 < n <= BATCH_SIZE + 1 ->
  only P R p -> below n s ->
  wpc h at_most (fun _ s' _ => below n s') p s w.
Proof.
  intros HR Hn Hp Hs.
  eapply wpc_mono; [apply (wpc_only P R h (fun s' _ => below n s')); [done| |exact Hp|exact Hs]|..].
  - intros s' s'' _ Hss Hb. unfold below, batch_size in *.
    destruct (HR _ _ Hss) as [->| ->]; simpl; lia.
  - unfold below, at_most. intros; lia.
  - done.
Qed.

Lemma wpc_neutral_below {A} P (p : prog heap A) n s w :
  0 < n <= BATCH_SIZE + 1 -> only P same_batch p -> below n s ->
  wpc h at_most (fun _ s' _ => below n s') p s w.
Proof.
  intros Hn Hp Hs. apply (wpc_only_below P same_batch); [|done..].
  intros s' s'' H. by left.
Qed.

Lemma at_most_batch s s' w w' : at_most s w -> same_or_empty s s' -> at_most s' w'.
Proof. unfold at_most, same_or_empty, batch_size. intros H [->| ->]; done. Qed.

Lemma clear_same_or_empty s : same_or_empty s (clear_batch s).
Proof. right. apply batch_clear. Qed.

(** A flush leaves an empty queue, unless it raises. *)
Lemma flush_below s w :
  batch s <> [] -> at_most s w ->
  wpc h at_most (fun r s' _ => match r with Ok _ => batch s' = [] | _ => True end)
    flush_batch s w.
Proof.
  intros Hne Hs. apply wpc_flush_batch; [done|done|].
  destruct (h _ w) as [a w']. split; [done|].
  pose proof (at_most_batch _ _ w w' Hs (clear_same_or_empty s)).
  assert (at_most (count_redis_errors s) w')
    by (eapply at_most_batch; [exact Hs|]; left; apply batch_count_redis_errors).
  destruct a as [u|e|]; [split; [done|apply batch_clear]| |done].
  destruct (is_RedisError e); [|done]. split; [done|].
  split; [eapply at_most_batch; [done|apply clear_same_or_empty]|apply batch_clear].
Qed.

Lemma empty_below s : batch s = [] -> below BATCH_SIZE s.
Proof. unfold below, batch_size. by intros ->. Qed.

Lemma flush_full_below v s w :
  batch_size s <= BATCH_SIZE ->
  wpc h at_most (fun r s' _ => match r with Ok _ => below BATCH_SIZE s' | _ => True end)
    (flush_full v) s w.
Proof.
  intros Hs. unfold flush_full. apply wpc_bind. simpl. do 2 (split; [done|]).
  destruct (Z.leb_spec BATCH_SIZE (batch_size s)) as [Hge|]; [|by simpl].
  apply wpc_bind. eapply wpc_mono; [apply flush_below|done|].
  { intros E. unfold batch_size in Hge. by rewrite E in Hge. }
  { done. }
  intros [[]|e|] s' w' HC Hb; try done; apply empty_below in Hb; [|done].
  eapply wpc_mono; [apply (wpc_neutral_below (fun _ => True) _ BATCH_SIZE);
    [done| |exact Hb]|done|by intros []].
  apply only_bind; [|intros ?; solve_only; by simpl].
  by eapply only_mono; [..|apply safe_commit_only].
Qed.
(** The queue is short after the step, if the step returned. *)
Definition short {A} (r : result A) (s : heap) (_ : W) : Prop :=
  match r with Ok _ => below BATCH_SIZE s | _ => True end.

Lemma wpc_neutral_short {A} P (m : py heap A) s w :
  only P same_batch m -> below BATCH_SIZE s -> wpc h at_most short m s w.
Proof.
  intros Hm Hs. eapply wpc_mono; [by apply (wpc_neutral_below P _ BATCH_SIZE)|done|].
  by intros [].
Qed.

Lemma wpc_bind_short {A B} (m : py heap A) (f : A -> py heap B) s w :
  wpc h at_most short m s w ->
  (forall a s' w', below BATCH_SIZE s' -> wpc h at_most short (f a) s' w') ->
  wpc h at_most short (bind m f) s w.
Proof.
  intros Hm Hf. apply wpc_bind. eapply wpc_mono; [exact Hm|done|].
  intros [a|e|] s' w' _ Hs; [by apply Hf|done|done].
Qed.

Lemma handle_message_short now m v s w :
  below BATCH_SIZE s -> wpc h at_most short (handle_message now m v) s w.
Proof.
  intros Hs. destruct m as [[code|value]|].
  - apply (wpc_neutral_short neutral); [apply on_error_neutral|done].
  - unfold handle_message, on_message. apply wpc_bind.
    pose proof (parse_event_size value s) as Hp. unfold below in Hs.
    apply wpc_atomically; [unfold at_most; lia..|].
    destruct (parse_event value s) as [[u|e|] s']; [|done|done]. apply wpc_bind_short.
    + eapply wpc_mono; [apply (flush_full_below v); lia|done|by intros []].
    + intros v' s1 w1 H1. by apply (wpc_neutral_short neutral), H1; apply log_progress_neutral.
  - unfold handle_message, on_idle. apply wpc_bind.
    assert (at_most s w) by (unfold at_most, below in *; lia). apply wpc_get; [done|].
    destruct (0 <? batch_size s) eqn:Epos; [|by apply wpc_ret].
    destruct (BATCH_TIMEOUT <=? now - batch_start_time v); [|by apply wpc_ret].
    apply wpc_bind_short.
    + eapply wpc_mono; [apply flush_below; [|done]|done|].
      * intros E. unfold batch_size in Epos. by rewrite E in Epos.
      * intros [] s' w' _ Hb; [by apply empty_below|done|done].
    + intros [] s' w' H'; [|by apply wpc_ret; [unfold at_most, below in *; lia|]].
      apply (wpc_neutral_short (fun _ => True)); [|done].
      apply only_bind; [|by intros ?]. by eapply only_mono; [..|apply safe_commit_only].
Qed.

Lemma loop_body_short v s w :
  below BATCH_SIZE s -> wpc h at_most short (loop_body v) s w.
Proof.
  intros Hs. unfold loop_body. apply wpc_bind_short.
  { apply (wpc_neutral_short (fun _ => True)); [|done]. unfold poll_once.
    apply only_bind; [by simpl|]. intros reply. apply only_bind; [|by intros ?].
    by eapply only_mono; [..|apply callbacks_neutral]. }
  intros m s1 w1 H1. apply wpc_bind_short; [by apply (wpc_neutral_short neutral)|].
  intros now s2 w2 H2. apply wpc_bind_short.
  { apply (wpc_neutral_short neutral); [apply refresh_gauge_neutral|done]. }
  intros v' s3 w3 H3. destruct (redis_down v'); [|by apply handle_message_short].
  apply wpc_bind_short.
  { apply (wpc_neutral_short neutral); [apply try_reconnect_neutral|done]. }
  intros [] s4 w4 H4; [by apply handle_message_short|].
  apply wpc_ret; [unfold at_most, below in *; lia|done].
Qed.

Lemma shutdown_only : only (fun _ => True) same_or_empty shutdown.
Proof.
  unfold shutdown. apply only_bind; [by split; [left|]|]. intros s.
  apply only_bind; [|by intros ?]. destruct (0 <? batch_size s); [|done].
  apply only_bind; [by eapply only_mono; [..|apply flush_batch_only]|].
  intros []; [|done]. eapply only_mono; [..|apply safe_commit_only]; [done|].
  intros s' s'' H. by left.
Qed.

Lemma main_loop_bounded fuel v s w :
  below BATCH_SIZE s -> wpc h at_most (fun _ => at_most) (main_loop fuel v) s w.
Proof.
  intros Hs. unfold main_loop. apply wpc_try_finally.
  eapply (wpc_mono h at_most at_most (fun _ => at_most)); [|done|].
  - unfold poll_loop. apply (wpc_while h at_most (fun _ s' w' => below BATCH_SIZE s'));
      [unfold at_most, below; intros; lia..| |done].
    intros v' s' w' H'. apply wpc_bind. apply wpc_do; [unfold at_most, below in *; lia..|].
    destruct (h ReadRunning w').1 as [[]|e|]; [|apply wpc_ret|..];
      try (unfold at_most, below in *; lia).
    apply wpc_bind. eapply wpc_mono; [by apply loop_body_short|done|].
    intros [v''|e|] s'' w'' HC Hsh; [by apply wpc_ret|exact HC|exact HC].
  - intros r s' w' HC _.
    assert (wpc h at_most (fun _ => at_most) shutdown s' w') as Hsd.
    { eapply wpc_mono; [apply (wpc_only_below (fun _ => True) same_or_empty shutdown
        (BATCH_SIZE + 1)); [done|done|apply shutdown_only|]|done|];
        unfold at_most, below in *; intros; lia. }
    destruct r; [..|done]; (eapply wpc_mono; [exact Hsd|done|by intros []]).
Qed.

Lemma connect_redis_only fuel cfg : only neutral same_batch (connect_redis fuel cfg).
Proof. unfold connect_redis. apply only_bind; [done|]. intros. solve_neutral. Qed.

Lemma create_kafka_consumer_only fuel cfg :
  only neutral same_batch (create_kafka_consumer fuel cfg).
Proof.
  unfold create_kafka_consumer. apply only_while. intros _.
  do 2 (apply only_bind; [done|intros ?]). solve_neutral.
Qed.

Lemma bind_neutral_bounded {A B} P (m : py heap A) (f : A -> py heap B) s w :
  only P same_batch m -> below BATCH_SIZE s ->
  (forall a s' w', below BATCH_SIZE s' -> wpc h at_most (fun _ => at_most) (f a) s' w') ->
  wpc h at_most (fun _ => at_most) (bind m f) s w.
Proof.
  intros Hm Hs Hf. apply wpc_bind.
  eapply wpc_mono; [by apply (wpc_neutral_below P _ BATCH_SIZE)|done|].
  intros [a|e|] s' w' HC Hb; [by apply Hf|done|done].
Qed.

Lemma main_bounded fuel w : wpc h at_most (fun _ => at_most) (main fuel) init_heap w.
Proof.
  unfold main.
  do 10 (first
    [apply (bind_neutral_bounded neutral);
      [first [apply connect_redis_only|apply create_kafka_consumer_only|
              unfold config_path; solve_neutral]|done|intros ? ? ? ?]
    |fail 1]).
  by apply main_loop_bounded.
Qed.
End Bound.

(** ** Commits *)

(** Every Kafka commit is the very next call after a Redis pipeline that was
    executed. *)
Definition commits_follow_flush (tr : list entry) : Prop :=
  forall i r, tr !! i = Some (Entry KafkaCommit r) ->
  exists j cmds, i = Datatypes.S j /\ tr !! j = Some (Entry (RedisPipeline cmds) (Ok tt)).

Definition just_flushed (tr : list entry) : Prop :=
  exists cmds, last tr = Some (Entry (RedisPipeline cmds) (Ok tt)).

Lemma commits_snoc tr c r :
  commits_follow_flush tr -> (c = KafkaCommit -> just_flushed tr) ->
  commits_follow_flush (tr ++ [Entry c r]).
Proof.
  intros Htr Hc i r' Hi. apply lookup_app_Some in Hi as [Hi|[Hlen Hi]].
  - destruct (Htr i r' Hi) as (j & cmds & -> & Hj).
    exists j, cmds. split; [done|]. by apply lookup_app_l_Some.
  - apply list_lookup_singleton_Some in Hi as [Hi [= Hcc _]].
    destruct (Hc Hcc) as (cmds & Hl). rewrite last_lookup in Hl.
    exists (pred (length tr)), cmds. assert (length tr <> 0%nat).
    { intros E. apply nil_length_inv in E as ->. done. }
    split; [lia|]. by apply lookup_app_l_Some.
Qed.

Section Commits.
Context {W : Type} (h : handler W).

Definition ordered (_ : heap) (lw : logged W) : Prop := commits_follow_flush (trace lw).

Lemma trace_log c (lw : logged W) :
  trace (log_handler h c lw).2 = (trace lw ++ [Entry c (log_handler h c lw).1])%list.
Proof. unfold log_handler. by destruct (h c (base lw)). Qed.

Lemma keeps_not_commit {A} R (p : prog heap A) :
  only not_commit R p -> keeps (log_handler h) ordered p.
Proof.
  apply keeps_only; [|done]. intros c s lw Hc Ho. unfold ordered. rewrite trace_log.
  apply commits_snoc; [done|]. by intros ->.
Qed.

Lemma keeps_neutral {A} R (p : prog heap A) :
  only neutral R p -> keeps (log_handler h) ordered p.
Proof.
  intros Hp. apply (keeps_not_commit R). eapply only_mono; [|done|exact Hp].
  apply neutral_not_commit.
Qed.

(** After a flush that worked, a commit is in order. *)
Lemma keeps_flush {A} (K : bool -> py heap A) s lw :
  batch s <> [] ->
  (forall s' lw', just_flushed (trace lw') -> keeps_at (log_handler h) ordered (K true) s' lw') ->
  keeps (log_handler h) ordered (K false) ->
  keeps_at (log_handler h) ordered (bind flush_batch K) s lw.
Proof.
  intros Hne HT HF Ho. apply wpc_bind, wpc_flush_batch; [done|done|].
  set (c := RedisPipeline (pipeline_of (batch s))).
  pose proof (trace_log c lw) as Ht.
  destruct (log_handler h c lw) as [a lw']. simpl in Ht.
  assert (ordered s lw') as Ho' by (unfold ordered; rewrite Ht; by apply commits_snoc).
  split; [done|]. destruct a as [[]|e|]; [| |done].
  - split; [done|]. apply HT; [|done]. exists (pipeline_of (batch s)).
    by rewrite Ht, last_snoc.
  - destruct (is_RedisError e); [|done]. do 2 (split; [done|]). by apply HF.
Qed.

Lemma safe_commit_ordered s lw :
  just_flushed (trace lw) -> keeps_at (log_handler h) ordered safe_commit s lw.
Proof.
  intros Hj Ho. unfold safe_commit. apply wpc_try_except.
  assert (ordered s (log_handler h KafkaCommit lw).2) as Ho2.
  { unfold ordered. rewrite trace_log. by apply commits_snoc. }
  apply wpc_do; [done|done|].
  destruct (log_handler h KafkaCommit lw).1 as [u|e|]; [done| |done].
  destruct (is_KafkaException e); [|done]. by apply wpc_modify.
Qed.

Lemma keeps_flush_commit {A} (X Y : py heap A) s lw :
  batch s <> [] -> keeps (log_handler h) ordered X -> keeps (log_handler h) ordered Y ->
  keeps_at (log_handler h) ordered
    (let* flushed := flush_batch in if flushed : bool then safe_commit ;; X else Y) s lw.
Proof.
  intros Hne HX HY. apply keeps_flush; [done| |done].
  intros s' lw' Hj. apply keeps_bind_at; [by apply safe_commit_ordered|done].
Qed.

Lemma batch_size_pos s : 0 < batch_size s -> batch s <> [].
Proof. unfold batch_size. by destruct (batch s). Qed.

Lemma handle_message_ordered now m v :
  keeps (log_handler h) ordered (handle_message now m v).
Proof.
  destruct m as [[code|value]|].
  - apply (keeps_neutral same_batch), on_error_neutral.
  - unfold handle_message, on_message.
    apply keeps_bind; [by apply (keeps_neutral (fun _ _ => True))|]. intros _.
    apply keeps_bind; [|intros v'; apply (keeps_neutral same_batch), log_progress_neutral].
    unfold flush_full. apply keeps_get. intros s lw.
    destruct (Z.leb_spec BATCH_SIZE (batch_size s)); [|by intros ?].
    apply keeps_flush_commit; [apply batch_size_pos; unfold BATCH_SIZE in *; lia| |apply keeps_ret].
    apply (keeps_neutral same_batch). solve_neutral.
  - unfold handle_message, on_idle. apply keeps_get. intros s lw.
    destruct (Z.ltb_spec 0 (batch_size s)); [|by intros ?].
    destruct (BATCH_TIMEOUT <=? now - batch_start_time v); [|by intros ?].
    apply keeps_flush_commit; [by apply batch_size_pos|apply keeps_ret..].
Qed.

Lemma poll_once_only : only not_commit same_batch poll_once.
Proof.
  unfold poll_once. apply only_bind; [by simpl|]. intros reply.
  apply only_bind; [|by intros ?]. eapply only_mono; [..|apply callbacks_neutral];
    [apply neutral_not_commit|done].
Qed.

Lemma loop_body_ordered v : keeps (log_handler h) ordered (loop_body v).
Proof.
  unfold loop_body.
  apply keeps_bind; [apply (keeps_not_commit same_batch), poll_once_only|intros m].
  apply keeps_bind; [by apply (keeps_neutral same_batch)|intros now].
  apply keeps_bind; [apply (keeps_neutral same_batch), refresh_gauge_neutral|intros v'].
  destruct (redis_down v'); [|apply handle_message_ordered].
  apply keeps_bind; [apply (keeps_neutral same_batch), try_reconnect_neutral|].
  intros []; [apply handle_message_ordered|apply keeps_ret].
Qed.

Lemma shutdown_ordered : keeps (log_handler h) ordered shutdown.
Proof.
  unfold shutdown. apply keeps_get. intros s lw. apply keeps_bind_at.
  - destruct (Z.ltb_spec 0 (batch_size s)); [|by intros ?].
    apply keeps_flush; [by apply batch_size_pos|apply safe_commit_ordered|apply keeps_ret].
  - intros _. by apply (keeps_neutral same_batch).
Qed.

Lemma main_loop_ordered fuel v : keeps (log_handler h) ordered (main_loop fuel v).
Proof.
  unfold main_loop. apply keeps_try_finally; [|apply shutdown_ordered].
  apply keeps_while. intros v'. apply keeps_bind; [by apply (keeps_neutral same_batch)|].
  intros []; [|apply keeps_ret].
  apply keeps_bind; [apply loop_body_ordered|intros ?; apply keeps_ret].
Qed.

Lemma main_ordered fuel : keeps (log_handler h) ordered (main fuel).
Proof.
  unfold main.
  do 10 (first [apply main_loop_ordered|apply keeps_bind;
    [apply (keeps_neutral same_batch);
     first [apply connect_redis_only|apply create_kafka_consumer_only|
            unfold config_path; solve_neutral]|intros ?]]).
  apply main_loop_ordered.
Qed.
End Commits.

(** ** Start-up and commits *)

Section Startup.
Context {W : Type} (h : handler W).

(** Redis refuses the connection [n] times and then accepts it. *)
Inductive redis_back (url : string) : nat -> W -> Prop :=
| back_now w w1 w2 :
    h (RedisFromUrl url) w = (Ok tt, w1) -> h RedisPing w1 = (Ok tt, w2) ->
    redis_back url 0 w
| back_later n e w w1 w2 w3 :
    h (RedisFromUrl url) w = (Ok tt, w1) -> h RedisPing w1 = (Exc e, w2) ->
    is_conn_or_timeout e = true -> h (TimeSleep REDIS_RETRY_INTERVAL) w2 = (Ok tt, w3) ->
    redis_back url n w3 -> redis_back url (Datatypes.S n) w.

Lemma connect_loop n fuel cfg url s w :
  get_redis_url cfg = Ok url -> redis_back url n w ->
  (run h (connect_redis fuel cfg) s w).1.1 = (if decide (n < fuel)%nat then Ok tt else Running).
Proof.
  intros Hu Hb. revert s w fuel Hb. induction n as [|n IH]; intros s w fuel Hb;
    (destruct fuel as [|fuel]; [by unfold connect_redis; rewrite Hu|]).
  - inversion Hb as [w' w1 w2 H1 H2|]; subst. unfold connect_redis. rewrite Hu, run_bind. simpl run at 1.
    cbv iota. rewrite run_while, run_try_except, run_bind, run_do, H1. cbn [fst snd].
    by rewrite run_bind, run_do, H2.
  - inversion Hb as [|n' e w' w1 w2 w3 H1 H2 He H3 Hb']; subst.
    specialize (IH s w3 fuel Hb'). unfold connect_redis in IH |- *.
    rewrite Hu, run_bind in IH |- *. simpl run at 1. simpl run at 1 in IH. cbv iota in IH |- *.
    rewrite run_while, run_try_except, run_bind, run_do, H1. cbn [fst snd].
    rewrite run_bind, run_do, H2. cbn [fst snd]. rewrite He, run_bind, run_do, H3. cbn [fst snd].
    rewrite run_ret. cbv iota beta. rewrite IH. repeat case_decide; (done || lia).
Qed.
End Startup.

(** ** Counters *)

Definition counting (s s' : heap) : Prop :=
  (metrics_agree s -> metrics_agree s') /\ events_seen s <= events_seen s' /\
  KAFKA_COMMIT_ERRORS (prom s) <= KAFKA_COMMIT_ERRORS (prom s').

Lemma counting_parse m s : counting s (parse_event m s).2.
Proof.
  destruct (parse_event m s) as [r s'] eqn:E.
  destruct (parse_event_raises m s r s' E) as [Hr Hs]. simpl.
  destruct r as [[]|e|]; [|by rewrite Hs|done].
  destruct (parse_event_step m s s' E) as (H1 & H2 & _ & _).
  split; [done|]. split; [lia|]. clear -E. revert E. unfold parse_event.
  destruct_heap s. intros H. repeat case_match; simplify_eq; done.
Qed.

Lemma counting_inc_kafka_errors l s : counting s (inc_kafka_errors l s).
Proof. destruct_heap s. unfold counting, metrics_agree, events_seen; simpl. lia. Qed.
Lemma counting_inc_commit_errors s : counting s (inc_commit_errors s).
Proof. destruct_heap s. unfold counting, metrics_agree, events_seen; simpl. lia. Qed.
Lemma counting_set_pending_total n s : counting s (set_pending_total n s).
Proof. destruct_heap s. unfold counting, metrics_agree, events_seen; simpl. lia. Qed.
Lemma counting_clear_batch s : counting s (clear_batch s).
Proof. destruct_heap s. unfold counting, metrics_agree, events_seen; simpl. lia. Qed.
Lemma counting_count_redis_errors s : counting s (count_redis_errors s).
Proof. destruct_heap s. unfold counting, metrics_agree, events_seen; simpl. lia. Qed.
Lemma counting_error_cb c s : counting s (error_cb c s).
Proof. destruct c; apply counting_inc_kafka_errors. Qed.
Lemma counting_refl s : counting s s.
Proof. unfold counting. split; [done|lia]. Qed.
Create HintDb counting.
#[export] Hint Resolve counting_parse counting_inc_kafka_errors counting_inc_commit_errors
  counting_set_pending_total counting_clear_batch counting_count_redis_errors
  counting_error_cb counting_refl : counting.

(** Take [main] apart down to its calls and its accesses to the heap. *)
Ltac unfold_main :=
  unfold main, config_path, connect_redis, create_kafka_consumer, main_loop, poll_loop,
    loop_body, handle_message, on_idle, on_message, on_error, flush_full, log_progress,
    try_reconnect, refresh_gauge, poll_once, shutdown, safe_commit, update_metrics, flush_batch.

Lemma main_counting fuel : only (fun _ => True) counting (main fuel).
Proof. unfold_main. solve_only; simpl; intros; try split; auto with counting. Qed.

(** ** The type of the queue *)

Definition keeps_queue (s s' : heap) : Prop := queue_ok s -> queue_ok s'.

Lemma main_keeps_queue fuel : only (fun _ => True) keeps_queue (main fuel).
Proof.
  unfold_main. solve_only; simpl; unfold keeps_queue, queue_ok; intros; try split; intros;
    autorewrite with heap; auto; by apply parse_event_queue.
Qed.

(** ** Properties *)

Section Properties.
Context {W : Type} (h : handler W).

(** Connecting to Redis survives an outage: when Redis refuses [n]
    attempts and accepts the next one, [connect_redis] returns after exactly
    [n + 1] attempts, five seconds of sleep between two of them; a run bounded
    to fewer attempts is still going. *)
Theorem connect_redis_retries n fuel cfg url s w :
  get_redis_url cfg = Ok url -> redis_back h url n w ->
  (run h (connect_redis fuel cfg) s w).1.1 = if decide (n < fuel)%nat then Ok tt else Running.
Proof. apply connect_loop. Qed.

(** [safe_commit] makes one commit and never lets a Kafka error escape: a
    commit that fails is counted and the collector goes on; any other
    exception escapes with the state unchanged. *)
Theorem safe_commit_outcome s w :
  run h safe_commit s w
  = match h KafkaCommit w with
    | (Exc KafkaException, w') => (Ok tt, inc_commit_errors s, w')
    | (r, w') => (r, s, w')
    end.
Proof.
  unfold safe_commit. rewrite run_try_except, run_do.
  destruct (h KafkaCommit w) as [[[]|e|] w']; [done| |done]. by destruct e.
Qed.

(** While Redis is down, a record that [poll] hands out is discarded: when
    the ping fails again the iteration ends with the queue, the counters and
    the loop variables as they were, and the record has left Kafka. *)
Theorem outage_discards_message v s w w1 w2 w3 w4 value now e :
  redis_down v = true -> now - last_metrics_time v < seconds 10 ->
  h (KafkaPoll 1) w = (Ok (PollReply [] (Some (MsgValue value))), w1) ->
  h TimeTime w1 = (Ok now, w2) ->
  h RedisPing w2 = (Exc e, w3) -> is_RedisError e = true ->
  h (TimeSleep 1) w3 = (Ok tt, w4) ->
  run h (loop_body v) s w = (Ok v, s, w4).
Proof.
  intros Hd Hnow Hp Ht Hg He Hs. unfold loop_body, poll_once.
  rewrite !run_bind, run_do, Hp. cbn [fst snd]. rewrite run_bind. simpl for_each.
  rewrite !run_ret. cbn [poll_msg]. rewrite run_bind, run_do, Ht. cbn [fst snd].
  unfold refresh_gauge. rewrite run_bind. destruct (Z.leb_spec (seconds 10) (now - last_metrics_time v)); [lia|].
  rewrite run_ret, Hd. cbv iota. rewrite run_bind. unfold try_reconnect.
  rewrite run_try_except, run_bind, run_do, Hg. cbn [fst snd]. rewrite He, run_bind, run_do, Hs.
  done.
Qed.

(** C22. The queue never holds more than [BATCH_SIZE] actions, at any point of
    any run of the collector, whatever the services answer. *)
Theorem batch_bounded fuel w n s w' :
  run_for h n (main fuel) init_heap w = (s, w') -> batch_size s <= BATCH_SIZE.
Proof. apply wpc_killed with (1 := main_bounded h fuel w). Qed.

(** C21. Commit order: at any point of any run of the collector, whatever the
    services answer, every Kafka commit comes immediately after a Redis
    pipeline that was executed; nothing is committed on a failed flush. *)
Theorem commit_after_flush fuel w n s lw :
  run_for (log_handler h) n (main fuel) init_heap (Logged w []) = (s, lw) ->
  commits_follow_flush (trace lw).
Proof.
  refine (wpc_killed _ _ _ _ _ _ _ _ _ (main_ordered h fuel init_heap (Logged w []) _)).
  by intros i r Hi.
Qed.

(** The Prometheus counters agree with the processor's statistics at every
    point of every run of the collector, whatever the services answer. *)
Theorem counters_agree fuel w n s w' :
  run_for h n (main fuel) init_heap w = (s, w') -> metrics_agree s.
Proof.
  refine (wpc_killed h (fun s _ => metrics_agree s) (fun _ s _ => metrics_agree s) _ _ _ _ _ _ _).
  eapply (keeps_only h (fun s _ => metrics_agree s)); [done| |apply main_counting|done].
  intros s1 s2 _ [Hc _]. exact Hc.
Qed.

(** C23. The type of the queue: at every point of every run of the collector,
    whatever Kafka hands out, each queued action is an [mtime_change] with a
    true path or a rename with two true paths (true as Python's truth value: a
    non-empty list passes, too, see [unencodable_action_drops_batch]). *)
Theorem queue_well_typed fuel w n s w' :
  run_for h n (main fuel) init_heap w = (s, w') -> queue_ok s.
Proof.
  refine (wpc_killed h (fun s _ => queue_ok s) (fun _ s _ => queue_ok s) _ _ _ _ _ _ _).
  eapply (keeps_only h (fun s _ => queue_ok s)); [done| |apply main_keeps_queue|by constructor].
  intros s1 s2 _ H Hq. by apply H.
Qed.
End Properties.

(** While records keep coming, [BATCH_TIMEOUT] has no effect: a record that does
    not fill the batch is parsed and logged, however old the batch is. *)
Theorem busy_ignores_timeout {W} (h : handler W) now value v s s' w :
  parse_event value s = (Ok tt, s') -> batch_size s' < BATCH_SIZE ->
  run h (handle_message now (Some (MsgValue value)) v) s w = run h (log_progress v) s' w.
Proof.
  intros Hp Hb. unfold handle_message, on_message. rewrite run_bind, run_atomically, Hp.
  assert (run h (flush_full v) s' w = (Ok v, s', w)) as Hf.
  { unfold flush_full. simpl. by destruct (Z.leb_spec BATCH_SIZE (batch_size s')); [lia|]. }
  by rewrite run_bind, Hf.
Qed.

(** One action that redis-py cannot encode (a path that is no string) takes the
    whole batch down: the flush does not succeed and the queue is dropped. *)
Theorem unencodable_action_drops_batch {W} (h : handler W) `{!RedisServer h} `{!RedisLaws h eq}
    s w r s' w' :
  Exists (fun c => ~ encodable rs_encode c) (pipeline_of (batch s)) ->
  run h flush_batch s w = (r, s', w') ->
  r <> Ok true /\ (r = Ok false -> batch s' = []).
Proof.
  intros Hex. rewrite run_flush_batch. destruct (batch s) as [|a b] eqn:E.
  { by apply Exists_nil in Hex. }
  destruct (rl_exec (RedisPipeline (pipeline_of (a :: b))) w) as (d & d' & _ & Hout & _).
  destruct (h _ w) as [[[]|e|] w1]; cbn [fst] in Hout.
  - destruct Hout as [_ Hall]. simpl in Hall. exfalso.
    apply Exists_exists in Hex as (c & Hc & Hn). rewrite Forall_forall in Hall. by apply Hn, Hall.
  - destruct (is_RedisError e); intros [= <- <- <-]; [|done]. split; [done|]. intros _. apply batch_clear.
  - by intros [= <- <- <-].
Qed.

(** ** Witnesses *)

Definition demo_config : config :=
  Config (Some (KafkaSection (Some "kafka:9092") (Some "fs-events") (Some "collector")))
         (Some (BackupSection None (Some 2) (Some "/home") (Some 2) None))
         (Some (MinioSection (Some "minio:9000") (Some "backup") None None None))
         (Some (Some "redis://redis:6379/0")) None None.

Definition msg_event (path : string) : option string :=
  Some (json_text ("{'event':'mtime_change','path':'" +:+ path +:+ "'}")).

Definition deliver (value : option string) : poll_reply := PollReply [] (Some (MsgValue value)).
Definition no_message : poll_reply := PollReply [] None.

(** A session with no outage: the file is reported and then renamed. *)
Definition calm_world : sim :=
  with_polls [deliver (msg_event "/home/s/u/a"); deliver (Some "not json");
              deliver (Some (json_text "{'event':'rename','old_path':'/home/s/u/a','new_path':'/home/s/u/c'}"))]
    (with_running (replicate 8 true) (with_cfg demo_config sim0)).

Definition calm_run : heap * logged sim :=
  run_for (log_handler sim_handler) 200 (main 20) init_heap (Logged calm_world []).

Lemma connect_redis_retries_witness :
  (run sim_handler (connect_redis 3 demo_config) init_heap (with_up [false; false] sim0)).1.1 = Ok tt.
Proof.
  rewrite (connect_redis_retries sim_handler 2 3 demo_config "redis://redis:6379/0"); [reflexivity..|].
  do 2 (eapply back_later; [reflexivity|reflexivity|reflexivity|reflexivity|]).
  eapply back_now; reflexivity.
Defined.

Lemma outage_discards_message_witness :
  exists w', run sim_handler (loop_body (Locals 0 0 0 true)) init_heap
               (with_polls [PollReply [] (Some (MsgValue (Some "{}")))] (with_up [false] sim0))
             = (Ok (Locals 0 0 0 true), init_heap, w').
Proof.
  eexists.
  eapply (outage_discards_message sim_handler _ _ _ _ _ _ _ (Some "{}") 0); reflexivity.
Defined.

Lemma counters_agree_witness :
  let '(s, _) := run_for sim_handler 60 (main 4) init_heap
    (with_running [true] (with_polls [PollReply [] (Some (MsgValue (Some "oops")))]
      (with_cfg demo_config sim0))) in
  errors (stats (processor s)) = 1 /\ metrics_agree s.
Proof.
  destruct (run_for sim_handler 60 (main 4) init_heap
    (with_running [true] (with_polls [PollReply [] (Some (MsgValue (Some "oops")))]
      (with_cfg demo_config sim0)))) as [s w'] eqn:E.
  split.
  - vm_compute in E. injection E as <- _. reflexivity.
  - exact (counters_agree sim_handler 4 _ 60 s w' E).
Defined.

Lemma batch_bounded_witness : batch_size calm_run.1 <= BATCH_SIZE.
Proof.
  assert (exists s w', run_for sim_handler 200 (main 20) init_heap calm_world = (s, w') /\
            s = calm_run.1) as (s & w' & E & <-).
  { destruct (run_for sim_handler 200 (main 20) init_heap calm_world) as [s w'] eqn:E.
    exists s, w'. split; [done|]. vm_compute in E. injection E as <- _. vm_compute. reflexivity. }
  exact (batch_bounded sim_handler 20 calm_world 200 s w' E).
Defined.

Lemma commit_after_flush_witness :
  commits_follow_flush (trace calm_run.2) /\
  Exists (fun e => match e with Entry KafkaCommit _ => True | _ => False end) (trace calm_run.2).
Proof.
  split.
  - apply (commit_after_flush sim_handler 20 calm_world 200 calm_run.1 calm_run.2).
    unfold calm_run. by destruct run_for.
  - vm_compute. repeat first [apply Exists_cons_hd; exact I|apply Exists_cons_tl].
Defined.

Lemma queue_well_typed_witness :
  let '(s, _) := run_for sim_handler 18 (main 4) init_heap
    (with_running [true] (with_polls [deliver (msg_event "/home/s/u/a")] (with_cfg demo_config sim0))) in
  length (batch s) = 1%nat /\ queue_ok s.
Proof.
  destruct (run_for sim_handler 18 (main 4) init_heap
    (with_running [true] (with_polls [deliver (msg_event "/home/s/u/a")]
      (with_cfg demo_config sim0)))) as [s w'] eqn:E.
  split; [|exact (queue_well_typed sim_handler 4 _ 18 s w' E)].
  vm_compute in E. injection E as <- _. reflexivity.
Defined.
