(* ===== verification/Session.v ===== *)
(** A collector session: what Kafka delivered, what was committed, and what
    Redis holds, at every point of [consumer/main.py]'s run.

    The at-least-once contract that [main.py]'s header states is proved here
    for sessions without a failed pipeline; the last theorems show the two
    places where a failed pipeline breaks it. *)
From S2P Require Import Prelude PyStr PyVal Config Effects Semantics Redis Sim Consumer ConsumerMain.

Local Open Scope string_scope.
Local Open Scope Z_scope.
Local Open Scope py_scope.

(** ** The abstract session *)

(** The payloads delivered so far, and how many of them the last commit
    covers: a Kafka commit covers every record already handed out by [poll].
    A commit that fails counts as one, for it may have reached the broker.
    [executed] are the commands of the pipelines that succeeded, in order. *)
Record view := View {
  delivered : list (option string);
  committed : nat;
  executed : list pcmd
}.

Definition payload (m : option kafka_msg) : list (option string) :=
  match m with Some (MsgValue value) => [value] | _ => [] end.

Definition observe (v : view) (e : entry) : view :=
  let '(Entry c r) := e in
  match c return result (resp c) -> view with
  | KafkaPoll _ => fun r =>
      match r with
      | Ok reply => View (delivered v ++ payload (poll_msg reply)) (committed v) (executed v)
      | _ => v
      end
  | KafkaCommit => fun _ => View (delivered v) (length (delivered v)) (executed v)
  | RedisPipeline cmds => fun r =>
      match r with
      | Ok _ => View (delivered v) (committed v) (executed v ++ cmds)
      | _ => v
      end
  | _ => fun _ => v
  end r.

Definition session (tr : list entry) : view := foldl observe (View [] 0 []) tr.

(** The file events a payload stands for. *)
Definition payload_events (m : option string) : list file_event :=
  match loads m with
  | Ok v => match event_of v with Some ev => [ev] | None => [] end
  | _ => []
  end.

Definition events (ms : list (option string)) : list file_event := ms ≫= payload_events.

(** The Redis commands the payloads stand for. *)
Definition commands (ms : list (option string)) : list pcmd :=
  pipeline_of (events ms ≫= actions_of).

(** A payload that is a well-formed event, or that the parser counts and drops. *)
Definition clean (m : option string) : Prop :=
  (exists ev, well_formed m ev) \/
  (exists h', parse_event m init_heap = (Ok tt, h') /\ batch h' = []).

(** What the contract needs not to happen: a pipeline that does not return,
    and the two failures that would end the loop between [poll] and the parse. *)
Definition fault (e : entry) : Prop :=
  let '(Entry c r) := e in
  match c, r with
  | _, Ok _ => False
  | RedisPipeline _, _ | TimeTime, _ => True
  | RedisHLen _, Exc x => is_RedisError x = false
  | RedisHLen _, Running => True
  | _, _ => False
  end.

Definition good (tr : list entry) : Prop :=
  Forall (fun e => ~ fault e) tr /\ Forall clean (delivered (session tr)).

(** ** Lemmas on sessions *)

Lemma session_snoc tr e : session (tr ++ [e]) = observe (session tr) e.
Proof. unfold session. by rewrite foldl_app. Qed.

Lemma observe_delivered v e : exists l, delivered (observe v e) = (delivered v ++ l)%list.
Proof.
  destruct e as [[] r]; simpl; try (exists []; by rewrite app_nil_r).
  all: destruct r as [reply|e|]; simpl; first [by eexists|exists []; by rewrite app_nil_r].
Qed.

Lemma good_snoc tr e : good (tr ++ [e]) -> good tr /\ ~ fault e.
Proof.
  intros [Hf Hc]. apply Forall_app in Hf as [Hf He].
  split; [split; [done|]|by inversion He].
  rewrite session_snoc in Hc. destruct (observe_delivered (session tr) e) as [l Hl].
  rewrite Hl in Hc. by apply Forall_app in Hc as [? _].
Qed.

Lemma observe_neutral v c r : neutral c -> observe v (Entry c r) = v.
Proof. by destruct c. Qed.

Lemma parse_ignored m s h' :
  parse_event m init_heap = (Ok tt, h') -> batch h' = [] ->
  exists s', parse_event m s = (Ok tt, s') /\ batch s' = batch s.
Proof.
  unfold parse_event. intros H Hb.
  repeat (case_match; simplify_eq; autorewrite with heap in *; try discriminate);
    (eexists; split; [done|]); by autorewrite with heap.
Qed.

Lemma payload_events_inv m ev :
  payload_events m = [ev] -> exists v, loads m = Ok v /\ event_of v = Some ev.
Proof.
  unfold payload_events. destruct (loads m) as [v|e|]; [|done..].
  destruct (event_of v) eqn:E; [|done]. intros [= ->]. eauto.
Qed.

Lemma payload_events_cases m :
  payload_events m = [] \/ exists ev, payload_events m = [ev].
Proof. unfold payload_events. repeat case_match; eauto. Qed.

Lemma parse_clean m s :
  clean m -> exists s', parse_event m s = (Ok tt, s') /\
    batch s' = (batch s ++ (payload_events m ≫= actions_of))%list.
Proof.
  intros Hm. destruct (payload_events_cases m) as [E|[ev E]]; rewrite E.
  - destruct Hm as [(ev & v & Hl & He)|(h' & Hp & Hb)].
    + unfold payload_events in E. by rewrite Hl, He in E.
    + rewrite app_nil_r. by eapply parse_ignored.
  - apply payload_events_inv in E as (v & Hl & He). simpl. rewrite app_nil_r.
    by eapply parse_event_wf.
Qed.

Lemma events_app ms ms' : events (ms ++ ms') = (events ms ++ events ms')%list.
Proof. apply bind_app. Qed.

Lemma commands_app ms ms' : commands (ms ++ ms') = (commands ms ++ commands ms')%list.
Proof. unfold commands. by rewrite events_app, bind_app, pipeline_app. Qed.

Section Contract.
Context {W : Type} (h : handler W).

(** A property of the queue and of the session, in a good one. *)
Definition at_point (Phi : list action -> view -> Prop) (s : heap) (lw : logged W) : Prop :=
  good (trace lw) -> Phi (batch s) (session (trace lw)).

(** What was executed is a prefix of what was delivered, at least as long as
    what is committed. *)
Definition covered : heap -> logged W -> Prop := at_point (fun _ v =>
  exists k, (committed v <= k <= length (delivered v))%nat /\
            executed v = commands (take k (delivered v))).

(** ... and the queue holds the rest, but for the payloads [m]; [d] is the
    program's [redis_down]. *)
Definition synced (d : bool) (m : list (option string)) : heap -> logged W -> Prop :=
  at_point (fun b v => d = false /\ exists ms k,
    delivered v = (ms ++ m)%list /\ (committed v <= k <= length ms)%nat /\
    executed v = commands (take k ms) /\ b = events (drop k ms) ≫= actions_of).

(** Everything delivered is executed. *)
Definition settled (v : view) : Prop :=
  executed v = commands (delivered v) /\ (committed v <= length (delivered v))%nat.

Definition flushed : heap -> logged W -> Prop := at_point (fun b v => b = [] /\ settled v).

Lemma synced_covered d m s lw : synced d m s lw -> covered s lw.
Proof.
  intros H Hg. destruct (H Hg) as (_ & ms & k & -> & Hk & -> & _).
  exists k. rewrite length_app, take_app_le by lia. split; [lia|done].
Qed.

Lemma flushed_synced s lw : flushed s lw -> synced false [] s lw.
Proof.
  intros H Hg. destruct (H Hg) as (-> & Hx & Hk). split; [done|].
  exists (delivered (session (trace lw))), (length (delivered (session (trace lw)))).
  rewrite app_nil_r, firstn_all, drop_all. done.
Qed.

Lemma synced_same d m s s' lw : batch s' = batch s -> synced d m s lw -> synced d m s' lw.
Proof. intros E Hs Hg. rewrite E. by apply Hs. Qed.

Lemma synced_up d d' m s lw : synced d m s lw -> d' = false \/ d = true -> synced d' m s lw.
Proof.
  intros H Hd Hg. destruct (H Hg) as [-> H']. by destruct Hd as [->|].
Qed.

Abbreviation lh := (log_handler h).

Lemma at_point_log (Phi Phi' : list action -> view -> Prop) c s lw :
  at_point Phi s lw ->
  (good (trace (lh c lw).2) -> ~ fault (Entry c (lh c lw).1) ->
   Phi (batch s) (session (trace lw)) ->
   Phi' (batch s) (observe (session (trace lw)) (Entry c (lh c lw).1))) ->
  at_point Phi' s (lh c lw).2.
Proof.
  intros H Hstep Hg. pose proof Hg as Hg'. rewrite trace_log in Hg'.
  destruct (good_snoc _ _ Hg') as [Hg0 Hf].
  specialize (Hstep Hg Hf (H Hg0)). by rewrite trace_log, session_snoc.
Qed.

(** A faulty answer voids the contract. *)
Lemma at_point_fault Phi c s (lw : logged W) :
  fault (Entry c (lh c lw).1) -> at_point Phi s (lh c lw).2.
Proof.
  intros Hf Hg. rewrite trace_log in Hg. by destruct (good_snoc _ _ Hg) as [_ []].
Qed.

Lemma neutral_keeps {A} Phi (p : prog heap A) :
  only neutral same_batch p -> keeps lh (at_point Phi) p.
Proof.
  apply keeps_only.
  - intros c s lw Hc H. apply (at_point_log Phi); [done|]. intros _ _ HP.
    by rewrite observe_neutral.
  - intros s s' lw Hs H Hg. rewrite Hs. by apply H.
Qed.

Lemma wpc_neutral {A} d m (p : prog heap A) s lw :
  only neutral same_batch p -> synced d m s lw ->
  wpc lh covered (fun _ => synced d m) p s lw.
Proof.
  intros Hp Hs. eapply wpc_mono; [by apply neutral_keeps|by apply synced_covered|done].
Qed.

(** *** The parts of the loop *)

Definition synced_on {A} (d : A -> bool) (m : A -> list (option string)) (r : result A)
    : heap -> logged W -> Prop :=
  match r with Ok a => synced (d a) (m a) | _ => synced false [] end.

Lemma poll_synced d s lw :
  synced d [] s lw ->
  match (lh (KafkaPoll 1) lw).1 with
  | Ok r => synced d (payload (poll_msg r)) s (lh (KafkaPoll 1) lw).2
  | _ => synced false [] s (lh (KafkaPoll 1) lw).2
  end.
Proof.
  intros Hs. destruct (lh (KafkaPoll 1) lw).1 as [r|e|] eqn:Er;
    (eapply (at_point_log _ _ (KafkaPoll 1)); [exact Hs|]);
    intros _ _ (Hdn & ms & k & Hd & Hk & Hp & Hb); rewrite Er; simpl; (split; [done|]); exists ms, k;
    rewrite Hd, !app_nil_r; auto.
Qed.

Lemma callbacks_synced d m codes s lw :
  synced d m s lw ->
  wpc lh covered (fun r s' lw' => r = Ok tt /\ synced d m s' lw')
    (for_each codes (fun code => modify (error_cb code))) s lw.
Proof.
  apply (wpc_for_each lh covered (fun _ => synced d m)); [done|intros _; apply synced_covered|].
  intros code _ s' lw' Hs.
  pose proof (synced_same d m _ _ _ (batch_error_cb code s') Hs).
  apply wpc_modify; [by eapply synced_covered..|done].
Qed.

Lemma poll_once_synced d s lw :
  synced d [] s lw -> wpc lh covered (synced_on (fun _ => d) payload) poll_once s lw.
Proof.
  intros Hs. unfold poll_once. apply wpc_bind.
  pose proof (poll_synced d s lw Hs) as Hst.
  apply wpc_do; [by eapply synced_covered|..];
    destruct (lh (KafkaPoll 1) lw).1 as [r|e|]; try (by eapply synced_covered);
    try exact Hst.
  apply wpc_bind. eapply wpc_mono; [by apply callbacks_synced|done|].
  intros r' s' lw' HC [-> Hs']. by apply wpc_ret.
Qed.

(** A clock that fails is a fault. *)
Lemma time_synced d m s lw :
  synced d m s lw ->
  wpc lh covered (synced_on (fun _ => d) (fun _ => m)) (do TimeTime) s lw.
Proof.
  intros Hs. assert (Hs' : synced d m s (lh TimeTime lw).2).
  { apply (neutral_keeps _ (do TimeTime)) in Hs; [|done]. simpl in Hs.
    destruct (lh TimeTime lw) as [r lw']. tauto. }
  apply wpc_do; [by eapply synced_covered..|].
  destruct (lh TimeTime lw).1 eqn:E; simpl; [done|apply (at_point_fault _ TimeTime); by rewrite E..].
Qed.

Lemma update_metrics_synced d m s lw :
  synced d m s lw ->
  wpc lh covered (synced_on (fun _ => d) (fun _ => m)) update_metrics s lw.
Proof.
  intros Hs. set (c := RedisHLen "pending").
  assert (Hs' : synced d m s (lh c lw).2).
  { apply (neutral_keeps _ (do c)) in Hs; [|done]. simpl in Hs.
    destruct (lh c lw) as [r lw']. tauto. }
  unfold update_metrics. apply wpc_try_except, wpc_bind.
  apply wpc_do; [by eapply synced_covered..|]. fold c.
  destruct (lh c lw).1 as [n|e|] eqn:E.
  - pose proof (synced_same d m _ (set_pending_total n s) _ (batch_set_pending_total n s) Hs').
    apply wpc_modify; [by eapply synced_covered..|done].
  - cbv beta iota. destruct (is_RedisError e) eqn:Ee; [apply wpc_ret; [by eapply synced_covered|done]|].
    apply (at_point_fault _ c). by rewrite E.
  - apply (at_point_fault _ c). by rewrite E.
Qed.

Lemma wpc_bind_synced {A B} d m d' m' (p : py heap A) (f : A -> py heap B) s lw :
  wpc lh covered (synced_on d m) p s lw ->
  (forall a s' lw', synced (d a) (m a) s' lw' -> wpc lh covered (synced_on d' m') (f a) s' lw') ->
  wpc lh covered (synced_on d' m') (bind p f) s lw.
Proof.
  intros Hp Hf. apply wpc_bind. eapply wpc_mono; [exact Hp|done|].
  intros [a|e|] s' lw' _ H; [by apply Hf|done|done].
Qed.

Lemma wpc_ret_synced {A} d m (a : A) s lw :
  synced (d a) (m a) s lw -> wpc lh covered (synced_on d m) (ret a) s lw.
Proof. intros Hs. apply wpc_ret; [by eapply synced_covered|done]. Qed.

Abbreviation nothing := (fun _ => []).

Lemma refresh_gauge_synced m now v s lw :
  synced (redis_down v) m s lw ->
  wpc lh covered (synced_on redis_down (fun _ => m)) (refresh_gauge now v) s lw.
Proof.
  intros Hs. unfold refresh_gauge. destruct (seconds 10 <=? _); [|by apply wpc_ret_synced].
  eapply wpc_bind_synced; [by apply update_metrics_synced|].
  intros [] s' lw' Hs'. by apply wpc_ret_synced.
Qed.

Lemma try_reconnect_synced d m s lw :
  synced d m s lw ->
  wpc lh covered (fun _ => synced d m) try_reconnect s lw.
Proof. apply wpc_neutral, try_reconnect_neutral. Qed.

Lemma pipeline_flushed s lw :
  synced false [] s lw ->
  (lh (RedisPipeline (pipeline_of (batch s))) lw).1 = Ok tt ->
  at_point (fun _ => settled) s (lh (RedisPipeline (pipeline_of (batch s))) lw).2.
Proof.
  intros Hs Hr. set (c := RedisPipeline (pipeline_of (batch s))) in *.
  eapply (at_point_log _ _ c); [exact Hs|]. rewrite Hr.
  intros _ _ (_ & ms & k & Hd & Hk & Hp & Hb). rewrite app_nil_r in Hd. split; simpl; rewrite Hd; [|lia].
  rewrite Hp, Hb. fold (commands (drop k ms)). by rewrite <-commands_app, take_drop.
Qed.

Lemma flush_synced s lw :
  batch s <> [] -> synced false [] s lw ->
  wpc lh covered (fun r s' lw' => match r with
                                  | Ok true => flushed s' lw'
                                  | Ok false => synced true [] s' lw'
                                  | _ => synced false [] s' lw'
                                  end) flush_batch s lw.
Proof.
  intros Hne Hs. apply wpc_flush_batch; [done|by eapply synced_covered|].
  pose proof (pipeline_flushed s lw Hs) as Hp.
  set (c := RedisPipeline (pipeline_of (batch s))) in *.
  assert (Hf : forall Phi s', (lh c lw).1 <> Ok tt -> at_point Phi s' (lh c lw).2).
  { intros Phi s' Hn. apply (at_point_fault _ c). by destruct (lh c lw).1 as [[]|e|]. }
  destruct (lh c lw) as [a lw']. simpl in *.
  destruct a as [[]|e|]; [| |by split; apply Hf].
  2: { split; [by apply Hf|]. 
       destruct (is_RedisError e); [split; [by apply Hf|split]|]; by apply Hf. }
  specialize (Hp eq_refl).
  assert (Hc : forall s', covered s' lw').
  { intros s' Hg. destruct (Hp Hg) as [Hx Hk]. exists (length (delivered (session (trace lw')))).
    by rewrite firstn_all. }
  split; [done|]. split; [done|]. intros Hg. destruct (Hp Hg). by rewrite batch_clear.
Qed.

Lemma safe_commit_flushed s lw :
  flushed s lw -> wpc lh covered (fun _ => flushed) safe_commit s lw.
Proof.
  intros Hs. unfold safe_commit. apply wpc_try_except.
  assert (Hs' : flushed s (lh KafkaCommit lw).2).
  { eapply (at_point_log _ _ KafkaCommit); [exact Hs|].
    by intros _ _ (-> & Hp & _). }
  apply wpc_do; [by eapply synced_covered, flushed_synced..|].
  destruct (lh KafkaCommit lw).1 as [u|e|]; [done| |done].
  destruct (is_KafkaException e); [|done].
  assert (flushed (inc_commit_errors s) (lh KafkaCommit lw).2)
    by (unfold flushed, at_point; by rewrite batch_inc_commit_errors).
  apply wpc_modify; [by eapply synced_covered, flushed_synced..|done].
Qed.

Lemma safe_commit_synced s lw :
  flushed s lw -> wpc lh covered (synced_on (fun _ => false) nothing) safe_commit s lw.
Proof.
  intros Hs. eapply wpc_mono; [by apply safe_commit_flushed|done|].
  intros [a|e|] s' lw' _ H; by apply flushed_synced.
Qed.

(** With every payload parsed, an exception loses nothing. *)
Lemma wpc_neutral_idle {A} d (p : py heap A) s lw :
  only neutral same_batch p -> synced d [] s lw ->
  wpc lh covered (synced_on (fun _ => d) nothing) p s lw.
Proof.
  intros Hp Hs. eapply wpc_mono; [by apply (wpc_neutral d [])|done|].
  intros [a|e|] s' lw' _ H; [done|by eapply synced_up; [exact H|left]..].
Qed.

Lemma flush_commit_synced {A} (X Y : py heap A) d s lw :
  batch s <> [] -> synced false [] s lw ->
  (forall s' lw', synced false [] s' lw' -> wpc lh covered (synced_on d nothing) X s' lw') ->
  (forall s' lw', synced true [] s' lw' -> wpc lh covered (synced_on d nothing) Y s' lw') ->
  wpc lh covered (synced_on d nothing)
    (let* flushed := flush_batch in if flushed : bool then safe_commit ;; X else Y) s lw.
Proof.
  intros Hne Hs HX HY. apply wpc_bind.
  eapply wpc_mono; [by apply flush_synced|done|].
  intros [[]|e|] s' lw' _ H; [|by apply HY|done..].
  eapply wpc_bind_synced; [by apply safe_commit_synced|]. intros []. apply HX.
Qed.

Lemma on_idle_synced now v s lw :
  redis_down v = false -> synced false [] s lw ->
  wpc lh covered (synced_on redis_down nothing) (on_idle now v) s lw.
Proof.
  intros Hv Hs. unfold on_idle. apply wpc_bind, wpc_get; [by eapply synced_covered|].
  destruct (Z.ltb_spec 0 (batch_size s)) as [Hpos|]; [|by apply wpc_ret_synced; rewrite Hv].
  destruct (BATCH_TIMEOUT <=? _); [|by apply wpc_ret_synced; rewrite Hv].
  apply flush_commit_synced; [by apply batch_size_pos|done|..]; intros s' lw' H;
    apply wpc_ret_synced; simpl; by rewrite ?Hv.
Qed.

Lemma flush_full_synced v s lw :
  redis_down v = false -> synced false [] s lw ->
  wpc lh covered (synced_on redis_down nothing) (flush_full v) s lw.
Proof.
  intros Hv Hs. unfold flush_full. apply wpc_bind, wpc_get; [by eapply synced_covered|].
  destruct (Z.leb_spec BATCH_SIZE (batch_size s)) as [Hge|];
    [|by apply wpc_ret_synced; rewrite Hv].
  apply flush_commit_synced; [apply batch_size_pos; unfold BATCH_SIZE in *; lia|done|..];
    intros s' lw' H.
  - eapply wpc_bind_synced; [by apply time_synced|]. intros t s1 lw1 H1.
    apply wpc_ret_synced. simpl. by rewrite Hv.
  - by apply wpc_ret_synced.
Qed.

Lemma log_progress_synced v s lw :
  synced (redis_down v) [] s lw ->
  wpc lh covered (synced_on redis_down nothing) (log_progress v) s lw.
Proof.
  intros Hs. unfold log_progress. apply wpc_bind, wpc_get; [by eapply synced_covered|].
  destruct (1000 <=? _); [|by apply wpc_ret_synced].
  eapply wpc_bind_synced; [by apply update_metrics_synced|]. intros [] s1 lw1 H1.
  eapply wpc_bind_synced; [by apply time_synced|]. intros t s2 lw2 H2.
  eapply wpc_bind_synced; [apply (wpc_neutral_idle (redis_down v)); [|done]|].
  - solve_neutral.
  - intros ? s3 lw3 H3. by apply wpc_ret_synced.
Qed.

Lemma parse_synced value s lw :
  synced false [value] s lw ->
  wpc lh covered (synced_on (fun _ => false) nothing) (atomically (parse_event value)) s lw.
Proof.
  intros Hs.
  assert (Hc : covered (parse_event value s).2 lw) by exact (synced_covered _ _ s lw Hs).
  assert (Hp : synced_on (fun _ : unit => false) nothing (parse_event value s).1
                 (parse_event value s).2 lw).
  { assert (Hgood : synced false [] (parse_event value s).2 lw /\
      (good (trace lw) -> (parse_event value s).1 = Ok tt)).
    { assert (Hpc : good (trace lw) -> clean value).
      { intros Hg. destruct (Hs Hg) as (_ & ms & k & Hd & _). destruct Hg as [_ Hg].
        rewrite Hd in Hg. apply Forall_app in Hg as [_ Hg]. by inversion Hg. }
      split; intros Hg; destruct (parse_clean value s (Hpc Hg)) as (s' & Hps & Hb); [|by rewrite Hps].
      rewrite Hps. destruct (Hs Hg) as (_ & ms & k & Hd & Hk & Hpp & Hbb). split; [done|].
      exists (ms ++ [value])%list, k. rewrite app_nil_r, length_app, take_app_le, drop_app_le by lia.
      repeat split; [done|lia|simpl; lia|done|].
      rewrite events_app, bind_app, <-Hbb. simpl. by rewrite app_nil_r, Hb. }
    by destruct Hgood as [Hg1 _], (parse_event value s).1. }
  apply wpc_atomically; [by eapply synced_covered|done|done].
Qed.

Lemma handle_message_synced now m v s lw :
  redis_down v = false -> synced false (payload m) s lw ->
  wpc lh covered (synced_on redis_down nothing) (handle_message now m v) s lw.
Proof.
  intros Hv Hs. destruct m as [[code|value]|].
  - unfold handle_message, on_error. destruct (decide _); [by apply wpc_ret_synced; rewrite Hv|].
    eapply wpc_bind_synced; [apply (wpc_neutral_idle false); [|done]|].
    + solve_neutral.
    + intros ? s' lw' H. apply wpc_ret_synced. by rewrite Hv.
  - unfold handle_message, on_message.
    eapply wpc_bind_synced; [by apply parse_synced|]. intros ? s1 lw1 H1.
    eapply wpc_bind_synced; [by apply flush_full_synced|]. intros v' s2 lw2 H2.
    by apply log_progress_synced.
  - by apply on_idle_synced.
Qed.

Lemma loop_body_synced v s lw :
  synced (redis_down v) [] s lw ->
  wpc lh covered (synced_on redis_down nothing) (loop_body v) s lw.
Proof.
  intros Hs. unfold loop_body.
  eapply wpc_bind_synced; [by apply poll_once_synced|]. intros m s1 lw1 H1.
  eapply wpc_bind_synced; [by apply time_synced|]. intros now s2 lw2 H2.
  eapply wpc_bind_synced; [by apply refresh_gauge_synced|]. intros v' s3 lw3 H3.
  destruct (redis_down v') eqn:Ev; [|by apply handle_message_synced].
  apply wpc_bind. eapply wpc_mono; [by apply try_reconnect_synced|done|].
  assert (Hbad : forall d m' s' lw', synced true (payload m) s' lw' -> synced d m' s' lw').
  { intros d m' s' lw' H Hg. by destruct (H Hg). }
  intros [[]|e|] s4 lw4 _ H4; [..|by apply Hbad|by apply Hbad].
  - apply handle_message_synced; [done|by apply Hbad].
  - apply wpc_ret_synced. by apply Hbad.
Qed.

(** An empty queue with every record parsed: nothing is owed. *)
Lemma idle_flushed d s lw : batch s = [] -> synced d [] s lw -> flushed s lw.
Proof.
  intros Hb Hs Hg. destruct (Hs Hg) as (_ & ms & k & Hd & Hk & Hx & Hbb). split; [done|].
  unfold settled. rewrite Hd, app_nil_r, Hx. split; [|lia].
  rewrite <-(take_drop k ms) at 2. rewrite commands_app. unfold commands at 3.
  by rewrite <-Hbb, Hb, app_nil_r.
Qed.

(** What a run leaves: when it returns, nothing unflushed. *)
Definition ended {A} (r : result A) : heap -> logged W -> Prop :=
  match r with Ok _ => flushed | _ => covered end.

Lemma ended_covered {A} (r : result A) s lw : ended r s lw -> covered s lw.
Proof. destruct r; [|done..]. intros H. by eapply synced_covered, flushed_synced. Qed.

Lemma shutdown_synced d s lw :
  synced d [] s lw -> wpc lh covered ended shutdown s lw.
Proof.
  intros Hs. assert (Hs0 : synced false [] s lw) by (eapply synced_up; [exact Hs|by left]).
  unfold shutdown. apply wpc_bind, wpc_get; [by eapply synced_covered|].
  apply wpc_bind. eapply (wpc_mono _ covered _ ended).
  - destruct (Z.ltb_spec 0 (batch_size s)) as [Hpos|Hz].
    + apply wpc_bind. eapply wpc_mono; [apply flush_synced; [by apply batch_size_pos|done]|done|].
      intros [[]|e|] s' lw' _ H; [| |by eapply synced_covered..].
      * eapply wpc_mono; [by apply safe_commit_flushed|done|].
        intros r s1 lw1 _ H1. destruct r; [done|by eapply synced_covered, flushed_synced..].
      * apply wpc_ret; [by eapply synced_covered|]. intros Hg. by destruct (H Hg).
    + apply wpc_ret; [by eapply synced_covered|]. eapply idle_flushed; [|exact Hs0].
      unfold batch_size in Hz. apply length_zero_iff_nil. lia.
  - done.
  - intros [u|e|] s' lw' _ H; [|done..].
    assert (Hc : forall s lw, flushed s lw -> covered s lw) by (intros; by eapply synced_covered, flushed_synced).
    eapply wpc_mono; [by apply (neutral_keeps (fun b v => b = [] /\ settled v))|apply Hc|].
    intros r s1 lw1 _ H1. destruct r; [done|by apply Hc..].
Qed.

Lemma main_loop_synced fuel v s lw :
  synced (redis_down v) [] s lw ->
  wpc lh covered ended (main_loop fuel v) s lw.
Proof.
  intros Hs. unfold main_loop. apply wpc_try_finally.
  eapply (wpc_mono _ covered _ (synced_on (fun _ : unit => false) nothing)); [|done|].
  - unfold poll_loop.
    apply (wpc_while _ _ (fun v' => synced (redis_down v') [])); [..|done].
    + intros v' s' lw'. apply synced_covered.
    + intros v' s' lw' H. eapply synced_up; [exact H|by left].
    + intros v' s' lw' H. apply wpc_bind.
      eapply wpc_mono; [apply (wpc_neutral_idle (redis_down v')); [done|exact H]|done|].
      intros [[]|e|] s1 lw1 _ H1; [| |done..].
      * apply wpc_bind. eapply wpc_mono; [by apply loop_body_synced|done|].
        intros [v''|e|] s2 lw2 HC H2; [by apply wpc_ret|done..].
      * apply wpc_ret; [by eapply synced_covered|]. eapply synced_up; [exact H1|by left].
  - intros r s' lw' HC Hr.
    assert (synced false [] s' lw') as Hs' by (by destruct r).
    destruct r; [..|by eapply synced_covered];
      (eapply wpc_mono; [by eapply shutdown_synced|done|]; intros r s1 lw1 HC1 H1; by destruct r).
Qed.

Lemma main_synced fuel s lw :
  synced false [] s lw -> wpc lh covered ended (main fuel) s lw.
Proof.
  intros Hs. unfold main.
  assert (Hbind : forall {A B} (m : py heap A) (f : A -> py heap B) s lw,
    only neutral same_batch m -> synced false [] s lw ->
    (forall a s' lw', synced false [] s' lw' -> wpc lh covered ended (f a) s' lw') ->
    wpc lh covered ended (bind m f) s lw).
  { intros A B m f s0 lw0 Hm H0 Hf. apply wpc_bind.
    eapply wpc_mono; [by apply (wpc_neutral_idle false)|done|].
    intros [a|e|] s' lw' HC H; [by apply Hf|done..]. }
  do 10 (first [apply Hbind;
    [first [apply connect_redis_only|apply create_kafka_consumer_only|
            unfold config_path; solve_neutral]|done|
     let s' := fresh "s" in let lw' := fresh "lw" in let H' := fresh "H" in
     intros ? s' lw' H']|fail]).
  by apply main_loop_synced.
Qed.
End Contract.

Lemma synced_start {W} (w : W) : synced false [] init_heap (Logged w []).
Proof. intros _. split; [done|]. exists [], 0%nat. done. Qed.

(** *** What Redis holds *)

(** The commands a call executed. *)
Definition effect (e : entry) : list pcmd :=
  let '(Entry c r) := e in
  match c, r with RedisPipeline cmds, Ok _ => cmds | _, _ => [] end.

Lemma observe_executed v e : executed (observe v e) = (executed v ++ effect e)%list.
Proof. destruct e as [[] r]; simpl; rewrite ?app_nil_r; try done; destruct r; by rewrite ?app_nil_r. Qed.

Definition on_pending (c : pcmd) : Prop :=
  match c with PHSet name _ _ | PHDel name _ => name = "pending" end.

(** The calls of the collector, as far as Redis is concerned. *)
Definition collects (c : call) : Prop :=
  match c with
  | RedisPipeline cmds => Forall on_pending cmds
  | RedisRename _ _ | RedisDelete _ | RedisSetNX _ _ _ | RedisHSetMapping _ _
  | RedisHScan _ _ _ => False
  | _ => True
  end.

Lemma pipeline_on_pending b : Forall on_pending (pipeline_of b).
Proof.
  unfold pipeline_of. induction b as [|[e p|o n] b IH]; [constructor|..]; simpl.
  - by constructor.
  - by do 2 constructor.
Qed.

Lemma main_collects fuel : only collects (fun _ _ => True) (main fuel).
Proof.
  unfold_main. solve_only; simpl; intros; try done; split; try done; apply pipeline_on_pending.
Qed.

Section Database.
Context {W : Type} (h : handler W) `{!RedisServer h}.

Lemma collector_step rely `{!RedisLaws h rely} c w :
  collects c -> ~ fault (Entry c (h c w).1) ->
  exists d, rely (rs_db w) d /\
            rely (foldl (exec_pcmd rs_encode) d (effect (Entry c (h c w).1))) (rs_db (h c w).2).
Proof.
  intros Hc Hf. destruct (rl_exec c w) as (d & d' & H1 & Hout & H2). exists d. split; [done|].
  destruct (h c w).1 as [x|e|]; simpl in Hout;
    [destruct Hout as [-> _]; by destruct c|destruct Hout as [->|Hout]; [by destruct c|]..];
    destruct c; try done; try (by destruct Hf); try destruct e; by subst.
Qed.

(** Nobody else writes: the keyspace is what the executed commands make it. *)
Definition mirrored (d0 : redis_db) (_ : heap) (lw : logged W) : Prop :=
  good (trace lw) ->
  rs_db (base lw) = foldl (exec_pcmd rs_encode) d0 (executed (session (trace lw))).

Lemma main_mirrored `{!RedisLaws h eq} d0 fuel : keeps (log_handler h) (mirrored d0) (main fuel).
Proof.
  apply (keeps_only _ _ collects (fun _ _ => True)); [|done|apply main_collects].
  intros c s lw Hc H Hg. rewrite trace_log in *. destruct (good_snoc _ _ Hg) as [Hg0 Hf].
  rewrite session_snoc, observe_executed, foldl_app, <-(H Hg0).
  unfold log_handler in *. pose proof (collector_step eq c (base lw) Hc) as Hs.
  destruct (h c (base lw)) as [r w']. cbn [fst snd base] in *. by destruct (Hs Hf) as (d & <- & <-).
Qed.

(** Other clients, such as a backup that has not dealt with the path, only
    move the path [p] between the two hashes. *)
Definition recorded (p : string) (d : redis_db) : Prop :=
  p ∈ dom (hash d "pending") \/ p ∈ dom (hash d "processing").

Definition keeps_recorded (p : string) (d d' : redis_db) : Prop := recorded p d -> recorded p d'.

Lemma recorded_exec p cmds d m :
  Forall on_pending cmds ->
  (is_Some (m !! p) -> recorded p d) ->
  is_Some (foldl write m (cmds ≫= writes_of rs_encode "pending") !! p) ->
  recorded p (foldl (exec_pcmd rs_encode) d cmds).
Proof.
  intros Hon Hd. unfold recorded in *. rewrite !elem_of_dom, !exec_pcmds_writes, !lookup_writes in *.
  assert (cmds ≫= writes_of rs_encode "processing" = []) as ->.
  { clear -Hon. induction Hon as [|c cmds Hc _ IH]; [done|]. rewrite bind_cons, IH.
    destruct c; simpl in *; subst; simpl; by repeat case_match. }
  destruct (last_write p _) as [o|]; [by left|done].
Qed.

Definition remembered (p : string) (m : gmap string string) (_ : heap) (lw : logged W) : Prop :=
  good (trace lw) ->
  is_Some (foldl write m (executed (session (trace lw)) ≫= writes_of rs_encode "pending") !! p) ->
  recorded p (rs_db (base lw)).

Lemma main_remembered p `{!RedisLaws h (keeps_recorded p)} m fuel :
  keeps (log_handler h) (remembered p m) (main fuel).
Proof.
  apply (keeps_only _ _ collects (fun _ _ => True)); [|done|apply main_collects].
  intros c s lw Hc H Hg. rewrite trace_log in *. destruct (good_snoc _ _ Hg) as [Hg0 Hf].
  rewrite session_snoc, observe_executed, bind_app, foldl_app.
  unfold log_handler in *. pose proof (collector_step (keeps_recorded p) c (base lw) Hc) as Hs.
  destruct (h c (base lw)) as [r w']. cbn [fst snd base] in *.
  destruct (Hs Hf) as (d & H1 & H2). intros Hp. apply H2. revert Hp.
  apply recorded_exec; [by destruct c, r|]. intros Hm. by apply H1, H.
Qed.
End Database.

(** *** Redelivery *)

Definition event_writes (ev : file_event) : list (string * option string) :=
  match ev with
  | MtimeChange p => [(p, Some "mtime_change")]
  | Deleted => []
  | Renamed o n => [(o, None); (n, Some "rename")]
  end.

Lemma apply_rule_writes evs m :
  foldl apply_rule m evs = foldl write m (evs ≫= event_writes).
Proof.
  revert m. induction evs as [|ev evs IH]; intros m; [done|].
  rewrite bind_cons, foldl_app. simpl. rewrite IH. by destruct ev.
Qed.

(** Events already applied may be applied again, from any point before. *)
Lemma rules_replay p0 ms c k :
  (c <= k <= length ms)%nat ->
  foldl apply_rule (foldl apply_rule p0 (events (take k ms))) (events (drop c ms))
  = foldl apply_rule p0 (events ms).
Proof.
  intros Hk.
  assert (Hms : ms = (take c ms ++ drop c ms)%list) by (by rewrite take_drop).
  assert (Htk : take k ms = (take c ms ++ take (k - c) (drop c ms))%list).
  { rewrite take_take_drop. f_equal. lia. }
  rewrite Htk, events_app, foldl_app. rewrite Hms at 4. rewrite events_app, foldl_app.
  set (m := foldl apply_rule p0 (events (take c ms))).
  rewrite <-(take_drop (k - c) (drop c ms)) at 2 3. rewrite events_app.
  rewrite !apply_rule_writes, bind_app. apply writes_absorb.
Qed.

(** ** Properties *)

Section Main.
Context {W : Type} (h : handler W).

Lemma main_covered fuel w n s lw :
  run_for (log_handler h) n (main fuel) init_heap (Logged w []) = (s, lw) -> covered s lw.
Proof. apply wpc_killed with (1 := main_synced h fuel _ _ (synced_start w)). Qed.

Lemma main_pending `{!RedisServer h} `{!RedisLaws h eq} w s lw ms :
  mirrored h (rs_db w) s lw -> good (trace lw) -> executed (session (trace lw)) = commands ms ->
  hash (rs_db (base lw)) "pending" = foldl apply_rule (hash (rs_db w) "pending") (events ms).
Proof. intros Hm Hg Hx. rewrite (Hm Hg), Hx. apply exec_events, rl_encode_str. Qed.

Lemma killed_pending `{!RedisServer h} `{!RedisLaws h eq} fuel w n s lw :
  run_for (log_handler h) n (main fuel) init_heap (Logged w []) = (s, lw) -> good (trace lw) ->
  let v := session (trace lw) in
  exists k, (committed v <= k <= length (delivered v))%nat /\
    hash (rs_db (base lw)) "pending"
    = foldl apply_rule (hash (rs_db w) "pending") (events (take k (delivered v))).
Proof.
  intros H Hg. destruct (main_covered _ _ _ _ _ H Hg) as (k & Hk & Hx). exists k. split; [done|].
  destruct (keeps_run _ _ _ init_heap (Logged w []) (main_mirrored h (rs_db w) fuel)) as [Hrun _]; [done|].
  specialize (Hrun n). rewrite H in Hrun. by eapply main_pending.
Qed.

Lemma returned_pending `{!RedisServer h} `{!RedisLaws h eq} fuel w s lw :
  run (log_handler h) (main fuel) init_heap (Logged w []) = (Ok tt, s, lw) ->
  good (trace lw) ->
  batch s = [] /\
  hash (rs_db (base lw)) "pending"
  = foldl apply_rule (hash (rs_db w) "pending") (events (delivered (session (trace lw)))).
Proof.
  intros H Hg. pose proof (wpc_run _ _ _ _ _ _ _ _ _ (main_synced h fuel _ _ (synced_start w)) H) as He.
  destruct (He Hg) as (Hb & Hx & _). split; [done|].
  destruct (keeps_run _ _ _ init_heap (Logged w []) (main_mirrored h (rs_db w) fuel)) as [_ Hrun]; [done|].
  rewrite H in Hrun. by eapply main_pending.
Qed.

Lemma remembered_recorded p `{!RedisServer h} `{!RedisLaws h (keeps_recorded p)} w s lw ms :
  remembered h p (hash (rs_db w) "pending") s lw -> good (trace lw) ->
  executed (session (trace lw)) = commands ms ->
  is_Some (foldl apply_rule (hash (rs_db w) "pending") (events ms) !! p) ->
  recorded p (rs_db (base lw)).
Proof.
  intros Hr Hg Hx. specialize (Hr Hg). rewrite Hx, <-exec_pcmds_writes in Hr. unfold commands in Hr.
  by rewrite (exec_events rs_encode rl_encode_str) in Hr.
Qed.

Lemma start_remembered p `{!RedisServer h} w :
  remembered h p (hash (rs_db w) "pending") init_heap (Logged w []).
Proof. intros _ Hp. left. by apply elem_of_dom. Qed.

(** When [main] has returned, the entries of all delivered events are recorded. *)
Lemma returned_recorded p `{!RedisServer h} `{!RedisLaws h (keeps_recorded p)} fuel w s lw :
  run (log_handler h) (main fuel) init_heap (Logged w []) = (Ok tt, s, lw) -> good (trace lw) ->
  is_Some (foldl apply_rule (hash (rs_db w) "pending") (events (delivered (session (trace lw)))) !! p) ->
  recorded p (rs_db (base lw)).
Proof.
  intros H Hg. pose proof (wpc_run _ _ _ _ _ _ _ _ _ (main_synced h fuel _ _ (synced_start w)) H) as He.
  destruct (He Hg) as (_ & Hx & _).
  destruct (keeps_run _ _ _ init_heap (Logged w [])
    (main_remembered h p (hash (rs_db w) "pending") fuel)) as [_ Hrun]; [by apply start_remembered|].
  rewrite H in Hrun. by eapply remembered_recorded.
Qed.

(** C7. Commit only what is written: for any answers of Redis, Kafka and the
    rest, wherever the collector is killed in a [good] session (no failed or
    hanging pipeline, each payload a well-formed event or one the parser counts
    and drops), the commands that Redis has executed for it are, in order,
    exactly those of a prefix of the delivered events, and this prefix covers
    every record committed to Kafka. *)
Theorem applied_before_commit fuel w n s lw :
  run_for (log_handler h) n (main fuel) init_heap (Logged w []) = (s, lw) ->
  good (trace lw) ->
  let v := session (trace lw) in
  exists k, (committed v <= k <= length (delivered v))%nat /\
    executed v = pipeline_of (events (take k (delivered v)) ≫= actions_of).
Proof. apply main_covered. Qed.

(** C8. At-least-once delivery: wherever the collector is killed in a session
    without a failed pipeline, Redis's [pending] hash is its initial content
    changed by the README's rules for a prefix of the events Kafka delivered,
    in order, and that prefix covers everything that has been committed.  (No
    other client writes; every payload is a well-formed event or one that the
    parser counts and drops.) *)
Theorem at_least_once `{!RedisServer h} `{!RedisLaws h eq} fuel w n s lw :
  run_for (log_handler h) n (main fuel) init_heap (Logged w []) = (s, lw) ->
  good (trace lw) ->
  let v := session (trace lw) in
  exists k, (committed v <= k <= length (delivered v))%nat /\
    hash (rs_db (base lw)) "pending"
    = foldl apply_rule (hash (rs_db w) "pending") (events (take k (delivered v))).
Proof. apply killed_pending. Qed.

(** At-least-once delivery beside a backup: while other clients only move
    paths between [pending] and [processing], as a backup does before it has
    dealt with them, each path to which the rules give an entry after that
    prefix of the events is in one of the two hashes, wherever the collector is
    killed. *)
Theorem at_least_once_beside_backup p `{!RedisServer h} `{!RedisLaws h (keeps_recorded p)} fuel w n s lw :
  run_for (log_handler h) n (main fuel) init_heap (Logged w []) = (s, lw) ->
  good (trace lw) ->
  let v := session (trace lw) in
  exists k, (committed v <= k <= length (delivered v))%nat /\
    (is_Some (foldl apply_rule (hash (rs_db w) "pending") (events (take k (delivered v))) !! p) ->
     recorded p (rs_db (base lw))).
Proof.
  intros H Hg v. destruct (main_covered _ _ _ _ _ H Hg) as (k & Hk & Hx). exists k. split; [done|].
  destruct (keeps_run _ _ _ init_heap (Logged w [])
    (main_remembered h p (hash (rs_db w) "pending") fuel)) as [Hrun _]; [by apply start_remembered|].
  specialize (Hrun n). rewrite H in Hrun. by eapply remembered_recorded.
Qed.

(** C9. Redelivery after a crash is exact: wherever the collector is killed
    in a [good] session (no failed or hanging pipeline, each payload a well-formed
    event or one the parser counts and drops), and no other client writes,
    applying to [pending] the events from the last commit
    on, which is what a restarted collector receives first, gives what the
    whole event sequence gives when each event is applied once. *)
Theorem redelivery_exact `{!RedisServer h} `{!RedisLaws h eq} fuel w n s lw :
  run_for (log_handler h) n (main fuel) init_heap (Logged w []) = (s, lw) ->
  good (trace lw) ->
  let v := session (trace lw) in
  foldl apply_rule (hash (rs_db (base lw)) "pending")
    (events (drop (committed v) (delivered v)))
  = foldl apply_rule (hash (rs_db w) "pending") (events (delivered v)).
Proof.
  intros H Hg v. destruct (killed_pending _ _ _ _ _ H Hg) as (k & Hk & ->).
  by apply rules_replay.
Qed.

(** C15. A clean stop leaves nothing behind: when the collector's [main] returns
    in such a session, beside which no other client writes, the queue is empty and [pending] is the effect of every
    event that was delivered, those of the last unfinished batch included. *)
Theorem clean_exit_complete `{!RedisServer h} `{!RedisLaws h eq} fuel w s lw :
  run (log_handler h) (main fuel) init_heap (Logged w []) = (Ok tt, s, lw) ->
  good (trace lw) ->
  batch s = [] /\
  hash (rs_db (base lw)) "pending"
  = foldl apply_rule (hash (rs_db w) "pending") (events (delivered (session (trace lw)))).
Proof. apply returned_pending. Qed.
End Main.

(** ** Runs *)

(** One file is reported, the flush of its batch fails, Redis comes back, and
    a second file is reported. *)
Definition outage_world : sim :=
  with_polls (deliver (msg_event "/home/s/u/a") :: replicate 4 no_message
              ++ [deliver (msg_event "/home/s/u/b")])%list
    (with_running (replicate 7 true)
      (with_up [true; true; false] (with_cfg demo_config sim0))).

(** A failed flush followed by a good one loses events: the first batch
    is dropped when its pipeline fails, and the commit after the next batch
    covers its records, so the first file is in no Redis hash although its
    event is committed. *)
Theorem failed_flush_loses_events :
  let '(r, s, lw) := run (log_handler sim_handler) (main 20) init_heap (Logged outage_world []) in
  let v := session (trace lw) in
  let pending := hash (rs_db (base lw)) "pending" in
  r = Ok tt /\ delivered v = [msg_event "/home/s/u/a"; msg_event "/home/s/u/b"] /\
  committed v = 2%nat /\ pending !! "/home/s/u/a" = None /\
  pending !! "/home/s/u/b" = Some "mtime_change".
Proof. vm_compute. repeat split; reflexivity. Qed.

Lemma calm_good : good (trace calm_run.2).
Proof.
  split; [vm_compute; repeat constructor; by intros []|].
  assert (delivered (session (trace calm_run.2)) =
    [msg_event "/home/s/u/a"; Some "not json";
     Some (json_text "{'event':'rename','old_path':'/home/s/u/a','new_path':'/home/s/u/c'}")])
    as -> by (vm_compute; reflexivity).
  apply Forall_cons; split; [left|apply Forall_cons; split; [right|apply Forall_cons; split; [left|done]]].
  - exists (MtimeChange "/home/s/u/a"). eexists. split; vm_compute; reflexivity.
  - eexists. split; vm_compute; reflexivity.
  - exists (Renamed "/home/s/u/a" "/home/s/u/c"). eexists. split; vm_compute; reflexivity.
Qed.

Lemma at_least_once_witness :
  exists k, (committed (session (trace calm_run.2)) <= k)%nat /\
  hash (rs_db (base calm_run.2)) "pending"
  = foldl apply_rule ∅ (events (take k (delivered (session (trace calm_run.2))))).
Proof.
  destruct (at_least_once sim_handler 20 calm_world 200 calm_run.1 calm_run.2)
    as (k & [Hk _] & Hp); [unfold calm_run; by destruct run_for|apply calm_good|].
  exists k. split; [exact Hk|]. rewrite Hp. reflexivity.
Defined.

Lemma applied_before_commit_witness :
  let v := session (trace calm_run.2) in
  exists k, (committed v <= k <= length (delivered v))%nat /\ (0 < committed v)%nat /\
    executed v = pipeline_of (events (take k (delivered v)) ≫= actions_of).
Proof.
  destruct (applied_before_commit sim_handler 20 calm_world 200 calm_run.1 calm_run.2) as (k & Hk & Hx);
    [unfold calm_run; by destruct run_for|apply calm_good|].
  exists k. split; [exact Hk|]. split; [vm_compute; lia|exact Hx].
Defined.

Lemma redelivery_exact_witness :
  foldl apply_rule (hash (rs_db (base calm_run.2)) "pending")
    (events (drop (committed (session (trace calm_run.2))) (delivered (session (trace calm_run.2)))))
  = {["/home/s/u/c" := "rename"]}.
Proof.
  rewrite (redelivery_exact sim_handler 20 calm_world 200 calm_run.1 calm_run.2);
    [|unfold calm_run; by destruct run_for|apply calm_good].
  assert (events (delivered (session (trace calm_run.2)))
          = [MtimeChange "/home/s/u/a"; Renamed "/home/s/u/a" "/home/s/u/c"]) as ->
    by (vm_compute; reflexivity).
  reflexivity.
Defined.

Abbreviation calm_end :=
  (run (log_handler sim_handler) (main 20) init_heap (Logged calm_world [])).

Lemma calm_end_good : good (trace calm_end.2).
Proof.
  assert (trace calm_end.2 = trace calm_run.2) as -> by (vm_compute; reflexivity). apply calm_good.
Qed.

Lemma clean_exit_complete_witness :
  hash (rs_db (base calm_end.2)) "pending" = {["/home/s/u/c" := "rename"]}.
Proof.
  assert (Hr : calm_end.1.1 = Ok tt) by (vm_compute; reflexivity).
  assert (He : events (delivered (session (trace calm_end.2)))
               = [MtimeChange "/home/s/u/a"; Renamed "/home/s/u/a" "/home/s/u/c"])
    by (vm_compute; reflexivity).
  pose proof calm_end_good as Hg.
  destruct calm_end as [[r s] lw] eqn:E. cbn [fst snd] in *. rewrite Hr in E.
  destruct (clean_exit_complete sim_handler 20 calm_world s lw E Hg) as [_ ->]. by rewrite He.
Defined.

(** A backup beside the collector: it takes [pending] over while the collector
    waits in [poll]. *)
Definition take_pending (d : redis_db) : redis_db :=
  if decide (key_exists d "processing") then d else rename_key "pending" "processing" d.

Definition busy_handler : handler sim := fun c w =>
  let '(r, w') := sim_handler c w in
  (r, match c with KafkaPoll _ => with_db (take_pending (sim_db w')) w' | _ => w' end).

#[local] Instance busy_server : RedisServer busy_handler :=
  { rs_db := sim_db; rs_encode := sim_encode; rs_scan := rs_scan (h := sim_handler) }.

Lemma take_pending_recorded p d : keeps_recorded p d (take_pending d).
Proof.
  intros H. unfold take_pending. destruct (decide _) as [|Hn]; [done|]. right.
  rewrite hash_rename_dst. destruct H as [H|H]; [done|]. destruct Hn. left. intros E.
  by rewrite E, dom_empty_L in H.
Qed.

#[local] Instance busy_laws p : RedisLaws busy_handler (keeps_recorded p).
Proof.
  split.
  - intros c w. destruct (rl_exec (h := sim_handler) c w) as (d & d' & <- & Hout & Hd).
    exists (rs_db w), d'. split; [by intros ?|]. unfold busy_handler.
    destruct (sim_handler c w) as [r w'] eqn:E. simpl in *. split; [done|]. subst d'.
    destruct c; try (by intros ?). apply take_pending_recorded.
  - done.
  - intros w name. exact (rl_scan_start (h := sim_handler) (rely := eq) w name).
  - intros w name cur count cur' items _ H.
    assert (Hs := rl_scan_next (h := sim_handler) (rely := eq) w name cur count cur' items).
    specialize (Hs ltac:(by intros d d' ->)).
    unfold busy_handler in *. destruct (sim_handler (RedisHScan name cur count) w). by apply Hs.
Qed.

Definition busy_world : sim :=
  with_polls (deliver (msg_event "/home/s/u/a") :: replicate 4 no_message
              ++ [deliver (msg_event "/home/s/u/b")])%list
    (with_running (replicate 7 true) (with_cfg demo_config sim0)).

(** The backup has taken the first file over, the second one is still pending. *)
Abbreviation busy_run :=
  (run_for (log_handler busy_handler) 200 (main 20) init_heap (Logged busy_world [])).

Lemma busy_good : good (trace busy_run.2).
Proof.
  split; [vm_compute; repeat constructor; by intros []|].
  assert (delivered (session (trace busy_run.2)) = [msg_event "/home/s/u/a"; msg_event "/home/s/u/b"])
    as -> by (vm_compute; reflexivity).
  apply Forall_cons; split; [left|apply Forall_cons; split; [left|done]].
  - exists (MtimeChange "/home/s/u/a"). eexists. split; vm_compute; reflexivity.
  - exists (MtimeChange "/home/s/u/b"). eexists. split; vm_compute; reflexivity.
Qed.

Lemma at_least_once_beside_backup_witness :
  let d := rs_db (RedisServer := busy_server) (base busy_run.2) in
  dom (hash d "pending") = {["/home/s/u/b"]} /\ recorded "/home/s/u/a" d.
Proof.
  assert (Hv : let v := session (trace busy_run.2) in
    (committed v = 2 /\ length (delivered v) = 2)%nat /\
    events (delivered v) = [MtimeChange "/home/s/u/a"; MtimeChange "/home/s/u/b"])
    by (vm_compute; repeat split; reflexivity).
  assert (Hp : dom (hash (sim_db (base busy_run.2)) "pending") = {["/home/s/u/b"]})
    by (vm_compute; reflexivity).
  pose proof busy_good as Hg. destruct busy_run as [s lw] eqn:E. cbn [fst snd] in *.
  split; [exact Hp|]. destruct Hv as ((Hc & Hl) & He).
  destruct (at_least_once_beside_backup busy_handler "/home/s/u/a" 20 busy_world 200 s lw E Hg)
    as (k & Hk & Hr).
  rewrite firstn_all2, He in Hr by lia. apply Hr. vm_compute. eexists. reflexivity.
Defined.
