(* ===== verification/Repo.v ===== *)
(** [backup/backup.py], first part: the repository of a path, the repository
    manager, and the backup of one repository (a job of the worker pool). *)
From S2P Require Import Prelude PyStr PyVal Config Effects Semantics Redis Sim.
From Stdlib Require Import Ascii.

Local Open Scope string_scope.
Local Open Scope Z_scope.
Local Open Scope py_scope.
#[local] Set Warnings "-clear-no-such-hyp".

(** [l[:n]] *)
Definition slice_to {A} (n : Z) (l : list A) : list A :=
  if 0 <=? n then take (Z.to_nat n) l
  else take (length l - Z.to_nat (- n)) l.

(** ** [get_repo_id] *)

Definition slash : ascii := "/"%char.

Definition get_repo_id (path base : string) (depth : Z) : option string :=
  if negb (startswith path (base ++ "/")) then None
  else
    let rel := drop_str (String.length base + 1) path in
    let parts := split slash rel in
    if Z.of_nat (length parts) <? depth then None
    else Some (join "/" (slice_to depth parts)).

(** [f"s3:{scheme}://{endpoint}/{bucket}/{repo_id}"] *)
Definition s3_url (use_tls : bool) (endpoint bucket repo_id : string) : string :=
  let scheme := if use_tls then "https" else "http" in
  "s3:" ++ scheme ++ "://" ++ endpoint ++ "/" ++ bucket ++ "/" ++ repo_id.

(** ** [RepoManager] *)

(** [_initialized], and [_pending] once the attribute exists. *)
Record RepoManager := Manager {
  _initialized : gset string;
  _pending : option (gset string)
}.

Definition new_manager : RepoManager := Manager ∅ None.

(** The first critical section: is the repository known?  If not, note it in
    [_pending]. *)
Definition check_in (repo_url : string) (m : RepoManager) : result bool * RepoManager :=
  if decide (repo_url ∈ _initialized m) then (Ok true, m)
  else (Ok false, Manager (_initialized m)
                    (Some ({[repo_url]} ∪ default ∅ (_pending m)))).

Definition add_initialized (repo_url : string) (m : RepoManager) : RepoManager :=
  Manager ({[repo_url]} ∪ _initialized m) (_pending m).

Definition discard_pending (repo_url : string) (m : RepoManager) : RepoManager :=
  Manager (_initialized m)
    (match _pending m with Some p => Some (p ∖ {[repo_url]}) | None => None end).

Definition ensure (restic repo_url : string) (env : gmap string string)
    : py RepoManager bool :=
  let* known := atomically (check_in repo_url) in
  if known : bool then ret true
  else
    try_finally
      (let* r := do (SubprocessRun [restic; "cat"; "config"; "-r"; repo_url] env None) in
       let* ready :=
         if negb (returncode r =? 0) then
           let* r2 := do (SubprocessRun [restic; "init"; "-r"; repo_url] env None) in
           if negb (returncode r2 =? 0) then
             let* _ := lift (decode (stderr r2)) in ret false
           else ret true
         else ret true in
       if ready : bool then modify (add_initialized repo_url) ;; ret true
       else ret false)
      (modify (discard_pending repo_url)).

(** ** [backup_repo] *)

(** The dict [result]. *)
Record repo_result := RepoResult {
  rr_repo_id : string;
  rr_total : Z;
  rr_backed_up : Z;
  rr_skipped : Z;
  rr_errors : Z
}.

Definition set_backed_up (n : Z) (r : repo_result) : repo_result :=
  RepoResult (rr_repo_id r) (rr_total r) n (rr_skipped r) (rr_errors r).
Definition set_skipped (n : Z) (r : repo_result) : repo_result :=
  RepoResult (rr_repo_id r) (rr_total r) (rr_backed_up r) n (rr_errors r).
Definition set_errors (n : Z) (r : repo_result) : repo_result :=
  RepoResult (rr_repo_id r) (rr_total r) (rr_backed_up r) (rr_skipped r) n.

Definition len {A} (l : list A) : Z := Z.of_nat (length l).

Definition max_retries : Z := 3.

Definition backup_argv (restic_bin list_file repo_url : string) : list string :=
  [restic_bin; "backup"; "--files-from"; list_file; "-r"; repo_url; "--tag"; "incremental"].

(** [for attempt in range(1, max_retries + 1): ...], over the attempts left. *)
Fixpoint restic_attempts (restic_bin list_file repo_url : string)
    (env : gmap string string) (n_existing : Z) (attempts : list Z)
    (result : repo_result) : py RepoManager repo_result :=
  match attempts with
  | [] => ret result
  | attempt :: rest =>
      let* proc := do (SubprocessRun (backup_argv restic_bin list_file repo_url)
                                     env (Some 3600)) in
      if (returncode proc =? 0) || (returncode proc =? 3) then
        ret (set_backed_up n_existing result)
      else
        let* _ := lift (decode (stderr proc)) in
        if attempt <? max_retries then
          do (TimeSleep (attempt * 10)) ;;
          restic_attempts restic_bin list_file repo_url env n_existing rest result
        else
          restic_attempts restic_bin list_file repo_url env n_existing rest
            (set_errors n_existing result)
  end.

(** The text of the list file. *)
Definition newline : string := String (chr 10) "".
Definition file_list (existing : list string) : string := join newline existing.

Definition backup_repo (repo_id : string) (paths : list string) (cfg : config)
    (env : gmap string string) (restic_bin : string) : py RepoManager repo_result :=
  let* endpoint := lift (get_endpoint cfg) in
  let* bucket := lift (get_bucket cfg) in
  let* use_tls := lift (get_use_tls cfg) in
  let repo_url := s3_url use_tls endpoint bucket repo_id in
  let result := RepoResult repo_id (len paths) 0 0 0 in
  let* ready := ensure restic_bin repo_url env in
  if negb ready then ret (set_errors (len paths) result)
  else
    let* existing := filter_each paths (fun p => do (OsPathExists p)) in
    let result := set_skipped (len paths - len existing) result in
    match existing with
    | [] => ret result
    | _ :: _ =>
        let* list_file := do (TempFile ".txt") in
        do (FileWrite list_file (file_list existing)) ;;
        try_finally
          (restic_attempts restic_bin list_file repo_url env (len existing) [1; 2; 3] result)
          (do (OsUnlink list_file))
    end.

(** ** What happened to a path

    Read off the calls and their answers: the file was found missing, or its
    path was a line of a list file that was then given to a [restic backup] of
    its repository which ended with exit code 0 or 3. *)
Definition gone (p : string) (tr : list entry) : Prop :=
  Entry (OsPathExists p) (Ok false) ∈ tr.

Definition sent (restic_bin repo_url p : string) (tr : list entry) : Prop :=
  exists i j list_file content env proc,
    tr !! i = Some (Entry (FileWrite list_file content) (Ok tt)) /\
    p ∈ split (chr 10) content /\ (i < j)%nat /\
    tr !! j = Some (Entry (SubprocessRun (backup_argv restic_bin list_file repo_url)
                                         env (Some 3600)) (Ok proc)) /\
    (returncode proc = 0 \/ returncode proc = 3).

(** The repository of a repo id under a configuration. *)
Definition repo_url_of (cfg : config) (repo_id : string) : result string :=
  let? endpoint := get_endpoint cfg in
  let? bucket := get_bucket cfg in
  let? use_tls := get_use_tls cfg in
  Ok (s3_url use_tls endpoint bucket repo_id).

Definition handled (cfg : config) (restic_bin repo_id p : string) (tr : list entry) : Prop :=
  gone p tr \/ exists url, repo_url_of cfg repo_id = Ok url /\ sent restic_bin url p tr.

(** The counts of a finished job add up. *)
Definition accounted (repo_id : string) (paths : list string) (res : repo_result) : Prop :=
  rr_repo_id res = repo_id /\ rr_total res = len paths /\
  rr_backed_up res + rr_skipped res + rr_errors res = len paths /\
  0 <= rr_backed_up res /\ 0 <= rr_skipped res /\ 0 <= rr_errors res.

(** What a finished job of the pool guarantees.  A path with a line feed is not
    one line of the list file. *)
Definition job_post (cfg : config) (restic_bin repo_id : string) (paths : list string)
    (r : result repo_result) (tr : list entry) : Prop :=
  match r with
  | Ok res =>
      accounted repo_id paths res /\
      (rr_errors res = 0 -> forall p, p ∈ paths -> lacks (chr 10) p = true ->
       handled cfg restic_bin repo_id p tr)
  | _ => True
  end.

(** The calls a job makes. *)
Definition job_call (c : call) : Prop :=
  match c with
  | SubprocessRun _ _ _ | OsPathExists _ | TempFile _ | FileWrite _ _ | OsUnlink _
  | TimeSleep _ => True
  | _ => False
  end.

(** ** Lemmas *)

Lemma sent_mono bin url p tr tr' : sent bin url p tr -> tr `prefix_of` tr' -> sent bin url p tr'.
Proof.
  intros (i & j & f & c & e & pr & Hi & Hp & Hij & Hj & Hr) Hpre.
  exists i, j, f, c, e, pr. repeat split; try done; by eapply prefix_lookup_Some.
Qed.

Lemma gone_mono p tr tr' : gone p tr -> tr `prefix_of` tr' -> gone p tr'.
Proof. intros H [l ->]. apply elem_of_app. by left. Qed.

Lemma handled_mono cfg bin rid p tr tr' :
  handled cfg bin rid p tr -> tr `prefix_of` tr' -> handled cfg bin rid p tr'.
Proof.
  intros [H|(url & Hu & H)] Hpre; [left; by eapply gone_mono|right].
  exists url. split; [done|]. by eapply sent_mono.
Qed.

Lemma job_post_mono cfg bin rid paths r tr tr' :
  job_post cfg bin rid paths r tr -> tr `prefix_of` tr' -> job_post cfg bin rid paths r tr'.
Proof.
  destruct r as [res|e|]; [|done..]. intros [Ha Hh] Hpre. split; [done|].
  intros He p Hp Hl. eapply handled_mono; eauto.
Qed.

Lemma in_file_list p l :
  p ∈ l -> lacks (chr 10) p = true -> p ∈ split (chr 10) (file_list l).
Proof.
  unfold file_list, newline. intros Hp Hl.
  assert (l <> []) by (intros ->; by apply elem_of_nil in Hp).
  rewrite split_join_bind by done. apply list_elem_of_bind. exists p.
  rewrite split_lacks by done. split; [|done]. by apply list_elem_of_singleton.
Qed.

(** *** The calls of a job *)

Lemma ensure_only bin url env : only job_call (fun _ _ => True) (ensure bin url env).
Proof. unfold ensure. solve_only; simpl; auto. Qed.

Lemma filter_exists_only paths :
  only job_call (fun _ _ => True) (filter_each (S:=RepoManager) paths (fun p => do (OsPathExists p))).
Proof. induction paths as [|p paths IH]; [done|]. cbn [filter_each]. solve_only; done. Qed.

Lemma attempts_only bin f url env n attempts res :
  only job_call (fun _ _ => True) (restic_attempts bin f url env n attempts res).
Proof.
  revert res. induction attempts as [|a rest IH]; intros res; [done|].
  cbn [restic_attempts]. solve_only; try done; apply IH.
Qed.

Lemma backup_repo_only rid paths cfg env bin :
  only job_call (fun _ _ => True) (backup_repo rid paths cfg env bin).
Proof.
  unfold backup_repo. solve_only; try done;
    first [apply ensure_only|apply filter_exists_only|apply attempts_only].
Qed.

(** *** Jobs as threads *)

Definition grows {W} (a b : logged W) : Prop := trace a `prefix_of` trace b.

#[export] Instance grows_preorder W : PreOrder (@grows W).
Proof.
  split; [intros a; unfold grows; reflexivity|].
  intros a b c. unfold grows. apply transitivity.
Qed.

Section Jobs.
Context {W : Type} (h : handler W) (J : logged W -> Prop).
Context (HJ : forall c lw, job_call c -> J lw -> J (log_handler h c lw).2).

Abbreviation lh := (log_handler h).
Abbreviation jtwp := (twp (S:=RepoManager) lh grows (fun _ => J)).

Abbreviation jbind :=
  (twp_bind (S:=RepoManager) lh grows (PreOrder0:=grows_preorder W) (fun _ => J)).
Abbreviation jmono :=
  (twp_mono (S:=RepoManager) lh grows (PreOrder0:=grows_preorder W) (fun _ => J)).
Abbreviation jret :=
  (twp_ret (S:=RepoManager) lh grows (fun _ => J)).
Abbreviation jfinally :=
  (twp_try_finally (S:=RepoManager) lh grows (PreOrder0:=grows_preorder W) (fun _ => J)).

Lemma log_step c (lw : logged W) :
  trace (lh c lw).2 = (trace lw ++ [Entry c (lh c lw).1])%list.
Proof. unfold log_handler. by destruct (h c (base lw)). Qed.

(** A call's entry comes after everything known before. *)
Lemma job_do c (Q : result (resp c) -> logged W -> Prop) lw :
  job_call c ->
  (forall r tr v, trace lw `prefix_of` tr -> (tr ++ [Entry c r])%list `prefix_of` trace v -> Q r v) ->
  jtwp Q (do c) lw.
Proof.
  intros Hc HQ. apply twp_do. intros s lw' Hle HJ'. unfold grows. rewrite log_step.
  split; [by apply prefix_app_r|]. split; [by apply HJ|].
  intros v Hv. by eapply HQ.
Qed.

(** *** Programs that make job calls only keep the world in order *)
Lemma jtwp_only {A} R (p : prog RepoManager A) lw :
  only job_call R p -> jtwp (fun _ _ => True) p lw.
Proof.
  revert lw. induction p as [a|c k IH|X f k IH]; intros lw Hp; simpl; intros s lw' Hle HJ'; [done| |].
  - destruct Hp as [Hc Hk]. pose proof (HJ c lw' Hc HJ') as HJ2.
    pose proof (log_step c lw') as Ht. destruct (lh c lw') as [r lw2]. simpl in *.
    split; [unfold grows; rewrite Ht; by apply prefix_app_r|]. eauto.
  - destruct (Hp s) as [_ Hk]. destruct (f s) as [x s']. simpl in *. eauto.
Qed.

Lemma filter_exists_twp paths lw :
  jtwp (fun r v => match r with
                   | Ok ex => ex `sublist_of` paths /\
                       forall p, p ∈ paths -> p ∈ ex \/ gone p (trace v)
                   | _ => True
                   end) (filter_each paths (fun p => do (OsPathExists p))) lw.
Proof.
  revert lw. induction paths as [|p paths IH]; intros lw; cbn [filter_each].
  { apply jret. intros v _. split; [done|set_solver]. }
  apply jbind. eapply jmono; [apply (job_do (OsPathExists p)
    (fun r v => match r with Ok false => gone p (trace v) | _ => True end)); [done|]|].
  { intros [[]|e|] tr v _ Hpre; try done. eapply gone_mono; [|exact Hpre].
    apply elem_of_app. right. by apply list_elem_of_singleton. }
  intros [b|e|] lw1 _ Hb; [|done..]. apply jbind.
  eapply jmono; [apply IH|]. intros [ex|e|] lw2 Hle Hf; [|done..].
  destruct Hf as [Hsub Hex].
  apply jret. intros v Hv. split; [destruct b; by constructor|].
  intros q [->|Hq]%elem_of_cons.
  - destruct b; [left; set_solver|right]. eapply gone_mono; [done|]. by etrans.
  - destruct (Hex q Hq); [left; destruct b; set_solver|right]. by eapply gone_mono.
Qed.

Definition written (f content : string) (tr : list entry) : Prop :=
  Entry (FileWrite f content) (Ok tt) ∈ tr.

Lemma written_mono f content tr tr' :
  written f content tr -> tr `prefix_of` tr' -> written f content tr'.
Proof. intros H [l ->]. apply elem_of_app. by left. Qed.

Lemma sent_after bin f url env content proc tr tr' p :
  written f content tr -> p ∈ split (chr 10) content ->
  returncode proc = 0 \/ returncode proc = 3 ->
  (tr ++ [Entry (SubprocessRun (backup_argv bin f url) env (Some 3600)) (Ok proc)])%list
    `prefix_of` tr' ->
  sent bin url p tr'.
Proof.
  intros [i Hi]%list_elem_of_lookup Hp Hr Hpre.
  exists i, (length tr), f, content, env, proc.
  pose proof (lookup_lt_Some _ _ _ Hi) as Hlt.
  repeat split; try done; (eapply prefix_lookup_Some; [|exact Hpre]).
  - by apply lookup_app_l_Some.
  - by rewrite lookup_app_r, Nat.sub_diag.
Qed.

(** One run of restic: done, or go on with the remaining attempts. *)
Lemma attempt_twp bin f url env n attempt rest res content
    (Q : result repo_result -> logged W -> Prop) lw :
  written f content (trace lw) ->
  (forall v, grows lw v -> (forall p, p ∈ split (chr 10) content -> sent bin url p (trace v)) ->
   Q (Ok (set_backed_up n res)) v) ->
  (forall e v, Q (Exc e) v) -> (forall v, Q Running v) ->
  (forall lw', grows lw lw' ->
   jtwp Q (restic_attempts bin f url env n rest
             (if attempt <? max_retries then res else set_errors n res)) lw') ->
  jtwp Q (restic_attempts bin f url env n (attempt :: rest) res) lw.
Proof.
  intros Hw Hok Hexc Hrun Hrest. cbn [restic_attempts].
  set (c := SubprocessRun (backup_argv bin f url) env (Some 3600)).
  apply jbind. eapply jmono; [apply (job_do c (fun r v => match r with
    | Ok proc => returncode proc = 0 \/ returncode proc = 3 ->
                 forall p, p ∈ split (chr 10) content -> sent bin url p (trace v)
    | _ => True end)); [done|]|].
  { intros [proc|e|] tr v Hpre Hpre'; [|done..]. intros Hr p Hp.
    eapply sent_after; [by eapply written_mono|done|exact Hr|exact Hpre']. }
  intros [proc|e|] lw1 Hle Hs; [|by intros..].
  destruct ((returncode proc =? 0) || (returncode proc =? 3)) eqn:Erc.
  { apply jret. intros v Hv. apply Hok; [by etrans|]. intros p Hp.
    eapply sent_mono; [|exact Hv]. apply Hs; [|done]. lia. }
  apply jbind, jret. intros v Hv. destruct (decode (stderr proc)) as [x|e|]; [|by intros..].
  destruct (attempt <? max_retries).
  - apply jbind. eapply jmono; [by apply (job_do (TimeSleep (attempt * 10)) (fun _ _ => True))|].
    intros [u|e|] lw2 Hle2 _; [|by intros..]. apply Hrest. by do 2 (etrans; [done|]).
  - apply Hrest. by etrans.
Qed.

Ltac solve_accounted := unfold accounted, len in *; simpl; repeat split; first [done|lia].

Section Post.
Context (cfg : config) (bin rid : string) (paths : list string).
Abbreviation post := (fun r v => job_post cfg bin rid paths r (trace v)).

Lemma jlift {A} (r : result A) (f : A -> py RepoManager repo_result) lw :
  (forall a v, r = Ok a -> grows lw v -> jtwp post (f a) v) ->
  jtwp post (bind (lift r) f) lw.
Proof.
  intros Hf. apply jbind, jret. intros v Hv. destruct r as [a|e|]; [by apply Hf|by intros..].
Qed.

Lemma jbind_post {A} (Q : A -> logged W -> Prop) (m : py RepoManager A) f lw :
  jtwp (fun r v => match r with Ok a => Q a v | _ => True end) m lw ->
  (forall a v, grows lw v -> Q a v -> jtwp post (f a) v) ->
  jtwp post (bind m f) lw.
Proof.
  intros Hm Hf. apply jbind. eapply jmono; [exact Hm|].
  intros [a|e|] v Hv HQ; [by apply Hf|by intros..].
Qed.

(** The three attempts over a list file that has been written. *)
Lemma attempts_twp f url env existing res lw :
  written f (file_list existing) (trace lw) -> repo_url_of cfg rid = Ok url ->
  existing <> [] -> existing `sublist_of` paths ->
  res = RepoResult rid (len paths) 0 (len paths - len existing) 0 ->
  (forall p, p ∈ paths -> p ∈ existing \/ gone p (trace lw)) ->
  jtwp post (restic_attempts bin f url env (len existing) [1; 2; 3] res) lw.
Proof.
  intros Hw Hu Hne Hsub -> Hex.
  pose proof (sublist_length _ _ Hsub) as Hlen.
  assert (0 < len existing <= len paths) as Hpos.
  { unfold len. destruct existing; [done|]. simpl in *. lia. }
  assert (Hok : forall v, grows lw v ->
    (forall p, p ∈ split (chr 10) (file_list existing) -> sent bin url p (trace v)) ->
    post (Ok (set_backed_up (len existing)
      (RepoResult rid (len paths) 0 (len paths - len existing) 0))) v).
  { intros v H1 Hs. split; [solve_accounted|].
    intros _ p Hp Hl. destruct (Hex p Hp) as [Hin|Hg].
    - right. exists url. split; [done|]. by apply Hs, in_file_list.
    - left. by eapply gone_mono. }
  assert (Hw' : forall lw', grows lw lw' -> written f (file_list existing) (trace lw'))
    by (intros lw' Hle; by eapply written_mono).
  assert (Hstep : forall attempt rest res' lw0, grows lw lw0 ->
    set_backed_up (len existing) res' = set_backed_up (len existing)
      (RepoResult rid (len paths) 0 (len paths - len existing) 0) ->
    (forall lw', grows lw lw' -> jtwp post (restic_attempts bin f url env (len existing) rest
       (if attempt <? max_retries then res' else set_errors (len existing) res')) lw') ->
    jtwp post (restic_attempts bin f url env (len existing) (attempt :: rest) res') lw0).
  { intros attempt rest res' lw0 H0 Hres Hrest.
    eapply attempt_twp; [by apply Hw'| |done|done|].
    - intros v Hv. rewrite Hres. apply Hok. by etrans.
    - intros lw' Hle. apply Hrest. by etrans. }
  do 3 (apply Hstep; [first [done|reflexivity]|done|intros ? ?;
    match goal with |- context [?a <? max_retries] =>
      let b := eval vm_compute in (a <? max_retries) in
      change (a <? max_retries) with b; cbv iota end]).
  apply jret. intros v Hv. split; [solve_accounted|]. simpl. lia.
Qed.

Lemma backup_repo_twp env lw : jtwp post (backup_repo rid paths cfg env bin) lw.
Proof.
  unfold backup_repo.
  apply jlift. intros endpoint lw1 E1 _. apply jlift. intros bucket lw2 E2 _.
  apply jlift. intros tls lw3 E3 _. cbv zeta.
  assert (Hu : repo_url_of cfg rid = Ok (s3_url tls endpoint bucket rid))
    by (unfold repo_url_of; by rewrite E1, E2, E3).
  apply (jbind_post (fun _ _ => True)).
  { eapply jmono; [eapply jtwp_only, ensure_only|]. by intros []. }
  intros ready lw4 _ _. destruct ready; cbn [negb].
  2: { apply jret. intros v Hv. split; [solve_accounted|].
       simpl. unfold len. intros Hz p Hp. destruct paths; [by apply elem_of_nil in Hp|done]. }
  eapply jbind_post; [apply filter_exists_twp|]. intros existing lw5 _ [Hsub Hex].
  destruct existing as [|p0 ps] eqn:Ee.
  { apply jret. intros v Hv. split; [solve_accounted|].
    intros _ p Hp _. left. destruct (Hex p Hp) as [Hin|Hg]; [by apply elem_of_nil in Hin|].
    by eapply gone_mono. }
  rewrite <-Ee in *. assert (existing <> []) by (by rewrite Ee). clear Ee p0 ps.
  apply (jbind_post (fun _ _ => True)); [by apply job_do; [|intros [] ]|]. intros f lw6 H6 _.
  apply (jbind_post (fun _ v => written f (file_list existing) (trace v))).
  { apply job_do; [done|]. intros [[]|e|] tr v _ [l Hl]; [|done..].
    unfold written. rewrite Hl, !elem_of_app. left. right. by apply list_elem_of_singleton. }
  intros [] lw7 H7 Hw. apply jfinally.
  eapply jmono; [apply (attempts_twp _ _ _ _ _ _ Hw Hu)|]; try done.
  { intros p Hp. destruct (Hex p Hp) as [?|Hg]; [by left|right].
    eapply gone_mono; [exact Hg|]. by etrans. }
  intros r lw8 _ Hr.
  assert (Hfin : jtwp (fun fr v' => forall v, grows v' v ->
     post (match fr with Ok _ => r | Exc e => Exc e | Running => Running end) v)
     (do (OsUnlink f)) lw8).
  { apply job_do; [done|]. intros [[]|e|] tr v Hp1 Hp2 v' Hv'; [|done..].
    eapply job_post_mono; [exact Hr|]. etrans; [exact Hp1|].
    etrans; [by apply prefix_app_r|]. by etrans. }
  by destruct r.
Qed.
End Post.
End Jobs.

(** *** Repository ids *)

Lemma get_repo_id_parts path base depth rid :
  get_repo_id path base depth = Some rid <->
  exists rel, path = base ++ "/" ++ rel /\
    depth <= len (split slash rel) /\ rid = join "/" (slice_to depth (split slash rel)).
Proof.
  unfold get_repo_id, len. split.
  - destruct (startswith path (base ++ "/")) eqn:E; simpl; [|done].
    apply startswith_inv in E as [rel ->].
    assert (String.length base + 1 = String.length (base ++ "/"))%nat as ->
      by (by rewrite length_app_str).
    rewrite drop_app. destruct (Z.ltb_spec (Z.of_nat (length (split slash rel))) depth); [done|].
    intros [= <-]. exists rel. by rewrite app_assoc_str.
  - intros (rel & -> & Hd & ->). rewrite <-app_assoc_str, startswith_app. simpl.
    assert (String.length base + 1 = String.length (base ++ "/"))%nat as ->
      by (by rewrite length_app_str).
    rewrite drop_app. by destruct (Z.ltb_spec (Z.of_nat (length (split slash rel))) depth); [lia|].
Qed.

(** ** Properties *)

(** C34. [get_repo_id], for a configured depth of at least 0: a path has a
    repository exactly when it is [base] followed by at least [depth] path
    components, and the repository id is the first [depth] of them; any other
    path has none. *)
Theorem get_repo_id_components path base depth rid :
  0 <= depth ->
  get_repo_id path base depth = Some rid <->
  exists comps, comps <> [] /\ Forall (fun c => lacks slash c = true) comps /\
    path = base ++ "/" ++ join "/" comps /\ depth <= len comps /\
    rid = join "/" (take (Z.to_nat depth) comps).
Proof.
  intros Hd. rewrite get_repo_id_parts. unfold slice_to.
  destruct (Z.leb_spec 0 depth); [|lia]. split.
  - intros (rel & -> & Hl & ->). exists (split slash rel).
    split; [apply split_not_nil|]. split; [apply split_parts_lack|].
    by rewrite (join_split slash).
  - intros (comps & Hne & Hall & -> & Hl & ->). exists (join "/" comps).
    change "/" with (String slash ""). by rewrite (split_join slash).
Qed.

(** Everything below a directory that has a repository goes to that same
    repository: no subtree below the configured depth is split. *)
Theorem repo_of_descendants dir base depth rid rel :
  get_repo_id dir base depth = Some rid -> 0 <= depth ->
  get_repo_id (dir ++ "/" ++ rel) base depth = Some rid.
Proof.
  intros (rel0 & -> & Hl & ->)%get_repo_id_parts Hd. apply get_repo_id_parts.
  exists (rel0 ++ "/" ++ rel). split; [by rewrite !app_assoc_str|].
  change ("/" ++ rel) with (String slash rel). rewrite split_app_any. unfold len in *.
  rewrite length_app. split; [lia|]. unfold slice_to.
  destruct (Z.leb_spec 0 depth); [|lia]. by rewrite take_app_le by lia.
Qed.

(** C17. One job, against any restic, operating system and file system: when it
    returns, the counts of its result add up to the number of paths it was
    given, and a job without errors has dealt with every path that has no line
    feed: the file was found missing, or its path was a line of a list file given to a [restic
    backup] of the right repository that ended with exit code 0 or 3. *)
Theorem backup_repo_result {W} (h : handler W) rid paths cfg env bin m lw res m' lw' :
  run (log_handler h) (backup_repo rid paths cfg env bin) m lw = (Ok res, m', lw') ->
  accounted rid paths res /\
  (rr_errors res = 0 -> forall p, p ∈ paths -> lacks (chr 10) p = true ->
   handled cfg bin rid p (trace lw')).
Proof.
  intros H.
  pose proof (backup_repo_twp h (fun _ => True) ltac:(done) cfg bin rid paths env lw) as Ht.
  eapply (wpc_twp (log_handler h) grows (fun _ _ => True) (fun _ _ => True)) in Ht;
    [|done|reflexivity|done].
  by destruct (wpc_run _ _ _ _ _ _ _ _ _ Ht H) as [Hp _].
Qed.

(** A path with a line feed is not a line of the list file, whatever the
    other paths are: restic is never told about that file, although the job
    counts it. *)
Theorem newline_path_unlisted p existing :
  lacks (chr 10) p = false -> p ∉ split (chr 10) (file_list existing).
Proof.
  intros Hp Hin. pose proof (split_parts_lack (chr 10) (file_list existing)) as Hall.
  rewrite Forall_forall in Hall. specialize (Hall p Hin). simpl in Hall. congruence.
Qed.

Definition call_of (e : entry) : call := let '(Entry c _) := e in c.

Section Attempts.
Context {W : Type} (h : handler W) (bin f url : string) (env : gmap string string) (n : Z).
Abbreviation R := (SubprocessRun (backup_argv bin f url) env (Some 3600)).

Lemma run_attempt attempt rest res (m : RepoManager) (lw : logged W) :
  run (log_handler h) (restic_attempts bin f url env n (attempt :: rest) res) m lw
  = match log_handler h R lw with
    | (Ok proc, lw1) =>
        if (returncode proc =? 0) || (returncode proc =? 3) then (Ok (set_backed_up n res), m, lw1)
        else match decode (stderr proc) with
             | Ok _ =>
                 if attempt <? max_retries then
                   match log_handler h (TimeSleep (attempt * 10)) lw1 with
                   | (Ok _, lw2) => run (log_handler h) (restic_attempts bin f url env n rest res) m lw2
                   | (Exc e, lw2) => (Exc e, m, lw2)
                   | (Running, lw2) => (Running, m, lw2)
                   end
                 else run (log_handler h) (restic_attempts bin f url env n rest (set_errors n res)) m lw1
             | Exc e => (Exc e, m, lw1)
             | Running => (Running, m, lw1)
             end
    | (Exc e, lw1) => (Exc e, m, lw1)
    | (Running, lw1) => (Running, m, lw1)
    end.
Proof.
  cbn [restic_attempts]. rewrite run_bind, run_do.
  destruct (log_handler h R lw) as [[proc|e|] lw1]; cbn [fst snd]; [|done..].
  destruct ((returncode proc =? 0) || (returncode proc =? 3)); [done|].
  rewrite run_bind. destruct (decode (stderr proc)) as [t|e|]; [|done..]. cbn [lift run]. cbv iota.
  destruct (attempt <? max_retries); [|done]. rewrite run_bind, run_do.
  by destruct (log_handler h (TimeSleep (attempt * 10)) lw1) as [[u|e|] lw2].
Qed.

Lemma log_calls c (lw : logged W) r lw' :
  log_handler h c lw = (r, lw') -> map call_of (trace lw') = (map call_of (trace lw) ++ [c])%list.
Proof.
  intros E. pose proof (log_step h c lw) as Ht. rewrite E in Ht. simpl in Ht.
  by rewrite Ht, map_app.
Qed.
(** The calls of the attempts when every one of them fails. *)
Fixpoint plan (attempts : list Z) : list call :=
  match attempts with
  | [] => []
  | attempt :: rest =>
      R :: (if attempt <? max_retries then TimeSleep (attempt * 10) :: plan rest else plan rest)
  end.

Lemma run_attempts_plan attempts res (m : RepoManager) lw r m' lw' :
  Forall (fun a => a < max_retries) (removelast attempts) ->
  run (log_handler h) (restic_attempts bin f url env n attempts res) m lw = (r, m', lw') ->
  exists k, map call_of (trace lw') = (map call_of (trace lw) ++ take k (plan attempts))%list /\
  match r with
  | Ok res' => res' = set_backed_up n res \/
      (k = length (plan attempts) /\
       res' = if existsb (fun a => negb (a <? max_retries)) attempts then set_errors n res else res)
  | _ => True
  end.
Proof.
  revert res lw. induction attempts as [|a rest IH]; intros res lw Hlast H.
  { injection H as <- _ <-. exists 0%nat. rewrite app_nil_r. split; [done|]. by right. }
  assert (Hrest : Forall (fun a => a < max_retries) (removelast rest)).
  { destruct rest; [constructor|]. by inversion Hlast. }
  rewrite run_attempt in H. destruct (log_handler h R lw) as [a1 lw1] eqn:E1.
  apply log_calls in E1.
  destruct a1 as [proc|e|]; [|injection H as <- _ <-; by exists 1%nat..].
  destruct ((returncode proc =? 0) || (returncode proc =? 3)).
  { injection H as <- _ <-. exists 1%nat. split; [done|]. by left. }
  destruct (decode (stderr proc)) as [t|e|]; [|injection H as <- _ <-; by exists 1%nat..].
  cbn [plan existsb]. destruct (Z.ltb_spec a max_retries) as [Ha|Ha]; cbn [negb orb].
  - destruct (log_handler h (TimeSleep (a * 10)) lw1) as [a2 lw2] eqn:E2. apply log_calls in E2.
    rewrite E1, <-app_assoc in E2.
    destruct a2 as [u|e|]; [|injection H as <- _ <-; by exists 2%nat..].
    destruct (IH _ _ Hrest H) as (k & Hk & Hr). exists (2 + k)%nat. rewrite Hk, E2, <-app_assoc.
    split; [done|]. destruct r; [|done..]. destruct Hr as [Hr|[-> Hr]]; [by left|by right].
  - assert (rest = []) as ->.
    { destruct rest; [done|]. inversion Hlast. lia. }
    injection H as <- _ <-. exists 1%nat. rewrite E1. split; [done|]. by right.
Qed.
End Attempts.

(** C35. Retries: at most three restic runs, with pauses of ten and twenty
    seconds, in this order and with nothing else in between; the paths are
    counted as backed up or, only after the third failed run, as errors. *)
Theorem restic_attempts_bounded {W} (h : handler W) bin f url env n res m lw r m' lw' :
  run (log_handler h) (restic_attempts bin f url env n [1; 2; 3] res) m lw = (r, m', lw') ->
  let R := SubprocessRun (backup_argv bin f url) env (Some 3600) in
  exists k, map call_of (trace lw') =
    (map call_of (trace lw) ++ take k [R; TimeSleep 10; R; TimeSleep 20; R])%list /\
  match r with
  | Ok res' => res' = set_backed_up n res \/ (k = 5%nat /\ res' = set_errors n res)
  | _ => True
  end.
Proof.
  intros H. destruct (run_attempts_plan h bin f url env n [1; 2; 3] _ _ _ _ _ _ ltac:(repeat (apply List.Forall_cons; [reflexivity|]); constructor) H) as (k & Hk & Hr).
  exists (Nat.min k 5). split; [rewrite Hk; f_equal; change 5%nat with (length (plan bin f url env [1; 2; 3]));
    by rewrite <-take_take, firstn_all|].
  destruct r as [res'|e|]; [|done..]. destruct Hr as [->|[-> ->]]; [by left|by right].
Qed.

(** What [ensure] answers for a repository that is not known yet. *)
Definition probe_or_init {W} (h : handler W) (bin url : string) (env : gmap string string)
    (w : W) : result bool * W :=
  match h (SubprocessRun [bin; "cat"; "config"; "-r"; url] env None) w with
  | (Ok c, w1) =>
      if returncode c =? 0 then (Ok true, w1)
      else match h (SubprocessRun [bin; "init"; "-r"; url] env None) w1 with
           | (Ok c2, w2) =>
               (if returncode c2 =? 0 then Ok true
                else rbind (decode (stderr c2)) (fun _ => Ok false), w2)
           | (Exc e, w2) => (Exc e, w2)
           | (Running, w2) => (Running, w2)
           end
  | (Exc e, w1) => (Exc e, w1)
  | (Running, w1) => (Running, w1)
  end.

(** C36. [ensure], run alone, on every branch: a repository that is known makes
    no call; any other is probed and, if the probe fails, initialised, and
    becomes known exactly when that succeeded; nothing else becomes known, and
    whether it returns or raises the repository is no longer noted as being
    initialised. *)
Theorem ensure_outcome {W} (h : handler W) bin url env m w r m' w' :
  run h (ensure bin url env) m w = (r, m', w') ->
  if decide (url ∈ _initialized m) then r = Ok true /\ m' = m /\ w' = w
  else probe_or_init h bin url env w = (r, w') /\
    (r <> Running ->
     ~ (url ∈ default ∅ (_pending m')) /\
     _initialized m' = match r with
                       | Ok true => {[url]} ∪ _initialized m
                       | _ => _initialized m
                       end).
Proof.
  unfold ensure, probe_or_init. rewrite run_bind. simpl run at 1. unfold check_in.
  destruct (decide (url ∈ _initialized m)) as [Hin|Hout]; [by intros [= <- <- <-]|].
  cbv iota beta. rewrite run_try_finally, run_bind, run_do.
  destruct (h _ w) as [[c|e|] w1]; simpl;
    [|intros [= <- <- <-]; simpl; split; [done|intros; split; [set_solver|done]]..].
  destruct (returncode c =? 0); simpl; [intros [= <- <- <-]; split; [done|]; simpl; set_solver|].
  destruct (h _ w1) as [[c2|e|] w2]; simpl;
    [|intros [= <- <- <-]; simpl; split; [done|intros; split; [set_solver|done]]..].
  destruct (returncode c2 =? 0); simpl; [intros [= <- <- <-]; split; [done|]; simpl; set_solver|].
  destruct (decode (stderr c2)) as [t|e|]; simpl; intros [= <- <- <-]; (split; [done|]);
    simpl; intros; split; try done; set_solver.
Qed.

(** Two threads, the same repository, and a schedule in which both look before
    either is done. *)
Definition race : py RepoManager (list (result bool)) :=
  pbind (pool 2 [0; 1; 0; 1; 0; 1]%nat
           [ensure "restic" "s3:http://m/b/r" ∅; ensure "restic" "s3:http://m/b/r" ∅])
        (fun l => ret l).

(** [ensure] does not keep two threads from initialising the same
    repository: in this interleaving both run [restic init] on it. *)
Theorem ensure_race :
  let '(_, _, lw) := run (log_handler sim_handler) race new_manager
    (Logged (with_exit (fun argv => if bool_decide ("cat" ∈ argv) then 1 else 0) sim0) []) in
  map call_of (trace lw)
  = [SubprocessRun ["restic"; "cat"; "config"; "-r"; "s3:http://m/b/r"] ∅ None;
     SubprocessRun ["restic"; "cat"; "config"; "-r"; "s3:http://m/b/r"] ∅ None;
     SubprocessRun ["restic"; "init"; "-r"; "s3:http://m/b/r"] ∅ None;
     SubprocessRun ["restic"; "init"; "-r"; "s3:http://m/b/r"] ∅ None].
Proof. vm_compute. reflexivity. Qed.

(** ** Witnesses *)

Lemma get_repo_id_components_witness :
  get_repo_id "/home/stor1/userA/docs/a.txt" "/home" 2 = Some "stor1/userA".
Proof.
  apply (get_repo_id_components _ "/home" 2 "stor1/userA"); [lia|].
  exists ["stor1"; "userA"; "docs"; "a.txt"]. split; [discriminate|].
  split; [repeat constructor|]. split; [reflexivity|]. split; [vm_compute; discriminate|reflexivity].
Defined.

Lemma repo_of_descendants_witness :
  get_repo_id "/home/stor1/userA/docs/a.txt" "/home" 2 = Some "stor1/userA".
Proof.
  apply (repo_of_descendants "/home/stor1/userA" "/home" 2 "stor1/userA" "docs/a.txt");
    [vm_compute; reflexivity|lia].
Defined.

Definition demo_cfg : config :=
  Config None (Some (BackupSection None (Some 2) (Some "/home") (Some 2) None))
    (Some (MinioSection (Some "minio:9000") (Some "backup") None None None))
    (Some (Some "redis://redis:6379/0")) None None.

Lemma backup_repo_result_witness :
  let '(r, _, lw) := run (log_handler sim_handler)
    (backup_repo "s/u" ["/home/s/u/a"; "/home/s/u/b"] demo_cfg ∅ "restic") new_manager
    (Logged (with_files ["/home/s/u/a"] sim0) []) in
  r = Ok (RepoResult "s/u" 2 1 1 0) /\
  handled demo_cfg "restic" "s/u" "/home/s/u/a" (trace lw).
Proof.
  destruct (run (log_handler sim_handler)
    (backup_repo "s/u" ["/home/s/u/a"; "/home/s/u/b"] demo_cfg ∅ "restic") new_manager
    (Logged (with_files ["/home/s/u/a"] sim0) [])) as [[r m'] lw] eqn:E.
  assert (r = Ok (RepoResult "s/u" 2 1 1 0)) as -> by (vm_compute in E; congruence).
  split; [reflexivity|].
  destruct (backup_repo_result sim_handler _ _ _ _ _ _ _ _ _ _ E) as [_ H].
  apply H; [reflexivity|left|reflexivity].
Defined.

Lemma newline_path_unlisted_witness :
  String "a" newline ∉ split (chr 10) (file_list [String "a" newline; "b"]).
Proof. apply (newline_path_unlisted (String "a" newline)). reflexivity. Defined.

Lemma restic_attempts_bounded_witness :
  let '(r, _, lw) := run (log_handler sim_handler)
    (restic_attempts "restic" "f" "s3:u" ∅ 2 [1; 2; 3] (RepoResult "s/u" 3 0 1 0)) new_manager
    (Logged (with_exit (fun _ => 1) sim0) []) in
  r = Ok (RepoResult "s/u" 3 0 1 2) /\ exists k, map call_of (trace lw) = take k
    [SubprocessRun (backup_argv "restic" "f" "s3:u") ∅ (Some 3600); TimeSleep 10;
     SubprocessRun (backup_argv "restic" "f" "s3:u") ∅ (Some 3600); TimeSleep 20;
     SubprocessRun (backup_argv "restic" "f" "s3:u") ∅ (Some 3600)].
Proof.
  destruct (run (log_handler sim_handler)
    (restic_attempts "restic" "f" "s3:u" ∅ 2 [1; 2; 3] (RepoResult "s/u" 3 0 1 0)) new_manager
    (Logged (with_exit (fun _ => 1) sim0) [])) as [[r m'] lw] eqn:E.
  destruct (restic_attempts_bounded sim_handler _ _ _ _ _ _ _ _ _ _ _ E) as (k & Hk & _).
  split; [vm_compute in E; congruence|]. exists k. exact Hk.
Defined.

Lemma ensure_outcome_witness :
  let '(r, m', _) := run sim_handler (ensure "restic" "s3:u" ∅) new_manager sim0 in
  r = Ok true /\ _initialized m' = {["s3:u"]} ∪ ∅.
Proof.
  destruct (run sim_handler (ensure "restic" "s3:u" ∅) new_manager sim0) as [[r m'] w'] eqn:E.
  assert (r = Ok true) as Hr by (vm_compute in E; congruence). split; [exact Hr|].
  pose proof (ensure_outcome sim_handler _ _ _ _ _ _ _ _ E) as H.
  destruct (decide ("s3:u" ∈ _initialized new_manager)) as [Hin|_];
    [by apply (not_elem_of_empty (C:=gset string) "s3:u") in Hin|].
  subst r. destruct H as [_ H]. apply H. discriminate.
Defined.
