(* ===== verification/Backup.v ===== *)
(** [backup/backup.py], second part: the lock, the run that takes the pending
    paths through the worker pool, and [main].

    [fuel] bounds the iterations of the [HSCAN] loop.  [sched] and [order] are
    the choices of the thread pool: which running job makes the next step, and
    in which order [as_completed] hands out that many futures. *)
From S2P Require Import Prelude PyStr PyVal Config Effects Semantics Redis Sim Repo.

Local Open Scope string_scope.
Local Open Scope Z_scope.
Local Open Scope py_scope.
#[local] Set Warnings "-clear-no-such-hyp".

(** ** The lock *)

Definition LOCK_KEY : string := "backup:lock".
Definition LOCK_TTL : Z := 7200.

Definition acquire_lock {S} : py S bool :=
  let* node_id := do GetHostname in
  let* acquired := do (RedisSetNX LOCK_KEY node_id LOCK_TTL) in
  if negb acquired then do (RedisGet LOCK_KEY) ;; ret false
  else ret true.

Definition release_lock {S} : py S unit :=
  do (RedisDelete LOCK_KEY) ;; ret tt.

(** ** The work list *)

(** The dict [tasks], in insertion order. *)
Definition task_map := list (string * list string).

(** [tasks.setdefault(repo_id, []).append(path)] *)
Fixpoint add_task (repo_id path : string) (tasks : task_map) : task_map :=
  match tasks with
  | [] => [(repo_id, [path])]
  | (r, paths) :: ts =>
      if String.eqb r repo_id then (r, paths ++ [path])%list :: ts
      else (r, paths) :: add_task repo_id path ts
  end.

(** [tasks[repo_id]] *)
Fixpoint task_paths (tasks : task_map) (repo_id : string) : list string :=
  match tasks with
  | [] => []
  | (r, paths) :: ts => if String.eqb r repo_id then paths else task_paths ts repo_id
  end.

(** The variables of the scan loop. *)
Record scan := Scan {
  sc_cursor : Z;
  sc_tasks : task_map;
  sc_skipped : Z;
  sc_total : Z
}.

(** The body of [for path in items]. *)
Definition scan_item (base : string) (depth : Z) (st : scan) (path : string) : scan :=
  match get_repo_id path base depth with
  | None => Scan (sc_cursor st) (sc_tasks st) (sc_skipped st + 1) (sc_total st + 1)
  | Some repo_id =>
      Scan (sc_cursor st) (add_task repo_id path (sc_tasks st)) (sc_skipped st) (sc_total st + 1)
  end.

Definition scan_items (base : string) (depth cursor : Z) (items : list string) (st : scan) : scan :=
  foldl (scan_item base depth) (Scan cursor (sc_tasks st) (sc_skipped st) (sc_total st)) items.

Definition hscan_loop {S} (fuel : nat) (base : string) (depth : Z) (st : scan) : py S scan :=
  while_true fuel (fun st =>
    let* reply := do (RedisHScan "processing" (sc_cursor st) 10000) in
    let '(cursor, items) := reply in
    let st := scan_items base depth cursor items.*1 st in
    if cursor =? 0 then ret (inr st) else ret (inl st)) st.

(** ** The environment of restic *)

Definition env_default {S} (key : string) (fallback : result string)
    (env : gmap string string) : py S (gmap string string) :=
  match env !! key with
  | Some _ => ret env
  | None => let* v := lift fallback in ret (<[key := v]> env)
  end.

Definition build_env {S} (cfg : config) : py S (gmap string string) :=
  let* env := do OsEnviron in
  let* env := env_default "RESTIC_PASSWORD" (get_restic_password cfg) env in
  let* env := env_default "AWS_ACCESS_KEY_ID" (get_access_key cfg) env in
  env_default "AWS_SECRET_ACCESS_KEY" (get_secret_key cfg) env.

(** ** Results *)

(** The dict [total] and the list [failed_repos]. *)
Record summary := Summary {
  backed_up : Z;
  skipped : Z;
  errors : Z;
  failed_repos : list string
}.

Definition no_results : summary := Summary 0 0 0 [].

(** One future of [as_completed]. *)
Definition account (task : string * list string) (r : result repo_result) (s : summary)
    : result summary :=
  match r with
  | Ok res =>
      Ok (Summary (backed_up s + rr_backed_up res) (skipped s + rr_skipped res)
            (errors s + rr_errors res)
            (if 0 <? rr_errors res then failed_repos s ++ [task.1] else failed_repos s)%list)
  | Exc e =>
      if is_Exception e then
        Ok (Summary (backed_up s) (skipped s) (errors s + len task.2)
              (failed_repos s ++ [task.1])%list)
      else Exc e
  | Running => Running
  end.

Fixpoint collect (done_jobs : list ((string * list string) * result repo_result)) (s : summary)
    : result summary :=
  match done_jobs with
  | [] => Ok s
  | (task, r) :: rest => let? s' := account task r s in collect rest s'
  end.

Definition is_running {A} (r : result A) : bool :=
  match r with Running => true | _ => false end.

(** The [with ThreadPoolExecutor(...)] block: its end waits for every job. *)
Definition run_pool (workers : Z) (sched : list nat) (order : nat -> list nat) (tasks : task_map) (cfg : config)
    (env : gmap string string) (restic_bin : string) : py RepoManager summary :=
  if workers <=? 0 then raise ValueError
  else
    pbind (pool (Z.to_nat workers) sched
             ((fun t => backup_repo t.1 t.2 cfg env restic_bin) <$> tasks))
      (fun results =>
         if existsb is_running results then Ret Running
         else Ret (collect (omap (fun i => zip tasks results !! i) (order (length tasks))) no_results)).

(** The commands that put the failed repositories' paths back. *)
Definition restore_pipeline (tasks : task_map) (failed : list string) : list pcmd :=
  failed ≫= (fun repo_id =>
    (fun path => PHSet "pending" (VStr path) (VStr "retry")) <$> task_paths tasks repo_id).

(** [f"{t:.1f}"], for a difference of times: one decimal, ties to even. *)
Definition tenths (t : Z) : Z :=
  let q := 10 * t / tick in
  let r := 10 * t mod tick in
  if 2 * r <? tick then q
  else if tick <? 2 * r then q + 1
  else if Z.even q then q else q + 1.

Definition fmt_1f (t : Z) : string :=
  let n := tenths (Z.abs t) in
  (if t <? 0 then "-" else "") ++ str_of_Z (n / 10) ++ "." ++ str_of_Z (n mod 10).

(** [int(t)], for a time *)
Definition int_of_time (t : Z) : Z := Z.quot t tick.

(** ** [run_backup] *)

(** Steps 0 and 1: take over an interrupted run's [processing], or rename
    [pending]; [false] when there is nothing to do. *)
Definition swap_pending {S} : py S bool :=
  let* n := do (RedisExists "processing") in
  if negb (n =? 0) then ret true
  else
    try_except (do (RedisRename "pending" "processing") ;; ret true)
      (fun e => if is_ResponseError e then Some (ret false) else None).

(** Steps 6 to 8: restore the failed repositories' paths, delete [processing],
    record the run. *)
Definition finish {S} (tasks : task_map) (total : summary) (start_time : Z) : py S unit :=
  (match failed_repos total with
   | [] => ret tt
   | failed => do (RedisPipeline (restore_pipeline tasks failed))
   end) ;;
  do (RedisDelete "processing") ;;
  let* t := do TimeTime in
  let duration := t - start_time in
  let* t2 := do TimeTime in
  do (RedisHSetMapping "backup:last_run"
        [("timestamp", str_of_Z (int_of_time t2));
         ("backed_up", str_of_Z (backed_up total));
         ("skipped", str_of_Z (skipped total));
         ("errors", str_of_Z (errors total));
         ("repos", str_of_Z (len tasks));
         ("duration", fmt_1f duration)]) ;;
  ret tt.

(** Steps 2 to 8. *)
Definition process_tasks (fuel : nat) (sched : list nat) (order : nat -> list nat) (cfg : config)
    (start_time : Z) : py RepoManager unit :=
  let* base := lift (get_base_path cfg) in
  let* depth := lift (get_repo_depth cfg) in
  let* st := hscan_loop fuel base depth (Scan 0 [] 0 0) in
  let tasks := sc_tasks st in
  let* env := build_env cfg in
  let* restic_bin := lift (get_restic_binary cfg) in
  modify (fun _ => new_manager) ;;
  let* workers := lift (get_workers cfg) in
  let* total := run_pool workers sched order tasks cfg env restic_bin in
  finish tasks total start_time.

Definition _run_backup_inner (fuel : nat) (sched : list nat) (order : nat -> list nat) (cfg : config)
    (start_time : Z) : py RepoManager unit :=
  let* go := swap_pending in
  if negb go then ret tt else process_tasks fuel sched order cfg start_time.

Definition run_backup (fuel : nat) (sched : list nat) (order : nat -> list nat) (cfg : config) : py RepoManager unit :=
  let* acquired := acquire_lock in
  if negb acquired then ret tt
  else
    let* start_time := do TimeTime in
    try_finally (_run_backup_inner fuel sched order cfg start_time) release_lock.

(** [for attempt in range(1, max_retries + 1): ...] of [main]. *)
Fixpoint connect_attempts {S} (cfg : config) (attempts : list Z) : py S unit :=
  match attempts with
  | [] => ret tt
  | attempt :: rest =>
      let* connected :=
        try_except
          (let* url := lift (get_redis_url cfg) in
           do (RedisFromUrl url) ;; do RedisPing ;; ret true)
          (fun e => if is_conn_or_timeout e
                    then Some (if attempt =? max_retries then raise (SystemExit 1)
                               else do (TimeSleep (attempt * 10)) ;; ret false)
                    else None) in
      if connected : bool then ret tt else connect_attempts cfg rest
  end.

Definition main (fuel : nat) (sched : list nat) (order : nat -> list nat) : py RepoManager unit :=
  let* path := config_path in
  let* cfg := do (TomlLoad path) in
  connect_attempts cfg [1; 2; 3] ;;
  do (RedisHLen "pending") ;;
  run_backup fuel sched order cfg.

(** ** Lemmas on the work list *)

Lemma task_paths_add_eq rid p tasks :
  task_paths (add_task rid p tasks) rid = (task_paths tasks rid ++ [p])%list.
Proof.
  induction tasks as [|[r ps] ts IH]; simpl; [by rewrite String.eqb_refl|].
  destruct (String.eqb r rid) eqn:E; simpl; by rewrite E.
Qed.

Lemma task_paths_add_ne rid rid' p tasks :
  rid <> rid' -> task_paths (add_task rid p tasks) rid' = task_paths tasks rid'.
Proof.
  intros Hne. induction tasks as [|[r ps] ts IH]; simpl.
  { by rewrite (proj2 (String.eqb_neq _ _) Hne). }
  destruct (String.eqb r rid) eqn:E; simpl; [|by rewrite IH].
  apply String.eqb_eq in E as ->. by rewrite (proj2 (String.eqb_neq _ _) Hne).
Qed.

Lemma task_paths_lookup tasks rid p :
  p ∈ task_paths tasks rid -> exists i, tasks !! i = Some (rid, task_paths tasks rid).
Proof.
  induction tasks as [|[r ps] ts IH]; simpl; [by intros ?%elem_of_nil|].
  destruct (String.eqb_spec r rid) as [->|]; [by exists 0%nat|].
  intros Hp. destruct (IH Hp) as [i Hi]. by exists (Datatypes.S i).
Qed.

Lemma add_task_keys rid p tasks :
  (add_task rid p tasks).*1 = if decide (rid ∈ tasks.*1) then tasks.*1 else (tasks.*1 ++ [rid])%list.
Proof.
  induction tasks as [|[r ps] ts IH]; csimpl; [done|].
  destruct (String.eqb_spec r rid) as [->|Hne]; csimpl.
  { rewrite decide_True; [done|set_solver]. }
  rewrite IH. repeat case_decide; set_solver.
Qed.

Lemma add_task_paths rid p tasks :
  (add_task rid p tasks) ≫= snd ≡ₚ p :: (tasks ≫= snd).
Proof.
  induction tasks as [|[r ps] ts IH]; simpl; [done|].
  destruct (String.eqb r rid); simpl.
  - rewrite <-app_assoc. simpl. by rewrite <-Permutation_middle.
  - rewrite IH. by rewrite <-Permutation_middle.
Qed.

(** The work list after scanning [items] is made of exactly the mapped ones. *)
Definition mapped (base : string) (depth : Z) (items : list string) : list string :=
  filter (fun p => is_Some (get_repo_id p base depth)) items.

Record scan_ok (base : string) (depth : Z) (items : list string) (st : scan) : Prop := ScanOk {
  so_keys : NoDup (sc_tasks st).*1;
  so_paths : sc_tasks st ≫= snd ≡ₚ mapped base depth items;
  so_repo : Forall (fun t => t.2 <> [] /\
                     Forall (fun p => get_repo_id p base depth = Some t.1) t.2) (sc_tasks st);
  so_total : sc_total st = len items;
  so_skipped : sc_skipped st + len (sc_tasks st ≫= snd) = len items
}.

Lemma add_task_repo (P : string -> string -> Prop) rid p tasks :
  P rid p -> Forall (fun t : string * list string => t.2 <> [] /\ Forall (P t.1) t.2) tasks ->
  Forall (fun t => t.2 <> [] /\ Forall (P t.1) t.2) (add_task rid p tasks).
Proof.
  intros Hp. induction 1 as [|[r ps] ts [Hne Hps] Hts IH]; simpl; [by repeat constructor|].
  destruct (String.eqb_spec r rid) as [->|]; (constructor; [|done]); simpl in *; [|done].
  split; [by destruct ps|]. apply Forall_app. split; [done|by constructor].
Qed.

Lemma mapped_snoc base depth items p :
  mapped base depth (items ++ [p]) =
  (mapped base depth items ++ match get_repo_id p base depth with Some _ => [p] | None => [] end)%list.
Proof.
  unfold mapped. rewrite list.filter_app. f_equal. destruct (get_repo_id p base depth) eqn:E.
  - rewrite filter_cons_True by (rewrite E; eauto). done.
  - rewrite filter_cons_False; [done|]. rewrite E. by intros [].
Qed.

Lemma scan_item_ok base depth items st p :
  scan_ok base depth items st -> scan_ok base depth (items ++ [p]) (scan_item base depth st p).
Proof.
  intros [Hk Hp Hr Ht Hs]. unfold scan_item, len in *. pose proof (mapped_snoc base depth items p) as Hm.
  destruct (get_repo_id p base depth) as [rid|] eqn:E; split; simpl; unfold len; rewrite ?length_app; simpl.
  - rewrite add_task_keys. case_decide; [done|]. apply NoDup_app.
    split; [done|]. split; [set_solver|apply NoDup_singleton].
  - rewrite add_task_paths, Hp, Hm. by rewrite <-Permutation_cons_append.
  - by apply (add_task_repo (fun r q => get_repo_id q base depth = Some r)).
  - lia.
  - rewrite add_task_paths. simpl. lia.
  - done.
  - by rewrite Hm, app_nil_r.
  - done.
  - lia.
  - lia.
Qed.

Lemma scan_items_ok base depth cursor old items st :
  scan_ok base depth old st -> scan_ok base depth (old ++ items) (scan_items base depth cursor items st).
Proof.
  intros H. unfold scan_items.
  assert (scan_ok base depth old (Scan cursor (sc_tasks st) (sc_skipped st) (sc_total st)))
    as H' by (by destruct H).
  clear H. revert old H'. generalize (Scan cursor (sc_tasks st) (sc_skipped st) (sc_total st)).
  clear st. induction items as [|p items IH]; intros st old H; simpl; [by rewrite app_nil_r|].
  rewrite cons_middle, app_assoc. apply IH. by apply scan_item_ok.
Qed.

Lemma scan_items_cursor base depth cursor items st :
  sc_cursor (scan_items base depth cursor items st) = cursor.
Proof.
  unfold scan_items. generalize (sc_tasks st) (sc_skipped st) (sc_total st).
  induction items as [|p items IH]; intros t k n; [done|]. simpl. unfold scan_item at 2. simpl.
  destruct (get_repo_id p base depth); apply IH.
Qed.

(** A path that has been scanned stays scanned. *)
Definition collected (base : string) (depth : Z) (tasks : task_map) (p : string) : Prop :=
  match get_repo_id p base depth with
  | None => True
  | Some rid => p ∈ task_paths tasks rid
  end.

Lemma scan_item_collected base depth st p q :
  collected base depth (sc_tasks st) q \/ q = p ->
  collected base depth (sc_tasks (scan_item base depth st p)) q.
Proof.
  unfold collected, scan_item. destruct (get_repo_id q base depth) as [rid|] eqn:Eq; [|done].
  intros [H| ->]; [|rewrite Eq; simpl; rewrite task_paths_add_eq; set_solver].
  destruct (get_repo_id p base depth) as [rid'|]; simpl; [|done].
  destruct (decide (rid' = rid)) as [->|].
  - rewrite task_paths_add_eq. set_solver.
  - by rewrite task_paths_add_ne.
Qed.

Lemma scan_items_collected base depth cursor items st q :
  collected base depth (sc_tasks st) q \/ q ∈ items ->
  collected base depth (sc_tasks (scan_items base depth cursor items st)) q.
Proof.
  unfold scan_items. intros H.
  assert (collected base depth (sc_tasks (Scan cursor (sc_tasks st) (sc_skipped st) (sc_total st))) q
          \/ q ∈ items) as H' by done. clear H. revert H'.
  generalize (Scan cursor (sc_tasks st) (sc_skipped st) (sc_total st)). clear st.
  induction items as [|p items IH]; intros st [H|H]; simpl; try done; [by apply elem_of_nil in H|..];
    apply IH.
  - left. apply scan_item_collected. by left.
  - apply elem_of_cons in H as [->|H]; [|by right]. left. apply scan_item_collected. by right.
Qed.

(** ** Lemmas on the results *)

Lemma omap_lookup_seq {A} (l : list A) : omap (fun i => l !! i) (seq 0 (length l)) = l.
Proof.
  induction l as [|a l IH]; [done|]. cbn [length seq omap list_omap].
  assert (H : forall js : list nat, omap (fun i => (a :: l) !! i) (Datatypes.S <$> js) = omap (fun i => l !! i) js).
  { intros js. induction js as [|i js IHi]; [done|]. rewrite fmap_cons.
    cbn [omap list_omap]. cbn [omap list_omap] in IHi. rewrite IHi. done. }
  rewrite <-fmap_S_seq. specialize (H (seq 0 (length l))). rewrite IH in H.
  cbn [omap list_omap] in H |- *. simpl lookup at 1. cbv iota. by rewrite H.
Qed.

Lemma omap_lookup_perm {A} (l : list A) order :
  order ≡ₚ seq 0 (length l) -> omap (fun i => l !! i) order ≡ₚ l.
Proof. intros ->. by rewrite omap_lookup_seq. Qed.

Lemma collect_failed jobs s s' :
  collect jobs s = Ok s' ->
  (forall x, x ∈ failed_repos s -> x ∈ failed_repos s') /\
  forall t r, (t, r) ∈ jobs ->
    t.1 ∈ failed_repos s' \/ exists res, r = Ok res /\ rr_errors res <= 0.
Proof.
  revert s. induction jobs as [|[t r] jobs IH]; intros s; simpl.
  { intros [= <-]. split; [done|]. by intros ? ? ?%elem_of_nil. }
  destruct (account t r s) as [s1|e|] eqn:Ea; simpl; [|done..].
  intros Hc. destruct (IH s1 Hc) as [Hmono Hjobs].
  assert (Hacc : (forall x, x ∈ failed_repos s -> x ∈ failed_repos s1) /\
    (t.1 ∈ failed_repos s1 \/ exists res, r = Ok res /\ rr_errors res <= 0)).
  { unfold account in Ea. destruct r as [res|e|]; [| |done].
    - injection Ea as <-. simpl. destruct (Z.ltb_spec 0 (rr_errors res)); [set_solver|eauto].
    - destruct (is_Exception e); [|done]. injection Ea as <-. simpl. set_solver. }
  destruct Hacc as [Hs1 Ht]. split; [eauto|].
  intros t' r' [[= -> ->]|Hin]%elem_of_cons; [|eauto].
  destruct Ht; eauto.
Qed.

Definition jobs_accounted (jobs : list ((string * list string) * result repo_result)) : Prop :=
  Forall (fun j => j.1.2 <> [] /\ forall res, j.2 = Ok res -> accounted j.1.1 j.1.2 res) jobs.

Definition jobs_paths (jobs : list ((string * list string) * result repo_result)) : Z :=
  foldr (fun j n => len j.1.2 + n) 0 jobs.

Lemma collect_totals jobs s s' :
  jobs_accounted jobs -> collect jobs s = Ok s' ->
  backed_up s' + skipped s' + errors s'
  = backed_up s + skipped s + errors s + jobs_paths jobs /\
  errors s <= errors s' /\ backed_up s <= backed_up s' /\ skipped s <= skipped s' /\
  exists l, failed_repos s' = (failed_repos s ++ l)%list /\ (l = [] <-> errors s' = errors s).
Proof.
  intros Hj. revert s. induction Hj as [|[t r] jobs [Hne Hacc] Hjobs IH]; intros s; simpl in *.
  { intros [= <-]. do 4 (split; [lia|]). exists []. by rewrite app_nil_r. }
  destruct (account t r s) as [s1|e|] eqn:Ea; simpl; [|done..].
  intros Hc. destruct (IH s1 Hc) as (H1 & H2 & H3 & H4 & l & Hl & Hz). clear IH Hc.
  assert (0 < len t.2) as Hpos by (unfold len; destruct t.2; [done|simpl; lia]).
  assert (Hone : backed_up s1 + skipped s1 + errors s1
      = backed_up s + skipped s + errors s + len t.2 /\
    errors s <= errors s1 /\ backed_up s <= backed_up s1 /\ skipped s <= skipped s1 /\
    exists k, failed_repos s1 = (failed_repos s ++ k)%list /\ (k = [] <-> errors s1 = errors s)).
  { unfold account in Ea. destruct r as [res|e|]; [| |done].
    - destruct (Hacc res eq_refl) as (_ & _ & Hsum & Hb & Hs & He). injection Ea as <-. simpl in *.
      do 4 (split; [lia|]). destruct (Z.ltb_spec 0 (rr_errors res)).
      + exists [t.1]. split; [done|]. split; [done|lia].
      + exists []. rewrite app_nil_r. split; [done|]. split; [lia|done].
    - destruct (is_Exception e); [|done]. injection Ea as <-. simpl in *.
      do 4 (split; [lia|]). exists [t.1]. split; [done|]. split; [done|lia]. }
  destruct Hone as (G1 & G2 & G3 & G4 & k & Hk & Hkz). do 4 (split; [lia|]).
  exists (k ++ l)%list. rewrite Hl, Hk, app_assoc. split; [done|]. rewrite app_nil.
  rewrite Hkz, Hz. lia.
Qed.

(** *** Putting the failed paths back *)

Definition restore_cmd (c : pcmd) : Prop := exists p, c = PHSet "pending" (VStr p) (VStr "retry").

Lemma restore_pipeline_cmds tasks failed : Forall restore_cmd (restore_pipeline tasks failed).
Proof.
  apply Forall_forall. intros c Hc. unfold restore_pipeline in Hc.
  apply list_elem_of_bind in Hc as (rid & Hc & _).
  apply list_elem_of_fmap in Hc as (p & -> & _). by exists p.
Qed.

Lemma restore_pipeline_in tasks failed rid p :
  rid ∈ failed -> p ∈ task_paths tasks rid ->
  PHSet "pending" (VStr p) (VStr "retry") ∈ restore_pipeline tasks failed.
Proof.
  intros Hr Hp. apply list_elem_of_bind. exists rid. split; [|done].
  apply list_elem_of_fmap. by exists p.
Qed.

Section Restore.
Context (enc : pyval -> option string) (Henc : forall s, enc (VStr s) = Some s).

Lemma exec_restore cmds d :
  Forall restore_cmd cmds ->
  hash (foldl (exec_pcmd enc) d cmds) "processing" = hash d "processing" /\
  (forall p, p ∈ dom (hash d "pending") \/ PHSet "pending" (VStr p) (VStr "retry") ∈ cmds ->
     p ∈ dom (hash (foldl (exec_pcmd enc) d cmds) "pending")).
Proof.
  intros Hcmds. revert d. induction Hcmds as [|c cmds [q ->] _ IH]; intros d; simpl.
  { split; [done|]. intros p [?|H]; [done|by apply elem_of_nil in H]. }
  rewrite !Henc. specialize (IH (set_hash "pending" (<[q:="retry"]> (hash d "pending")) d)).
  destruct IH as [IH1 IH2]. split.
  - by rewrite IH1, hash_set_hash_ne.
  - intros p Hp. apply IH2. rewrite hash_set_hash_eq, dom_insert_L.
    destruct Hp as [Hp|[[= ->]|Hp]%elem_of_cons]; [set_solver|set_solver|by right].
Qed.
End Restore.

(** ** The scan *)

(** The paths the [HSCAN] replies of a trace returned, in order. *)
Definition scanned (tr : list entry) : list string :=
  tr ≫= (fun e => let '(Entry c r) := e in
    match c return result (resp c) -> list string with
    | RedisHScan _ _ _ => fun r => match r with Ok reply => reply.2.*1 | _ => [] end
    | _ => fun _ => []
    end r).

Section Scan.
Context {W : Type} (h : handler W).

Lemma hscan_loop_ok fuel bp depth s (w : W) :
  wpc (log_handler h) (fun (_ : RepoManager) _ => True)
    (fun r _ lw => match r with Ok st => scan_ok bp depth (scanned (trace lw)) st | _ => True end)
    (hscan_loop fuel bp depth (Scan 0 [] 0 0)) s (Logged w []).
Proof.
  unfold hscan_loop.
  apply (wpc_while (log_handler h) _ (fun st _ lw => scan_ok bp depth (scanned (trace lw)) st));
    [done|done| |by split; simpl; repeat constructor].
  intros st s' lw H. set (c := RedisHScan "processing" (sc_cursor st) 10000).
  apply wpc_bind, wpc_do; [done..|]. fold c. pose proof (log_step h c lw) as Ht.
  destruct (log_handler h c lw) as [[[cur items]|e|] lw']; [|done..]. cbn [fst snd] in *.
  assert (Hs : scanned (trace lw') = (scanned (trace lw) ++ items.*1)%list).
  { rewrite Ht. unfold scanned. rewrite bind_app. f_equal. simpl. by rewrite app_nil_r. }
  assert (scan_ok bp depth (scanned (trace lw')) (scan_items bp depth cur items.*1 st))
    by (rewrite Hs; by apply scan_items_ok).
  by destruct (cur =? 0); apply wpc_ret.
Qed.

(** An iteration that answers cursor 0 at its [n+1]-st reply. *)
Inductive scan_ends : nat -> Z -> W -> Prop :=
| ends_now cur w w' items :
    h (RedisHScan "processing" cur 10000) w = (Ok (0, items), w') -> scan_ends 0 cur w
| ends_later n cur cur' w w' items :
    h (RedisHScan "processing" cur 10000) w = (Ok (cur', items), w') -> cur' <> 0 ->
    scan_ends n cur' w' -> scan_ends (Datatypes.S n) cur w.

Lemma hscan_loop_returns n fuel bp depth st (s : RepoManager) w :
  scan_ends n (sc_cursor st) w ->
  is_ok (run h (hscan_loop fuel bp depth st) s w).1.1 = bool_decide (n < fuel)%nat.
Proof.
  revert st w fuel. induction n as [|n IH]; intros st w [|fuel] Hends;
    try (by rewrite bool_decide_eq_false_2 by lia); unfold hscan_loop;
    rewrite run_while, run_bind, run_do; inversion Hends as [? ? w' items E|? ? cur' ? w' items E Hne Hn]; subst;
    rewrite E; cbn [fst snd].
  - rewrite bool_decide_eq_true_2 by lia. done.
  - destruct (Z.eqb_spec cur' 0); [done|]. rewrite run_ret. cbv iota beta.
    rewrite <-(scan_items_cursor bp depth cur' items.*1 st) in Hn.
    specialize (IH _ w' fuel Hn). unfold hscan_loop in IH. rewrite IH.
    apply bool_decide_ext. lia.
Qed.
End Scan.

(** ** Totals *)

Lemma run_pool_totals_wpc {W} (h : handler W) workers sched order tasks cfg env bin s lw :
  (forall n, order n ≡ₚ seq 0 n) -> Forall (fun t => t.2 <> []) tasks ->
  wpc (log_handler h) (fun _ _ => True)
    (fun r _ _ => match r with
       | Ok total =>
           backed_up total + skipped total + errors total = len (tasks ≫= snd) /\
           0 <= backed_up total /\ 0 <= skipped total /\ 0 <= errors total /\
           (failed_repos total = [] <-> errors total = 0)
       | _ => True
       end)
    (run_pool workers sched order tasks cfg env bin) s lw.
Proof.
  intros Hord Hne. unfold run_pool. destruct (workers <=? 0); [done|].
  apply wpc_pbind. set (jobs := _ <$> tasks).
  set (Qs := (fun (t : string * list string) (r : result repo_result) (lw' : logged W) =>
                job_post cfg bin t.1 t.2 r (trace lw')) <$> tasks).
  eapply wpc_mono; [apply (wpc_pool (log_handler h) grows (fun _ _ => True) (fun _ _ => True)
    _ sched Qs jobs s lw lw)|done|]; try done.
  - apply Forall_fmap, Forall_forall. intros t ? r lw1 lw2 Hj Hle. by eapply job_post_mono.
  - apply Forall2_fmap, Forall_Forall2_diag, Forall_forall. intros [rid paths] _.
    by apply (backup_repo_twp h (fun _ => True)).
  - intros results s' lw' _ (Hall & _ & _). apply Forall2_fmap_r in Hall.
    destruct (existsb is_running results); [done|]. split; [done|].
    destruct (collect _ no_results) as [total|e|] eqn:Ec; [|done..].
    assert (Hperm : omap (fun i => zip tasks results !! i) (order (length tasks)) ≡ₚ zip tasks results).
    { apply omap_lookup_perm. rewrite length_zip_with, (Forall2_length _ _ _ Hall), Nat.min_id.
      apply Hord. }
    assert (Hz : jobs_accounted (zip tasks results) /\
                 jobs_paths (zip tasks results) = len (tasks ≫= snd)).
    { clear -Hall Hne. revert results Hall.
      induction Hne as [|t ts Ht Hts IH]; intros results Hall; inversion Hall as [|r ? rs ? Hr Hrs]; subst.
      - split; [constructor|done].
      - destruct (IH rs Hrs) as [IH1 IH2]. split.
        + constructor; [|done]. split; [done|]. simpl. intros res ->. by destruct Hr.
        + rewrite bind_cons. cbn [zip zip_with jobs_paths foldr fst snd]. fold (jobs_paths (zip ts rs)).
          rewrite IH2. unfold len. rewrite length_app. lia. }
    destruct Hz as [Hz1 Hz2]. unfold jobs_accounted in Hz1. rewrite <-Hperm in Hz1.
    destruct (collect_totals _ _ _ Hz1 Ec) as (H1 & H2 & H3 & H4 & l & Hl & Hlz).
    assert (Hjp : forall l1 l2, l1 ≡ₚ l2 -> jobs_paths l1 = jobs_paths l2).
    { intros l1 l2. induction 1; simpl; lia. }
    rewrite (Hjp _ _ Hperm), Hz2 in H1. simpl in *. rewrite Hl. do 4 (split; [lia|]). done.
Qed.

(** ** Properties *)

(** C31. The work list of a run, whatever Redis returns: its repositories are
    distinct, every path in it is in the list of its own repository, together
    the lists hold exactly the scanned paths that have a repository, each as
    often as it was returned; the others are counted as skipped, and no path
    is counted twice or forgotten. *)
Theorem scan_partitions {W} (h : handler W) fuel bp depth (s s' : RepoManager) (w : W) st lw :
  run (log_handler h) (hscan_loop fuel bp depth (Scan 0 [] 0 0)) s (Logged w []) = (Ok st, s', lw) ->
  NoDup (sc_tasks st).*1 /\
  (sc_tasks st ≫= snd) ≡ₚ mapped bp depth (scanned (trace lw)) /\
  Forall (fun t => t.2 <> [] /\ Forall (fun p => get_repo_id p bp depth = Some t.1) t.2) (sc_tasks st) /\
  sc_total st = len (scanned (trace lw)) /\
  sc_skipped st + len (sc_tasks st ≫= snd) = sc_total st.
Proof.
  intros H. pose proof (wpc_run _ _ _ _ _ _ _ _ _ (hscan_loop_ok h fuel bp depth s w) H) as Hok.
  simpl in Hok. destruct Hok. repeat split; try done. congruence.
Qed.

(** C33. The scan loop ends: when Redis's iteration comes back to cursor 0 at
    its [n + 1]-st reply, the loop returns after exactly that many calls. *)
Theorem hscan_terminates {W} (h : handler W) n fuel bp depth st (s : RepoManager) w :
  scan_ends h n (sc_cursor st) w ->
  is_ok (run h (hscan_loop fuel bp depth st) s w).1.1 = bool_decide (n < fuel)%nat.
Proof. apply hscan_loop_returns. Qed.

(** C16. Run totals, for any restic and any interleaving of the jobs: when the
    pool has finished, the paths backed up, skipped and in error add up to the
    number of paths submitted, also when jobs raised exceptions; and there is a
    repository to restore exactly when the error count is not zero. *)
Theorem run_pool_totals {W} (h : handler W) workers sched order tasks cfg env bin s lw total s' lw' :
  (forall n, order n ≡ₚ seq 0 n) -> Forall (fun t => t.2 <> []) tasks ->
  run (log_handler h) (run_pool workers sched order tasks cfg env bin) s lw = (Ok total, s', lw') ->
  backed_up total + skipped total + errors total = len (tasks ≫= snd) /\
  0 <= backed_up total /\ 0 <= skipped total /\ 0 <= errors total /\
  (failed_repos total = [] <-> errors total = 0).
Proof.
  intros Hord Hne H.
  exact (wpc_run _ _ _ _ _ _ _ _ _ (run_pool_totals_wpc h _ _ _ _ _ _ _ _ _ Hord Hne) H).
Qed.

(** C32. A run that has taken the lock gives it up: once [acquire_lock] has
    returned [True] and the start time is read, the last call of a run that
    returns or raises is the deletion of the lock key, whatever happened in
    between. *)
Theorem lock_released {W} (h : handler W) fuel sched order cfg s lw s1 lw1 t lw2 r s' lw' :
  run (log_handler h) acquire_lock s lw = (Ok true, s1, lw1) ->
  log_handler h TimeTime lw1 = (Ok t, lw2) ->
  run (log_handler h) (run_backup fuel sched order cfg) s lw = (r, s', lw') ->
  r <> Running ->
  exists a, last (trace lw') = Some (Entry (RedisDelete LOCK_KEY) a).
Proof.
  intros Hacq Ht. unfold run_backup. rewrite run_bind, Hacq. cbn [negb].
  rewrite run_bind, run_do, Ht. cbn [fst snd]. rewrite run_try_finally.
  destruct (run (log_handler h) (_run_backup_inner fuel sched order cfg t) s1 lw2) as [[ri si] lwi].
  assert (Hlast : forall x y z, run (log_handler h) release_lock si lwi = (x, y, z) ->
    exists a, last (trace z) = Some (Entry (RedisDelete LOCK_KEY) a)).
  { intros x y z. unfold release_lock. rewrite run_bind, run_do. intros Hz.
    exists (log_handler h (RedisDelete LOCK_KEY) lwi).1.
    assert (z = (log_handler h (RedisDelete LOCK_KEY) lwi).2) as ->
      by (destruct (log_handler h (RedisDelete LOCK_KEY) lwi).1;
          [rewrite run_ret in Hz|..]; by injection Hz as _ _ <-).
    by rewrite (log_step h (RedisDelete LOCK_KEY) lwi), last_snoc. }
  destruct (run (log_handler h) release_lock si lwi) as [[rf sf] lwf].
  specialize (Hlast rf sf lwf eq_refl).
  destruct ri as [u|e|]; [destruct rf..|]; intros [= <- <- <-] Hr; done.
Qed.

(** The recorded duration is the nearest tenth of a second, ties to the
    even tenth. *)
Theorem tenths_nearest t :
  0 <= t ->
  2 * Z.abs (10 * t - tenths t * tick) <= tick /\
  (2 * Z.abs (10 * t - tenths t * tick) = tick -> Z.even (tenths t) = true).
Proof.
  intros Ht. unfold tenths. pose proof (Z.div_mod (10 * t) tick ltac:(done)) as Hdm.
  pose proof (Z.mod_pos_bound (10 * t) tick ltac:(done)) as Hb. unfold tick in *.
  set (q := 10 * t / 4194304) in *. set (r := (10 * t) mod 4194304) in *.
  destruct (Z.ltb_spec (2 * r) 4194304); [split; lia|].
  destruct (Z.ltb_spec 4194304 (2 * r)); [split; lia|].
  destruct (Z.even q) eqn:E; (split; [lia|]); [done|].
  intros _. rewrite Z.even_add, E. done.
Qed.

(** An error reply to [RENAME], whatever its reason (a replica that is read
    only, a server out of memory), is taken for an empty [pending]: the run ends
    well after these two commands, and nothing is backed up. *)
Theorem refused_rename_looks_empty {W} (h : handler W) fuel sched order cfg t (s : RepoManager) w w1 w2 :
  h (RedisExists "processing") w = (Ok 0, w1) ->
  h (RedisRename "pending" "processing") w1 = (Exc RedisResponseError, w2) ->
  run h (_run_backup_inner fuel sched order cfg t) s w = (Ok tt, s, w2).
Proof.
  intros H1 H2. unfold _run_backup_inner, swap_pending.
  rewrite run_bind, run_bind, run_do, H1. cbn [fst snd].
  change (negb (0 =? 0)) with false. cbv iota.
  rewrite run_try_except, run_bind, run_do, H2. reflexivity.
Qed.

Lemma connect_refused {W} (h : handler W) cfg url attempt rest (s : RepoManager) w w1 w2 e :
  get_redis_url cfg = Ok url ->
  h (RedisFromUrl url) w = (Ok tt, w1) -> h RedisPing w1 = (Exc e, w2) ->
  is_conn_or_timeout e = true ->
  run h (connect_attempts cfg (attempt :: rest)) s w
  = if attempt =? max_retries then (Exc (SystemExit 1), s, w2)
    else match h (TimeSleep (attempt * 10)) w2 with
         | (Ok _, w3) => run h (connect_attempts cfg rest) s w3
         | (Exc x, w3) => (Exc x, s, w3)
         | (Running, w3) => (Running, s, w3)
         end.
Proof.
  intros Hu H1 H2 He. cbn [connect_attempts].
  rewrite run_bind, run_try_except, run_bind, Hu. cbn [lift run]. cbv iota beta.
  rewrite run_bind, run_do, H1. cbn [fst snd].
  rewrite run_bind, run_do, H2. cbn [fst snd]. rewrite He.
  destruct (attempt =? max_retries); [done|]. rewrite run_bind, run_do.
  by destruct (h (TimeSleep (attempt * 10)) w2) as [[[]|x|] w3].
Qed.

(** [main] gives up after three refused connections: it sleeps ten and
    then twenty seconds between them, and exits with status 1 without touching
    a key. *)
Theorem connect_gives_up {W} (h : handler W) cfg url (s : RepoManager) w wa wb wc wd we wf wg wh e1 e2 e3 :
  get_redis_url cfg = Ok url ->
  h (RedisFromUrl url) w = (Ok tt, wa) -> h RedisPing wa = (Exc e1, wb) ->
  h (TimeSleep 10) wb = (Ok tt, wc) ->
  h (RedisFromUrl url) wc = (Ok tt, wd) -> h RedisPing wd = (Exc e2, we) ->
  h (TimeSleep 20) we = (Ok tt, wf) ->
  h (RedisFromUrl url) wf = (Ok tt, wg) -> h RedisPing wg = (Exc e3, wh) ->
  is_conn_or_timeout e1 = true -> is_conn_or_timeout e2 = true -> is_conn_or_timeout e3 = true ->
  run h (connect_attempts cfg [1; 2; 3]) s w = (Exc (SystemExit 1), s, wh).
Proof.
  intros Hu H1 H2 H3 H4 H5 H6 H7 H8 E1 E2 E3.
  rewrite (connect_refused h cfg url 1 [2; 3] s w wa wb e1) by done.
  change (1 =? max_retries) with false. change (1 * 10) with 10. cbv iota. rewrite H3.
  rewrite (connect_refused h cfg url 2 [3] s wc wd we e2) by done.
  change (2 =? max_retries) with false. change (2 * 10) with 20. cbv iota. rewrite H6.
  by rewrite (connect_refused h cfg url 3 [] s wf wg wh e3).
Qed.

(** ** Witnesses *)

Definition demo_db : redis_db :=
  set_hash "processing" {["/home/s/u/a" := "mtime_change"; "/home/s/u/b" := "rename";
                          "/home/top" := "mtime_change"]} empty_db.

Lemma scan_partitions_witness :
  exists st lw, run (log_handler sim_handler) (hscan_loop 2 "/home" 2 (Scan 0 [] 0 0)) new_manager
                  (Logged (with_db demo_db sim0) []) = (Ok st, new_manager, lw) /\
    sc_total st = 3 /\ sc_skipped st = 1 /\ (sc_tasks st).*1 = ["s/u"] /\
    NoDup (sc_tasks st).*1.
Proof.
  destruct (run (log_handler sim_handler) (hscan_loop 2 "/home" 2 (Scan 0 [] 0 0)) new_manager
                  (Logged (with_db demo_db sim0) [])) as [[r s'] lw] eqn:E.
  pose proof E as E'. vm_compute in E'. injection E' as <- <- <-.
  do 2 eexists. split; [reflexivity|]. do 3 (split; [reflexivity|]).
  exact (proj1 (scan_partitions sim_handler _ _ _ _ _ _ _ _ E)).
Defined.

Lemma hscan_terminates_witness :
  is_ok (run sim_handler (hscan_loop 1 "/home" 2 (Scan 0 [] 0 0)) new_manager
           (with_db demo_db sim0)).1.1 = true.
Proof.
  rewrite (hscan_terminates sim_handler 0); [reflexivity|].
  eapply ends_now. simpl. reflexivity.
Defined.

Lemma run_pool_totals_witness :
  let tasks := [("s/u", ["/home/s/u/a"; "/home/s/u/b"]); ("s/v", ["/home/s/v/c"])] in
  exists total s' lw', run (log_handler sim_handler)
      (run_pool 2 [1; 0; 1; 1]%nat (seq 0) tasks demo_cfg ∅ "restic") new_manager
      (Logged (with_files ["/home/s/u/a"; "/home/s/v/c"]
         (with_exit (fun argv => if bool_decide ("s3:http://minio:9000/backup/s/v" ∈ argv) then 1 else 0)
            sim0)) []) = (Ok total, s', lw') /\
    failed_repos total = ["s/v"] /\
    backed_up total + skipped total + errors total = 3.
Proof.
  intros tasks.
  destruct (run (log_handler sim_handler)
      (run_pool 2 [1; 0; 1; 1]%nat (seq 0) tasks demo_cfg ∅ "restic") new_manager
      (Logged (with_files ["/home/s/u/a"; "/home/s/v/c"]
         (with_exit (fun argv => if bool_decide ("s3:http://minio:9000/backup/s/v" ∈ argv) then 1 else 0)
            sim0)) [])) as [[r s'] lw'] eqn:E.
  assert (exists total, r = Ok total /\ failed_repos total = ["s/v"]) as (total & -> & Hf).
  { vm_compute in E. injection E as <- _ _. eexists. split; reflexivity. }
  exists total, s', lw'. split; [reflexivity|]. split; [exact Hf|].
  apply (run_pool_totals sim_handler _ _ _ _ _ _ _ _ _ _ _ _) in E;
    [exact (proj1 E)|reflexivity|repeat constructor; discriminate].
Defined.

Lemma lock_released_witness :
  let '(_, _, lw') := run (log_handler sim_handler) (run_backup 1 [] (seq 0) demo_cfg) new_manager
                        (Logged sim0 []) in
  exists a, last (trace lw') = Some (Entry (RedisDelete LOCK_KEY) a).
Proof.
  destruct (run (log_handler sim_handler) (run_backup 1 [] (seq 0) demo_cfg) new_manager
              (Logged sim0 [])) as [[r s'] lw'] eqn:E.
  eapply (lock_released sim_handler 1 [] (seq 0) demo_cfg new_manager (Logged sim0 []));
    [reflexivity|reflexivity|exact E|].
  vm_compute in E. injection E as <- _ _. discriminate.
Defined.

Lemma tenths_nearest_witness : tenths (seconds 2 + 1048576) = 22 /\ fmt_1f (seconds 2 + 1048576) = "2.2"
  /\ 2 * Z.abs (10 * (seconds 2 + 1048576) - tenths (seconds 2 + 1048576) * tick) <= tick.
Proof.
  split; [vm_compute; reflexivity|]. split; [vm_compute; reflexivity|].
  apply (tenths_nearest (seconds 2 + 1048576)). vm_compute. discriminate.
Defined.

Lemma connect_gives_up_witness :
  (run sim_handler (connect_attempts demo_cfg [1; 2; 3]) new_manager
     (with_up [false; false; false] sim0)).1.1 = Exc (SystemExit 1).
Proof.
  erewrite (connect_gives_up sim_handler demo_cfg "redis://redis:6379/0" new_manager);
    try reflexivity.
Defined.
