(* ===== verification/NoLoss.v ===== *)
(** No path is lost by a backup run.

    Wherever [run_backup] is killed or ends, each path that was in [pending] or
    in [processing] when it started is still in one of the two hashes, or has
    been dealt with: see [settled].  The run is verified against any restic,
    file system and thread schedule; other Redis clients may do anything but
    remove the path from [pending] or touch [processing]. *)
From S2P Require Import Prelude PyStr PyVal Config Effects Semantics Redis Sim Repo Backup.

Local Open Scope string_scope.
Local Open Scope Z_scope.
Local Open Scope py_scope.

(** What the other clients are allowed to do. *)
Definition leaves_path (p : string) (d d' : redis_db) : Prop :=
  hash d' "processing" = hash d "processing" /\
  (p ∈ dom (hash d "pending") -> p ∈ dom (hash d' "pending")).

#[export] Instance leaves_path_preorder p : PreOrder (leaves_path p).
Proof.
  split; [by intros d|]. intros d d' d'' [H1 H2] [H3 H4]. split; [congruence|auto].
Qed.

(** The path needs nothing more: it has no repository, or its job dealt with it. *)
Definition settled (cfg : config) (p : string) (tr : list entry) : Prop :=
  exists base depth, get_base_path cfg = Ok base /\ get_repo_depth cfg = Ok depth /\
  match get_repo_id p base depth with
  | None => True
  | Some rid => exists bin, get_restic_binary cfg = Ok bin /\ handled cfg bin rid p tr
  end.

Section NoLoss.
Context {W : Type} (h : handler W) `{!RedisServer h} (p : string).
Context `{!RedisLaws h (leaves_path p)} (cfg : config).
Abbreviation lh := (log_handler h).

Definition in_pending (lw : logged W) : Prop := p ∈ dom (hash (rs_db (base lw)) "pending").
Definition in_processing (lw : logged W) : Prop := p ∈ dom (hash (rs_db (base lw)) "processing").
Definition home (lw : logged W) : Prop := in_pending lw \/ in_processing lw.
Definition safe (lw : logged W) : Prop := home lw \/ settled cfg p (trace lw).

Lemma log_world c (lw : logged W) :
  (lh c lw).1 = (h c (base lw)).1 /\ base (lh c lw).2 = (h c (base lw)).2.
Proof. unfold log_handler. by destruct (h c (base lw)). Qed.

(** Calls that leave [pending] and [processing] alone. *)
Definition elsewhere (c : call) : Prop :=
  (forall cmds, c <> RedisPipeline cmds) /\
  forall enc d, hash (redis_step enc c d) "pending" = hash d "pending" /\
                hash (redis_step enc c d) "processing" = hash d "processing".

Lemma exec_elsewhere c w :
  elsewhere c -> leaves_path p (rs_db w) (rs_db (h c w).2).
Proof.
  intros [Hnp Hs]. apply (exec_rely h (leaves_path p)); [done|].
  intros enc d. destruct (Hs enc d) as [E1 E2]. split; [done|]. by rewrite E1.
Qed.

(** What elsewhere calls, and only they, can never change. *)
Class Stable (Phi : logged W -> Prop) : Prop :=
  stable_call : forall c lw, elsewhere c -> Phi lw -> Phi (lh c lw).2.

#[export] Instance in_pending_stable : Stable in_pending.
Proof.
  intros c lw Hc. unfold in_pending. destruct (log_world c lw) as [_ ->].
  by destruct (exec_elsewhere c (base lw) Hc).
Qed.
#[export] Instance in_processing_stable : Stable in_processing.
Proof.
  intros c lw Hc. unfold in_processing. destruct (log_world c lw) as [_ ->].
  by destruct (exec_elsewhere c (base lw) Hc) as [-> _].
Qed.
Lemma settled_mono tr tr' : settled cfg p tr -> tr `prefix_of` tr' -> settled cfg p tr'.
Proof.
  intros (b & d & Hb & Hd & H) Hpre. exists b, d. split; [done|]. split; [done|].
  destruct (get_repo_id p b d); [|done]. destruct H as (bin & Hbin & H).
  exists bin. split; [done|]. by eapply handled_mono.
Qed.
Lemma settled_step c lw : settled cfg p (trace lw) -> settled cfg p (trace (lh c lw).2).
Proof. intros H. eapply settled_mono; [exact H|]. rewrite log_step. by apply prefix_app_r. Qed.
#[export] Instance settled_stable : Stable (fun lw => settled cfg p (trace lw)).
Proof. intros c lw _. apply settled_step. Qed.
#[export] Instance or_stable Phi Psi :
  Stable Phi -> Stable Psi -> Stable (fun lw => Phi lw \/ Psi lw).
Proof. intros H1 H2 c lw Hc [H|H]; [left; by apply H1|right; by apply H2]. Qed.

Abbreviation wps := (wpc lh (fun _ : RepoManager => safe)).

Lemma wps_elsewhere {A} Phi `{!Stable Phi} R (m : prog RepoManager A) s lw :
  (forall lw', Phi lw' -> safe lw') -> only elsewhere R m -> Phi lw ->
  wps (fun _ _ => Phi) m s lw.
Proof.
  intros Hs Hm H. eapply wpc_mono; [|intros ? lw' H'; apply Hs; exact H'|done].
  apply (wpc_only elsewhere R lh (fun _ : RepoManager => Phi)); [|done|done|done].
  intros c _ lw' Hc. by apply stable_call.
Qed.

Lemma wps_bind_elsewhere {A B} Phi `{!Stable Phi} R (m : py RepoManager A) (f : A -> py RepoManager B) s lw :
  (forall lw', Phi lw' -> safe lw') -> only elsewhere R m -> Phi lw ->
  (forall a s' lw', Phi lw' -> wps (fun _ _ => safe) (f a) s' lw') ->
  wps (fun _ _ => safe) (bind m f) s lw.
Proof.
  intros Hs Hm H Hf. apply wpc_bind. eapply wpc_mono; [by eapply (wps_elsewhere Phi)|done|].
  intros [a|e|] s' lw' _ H'; [by apply Hf|by apply Hs..].
Qed.

(** *** Taking the paths: [EXISTS] and [RENAME] *)

Lemma exists_home lw :
  home lw -> home (lh (RedisExists "processing") lw).2 /\
  ((lh (RedisExists "processing") lw).1 = Ok 0 ->
   in_pending (lh (RedisExists "processing") lw).2 /\
   hash (rs_db (base (lh (RedisExists "processing") lw).2)) "processing" = ∅).
Proof.
  intros Hh. set (c := RedisExists "processing") in *.
  assert (elsewhere c) as Hc by done.
  assert (Hh' : home (lh c lw).2) by (by apply (stable_call (Phi := home))).
  split; [done|]. intros H0.
  assert (hash (rs_db (base (lh c lw).2)) "processing" = ∅) as Hemp.
  { destruct (log_world c lw) as [Hr Hw]. rewrite Hw.
    destruct (rl_exec c (base lw)) as (d & d' & _ & Hout & [H2 _]). rewrite H2.
    rewrite <-Hr, H0 in Hout. destruct Hout as [-> Hrep]. simpl in *.
    destruct (decide (hash d "processing" = ∅)) as [|Hne]; [done|].
    by destruct (proj2 Hrep (or_introl Hne)). }
  split; [|done]. destruct Hh' as [|Hpr]; [done|].
  unfold in_processing in Hpr. rewrite Hemp in Hpr. set_solver.
Qed.

Lemma rename_home lw :
  in_pending lw ->
  match (lh (RedisRename "pending" "processing") lw).1 with
  | Ok _ => in_processing (lh (RedisRename "pending" "processing") lw).2
  | _ => home (lh (RedisRename "pending" "processing") lw).2
  end.
Proof.
  intros Hp. set (c := RedisRename "pending" "processing").
  destruct (log_world c lw) as [Hr Hw].
  destruct (rl_exec c (base lw)) as (d & d' & [_ H1] & Hout & [H2 H3]).
  specialize (H1 Hp). rewrite <-Hw in H2, H3. rewrite <-Hr in Hout.
  assert (key_exists d "pending") as Hk by (by eapply dom_hash_field).
  assert (Hdone : d' = redis_step rs_encode c d -> in_processing (lh c lw).2).
  { intros ->. unfold in_processing. rewrite H2. simpl. rewrite decide_True by done.
    by rewrite hash_rename_dst. }
  assert (Hnot : d' = d -> in_pending (lh c lw).2) by (intros ->; by apply H3).
  destruct (lh c lw).1 as [[]|e|]; simpl in Hout.
  - apply Hdone. by destruct Hout.
  - destruct Hout as [->|Hout]; [left; by apply Hnot|right; apply Hdone]. by destruct e.
  - destruct Hout as [->|Hout]; [left; by apply Hnot|right; by apply Hdone].
Qed.

Lemma job_call_elsewhere c : job_call c -> elsewhere c.
Proof. by destruct c. Qed.

(** *** A path that is in [pending] stays there *)

Definition spares (c : call) : Prop :=
  elsewhere c \/ c = RedisDelete "processing" \/
  exists cmds, c = RedisPipeline cmds /\ Forall restore_cmd cmds.

Lemma restore_outcome cmds lw :
  Forall restore_cmd cmds ->
  let c := RedisPipeline cmds in
  (in_pending lw \/ (PHSet "pending" (VStr p) (VStr "retry") ∈ cmds /\ (lh c lw).1 = Ok tt) ->
   in_pending (lh c lw).2) /\
  (in_processing lw -> in_processing (lh c lw).2).
Proof.
  intros Hcmds c. destruct (log_world c lw) as [Hr Hw]. unfold in_pending, in_processing.
  rewrite Hw, Hr. destruct (rl_exec c (base lw)) as (d & d' & [H1 H2] & Hout & [H3 H4]).
  assert (exists done, Forall restore_cmd done /\ d' = foldl (exec_pcmd rs_encode) d done /\
            ((h c (base lw)).1 = Ok tt -> done = cmds)) as (done & Hdone & -> & Hall).
  { destruct (h c (base lw)).1 as [[]|e|]; simpl in Hout.
    - exists cmds. by destruct Hout.
    - destruct Hout as [->|(cmds' & Hsub & ->)]; [by exists []|].
      exists cmds'. split; [|done]. rewrite Forall_forall in Hcmds |- *. intros x Hx.
      by eapply Hcmds, elem_of_sublist.
    - destruct Hout as [->|(cmds' & Hsub & ->)]; [by exists []|].
      exists cmds'. split; [|done]. rewrite Forall_forall in Hcmds |- *. intros x Hx.
      by eapply Hcmds, elem_of_sublist. }
  destruct (exec_restore rs_encode rl_encode_str done d Hdone) as [E1 E2].
  split; [|by rewrite H3, E1, H1].
  intros [Hin|[Hin Hok]]; apply H4, E2; [left; auto|right; by rewrite Hall].
Qed.

Lemma delete_processing_pending lw :
  in_pending lw -> in_pending (lh (RedisDelete "processing") lw).2.
Proof.
  set (c := RedisDelete "processing"). destruct (log_world c lw) as [_ Hw].
  unfold in_pending. rewrite Hw.
  destruct (rl_exec c (base lw)) as (d & d' & [_ H2] & Hout & [_ H4]). intros Hin.
  apply H4. specialize (H2 Hin).
  assert (d' = d \/ d' = delete_key "processing" d) as [->| ->].
  { destruct (h c (base lw)).1 as [x|e|]; simpl in Hout; [right; by destruct Hout| |tauto].
    destruct Hout as [|Hout]; [by left|destruct e; (by right) || done]. }
  - done.
  - by rewrite hash_delete_ne.
Qed.

Lemma in_pending_spares c lw : spares c -> in_pending lw -> in_pending (lh c lw).2.
Proof.
  intros [Hc|[->|(cmds & -> & Hcmds)]] Hp.
  - by apply in_pending_stable.
  - by apply delete_processing_pending.
  - apply restore_outcome; [done|by left].
Qed.

Lemma finish_spares tasks total start :
  only spares (fun _ _ => True) (finish (S:=RepoManager) tasks total start).
Proof.
  unfold finish. apply only_bind.
  - destruct (failed_repos total) as [|r rs]; [done|]. apply only_do. right. right.
    eexists. split; [done|]. apply restore_pipeline_cmds.
  - intros _. apply only_bind; [apply only_do; right; by left|intros _].
    do 2 (apply only_bind; [apply only_do; by left|intros ?]).
    apply only_bind; [|done]. apply only_do. left. split; [done|intros enc d].
    split; cbn [redis_step]; unfold hset_all; by rewrite hash_set_hash_ne.
Qed.

Lemma env_default_only k v env :
  only elsewhere (fun _ _ => True) (env_default (S:=RepoManager) k v env).
Proof. unfold env_default. solve_only; done. Qed.

Lemma build_env_only : only elsewhere (fun _ _ => True) (build_env (S:=RepoManager) cfg).
Proof.
  unfold build_env. apply only_bind; [by apply only_do|intros env].
  do 2 (apply only_bind; [apply env_default_only|intros ?]). exact (env_default_only _ _ a0).
Qed.

Lemma run_pool_only workers sched order tasks env bin :
  only job_call (fun _ _ => True) (run_pool workers sched order tasks cfg env bin).
Proof.
  unfold run_pool. destruct (workers <=? 0); [done|]. apply only_pbind.
  - apply only_pool, Forall_fmap, Forall_forall. intros [rid ps] _. exact (backup_repo_only rid ps cfg env bin).
  - intros results. by destruct (existsb is_running results).
Qed.

Lemma hscan_loop_only fuel base depth st :
  only elsewhere (fun _ _ => True) (hscan_loop (S:=RepoManager) fuel base depth st).
Proof.
  unfold hscan_loop. apply only_while. intros v. apply only_bind; [done|].
  intros [cur items]. by destruct (cur =? 0).
Qed.

Lemma process_spares fuel sched order start :
  only spares (fun _ _ => True) (process_tasks fuel sched order cfg start).
Proof.
  assert (He : forall A (m : prog RepoManager A), only elsewhere (fun _ _ => True) m ->
            only spares (fun _ _ => True) m)
    by (intros A m; apply only_mono; [by left|done]).
  unfold process_tasks. do 2 (apply only_bind; [done|intros ?]).
  apply only_bind; [apply He, hscan_loop_only|intros st].
  apply only_bind; [apply He, build_env_only|intros env].
  do 3 (apply only_bind; [done|intros ?]).
  apply only_bind; [|intros total; apply finish_spares].
  eapply only_mono; [|done|apply run_pool_only]. intros c Hc. left. by apply job_call_elsewhere.
Qed.

(** *** A path that is in [processing] *)

Context (Hnl : lacks (chr 10) p = true).

(** The path stays in [processing], and a result satisfies [Q]. *)
Definition proc_post {A} (Q : A -> logged W -> Prop) (r : result A) (_ : RepoManager)
    (lw : logged W) : Prop :=
  in_processing lw /\ match r with Ok a => Q a lw | _ => True end.

Lemma processing_safe lw : in_processing lw -> safe lw.
Proof. intros H. left. by right. Qed.

Lemma wps_bind_proc {A B} (Q : A -> logged W -> Prop) (m : py RepoManager A)
    (f : A -> py RepoManager B) s lw :
  wps (proc_post Q) m s lw ->
  (forall a s' lw', in_processing lw' -> Q a lw' -> wps (fun _ _ => safe) (f a) s' lw') ->
  wps (fun _ _ => safe) (bind m f) s lw.
Proof.
  intros Hm Hf. apply wpc_bind. eapply wpc_mono; [exact Hm|done|].
  intros [a|e|] s' lw' _ [Hp HQ]; [by apply Hf|by apply processing_safe..].
Qed.

Definition scan_inv (bp : string) (depth : Z) (st : scan) (lw : logged W) : Prop :=
  in_processing lw /\
  (collected bp depth (sc_tasks st) p \/
   p ∈ rs_scan (base lw) "processing" (sc_cursor st)).

(** One [HSCAN] reply: the path is in it, or still to come. *)
Lemma scan_reply bp depth st lw cur items :
  scan_inv bp depth st lw ->
  (lh (RedisHScan "processing" (sc_cursor st) 10000) lw).1 = Ok (cur, items) ->
  let st' := scan_items bp depth cur items.*1 st in
  let lw' := (lh (RedisHScan "processing" (sc_cursor st) 10000) lw).2 in
  in_processing lw' /\
  (collected bp depth (sc_tasks st') p \/ (cur <> 0 /\ p ∈ rs_scan (base lw') "processing" cur)).
Proof.
  intros [Hp Hst] E st' lw'. set (c := RedisHScan "processing" (sc_cursor st) 10000) in *.
  assert (Hp' : in_processing lw') by (by apply in_processing_stable). split; [done|].
  destruct Hst as [Hst|Hst]; [left; apply scan_items_collected; by left|].
  destruct (log_world c lw) as [Hr Hw]. rewrite Hr in E.
  assert (Hown : forall d d', leaves_path p d d' -> hash d' "processing" = hash d "processing")
    by (by intros d d' []).
  pose proof (rl_scan_next (base lw) "processing" (sc_cursor st) 10000 cur items Hown E p) as Hnext.
  fold c in Hnext. rewrite <-Hw in Hnext. fold lw' in Hnext.
  assert (p ∈ (list_to_set items.*1 : gset string)
            ∪ (if cur =? 0 then ∅ else rs_scan (base lw') "processing" cur)) as Hin
    by (apply Hnext, elem_of_intersection; by split).
  apply elem_of_union in Hin as [Hin|Hin].
  - left. apply scan_items_collected. right. by apply elem_of_list_to_set in Hin.
  - right. destruct (Z.eqb_spec cur 0); [by apply elem_of_empty in Hin|done].
Qed.

Lemma hscan_collects fuel bp depth s lw :
  in_processing lw ->
  wps (proc_post (fun st _ => collected bp depth (sc_tasks st) p))
    (hscan_loop fuel bp depth (Scan 0 [] 0 0)) s lw.
Proof.
  intros Hp. unfold hscan_loop.
  apply (wpc_while lh _ (fun st _ lw' => scan_inv bp depth st lw')).
  - intros st ? lw' [H _]. by apply processing_safe.
  - intros st ? lw' [H _]. by split.
  - intros st s' lw' Hinv. pose proof Hinv as [Hp' _].
    set (c := RedisHScan "processing" (sc_cursor st) 10000).
    assert (Hp2 : in_processing (lh c lw').2) by (by apply in_processing_stable).
    apply wpc_bind, wpc_do; [by apply processing_safe..|]. fold c.
    destruct (lh c lw').1 as [[cur items]|e|] eqn:E; [|by split..].
    destruct (scan_reply _ _ _ _ _ _ Hinv E) as [_ Hc].
    destruct (Z.eqb_spec cur 0) as [->|Hne]; apply wpc_ret; try by apply processing_safe.
    + split; [done|]. by destruct Hc as [|[]].
    + split; [done|]. rewrite scan_items_cursor. tauto.
  - split; [done|]. right. by apply rl_scan_start.
Qed.

(** The pool: the path's job has dealt with it, or its repository has failed. *)
Lemma run_pool_settles workers sched order tasks env bin s lw :
  (forall n, order n ≡ₚ seq 0 n) -> in_processing lw ->
  wps (proc_post (fun total lw' => forall rid, p ∈ task_paths tasks rid ->
         rid ∈ failed_repos total \/ handled cfg bin rid p (trace lw')))
    (run_pool workers sched order tasks cfg env bin) s lw.
Proof.
  intros Hord Hp. unfold run_pool. destruct (workers <=? 0).
  { apply wpc_ret; [by apply processing_safe|by split]. }
  apply wpc_pbind. set (jobs := _ <$> tasks).
  set (Qs := (fun (t : string * list string) (r : result repo_result) (lw' : logged W) =>
                job_post cfg bin t.1 t.2 r (trace lw')) <$> tasks).
  eapply wpc_mono; [apply (wpc_pool lh grows (fun _ => in_processing) (fun _ => safe) _ sched Qs jobs s lw lw)|done|].
  - intros ? lw' _ H. by apply processing_safe.
  - apply Forall_fmap, Forall_forall. intros t ? r lw1 lw2 Hj Hle. by eapply job_post_mono.
  - apply Forall2_fmap, Forall_Forall2_diag, Forall_forall. intros [rid paths] _.
    apply (backup_repo_twp h in_processing).
    intros c lw' Hc. apply in_processing_stable. by apply job_call_elsewhere.
  - reflexivity.
  - done.
  - intros results s' lw' _ (Hall & Hp' & _). apply Forall2_fmap_r in Hall.
    destruct (existsb is_running results); [apply wpc_ret; [by apply processing_safe|by split]|].
    apply wpc_ret; [by apply processing_safe|]. split; [done|].
    destruct (collect _ no_results) as [total|e|] eqn:Ec; [|done..].
    intros rid Hin. destruct (task_paths_lookup _ _ _ Hin) as [i Hi].
    destruct (Forall2_lookup_r _ _ _ _ _ Hall Hi) as (r & Hr & Hj).
    destruct (collect_failed _ _ _ Ec) as [_ Hf].
    destruct (Hf (rid, task_paths tasks rid) r) as [?|(res & -> & Hres)]; [|by left|].
    + rewrite omap_lookup_perm.
      * apply list_elem_of_lookup. exists i. apply lookup_zip_with_Some. by eauto 10.
      * rewrite length_zip_with, (Forall2_length _ _ _ Hall), Nat.min_id. apply Hord.
    + right. destruct Hj as [(_ & _ & _ & _ & _ & H0) Hh]. apply Hh; [simpl in *; lia|done|done].
Qed.

(** *** Finishing *)

Definition restored (lw : logged W) : Prop := in_pending lw \/ settled cfg p (trace lw).

Lemma restored_safe lw : restored lw -> safe lw.
Proof. intros [H|H]; [left; by left|by right]. Qed.

Lemma restored_spares c lw : spares c -> restored lw -> restored (lh c lw).2.
Proof. intros Hc [H|H]; [left; by apply in_pending_spares|right; by apply settled_step]. Qed.

Lemma wps_spares {A} R (m : prog RepoManager A) s lw :
  only spares R m -> restored lw -> wps (fun _ _ => safe) m s lw.
Proof.
  intros Hm H. eapply wpc_mono; [apply (wpc_only spares R lh (fun _ : RepoManager => restored));
    [by intros; apply restored_spares|done|exact Hm|exact H]|..]; intros; by apply restored_safe.
Qed.

Lemma finish_safe tasks total start s lw :
  in_processing lw ->
  settled cfg p (trace lw) \/ (exists rid, rid ∈ failed_repos total /\ p ∈ task_paths tasks rid) ->
  wps (fun _ _ => safe) (finish tasks total start) s lw.
Proof.
  intros Hp [Hs|(rid & Hrid & Hin)]; [eapply wps_spares; [apply finish_spares|by right]|].
  pose proof (finish_spares tasks total start) as Hsp. unfold finish in *.
  destruct (failed_repos total) as [|r rs]; [by apply elem_of_nil in Hrid|].
  set (cmds := restore_pipeline tasks (r :: rs)) in *.
  pose proof (restore_outcome cmds lw (restore_pipeline_cmds _ _)) as [Hpend Hproc].
  apply wpc_bind, wpc_do; [by apply processing_safe|by apply processing_safe, Hproc|].
  destruct (lh (RedisPipeline cmds) lw).1 as [[]|e|]; try (by apply processing_safe, Hproc).
  destruct Hsp as [_ Hsp]. eapply wps_spares; [exact (Hsp (Ok tt))|]. left. apply Hpend.
  right. split; [by eapply restore_pipeline_in|done].
Qed.

Lemma wps_lift {A B} (r : result A) (f : A -> py RepoManager B) s lw :
  in_processing lw -> (forall a, r = Ok a -> wps (fun _ _ => safe) (f a) s lw) ->
  wps (fun _ _ => safe) (bind (lift r) f) s lw.
Proof.
  intros Hp Hf. apply wpc_bind, wpc_lift; [by apply processing_safe|].
  destruct r as [a|e|]; [by apply Hf|by apply processing_safe..].
Qed.

Lemma process_safe fuel sched order start s lw :
  (forall n, order n ≡ₚ seq 0 n) -> in_processing lw ->
  wps (fun _ _ => safe) (process_tasks fuel sched order cfg start) s lw.
Proof.
  intros Hord Hp. unfold process_tasks.
  apply wps_lift; [done|intros bp Ebp]. apply wps_lift; [done|intros depth Ed].
  apply (wps_bind_proc (fun st _ => collected bp depth (sc_tasks st) p));
    [by apply hscan_collects|].
  intros st s1 lw1 Hp1 Hcol.
  apply (wps_bind_elsewhere in_processing (fun _ _ => True)); [apply processing_safe|apply build_env_only|done|].
  intros env s2 lw2 Hp2.
  apply wps_lift; [done|intros bin Eb].
  apply (wps_bind_elsewhere in_processing (fun _ _ => True)); [apply processing_safe|done|done|].
  intros [] s3 lw3 Hp3.
  apply wps_lift; [done|intros workers _].
  eapply wps_bind_proc; [by apply run_pool_settles|].
  intros total s4 lw4 Hp4 Htot. apply finish_safe; [done|].
  unfold collected in Hcol. destruct (get_repo_id p bp depth) as [rid|] eqn:Erid.
  - destruct (Htot rid Hcol) as [Hf|Hh]; [right; by exists rid|left].
    exists bp, depth. split; [done|]. split; [done|]. rewrite Erid. by exists bin.
  - left. exists bp, depth. by rewrite Erid.
Qed.

#[export] Instance safe_stable : Stable safe.
Proof. unfold safe, home. apply _. Qed.
#[export] Instance home_stable : Stable home.
Proof. unfold home. apply _. Qed.

(** *** The whole run *)

Lemma swap_pending_home s lw :
  home lw ->
  wps (fun r _ lw' => match r with
                      | Ok true => in_pending lw' \/ in_processing lw'
                      | _ => home lw'
                      end) swap_pending s lw.
Proof.
  intros Hh. assert (Hs : forall lw', home lw' -> safe lw') by (by left).
  set (c := RedisExists "processing"). unfold swap_pending.
  destruct (exists_home lw Hh) as [Hh' H0]. fold c in Hh', H0.
  apply wpc_bind, wpc_do; [by apply Hs..|]. fold c.
  destruct (lh c lw).1 as [n|e|]; [|done..].
  destruct (Z.eqb_spec n 0) as [->|Hne]; [|by apply wpc_ret; [apply Hs|]].
  destruct (H0 eq_refl) as [Hp Hemp]. pose proof (rename_home _ Hp) as Hren.
  set (c2 := RedisRename "pending" "processing") in *.
  assert (Hh2 : home (lh c2 (lh c lw).2).2).
  { destruct (lh c2 (lh c lw).2).1; [by right|done..]. }
  cbn [negb]. apply wpc_try_except, wpc_bind, wpc_do; [by apply Hs..|]. fold c2.
  destruct (lh c2 (lh c lw).2).1 as [u|e|]; [by apply wpc_ret; [apply Hs|right]| |done].
  destruct (is_ResponseError e); [|done]. by apply wpc_ret; [apply Hs|].
Qed.

Lemma inner_safe fuel sched order start s lw :
  (forall n, order n ≡ₚ seq 0 n) -> home lw ->
  wps (fun _ _ => safe) (_run_backup_inner fuel sched order cfg start) s lw.
Proof.
  intros Hord Hh. unfold _run_backup_inner. apply wpc_bind.
  eapply wpc_mono; [by apply swap_pending_home|done|].
  intros [[]|e|] s' lw' Hs H; [|by apply wpc_ret|done..].
  destruct H as [H|H]; [|by apply process_safe].
  eapply wps_spares; [apply process_spares|by left].
Qed.

Lemma acquire_lock_only : only elsewhere (fun _ _ => True) (acquire_lock (S:=RepoManager)).
Proof.
  unfold acquire_lock. apply only_bind; [by apply only_do|intros node].
  apply only_bind; [|intros []; [done|by apply only_bind; [apply only_do|]]].
  apply only_do. split; [done|]. intros enc d. simpl. by case_decide.
Qed.

Lemma release_lock_only : only elsewhere (fun _ _ => True) (release_lock (S:=RepoManager)).
Proof.
  unfold release_lock. apply only_bind; [|done]. apply only_do. split; [done|].
  intros enc d. simpl. by rewrite !hash_delete_ne.
Qed.

(** A program is safe from a state in which the path is in one of the hashes. *)
Definition fresh {A} (m : prog RepoManager A) : Prop :=
  forall s lw, home lw -> wps (fun _ _ => safe) m s lw.

(** From any point before the lock is taken. *)
Lemma acquiring_fresh {R} fuel sched order (m : py RepoManager bool) :
  (forall n, order n ≡ₚ seq 0 n) -> only elsewhere R m ->
  fresh (let* acquired := m in
         if negb acquired then ret tt
         else let* start_time := do TimeTime in
              try_finally (_run_backup_inner fuel sched order cfg start_time) release_lock).
Proof.
  intros Hord Hm s lw Hh. assert (Hs : forall lw', home lw' -> safe lw') by (by left).
  eapply (wps_bind_elsewhere home); [done|exact Hm|done|].
  intros [] s1 lw1 H1; [|by apply wpc_ret; apply Hs].
  apply (wps_bind_elsewhere home (fun _ _ => True)); [done|by apply only_do|done|].
  intros start s2 lw2 H2. apply wpc_try_finally.
  eapply wpc_mono; [by apply inner_safe|done|].
  intros r s3 lw3 _ H3.
  assert (wps (fun _ _ => safe) release_lock s3 lw3) as Hrel
    by (by eapply (wps_elsewhere safe); [|apply release_lock_only|]).
  destruct r as [u|e|]; [..|done]; (eapply wpc_mono; [exact Hrel|done|]);
    by intros [].
Qed.

Lemma run_backup_safe fuel sched order s lw :
  (forall n, order n ≡ₚ seq 0 n) -> home lw ->
  wps (fun _ _ => safe) (run_backup fuel sched order cfg) s lw.
Proof. intros Hord. apply (acquiring_fresh (R := fun _ _ => True)); [done|apply acquire_lock_only]. Qed.

Lemma wps_settled {A} (m : prog RepoManager A) s lw :
  settled cfg p (trace lw) -> wps (fun _ _ => safe) m s lw.
Proof.
  intros H. eapply wpc_mono; [apply (wpc_only (fun _ => True) (fun _ _ => True) lh
    (fun _ : RepoManager => fun lw' => settled cfg p (trace lw'))); [|done|apply only_all|exact H]|..];
    [by intros; apply settled_step|by right..].
Qed.

(** *** From any point of a run on

    Whatever is left of a run is safe for a path that is now in [pending]. *)
Definition resumes {A} (m : prog RepoManager A) : Prop :=
  forall s lw, in_pending lw -> wps (fun _ _ => safe) m s lw.

Lemma pending_safe lw : in_pending lw -> safe lw.
Proof. left. by left. Qed.

Context (ok : entry -> Prop).

Lemma resumes_spares {A} R (m : prog RepoManager A) : only spares R m -> at_every ok resumes m.
Proof.
  apply at_every_only. intros q Hq s lw Hp. eapply wps_spares; [exact Hq|by left].
Qed.

Lemma resumes_elsewhere {A} R (m : prog RepoManager A) : only elsewhere R m -> at_every ok resumes m.
Proof. intros Hm. eapply resumes_spares, only_mono; [by left|done|exact Hm]. Qed.

Lemma resumes_bind {A B} R (m : py RepoManager A) (f : A -> py RepoManager B) :
  only elsewhere R m -> (forall a, at_every ok resumes (f a)) -> at_every ok resumes (bind m f).
Proof.
  intros Hm Hf. apply (at_every_pbind _ (only elsewhere R)).
  - intros q Hq%at_every_here s lw Hp.
    apply (wps_bind_elsewhere in_pending R); [apply pending_safe|done|done|].
    intros a s' lw' Hp'. by apply (at_every_here _ _ _ (Hf a)).
  - intros [a|e|]; [apply Hf|by apply (resumes_elsewhere R)..].
  - by eapply at_every_only.
Qed.

Lemma resumes_try_finally {A} R (m : py RepoManager A) fin :
  at_every ok resumes m -> only elsewhere R fin -> at_every ok resumes (try_finally m fin).
Proof.
  intros Hm Hfin. assert (He : forall r : result A, only elsewhere R
    (match r with
     | Running => Ret Running
     | _ => pbind fin (fun f => match f with Ok _ => Ret r | Exc e => Ret (Exc e) | Running => Ret Running end)
     end)) by (by intros [a|e|]; [apply only_pbind; [done|by intros []]..|]).
  apply (at_every_pbind _ resumes); [|intros r; by eapply resumes_elsewhere|done].
  intros q Hq%at_every_here s lw Hp. apply wpc_pbind.
  eapply wpc_mono; [by apply Hq|done|]. intros r s' lw' _ H.
  by eapply (wps_elsewhere safe).
Qed.

Lemma rename_resumes fuel sched order start :
  (forall n, order n ≡ₚ seq 0 n) ->
  at_every ok resumes
    (bind (try_except (do (RedisRename "pending" "processing") ;; ret true)
                      (fun e => if is_ResponseError e then Some (ret false) else None))
          (fun ready : bool => if negb ready then ret tt else process_tasks fuel sched order cfg start)).
Proof.
  intros Hord. assert (Hproc := resumes_spares _ _ (process_spares fuel sched order start)).
  split; [|intros [u|e|] _; [exact Hproc| |by apply (resumes_elsewhere (fun _ _ => True))]].
  2: { simpl. destruct (is_ResponseError e); by apply (resumes_elsewhere (fun _ _ => True)). }
  intros s lw Hp. pose proof (rename_home lw Hp) as Hren. split; [by apply pending_safe|].
  set (c := RedisRename "pending" "processing") in *.
  destruct (lh c lw) as [[u|e|] lw'] eqn:E; cbn [fst snd] in Hren.
  - change (wps (fun _ _ => safe) (process_tasks fuel sched order cfg start) s lw').
    by apply process_safe.
  - simpl. destruct (is_ResponseError e); by apply wpc_ret; left.
  - by apply wpc_ret; left.
Qed.

Lemma run_backup_resumes fuel sched order :
  (forall n, order n ≡ₚ seq 0 n) -> at_every ok resumes (run_backup fuel sched order cfg).
Proof.
  intros Hord. unfold run_backup.
  eapply resumes_bind; [apply acquire_lock_only|intros []];
    [|by apply (resumes_elsewhere (fun _ _ => True))].
  apply (resumes_bind (fun _ _ => True)); [by apply only_do|intros start].
  eapply resumes_try_finally; [|apply release_lock_only].
  unfold _run_backup_inner, swap_pending.
  split; [|intros [n|e|] _; [|by apply (resumes_elsewhere (fun _ _ => True))..]].
  - intros s lw Hp. apply (inner_safe fuel sched order start s lw Hord). by left.
  - cbn [pbind]. destruct (n =? 0).
    + exact (rename_resumes fuel sched order start Hord).
    + exact (resumes_spares _ _ (process_spares fuel sched order start)).
Qed.
End NoLoss.

(** ** Properties *)

(** C1. No path is lost silently: a path without a line feed that is in [pending] or in
    [processing] when a backup run starts is, wherever the run is killed and
    when it ends, still in one of the two hashes, or it has been settled: it
    has no repository under the configured depth, or its file was found
    missing, or it was a line of a list file given to a [restic backup] of its
    repository that ended with exit code 0 or 3.  This holds for any restic,
    file system and Redis, including calls that fail or hang, any number of
    workers and any interleaving of the jobs; the other Redis clients may do
    anything but remove the path from [pending] or touch [processing].  (A path
    with a line feed can be lost: [Repo.newline_path_unlisted].) *)
Theorem no_path_lost {W} (h : handler W) `{!RedisServer h} p `{!RedisLaws h (leaves_path p)}
    cfg fuel sched order s lw n s' lw' :
  lacks (chr 10) p = true -> (forall k, order k ≡ₚ seq 0 k) -> home h p lw ->
  run_for (log_handler h) n (run_backup fuel sched order cfg) s lw = (s', lw') ->
  home h p lw' \/ settled cfg p (trace lw').
Proof.
  intros Hp Hord Hh. apply wpc_killed with (C := fun _ => safe h p cfg) (Q := fun _ _ => safe h p cfg).
  by apply run_backup_safe.
Qed.

(** ** Witness

    Two files of two repositories; the backup of the second one fails three
    times, and its path is in [pending] again at the end. *)

Lemma sim_leaves p : RedisLaws sim_handler (leaves_path p).
Proof. apply (redis_laws_mono sim_handler eq); [by intros d d' ->|apply sim_laws]. Qed.

Definition failing_world : sim :=
  with_db (set_hash "pending" {["/home/s/u/a" := "mtime_change"; "/home/s/v/c" := "rename"]} empty_db)
    (with_files ["/home/s/u/a"; "/home/s/v/c"]
      (with_exit (fun argv => if bool_decide ("s3:http://minio:9000/backup/s/v" ∈ argv) then 1 else 0)
        sim0)).

Lemma no_path_lost_witness :
  let '(_, lw') := run_for (log_handler sim_handler) 200
    (run_backup 2 [1; 0; 1; 1; 0]%nat (seq 0) demo_cfg) new_manager (Logged failing_world []) in
  hash (rs_db (base lw')) "pending" !! "/home/s/v/c" = Some "retry" /\
  hash (rs_db (base lw')) "processing" = ∅ /\
  (home sim_handler "/home/s/u/a" lw' \/ settled demo_cfg "/home/s/u/a" (trace lw')).
Proof.
  destruct (run_for (log_handler sim_handler) 200
    (run_backup 2 [1; 0; 1; 1; 0]%nat (seq 0) demo_cfg) new_manager (Logged failing_world []))
    as [s' lw'] eqn:E.
  pose proof E as E'. vm_compute in E'. injection E' as _ <-.
  split; [reflexivity|]. split; [reflexivity|].
  refine (@no_path_lost sim sim_handler _ "/home/s/u/a" (sim_leaves _) demo_cfg 2
            [1; 0; 1; 1; 0]%nat (seq 0) new_manager (Logged failing_world []) 200 _ _ _ _ _ E).
  - reflexivity.
  - reflexivity.
  - left. apply elem_of_dom. vm_compute. eexists. reflexivity.
Defined.
