(* ===== verification/Progress.v ===== *)
(** A backup run without faults backs up everything that was due.

    [no_path_lost] is about what can go wrong; this file shows that a run makes
    progress.  [faultless] is an answer that is no error; [obeys] computes what
    the program must return when all answers are of that kind, for every
    schedule of the jobs. *)
From S2P Require Import Prelude PyStr PyVal Config Effects Semantics Redis Sim Repo Backup NoLoss.

Local Open Scope string_scope.
Local Open Scope Z_scope.
Local Open Scope py_scope.

(** ** Runs without faults *)

(** The exit codes a job goes on with.  [restic cat config] may fail: it only
    tells whether the repository is there. *)
Definition exit_fine (argv : list string) (code : Z) : Prop :=
  match argv with
  | _ :: cmd :: _ =>
      if String.eqb cmd "cat" then True
      else if String.eqb cmd "backup" then code = 0 \/ code = 3
      else code = 0
  | _ => code = 0
  end.

(** An answer that is no error; the lock is free. *)
Definition faultless (e : entry) : Prop :=
  let '(Entry c r) := e in
  match c return result (resp c) -> Prop with
  | SubprocessRun argv _ _ => fun r =>
      match r with Ok proc => exit_fine argv (returncode proc) | _ => False end
  | RedisSetNX _ _ _ => fun r => r = Ok true
  | _ => fun r => is_ok r = true
  end r.

(** Every key the run reads is in the configuration, and there is a worker. *)
Definition complete (cfg : config) : bool :=
  is_ok (get_base_path cfg) && is_ok (get_repo_depth cfg) && is_ok (get_restic_binary cfg) &&
  is_ok (get_restic_password cfg) && is_ok (get_access_key cfg) && is_ok (get_secret_key cfg) &&
  is_ok (get_endpoint cfg) && is_ok (get_bucket cfg) && is_ok (get_use_tls cfg) &&
  match get_workers cfg with Ok n => 0 <? n | _ => false end.

(** ** What a program returns under such answers *)

Abbreviation returns Q := (obeys faultless (yields Q)).

Lemma is_ok_inv {A} (r : result A) : is_ok r = true -> exists a, r = Ok a.
Proof. destruct r; [by eexists|done..]. Qed.

Lemma returns_do {S} c :
  obeys (S := S) faultless (yields (fun a => faultless (Entry c (Ok a)))) (do c).
Proof. intros [a|e|] Hr; simpl in *; [done|by destruct c..]. Qed.

Lemma returns_any {S} c : obeys (S := S) faultless (yields (fun _ => True)) (do c).
Proof. eapply obeys_mono; [|apply returns_do]. by intros [a|e|]. Qed.

Lemma returns_lift {S A} (r : result A) : is_ok r = true -> obeys (S := S) faultless (yields (fun a => r = Ok a)) (lift r).
Proof. by intros [a ->]%is_ok_inv. Qed.

Lemma ensure_returns bin url env : returns (fun b => b = true) (ensure bin url env).
Proof.
  unfold ensure. apply (obeys_bind _ (fun _ => True)).
  { simpl. intros m. unfold check_in. by destruct (decide _). }
  intros [] _; [done|]. apply obeys_try_finally; [|done].
  eapply obeys_bind; [apply returns_any|intros r _].
  apply (obeys_bind _ (fun ready => ready = true)); [|by intros _ ->].
  destruct (returncode r =? 0); [done|]. cbn [negb].
  eapply obeys_bind; [apply returns_do|]. intros r2 H2. simpl in H2. rewrite H2. done.
Qed.

Lemma filter_returns paths :
  returns (fun _ => True) (filter_each (S := RepoManager) paths (fun p => do (OsPathExists p))).
Proof.
  induction paths as [|p paths IH]; [done|]. cbn [filter_each].
  eapply obeys_bind; [apply returns_any|intros b _]. by eapply obeys_bind; [exact IH|].
Qed.

Lemma attempts_returns bin f url env n attempt rest res :
  rr_errors res = 0 ->
  returns (fun res' => rr_errors res' = 0) (restic_attempts bin f url env n (attempt :: rest) res).
Proof.
  intros Hr. cbn [restic_attempts]. eapply obeys_bind; [apply returns_do|]. intros proc Hp.
  simpl in Hp. assert ((returncode proc =? 0) || (returncode proc =? 3) = true) as -> by lia. done.
Qed.

Section Returns.
Context (cfg : config) (Hcfg : complete cfg = true).

Lemma complete_keys :
  is_ok (get_base_path cfg) = true /\ is_ok (get_repo_depth cfg) = true /\
  is_ok (get_restic_binary cfg) = true /\ is_ok (get_restic_password cfg) = true /\
  is_ok (get_access_key cfg) = true /\ is_ok (get_secret_key cfg) = true /\
  is_ok (get_endpoint cfg) = true /\ is_ok (get_bucket cfg) = true /\
  is_ok (get_use_tls cfg) = true /\ exists n, get_workers cfg = Ok n /\ 0 < n.
Proof.
  unfold complete in Hcfg. rewrite !andb_true_iff in Hcfg.
  destruct Hcfg as (((((((((?&?)&?)&?)&?)&?)&?)&?)&?)&Hw). do 9 (split; [done|]).
  destruct (get_workers cfg) as [n|e|]; [|done..]. exists n. split; [done|lia].
Qed.

Lemma backup_repo_returns rid paths env bin :
  returns (fun res => rr_errors res = 0) (backup_repo rid paths cfg env bin).
Proof.
  destruct complete_keys as (_ & _ & _ & _ & _ & _ & He & Hb & Ht & _). unfold backup_repo.
  eapply obeys_bind; [by apply returns_lift|intros endpoint _].
  eapply obeys_bind; [by apply returns_lift|intros bucket _].
  eapply obeys_bind; [by apply returns_lift|intros tls _]. cbv zeta.
  eapply obeys_bind; [apply ensure_returns|intros _ ->]. cbn [negb].
  eapply obeys_bind; [apply filter_returns|intros [|q existing] _]; [done|].
  eapply obeys_bind; [apply returns_any|intros f _].
  eapply obeys_bind; [apply returns_any|intros _ _].
  apply obeys_try_finally; [by apply attempts_returns|apply returns_any].
Qed.

Lemma collect_returns jobs s :
  Forall (fun j => exists res, j.2 = Ok res /\ rr_errors res = 0) jobs -> failed_repos s = [] ->
  yields (fun s' => failed_repos s' = []) (collect jobs s).
Proof.
  intros Hj. revert s. induction Hj as [|[t r] jobs (res & Hres & Hr) _ IH]; intros s Hs; [done|].
  simpl in *. subst r. apply IH. simpl. rewrite Hr, Hs. done.
Qed.

Lemma run_pool_returns workers sched order tasks env bin :
  0 < workers ->
  returns (fun total => failed_repos total = []) (run_pool workers sched order tasks cfg env bin).
Proof.
  intros Hw. unfold run_pool. destruct (Z.leb_spec workers 0); [lia|]. apply obeys_pbind.
  eapply obeys_mono; [|apply (obeys_pool _ (yields (fun res => rr_errors res = 0)))].
  - intros results Hres. destruct (existsb is_running results) eqn:Er.
    { apply existsb_exists in Er as (r & Hin & Hr). apply list_elem_of_In in Hin.
      rewrite Forall_forall in Hres. specialize (Hres r Hin). by destruct r. }
    apply collect_returns; [|done]. apply Forall_forall. intros j Hin.
    apply list_elem_of_omap in Hin as (i & _ & Hi). apply lookup_zip_with_Some in Hi as (t & r & -> & _ & Hr).
    pose proof (Forall_lookup_1 _ _ _ _ Hres Hr) as Hy. simpl. destruct r as [res|e|]; [by exists res|done..].
  - apply Forall_fmap, Forall_forall. intros [rid ps] _. exact (backup_repo_returns rid ps env bin).
Qed.

Lemma env_default_returns k v env :
  is_ok v = true -> returns (fun _ => True) (env_default (S := RepoManager) k v env).
Proof. intros Hv. unfold env_default. destruct (env !! k); [exact I|].
  eapply obeys_bind; [by apply returns_lift|]. intros x _. exact I.
Qed.

Lemma build_env_returns : returns (fun _ => True) (build_env (S := RepoManager) cfg).
Proof.
  destruct complete_keys as (_ & _ & _ & Hp & Ha & Hs & _). unfold build_env.
  eapply obeys_bind; [apply returns_any|intros env _].
  eapply obeys_bind; [by apply env_default_returns|intros env1 _].
  eapply obeys_bind; [by apply env_default_returns|intros env2 _]. by apply env_default_returns.
Qed.
End Returns.

(** ** The run *)

(** The other clients also leave a string key [processing] alone. *)
Definition leaves_processing (p : string) (d d' : redis_db) : Prop :=
  leaves_path p d d' /\ db_strings d' !! "processing" = db_strings d !! "processing".

#[export] Instance leaves_processing_preorder p : PreOrder (leaves_processing p).
Proof.
  split; [by intros d|]. intros d d' d'' [H1 H2] [H3 H4]. split; [by etrans|congruence].
Qed.

(** The paths the next run takes: those of an interrupted run, or else those
    that are pending. *)
Definition due (p : string) (d : redis_db) : Prop :=
  p ∈ dom (hash d "processing") \/
  (p ∈ dom (hash d "pending") /\ ~ key_exists d "processing").

Section Progress.
Context {W : Type} (h : handler W) `{!RedisServer h} (p : string).
Context `{!RedisLaws h (leaves_processing p)} (cfg : config) (Hcfg : complete cfg = true).
Context (Hnl : lacks (chr 10) p = true).
Abbreviation lh := (log_handler h).

#[local] Instance path_laws : RedisLaws h (leaves_path p).
Proof. eapply redis_laws_mono; [|exact RedisLaws0]. by intros d d' []. Qed.

(** If the trace is without faults, the program has not raised, and what it
    has returned satisfies [Q]. *)
Definition fine {A} (Q : A -> logged W -> Prop) (r : result A) (_ : RepoManager) (lw : logged W) : Prop :=
  Forall faultless (trace lw) ->
  match r with Ok a => Q a lw | Exc _ => False | Running => True end.

Lemma fine_bind {A B} (Q : A -> logged W -> Prop) (Q' : B -> logged W -> Prop)
    (m : py RepoManager A) (f : A -> py RepoManager B) s lw :
  wp lh (fine Q) m s lw ->
  (forall a s' lw', Q a lw' -> wp lh (fine Q') (f a) s' lw') ->
  wp lh (fine Q') (bind m f) s lw.
Proof.
  rewrite !wp_run. rewrite run_bind. destruct (run lh m s lw) as [[[a|e|] s1] lw1] eqn:E; [|done..].
  intros Hm Hf. destruct (run lh (f a) s1 lw1) as [[r s2] lw2] eqn:E2. intros Hall.
  destruct (run_extends h _ _ _ _ _ _ E2) as [l Hl]. pose proof Hall as Hall'.
  rewrite Hl in Hall. apply Forall_app in Hall as [H1 _].
  specialize (Hf a s1 lw1 (Hm H1)). rewrite wp_run, E2 in Hf. by apply Hf.
Qed.

(** What is known of the answers and what is known of the world together. *)
Lemma fine_intro {A} (P : result A -> Prop) (P' : result A -> logged W -> Prop)
    (Q : A -> logged W -> Prop) (m : py RepoManager A) s lw :
  obeys faultless P m -> wp lh (fun r _ => P' r) m s lw ->
  (forall r lw', P r -> P' r lw' ->
     match r with Ok a => Q a lw' | Exc _ => False | Running => True end) ->
  wp lh (fine Q) m s lw.
Proof.
  intros Hr Hq HQ. eapply wpc_mono; [apply (wp_and _ _ _ _ _ _ (obeys_wp h _ _ m s lw Hr) Hq)|done|].
  intros r s' lw' _ [H1 H2] Hall. by apply HQ; [apply H1|].
Qed.

Lemma fine_elsewhere {A} (Q : A -> Prop) (Phi : logged W -> Prop) R (m : py RepoManager A) s lw :
  (forall c lw', elsewhere c -> Phi lw' -> Phi (lh c lw').2) ->
  only elsewhere R m -> returns Q m -> Phi lw ->
  wp lh (fine (fun a lw' => Q a /\ Phi lw')) m s lw.
Proof.
  intros Hst Hm Hr HP. apply (fine_intro (yields Q) (fun _ => Phi)); [done| |by intros [a|e|]].
  eapply wpc_mono; [apply (wpc_only elsewhere R lh (fun _ => Phi)); [|done|exact Hm|exact HP]|done|done].
  intros c _ lw' Hc. by apply Hst.
Qed.

Lemma fine_lift {A B} (Q : B -> logged W -> Prop) (r : result A) (f : A -> py RepoManager B) s lw :
  is_ok r = true -> (forall a, r = Ok a -> wp lh (fine Q) (f a) s lw) ->
  wp lh (fine Q) (bind (lift r) f) s lw.
Proof.
  intros [a ->]%is_ok_inv Hf. apply wpc_bind, wpc_lift; [done|]. by apply Hf.
Qed.

(** *** Taking the paths *)

Definition ready (lw : logged W) : Prop := due p (rs_db (base lw)).

Lemma due_rely d d' : leaves_processing p d d' -> due p d -> due p d'.
Proof.
  intros [[H1 H2] H3] [H|[H Hk]]; [left; by rewrite H1|]. right. split; [auto|].
  unfold key_exists in *. by rewrite H1, H3.
Qed.

(** Calls that also leave a string key [processing] alone. *)
Definition apart (c : call) : Prop :=
  (forall cmds, c <> RedisPipeline cmds) /\
  forall enc d, leaves_processing p d (redis_step enc c d).

Lemma apart_base c lw : apart c -> leaves_processing p (rs_db (base lw)) (rs_db (base (lh c lw).2)).
Proof.
  intros [Hnp Hs]. destruct (log_world h c lw) as [_ ->].
  by apply (exec_rely h (leaves_processing p)).
Qed.

Lemma ready_apart c lw : apart c -> ready lw -> ready (lh c lw).2.
Proof. intros Hc. apply due_rely. by apply apart_base. Qed.

Lemma exists_ready lw n :
  ready lw -> (lh (RedisExists "processing") lw).1 = Ok n ->
  if n =? 0 then in_pending h p (lh (RedisExists "processing") lw).2
  else in_processing h p (lh (RedisExists "processing") lw).2.
Proof.
  intros Hr En. destruct (log_world h (RedisExists "processing") lw) as [Er Ew].
  unfold in_pending, in_processing, ready in *. rewrite Ew. rewrite Er in En.
  destruct (rl_exec (rely := leaves_processing p) (RedisExists "processing") (base lw)) as (d & d' & H1 & Hout & H2).
  rewrite En in Hout. destruct Hout as [-> Hn]. simpl in Hn.
  apply (due_rely _ _ H1) in Hr. destruct (Z.eqb_spec n 0) as [->|Hne].
  - destruct Hr as [Hp|[Hp _]]; [|by apply H2].
    apply dom_hash_field in Hp. by destruct (proj2 Hn Hp).
  - destruct Hr as [Hp|[_ Hk]]; [|by destruct Hk; apply Hn].
    destruct H2 as [[E _] _]. cbn [redis_step] in E. by rewrite E.
Qed.

Lemma fine_do {A} c (Q : A -> logged W -> Prop) (f : resp c -> py RepoManager A) s lw :
  (forall a, (lh c lw).1 = Ok a -> faultless (Entry c (Ok a)) -> wp lh (fine Q) (f a) s (lh c lw).2) ->
  wp lh (fine Q) (bind (do c) f) s lw.
Proof.
  intros Hf. rewrite wp_run, run_bind, run_do.
  pose proof (log_step h c lw) as Ht. destruct (lh c lw) as [[a|e|] lw1]; cbn [fst snd] in *.
  - destruct (run lh (f a) s lw1) as [[r s2] lw2] eqn:E. intros Hall.
    destruct (run_extends h _ _ _ _ _ _ E) as [l Hl]. pose proof Hall as Hall'.
    rewrite Hl, Ht in Hall. apply Forall_app in Hall as [Hall _].
    apply Forall_app in Hall as [_ Hall]. apply Forall_inv in Hall.
    specialize (Hf a eq_refl Hall). rewrite wp_run, E in Hf. by apply Hf.
  - intros Hall. rewrite Ht in Hall. apply Forall_app in Hall as [_ Hall].
    apply Forall_inv in Hall. destruct c; simpl in Hall; done.
  - done.
Qed.

Lemma fine_ret {A} (Q : A -> logged W -> Prop) a s lw : Q a lw -> wp lh (fine Q) (ret a) s lw.
Proof. intros H. apply wpc_ret; [done|]. by intros _. Qed.

Lemma fine_modify (Q : logged W -> Prop) f s lw : Q lw -> wp lh (fine (fun _ => Q)) (modify f) s lw.
Proof. intros H. apply wpc_modify; [done..|]. by intros _. Qed.

Lemma fine_try_finally {A} (Q : A -> logged W -> Prop) (m : py RepoManager A) fin s lw :
  wp lh (fine Q) m s lw ->
  (forall a s' lw', Q a lw' -> wp lh (fine (fun _ => Q a)) fin s' lw') ->
  wp lh (fine Q) (try_finally m fin) s lw.
Proof.
  rewrite !wp_run. rewrite run_try_finally. destruct (run lh m s lw) as [[r s1] lw1] eqn:E.
  intros Hm Hf. destruct r as [a|e|]; [..|done].
  - specialize (Hf a s1 lw1). rewrite wp_run in Hf.
    destruct (run lh fin s1 lw1) as [[rf s2] lw2] eqn:E2.
    destruct (run_extends h _ _ _ _ _ _ E2) as [l Hl].
    assert (Hall : Forall faultless (trace lw2) -> Q a lw1).
    { rewrite Hl. intros [H1 _]%Forall_app. exact (Hm H1). }
    destruct rf as [u|e|]; intros H; by apply (Hf (Hall H)).
  - destruct (run lh fin s1 lw1) as [[rf s2] lw2] eqn:E2.
    destruct (run_extends h _ _ _ _ _ _ E2) as [l Hl].
    assert (Hall : ~ Forall faultless (trace lw2)).
    { rewrite Hl. intros [H1 _]%Forall_app. exact (Hm H1). }
    destruct rf as [u|e'|]; intros H; by destruct Hall.
Qed.

Lemma exists_apart : apart (RedisExists "processing").
Proof. done. Qed.

Lemma swap_fine s lw :
  ready lw -> wp lh (fine (fun b lw' => b = true /\ in_processing h p lw')) swap_pending s lw.
Proof.
  intros Hr. unfold swap_pending. apply fine_do. intros n En _.
  pose proof (exists_ready lw n Hr En) as Hn.
  destruct (n =? 0); cbn [negb]; [|by apply fine_ret].
  set (c := RedisRename "pending" "processing").
  pose proof (rename_home h p _ Hn) as Hren. fold c in Hren.
  rewrite wp_run, run_try_except, run_bind, run_do.
  pose proof (log_step h c (lh (RedisExists "processing") lw).2) as Ht.
  destruct (lh c _) as [[u|e|] lw1]; cbn [fst snd] in *.
  - rewrite run_ret. by intros _.
  - assert (Hbad : Forall faultless (trace lw1) -> False).
    { rewrite Ht. intros [_ Hall]%Forall_app. by apply Forall_inv in Hall. }
    destruct (is_ResponseError e); [rewrite run_ret|simpl run]; intros Hall; by destruct Hbad.
  - done.
Qed.

(** *** The jobs and the end *)

Definition complete_run (lw : logged W) : Prop :=
  settled cfg p (trace lw) /\ ~ key_exists (rs_db (base lw)) "processing".

Lemma no_key_rely d d' :
  leaves_processing p d d' -> ~ key_exists d "processing" -> ~ key_exists d' "processing".
Proof. intros [[H1 _] H2]. unfold key_exists. by rewrite H1, H2. Qed.

Lemma complete_run_apart c lw : apart c -> complete_run lw -> complete_run (lh c lw).2.
Proof.
  intros Hc [H1 H2]. split; [by apply settled_step|].
  eapply no_key_rely; [by apply apart_base|done].
Qed.

Lemma delete_empties lw n :
  settled cfg p (trace lw) -> (lh (RedisDelete "processing") lw).1 = Ok n ->
  complete_run (lh (RedisDelete "processing") lw).2.
Proof.
  intros Hs En. split; [by apply settled_step|].
  destruct (log_world h (RedisDelete "processing") lw) as [Er ->]. rewrite Er in En.
  destruct (rl_exec (rely := leaves_processing p) (RedisDelete "processing") (base lw))
    as (d & d' & _ & Hout & Hd').
  rewrite En in Hout. destruct Hout as [-> _]. eapply no_key_rely; [exact Hd'|].
  cbn [redis_step]. intros [Hk|[v Hk]]; [by rewrite hash_delete_eq in Hk|]. simpl in Hk. by rewrite lookup_delete_eq in Hk.
Qed.

Lemma finish_fine tasks total start s lw :
  settled cfg p (trace lw) -> failed_repos total = [] ->
  wp lh (fine (fun _ => complete_run)) (finish tasks total start) s lw.
Proof.
  intros Hs Hf. unfold finish. rewrite Hf. apply (fine_bind (fun _ lw' => settled cfg p (trace lw'))).
  { by apply fine_ret. }
  intros _ s1 lw1 H1. apply fine_do. intros n En _. pose proof (delete_empties lw1 n H1 En) as H2.
  apply fine_do. intros t _ _. apply fine_do. intros t2 _ _. apply fine_do. intros k _ _.
  apply fine_ret. apply complete_run_apart.
  - split; [done|intros enc d]. split; [|done].
    split; cbn [redis_step]; unfold hset_all; by rewrite hash_set_hash_ne.
  - by do 2 (apply complete_run_apart; [done|]).
Qed.

Lemma scan_body_returns bp depth st :
  obeys (S := RepoManager) faultless (fun r => match r with Exc _ => False | _ => True end)
    (let* reply := do (RedisHScan "processing" (sc_cursor st) 10000) in
     let '(cursor, items) := reply in
     let st := scan_items bp depth cursor items.*1 st in
     if cursor =? 0 then ret (inr st) else ret (inl st)).
Proof.
  apply obeys_pbind. eapply obeys_mono; [|apply returns_any].
  intros [[cur items]|e|]; simpl; try done. by destruct (cur =? 0).
Qed.

Lemma process_fine fuel sched order start s lw :
  (forall n, order n ≡ₚ seq 0 n) -> in_processing h p lw ->
  wp lh (fine (fun _ => complete_run)) (process_tasks fuel sched order cfg start) s lw.
Proof.
  intros Hord Hp. pose proof (complete_keys cfg Hcfg) as Hk.
  destruct Hk as (Kb & Kd & Kr & _ & _ & _ & _ & _ & _ & workers & Ew & Hw).
  assert (Hst : forall c lw', elsewhere c -> in_processing h p lw' -> in_processing h p (lh c lw').2)
    by (intros c lw' Hc; exact (in_processing_stable h p c lw' Hc)).
  unfold process_tasks. apply fine_lift; [done|intros bp Ebp]. apply fine_lift; [done|intros depth Ed].
  apply (fine_bind (fun st lw' => collected bp depth (sc_tasks st) p /\ in_processing h p lw')).
  { eapply fine_intro; [by apply (obeys_while faultless), scan_body_returns|
      eapply wpc_mono; [by apply (hscan_collects h p cfg)|done|intros r ? ? _ H; exact H]|].
    by intros [st|e|] lw' H1 [H2 H3]. }
  intros st s1 lw1 [Hcol Hp1].
  eapply fine_bind; [apply (fine_elsewhere (fun _ => True) (in_processing h p) (fun _ _ => True)); [done|apply build_env_only|by apply build_env_returns|done]|].
  intros env s2 lw2 [_ Hp2]. apply fine_lift; [done|intros bin Eb].
  apply (fine_bind (fun _ lw' => in_processing h p lw')); [by apply fine_modify|].
  intros _ s3 lw3 Hp3. rewrite Ew. apply fine_lift; [done|intros w [= <-]].
  apply (fine_bind (fun total lw' => failed_repos total = [] /\ in_processing h p lw' /\
    forall rid, p ∈ task_paths (sc_tasks st) rid -> handled cfg bin rid p (trace lw'))).
  { eapply fine_intro; [by apply run_pool_returns|
      eapply wpc_mono; [by apply (run_pool_settles h p cfg)|done|intros r ? ? _ H; exact H]|].
    intros [total|e|] lw' H1 [H2 H3]; try done. simpl in H1. split; [done|]. split; [done|].
    intros rid Hin. destruct (H3 rid Hin) as [Hf|]; [|done]. rewrite H1 in Hf. by apply elem_of_nil in Hf. }
  intros total s4 lw4 (Hf & _ & Hh). apply finish_fine; [|done].
  exists bp, depth. split; [done|]. split; [done|]. unfold collected in Hcol.
  destruct (get_repo_id p bp depth) as [rid|]; [|done]. exists bin. auto.
Qed.

(** *** The whole run *)

Lemma inner_fine fuel sched order start s lw :
  (forall n, order n ≡ₚ seq 0 n) -> ready lw ->
  wp lh (fine (fun _ => complete_run)) (_run_backup_inner fuel sched order cfg start) s lw.
Proof.
  intros Hord Hr. unfold _run_backup_inner. eapply fine_bind; [by apply swap_fine|].
  intros b s1 lw1 [-> Hp]. by apply process_fine.
Qed.

Lemma acquire_fine s lw :
  ready lw -> wp lh (fine (fun b lw' => b = true /\ ready lw')) acquire_lock s lw.
Proof.
  intros Hr. unfold acquire_lock. apply fine_do. intros node _ _. apply fine_do. intros b _ Hb.
  simpl in Hb. injection Hb as ->. apply fine_ret. split; [done|].
  apply ready_apart; [|by apply ready_apart].
  split; [done|]. intros enc d. simpl. case_decide; [done|].
  split; [done|]. simpl. by rewrite lookup_insert_ne.
Qed.

Lemma run_backup_fine fuel sched order s lw :
  (forall n, order n ≡ₚ seq 0 n) -> ready lw ->
  wp lh (fine (fun _ => complete_run)) (run_backup fuel sched order cfg) s lw.
Proof.
  intros Hord Hr. unfold run_backup. eapply fine_bind; [by apply acquire_fine|].
  intros b s1 lw1 [-> H1]. cbn [negb]. apply fine_do. intros start _ _.
  assert (H2 : ready (lh TimeTime lw1).2) by (by apply ready_apart).
  apply fine_try_finally; [by apply inner_fine|].
  intros _ s2 lw2 Hc. unfold release_lock. apply fine_do. intros n _ _. apply fine_ret.
  apply complete_run_apart; [|done]. split; [done|]. intros enc d. split.
  - split; simpl; by rewrite hash_delete_ne.
  - simpl. by rewrite lookup_delete_ne.
Qed.
End Progress.

Lemma faultless_ends {W} (h : handler W) `{!RedisServer h} p
    `{!RedisLaws h (leaves_processing p)} cfg fuel sched order s w r s' lw' :
  lacks (chr 10) p = true -> complete cfg = true -> (forall n, order n ≡ₚ seq 0 n) ->
  due p (rs_db w) ->
  run (log_handler h) (run_backup fuel sched order cfg) s (Logged w []) = (r, s', lw') ->
  Forall faultless (trace lw') -> r <> Running ->
  r = Ok tt /\ settled cfg p (trace lw') /\ ~ key_exists (rs_db (base lw')) "processing".
Proof.
  intros Hnl Hcfg Hord Hd E Hall Hr.
  pose proof (run_backup_fine h p cfg Hcfg Hnl fuel sched order s (Logged w []) Hord Hd) as H.
  rewrite wp_run, E in H. specialize (H Hall). by destruct r as [[]|e|].
Qed.

(** ** Properties *)

(** C6. A backup run makes progress: when all calls of a run are answered
    without an error (the lock is free, restic exits with 0, or with 3 for a
    backup) and the configuration has the keys the run reads, the run returns
    normally, unless its scan does not end within the fuel; every path without a
    line feed that was due has then been settled by calls of this run: those in
    [processing] or, only if there is no [processing] key, those in [pending];
    and the key [processing] is gone.  This holds for any
    number of workers and any interleaving of the jobs, while other clients may
    do anything but remove the path from [pending] or touch [processing]. *)
Theorem faultless_run_settles {W} (h : handler W) `{!RedisServer h} p
    `{!RedisLaws h (leaves_processing p)} cfg fuel sched order s w r s' lw' :
  lacks (chr 10) p = true -> complete cfg = true -> (forall n, order n ≡ₚ seq 0 n) ->
  due p (rs_db w) ->
  run (log_handler h) (run_backup fuel sched order cfg) s (Logged w []) = (r, s', lw') ->
  Forall faultless (trace lw') -> r <> Running ->
  r = Ok tt /\ settled cfg p (trace lw') /\ ~ key_exists (rs_db (base lw')) "processing".
Proof. intros. by eapply faultless_ends. Qed.

(** ** Witness: two repositories, one of them new *)

Lemma sim_leaves_processing p : RedisLaws sim_handler (leaves_processing p).
Proof. apply (redis_laws_mono sim_handler eq); [by intros d d' ->|apply sim_laws]. Qed.

Definition calm_backup_world : sim :=
  with_db (set_hash "pending" {["/home/s/u/a" := "mtime_change"; "/home/s/v/c" := "rename"]} empty_db)
    (with_files ["/home/s/u/a"; "/home/s/v/c"]
      (with_exit (fun argv => if bool_decide ("cat" ∈ argv /\ "s3:http://minio:9000/backup/s/v" ∈ argv) then 1 else 0)
        sim0)).

Abbreviation calm_backup :=
  (run (log_handler sim_handler) (run_backup 2 [1; 0; 1; 1; 0]%nat (seq 0) demo_cfg) new_manager
     (Logged calm_backup_world [])).

Lemma faultless_run_settles_witness :
  settled demo_cfg "/home/s/v/c" (trace calm_backup.2) /\
  ~ key_exists (rs_db (base calm_backup.2)) "processing".
Proof.
  assert (Hall : Forall faultless (trace calm_backup.2)).
  { vm_compute. repeat (constructor; [first [reflexivity|exact I|left; reflexivity]|]). constructor. }
  assert (Hr : calm_backup.1.1 <> Running) by (vm_compute; discriminate).
  destruct calm_backup as [[r s'] lw'] eqn:E. cbn [fst snd] in *.
  refine (proj2 (@faultless_run_settles sim sim_handler _ "/home/s/v/c" (sim_leaves_processing _) demo_cfg
    2 [1; 0; 1; 1; 0]%nat (seq 0) new_manager calm_backup_world r s' lw' _ _ _ _ E Hall Hr)).
  - reflexivity.
  - reflexivity.
  - reflexivity.
  - right. split; [apply elem_of_dom; vm_compute; eexists; reflexivity|].
    intros [H|[v H]]; [by destruct H|]. revert H. vm_compute. discriminate.
Defined.
