(* ===== verification/Prune.v ===== *)
(** [backup/prune.py]: forget old snapshots in every repository of the bucket,
    under the same Redis lock as the backup. *)
From S2P Require Import Prelude PyStr PyVal Config Effects Semantics Redis Sim Repo Backup.

Local Open Scope string_scope.
Local Open Scope Z_scope.
Local Open Scope py_scope.
#[local] Set Warnings "-clear-no-such-hyp".

(** The process keeps no shared object: its state is [unit]. *)
Abbreviation pruner A := (py unit A).

Definition require_key (env : gmap string string) (key : string) : pruner unit :=
  match env !! key with
  | Some _ => ret tt
  | None => raise (RuntimeError ("환경변수 필요: " ++ key))
  end.

Definition restic_env : pruner (gmap string string) :=
  let* env := do OsEnviron in
  for_each ["RESTIC_PASSWORD"; "AWS_ACCESS_KEY_ID"; "AWS_SECRET_ACCESS_KEY"] (require_key env) ;;
  ret env.

(** [env[key]] *)
Definition env_item {S} (env : gmap string string) (key : string) : py S string :=
  lift (getitem key (env !! key)).

(** The body of the loop over [list_objects]: the prefix of a repository's
    [config] object; [repos] is a set, kept here as a list without duplicates. *)
Definition repo_prefix (object_name : string) : option string :=
  if endswith object_name "/config" then
    let p := rsplit1_head "/config" object_name in
    if String.eqb p "" then None else Some p
  else None.

Definition set_add (s : string) (l : list string) : list string :=
  if bool_decide (s ∈ l) then l else (l ++ [s])%list.

Definition add_repo (repos : list string) (object_name : string) : list string :=
  match repo_prefix object_name with
  | Some p => set_add p repos
  | None => repos
  end.

Definition repo_set (objects : list string) : list string := foldl add_repo [] objects.

Definition forget_argv (restic_bin : string) (keep_days : Z) (repo_url : string) : list string :=
  [restic_bin; "forget"; "--keep-within=" ++ str_of_Z keep_days ++ "d"; "--prune"; "-r"; repo_url].

Definition prune_repo (restic_bin : string) (keep_days : Z) (use_tls : bool)
    (endpoint bucket : string) (env : gmap string string) (repo_prefix : string) : pruner unit :=
  let repo_url := s3_url use_tls endpoint bucket repo_prefix in
  let* result := do (SubprocessRun (forget_argv restic_bin keep_days repo_url) env None) in
  if negb (returncode result =? 0) then let* _ := lift (decode (stderr result)) in ret tt
  else ret tt.

Definition prune_all_repos (cfg : config) : pruner unit :=
  let* env := restic_env in
  let* endpoint := lift (get_endpoint cfg) in
  let* bucket := lift (get_bucket cfg) in
  let* use_tls := lift (get_use_tls cfg) in
  let keep_days := get_keep_days cfg in
  let* restic_bin := lift (get_restic_binary cfg) in
  let* access_key := env_item env "AWS_ACCESS_KEY_ID" in
  let* secret_key := env_item env "AWS_SECRET_ACCESS_KEY" in
  let* objects := do (MinioListObjects endpoint access_key secret_key use_tls bucket) in
  for_each (sorted_str (repo_set objects))
    (prune_repo restic_bin keep_days use_tls endpoint bucket env).

Definition lock_key : string := "backup:lock".

(** The lock of [main]: [sys.exit(0)] when another process has it. *)
Definition take_lock : pruner unit :=
  let* node_id := do GetHostname in
  let* acquired := do (RedisSetNX lock_key (node_id ++ ":prune") 7200) in
  if negb acquired then do (RedisGet lock_key) ;; raise (SystemExit 0)
  else ret tt.

Definition main : pruner unit :=
  let* path := config_path in
  let* cfg := do (TomlLoad path) in
  let* url := lift (get_redis_url cfg) in
  do (RedisFromUrl url) ;;
  take_lock ;;
  try_finally (prune_all_repos cfg) (do (RedisDelete lock_key) ;; ret tt).

(** ** Lemmas *)

Lemma elem_of_set_add s t l : s ∈ set_add t l <-> s = t \/ s ∈ l.
Proof. unfold set_add. case_bool_decide; set_solver. Qed.

Lemma repo_set_spec objects p :
  p ∈ repo_set objects <-> exists o, o ∈ objects /\ repo_prefix o = Some p.
Proof.
  unfold repo_set. assert (forall acc, p ∈ foldl add_repo acc objects <->
    p ∈ acc \/ exists o, o ∈ objects /\ repo_prefix o = Some p) as ->.
  { induction objects as [|o objects IH]; intros acc; simpl; [set_solver|].
    rewrite IH. unfold add_repo. destruct (repo_prefix o) as [q|] eqn:E.
    - rewrite elem_of_set_add. set_solver.
    - set_solver. }
  set_solver.
Qed.

Lemma NoDup_repo_set objects : NoDup (repo_set objects).
Proof.
  unfold repo_set. assert (forall acc, NoDup acc -> NoDup (foldl add_repo acc objects)) as H;
    [|apply H, NoDup_nil_2].
  induction objects as [|o objects IH]; intros acc Hacc; simpl; [done|]. apply IH.
  unfold add_repo, set_add. destruct (repo_prefix o); [|done]. case_bool_decide; [done|].
  apply NoDup_app. split; [done|]. split; [set_solver|apply NoDup_singleton].
Qed.

Lemma repo_prefix_spec o p :
  repo_prefix o = Some p <-> o = p ++ "/config" /\ p <> "".
Proof.
  unfold repo_prefix. split.
  - destruct (endswith o "/config") eqn:E; [|done]. apply endswith_inv in E as [t ->].
    rewrite rsplit1_head_suffix by done. destruct (String.eqb_spec t ""); [done|]. by intros [= <-].
  - intros [-> Hne]. rewrite endswith_app, rsplit1_head_suffix by done.
    by destruct (String.eqb_spec p "").
Qed.

Section Prune.
Context {W : Type} (h : handler W).
Abbreviation lh := (log_handler h).


Lemma log_calls_step c (lw : logged W) :
  map call_of (trace (lh c lw).2) = (map call_of (trace lw) ++ [c])%list.
Proof. by rewrite (log_step h c lw), map_app. Qed.

(** The loop over the repositories runs restic once on each, in order, until
    an exception. *)
Lemma prune_loop bin days tls endpoint bucket env repos (lw : logged W) r u lw' :
  run lh (for_each repos (prune_repo bin days tls endpoint bucket env)) tt lw = (r, u, lw') ->
  exists k l, (k <= length repos)%nat /\ trace lw' = (trace lw ++ l)%list /\
  map call_of l =
    map (fun p => SubprocessRun (forget_argv bin days (s3_url tls endpoint bucket p)) env None)
        (take k repos) /\
  (r = Ok tt -> k = length repos).
Proof.
  revert lw. induction repos as [|p repos IH]; intros lw; cbn [for_each].
  { rewrite run_ret. intros [= <- _ <-]. exists 0%nat, []. by rewrite app_nil_r. }
  rewrite run_bind. unfold prune_repo at 1. rewrite run_bind, run_do.
  set (c := SubprocessRun _ env None). pose proof (log_step h c lw) as Ht.
  destruct (lh c lw) as [[proc|e|] lw1]; cbn [fst snd] in *.
  2,3: intros [= <- _ <-]; eexists 1%nat, _; simpl; (split; [lia|]); (split; [exact Ht|done]).
  assert (Hgo : forall x, x = Ok tt \/ x <> Ok tt ->
    match (x, tt, lw1) with
    | (Ok _, s1, w1) => run lh (for_each repos (prune_repo bin days tls endpoint bucket env)) s1 w1
    | (Exc e, s1, w1) => (Exc e, s1, w1)
    | (Running, s1, w1) => (Running, s1, w1)
    end = (r, u, lw') ->
    exists k l, (k <= length (p :: repos))%nat /\ trace lw' = (trace lw ++ l)%list /\
      map call_of l =
        map (fun p => SubprocessRun (forget_argv bin days (s3_url tls endpoint bucket p)) env None)
            (take k (p :: repos)) /\
      (r = Ok tt -> k = length (p :: repos))).
  { intros x _. destruct x as [[]|e|].
    - intros H. destruct (IH lw1 H) as (k & l & Hk & Hl & Hc & Hr). rewrite Ht, <-app_assoc in Hl.
      eexists (S k), _. split; [simpl; lia|]. split; [exact Hl|]. simpl. split; [by rewrite Hc|].
      intros Hok. by rewrite Hr.
    - intros [= <- _ <-]. eexists 1%nat, _. simpl. split; [lia|]. by split; [exact Ht|].
    - intros [= <- _ <-]. eexists 1%nat, _. simpl. split; [lia|]. by split; [exact Ht|]. }
  destruct (negb (returncode proc =? 0)).
  - rewrite run_bind. destruct (decode (stderr proc)) as [t|e|]; cbn [lift run]; cbv iota.
    + rewrite run_ret. apply (Hgo (Ok tt)). by left.
    + apply (Hgo (Exc e)). by right.
    + apply (Hgo Running). by right.
  - rewrite run_ret. apply (Hgo (Ok tt)). by left.
Qed.
End Prune.

Definition secrets : list string := ["RESTIC_PASSWORD"; "AWS_ACCESS_KEY_ID"; "AWS_SECRET_ACCESS_KEY"].

Definition first_missing (env : gmap string string) : option string :=
  head (filter (fun k => env !! k = None) secrets).

Lemma run_require {W} (h : handler W) env keys w :
  run h (for_each keys (require_key env)) tt w
  = match head (filter (fun k => env !! k = None) keys) with
    | Some k => (Exc (RuntimeError ("환경변수 필요: " ++ k)), tt, w)
    | None => (Ok tt, tt, w)
    end.
Proof.
  induction keys as [|k keys IH]; [done|]. cbn [for_each]. rewrite run_bind. unfold require_key at 1.
  destruct (env !! k) as [v|] eqn:E.
  - rewrite run_ret, filter_cons_False by congruence. exact IH.
  - by rewrite filter_cons_True.
Qed.

Lemma run_restic_env {W} (h : handler W) w :
  run h restic_env tt w
  = match h OsEnviron w with
    | (Ok env, w1) => (match first_missing env with Some k => Exc (RuntimeError ("환경변수 필요: " ++ k)) | None => Ok env end, tt, w1)
    | (Exc e, w1) => (Exc e, tt, w1)
    | (Running, w1) => (Running, tt, w1)
    end.
Proof.
  unfold restic_env. rewrite run_bind, run_do. destruct (h OsEnviron w) as [[env|e|] w1];
    cbn [fst snd]; [|done..]. rewrite run_bind, run_require. unfold first_missing, secrets.
  by destruct (head _).
Qed.

(** ** Properties *)

(** The repositories [prune.py] visits are exactly the non-empty prefixes
    [p] for which the bucket holds an object [p/config], each once, in
    ascending order. *)
Lemma repositories_of objects :
  Sorted str_le (sorted_str (repo_set objects)) /\ NoDup (sorted_str (repo_set objects)) /\
  (forall p, p ∈ sorted_str (repo_set objects) <-> p <> "" /\ p ++ "/config" ∈ objects).
Proof.
  split; [apply sorted_str_sorted|]. split; [rewrite sorted_str_perm; apply NoDup_repo_set|].
  intros p. rewrite sorted_str_perm, repo_set_spec. split.
  - intros (o & Ho & [-> Hne]%repo_prefix_spec). done.
  - intros [Hne Ho]. exists (p ++ "/config"). split; [done|]. by apply repo_prefix_spec.
Qed.

(** C37. [prune_all_repos], for any restic and MinIO: when it returns, it has read
    the environment, which answered [env], and listed the bucket once with the
    credentials of [env], which answered [objects]; and all its further calls are
    one [restic forget --keep-within], with [env], on each of [repos], in order;
    these are, without repetition and in ascending order, exactly the non-empty
    prefixes [p] of which the answer contains the object [p/config]. *)
Theorem prune_forgets_all {W} (h : handler W) cfg w u lw' :
  run (log_handler h) (prune_all_repos cfg) tt (Logged w []) = (Ok tt, u, lw') ->
  exists env endpoint bucket tls bin access secret objects repos forgets,
    get_endpoint cfg = Ok endpoint /\ get_bucket cfg = Ok bucket /\ get_use_tls cfg = Ok tls /\
    get_restic_binary cfg = Ok bin /\
    env !! "AWS_ACCESS_KEY_ID" = Some access /\ env !! "AWS_SECRET_ACCESS_KEY" = Some secret /\
    trace lw' = (Entry OsEnviron (Ok env) ::
                 Entry (MinioListObjects endpoint access secret tls bucket) (Ok objects) :: forgets)%list /\
    map call_of forgets =
      map (fun p => SubprocessRun
                      (forget_argv bin (get_keep_days cfg) (s3_url tls endpoint bucket p)) env None) repos /\
    Sorted str_le repos /\ NoDup repos /\
    (forall p, p ∈ repos <-> p <> "" /\ p ++ "/config" ∈ objects).
Proof.
  unfold prune_all_repos. rewrite run_bind, run_restic_env.
  pose proof (log_step h OsEnviron (Logged w [])) as H1.
  destruct (log_handler h OsEnviron (Logged w [])) as [[env|e|] lw1]; [|done..].
  destruct (first_missing env); [done|]. cbn [fst snd trace app] in H1.
  rewrite run_lift. destruct (get_endpoint cfg) as [endpoint|e|]; [|done..].
  rewrite run_lift. destruct (get_bucket cfg) as [bucket|e|]; [|done..].
  rewrite run_lift. destruct (get_use_tls cfg) as [tls|e|]; [|done..]. cbv zeta.
  rewrite run_lift. destruct (get_restic_binary cfg) as [bin|e|]; [|done..].
  unfold env_item.
  rewrite run_lift. destruct (getitem "AWS_ACCESS_KEY_ID" _) as [access|e|] eqn:Ea; [|done..].
  rewrite run_lift. destruct (getitem "AWS_SECRET_ACCESS_KEY" _) as [secret|e|] eqn:Es; [|done..].
  apply getitem_Some in Ea, Es.
  rewrite run_bind, run_do. set (c := MinioListObjects _ _ _ _ _).
  pose proof (log_step h c lw1) as H2.
  destruct (log_handler h c lw1) as [[objects|e|] lw2]; cbn [fst snd] in *; [|done..].
  intros H. destruct (prune_loop h _ _ _ _ _ _ _ _ _ _ _ H) as (k & l & _ & Hl & Hc & Hk).
  exists env, endpoint, bucket, tls, bin, access, secret, objects, (sorted_str (repo_set objects)), l.
  do 6 (split; [done|]). split; [by rewrite Hl, H2, H1|].
  split; [by rewrite Hc, (Hk eq_refl), firstn_all|apply repositories_of].
Qed.

(** [prune.py] does not get past a lock that is held: it leaves the
    keyspace as it is and raises [SystemExit(0)], or what a failing call
    raised. *)
Theorem prune_respects_lock {W} (h : handler W) `{!RedisServer h} `{!RedisLaws h eq} w r u w' :
  key_exists (rs_db w) LOCK_KEY ->
  run h take_lock tt w = (r, u, w') ->
  r <> Ok tt /\ rs_db w' = rs_db w.
Proof.
  intros Hk. unfold take_lock. rewrite run_bind, run_do.
  pose proof (rs_db_idle h GetHostname w ltac:(done) ltac:(done)) as H1.
  destruct (h GetHostname w) as [[node|e|] w1]; cbn [fst snd] in *; [|by intros [= <- _ <-]..].
  rewrite run_bind, run_do. set (c := RedisSetNX lock_key (node ++ ":prune") 7200).
  destruct (rl_exec c w1) as (d & d' & <- & Hout & Hd'). rewrite H1 in Hout.
  assert (redis_step rs_encode c (rs_db w) = rs_db w) as Hstep by (simpl; by rewrite decide_True).
  destruct (h c w1) as [[b|e|] w2]; cbn [fst snd] in *.
  - destruct Hout as [-> Hb]. rewrite Hstep in Hd'. simpl in Hb.
    destruct b; [by destruct (proj1 Hb eq_refl)|]. cbn [negb]. rewrite run_bind, run_do.
    pose proof (rs_db_idle h (RedisGet lock_key) w2 ltac:(done) ltac:(done)) as H3.
    destruct (h (RedisGet lock_key) w2) as [[o|e|] w3]; cbn [fst snd] in *;
      intros [= <- _ <-]; (split; [done|congruence]).
  - intros [= <- _ <-]. split; [done|]. rewrite <-Hd'. destruct Hout as [->|Hout]; [done|].
    destruct e; try done; by rewrite Hout, Hstep.
  - intros [= <- _ <-]. split; [done|]. rewrite <-Hd'. destruct Hout as [->|Hout]; [done|].
    by rewrite Hout, Hstep.
Qed.

(** ** Witnesses *)

Definition demo_secrets : gmap string string :=
  {["RESTIC_PASSWORD" := "r"; "AWS_ACCESS_KEY_ID" := "a"; "AWS_SECRET_ACCESS_KEY" := "s"]}.

Definition bucket_world : sim :=
  with_env demo_secrets (with_objects ["s/v/config"; "s/u/config"; "s/u/data/00"; "config"; "/config"] sim0).

Lemma prune_forgets_all_witness :
  let '(r, _, lw) := run (log_handler sim_handler) (prune_all_repos demo_cfg) tt (Logged bucket_world []) in
  r = Ok tt /\ length (trace lw) = 4%nat /\
  exists env repos forgets, drop 2 (trace lw) = forgets /\
    map call_of forgets = map (fun p => SubprocessRun
      (forget_argv "restic" 90 (s3_url false "minio:9000" "backup" p)) env None) repos /\
    Sorted str_le repos /\ NoDup repos /\ length repos = 2%nat.
Proof.
  assert (Hrun : (run (log_handler sim_handler) (prune_all_repos demo_cfg) tt (Logged bucket_world [])).1.1 = Ok tt)
    by (vm_compute; reflexivity).
  assert (Hlen : length (trace (run (log_handler sim_handler) (prune_all_repos demo_cfg) tt
                                 (Logged bucket_world [])).2) = 4%nat) by (vm_compute; reflexivity).
  destruct (run (log_handler sim_handler) (prune_all_repos demo_cfg) tt (Logged bucket_world []))
    as [[r u] lw] eqn:E.
  cbn [fst snd] in Hrun, Hlen. rewrite Hrun in E. split; [exact Hrun|]. split; [exact Hlen|].
  destruct (prune_forgets_all sim_handler demo_cfg bucket_world u lw E)
    as (env & ep & bk & tls & bin & ac & sc & objs & repos & forgets & H1 & H2 & H3 & H4 & _ & _ & Ht & Hc & Hs & Hn & _).
  injection H1 as <-. injection H2 as <-. injection H3 as <-. injection H4 as <-.
  rewrite Ht in Hlen |- *. injection Hlen as Hlen. exists env, repos, forgets.
  split; [reflexivity|]. split; [exact Hc|]. split; [exact Hs|]. split; [exact Hn|].
  rewrite <-(length_map call_of), Hc, length_map in Hlen. exact Hlen.
Defined.

Lemma prune_respects_lock_witness :
  (run sim_handler take_lock tt (with_db (RedisDb ∅ {[LOCK_KEY := "node-002"]}) sim0)).1.1 <> Ok tt.
Proof.
  destruct (run sim_handler take_lock tt (with_db (RedisDb ∅ {[LOCK_KEY := "node-002"]}) sim0))
    as [[r u] w'] eqn:E.
  apply (prune_respects_lock sim_handler _ r u w') in E; [exact (proj1 E)|].
  right. vm_compute. eexists. reflexivity.
Defined.
