(* ===== verification/Lock.v ===== *)
(** The lock of the backup and prune jobs, as a protocol between processes.

    [lock_step] is an abstract specification, not a translation: what the jobs of
    all nodes and Redis should do to the lock key, one command at a time.  The
    refinement theorems show that the code's [acquire_lock], [take_lock] and
    [release_lock] make such steps; [System.v] shows it for whole runs, and
    proves the exclusion of the runs themselves. *)
From S2P Require Import Prelude PyStr PyVal Config Effects Semantics Redis Sim Repo Backup Prune.

Local Open Scope string_scope.
Local Open Scope Z_scope.
Local Open Scope py_scope.

Inductive phase : Type :=
| Waiting    (* has not asked for the lock *)
| Working    (* between a successful acquire and the release *)
| Finished.  (* refused, without an answer, released or killed *)

#[export] Instance phase_eq_dec : EqDecision phase.
Proof. solve_decision. Defined.

(** A job is identified by a number; [token] is the value it stores. *)
Record cluster := Cluster {
  cl_db : redis_db;
  cl_phase : nat -> phase
}.

Definition set_phase (j : nat) (ph : phase) (f : nat -> phase) : nat -> phase :=
  fun i => if decide (i = j) then ph else f i.

Section Protocol.
Context (enc : pyval -> option string).

Definition set_nx (token : string) : redis_db -> redis_db :=
  redis_step enc (RedisSetNX LOCK_KEY token LOCK_TTL).
Definition delete_lock : redis_db -> redis_db := redis_step enc (RedisDelete LOCK_KEY).

(** [may_expire] says when Redis's expiry of the key is considered. *)
Inductive lock_step (may_expire : cluster -> Prop) : cluster -> cluster -> Prop :=
| step_acquired c j token :
    cl_phase c j = Waiting -> ~ key_exists (cl_db c) LOCK_KEY ->
    lock_step may_expire c (Cluster (set_nx token (cl_db c)) (set_phase j Working (cl_phase c)))
| step_refused c j token :
    cl_phase c j = Waiting -> key_exists (cl_db c) LOCK_KEY ->
    lock_step may_expire c (Cluster (set_nx token (cl_db c)) (set_phase j Finished (cl_phase c)))
| step_unanswered c j token :
    cl_phase c j = Waiting ->
    lock_step may_expire c (Cluster (set_nx token (cl_db c)) (set_phase j Finished (cl_phase c)))
| step_release c j :
    cl_phase c j = Working ->
    lock_step may_expire c (Cluster (delete_lock (cl_db c)) (set_phase j Finished (cl_phase c)))
| step_killed c j :
    lock_step may_expire c (Cluster (cl_db c) (set_phase j Finished (cl_phase c)))
| step_other c d :
    (key_exists d LOCK_KEY <-> key_exists (cl_db c) LOCK_KEY) ->
    lock_step may_expire c (Cluster d (cl_phase c))
| step_expire c :
    may_expire c ->
    lock_step may_expire c (Cluster (delete_lock (cl_db c)) (cl_phase c)).

Inductive reachable (may_expire : cluster -> Prop) : cluster -> Prop :=
| reach_start d : reachable may_expire (Cluster d (fun _ => Waiting))
| reach_step c c' : reachable may_expire c -> lock_step may_expire c c' -> reachable may_expire c'.

(** *** Invariant *)

Definition nobody_works (c : cluster) : Prop := forall i, cl_phase c i <> Working.

Definition lock_inv (c : cluster) : Prop :=
  (forall i j, cl_phase c i = Working -> cl_phase c j = Working -> i = j) /\
  (forall i, cl_phase c i = Working -> key_exists (cl_db c) LOCK_KEY).

Lemma set_nx_exists token d : key_exists (set_nx token d) LOCK_KEY.
Proof.
  unfold set_nx. simpl. case_decide as Hk; [done|]. right. simpl.
  rewrite lookup_insert_eq. by eexists.
Qed.

Lemma lock_inv_leave c j ph d :
  ph <> Working -> lock_inv c ->
  (forall i, i <> j -> cl_phase c i = Working -> key_exists d LOCK_KEY) ->
  lock_inv (Cluster d (set_phase j ph (cl_phase c))).
Proof.
  intros Hph [Hone _] Hd. split; simpl; unfold set_phase.
  - intros i k. repeat case_decide; try done. apply Hone.
  - intros i. case_decide; [done|]. by apply Hd.
Qed.

Lemma lock_inv_step c c' : lock_inv c -> lock_step nobody_works c c' -> lock_inv c'.
Proof.
  intros Hinv Hs. pose proof Hinv as [Hone Hkey].
  destruct Hs as [c j token Hj Hk|c j token Hj Hk|c j token Hj|c j Hj|c j|c d Hd|c Hnone].
  - assert (Hno : forall i, cl_phase c i <> Working) by (intros i Hi; by apply Hk, (Hkey i)).
    split; simpl; unfold set_phase.
    + intros i k. repeat case_decide; subst; try done; intros; exfalso; by eapply Hno.
    + intros i _. apply set_nx_exists.
  - apply lock_inv_leave; [done|done|]. intros i _ _. apply set_nx_exists.
  - apply lock_inv_leave; [done|done|]. intros i _ _. apply set_nx_exists.
  - apply lock_inv_leave; [done|done|]. intros i Hne Hi. by destruct Hne, (Hone i j).
  - apply lock_inv_leave; [done|done|]. intros i _. apply Hkey.
  - split; simpl; [done|]. intros i Hi. apply Hd. by apply (Hkey i).
  - split; simpl; [done|]. intros i Hi. by destruct (Hnone i).
Qed.

Lemma reachable_inv c : reachable nobody_works c -> lock_inv c.
Proof.
  induction 1 as [d|c c' _ IH Hs]; [by split|]. by eapply lock_inv_step.
Qed.
End Protocol.

(** *** The code makes these steps *)

Section Refines.
Context {W : Type} (h : handler W) `{!RedisServer h} `{!RedisLaws h eq}.

(** A [SET NX] on the lock key that answers. *)
Lemma set_nx_answer token w b w' :
  h (RedisSetNX LOCK_KEY token LOCK_TTL) w = (Ok b, w') ->
  rs_db w' = set_nx rs_encode token (rs_db w) /\
  (b = true <-> ~ key_exists (rs_db w) LOCK_KEY).
Proof.
  intros E. destruct (rl_exec (RedisSetNX LOCK_KEY token LOCK_TTL) w) as (d & d' & <- & Hout & Hd).
  rewrite E in Hout, Hd. destruct Hout as [-> Hb]. cbn [fst snd] in Hd.
  by rewrite <-Hd.
Qed.

Lemma lock_step_answer P token w b w' c j :
  h (RedisSetNX LOCK_KEY token LOCK_TTL) w = (Ok b, w') ->
  cl_db c = rs_db w -> cl_phase c j = Waiting ->
  lock_step rs_encode P c
    (Cluster (rs_db w') (set_phase j (if b then Working else Finished) (cl_phase c))).
Proof.
  intros E Hdb Hj. destruct (set_nx_answer _ _ _ _ E) as [-> Hb]. rewrite <-Hdb in *.
  destruct b.
  - apply step_acquired; [done|by apply Hb].
  - apply step_refused; [done|]. destruct (decide (key_exists (cl_db c) LOCK_KEY)) as [|Hn]; [done|].
    by apply Hb in Hn.
Qed.
End Refines.

(** ** Properties *)

(** The release does not check whose lock it deletes: when a job outlives
    its lock, a second job works together with it, and the release of the first
    job removes the lock of the second, which goes on without one. *)
Theorem release_deletes_other_lock enc :
  exists c c', reachable enc (fun _ => True) c /\
    cl_phase c 0 = Working /\ cl_phase c 1 = Working /\ key_exists (cl_db c) LOCK_KEY /\
    lock_step enc (fun _ => False) c c' /\
    cl_phase c' 1 = Working /\ ~ key_exists (cl_db c') LOCK_KEY.
Proof.
  pose (c0 := Cluster empty_db (fun _ => Waiting)).
  assert (Hnone : forall d, ~ key_exists (delete_lock enc d) LOCK_KEY).
  { intros d [Hh|Hs]; [apply Hh; exact (hash_delete_eq d LOCK_KEY)|].
    simpl in Hs. rewrite lookup_delete_eq in Hs. by destruct Hs. }
  assert (reachable enc (fun _ => True) c0) as H0 by apply reach_start.
  eapply reach_step in H0; [|apply (step_acquired enc _ c0 0 "node-a"); [done|]].
  2: { intros [Hh|Hs]; [by apply Hh|by destruct Hs]. }
  eapply reach_step in H0; [|by apply step_expire].
  eapply reach_step in H0; [|apply (step_acquired enc _ _ 1 "node-b"); [done|apply Hnone]].
  eexists. eexists. split; [exact H0|]. do 2 (split; [done|]).
  split; [apply set_nx_exists|]. split; [by apply (step_release enc _ _ 0)|].
  split; [done|]. apply Hnone.
Qed.

(** [acquire_lock] of [backup.py] refines the protocol: with Redis to
    itself, a call that returns makes the step of a job that gets the lock, and
    returns [True], or is refused, and returns [False]. *)
Theorem acquire_lock_refines {W} (h : handler W) `{!RedisServer h} `{!RedisLaws h eq}
    (s s' : RepoManager) w b w' P c j :
  run h acquire_lock s w = (Ok b, s', w') ->
  cl_db c = rs_db w -> cl_phase c j = Waiting ->
  lock_step rs_encode P c
    (Cluster (rs_db w') (set_phase j (if b then Working else Finished) (cl_phase c))).
Proof.
  unfold acquire_lock. rewrite run_bind, run_do. intros H Hdb Hj.
  pose proof (rs_db_idle h GetHostname w ltac:(done) ltac:(done)) as H1.
  destruct (h GetHostname w) as [[node|e|] w1]; cbn [fst snd] in *; [|done..].
  rewrite run_bind, run_do in H. rewrite <-H1 in Hdb.
  destruct (h (RedisSetNX LOCK_KEY node LOCK_TTL) w1) as [[b'|e|] w2] eqn:E; cbn [fst snd] in *; [|done..].
  destruct b'; cbn [negb] in H.
  - injection H as <- _ <-. by eapply (lock_step_answer h _ _ _ true).
  - rewrite run_bind, run_do in H.
    pose proof (rs_db_idle h (RedisGet LOCK_KEY) w2 ltac:(done) ltac:(done)) as H3.
    destruct (h (RedisGet LOCK_KEY) w2) as [[o|e|] w3]; cbn [fst snd] in *; [|done..].
    injection H as <- _ <-. rewrite H3. by eapply (lock_step_answer h _ _ _ false).
Qed.

(** The lock of [prune.py] refines the same protocol, on the same key:
    when [take_lock] returns, its job is the one that got the lock. *)
Theorem take_lock_refines {W} (h : handler W) `{!RedisServer h} `{!RedisLaws h eq} w u w' P c j :
  run h take_lock tt w = (Ok tt, u, w') ->
  cl_db c = rs_db w -> cl_phase c j = Waiting ->
  lock_step rs_encode P c (Cluster (rs_db w') (set_phase j Working (cl_phase c))).
Proof.
  unfold take_lock. rewrite run_bind, run_do. intros H Hdb Hj.
  pose proof (rs_db_idle h GetHostname w ltac:(done) ltac:(done)) as H1.
  destruct (h GetHostname w) as [[node|e|] w1]; cbn [fst snd] in *; [|done..].
  rewrite run_bind, run_do in H. rewrite <-H1 in Hdb.
  destruct (h (RedisSetNX lock_key (node ++ ":prune") 7200) w1) as [[b'|e|] w2] eqn:E;
    cbn [fst snd] in *; [|done..].
  destruct b'; cbn [negb] in H.
  - injection H as _ <-. by eapply (lock_step_answer h _ _ _ true).
  - rewrite run_bind, run_do in H. by destruct (h (RedisGet lock_key) w2) as [[o|e|] w3].
Qed.

(** [release_lock] refines the protocol's release, for a working job. *)
Theorem release_lock_refines {W} (h : handler W) `{!RedisServer h} `{!RedisLaws h eq}
    (s s' : RepoManager) w w' P c j :
  run h release_lock s w = (Ok tt, s', w') ->
  cl_db c = rs_db w -> cl_phase c j = Working ->
  lock_step rs_encode P c (Cluster (rs_db w') (set_phase j Finished (cl_phase c))).
Proof.
  unfold release_lock. rewrite run_bind, run_do. intros H Hdb Hj.
  destruct (rl_exec (RedisDelete LOCK_KEY) w) as (d & d' & <- & Hout & Hd).
  destruct (h (RedisDelete LOCK_KEY) w) as [[z|e|] w1]; cbn [fst snd] in *; [|done..].
  destruct Hout as [-> _]. injection H as _ <-. rewrite <-Hd, <-Hdb. by apply step_release.
Qed.

(** ** Witnesses *)

Definition one_works : cluster :=
  Cluster (set_nx sim_encode "node-001" empty_db) (set_phase 3 Working (fun _ => Waiting)).

Lemma one_works_step P : lock_step sim_encode P (Cluster empty_db (fun _ => Waiting)) one_works.
Proof.
  apply (step_acquired sim_encode P (Cluster empty_db (fun _ => Waiting)) 3 "node-001"); [reflexivity|].
  intros [Hh|[x Hx]]; [by apply Hh|discriminate].
Defined.

Lemma acquire_lock_refines_witness :
  let '(_, _, w') := run sim_handler acquire_lock new_manager sim0 in
  lock_step sim_encode nobody_works (Cluster empty_db (fun _ => Waiting))
    (Cluster (sim_db w') (set_phase 0 Working (fun _ => Waiting))).
Proof.
  destruct (run sim_handler acquire_lock new_manager sim0) as [[r s'] w'] eqn:E.
  assert (r = Ok true) as -> by (vm_compute in E; congruence).
  exact (acquire_lock_refines sim_handler new_manager s' sim0 true w' nobody_works
           (Cluster empty_db (fun _ => Waiting)) 0 E eq_refl eq_refl).
Defined.

Lemma take_lock_refines_witness :
  let '(_, _, w') := run sim_handler take_lock tt sim0 in
  lock_step sim_encode nobody_works (Cluster empty_db (fun _ => Waiting))
    (Cluster (sim_db w') (set_phase 0 Working (fun _ => Waiting))).
Proof.
  destruct (run sim_handler take_lock tt sim0) as [[r u] w'] eqn:E.
  assert (r = Ok tt) as -> by (vm_compute in E; congruence).
  exact (take_lock_refines sim_handler sim0 u w' nobody_works
           (Cluster empty_db (fun _ => Waiting)) 0 E eq_refl eq_refl).
Defined.

Lemma release_lock_refines_witness :
  let '(_, _, w') := run sim_handler release_lock new_manager (with_db (cl_db one_works) sim0) in
  lock_step sim_encode nobody_works one_works
    (Cluster (sim_db w') (set_phase 3 Finished (cl_phase one_works))).
Proof.
  destruct (run sim_handler release_lock new_manager (with_db (cl_db one_works) sim0))
    as [[r s'] w'] eqn:E.
  assert (r = Ok tt) as -> by (vm_compute in E; congruence).
  exact (release_lock_refines sim_handler new_manager s' (with_db (cl_db one_works) sim0) w'
           nobody_works one_works 3 E eq_refl eq_refl).
Defined.
