(* ===== verification/Jobs.v ===== *)
(** Backup and prune runs as processes that obey the lock.

    [after] is the phase of the lock protocol that a call and its answer bring
    a run to; [follows] says that a program makes, in each phase, only the calls
    the protocol allows: restic, [pending] and [processing] only while it works,
    the lock key only by asking for it once and by releasing it.  The [main] of
    [backup.py] and that of [prune.py] follow it, whatever they are answered.
    The last part says what [BackEnd] needs of a backup that is somewhere in its
    run: that what is left of it is safe for a path. *)
From S2P Require Import Prelude PyStr PyVal Config Effects Semantics Redis Interleave.
From S2P Require Import Repo Backup NoLoss Prune Lock.

Local Open Scope string_scope.
Local Open Scope Z_scope.
Local Open Scope py_scope.
#[local] Set Warnings "-clear-no-such-hyp".

(** ** Calls *)

(** Calls that leave [pending] and [processing] alone and take no part in an
    [HSCAN]. *)
Definition bystander (c : call) : Prop :=
  elsewhere c /\ forall name cur count, c <> RedisHScan name cur count.

Definition pcmd_key (c : pcmd) : string := match c with PHSet name _ _ | PHDel name _ => name end.

(** Calls that leave the lock key alone. *)
Definition lock_free (c : call) : Prop :=
  match c with
  | RedisRename src dst => src <> LOCK_KEY /\ dst <> LOCK_KEY
  | RedisDelete name | RedisSetNX name _ _ | RedisHSetMapping name _ => name <> LOCK_KEY
  | RedisPipeline cmds => Forall (fun c => pcmd_key c <> LOCK_KEY) cmds
  | _ => True
  end.

(** Calls that need no lock. *)
Definition free (c : call) : Prop :=
  bystander c /\ lock_free c /\ forall argv env timeout, c <> SubprocessRun argv env timeout.

Definition after (ph : phase) (e : entry) : phase :=
  let '(Entry c r) := e in
  match c return result (resp c) -> phase with
  | RedisSetNX name _ _ => fun r =>
      if decide (name = LOCK_KEY /\ ph = Waiting)
      then match r with Ok true => Working | _ => Finished end else ph
  | RedisDelete name => fun _ => if decide (name = LOCK_KEY) then Finished else ph
  | _ => fun _ => ph
  end r.

Definition allowed (ph : phase) (c : call) : Prop :=
  match ph with
  | Waiting => free c \/ exists token ex, c = RedisSetNX LOCK_KEY token ex
  | Working => lock_free c \/ c = RedisDelete LOCK_KEY
  | Finished => free c
  end.

(** [Q]: what holds of the phase and the result at the end. *)
Fixpoint follows {S A} (Q : phase -> A -> Prop) (ph : phase) (p : prog S A) : Prop :=
  match p with
  | Ret a => Q ph a
  | Do c k => allowed ph c /\ forall r, follows Q (after ph (Entry c r)) (k r)
  | Mem f k => forall s, follows Q ph (k (f s).1)
  end.

(** ** Lemmas *)

Lemma follows_mono {S A} (Q Q' : phase -> A -> Prop) ph (p : prog S A) :
  (forall ph' a, Q ph' a -> Q' ph' a) -> follows Q ph p -> follows Q' ph p.
Proof.
  intros HQ. revert ph. induction p as [a|c k IH|X f k IH]; intros ph; simpl; [apply HQ|..].
  - intros [Hc Hk]. split; [done|]. intros r. by apply IH.
  - intros Hk s. by apply IH.
Qed.

Lemma follows_pbind {S A B} (Q : phase -> B -> Prop) ph (p : prog S A) f :
  follows (fun ph' a => follows Q ph' (f a)) ph p -> follows Q ph (pbind p f).
Proof.
  revert ph. induction p as [a|c k IH|X g k IH]; intros ph; simpl; [done|..].
  - intros [Hc Hk]. split; [done|]. intros r. by apply IH.
  - intros Hk s. by apply IH.
Qed.

Lemma after_free ph c r : lock_free c -> after ph (Entry c r) = ph.
Proof.
  destruct c; simpl; intros H; try done; rewrite decide_False; try done. by intros [].
Qed.

(** A program without lock commands stays in its phase. *)
Lemma follows_only {S A} P R ph (p : prog S A) :
  (forall c, P c -> lock_free c /\ allowed ph c) -> only P R p ->
  follows (fun ph' _ => ph' = ph) ph p.
Proof.
  intros HP. induction p as [a|c k IH|X f k IH]; cbn [follows only]; [done|..].
  - intros [Hc Hk]. destruct (HP c Hc) as [Hl Ha]. split; [done|]. intros r.
    rewrite after_free by done. by apply IH.
  - intros Hk s. apply IH, Hk.
Qed.

Lemma follows_end {S A} (Q : phase -> A -> Prop) ph (p : prog S A) :
  (forall a, Q ph a) -> follows (fun ph' _ => ph' = ph) ph p -> follows Q ph p.
Proof. intros HQ. apply follows_mono. by intros ? a ->. Qed.

Lemma follows_bind {S A B} (Q : phase -> result A -> Prop) (Q' : phase -> result B -> Prop)
    ph (m : py S A) (f : A -> py S B) :
  follows Q ph m -> (forall ph' a, Q ph' (Ok a) -> follows Q' ph' (f a)) ->
  (forall ph' e, Q ph' (Exc e) -> Q' ph' (Exc e)) -> (forall ph', Q ph' Running -> Q' ph' Running) ->
  follows Q' ph (bind m f).
Proof.
  intros Hm Hf He Hr. apply follows_pbind. eapply follows_mono; [|exact Hm].
  intros ph' [a|e|] H; simpl; auto.
Qed.

Definition any {A} (_ : phase) (_ : A) : Prop := True.

Lemma follows_then {S A B} P R ph (m : py S A) (f : A -> py S B) :
  (forall c, P c -> lock_free c /\ allowed ph c) -> only P R m ->
  (forall a, follows any ph (f a)) -> follows any ph (bind m f).
Proof.
  intros HP Hm Hf. eapply follows_bind; [by eapply follows_only| |done..]. intros ph' a ->. apply Hf.
Qed.

(** The work under the lock, and its release. *)
Lemma follows_locked {S A} P R R' (m : py S A) (rest : py S unit) :
  (forall c, P c -> lock_free c) -> only P R m -> only free R' rest ->
  follows any Working (try_finally m (do (RedisDelete LOCK_KEY) ;; rest)).
Proof.
  intros HP Hm Hrest.
  assert (Hfin : forall (r : result A), follows any Working
    (pbind (do (RedisDelete LOCK_KEY) ;; rest)
       (fun f => match f with Ok _ => Ret r | Exc e => Ret (Exc e) | Running => Ret Running end))).
  { intros r. apply follows_pbind, (follows_bind (fun ph _ => ph = Finished) _).
    - split; [by right|]. by intros x.
    - intros ph' x ->. eapply follows_end, follows_only; [by intros []| |exact Hrest].
      intros c Hc. split; [apply Hc|done].
    - done.
    - done. }
  apply follows_pbind. eapply follows_end; [|eapply follows_only; [|exact Hm]].
  - intros [a|e|]; [apply Hfin..|done].
  - intros c Hc. split; [by apply HP|left; by apply HP].
Qed.

(** *** The backup *)

Ltac solve_lock_free := solve_only; try done; by repeat split.

Lemma lock_key_processing : "processing" <> LOCK_KEY.
Proof. done. Qed.

Lemma swap_pending_lock_free {S} : only lock_free (fun _ _ => True) (swap_pending (S:=S)).
Proof. unfold swap_pending. solve_lock_free. Qed.

Lemma process_lock_free fuel sched order cfg start :
  only lock_free (fun _ _ => True) (process_tasks fuel sched order cfg start).
Proof.
  unfold process_tasks. do 2 (apply only_bind; [done|intros ?]).
  apply only_bind; [unfold hscan_loop; solve_lock_free|intros st].
  apply only_bind; [unfold build_env, env_default; solve_lock_free|intros env].
  do 3 (apply only_bind; [done|intros ?]).
  apply only_bind; [|intros total].
  - eapply only_mono; [|done|apply run_pool_only]. by intros [].
  - unfold finish. apply only_bind.
    + destruct (failed_repos total) as [|r rs]; [done|]. apply only_do. unfold lock_free.
      eapply Forall_impl; [apply restore_pipeline_cmds|]. by intros c [q ->].
    + intros _. solve_lock_free.
Qed.

Lemma acquire_follows :
  follows (fun ph r => r = Ok true -> ph = Working) Waiting (acquire_lock (S:=RepoManager)).
Proof.
  split; [by left; repeat split|]. intros [node|e|]; [|done..].
  split; [right; by do 2 eexists|]. intros [[]|e|]; [done| |done..].
  split; [by repeat split|]. by intros [].
Qed.

Lemma run_backup_follows fuel sched order cfg :
  follows any Waiting (run_backup fuel sched order cfg).
Proof.
  unfold run_backup. eapply follows_bind; [exact acquire_follows| |done..].
  intros ph [] Hph; [|done]. rewrite (Hph eq_refl). cbn [negb].
  apply (follows_then (fun c => c = TimeTime) (fun _ _ => True)); [|by apply only_do|intros start].
  { intros c ->. by split; [|left]. }
  eapply (follows_locked lock_free (fun _ _ => True) (fun _ _ => True)); [done| |done].
  unfold _run_backup_inner. apply only_bind; [apply swap_pending_lock_free|intros []; [|done]].
  apply process_lock_free.
Qed.

(** What comes before the lock in [main]: nothing that needs it. *)
Lemma config_path_free {S} : only free (fun _ _ => True) (config_path (S:=S)).
Proof. unfold config_path. solve_only; by repeat split. Qed.

Lemma connect_free {S} cfg attempts : only free (fun _ _ => True) (connect_attempts (S:=S) cfg attempts).
Proof.
  induction attempts as [|n rest IH]; [done|]. cbn [connect_attempts].
  solve_only; try done; by repeat split.
Qed.

Lemma waiting_free c : free c -> lock_free c /\ allowed Waiting c.
Proof. intros Hc. split; [apply Hc|by left]. Qed.

Lemma backup_main_follows fuel sched order :
  follows any Waiting (Backup.main fuel sched order).
Proof.
  unfold Backup.main.
  apply (follows_then free (fun _ _ => True)); [exact waiting_free|exact config_path_free|intros path].
  apply (follows_then free (fun _ _ => True)); [exact waiting_free|apply only_do; by repeat split|intros cfg].
  apply (follows_then free (fun _ _ => True)); [exact waiting_free|apply connect_free|intros _].
  apply (follows_then free (fun _ _ => True)); [exact waiting_free|apply only_do; by repeat split|intros _].
  apply run_backup_follows.
Qed.

(** *** Prune *)

Lemma prune_all_lock_free cfg : only lock_free (fun _ _ => True) (prune_all_repos cfg).
Proof.
  unfold prune_all_repos, Prune.restic_env, require_key, env_item, prune_repo. solve_lock_free.
Qed.

Lemma take_lock_follows : follows (fun ph r => r = Ok tt -> ph = Working) Waiting take_lock.
Proof.
  split; [by left; repeat split|]. intros [node|e|]; [|done..].
  split; [right; by do 2 eexists|]. intros [[]|e|]; [done| |done..].
  split; [by repeat split|]. by intros [].
Qed.

Lemma prune_main_follows : follows any Waiting Prune.main.
Proof.
  unfold Prune.main.
  apply (follows_then free (fun _ _ => True)); [exact waiting_free|exact config_path_free|intros path].
  apply (follows_then free (fun _ _ => True)); [exact waiting_free|apply only_do; by repeat split|intros cfg].
  apply (follows_then free (fun _ _ => True)); [exact waiting_free|done|intros url].
  apply (follows_then free (fun _ _ => True)); [exact waiting_free|apply only_do; by repeat split|intros _].
  eapply follows_bind; [exact take_lock_follows| |done..].
  intros ph [] Hph. rewrite (Hph eq_refl).
  eapply (follows_locked lock_free (fun _ _ => True) (fun _ _ => True)); [done|apply prune_all_lock_free|done].
Qed.

(** *** Bystanders *)

Lemma delete_lock_bystander : bystander (RedisDelete LOCK_KEY).
Proof. split; [|done]. split; [done|]. intros enc d. simpl. by rewrite !hash_delete_ne. Qed.

Lemma set_lock_bystander value ex : bystander (RedisSetNX LOCK_KEY value ex).
Proof. split; [|done]. split; [done|]. intros enc d. simpl. by case_decide. Qed.

#[export] Hint Resolve delete_lock_bystander set_lock_bystander : core.

Ltac solve_bystander :=
  solve_only; try done; (split; [by auto|done]).

(** Prune knows neither hash. *)
Lemma prune_bystander : only bystander (fun _ _ => True) Prune.main.
Proof.
  unfold Prune.main, config_path, take_lock, prune_all_repos, prune_repo, Prune.restic_env, require_key, env_item.
  solve_bystander.
Qed.

(** Without the lock, a run makes bystander calls only. *)
Lemma allowed_bystander ph c : ph <> Working -> allowed ph c -> bystander c.
Proof. destruct ph; [intros _ [H|(t & ex & ->)]|done|intros _ H]; [apply H|auto|apply H]. Qed.

(** *** The protocol's steps *)

Section Steps.
Context {W : Type} (h : handler W) `{!RedisServer h} `{!RedisLaws h eq}.

(** What is stored under the lock key. *)
Definition same_lock (d d' : redis_db) : Prop :=
  hash d' LOCK_KEY = hash d LOCK_KEY /\ db_strings d' !! LOCK_KEY = db_strings d !! LOCK_KEY.

#[local] Instance same_lock_preorder : PreOrder same_lock.
Proof. split; [by intros d|]. intros d d' d'' [H1 H2] [H3 H4]. split; congruence. Qed.

Lemma same_lock_exists d d' : same_lock d d' -> key_exists d' LOCK_KEY <-> key_exists d LOCK_KEY.
Proof. unfold key_exists. by intros [-> ->]. Qed.

Lemma pcmds_same_lock enc cmds d :
  Forall (fun c => pcmd_key c <> LOCK_KEY) cmds -> same_lock d (foldl (exec_pcmd enc) d cmds).
Proof.
  intros Hc. revert d. induction Hc as [|c cmds Hc _ IH]; intros d; [done|]. simpl.
  etrans; [|apply IH].
  destruct c; simpl in *; repeat case_match; try done; split; try done; by rewrite hash_set_hash_ne.
Qed.

Lemma step_same_lock enc c d : lock_free c -> same_lock d (redis_step enc c d).
Proof.
  intros Hc. destruct c; try done; simpl in *.
  - destruct Hc. case_decide; [|done]. split; [by apply hash_rename_other|].
    simpl. rewrite lookup_partial_alter_ne by done. by rewrite !lookup_delete_ne.
  - split; [by apply hash_delete_ne|]. simpl. by rewrite lookup_delete_ne.
  - case_decide; [done|]. split; [done|]. simpl. by rewrite lookup_insert_ne.
  - split; [by apply hash_set_hash_ne|done].
  - by apply pcmds_same_lock.
Qed.

Lemma exec_same_lock c w : lock_free c -> same_lock (rs_db w) (rs_db (h c w).2).
Proof.
  intros Hc. destruct (rl_exec c w) as (d & d' & <- & Hout & <-).
  pose proof (step_same_lock rs_encode c (rs_db w) Hc) as Hs.
  destruct (h c w).1 as [x|e|]; simpl in Hout; [by destruct Hout as [-> _]|..];
    (destruct Hout as [->|Hout]; [done|]).
  all: destruct c; try (destruct e); try done; try (by rewrite Hout).
  all: destruct Hout as (cmds' & Hsub & ->); apply pcmds_same_lock, Forall_forall; intros c Hin;
    simpl in Hc; rewrite Forall_forall in Hc; apply Hc; by eapply elem_of_sublist.
Qed.

(** A command of which the answer says nothing: it was executed or not. *)
Lemma exec_maybe c w :
  (forall cmds, c <> RedisPipeline cmds) ->
  rs_db (h c w).2 = rs_db w \/ rs_db (h c w).2 = redis_step rs_encode c (rs_db w).
Proof.
  intros Hnp. destruct (rl_exec c w) as (d & d' & <- & Hout & <-).
  destruct (h c w).1 as [x|e|]; simpl in Hout; [right; by destruct Hout as [-> _]|..];
    (destruct Hout as [->|Hout]; [by left|right]).
  all: destruct c; try (by destruct (Hnp cmds)); try (destruct e); done.
Qed.

(** A call that its phase allows is a step of the protocol. *)
Lemma call_lock_step P c w (C : cluster) j :
  allowed (cl_phase C j) c -> cl_db C = rs_db w ->
  exists C', lock_step rs_encode P C C' /\ cl_db C' = rs_db (h c w).2 /\
    forall i, cl_phase C' i = set_phase j (after (cl_phase C j) (Entry c (h c w).1)) (cl_phase C) i.
Proof.
  intros Ha Hdb.
  assert (Hfree : lock_free c -> exists C', lock_step rs_encode P C C' /\ cl_db C' = rs_db (h c w).2 /\
    forall i, cl_phase C' i = set_phase j (after (cl_phase C j) (Entry c (h c w).1)) (cl_phase C) i).
  { intros Hl. exists (Cluster (rs_db (h c w).2) (cl_phase C)). split; [|split; [done|]].
    - apply step_other. rewrite Hdb. by apply same_lock_exists, exec_same_lock.
    - intros i. rewrite after_free by done. unfold set_phase. by case_decide; subst. }
  destruct (cl_phase C j) eqn:Ej.
  - destruct Ha as [[_ [Hl _]]|(token & ex & ->)]; [by apply Hfree|].
    pose proof (exec_maybe (RedisSetNX LOCK_KEY token ex) w ltac:(done)) as Hm.
    destruct (rl_exec (RedisSetNX LOCK_KEY token ex) w) as (d & d' & <- & Hout & Hd).
    destruct (h (RedisSetNX LOCK_KEY token ex) w) as [r w'] eqn:E. cbn [fst snd] in *.
    unfold after. rewrite decide_True by done. rewrite <-Hdb in *.
    assert (Hno : exists C', lock_step rs_encode P C C' /\ cl_db C' = rs_db w' /\
      forall i, cl_phase C' i = set_phase j Finished (cl_phase C) i).
    { destruct Hm as [-> | ->]; eexists (Cluster _ (set_phase j Finished (cl_phase C))); (split; [|split; [|done]]);
        [by apply step_killed|done|by apply (step_unanswered _ _ _ _ token)|done]. }
    destruct r as [b|e|]; [|exact Hno..].
    destruct Hout as [-> Hb].
    exists (Cluster (rs_db w') (set_phase j (if b then Working else Finished) (cl_phase C))).
    split; [|split; [done|]].
    rewrite <-Hd.
    + destruct b; [apply (step_acquired _ _ C j token); [done|by apply Hb]|].
      apply (step_refused _ _ C j token); [done|].
      destruct (decide (key_exists (cl_db C) LOCK_KEY)) as [|Hn]; [done|]. by apply Hb in Hn.
    + by destruct b.
  - destruct Ha as [Hl| ->]; [by apply Hfree|].
    unfold after. rewrite decide_True by done.
    destruct (exec_maybe (RedisDelete LOCK_KEY) w ltac:(done)) as [-> | ->]; rewrite <-Hdb;
      eexists (Cluster _ (set_phase j Finished (cl_phase C))); (split; [|split; [|done]]); [by apply step_killed|done|by apply step_release|done].
  - apply Hfree, Ha.
Qed.
End Steps.

(** ** Before the lock is taken *)

Lemma after_gone ph e : ph <> Waiting -> after ph e <> Waiting.
Proof. destruct e as [c r]. intros H. destruct c; try done; simpl; by case_decide as Hd; [destruct Hd|]. Qed.

Section WhileWaiting.
Context {S : Type} (ok : entry -> Prop).

(** [T] holds of the program and of what is left of it, as long as it waits. *)
Fixpoint while_waiting {A} (T : prog S A -> Prop) (ph : phase) (p : prog S A) : Prop :=
  (ph = Waiting -> T p) /\
  match p with
  | Ret _ => True
  | Do c k => forall r, ok (Entry c r) -> while_waiting T (after ph (Entry c r)) (k r)
  | Mem f k => forall s, while_waiting T ph (k (f s).1)
  end.

Lemma while_waiting_here {A} (T : prog S A -> Prop) p : while_waiting T Waiting p -> T p.
Proof. destruct p; intros [H _]; by apply H. Qed.

Lemma no_longer_waiting {A} (T : prog S A -> Prop) ph p : ph <> Waiting -> while_waiting T ph p.
Proof.
  revert ph. induction p as [a|c k IH|X f k IH]; intros ph H; (split; [done|]); [done|..].
  - intros r _. by apply IH, after_gone.
  - intros s. by apply IH.
Qed.

(** Calls that need no lock, and then the rest. *)
Lemma while_waiting_bind {A B} R (T : forall A, prog S (result A) -> Prop) (m : py S A) (f : A -> py S B) :
  (forall q, only free R q -> T B (bind q f)) -> (forall r, T B (Ret r)) ->
  only free R m -> (forall a, while_waiting (T B) Waiting (f a)) ->
  while_waiting (T B) Waiting (bind m f).
Proof.
  intros HT Hret Hm Hf. unfold bind in *. induction m as [r|c k IH|X g k IH].
  - destruct r as [a|e|]; [exact (Hf a)|by split..].
  - split; [intros _; by apply (HT (Do c k))|]. destruct Hm as [Hc Hk]. intros r _.
    rewrite after_free by apply Hc. by apply IH.
  - split; [intros _; by apply (HT (Mem g k))|]. intros s. apply IH, Hm.
Qed.
End WhileWaiting.

(** *** What is left of a backup run is safe for a path

    The configuration file does not change: it is always [cfg] that is loaded. *)
Definition loads (cfg : config) (e : entry) : Prop :=
  let '(Entry c r) := e in
  match c return result (resp c) -> Prop with
  | TomlLoad _ => fun r => match r with Ok cfg' => cfg' = cfg | _ => True end
  | _ => fun _ => True
  end r.

Definition file_is {W} (cfg : config) (h : handler W) : Prop := forall c w, loads cfg (Entry c (h c w).1).

Section Main.
Context {W : Type} (h : handler W) `{!RedisServer h} (p : string) `{!RedisLaws h (leaves_path p)}.
Context (cfg : config) (Hp : lacks (chr 10) p = true).
Context (Hcfg : file_is cfg h).

Lemma run_backup_waits fuel sched order :
  (forall n, order n ≡ₚ seq 0 n) ->
  while_waiting (loads cfg) (fresh h p cfg) Waiting (run_backup fuel sched order cfg).
Proof.
  intros Hord.
  pose proof (fun m => acquiring_fresh h p cfg Hp (R := fun _ _ => True) fuel sched order m Hord) as Hf.
  assert (Hret : forall r : result unit, while_waiting (loads cfg) (fresh h p cfg) Waiting (Ret r)).
  { intros r. split; [|done]. intros _ s lw Hh. by split; left. }
  split; [intros _; exact (Hf _ acquire_lock_only)|]. intros [node|e|] _; [|apply Hret..].
  split.
  - intros _. refine (Hf (let* acquired := do (RedisSetNX LOCK_KEY node LOCK_TTL) in
                if negb acquired then do (RedisGet LOCK_KEY) ;; ret false else ret true) _).
    apply only_bind; [apply only_do, set_lock_bystander|].
    intros []; [done|by apply only_bind; [apply only_do|]].
  - intros r _. apply no_longer_waiting. unfold after. rewrite decide_True by done. by destruct r as [[]|e|].
Qed.

(** Loading the configuration: only [cfg] has to be looked at. *)
Lemma wps_load {B} (Phi : logged W -> Prop) `{!Stable h Phi} path (f : config -> py RepoManager B) s lw :
  (forall lw', Phi lw' -> safe h p cfg lw') -> Phi lw ->
  (forall lw', Phi lw' -> wpc (log_handler h) (fun _ => safe h p cfg) (fun _ _ => safe h p cfg) (f cfg) s lw') ->
  wpc (log_handler h) (fun _ => safe h p cfg) (fun _ _ => safe h p cfg) (bind (do (TomlLoad path)) f) s lw.
Proof.
  intros Hs H Hf. set (c := TomlLoad path).
  assert (H' : Phi (log_handler h c lw).2) by (by apply stable_call).
  pose proof (Hcfg c (base lw)) as Hl. pose proof (log_world h c lw) as [Hr _].
  apply wpc_bind, wpc_do; [by apply Hs..|]. rewrite <-Hr in Hl.
  destruct (log_handler h c lw).1 as [cfg'|e|]; [|by apply Hs..]. simpl in Hl. subst cfg'. by apply Hf.
Qed.

Lemma free_elsewhere {A} R (m : prog RepoManager A) : only free R m -> only elsewhere R m.
Proof. apply only_mono; [by intros c [[Hc _] _]|done]. Qed.

(** [main] after the configuration is loaded. *)
Definition main_rest (fuel : nat) (sched : list nat) (order : nat -> list nat) (cfg : config) : py RepoManager unit :=
  connect_attempts cfg [1; 2; 3] ;; do (RedisHLen "pending") ;; run_backup fuel sched order cfg.

Lemma main_rest_resumes fuel sched order :
  (forall n, order n ≡ₚ seq 0 n) ->
  at_every (loads cfg) (resumes h p cfg) (main_rest fuel sched order cfg).
Proof.
  intros Hord. apply (resumes_bind h p cfg (loads cfg) (fun _ _ => True)); [apply free_elsewhere, connect_free|intros _].
  apply (resumes_bind h p cfg (loads cfg) (fun _ _ => True)); [by apply only_do|intros _].
  by apply run_backup_resumes.
Qed.

Lemma main_resumes fuel sched order :
  (forall n, order n ≡ₚ seq 0 n) ->
  at_every (loads cfg) (resumes h p cfg) (Backup.main fuel sched order).
Proof.
  intros Hord. pose proof (main_rest_resumes fuel sched order Hord) as Hrest.
  unfold Backup.main. apply (resumes_bind h p cfg (loads cfg) (fun _ _ => True)); [apply free_elsewhere, config_path_free|intros path].
  split.
  - intros s lw Hin. apply (wps_load (in_pending h p)); [apply pending_safe|exact Hin|].
    intros lw' Hin'. exact (at_every_here _ _ _ Hrest s lw' Hin').
  - intros [cfg'|e|] Hl; [simpl in Hl; subst cfg'; exact Hrest|..];
      by apply (resumes_elsewhere h p cfg (loads cfg) (fun _ _ => True)).
Qed.

Lemma fresh_ret {A} (r : result A) : fresh h p cfg (Ret r).
Proof. intros s lw Hh. by split; left. Qed.

Lemma fresh_bind {A B} R (q : py RepoManager A) (f : A -> py RepoManager B) :
  only free R q -> (forall a, fresh h p cfg (f a)) -> fresh h p cfg (bind q f).
Proof.
  intros Hq Hf s lw Hh. eapply (wps_bind_elsewhere h p cfg (home h p)); [by left|by apply free_elsewhere|done|].
  intros a s' lw'. apply Hf.
Qed.

Lemma waits_bind {A B} R (m : py RepoManager A) (f : A -> py RepoManager B) :
  only free R m -> (forall a, while_waiting (loads cfg) (fresh h p cfg) Waiting (f a)) ->
  while_waiting (loads cfg) (fresh h p cfg) Waiting (bind m f).
Proof.
  intros Hm Hf. apply (while_waiting_bind _ R (fun _ => fresh h p cfg)); [|apply fresh_ret|done|done].
  intros q Hq. eapply fresh_bind; [exact Hq|]. intros a. by eapply while_waiting_here.
Qed.

Lemma main_waits fuel sched order :
  (forall n, order n ≡ₚ seq 0 n) ->
  while_waiting (loads cfg) (fresh h p cfg) Waiting (Backup.main fuel sched order).
Proof.
  intros Hord.
  assert (Hrest : while_waiting (loads cfg) (fresh h p cfg) Waiting (main_rest fuel sched order cfg)).
  { eapply waits_bind; [apply connect_free|intros _].
    apply (waits_bind (fun _ _ => True)); [apply only_do; by repeat split|intros _]. by apply run_backup_waits. }
  unfold Backup.main. eapply waits_bind; [apply config_path_free|intros path]. split.
  - intros _ s lw Hh. apply (wps_load (home h p)); [by left|exact Hh|].
    intros lw' Hh'. exact (while_waiting_here _ _ _ Hrest s lw' Hh').
  - intros [cfg'|e|] Hl; [simpl in Hl; subst cfg'; exact Hrest|..]; by split; [intros _; apply fresh_ret|].
Qed.
End Main.
