(* ===== verification/Argparse.v ===== *)
(** The part of Python's [argparse] that [backup/cli.py] uses.

    [argparse] is in the standard library; this is its parsing algorithm as it
    is in CPython 3.9, the version the packages ask for, for parsers whose
    arguments are of the kinds the command line declares: options that store a
    word or set a flag, the automatic [-h], one positional word, and
    subcommands.  Messages are left out: a usage error is
    [SystemExit 2] and [-h] is [SystemExit 0].  A word that starts with a dash
    and goes on with digits outside ASCII is not taken for a number here. *)
From S2P Require Import Prelude PyStr PyVal.
From Stdlib Require Import Ascii.

Local Open Scope string_scope.
Local Open Scope py_scope.

(** ** Parsers *)

(** The attributes set so far, [vars(namespace)]. *)
Abbreviation namespace := (list (string * pyval)).

(** [for key, value in vars(ns').items(): setattr(ns, key, value)] *)
Definition set_attributes (ns ns' : namespace) : namespace :=
  foldl (fun acc kv => dict_set acc kv.1 kv.2) ns ns'.

Inductive option_kind : Type := store | store_true | help.

Record optional := Optional {
  option_strings : list string;
  dest : string;
  kind : option_kind
}.

(** The positional arguments of a parser: none, one word, or a subcommand with
    the parser of each name ([parse_known_args] of the subparser). *)
Inductive positional : Type :=
| NoPositional
| Argument (dest : string)
| Subparsers (dest : string)
    (parsers : list (string * (list string -> result (namespace * list string)))).

Record parser := Parser {
  optionals : list optional;
  positionals : positional;
  defaults : namespace
}.

Definition usage_error : exn := SystemExit 2.

(** ** Classifying the words *)

(** A word is an argument, the separator [--], or an option string, with the
    option it names, if any, and what follows the equals sign or the letter. *)
Inductive token : Type :=
| Word
| Separator
| Unknown
| Known (a : optional) (option_string : string) (explicit_arg : option string).

Definition is_option (t : token) : bool :=
  match t with Unknown | Known _ _ _ => true | _ => false end.

(** [s.split("=", 1)] *)
Fixpoint split_equals (s : string) : option (string * string) :=
  match s with
  | EmptyString => None
  | String c s' =>
      if Ascii.eqb c "=" then Some ("", s')
      else match split_equals s' with
           | Some (k, v) => Some (String c k, v)
           | None => None
           end
  end.

(** [_option_string_actions]: every option string with its option. *)
Definition all_strings (opts : list optional) : list (string * optional) :=
  opts ≫= fun a => (fun s => (s, a)) <$> option_strings a.

Definition find_option (opts : list optional) (s : string) : option optional :=
  (fun found => found.2.2) <$> list_find (fun o => o.1 = s) (all_strings opts).

(** [_get_option_tuples]: the options a prefix may stand for. *)
Definition option_tuples (opts : list optional) (arg : string)
    : list (optional * string * option string) :=
  if startswith arg "--" then
    let '(prefix, explicit_arg) :=
      match split_equals arg with Some (k, v) => (k, Some v) | None => (arg, None) end in
    all_strings opts ≫= fun o =>
      if startswith o.1 prefix then [(o.2, o.1, explicit_arg)] else []
  else
    all_strings opts ≫= fun o =>
      if String.eqb o.1 (take_str 2 arg) then [(o.2, o.1, Some (drop_str 2 arg))]
      else if startswith o.1 arg then [(o.2, o.1, None)] else [].

Definition is_digit (c : ascii) : bool :=
  let n := N_of_ascii c in (48 <=? n)%N && (n <=? 57)%N.

(** [\d+$], the end of the string or the line feed before it *)
Fixpoint digits (s : string) (some : bool) : bool :=
  match s with
  | EmptyString => some
  | String c s' =>
      if is_digit c then digits s' true
      else some && Ascii.eqb c "010" && String.eqb s' ""
  end.

(** [\d*\.\d+$] *)
Fixpoint decimal (s : string) : bool :=
  match s with
  | EmptyString => false
  | String c s' => if is_digit c then decimal s' else Ascii.eqb c "." && digits s' false
  end.

Definition negative_number (arg : string) : bool :=
  match arg with
  | String _ s => digits s false || decimal s
  | EmptyString => false
  end.

(** [_parse_optional] *)
Definition parse_optional (opts : list optional) (arg : string) : result token :=
  if negb (startswith arg "-") then Ok Word
  else
    match find_option opts arg with
    | Some a => Ok (Known a arg None)
    | None =>
        if String.eqb arg "-" then Ok Word
        else
          let exact :=
            match split_equals arg with
            | Some (k, v) => (fun a => Known a k (Some v)) <$> find_option opts k
            | None => None
            end in
          match exact with
          | Some t => Ok t
          | None =>
              match option_tuples opts arg with
              | _ :: _ :: _ => Exc usage_error
              | [(a, s, e)] => Ok (Known a s e)
              | [] => Ok (if negative_number arg || negb (lacks " " arg) then Word else Unknown)
              end
          end
    end.

(** Every word with its class; after [--] all words are arguments. *)
Fixpoint classify (opts : list optional) (args : list string) : result (list (string * token)) :=
  match args with
  | [] => Ok []
  | arg :: args' =>
      if String.eqb arg "--" then Ok ((arg, Separator) :: ((fun a => (a, Word)) <$> args'))
      else
        let? t := parse_optional opts arg in
        let? rest := classify opts args' in
        Ok ((arg, t) :: rest)
  end.

(** ** Actions *)

Fixpoint remove_first (s : string) (l : list string) : list string :=
  match l with
  | [] => []
  | x :: l' => if String.eqb x s then l' else x :: remove_first s l'
  end.

(** [_get_values] for one word: the first [--] is dropped, also when it is the
    value itself, and then an empty list remains. *)
Definition get_value (args : list string) : pyval :=
  match remove_first "--" args with
  | [s] => VStr s
  | l => VList (VStr <$> l)
  end.

Fixpoint take_actions (actions : list (optional * list string)) (ns : namespace) : result namespace :=
  match actions with
  | [] => Ok ns
  | (a, args) :: rest =>
      match kind a with
      | store => take_actions rest (dict_set ns (dest a) (get_value args))
      | store_true => take_actions rest (dict_set ns (dest a) (VBool true))
      | help => Exc (SystemExit 0)
      end
  end.

(** An option without [=]: it takes the next word if it stores one. *)
Definition next_word (a : optional) (l : list (string * token))
    (actions : list (optional * list string)) :=
  match kind a with
  | store =>
      match l with
      | (s, Word) :: l' => Ok (actions ++ [(a, [s])], l')%list
      | _ => Exc usage_error
      end
  | _ => Ok (actions ++ [(a, [])], l)%list
  end.

(** A flag with something attached: more options, one letter each. *)
Fixpoint letters (opts : list optional) (a : optional) (option_string : string)
    (l : list (string * token)) (actions : list (optional * list string)) (explicit_arg : string)
    : result (list (optional * list string) * list (string * token)) :=
  if startswith option_string "--" then Exc usage_error
  else
    match explicit_arg with
    | EmptyString => Exc IndexError
    | String c rest =>
        match find_option opts (String "-" (String c "")) with
        | None => Exc usage_error
        | Some a' =>
            let actions' := (actions ++ [(a, [])])%list in
            match rest, kind a' with
            | EmptyString, _ => next_word a' l actions'
            | _, store => Ok (actions' ++ [(a', [rest])], l)%list
            | _, _ => letters opts a' (String "-" (String c "")) l actions' rest
            end
        end
    end.

Definition explicit_word (opts : list optional) (a : optional) (option_string : string)
    (l : list (string * token)) (explicit_arg : string) :=
  match kind a with
  | store => Ok ([(a, [explicit_arg])], l)
  | _ => letters opts a option_string l [] explicit_arg
  end.

Definition consume_optional (opts : list optional) (a : optional) (option_string : string)
    (explicit_arg : option string) (l : list (string * token)) (ns : namespace)
    : result (namespace * list (string * token)) :=
  let? (actions, l') :=
    match explicit_arg with
    | Some e => explicit_word opts a option_string l e
    | None => next_word a l []
    end in
  let? ns' := take_actions actions ns in
  Ok (ns', l').

(** The separators at the head, and what follows. *)
Definition separators (l : list (string * token)) : list string * list (string * token) :=
  match l with
  | (s, Separator) :: l' => ([s], l')
  | _ => ([], l)
  end.

(** [consume_positionals]: what is left to match, the words left, the
    attributes, and the words the subparser did not recognise. *)
Definition consume_positionals (pos : positional) (l : list (string * token)) (ns : namespace)
    : result (positional * list (string * token) * namespace * list string) :=
  let '(before, l0) := separators l in
  match pos, l0 with
  | Argument d, (s, Word) :: l1 =>
      let '(after, l2) := separators l1 in
      Ok (NoPositional, l2, dict_set ns d (get_value (before ++ s :: after)), [])
  | Subparsers d parsers, (s, Word) :: l1 =>
      match (before ++ s :: l1.*1)%list with
      | name :: args =>
          match list_find (fun p => p.1 = name) parsers with
          | Some (_, (_, sub)) =>
              let? (ns', extras) := sub args in
              Ok (NoPositional, [], set_attributes (dict_set ns d (VStr name)) ns', extras)
          | None => Exc usage_error
          end
      | [] => Exc usage_error
      end
  | _, _ => Ok (pos, l, ns, [])
  end.

(** The words before the next option. *)
Fixpoint until_option (l : list (string * token)) : list string * list (string * token) :=
  match l with
  | (s, t) :: l' => if is_option t then ([], l)
                    else let '(pre, rest) := until_option l' in (s :: pre, rest)
  | [] => ([], [])
  end.

Fixpoint parse_loop (opts : list optional) (fuel : nat) (pos : positional)
    (l : list (string * token)) (ns : namespace) (extras : list string)
    : result (positional * namespace * list string) :=
  if negb (existsb (fun w => is_option w.2) l) then
    let? (pos', rest, ns', ex) := consume_positionals pos l ns in
    Ok (pos', ns', extras ++ ex ++ rest.*1)%list
  else
    match fuel with
    | O => Running
    | S fuel' =>
        match l with
        | (s, Unknown) :: l' => parse_loop opts fuel' pos l' ns (extras ++ [s])
        | (_, Known a o e) :: l' =>
            let? (ns', l'') := consume_optional opts a o e l' ns in
            parse_loop opts fuel' pos l'' ns' extras
        | _ =>
            let? (pos', rest, ns', ex) := consume_positionals pos l ns in
            if (length rest <? length l)%nat then
              parse_loop opts fuel' pos' rest ns' (extras ++ ex)
            else
              let '(pre, l') := until_option l in
              parse_loop opts fuel' pos l' ns (extras ++ pre)
        end
    end.

(** Every positional is required. *)
Definition parse_known_args (p : parser) (args : list string) : result (namespace * list string) :=
  let? l := classify (optionals p) args in
  let? (pos, ns, extras) := parse_loop (optionals p) (length l) (positionals p) l (defaults p) [] in
  match pos with
  | NoPositional => Ok (ns, extras)
  | _ => Exc usage_error
  end.

Definition parse_args (p : parser) (args : list string) : result namespace :=
  let? (ns, extras) := parse_known_args p args in
  match extras with
  | [] => Ok ns
  | _ => Exc usage_error
  end.

(** ** Termination: one step of the loop for each word is enough. *)

Definition returns {A} (r : result A) : Prop := r <> Running.

(** A subparser returns on any words. *)
Definition positional_returns (pos : positional) : Prop :=
  match pos with
  | Subparsers _ parsers => Forall (fun p => forall args, returns (p.2 args)) parsers
  | _ => True
  end.

Lemma rbind_returns {A B} (r : result A) (f : A -> result B) :
  returns r -> (forall a, r = Ok a -> returns (f a)) -> returns (rbind r f).
Proof. intros Hr Hf. destruct r as [a|e|]; [by apply Hf|done|done]. Qed.

Lemma classify_returns opts args : returns (classify opts args).
Proof.
  induction args as [|arg args IH]; simpl; [done|]. destruct (String.eqb arg "--"); [done|].
  apply rbind_returns; [|intros t _; by apply rbind_returns].
  unfold parse_optional. repeat case_match; done.
Qed.

Lemma next_word_returns a l acts : returns (next_word a l acts).
Proof. unfold next_word. by repeat case_match. Qed.

Lemma next_word_shorter a l acts acts' l' :
  next_word a l acts = Ok (acts', l') -> (length l' <= length l)%nat.
Proof. unfold next_word. intros H. repeat case_match; simplify_eq; simpl; lia. Qed.

Lemma letters_spec opts a o l acts e :
  returns (letters opts a o l acts e) /\
  forall acts' l', letters opts a o l acts e = Ok (acts', l') -> (length l' <= length l)%nat.
Proof.
  revert a o acts. induction e as [|c e IH]; intros a o acts; simpl;
    destruct (startswith o "--"); try done.
  destruct (find_option opts _) as [a'|]; [|done].
  destruct e; [split; [apply next_word_returns|apply next_word_shorter]|].
  destruct (kind a'); [by split; [|intros; simplify_eq]|apply IH..].
Qed.

Lemma explicit_word_spec opts a o l e :
  returns (explicit_word opts a o l e) /\
  forall acts' l', explicit_word opts a o l e = Ok (acts', l') -> (length l' <= length l)%nat.
Proof.
  unfold explicit_word. destruct (kind a); [by split; [|intros; simplify_eq]|apply letters_spec..].
Qed.

Lemma take_actions_returns acts ns : returns (take_actions acts ns).
Proof. revert ns. induction acts as [|[a args] acts IH]; intros ns; simpl; [done|]. by destruct (kind a). Qed.

Lemma consume_optional_spec opts a o e l ns :
  returns (consume_optional opts a o e l ns) /\
  forall ns' l', consume_optional opts a o e l ns = Ok (ns', l') -> (length l' <= length l)%nat.
Proof.
  unfold consume_optional.
  assert (Hr : forall r : result (list (optional * list string) * list (string * token)),
    returns r -> (forall acts' l', r = Ok (acts', l') -> (length l' <= length l)%nat) ->
    returns (let? (actions, l') := r in let? ns' := take_actions actions ns in Ok (ns', l')) /\
    forall ns' l', (let? (actions, l') := r in let? ns' := take_actions actions ns in Ok (ns', l'))
                   = Ok (ns', l') -> (length l' <= length l)%nat).
  { intros [[acts l']|x|] Hr Hl; simpl; [|done|done]. pose proof (take_actions_returns acts ns).
    destruct (take_actions acts ns); simpl; try done. split; [done|]. intros ? ? [= _ <-]. by eapply Hl. }
  apply Hr; destruct e as [e|];
    [apply explicit_word_spec|apply next_word_returns|apply explicit_word_spec|apply next_word_shorter].
Qed.

Lemma consume_positionals_spec pos l ns :
  positional_returns pos ->
  returns (consume_positionals pos l ns) /\
  forall pos' l' ns' ex, consume_positionals pos l ns = Ok (pos', l', ns', ex) -> positional_returns pos'.
Proof.
  intros Hp. unfold consume_positionals. destruct (separators l) as [before l0].
  destruct pos as [|d|d parsers]; [by split; [|intros; simplify_eq]|..];
    (destruct l0 as [|[s []] l1]; try (by split; [|intros; simplify_eq])).
  - destruct (separators l1). by split; [|intros; simplify_eq].
  - destruct (before ++ s :: l1.*1)%list as [|name args]; [done|].
    destruct (list_find _ parsers) as [[i [n sub]]|] eqn:E; [|done].
    apply list_find_Some in E as (Hi & _ & _). simpl in Hp. rewrite Forall_lookup in Hp.
    specialize (Hp i _ Hi args). simpl in Hp. destruct (sub args) as [[ns' ex]|x|]; simpl; [|done|done].
    by split; [|intros; simplify_eq].
Qed.

Lemma until_option_shorter l pre rest :
  until_option l = (pre, rest) -> length l = (length pre + length rest)%nat.
Proof.
  revert pre rest. induction l as [|[s t] l IH]; intros pre rest; simpl; [by intros [= <- <-]|].
  destruct (is_option t); [by intros [= <- <-]|].
  destruct (until_option l) as [pre' rest']. intros [= <- <-]. simpl. f_equal. by apply IH.
Qed.

Lemma parse_loop_returns opts fuel pos l ns extras :
  positional_returns pos -> (length l <= fuel)%nat -> returns (parse_loop opts fuel pos l ns extras).
Proof.
  revert pos l ns extras. induction fuel as [|fuel IH]; intros pos l ns extras Hp Hl; simpl;
    pose proof (consume_positionals_spec pos l ns Hp) as [Hc Hc'];
    (destruct (negb _) eqn:En; [apply rbind_returns; [done|]; by intros [[[? ?] ?] ?] _|]).
  { destruct l; [done|simpl in Hl; lia]. }
  assert (Hw : forall s t l', l = (s, t) :: l' -> is_option t = false ->
    returns (let? (pos', rest, ns', ex) := consume_positionals pos l ns in
      if (length rest <? length l)%nat then parse_loop opts fuel pos' rest ns' (extras ++ ex)
      else let '(pre, l') := until_option l in parse_loop opts fuel pos l' ns (extras ++ pre))).
  { intros s t l' -> Ht. apply rbind_returns; [done|]. intros [[[pos' rest] ns'] ex] E.
    destruct (Nat.ltb_spec (length rest) (length ((s, t) :: l'))) as [Hlt|_].
    - apply IH; [by eapply Hc'|lia].
    - destruct (until_option ((s, t) :: l')) as [pre l''] eqn:Eu. apply IH; [done|].
      pose proof (until_option_shorter _ _ _ Eu). simpl in Eu. rewrite Ht in Eu.
      destruct (until_option l'). injection Eu as <- <-. simpl in *. lia. }
  destruct l as [|[s []] l]; [done|by eapply Hw|by eapply Hw|..].
  - apply IH; [done|simpl in *; lia].
  - pose proof (consume_optional_spec opts a option_string explicit_arg l ns) as [Ho Ho'].
    apply rbind_returns; [done|]. intros [ns' l'] E. apply IH; [done|].
    specialize (Ho' _ _ E). simpl in *. lia.
Qed.

Lemma parse_known_args_returns p args :
  positional_returns (positionals p) -> returns (parse_known_args p args).
Proof.
  intros Hp. unfold parse_known_args. apply rbind_returns; [apply classify_returns|]. intros l _.
  apply rbind_returns; [by apply parse_loop_returns|]. intros [[[] ns] extras] _; done.
Qed.

Lemma parse_args_returns p args :
  positional_returns (positionals p) -> returns (parse_args p args).
Proof.
  intros Hp. unfold parse_args. apply rbind_returns; [by apply parse_known_args_returns|].
  intros [ns extras] _. by destruct extras.
Qed.

(** ** Subcommands *)

(** A word that cannot be an option. *)
Lemma parse_optional_word opts w : startswith w "-" = false -> parse_optional opts w = Ok Word.
Proof. intros H. unfold parse_optional. by rewrite H. Qed.

Lemma not_separator w : startswith w "-" = false -> String.eqb w "--" = false.
Proof. by destruct (String.eqb_spec w "--") as [->|]. Qed.

Lemma classify_cons opts w t ws :
  String.eqb w "--" = false -> parse_optional opts w = Ok t ->
  classify opts (w :: ws) = let? rest := classify opts ws in Ok ((w, t) :: rest).
Proof. intros Hw Ht. simpl. by rewrite Hw, Ht. Qed.

(** Words that are no separators and not ambiguous are classified one by one. *)
Definition classifiable (opts : list optional) (w : string) : Prop :=
  String.eqb w "--" = false /\ is_ok (parse_optional opts w) = true.

Lemma classify_all opts ws :
  Forall (classifiable opts) ws -> exists l, classify opts ws = Ok l /\ l.*1 = ws.
Proof.
  induction 1 as [|w ws [Hw Ht] _ (l & Hl & Hf)]; [by exists []|].
  destruct (parse_optional opts w) as [t|e|] eqn:E; [|done..].
  exists ((w, t) :: l). rewrite (classify_cons opts w t), Hl by done. split; [done|]. by rewrite fmap_cons, Hf.
Qed.

Lemma get_value_word s : String.eqb s "--" = false -> get_value [s] = VStr s.
Proof. intros H. unfold get_value. simpl. by rewrite H. Qed.

Lemma parse_loop_done opts fuel ns extras :
  parse_loop opts fuel NoPositional [] ns extras = Ok (NoPositional, ns, extras).
Proof. destruct fuel; simpl; by rewrite app_nil_r. Qed.

Lemma parse_loop_option opts fuel pos s a o e l ns extras :
  parse_loop opts (S fuel) pos ((s, Known a o e) :: l) ns extras
  = let? (ns', l') := consume_optional opts a o e l ns in parse_loop opts fuel pos l' ns' extras.
Proof. done. Qed.

(** The subcommand's name gives all the words behind it to the subparser. *)
Lemma parse_loop_subparsers opts fuel d parsers i name sub l ns :
  list_find (fun p => p.1 = name) parsers = Some (i, (name, sub)) ->
  parse_loop opts (S fuel) (Subparsers d parsers) ((name, Word) :: l) ns []
  = let? (ns', extras) := sub l.*1 in Ok (NoPositional, set_attributes (dict_set ns d (VStr name)) ns', extras).
Proof.
  intros Hn. assert (Hc : consume_positionals (Subparsers d parsers) ((name, Word) :: l) ns
    = let? (ns', extras) := sub l.*1 in Ok (NoPositional, [], set_attributes (dict_set ns d (VStr name)) ns', extras)).
  { unfold consume_positionals. simpl. by rewrite Hn. }
  cbn [parse_loop]. rewrite Hc. destruct (sub l.*1) as [[ns' ex]|e|]; simpl; [|by destruct (negb _)..].
  rewrite parse_loop_done, app_nil_r. by destruct (negb _).
Qed.

(** A stored option with its value, then a subcommand. *)
Lemma parse_subcommand p d parsers i name sub ws w a k v :
  positionals p = Subparsers d parsers ->
  list_find (fun q => q.1 = name) parsers = Some (i, (name, sub)) ->
  startswith name "-" = false -> Forall (classifiable (optionals p)) ws ->
  String.eqb w "--" = false -> parse_optional (optionals p) w = Ok (Known a k (Some v)) -> kind a = store ->
  parse_known_args p (w :: name :: ws)
  = let? (ns', extras) := sub ws in
    Ok (set_attributes (dict_set (dict_set (defaults p) (dest a) (get_value [v])) d (VStr name)) ns', extras).
Proof.
  intros Hp Hn Hd Hws Hw Hk Ha. destruct (classify_all _ _ Hws) as (l & Hl & Hf).
  unfold parse_known_args. rewrite (classify_cons _ w (Known a k (Some v))) by done.
  rewrite (classify_cons _ name Word), Hl by (by apply not_separator || apply parse_optional_word). cbn [rbind].
  rewrite Hp. cbn [length]. rewrite parse_loop_option.
  assert (Hc : consume_optional (optionals p) a k (Some v) ((name, Word) :: l) (defaults p)
               = Ok (dict_set (defaults p) (dest a) (get_value [v]), (name, Word) :: l)).
  { unfold consume_optional, explicit_word. rewrite Ha. simpl. by rewrite Ha. }
  rewrite Hc. cbn [rbind]. rewrite (parse_loop_subparsers _ _ _ _ i _ sub), Hf by done.
  by destruct (sub ws) as [[ns' ex]|e|].
Qed.
