(* ===== verification/Cli.v ===== *)
(** [backup/cli.py]: the command line, status, snapshots and restore.

    [parser] and the subparsers are the declarations of [main] for the model of
    [argparse] in [Argparse.v].  [py_str] stands for [str()] of a value that is not a string; it is used
    only when restic's JSON gives a snapshot a [time] that is a list. *)
From S2P Require Import Prelude PyStr PyVal Config Effects Semantics Redis Sim Repo Backup Prune Argparse.
From Stdlib Require Import Ascii.

Local Open Scope string_scope.
Local Open Scope Z_scope.
Local Open Scope py_scope.
#[local] Set Warnings "-clear-no-such-hyp".

(** The process keeps no shared object: its state is [unit]. *)
Abbreviation cli A := (py unit A).

(** ** Arguments *)

Inductive command : Type :=
| Status (verbose : bool)
| Snapshots (path repo : option string) (json_output : bool)
| Restore (path : string) (snapshot target : option string).

Record arguments := Arguments_ {
  arg_config : string;
  arg_command : command
}.

Definition help_option : optional := Optional ["-h"; "--help"] "help" help.

Definition p_status : parser :=
  Parser [help_option; Optional ["-v"; "--verbose"] "verbose" store_true]
    NoPositional [("verbose", VBool false)].

Definition p_snap : parser :=
  Parser [help_option; Optional ["--path"] "path" store; Optional ["--repo"] "repo" store;
          Optional ["--json"] "json_output" store_true]
    NoPositional [("path", VNone); ("repo", VNone); ("json_output", VBool false)].

Definition p_restore : parser :=
  Parser [help_option; Optional ["-s"; "--snapshot"] "snapshot" store;
          Optional ["-t"; "--target"] "target" store]
    (Argument "path") [("path", VNone); ("snapshot", VNone); ("target", VNone)].

Definition sub : list (string * (list string -> result (namespace * list string))) :=
  [("status", parse_known_args p_status); ("snapshots", parse_known_args p_snap);
   ("restore", parse_known_args p_restore)].

Definition parser_ : parser :=
  Parser [help_option; Optional ["-c"; "--config"] "config" store] (Subparsers "command" sub)
    [("config", VStr "config.toml"); ("command", VNone)].

(** [args.name] *)
Definition attribute (ns : namespace) (name : string) : pyval := default VNone (dict_find ns name).

(** The code only asks an optional value whether it is true before it uses it:
    the empty list that [argparse] can leave counts as a missing value. *)
Definition string_value (v : pyval) : option string :=
  match v with VStr s => Some s | _ => None end.

(** The attributes as the commands use them.  [toml.load] of an empty list
    raises [FileNotFoundError], and a list has no [startswith]. *)
Definition arguments_of (ns : namespace) : result arguments :=
  match attribute ns "config" with
  | VStr config =>
      let? command :=
        match attribute ns "command" with
        | VStr "status" => Ok (Status (truthy (attribute ns "verbose")))
        | VStr "snapshots" =>
            Ok (Snapshots (string_value (attribute ns "path")) (string_value (attribute ns "repo"))
                  (truthy (attribute ns "json_output")))
        | _ =>
            match attribute ns "path" with
            | VStr path => Ok (Restore path (string_value (attribute ns "snapshot"))
                                 (string_value (attribute ns "target")))
            | _ => Exc AttributeError
            end
        end in
      Ok (Arguments_ config command)
  | _ => Exc OSError
  end.

Definition parse_command_line (argv : list string) : result arguments :=
  let? ns := parse_args parser_ argv in arguments_of ns.

(** [x or d], for an optional string *)
Definition str_or (x : option string) (d : string) : string :=
  match x with
  | Some s => if String.eqb s "" then d else s
  | None => d
  end.

(** [not x], for an optional string *)
Definition is_empty (x : option string) : bool :=
  match x with Some s => String.eqb s "" | None => true end.

(** ** Helpers *)

Definition load_config (args : arguments) : cli config := do (TomlLoad (arg_config args)).

Definition restic_env (cfg : config) : cli (gmap string string) :=
  let* env := do OsEnviron in
  let* env := env_default "RESTIC_PASSWORD" (get_restic_password cfg) env in
  let* env := env_default "AWS_ACCESS_KEY_ID" (get_access_key cfg) env in
  env_default "AWS_SECRET_ACCESS_KEY" (get_secret_key cfg) env.

Definition restic_bin (cfg : config) : result string := get_restic_binary cfg.

Definition repo_url (cfg : config) (repo_id : string) : result string :=
  let? endpoint := get_endpoint cfg in
  let? bucket := get_bucket cfg in
  let? use_tls := get_use_tls cfg in
  Ok (s3_url use_tls endpoint bucket repo_id).

Definition get_repo_id (path base : string) (depth : Z) : option string :=
  if negb (startswith path (base ++ "/")) then None
  else
    let rel := drop_str (String.length base + 1) path in
    let parts := split slash rel in
    if Z.of_nat (length parts) <? depth then None
    else Some (join "/" (slice_to depth parts)).

(** [env.get(key, "")] *)
Definition env_get (env : gmap string string) (key : string) : string := default "" (env !! key).

Definition list_repos (cfg : config) (env : gmap string string) : cli (list string) :=
  let* endpoint := lift (get_endpoint cfg) in
  let* bucket := lift (get_bucket cfg) in
  let* use_tls := lift (get_use_tls cfg) in
  let* objects := do (MinioListObjects endpoint (env_get env "AWS_ACCESS_KEY_ID")
                        (env_get env "AWS_SECRET_ACCESS_KEY") use_tls bucket) in
  ret (sorted_str (repo_set objects)).

(** ** [status] *)

(** [by_event[event_type] = by_event.get(event_type, 0) + 1] *)
Fixpoint bump (event_type : string) (by_event : list (string * Z)) : list (string * Z) :=
  match by_event with
  | [] => [(event_type, 1)]
  | (e, n) :: rest =>
      if String.eqb e event_type then (e, n + 1) :: rest else (e, n) :: bump event_type rest
  end.

Definition count_events (items : list (string * string)) : list (string * Z) :=
  foldl (fun acc item => bump item.2 acc) [] items.

(** [sorted(by_event.items())]: the keys are distinct, so they decide. *)
Definition item_le (a b : string * Z) : Prop := str_le a.1 b.1.
#[export] Instance item_le_dec a b : Decision (item_le a b).
Proof. unfold item_le, str_le. apply _. Defined.
Definition sorted_items (l : list (string * Z)) : list (string * Z) := merge_sort item_le l.

(** Text mode of [subprocess.run]: decoded, line ends translated. *)
Fixpoint universal_newlines (s : string) : string :=
  match s with
  | EmptyString => EmptyString
  | String c s' =>
      if byte c =? 13 then
        String (chr 10)
          match s' with
          | String d s'' => if byte d =? 10 then universal_newlines s'' else universal_newlines s'
          | EmptyString => EmptyString
          end
      else String c (universal_newlines s')
  end.

Definition text_of (b : string) : result string :=
  let? s := decode b in Ok (universal_newlines s).

Section Status.
Context (py_str : pyval -> string).

(** [v[:19]], then formatted. *)
Definition first_19 (v : pyval) : result string :=
  match v with
  | VStr s => Ok (take_chars 19 s)
  | VList l => Ok (py_str (VList (take 19 l)))
  | _ => Exc TypeError
  end.

(** [snaps[-1].get("time", "")[:19]], for a truthy [snaps]; the last character
    of a string has no [get]. *)
Definition last_time (snaps : pyval) : result string :=
  match snaps with
  | VList l =>
      match last l with
      | Some (VDict d) => first_19 (default (VStr "") (dict_find d "time"))
      | Some _ => Exc AttributeError
      | None => Exc IndexError
      end
  | VStr _ => Exc AttributeError
  | VDict _ => Exc (KeyError "-1")
  | _ => Exc TypeError
  end.

Definition latest_argv (bin url : string) : list string :=
  [bin; "snapshots"; "--latest=1"; "--compact"; "-r"; url; "--json"].

Definition print_repo (cfg : config) (env : gmap string string) (verbose : bool)
    (repo_id : string) : cli unit :=
  if verbose then
    let* url := lift (repo_url cfg repo_id) in
    let* bin := lift (restic_bin cfg) in
    let* result := do (SubprocessRun (latest_argv bin url) env None) in
    let* out := lift (text_of (stdout result)) in
    let* _ := lift (text_of (stderr result)) in
    let* last :=
      if returncode result =? 0 then
        let* snaps := lift (loads_str out) in
        if truthy snaps then lift (last_time snaps) else ret ""
      else ret "" in
    do (Print ("  " ++ repo_id ++ "  (last: " ++ last ++ ")"))
  else do (Print ("  " ++ repo_id)).

Definition cmd_status (args : arguments) (verbose : bool) : cli unit :=
  let* cfg := load_config args in
  let* env := restic_env cfg in
  let* url := lift (get_redis_url cfg) in
  do (RedisFromUrl url) ;;
  let* pending := do (RedisHLen "pending") in
  do (Print ("Pending events: " ++ str_of_Z pending)) ;;
  (if verbose && (0 <? pending) then
     let* all_items := do (RedisHGetAll "pending") in
     for_each (sorted_items (count_events all_items))
       (fun item => do (Print ("  " ++ item.1 ++ ": " ++ str_of_Z item.2)))
   else ret tt) ;;
  let* repos := list_repos cfg env in
  do (Print ("Repos: " ++ str_of_Z (len repos))) ;;
  for_each repos (print_repo cfg env verbose).

(** ** [snapshots] and [restore] *)

(** The error message of both commands, and [sys.exit(1)]. *)
Definition no_repo {A} (path : string) : cli A :=
  do (PrintErr ("Error: cannot determine repo from path: " ++ path)) ;;
  raise (SystemExit 1).

Definition cmd_snapshots (args : arguments) (path repo : option string) (json_output : bool) : cli unit :=
  let* cfg := load_config args in
  let* env := restic_env cfg in
  let* base := lift (get_base_path cfg) in
  let* depth := lift (get_repo_depth cfg) in
  let* rid :=
    if negb (is_empty path) then
      let p := default "" path in
      let rid := get_repo_id p base depth in
      if is_empty rid then no_repo p else ret (default "" rid)
    else if negb (is_empty repo) then ret (default "" repo)
    else do (PrintErr "Error: --path or --repo required") ;; raise (SystemExit 1) in
  let* url := lift (repo_url cfg rid) in
  let* bin := lift (restic_bin cfg) in
  let cmd := ([bin; "snapshots"; "-r"; url] ++ if json_output then ["--json"] else [])%list in
  do (SubprocessRun cmd env None) ;; ret tt.

Definition restore_argv (bin snapshot target path url : string) : list string :=
  [bin; "restore"; snapshot; "--target"; target; "--include"; path; "-r"; url].

Definition cmd_restore (args : arguments) (path : string) (snapshot target : option string) : cli unit :=
  let* cfg := load_config args in
  let* env := restic_env cfg in
  let* base := lift (get_base_path cfg) in
  let* depth := lift (get_repo_depth cfg) in
  let rid := get_repo_id path base depth in
  if is_empty rid then no_repo path
  else
    let rid := default "" rid in
    let* url := lift (repo_url cfg rid) in
    let target := str_or target "/tmp/restore" in
    let* bin := lift (restic_bin cfg) in
    let cmd := restore_argv bin (str_or snapshot "latest") target path url in
    do (Print ("Repo: " ++ rid)) ;;
    do (Print ("Restoring to: " ++ target)) ;;
    let* result := do (SubprocessRun cmd env None) in
    if returncode result =? 0 then do (Print ("Done. Check: " ++ target ++ path))
    else raise (SystemExit (returncode result)).

Definition dispatch (args : arguments) : cli unit :=
  match arg_command args with
  | Status verbose => cmd_status args verbose
  | Snapshots path repo json_output => cmd_snapshots args path repo json_output
  | Restore path snapshot target => cmd_restore args path snapshot target
  end.

Definition main : cli unit :=
  let* argv := do SysArgv in
  let* args := lift (parse_command_line (drop 1 argv)) in
  dispatch args.
End Status.

(** ** Writing a command line *)

(** [--name=value], when there is a value. *)
Definition option_word (name : string) (value : option string) : list string :=
  match value with Some v => ["--" ++ name ++ "=" ++ v] | None => [] end.

Definition flag_word (name : string) (b : bool) : list string := if b then ["--" ++ name] else [].

Definition command_line (args : arguments) : list string :=
  option_word "config" (Some (arg_config args)) ++
  match arg_command args with
  | Status verbose => "status" :: flag_word "verbose" verbose
  | Snapshots path repo json_output =>
      "snapshots" :: option_word "path" path ++ option_word "repo" repo ++ flag_word "json" json_output
  | Restore path snapshot target =>
      "restore" :: option_word "snapshot" snapshot ++ option_word "target" target ++ [path]
  end.

(** Values that [argparse] keeps: it drops the value [--], and it takes a
    path that starts with a dash for an option. *)
Definition plain (args : arguments) : bool :=
  let value v := negb (String.eqb v "--") in
  let maybe v := match v with Some s => value s | None => true end in
  value (arg_config args) &&
  match arg_command args with
  | Status _ => true
  | Snapshots path repo _ => maybe path && maybe repo
  | Restore path snapshot target => negb (startswith path "-") && maybe snapshot && maybe target
  end.

(** ** Lemmas *)

(** *** The command line *)

Lemma option_word_classifiable name value :
  name ∈ ["path"; "repo"; "snapshot"; "target"] ->
  Forall (classifiable (optionals parser_)) (option_word name value).
Proof.
  intros Hn. destruct value as [v|]; [|constructor]. constructor; [|constructor].
  repeat (apply elem_of_cons in Hn as [->|Hn]; [by split|]). by apply elem_of_nil in Hn.
Qed.

Lemma flag_word_classifiable name b :
  name ∈ ["verbose"; "json"] -> Forall (classifiable (optionals parser_)) (flag_word name b).
Proof.
  intros Hn. destruct b; [|constructor]. constructor; [|constructor].
  repeat (apply elem_of_cons in Hn as [->|Hn]; [by split|]). by apply elem_of_nil in Hn.
Qed.

Lemma parse_command c i name parse ws :
  list_find (fun q => q.1 = name) sub = Some (i, (name, parse)) ->
  startswith name "-" = false -> Forall (classifiable (optionals parser_)) ws ->
  parse_known_args parser_ (("--config=" ++ c) :: name :: ws)
  = let? (ns', extras) := parse ws in
    Ok (set_attributes (dict_set (dict_set (defaults parser_) "config" (get_value [c])) "command" (VStr name)) ns', extras).
Proof.
  intros Hn Hd Hws. by apply (parse_subcommand parser_ "command" sub i name parse ws ("--config=" ++ c)
    (Optional ["-c"; "--config"] "config" store) "--config" c).
Qed.

(** The attribute of a [--name=value] option. *)
Definition stored (v : option string) : pyval :=
  match v with Some s => get_value [s] | None => VNone end.

Lemma string_value_stored v :
  match v with Some s => negb (String.eqb s "--") | None => true end = true ->
  string_value (stored v) = v.
Proof. destruct v as [s|]; [|done]. intros H%negb_true_iff. simpl. by rewrite get_value_word. Qed.

Lemma parse_status v :
  parse_known_args p_status (flag_word "verbose" v) = Ok ([("verbose", VBool v)], []).
Proof. by destruct v. Qed.

Lemma parse_snap path repo j :
  parse_known_args p_snap (option_word "path" path ++ option_word "repo" repo ++ flag_word "json" j)
  = Ok ([("path", stored path); ("repo", stored repo); ("json_output", VBool j)], []).
Proof. destruct path as [p|], repo as [r|], j; lazy -[get_value]; reflexivity. Qed.

Lemma parse_restore path snapshot target :
  startswith path "-" = false ->
  parse_known_args p_restore (option_word "snapshot" snapshot ++ option_word "target" target ++ [path])
  = Ok ([("path", VStr path); ("snapshot", stored snapshot); ("target", stored target)], []).
Proof.
  intros Hp. rewrite <-(get_value_word path) by by apply not_separator.
  pose proof (parse_optional_word (optionals p_restore) path Hp) as Hw.
  pose proof (classify_cons (optionals p_restore) path Word [] (not_separator _ Hp) Hw) as Hc.
  destruct snapshot as [s|], target as [t|]; unfold parse_known_args.
  all: cbn [option_word app].
  all: repeat (erewrite (classify_cons _ (_ ++ _)) by (lazy; reflexivity)).
  all: rewrite Hc; lazy -[get_value]; reflexivity.
Qed.

Lemma parse_command_line_returns argv : returns (parse_command_line argv).
Proof.
  unfold parse_command_line. apply rbind_returns.
  - apply parse_args_returns. simpl. repeat constructor; intros words; by apply parse_known_args_returns.
  - intros ns _. unfold arguments_of. repeat (case_match; try done).
Qed.

(** *** The event table and [restore] *)

#[export] Instance item_le_total : Total item_le.
Proof. intros a b. apply (str_le_total a.1 b.1). Qed.

Definition occurrences (e : string) (items : list (string * string)) : Z :=
  len (filter (fun i => i.2 = e) items).

Lemma bump_keys k l : (bump k l).*1 = if decide (k ∈ l.*1) then l.*1 else (l.*1 ++ [k])%list.
Proof.
  induction l as [|[e n] l IH]; csimpl; [done|].
  destruct (String.eqb_spec e k) as [->|]; csimpl; [rewrite decide_True; [done|set_solver]|].
  rewrite IH. repeat case_decide; set_solver.
Qed.

Lemma bump_elem k l e n :
  NoDup l.*1 ->
  (e, n) ∈ bump k l <->
  (e <> k /\ (e, n) ∈ l) \/ (e = k /\ ((k, n - 1) ∈ l \/ (~ (k ∈ l.*1) /\ n = 1))).
Proof.
  induction l as [|[e' n'] l IH]; csimpl; intros Hnd.
  - rewrite list_elem_of_singleton. split; [intros [= -> ->]; right; set_solver|].
    intros [[_ H]|[-> [H|[_ ->]]]]; [by apply elem_of_nil in H..|done].
  - apply NoDup_cons in Hnd as [Hn Hnd]. specialize (IH Hnd).
    assert (Hin : forall m, (e', m) ∈ l -> False).
    { intros m Hm. apply Hn. apply (list_elem_of_fmap_2 fst) in Hm. done. }
    destruct (String.eqb_spec e' k) as [->|Hne]; csimpl; rewrite !elem_of_cons.
    + split.
      * intros [[= -> ->]|H]; [right; split; [done|left; left; f_equal; lia]|].
        left. split; [intros ->; by eapply Hin|by right].
      * intros [[H [[= -> ->]|H']]|[-> [[[= <-]|H]|[H _]]]]; try done.
        -- by right.
        -- left. f_equal. lia.
        -- by apply Hin in H.
        -- set_solver.
    + rewrite IH. split.
      * intros [[= -> ->]|[[H H']|[-> [H|[H ->]]]]]; [left; by split; [|left]|left; by split; [|right]| |].
        -- right. split; [done|]. left. by right.
        -- right. split; [done|]. right. split; [set_solver|done].
      * intros [[H [[= -> ->]|H']]|[-> [[[= -> _]|H]|[H ->]]]]; [by left| |done|..].
        -- right. left. done.
        -- right. right. split; [done|by left].
        -- right. right. split; [done|]. right. split; [set_solver|done].
Qed.

Lemma occurrences_snoc e items i :
  occurrences e (items ++ [i]) = occurrences e items + (if decide (i.2 = e) then 1 else 0).
Proof.
  unfold occurrences, len. rewrite list.filter_app, length_app. case_decide.
  - rewrite filter_cons_True by done. simpl. lia.
  - rewrite filter_cons_False by done. simpl. lia.
Qed.

Lemma occurrences_nonneg e items : 0 <= occurrences e items.
Proof. unfold occurrences, len. lia. Qed.

Lemma count_events_spec items :
  NoDup (count_events items).*1 /\
  forall e n, (e, n) ∈ count_events items <-> n = occurrences e items /\ 0 < n.
Proof.
  induction items as [|i items [IHn IHe]] using rev_ind.
  { split; [apply NoDup_nil_2|]. intros e n. unfold count_events, occurrences, len. simpl.
    rewrite elem_of_nil. lia. }
  unfold count_events in *. rewrite foldl_app. simpl.
  set (l := foldl _ [] items) in *. split.
  { rewrite bump_keys. case_decide; [done|]. apply NoDup_app. split; [done|].
    split; [set_solver|apply NoDup_singleton]. }
  intros e n. rewrite bump_elem by done. rewrite !IHe, occurrences_snoc.
  assert (Hk : ~ (i.2 ∈ l.*1) <-> occurrences i.2 items = 0).
  { pose proof (occurrences_nonneg i.2 items). split.
    - intros Hnot. destruct (decide (0 < occurrences i.2 items)) as [Hp|]; [|lia].
      exfalso. apply Hnot. apply (list_elem_of_fmap_2 fst l (i.2, occurrences i.2 items)).
      by apply IHe.
    - intros Hz Hin. apply list_elem_of_fmap in Hin as ([e' m] & Hi & Hm).
      simpl in Hi. subst e'. apply IHe in Hm. lia. }
  rewrite Hk. pose proof (occurrences_nonneg i.2 items). pose proof (occurrences_nonneg e items).
  destruct (decide (i.2 = e)) as [<-|Hne].
  - split; [intros [[? _]|[_ [?|?]]]; [done|lia|lia]|]. intros [-> _]. right. split; [done|].
    destruct (decide (0 < occurrences i.2 items)); lia.
  - rewrite Z.add_0_r. split; [intros [[_ ?]|[-> _]]; done|]. intros [? ?]. left. by split.
Qed.

(** The calls of [restore] under a configuration. *)
Definition restore_call (cfg : config) (path : string) (snapshot target : option string)
    (c : call) : Prop :=
  match c with
  | SubprocessRun argv _ _ =>
      exists base depth rid url bin,
        get_base_path cfg = Ok base /\ get_repo_depth cfg = Ok depth /\
        Repo.get_repo_id path base depth = Some rid /\ rid <> "" /\
        repo_url_of cfg rid = Ok url /\ get_restic_binary cfg = Ok bin /\
        argv = restore_argv bin (str_or snapshot "latest") (str_or target "/tmp/restore") path url
  | TomlLoad _ | OsEnviron | Print _ | PrintErr _ => True
  | _ => False
  end.

(** The repository [snapshots] is asked about. *)
Definition asked_repo (cfg : config) (path repo : option string) (rid : string) : Prop :=
  rid <> "" /\
  if is_empty path then repo = Some rid
  else exists base depth, get_base_path cfg = Ok base /\ get_repo_depth cfg = Ok depth /\
         Repo.get_repo_id (default "" path) base depth = Some rid.

(** The calls of [snapshots], and of [status]. *)
Definition snapshots_call (cfg : config) (path repo : option string) (json_output : bool)
    (c : call) : Prop :=
  match c with
  | SubprocessRun argv _ _ =>
      exists rid url bin, asked_repo cfg path repo rid /\
        repo_url_of cfg rid = Ok url /\ get_restic_binary cfg = Ok bin /\
        argv = ([bin; "snapshots"; "-r"; url] ++ if json_output then ["--json"] else [])%list
  | TomlLoad _ | OsEnviron | PrintErr _ => True
  | _ => False
  end.

Definition status_call (cfg : config) (verbose : bool) (c : call) : Prop :=
  match c with
  | SubprocessRun argv _ _ =>
      verbose = true /\ exists rid url bin,
        repo_url_of cfg rid = Ok url /\ get_restic_binary cfg = Ok bin /\ argv = latest_argv bin url
  | RedisFromUrl url => get_redis_url cfg = Ok url
  | RedisHLen key => key = "pending"
  | RedisHGetAll key => verbose = true /\ key = "pending"
  | MinioListObjects endpoint _ _ use_tls bucket =>
      get_endpoint cfg = Ok endpoint /\ get_use_tls cfg = Ok use_tls /\ get_bucket cfg = Ok bucket
  | TomlLoad _ | OsEnviron | Print _ => True
  | _ => False
  end.

(** What the arguments ask for. *)
Definition asked_call (cfg : config) (args : arguments) : call -> Prop :=
  match arg_command args with
  | Status verbose => status_call cfg verbose
  | Snapshots path repo json_output => snapshots_call cfg path repo json_output
  | Restore path snapshot target => restore_call cfg path snapshot target
  end.

Lemma env_default_calls (P : call -> Prop) k v env :
  only P (fun _ _ => True) (env_default (S:=unit) k v env).
Proof. unfold env_default. by destruct (env !! k), v. Qed.

Lemma restic_env_calls (P : call -> Prop) cfg :
  P OsEnviron -> only P (fun _ _ => True) (restic_env cfg).
Proof.
  intros HP. unfold restic_env. apply only_bind; [by apply only_do|intros env].
  do 2 (apply only_bind; [apply env_default_calls|intros ?]). apply env_default_calls.
Qed.

Lemma only_lift {S A B} P R (r : result A) (f : A -> py S B) :
  (forall a, r = Ok a -> only P R (f a)) -> only P R (bind (lift r) f).
Proof. intros Hf. destruct r as [a|e|]; [by apply Hf|done..]. Qed.

(** The three commands, once the configuration is loaded. *)
Lemma restore_calls cfg path snapshot target :
  only (restore_call cfg path snapshot target) (fun _ _ => True)
    (let* env := restic_env cfg in
     let* base := lift (get_base_path cfg) in
     let* depth := lift (get_repo_depth cfg) in
     let rid := get_repo_id path base depth in
     if is_empty rid then no_repo path
     else
       let rid := default "" rid in
       let* url := lift (repo_url cfg rid) in
       let target := str_or target "/tmp/restore" in
       let* bin := lift (restic_bin cfg) in
       let cmd := restore_argv bin (str_or snapshot "latest") target path url in
       do (Print ("Repo: " ++ rid)) ;;
       do (Print ("Restoring to: " ++ target)) ;;
       let* result := do (SubprocessRun cmd env None) in
       if returncode result =? 0 then do (Print ("Done. Check: " ++ target ++ path))
       else raise (SystemExit (returncode result))).
Proof.
  apply only_bind; [by apply restic_env_calls|intros env].
  apply only_lift. intros base Hb. apply only_lift. intros depth Hd. cbv zeta.
  change get_repo_id with Repo.get_repo_id.
  destruct (Repo.get_repo_id path base depth) as [rid|] eqn:Er; cbn [is_empty from_option id].
  2: { unfold no_repo. by apply only_bind; [apply only_do|]. }
  destruct (String.eqb_spec rid "") as [->|Hne].
  { unfold no_repo. by apply only_bind; [apply only_do|]. }
  apply only_lift. intros url Hu. apply only_lift. intros bin Hbin.
  do 2 (apply only_bind; [by apply only_do|intros _]).
  apply only_bind; [apply only_do|intros result].
  - exists base, depth, rid, url, bin. done.
  - by destruct (returncode result =? 0).
Qed.

Lemma snapshots_calls cfg path repo json_output :
  only (snapshots_call cfg path repo json_output) (fun _ _ => True)
    (let* env := restic_env cfg in
     let* base := lift (get_base_path cfg) in
     let* depth := lift (get_repo_depth cfg) in
     let* rid :=
       if negb (is_empty path) then
         let p := default "" path in
         let rid := get_repo_id p base depth in
         if is_empty rid then no_repo p else ret (default "" rid)
       else if negb (is_empty repo) then ret (default "" repo)
       else do (PrintErr "Error: --path or --repo required") ;; raise (SystemExit 1) in
     let* url := lift (repo_url cfg rid) in
     let* bin := lift (restic_bin cfg) in
     let cmd := ([bin; "snapshots"; "-r"; url] ++ if json_output then ["--json"] else [])%list in
     do (SubprocessRun cmd env None) ;; ret tt).
Proof.
  apply only_bind; [by apply restic_env_calls|intros env].
  apply only_lift. intros base Hb. apply only_lift. intros depth Hd. cbv zeta.
  change get_repo_id with Repo.get_repo_id.
  assert (Hrun : forall rid, asked_repo cfg path repo rid ->
    only (snapshots_call cfg path repo json_output) (fun _ _ => True)
      (let* url := lift (repo_url cfg rid) in
       let* bin := lift (restic_bin cfg) in
       do (SubprocessRun ([bin; "snapshots"; "-r"; url] ++ if json_output then ["--json"] else [])%list env None) ;;
       ret (S := unit) tt)).
  { intros rid Hr. apply only_lift. intros url Hu. apply only_lift. intros bin Hbin.
    apply only_bind; [apply only_do|done]. exists rid, url, bin. done. }
  destruct (is_empty path) eqn:Ep; cbn [negb].
  - destruct repo as [q|]; cbn [is_empty]; [destruct (String.eqb_spec q "") as [->|Hne]|]; cbn [negb].
    1,3: by split; [done|intros []].
    apply Hrun. split; [done|]. by rewrite Ep.
  - destruct (Repo.get_repo_id (default "" path) base depth) as [rid|] eqn:Er; cbn [is_empty from_option id].
    2: { by split; [done|intros []]. }
    destruct (String.eqb_spec rid "") as [->|Hne].
    { by split; [done|intros []]. }
    apply Hrun. split; [done|]. rewrite Ep. by exists base, depth.
Qed.

Lemma status_calls py_str cfg verbose :
  only (status_call cfg verbose) (fun _ _ => True)
    (let* env := restic_env cfg in
     let* url := lift (get_redis_url cfg) in
     do (RedisFromUrl url) ;;
     let* pending := do (RedisHLen "pending") in
     do (Print ("Pending events: " ++ str_of_Z pending)) ;;
     (if verbose && (0 <? pending) then
        let* all_items := do (RedisHGetAll "pending") in
        for_each (sorted_items (count_events all_items))
          (fun item => do (Print ("  " ++ item.1 ++ ": " ++ str_of_Z item.2)))
      else ret tt) ;;
     let* repos := list_repos cfg env in
     do (Print ("Repos: " ++ str_of_Z (len repos))) ;;
     for_each repos (print_repo py_str cfg env verbose)).
Proof.
  apply only_bind; [by apply restic_env_calls|intros env].
  apply only_lift. intros url Hu. apply only_bind; [by apply only_do|intros _].
  apply only_bind; [by apply only_do|intros pending]. apply only_bind; [by apply only_do|intros _].
  apply only_bind; [|intros _].
  { destruct (verbose && _) eqn:Ev; [|done]. apply andb_prop in Ev as [-> _].
    apply only_bind; [by apply only_do|intros items]. apply only_for_each. intros item. by apply only_do. }
  apply only_bind; [|intros repos].
  { unfold list_repos. apply only_lift. intros endpoint He. apply only_lift. intros bucket Hb.
    apply only_lift. intros tls Ht. apply only_bind; [by apply only_do|done]. }
  apply only_bind; [by apply only_do|intros _]. apply only_for_each. intros rid.
  unfold print_repo. destruct verbose; [|by apply only_do].
  apply only_lift. intros u Hu'. apply only_lift. intros bin Hbin.
  apply only_bind; [apply only_do; split; [done|]; by exists rid, u, bin|intros result].
  apply only_lift. intros out _. apply only_lift. intros err _.
  apply only_bind; [|intros last; by apply only_do]. destruct (returncode result =? 0); [|done].
  apply only_lift. intros snaps _. destruct (truthy snaps); [by destruct (last_time py_str snaps)|done].
Qed.

(** A command: the load of the configuration file, and what is asked for. *)
Lemma dispatch_calls py_str args :
  exists rest : config -> cli unit,
    dispatch py_str args = bind (do (TomlLoad (arg_config args))) rest /\
    forall cfg, only (asked_call cfg args) (fun _ _ => True) (rest cfg).
Proof.
  unfold dispatch, asked_call. destruct (arg_command args) as [v|p r j|p s t]; eexists.
  - split; [reflexivity|]. intros cfg. apply status_calls.
  - split; [reflexivity|]. intros cfg. apply snapshots_calls.
  - split; [reflexivity|]. intros cfg. apply restore_calls.
Qed.

Lemma roundtrip args :
  plain args = true -> parse_command_line (command_line args) = Ok args.
Proof.
  destruct args as [c cmd]; unfold plain, command_line, parse_command_line, parse_args; cbn [arg_config arg_command].
  intros [Hc%negb_true_iff H]%andb_prop. cbn [option_word app].
  destruct cmd as [v|p r j|p s t].
  - rewrite (parse_command c 0 "status" (parse_known_args p_status)), parse_status
      by first [done|by apply flag_word_classifiable; set_solver].
    lazy -[get_value]. rewrite get_value_word by done. by destruct v.
  - apply andb_prop in H as [Hp Hr].
    rewrite (parse_command c 1 "snapshots" (parse_known_args p_snap)), parse_snap
      by first [done|repeat apply Forall_app_2;
        (apply option_word_classifiable || apply flag_word_classifiable); set_solver].
    rewrite <-(string_value_stored p), <-(string_value_stored r) at 2 by done.
    lazy -[get_value string_value stored]. rewrite get_value_word by done. by destruct j.
  - apply andb_prop in H as [[Hp%negb_true_iff Hs]%andb_prop Ht].
    rewrite (parse_command c 2 "restore" (parse_known_args p_restore)), parse_restore; try done.
    + lazy -[get_value string_value stored]. by rewrite get_value_word, !string_value_stored.
    + repeat apply Forall_app_2; try (apply option_word_classifiable; set_solver).
      constructor; [|constructor]. split; [by apply not_separator|]. by rewrite parse_optional_word.
Qed.

(** ** Properties *)

(** C19. Command lines are read back: the words written for any arguments,
    every option as [--name=value], parse to the same arguments, whatever the
    values are, as long as none is [--] and the path to restore does not start
    with a dash. *)
Theorem command_line_roundtrip args :
  plain args = true -> parse_command_line (command_line args) = Ok args.
Proof. apply roundtrip. Qed.

(** C20. The command line decides what is done: for any arguments that can be
    written ([plain]), [main], given the words for them, first loads the
    configuration file they name; then all its calls, whatever the services
    answer and however it ends, are those the arguments ask for: [status] asks
    only for the length of [pending], with [-v] also for its entries and for the
    last snapshot of repositories, and lists the bucket; [snapshots] runs restic
    once, on the repository of the given path or the given repository, with
    [--json] exactly when asked; [restore] runs only [restic restore] with the
    path, snapshot and target given, on the path's repository.  No command
    writes to Redis. *)
Theorem command_line_decides {W} (h : handler W) py_str args prog w w1 cfg w2 r u lw' :
  plain args = true ->
  h SysArgv w = (Ok (prog :: command_line args), w1) ->
  h (TomlLoad (arg_config args)) w1 = (Ok cfg, w2) ->
  run (log_handler h) (main py_str) tt (Logged w []) = (r, u, lw') ->
  exists l, trace lw' = (Entry SysArgv (Ok (prog :: command_line args)) ::
                         Entry (TomlLoad (arg_config args)) (Ok cfg) :: l)%list /\
    Forall (asked_call cfg args) (map call_of l).
Proof.
  intros Hp H1 H2.
  assert (E1 : log_handler h SysArgv (Logged w []) = (Ok (prog :: command_line args),
    Logged w1 [Entry SysArgv (Ok (prog :: command_line args))]))
    by (unfold log_handler; cbn [base]; by rewrite H1).
  assert (E2 : forall tr, log_handler h (TomlLoad (arg_config args)) (Logged w1 tr)
    = (Ok cfg, Logged w2 (tr ++ [Entry (TomlLoad (arg_config args)) (Ok cfg)])%list))
    by (intros tr; unfold log_handler; cbn [base]; by rewrite H2).
  unfold main. rewrite run_bind, (run_do _ SysArgv), E1. cbn [fst snd].
  change (drop 1 (prog :: command_line args)) with (command_line args).
  rewrite run_lift, roundtrip by done.
  destruct (dispatch_calls py_str args) as (rest & -> & Ho).
  rewrite run_bind, (run_do _ (TomlLoad (arg_config args))), E2. cbn [fst snd app].
  intros E. destruct (run_extends h _ _ _ _ _ _ E) as [l Hl]. exists l. split; [exact Hl|].
  pose proof (wpc_only (asked_call cfg args) (fun _ _ => True) (log_handler h)
    (fun (_ : unit) lw => exists l, trace lw = (Entry SysArgv (Ok (prog :: command_line args)) ::
        Entry (TomlLoad (arg_config args)) (Ok cfg) :: l)%list /\
      Forall (asked_call cfg args) (map call_of l)) (rest cfg) tt) as Hw.
  eapply wpc_run in Hw; [| | |apply Ho| |exact E]; [|clear..|done|by exists []].
  - destruct Hw as (l' & Hl' & Hall). rewrite Hl in Hl'. by injection Hl' as <-.
  - intros c s' lw Hc (l & Hl & Hall). rewrite log_step, Hl.
    exists (l ++ [Entry c (log_handler h c lw).1])%list. split; [done|].
    rewrite map_app. apply Forall_app. split; [done|by constructor].
Qed.

(** C18. [restore] looks where [backup] stores: whatever the services answer,
    it calls restic only on the very repository in which [backup_repo] stores
    the path under the same configuration, asks it for the path itself, and
    touches neither Redis nor MinIO. *)
Theorem restore_uses_backup_repo {W} (h : handler W) args path snapshot target w cfg w1 r u lw' :
  h (TomlLoad (arg_config args)) w = (Ok cfg, w1) ->
  run (log_handler h) (cmd_restore args path snapshot target) tt (Logged w []) = (r, u, lw') ->
  Forall (restore_call cfg path snapshot target) (map call_of (trace lw')).
Proof.
  intros H1. unfold cmd_restore, load_config. rewrite run_bind, (run_do _ (TomlLoad (arg_config args))).
  set (c := TomlLoad (arg_config args)) in *.
  pose proof (log_calls_step h c (Logged w [])) as Ht.
  assert (Hr : (log_handler h c (Logged w [])).1 = Ok cfg) by (unfold log_handler; simpl; by rewrite H1).
  destruct (log_handler h c (Logged w [])) as [a lw1]. cbn [fst snd trace map app] in *. subst a.
  intros H.
  refine (wpc_run _ _ _ _ _ _ _ _ _ (wpc_only (restore_call cfg path snapshot target)
    (fun _ _ => True) (log_handler h)
    (fun (_ : unit) lw => Forall (restore_call cfg path snapshot target) (map call_of (trace lw)))
    _ tt lw1 _ _ (restore_calls cfg path snapshot target) _) H).
  - intros c' _ lw Hc Hall. rewrite log_calls_step. apply Forall_app. split; [done|by constructor].
  - done.
  - rewrite Ht. by constructor.
Qed.

(** The exit status of [restore]: when restic has been started on the
    path's repository and answers, [restore] returns normally exactly when
    restic's exit code was 0, and otherwise exits with restic's code. *)
Theorem restore_exit_status {W} (h : handler W) args path snapshot target
    cfg env base depth rid url bin proc w w1 w2 w3 w4 w5 u6 w6 :
  h (TomlLoad (arg_config args)) w = (Ok cfg, w1) ->
  run h (restic_env cfg) tt w1 = (Ok env, tt, w2) ->
  get_base_path cfg = Ok base -> get_repo_depth cfg = Ok depth ->
  Repo.get_repo_id path base depth = Some rid -> rid <> "" ->
  repo_url_of cfg rid = Ok url -> get_restic_binary cfg = Ok bin ->
  h (Print ("Repo: " ++ rid)) w2 = (Ok tt, w3) ->
  h (Print ("Restoring to: " ++ str_or target "/tmp/restore")) w3 = (Ok tt, w4) ->
  h (SubprocessRun (restore_argv bin (str_or snapshot "latest") (str_or target "/tmp/restore")
                      path url) env None) w4 = (Ok proc, w5) ->
  h (Print ("Done. Check: " ++ str_or target "/tmp/restore" ++ path)) w5 = (Ok u6, w6) ->
  (run h (cmd_restore args path snapshot target) tt w).1.1
  = if returncode proc =? 0 then Ok tt else Exc (SystemExit (returncode proc)).
Proof.
  intros H1 H2 Hb Hd Hr Hne Hu Hbin H3 H4 H5 H6.
  unfold cmd_restore, load_config. rewrite run_bind, (run_do _ (TomlLoad (arg_config args))), H1. cbn [fst snd].
  rewrite run_bind, H2, run_lift, Hb, run_lift, Hd. cbv zeta.
  change get_repo_id with Repo.get_repo_id. rewrite Hr. cbn [is_empty from_option id].
  destruct (String.eqb_spec rid ""); [done|].
  rewrite run_lift. change (repo_url cfg rid) with (repo_url_of cfg rid). rewrite Hu.
  rewrite run_lift. unfold restic_bin. rewrite Hbin.
  rewrite run_bind, run_do, H3. cbn [fst snd]. rewrite run_bind, run_do, H4. cbn [fst snd].
  rewrite run_bind, run_do, H5. cbn [fst snd].
  destruct (returncode proc =? 0); [|done]. rewrite run_do, H6. by destruct u6.
Qed.

(** The event table of [status -v] is right: the events listed are
    distinct and in order, each with the number of pending paths that have it,
    and no event with a pending path is missing. *)
Theorem status_counts items :
  let table := sorted_items (count_events items) in
  Sorted item_le table /\ NoDup table.*1 /\
  forall e n, (e, n) ∈ table <-> n = occurrences e items /\ 0 < n.
Proof.
  intros table. destruct (count_events_spec items) as [Hn He].
  assert (Hp : table ≡ₚ count_events items) by apply merge_sort_Permutation.
  split; [|split].
  - apply Sorted_merge_sort, _.
  - by rewrite Hp.
  - intros e n. rewrite Hp. apply He.
Qed.

(** ** Witnesses *)

Definition demo_args : arguments := Arguments_ "config.toml" (Restore "/home/s/u/a" None None).

Definition cli_world : sim := with_cfg demo_cfg (with_env demo_secrets sim0).

Lemma command_line_roundtrip_witness :
  command_line (Arguments_ "my config" (Restore "/home/s/u/a b" (Some "-1") None))
  = ["--config=my config"; "restore"; "--snapshot=-1"; "/home/s/u/a b"] /\
  parse_command_line ["--config=my config"; "restore"; "--snapshot=-1"; "/home/s/u/a b"]
  = Ok (Arguments_ "my config" (Restore "/home/s/u/a b" (Some "-1") None)).
Proof.
  split; [reflexivity|].
  exact (command_line_roundtrip (Arguments_ "my config" (Restore "/home/s/u/a b" (Some "-1") None)) eq_refl).
Defined.

Lemma command_line_decides_witness :
  let args := Arguments_ "config.toml" (Snapshots None (Some "s/u") true) in
  let w := with_argv ("cli.py" :: command_line args) cli_world in
  let '(r, _, lw) := run (log_handler sim_handler) (main (fun _ => "")) tt (Logged w []) in
  r = Ok tt /\ length (trace lw) = 4%nat /\
  Forall (asked_call demo_cfg args) (map call_of (drop 2 (trace lw))).
Proof.
  intros args w.
  destruct (run (log_handler sim_handler) (main (fun _ => "")) tt (Logged w [])) as [[r u] lw] eqn:E.
  destruct (command_line_decides sim_handler (fun _ => "") args "cli.py" w w demo_cfg w r u lw
    eq_refl eq_refl eq_refl E) as (l & Hl & Hall).
  rewrite Hl. vm_compute in E. injection E as <- _ <-. injection Hl as <-.
  split; [reflexivity|]. split; [reflexivity|exact Hall].
Defined.

Lemma restore_uses_backup_repo_witness :
  let '(r, _, lw) := run (log_handler sim_handler) (cmd_restore demo_args "/home/s/u/a" None None) tt
                       (Logged cli_world []) in
  r = Ok tt /\ length (trace lw) = 6%nat /\
  Forall (restore_call demo_cfg "/home/s/u/a" None None) (map call_of (trace lw)).
Proof.
  destruct (run (log_handler sim_handler) (cmd_restore demo_args "/home/s/u/a" None None) tt
              (Logged cli_world [])) as [[r u] lw] eqn:E.
  pose proof (restore_uses_backup_repo sim_handler demo_args "/home/s/u/a" None None cli_world demo_cfg
                cli_world r u lw eq_refl E) as H.
  vm_compute in E. injection E as <- _ <-. split; [reflexivity|]. split; [reflexivity|exact H].
Defined.

Lemma restore_exit_status_witness :
  (run sim_handler (cmd_restore demo_args "/home/s/u/a" None (Some "/mnt")) tt
     (with_exit (fun _ => 3) cli_world)).1.1 = Exc (SystemExit 3).
Proof.
  set (w := with_exit (fun _ => 3) cli_world).
  rewrite (restore_exit_status sim_handler demo_args "/home/s/u/a" None (Some "/mnt") demo_cfg
    demo_secrets "/home" 2 "s/u" "s3:http://minio:9000/backup/s/u" "restic" (Completed 3 "" "")
    w w w w w w tt w); first [reflexivity|discriminate].
Defined.
