(* ===== verification/System.v ===== *)
(** The whole back end: collector, backup and prune jobs of all nodes, and any
    other processes, on one Redis.

    A [system] is a collector process and the jobs that have been started, with
    their memories, the world they share and a log of all calls.  A [move] lets
    one of them execute a node, starts the collector anew (which ends what it
    was doing), starts a job or kills one.  [AnotherCalls] is a call of any
    other process, such as the command line; it is also how the lock expires.
    The only thing asked of the others is to leave [pending] and [processing]
    alone, and of the lock that it expires while no job works: that no two jobs
    work at a time is proved, from the code of the jobs. *)
From S2P Require Import Argparse Prune Cli.
From S2P Require Import Prelude PyStr PyVal Config Effects Semantics Redis Sim Interleave.
From S2P Require Import Consumer ConsumerMain Session Repo Backup NoLoss Lock Jobs.

Local Open Scope string_scope.
Local Open Scope Z_scope.
#[local] Set Warnings "-clear-no-such-hyp".

(** ** The system *)

(** Jobs are numbered in the order of their starts. *)
Inductive process : Type := TheCollector | Job (j : nat) | Another.

#[export] Instance process_eq_dec : EqDecision process.
Proof. solve_decision. Defined.

(** A run of [backup.py] or [prune.py]: what is left of its [main], its memory,
    and the phase its calls have brought it to. *)
Inductive job : Type :=
| Backing (ph : phase) (left : py RepoManager unit) (repos : RepoManager)
| Pruning (ph : phase) (left : py unit unit)
| Killed.

Definition job_phase (x : job) : phase :=
  match x with Backing ph _ _ | Pruning ph _ => ph | Killed => Finished end.

Record system (W : Type) := System {
  collector : py heap unit;
  processor : heap;
  jobs : list job;
  world : W;
  log : list (process * entry)
}.
Arguments System {W}.
Arguments collector {W}.
Arguments processor {W}.
Arguments jobs {W}.
Arguments world {W}.
Arguments log {W}.

Inductive move : Type :=
| CollectorStarts (fuel : nat)
| CollectorMoves
| BackupStarts (fuel : nat) (sched : list nat) (order : nat -> list nat)
| PruneStarts
| JobMoves (j : nat)
| JobKilled (j : nat)
| AnotherCalls (c : call).

Definition by_process (x : process) (l : list entry) : list (process * entry) := pair x <$> l.

(** The calls of one process. *)
Definition calls_of (x : process) (l : list (process * entry)) : list entry :=
  omap (fun e => if decide (e.1 = x) then Some e.2 else None) l.

(** One node of a job. *)
Definition next_of {W} (h : handler W) (x : job) (w : W) : job * W * list entry :=
  match x with
  | Backing ph q s =>
      let '(q', s', w', l) := next h q s w in (Backing (foldl after ph l) q' s', w', l)
  | Pruning ph q =>
      let '(q', _, w', l) := next h q tt w in (Pruning (foldl after ph l) q', w', l)
  | Killed => (Killed, w, [])
  end.

Definition go {W} (h : handler W) (X : system W) (m : move) : system W :=
  match m with
  | CollectorStarts fuel =>
      System (ConsumerMain.main fuel) init_heap (jobs X) (world X) (log X)
  | CollectorMoves =>
      let '(p, s, w, l) := next h (collector X) (processor X) (world X) in
      System p s (jobs X) w (log X ++ by_process TheCollector l)
  | BackupStarts fuel sched order =>
      System (collector X) (processor X)
        (jobs X ++ [Backing Waiting (Backup.main fuel sched order) new_manager]) (world X) (log X)
  | PruneStarts =>
      System (collector X) (processor X) (jobs X ++ [Pruning Waiting Prune.main]) (world X) (log X)
  | JobMoves j =>
      match jobs X !! j with
      | Some x =>
          let '(x', w, l) := next_of h x (world X) in
          System (collector X) (processor X) (<[j := x']> (jobs X)) w
            (log X ++ by_process (Job j) l)
      | None => X
      end
  | JobKilled j =>
      System (collector X) (processor X) (<[j := Killed]> (jobs X)) (world X) (log X)
  | AnotherCalls c =>
      let '(r, w) := h c (world X) in
      System (collector X) (processor X) (jobs X) w (log X ++ [(Another, Entry c r)])
  end.

(** Nothing has been started yet. *)
Definition idle {W} (w : W) : system W := System (ret tt) init_heap [] w [].

Definition run_system {W} (h : handler W) (ms : list move) (X : system W) : system W :=
  foldl (go h) X ms.

Definition nobody_holds {W} (X : system W) : Prop :=
  Forall (fun x => job_phase x <> Working) (jobs X).

(** [as_completed] hands out each future once; the others leave both hashes
    alone; the lock key is deleted by others (it expires) only while no job
    works. *)
Definition legal {W} (X : system W) (m : move) : Prop :=
  match m with
  | BackupStarts _ _ order => forall n, order n ≡ₚ seq 0 n
  | AnotherCalls c =>
      bystander c /\ (lock_free c \/ c = RedisDelete LOCK_KEY /\ nobody_holds X)
  | _ => True
  end.

(** Each move is allowed where it is made. *)
Fixpoint steps {W} (h : handler W) (ok : system W -> move -> Prop)
    (ms : list move) (X : system W) : Prop :=
  match ms with
  | [] => True
  | m :: ms' => ok X m /\ steps h ok ms' (go h X m)
  end.

Abbreviation lawful h := (steps h legal).

(** ** The command line is a bystander *)

Lemma cli_bystander py_str :
  only (fun c => bystander c /\ lock_free c) (fun _ _ => True) (Cli.main py_str).
Proof.
  unfold Cli.main, dispatch, cmd_status, cmd_snapshots, cmd_restore, print_repo, list_repos, no_repo,
    Cli.restic_env, env_default, load_config.
  solve_only; try done; (split; [|done]); (split; [by auto|done]).
Qed.

(** ** Lemmas on the log *)

Lemma calls_of_app x l l' : calls_of x (l ++ l') = (calls_of x l ++ calls_of x l')%list.
Proof. apply omap_app. Qed.

Lemma calls_of_own x l : calls_of x (by_process x l) = l.
Proof.
  induction l as [|e l IH]; [done|]. simpl. unfold calls_of in *. simpl.
  rewrite decide_True by done. by rewrite IH.
Qed.

Lemma calls_of_other x y l : y <> x -> calls_of x (by_process y l) = [].
Proof. intros H. induction l as [|e l IH]; [done|]. unfold calls_of in *. simpl. by rewrite decide_False. Qed.

Lemma calls_of_another x c r : x <> Another -> calls_of x [(Another, Entry c r)] = [].
Proof. intros H. by apply (calls_of_other x Another [Entry c r]). Qed.

Section Log.
Context {W : Type} (h : handler W).

Lemma next_length {S A} (p : prog S A) s w : (length (next h p s w).2 <= 1)%nat.
Proof.
  destruct p as [a|c k|X f k]; simpl; [lia|by destruct (h c w); simpl|by destruct (f s); simpl; lia].
Qed.

Lemma next_of_length x w : (length (next_of h x w).2 <= 1)%nat.
Proof.
  destruct x as [ph q s|ph q|]; simpl; [| |lia].
  - pose proof (next_length q s w). by destruct (next h q s w) as [[[q' s'] w'] l].
  - pose proof (next_length q tt w). by destruct (next h q tt w) as [[[q' s'] w'] l].
Qed.

(** A move adds at most one call. *)
Lemma log_go X m :
  exists l, log (go h X m) = (log X ++ l)%list /\ (length l <= 1)%nat.
Proof.
  assert (H0 : exists l : list (process * entry), log X = (log X ++ l)%list /\ (length l <= 1)%nat)
    by (exists []; by rewrite app_nil_r; split; [|simpl; lia]).
  destruct m; simpl; try exact H0.
  - pose proof (next_length (collector X) (processor X) (world X)) as Hl.
    destruct (next h _ _ _) as [[[p s] w] l]. simpl in *. eexists. split; [done|].
    by unfold by_process; rewrite length_fmap.
  - destruct (jobs X !! j) as [x|]; [|exact H0]. pose proof (next_of_length x (world X)) as Hl.
    destruct (next_of h x (world X)) as [[x' w] l]. simpl in *. eexists. split; [done|].
    by unfold by_process; rewrite length_fmap.
  - destruct (h c (world X)) as [r w]. eexists. split; [done|]. simpl. lia.
Qed.

Lemma log_run ms X : exists l, log (run_system h ms X) = (log X ++ l)%list.
Proof.
  revert X. induction ms as [|m ms IH]; intros X; [exists []; by rewrite app_nil_r|].
  destruct (IH (go h X m)) as [l Hl]. destruct (log_go X m) as (l' & Hl' & _).
  exists (l' ++ l)%list. simpl. by rewrite Hl, Hl', app_assoc.
Qed.

Lemma run_system_app ms ms' X :
  run_system h (ms ++ ms') X = run_system h ms' (run_system h ms X).
Proof. apply foldl_app. Qed.

Lemma steps_app ok ms ms' X :
  steps h ok (ms ++ ms') X <->
  steps h ok ms X /\ steps h ok ms' (run_system h ms X).
Proof. revert X. induction ms as [|m ms IH]; intros X; simpl; [tauto|]. rewrite IH. tauto. Qed.

Lemma steps_forall (P : move -> Prop) (ok : system W -> move -> Prop) ms X :
  (forall X m, P m -> ok X m) -> Forall P ms -> steps h ok ms X.
Proof. intros HP Hms. revert X. induction Hms; intros X; simpl; auto. Qed.

(** An invariant of the system and of the calls since some point of the run. *)
Lemma run_invariant ok (I : list (process * entry) -> system W -> Prop) :
  (forall X m l0 l, ok X m -> I l0 X -> log (go h X m) = (log X ++ l)%list ->
     I (l0 ++ l)%list (go h X m)) ->
  forall ms X l0 l, steps h ok ms X -> I l0 X ->
    log (run_system h ms X) = (log X ++ l)%list -> I (l0 ++ l)%list (run_system h ms X).
Proof.
  intros Hgo ms. induction ms as [|m ms IH]; intros X l0 l Hms HI Hl.
  { simpl in Hl. rewrite <-(app_nil_r (log X)) in Hl at 1. apply app_inv_head in Hl as <-.
    by rewrite app_nil_r. }
  destruct Hms as [Hm Hms].
  destruct (log_go X m) as (l1 & H1 & _), (log_run ms (go h X m)) as [l2 H2].
  simpl in Hl. rewrite H2, H1, <-app_assoc in Hl. apply app_inv_head in Hl as <-.
  rewrite app_assoc. apply IH; [done|by apply Hgo|done].
Qed.

Lemma run_keeps ok (I : system W -> Prop) ms X :
  (forall X m, ok X m -> I X -> I (go h X m)) -> steps h ok ms X -> I X ->
  I (run_system h ms X).
Proof.
  intros Hgo. revert X. induction ms as [|m ms IH]; intros X; [done|]. intros [Hm Hms] HI.
  apply IH; [done|by apply Hgo].
Qed.

(** Each call in the log was made by one of the moves. *)
Lemma log_split ms X l1 e l2 :
  log (run_system h ms X) = (log X ++ l1 ++ e :: l2)%list ->
  exists ms1 m ms2, ms = (ms1 ++ m :: ms2)%list /\
    log (run_system h ms1 X) = (log X ++ l1)%list /\
    log (go h (run_system h ms1 X) m) = (log X ++ l1 ++ [e])%list.
Proof.
  revert X l1. induction ms as [|m ms IH]; intros X l1 H.
  { simpl in H. apply (f_equal length) in H. rewrite !length_app in H. simpl in H. lia. }
  destruct (log_go X m) as (l & Hm & Hl). simpl in H.
  destruct (log_run ms (go h X m)) as [l' Hrun].
  rewrite Hm in Hrun. rewrite Hrun, <-app_assoc in H. apply app_inv_head in H.
  destruct l as [|e' [|? ?]]; [| |simpl in Hl; lia].
  - rewrite app_nil_r in Hm. simpl in H. subst l'.
    destruct (IH (go h X m) l1) as (ms1 & m' & ms2 & -> & H1 & H2).
    { rewrite Hm. by rewrite Hrun, app_nil_r. }
    rewrite Hm in H1, H2. exists (m :: ms1), m', ms2. done.
  - destruct l1 as [|e1 l1]; simpl in H; injection H as -> H.
    + exists [], m, ms. simpl. rewrite app_nil_r. by rewrite Hm.
    + destruct (IH (go h X m) l1) as (ms1 & m' & ms2 & -> & H1 & H2).
      { rewrite Hm, Hrun, <-!app_assoc. simpl. by rewrite H. }
      rewrite Hm, <-!app_assoc in H1, H2. exists (m :: ms1), m', ms2. done.
Qed.
End Log.

Lemma only_next {W S A} (h : handler W) P R (q : prog S A) s w :
  only P R q ->
  let '(q', _, _, l) := next h q s w in
  only P R q' /\ Forall (fun e => match e with Entry c _ => P c end) l.
Proof.
  destruct q as [a|c k|X f k]; simpl.
  - done.
  - intros [Hc Hk]. destruct (h c w) as [r w']. split; [done|]. by constructor.
  - intros Hk. destruct (Hk s) as [_ Hx]. by destruct (f s).
Qed.

Lemma collects_lock_free c : collects c -> lock_free c.
Proof.
  destruct c; try done. simpl. intros H. eapply Forall_impl; [exact H|]. by intros [] ->.
Qed.

(** ** The jobs obey the lock *)

Section Lock.
Context {W : Type} (h : handler W) `{!RedisServer h} `{!RedisLaws h eq}.

Definition obedient (x : job) : Prop :=
  match x with
  | Backing ph q _ => follows any ph q
  | Pruning ph q => follows any ph q
  | Killed => True
  end.

Lemma follows_next {S A} (Q : phase -> A -> Prop) ph (q : prog S A) s w :
  follows Q ph q ->
  let '(q', _, _, l) := next h q s w in follows Q (foldl after ph l) q'.
Proof.
  destruct q as [a|c k|X f k]; cbn [follows next].
  - done.
  - intros [_ Hk]. specialize (Hk (h c w).1). by destruct (h c w).
  - intros Hk. specialize (Hk s). by destruct (f s).
Qed.

Lemma obedient_next x w : obedient x -> obedient (next_of h x w).1.1.
Proof.
  destruct x as [ph q s|ph q|]; simpl; [..|done].
  - intros H. pose proof (follows_next any ph q s w H). by destruct (next h q s w) as [[[q' s'] w'] l].
  - intros H. pose proof (follows_next any ph q tt w H). by destruct (next h q tt w) as [[[q' s'] w'] l].
Qed.

(** What a node of a job does: at most one call, allowed by the phase. *)
Lemma node_of_job x w :
  obedient x ->
  ((next_of h x w).1.2 = w /\ (next_of h x w).2 = [] /\ job_phase (next_of h x w).1.1 = job_phase x) \/
  (exists c, allowed (job_phase x) c /\ (next_of h x w).1.2 = (h c w).2 /\
     (next_of h x w).2 = [Entry c (h c w).1] /\
     job_phase (next_of h x w).1.1 = after (job_phase x) (Entry c (h c w).1)).
Proof.
  assert (H : forall S A ph (q : prog S A) s, follows any ph q ->
    ((next h q s w).1.2 = w /\ (next h q s w).2 = []) \/
    (exists c, allowed ph c /\ (next h q s w).1.2 = (h c w).2 /\ (next h q s w).2 = [Entry c (h c w).1])).
  { intros S A ph q s. destruct q as [a|c k|X f k]; cbn [follows next]; [by left| |].
    - intros [Hc _]. right. exists c. by destruct (h c w).
    - intros _. left. by destruct (f s). }
  destruct x as [ph q s|ph q|]; cbn [obedient next_of job_phase]; [| |by left].
  - intros Hq. specialize (H _ _ ph q s Hq). destruct (next h q s w) as [[[q' s'] w'] l]. simpl in *.
    destruct H as [[-> ->]|(c & Hc & -> & ->)]; [by left|right; by exists c].
  - intros Hq. specialize (H _ _ ph q tt Hq). destruct (next h q tt w) as [[[q' s'] w'] l]. simpl in *.
    destruct H as [[-> ->]|(c & Hc & -> & ->)]; [by left|right; by exists c].
Qed.

(** The collector knows no lock; the jobs obey it. *)
Definition orderly (X : system W) : Prop :=
  only collects (fun _ _ => True) (collector X) /\ Forall obedient (jobs X).

Lemma orderly_go X m : orderly X -> orderly (go h X m).
Proof.
  intros [Hc Hj]. destruct m; simpl.
  - split; [apply main_collects|done].
  - pose proof (only_next h _ _ _ (processor X) (world X) Hc) as Hn.
    destruct (next h _ _ _) as [[[q s] w] l]. by destruct Hn.
  - split; [done|]. apply Forall_app. split; [done|]. apply Forall_singleton. apply backup_main_follows.
  - split; [done|]. apply Forall_app. split; [done|]. apply Forall_singleton. apply prune_main_follows.
  - destruct (jobs X !! j) as [x|] eqn:E; [|done].
    pose proof (obedient_next x (world X) (Forall_lookup_1 _ _ _ _ Hj E)) as Hx.
    destruct (next_of h x (world X)) as [[x' w] l]. split; [done|]. by apply Forall_insert.
  - split; [done|]. by apply Forall_insert.
  - by destruct (h c (world X)).
Qed.

(** The state of the lock protocol that a system is in. *)
Definition phase_of (X : system W) (j : nat) : phase := from_option job_phase Waiting (jobs X !! j).

Definition represents (X : system W) (C : cluster) : Prop :=
  cl_db C = rs_db (world X) /\ forall j, cl_phase C j = phase_of X j.

Definition exclusive (X : system W) : Prop :=
  exists C, reachable rs_encode nobody_works C /\ represents X C.

(** A call that leaves the lock alone. *)
Lemma exclusive_call X Y c :
  lock_free c -> world Y = (h c (world X)).2 -> (forall j, phase_of Y j = phase_of X j) ->
  exclusive X -> exclusive Y.
Proof.
  intros Hc Hw Hph (C & HC & Hdb & Hp). exists (Cluster (rs_db (world Y)) (cl_phase C)). split.
  - eapply reach_step; [exact HC|]. apply step_other. rewrite Hdb, Hw.
    by apply (same_lock_exists), (exec_same_lock h).
  - split; [done|]. intros j. rewrite Hph. apply Hp.
Qed.

Lemma exclusive_same X Y :
  world Y = world X -> (forall j, phase_of Y j = phase_of X j) -> exclusive X -> exclusive Y.
Proof.
  intros Hw Hph (C & HC & Hdb & Hp). exists C. split; [done|]. split; [by rewrite Hw|].
  intros j. rewrite Hph. apply Hp.
Qed.

Lemma phase_insert X Y j x :
  jobs Y = <[j := x]> (jobs X) -> is_Some (jobs X !! j) ->
  forall i, phase_of Y i = set_phase j (job_phase x) (phase_of X) i.
Proof.
  intros HY Hj i. unfold phase_of, set_phase. rewrite HY. case_decide as Hi.
  - subst i. by rewrite list_lookup_insert_eq by by apply lookup_lt_is_Some.
  - by rewrite list_lookup_insert_ne.
Qed.

Lemma phase_start X Y x :
  jobs Y = (jobs X ++ [x])%list -> job_phase x = Waiting -> forall i, phase_of Y i = phase_of X i.
Proof.
  intros HY Hx i. unfold phase_of. rewrite HY.
  destruct (Nat.lt_ge_cases i (length (jobs X))) as [Hi|Hi]; [by rewrite lookup_app_l|].
  rewrite lookup_app_r, (lookup_ge_None_2 (jobs X)) by done. simpl.
  by destruct (i - length (jobs X))%nat.
Qed.

(** A job makes a node. *)
Lemma exclusive_job X Y j x :
  obedient x -> jobs X !! j = Some x -> exclusive X ->
  jobs Y = <[j := (next_of h x (world X)).1.1]> (jobs X) -> world Y = (next_of h x (world X)).1.2 ->
  exclusive Y.
Proof.
  intros Hx E HX HY Hw. apply (node_of_job x (world X)) in Hx.
  assert (Hph : phase_of X j = job_phase x) by (unfold phase_of; by rewrite E).
  pose proof (phase_insert X Y j _ HY (ex_intro _ x E)) as Hi.
  destruct Hx as [(Hw' & _ & Hx)|(c & Ha & Hw' & _ & Hx)]; rewrite Hw' in Hw; rewrite Hx in Hi.
  - apply (exclusive_same X); [done| |done]. intros i. rewrite Hi.
    unfold set_phase. case_decide; [by subst; rewrite Hph|done].
  - destruct HX as (C & HC & Hdb & Hp). rewrite <-Hph, <-Hp in Ha, Hi.
    destruct (call_lock_step h nobody_works c (world X) C j Ha Hdb) as (C' & Hs & Hdb' & Hp').
    exists C'. split; [by eapply reach_step|]. split; [by rewrite Hw|].
    intros i. rewrite Hp', Hi. unfold set_phase. by case_decide.
Qed.

Lemma exclusive_go X m : legal X m -> orderly X -> exclusive X -> exclusive (go h X m).
Proof.
  intros Hm [Hc Hj] HX. destruct m; cbn [go].
  - by apply (exclusive_same X).
  - pose proof (only_next h _ _ _ (processor X) (world X) Hc) as Hn.
    destruct (collector X) as [a|c k|Y f k]; simpl in *; [by apply (exclusive_same X)| |].
    + destruct (h c (world X)) as [r w] eqn:E. destruct Hn as [_ [Hn _]%Forall_cons].
      apply (exclusive_call X _ c); [by apply collects_lock_free|by rewrite E|done|done].
    + destruct (f _). by apply (exclusive_same X).
  - apply (exclusive_same X); [done| |done]. by eapply phase_start.
  - apply (exclusive_same X); [done| |done]. by eapply phase_start.
  - destruct (jobs X !! j) as [x|] eqn:E; [|done]. pose proof (Forall_lookup_1 _ _ _ _ Hj E) as Hx.
    destruct (next_of h x (world X)) as [[x' w] l] eqn:En.
    apply (exclusive_job X _ j x); [done..|by rewrite En|by rewrite En].
  - destruct HX as (C & HC & Hdb & Hp).
    destruct (jobs X !! j) as [x|] eqn:E.
    + exists (Cluster (cl_db C) (set_phase j Finished (cl_phase C))). split; [by eapply reach_step, step_killed|].
      split; [done|]. intros i. rewrite (phase_insert X _ j Killed) by (done || by eexists). simpl.
      unfold set_phase. by case_decide.
    + exists C. split; [done|]. split; [done|]. intros i. rewrite Hp. unfold phase_of. simpl.
      by rewrite list_insert_ge by by apply lookup_ge_None_1.
  - destruct Hm as [_ Hm]. destruct (h c (world X)) as [r w] eqn:E.
    destruct Hm as [Hl|[-> Hn]]; [by apply (exclusive_call X _ c); [done|by rewrite E|..]|].
    destruct HX as (C & HC & Hdb & Hp).
    pose proof (exec_maybe h (RedisDelete LOCK_KEY) (world X) ltac:(done)) as Hx. rewrite E in Hx. simpl in Hx.
    destruct Hx as [Hx|Hx].
    + exists C. split; [done|]. split; [by rewrite Hdb|done].
    + exists (Cluster (delete_lock rs_encode (cl_db C)) (cl_phase C)). split.
      * eapply reach_step; [exact HC|]. apply step_expire. intros i. rewrite Hp. unfold phase_of.
        destruct (jobs X !! i) as [x|] eqn:Ei; [|done]. simpl. by eapply (Forall_lookup_1 _ _ _ _ Hn).
      * split; [|done]. simpl. by rewrite Hdb, Hx.
Qed.

Lemma exclusive_idle w : exclusive (idle w).
Proof. exists (Cluster (rs_db w) (fun _ => Waiting)). split; [apply reach_start|]. by split. Qed.

Lemma orderly_idle (w : W) : orderly (idle w).
Proof. by split. Qed.

Lemma exclusive_run ms X :
  lawful h ms X -> orderly X /\ exclusive X ->
  orderly (run_system h ms X) /\ exclusive (run_system h ms X).
Proof.
  apply (run_keeps h legal (fun X => orderly X /\ exclusive X)).
  intros Y m Hm [Ho He]. split; [by apply orderly_go|by apply exclusive_go].
Qed.

(** At most one job works, and the lock key is there. *)
Lemma exclusive_one X i j :
  exclusive X -> phase_of X i = Working -> phase_of X j = Working ->
  i = j /\ key_exists (rs_db (world X)) LOCK_KEY.
Proof.
  intros (C & HC & Hdb & Hp) Hi Hj. destruct (reachable_inv rs_encode C HC) as [Hone Hkey].
  rewrite <-Hp in Hi, Hj. rewrite <-Hdb. split; [by apply Hone|by apply (Hkey i)].
Qed.
End Lock.

(** ** Properties *)

Section LockProperties.
Context {W : Type} (h : handler W) `{!RedisServer h} `{!RedisLaws h eq}.

(** C25. The jobs' code refines the lock protocol: in any interleaving of
    backup and prune runs, of the collector and of other processes that leave
    the lock alone, with jobs killed anywhere and any call failing or hanging,
    the keyspace and the phases that the jobs' calls have brought them to are a
    reachable state of the protocol of [Lock], in which the lock expires only
    while nobody works. *)
Theorem system_refines_lock ms w :
  lawful h ms (idle w) ->
  let X := run_system h ms (idle w) in
  exists C, reachable rs_encode nobody_works C /\
    cl_db C = rs_db (world X) /\ forall j, cl_phase C j = phase_of X j.
Proof.
  intros Hms X. apply (exclusive_run h ms (idle w) Hms).
  split; [apply orderly_idle|by apply exclusive_idle].
Qed.

(** C24. Mutual exclusion of the code: whenever a backup or prune run makes a
    call that needs the lock (it runs restic, touches or scans [pending] or
    [processing], or releases the lock), it is working, the lock key is there,
    and no other run works: whatever the interleaving and the answers, as long as
    the lock key expires or is deleted by others only while no job works
    ([legal]), which the jobs' service time limit of [LOCK_TTL] seconds is there
    to ensure. *)
Theorem work_is_exclusive ms w j c r :
  lawful h ms (idle w) ->
  let X := run_system h ms (idle w) in
  log (go h X (JobMoves j)) = (log X ++ [(Job j, Entry c r)])%list ->
  ~ free c -> (forall token ex, c <> RedisSetNX LOCK_KEY token ex) ->
  phase_of X j = Working /\ key_exists (rs_db (world X)) LOCK_KEY /\
  forall i, phase_of X i = Working -> i = j.
Proof.
  intros Hms X Hlog Hf Hn.
  assert (Hx : orderly X /\ exclusive h X).
  { apply (exclusive_run h ms (idle w) Hms). split; [apply orderly_idle|by apply exclusive_idle]. }
  destruct Hx as [[_ Hj] He].
  assert (Hw : phase_of X j = Working).
  { unfold phase_of. simpl in Hlog. destruct (jobs X !! j) as [x|] eqn:E; cbn [from_option].
    2: { apply (f_equal length) in Hlog. rewrite length_app in Hlog. simpl in Hlog. lia. }
    pose proof (node_of_job h x (world X) (Forall_lookup_1 _ _ _ _ Hj E)) as Hnode.
    destruct (next_of h x (world X)) as [[x' w'] l]. cbn [fst snd log] in *. apply app_inv_head in Hlog.
    destruct Hnode as [(_ & -> & _)|(c' & Ha & _ & -> & _)]; [done|].
    pose proof (f_equal (map (fun e => call_of e.2)) Hlog) as Hc. simpl in Hc. injection Hc as ->.
    destruct (job_phase x); [|done|by destruct Hf].
    destruct Ha as [Ha|(token & ex & ->)]; [by destruct Hf|by destruct (Hn token ex)]. }
  split; [done|]. split; [by apply (exclusive_one h X j j He)|].
  intros i Hi. by apply (exclusive_one h X i j He).
Qed.
End LockProperties.

(** ** A configuration file that does not change *)

Definition file_holds {W} (cfg : config) (h : handler W) : handler W := fun c =>
  match c return W -> result (resp c) * W with
  | TomlLoad _ => fun w => (Ok cfg, w)
  | c => h c
  end.

Section FileHolds.
Context {W : Type} (cfg : config) (h : handler W) `{!RedisServer h}.

#[export] Instance file_server : RedisServer (file_holds cfg h) := {
  rs_db := rs_db;
  rs_encode := rs_encode;
  rs_scan := rs_scan
}.

#[export] Instance file_laws `{!RedisLaws h eq} : RedisLaws (file_holds cfg h) eq.
Proof.
  split.
  - intros c w. destruct c; try exact (rl_exec (h := h) (rely := eq) _ w). exists (rs_db w), (rs_db w). by repeat split.
  - exact (rl_encode_str (h := h) (rely := eq)).
  - exact (rl_scan_start (h := h) (rely := eq)).
  - exact (rl_scan_next (h := h) (rely := eq)).
Qed.

#[export] Instance file_scans `{!RedisScans h} : RedisScans (file_holds cfg h).
Proof.
  intros c w name cur Hc. destruct c; try exact (rl_scan_keep (h := h) _ w name cur Hc).
  simpl. set_solver.
Qed.

Lemma file_loads : file_is cfg (file_holds cfg h).
Proof. by intros [] w. Qed.
End FileHolds.

(** ** Witnesses

    The collector writes a file's path.  A first backup is killed in its scan
    and leaves the lock, by which a second one is refused; the lock expires, and
    a third one takes the path over from [processing], while the collector goes
    on. *)
Definition demo_handler : handler sim := file_holds demo_config sim_handler.

Definition system_world : sim :=
  with_polls (deliver (msg_event "/home/s/u/a") :: replicate 9 no_message)
    (with_running (replicate 9 true) (with_files ["/home/s/u/a"] (with_cfg demo_config sim0))).

Definition moves_before : list move :=
  (replicate 45 CollectorMoves
   ++ BackupStarts 2 [] (seq 0) :: BackupStarts 2 [] (seq 0) :: replicate 11 (JobMoves 0)
   ++ replicate 11 (JobMoves 1) ++ [CollectorMoves; JobKilled 0])%list.

Definition moves_after : list move :=
  (BackupStarts 2 [] (seq 0) :: replicate 17 (JobMoves 2) ++ replicate 4 CollectorMoves
   ++ replicate 20 (JobMoves 2) ++ replicate 40 CollectorMoves)%list.

Definition system_moves : list move :=
  (moves_before ++ AnotherCalls (RedisDelete LOCK_KEY) :: moves_after)%list.

Abbreviation system_run :=
  (run_system demo_handler (CollectorStarts 20 :: system_moves) (idle system_world)).

Abbreviation system_before :=
  (run_system demo_handler (CollectorStarts 20 :: moves_before) (idle system_world)).

Lemma nobody_before : nobody_holds system_before.
Proof.
  assert (E : map job_phase (jobs system_before) = [Finished; Finished]) by (vm_compute; reflexivity).
  unfold nobody_holds. revert E. generalize (jobs system_before). intros l E.
  apply Forall_forall. intros x Hx.
  assert (H : job_phase x ∈ map job_phase l) by (by apply list_elem_of_fmap; exists x).
  rewrite E in H. intros Hw. rewrite Hw in H. set_solver.
Qed.

Ltac solve_legal :=
  repeat first [apply Forall_replicate|apply Forall_app_2|apply Forall_cons_2|apply Forall_nil_2];
  by intros X; try intros n.

Lemma system_lawful : lawful demo_handler (CollectorStarts 20 :: system_moves) (idle system_world).
Proof.
  unfold system_moves. rewrite app_comm_cons. apply steps_app. split.
  - apply (steps_forall _ (fun m => forall X : system sim, legal X m)); [auto|].
    unfold moves_before. solve_legal.
  - split; [split; [apply delete_lock_bystander|right; split; [done|exact nobody_before]]|].
    apply (steps_forall _ (fun m => forall X : system sim, legal X m)); [auto|].
    unfold moves_after. solve_legal.
Qed.

Lemma system_refines_lock_witness :
  exists C, reachable sim_encode nobody_works C /\ cl_phase C 2 = Finished.
Proof.
  destruct (system_refines_lock demo_handler (CollectorStarts 20 :: system_moves) system_world
    system_lawful) as (C & HC & _ & Hp).
  exists C. split; [exact HC|]. rewrite (Hp 2%nat). vm_compute. reflexivity.
Defined.

(** The second backup has been refused; the first is about to rename. *)
Definition rename_moves : list move :=
  (BackupStarts 2 [] (seq 0) :: BackupStarts 2 [] (seq 0) :: replicate 9 (JobMoves 0)
   ++ replicate 8 (JobMoves 1))%list.

Definition rename_world : sim :=
  with_db (set_hash "pending" {["/home/s/u/a" := "mtime_change"]} empty_db) sim0.

Lemma work_is_exclusive_witness :
  let X := run_system demo_handler rename_moves (idle rename_world) in
  phase_of X 0 = Working /\ phase_of X 1 = Finished.
Proof.
  split; [|vm_compute; reflexivity].
  apply (work_is_exclusive demo_handler rename_moves rename_world 0
    (RedisRename "pending" "processing") (Ok tt)).
  - apply (steps_forall _ (fun m => forall X : system sim, legal X m)); [auto|].
    unfold rename_moves. solve_legal.
  - vm_compute. reflexivity.
  - intros [[[_ Hb] _] _]. specialize (Hb sim_encode (rs_db rename_world)) as [Hb _].
    apply (f_equal (fun m => m !! "/home/s/u/a")) in Hb. vm_compute in Hb. discriminate.
  - done.
Defined.
