(* ===== verification/BackEnd.v ===== *)
(** No change is lost by the whole back end.

    [tracked] follows a path through any run of a [system], and the session of
    a collector beside the jobs keeps its contract with Kafka ([in_session]).
    Both are invariants of [go]: they come from what [wpc] proves of a backup
    and of a collector among others ([robust]). *)
From S2P Require Import Prelude PyStr PyVal Config Effects Semantics Redis Sim Interleave.
From S2P Require Import Consumer ConsumerMain Session Repo Backup NoLoss Prune Lock Jobs System.

Local Open Scope string_scope.
Local Open Scope Z_scope.
#[local] Set Warnings "-clear-no-such-hyp".

(** ** Following a path *)

(** The entry does not take [p] out of [pending] on the collector's behalf,
    whether its pipeline was executed or not. *)
Definition keeps_entry (enc : pyval -> option string) (p : string) (e : entry) : Prop :=
  match e with
  | Entry (RedisPipeline cmds) _ => (p, None) ∉ cmds ≫= writes_of enc "pending"
  | _ => True
  end.

Section Track.
Context {W : Type} (h : handler W) `{!RedisServer h} `{!RedisLaws h eq} `{!RedisScans h}.
Context (p : string) (Hp : lacks (chr 10) p = true) (cfg : config).
Hypothesis file_is_cfg : file_is cfg h.

(** What the others may call while the path is followed. *)
Definition harmless (c : call) : Prop :=
  (forall w, leaves_path p (rs_db w) (rs_db (h c w).2)) /\
  forall name cur count, c <> RedisHScan name cur count.

Abbreviation hb := (amid h harmless).

#[local] Instance track_laws : RedisLaws hb (leaves_path p).
Proof. apply amid_laws; try apply _; [by intros c w []|by intros c []]. Qed.

Lemma exec_keeps cmds d :
  Forall on_pending cmds -> (p, None) ∉ cmds ≫= writes_of rs_encode "pending" ->
  leaves_path p d (foldl (exec_pcmd rs_encode) d cmds).
Proof.
  intros Hon Hn. split.
  - rewrite exec_pcmds_writes.
    assert (cmds ≫= writes_of rs_encode "processing" = []) as ->; [|done].
    clear -Hon. induction Hon as [|c cmds Hc _ IH]; [done|]. rewrite bind_cons, IH.
    destruct c; simpl in *; subst; simpl; by repeat case_match.
  - rewrite !elem_of_dom, exec_pcmds_writes, lookup_writes. intros H.
    destruct (last_write p _) as [[v|]|] eqn:E; [by eexists| |done].
    destruct Hn. clear -E. revert E.
    induction (cmds ≫= writes_of rs_encode "pending") as [|kv ws IH] using rev_ind; [done|].
    rewrite last_write_snoc, elem_of_app. destruct kv as [k o]. case_decide as Hk.
    + intros [= ->]. simpl in Hk. subst k. right. by apply list_elem_of_singleton.
    + intros E. left. auto.
Qed.

Lemma collects_harmless c :
  collects c -> (forall r, keeps_entry rs_encode p (Entry c r)) -> harmless c.
Proof.
  intros Hc Hk. split; [|by destruct c].
  intros w. destruct (rl_exec c w) as (d & d' & <- & Hout & <-).
  assert (Hpipe : forall cmds, c = RedisPipeline cmds -> forall cmds', sublist cmds' cmds ->
    leaves_path p (rs_db w) (foldl (exec_pcmd rs_encode) (rs_db w) cmds')).
  { intros cmds -> cmds' Hsub. apply exec_keeps.
    - apply Forall_forall. intros x Hx. eapply Forall_forall; [exact Hc|]. by eapply elem_of_sublist.
    - intros Hin. apply (Hk (Ok tt)). apply list_elem_of_bind in Hin as (x & Hx & Hin).
      apply list_elem_of_bind. exists x. split; [done|]. by eapply elem_of_sublist. }
  assert (Hstep : leaves_path p (rs_db w) (redis_step rs_encode c (rs_db w))).
  { destruct c; try done. by apply (Hpipe cmds). }
  destruct (h c w).1 as [x|e|]; simpl in Hout; [by destruct Hout as [-> _]|..];
    (destruct Hout as [->|Hout]; [done|]); destruct c; try done;
    try (destruct Hout as (cmds' & Hsub & ->); by eapply Hpipe);
    try (by subst); by destruct e; subst.
Qed.

Lemma bystander_harmless c : bystander c -> harmless c.
Proof.
  intros [He Hs]. split; [|done]. intros w.
  assert (RedisLaws h (leaves_path p)) as Hl
    by (apply (redis_laws_mono h eq); [by intros d d' ->|apply _]).
  by apply (exec_elsewhere h p).
Qed.

Lemma among_loads : file_is cfg hb.
Proof.
  intros c we. unfold amid. pose proof (file_is_cfg c (intrude h harmless (we.2 0%nat) we.1)) as H.
  by destruct (h c _).
Qed.

(** What is left of a job is safe for the path, from wherever it may be followed. *)
Definition sound (X : system W) : Prop :=
  Forall (fun x => match x with
    | Backing ph q _ =>
        at_every (loads cfg) (resumes hb p cfg) q /\ while_waiting (loads cfg) (fresh hb p cfg) ph q
    | Pruning _ q => only bystander (fun _ _ => True) q
    | Killed => True
    end) (jobs X).

Lemma at_every_next {S A} T (q : prog S A) s w :
  at_every (loads cfg) T q -> at_every (loads cfg) T (next h q s w).1.1.1.
Proof.
  destruct q as [a|c k|X f k]; simpl; [done| |].
  - intros [_ Hk]. pose proof (file_is_cfg c w) as Hc. destruct (h c w). by apply Hk.
  - intros [_ Hk]. specialize (Hk s). by destruct (f s).
Qed.

Lemma while_waiting_next {S A} T ph (q : prog S A) s w :
  while_waiting (loads cfg) T ph q ->
  while_waiting (loads cfg) T (foldl after ph (next h q s w).2) (next h q s w).1.1.1.
Proof.
  destruct q as [a|c k|X f k]; cbn [while_waiting next].
  - by intros H.
  - intros [_ Hk]. specialize (Hk (h c w).1 (file_is_cfg c w)). by destruct (h c w).
  - intros [_ Hk]. specialize (Hk s). by destruct (f s).
Qed.

Lemma sound_go X m : legal X m -> sound X -> sound (go h X m).
Proof.
  intros Hm HX. unfold sound in *. destruct m; simpl.
  - done.
  - by destruct (next h _ _ _) as [[[q s] w] l].
  - apply Forall_app. split; [done|]. apply Forall_singleton.
    split; [by apply (main_resumes hb p cfg Hp among_loads)|by apply (main_waits hb p cfg Hp among_loads)].
  - apply Forall_app. split; [done|]. apply Forall_singleton. exact prune_bystander.
  - destruct (jobs X !! j) as [x|] eqn:E; [|done].
    pose proof (Forall_lookup_1 _ _ _ _ HX E) as Hx. destruct x as [ph q s|ph q|]; simpl.
    + destruct Hx as [H1 H2]. pose proof (at_every_next _ q s (world X) H1) as H1'.
      pose proof (while_waiting_next _ ph q s (world X) H2) as H2'.
      destruct (next h q s (world X)) as [[[q' s'] w'] l]. by apply Forall_insert.
    + pose proof (only_next h _ _ q tt (world X) Hx) as Hn.
      destruct (next h q tt (world X)) as [[[q' s'] w'] l]. apply Forall_insert; [done|apply Hn].
    + by apply Forall_insert.
  - by apply Forall_insert.
  - by destruct (h c (world X)).
Qed.

(** *** The invariant

    [l]: the calls since the path is followed.  Some job has settled the path,
    or it is in one of the hashes, and what is left of a working backup is safe
    for it. *)
Abbreviation safe_from := (robust h harmless (fun _ : RepoManager => safe hb p cfg)).

Definition settled_by_one (l : list (process * entry)) : Prop :=
  exists j, NoLoss.settled cfg p (calls_of (Job j) l).

Definition followed_by (l : list (process * entry)) (X : system W) : Prop :=
  recorded p (rs_db (world X)) /\
  forall j q s, jobs X !! j = Some (Backing Working q s) ->
    safe_from q s (world X) (calls_of (Job j) l).

Definition tracked (l : list (process * entry)) (X : system W) : Prop :=
  settled_by_one l \/ followed_by l X.

#[local] Instance safe_unmoved : Unmoved h harmless (fun _ : RepoManager => safe hb p cfg).
Proof.
  split; [done|]. intros s w env tr c [Hc _] [H|H]; [left|by right].
  destruct (Hc w) as [E1 E2]. unfold home, in_pending, in_processing in *. simpl in *.
  rewrite E1. destruct H as [H|H]; [left; by apply E2|by right].
Qed.

Lemma tracked_start X :
  sound X -> p ∈ dom (hash (rs_db (world X)) "pending") -> tracked [] X.
Proof.
  intros HX Hin. right. split; [by left|]. intros j q s Hj env.
  pose proof (Forall_lookup_1 _ _ _ _ HX Hj) as [Hr _]. by apply (at_every_here _ _ _ Hr).
Qed.

Lemma settled_more l l' : settled_by_one l -> settled_by_one (l ++ l').
Proof.
  intros [j H]. exists j. rewrite calls_of_app. eapply settled_mono; [exact H|]. by apply prefix_app_r.
Qed.

Lemma recorded_harmless c w : harmless c -> recorded p (rs_db w) -> recorded p (rs_db (h c w).2).
Proof.
  intros [Hc _] H. destruct (Hc w) as [E1 E2]. unfold recorded. rewrite E1.
  destruct H as [H|H]; [left; by apply E2|by right].
Qed.

(** A call that is harmless, made by no working backup. *)
Lemma followed_call X Y l l' c :
  harmless c -> world Y = (h c (world X)).2 -> followed_by l X ->
  (forall j q s, jobs Y !! j = Some (Backing Working q s) ->
     jobs X !! j = Some (Backing Working q s) /\ calls_of (Job j) l' = []) ->
  followed_by (l ++ l') Y.
Proof.
  intros Hc Hw [Hr Hj] HY. split; [rewrite Hw; by apply recorded_harmless|].
  intros j q s E. apply HY in E as [E El]. rewrite Hw, calls_of_app, El, app_nil_r.
  apply (robust_call h harmless); [apply _|done|by apply Hj].
Qed.

Lemma followed_same X Y l :
  world Y = world X -> followed_by l X ->
  (forall j q s, jobs Y !! j = Some (Backing Working q s) -> jobs X !! j = Some (Backing Working q s)) ->
  followed_by l Y.
Proof.
  intros Hw [Hr Hj] HY. split; [by rewrite Hw|]. intros j q s E. rewrite Hw. by apply Hj, HY.
Qed.

Lemma after_working ph e : after ph e = Working -> ph <> Finished.
Proof.
  destruct e as [c r]. intros H ->. revert H.
  destruct c; try done; simpl; case_decide as Hd; try done. by destruct Hd.
Qed.

Lemma next_working {S A} ph (q : prog S A) s w :
  foldl after ph (next h q s w).2 = Working -> ph <> Finished.
Proof.
  destruct q as [a|c k|X f k]; cbn [next].
  - cbn [snd foldl]. by intros ->.
  - destruct (h c w). cbn [snd foldl]. apply after_working.
  - destruct (f s). cbn [snd foldl]. by intros ->.
Qed.

(** The backup at [j] moves on: it works, or takes the lock now. *)
Lemma backup_safe_next X l j ph q s :
  sound X -> followed_by l X -> jobs X !! j = Some (Backing ph q s) ->
  foldl after ph (next h q s (world X)).2 = Working \/ ph = Working ->
  let '(q', s', w, l') := next h q s (world X) in
  safe_from q' s' w (calls_of (Job j) (l ++ by_process (Job j) l')).
Proof.
  intros HX [Hr Hj] E Hph.
  assert (Hs : safe_from q s (world X) (calls_of (Job j) l)).
  { destruct (decide (ph = Working)) as [->|Hn]; [by apply Hj|].
    destruct Hph as [Hph|]; [|done]. apply next_working in Hph.
    pose proof (Forall_lookup_1 _ _ _ _ HX E) as [_ Hw].
    assert (Hf : fresh hb p cfg q) by (destruct ph; [|done..]; by destruct q; apply Hw).
    intros env. apply Hf. exact Hr. }
  apply robust_next in Hs. destruct (next h q s (world X)) as [[[q' s'] w] l'].
  by rewrite calls_of_app, calls_of_own.
Qed.

(** The job at [j] moves without touching the hashes. *)
Lemma followed_others X Y l l' j x' :
  followed_by l X -> jobs Y = <[j := x']> (jobs X) -> is_Some (jobs X !! j) ->
  (world Y = world X \/ exists c, harmless c /\ world Y = (h c (world X)).2) ->
  (forall q s, x' = Backing Working q s ->
     safe_from q s (world Y) (calls_of (Job j) (l ++ by_process (Job j) l'))) ->
  followed_by (l ++ by_process (Job j) l') Y.
Proof.
  intros [Hr Hj] HY Hjj Hw Hown.
  assert (Hrec : recorded p (rs_db (world Y)) /\
    forall (q : py RepoManager unit) s tr, safe_from q s (world X) tr -> safe_from q s (world Y) tr).
  { destruct Hw as [->|(c & Hc & ->)]; [done|].
    split; [by apply recorded_harmless|]. intros q s tr Hs. by apply (robust_call h harmless); [apply _| |]. }
  split; [apply Hrec|]. intros i q s Ei. destruct (decide (i = j)) as [->|Hi].
  - rewrite HY, list_lookup_insert_eq in Ei by (by apply lookup_lt_is_Some).
    injection Ei as ->. by apply Hown.
  - rewrite HY, list_lookup_insert_ne in Ei by done.
    rewrite calls_of_app, calls_of_other, app_nil_r by congruence. by apply Hrec, Hj.
Qed.

Lemma node_harmless X j x :
  orderly X -> sound X -> jobs X !! j = Some x ->
  (forall q s, x <> Backing Working q s) ->
  (next_of h x (world X)).1.2 = world X \/
  exists c, harmless c /\ (next_of h x (world X)).1.2 = (h c (world X)).2.
Proof.
  intros Ho HX E Hnw. pose proof (Forall_lookup_1 _ _ _ _ (proj2 Ho) E) as Hox.
  destruct (node_of_job h x (world X) Hox) as [(-> & _)|(c & Ha & -> & Hl & _)]; [by left|right].
  exists c. split; [|done]. apply bystander_harmless. destruct x as [ph q s|ph q|]; [| |done].
  - apply (allowed_bystander ph); [|done]. intros ->. by apply (Hnw q s).
  - pose proof (only_next h _ _ q tt (world X) (Forall_lookup_1 _ _ _ _ HX E)) as Hn. simpl in Hl.
    destruct (next h q tt (world X)) as [[[q' s'] w'] l]. simpl in Hl. subst l.
    destruct Hn as [_ Hn]. by apply Forall_inv in Hn.
Qed.

Lemma tracked_job X Y l j x :
  orderly X -> exclusive h X -> sound X -> followed_by l X -> jobs X !! j = Some x ->
  jobs Y = <[j := (next_of h x (world X)).1.1]> (jobs X) -> world Y = (next_of h x (world X)).1.2 ->
  tracked (l ++ by_process (Job j) (next_of h x (world X)).2) Y.
Proof.
  intros Ho He HX Hf E HY Hw.
  destruct x as [ph q s|ph q|].
  2, 3: (right; eapply followed_others; [done|exact HY|by eexists| |];
    [rewrite Hw; eapply node_harmless; done|]; intros q2 s2; simpl; try done;
    by destruct (next h q tt (world X)) as [[[q' s'] w'] l']).
  pose proof (backup_safe_next X l j ph q s HX Hf E) as Hs.
  destruct (decide (ph = Working)) as [->|Hph].
  - specialize (Hs (or_intror eq_refl)). simpl in *.
    destruct (next h q s (world X)) as [[[q' s'] w] l']. simpl in *. subst w.
    destruct (robust_here _ _ _ _ _ _ _ (fun _ => []) Hs) as [Hh|Hh]; [right|left; by exists j].
    split; [exact Hh|]. intros i q2 s2 Ei. destruct (decide (i = j)) as [->|Hi].
    + rewrite HY, list_lookup_insert_eq in Ei by (by eapply lookup_lt_Some).
      injection Ei as _ <- <-. exact Hs.
    + rewrite HY, list_lookup_insert_ne in Ei by done. destruct Hi.
      apply (exclusive_one h X i j He); unfold phase_of; [by rewrite Ei|by rewrite E].
  - right. eapply followed_others; [done|exact HY|by eexists| |].
    + rewrite Hw. eapply node_harmless; [done..|]. by intros q2 s2 [= ? _ _].
    + intros q2 s2. rewrite Hw. simpl in *.
      destruct (next h q s (world X)) as [[[q' s'] w] l']. simpl in *.
      intros [= E2 <- <-]. apply Hs. by left.
Qed.

Lemma tracked_go X m l l' :
  legal X m -> orderly X -> exclusive h X -> sound X -> tracked l X ->
  log (go h X m) = (log X ++ l')%list ->
  Forall (keeps_entry rs_encode p) (calls_of TheCollector l') ->
  tracked (l ++ l') (go h X m).
Proof.
  intros Hm Ho He HX [Ht|Ht] Hlog Hk; [left; by apply settled_more|].
  assert (H0 : log X = (log X ++ l')%list -> l' = []).
  { intros H. rewrite <-(app_nil_r (log X)) in H at 1. by apply app_inv_head in H. }
  assert (Hnew : forall x Y, job_phase x = Waiting -> jobs Y = (jobs X ++ [x])%list -> world Y = world X ->
    followed_by l Y).
  { intros x Y Hx HY Hw. apply (followed_same X); [done|done|]. intros i q s. rewrite HY.
    intros [E|(E1 & E2)]%lookup_app_Some; [done|]. apply list_lookup_singleton_Some in E2 as [_ ->].
    by discriminate Hx. }
  destruct m; cbn [go] in *.
  - rewrite (H0 Hlog), app_nil_r. by right.
  - destruct Ho as [Hc _]. right. destruct (collector X) as [a|c k|Y f k] eqn:Ec; simpl in *.
    + apply app_inv_head in Hlog as <-. rewrite app_nil_r. by apply (followed_same X).
    + destruct Hc as [Hc _]. destruct (h c (world X)) as [r w] eqn:E. simpl in Hlog.
      apply app_inv_head in Hlog as <-. apply (followed_call X _ _ _ c); [|by rewrite E|done|done].
      apply collects_harmless; [done|]. intros r'. apply Forall_inv in Hk. by destruct c.
    + destruct (f _). simpl in *. apply app_inv_head in Hlog as <-. rewrite app_nil_r.
      by apply (followed_same X).
  - rewrite (H0 Hlog), app_nil_r. right. by eapply (Hnew (Backing Waiting _ _)).
  - rewrite (H0 Hlog), app_nil_r. right. by eapply (Hnew (Pruning Waiting _)).
  - destruct (jobs X !! j) as [x|] eqn:E; [|rewrite (H0 Hlog), app_nil_r; by right].
    destruct (next_of h x (world X)) as [[x' w] l1] eqn:En. simpl in Hlog. apply app_inv_head in Hlog as <-.
    pose proof (tracked_job X (System (collector X) (processor X) (<[j:=x']> (jobs X)) w
      (log X ++ by_process (Job j) l1)) l j x Ho He HX Ht E) as Hj.
    rewrite En in Hj. by apply Hj.
  - rewrite (H0 Hlog), app_nil_r. right. apply (followed_same X); [done|done|]. intros i q s. cbn [jobs].
    destruct (decide (i = j)) as [->|Hi]; [|by rewrite list_lookup_insert_ne].
    intros Hi. pose proof (lookup_lt_Some _ _ _ Hi) as Hlt. rewrite length_insert in Hlt.
    by rewrite list_lookup_insert_eq in Hi.
  - destruct (h c (world X)) as [r w] eqn:E. simpl in Hlog. apply app_inv_head in Hlog as <-. right.
    apply (followed_call X _ _ _ c); [|by rewrite E|done|].
    + apply bystander_harmless, Hm.
    + intros i q s Hi. split; [exact Hi|]. by apply calls_of_another.
Qed.

(** What holds of the system at any time. *)
Definition proper (X : system W) : Prop := orderly X /\ exclusive h X /\ sound X.

Lemma proper_go X m : legal X m -> proper X -> proper (go h X m).
Proof.
  intros Hm (Ho & He & HX). split; [by apply orderly_go|]. split; [by apply exclusive_go|by apply sound_go].
Qed.

Lemma proper_idle w : proper (idle w).
Proof. split; [apply orderly_idle|]. split; [apply exclusive_idle|]. by unfold sound. Qed.

Lemma proper_run ms X : lawful h ms X -> proper X -> proper (run_system h ms X).
Proof. apply (run_keeps h legal proper). intros Y m. apply proper_go. Qed.

Lemma tracked_run ms X l :
  lawful h ms X -> proper X -> tracked [] X ->
  log (run_system h ms X) = (log X ++ l)%list ->
  Forall (keeps_entry rs_encode p) (calls_of TheCollector l) ->
  tracked l (run_system h ms X).
Proof.
  intros Hms HX Ht Hl.
  apply (run_invariant h legal (fun l X => proper X /\
    (Forall (keeps_entry rs_encode p) (calls_of TheCollector l) -> tracked l X)))
    with (l0 := []) (X := X) (ms := ms); [|done..].
  intros X' m l0 l' Hm [HX' Ht'] Hl'. split; [by apply proper_go|].
  destruct HX' as (Ho & He & Hs).
  rewrite calls_of_app, Forall_app. intros [H0 H1]. apply tracked_go; auto.
Qed.

Lemma tracked_safe l X : tracked l X -> recorded p (rs_db (world X)) \/ settled_by_one l.
Proof. intros [H|[H _]]; auto. Qed.
End Track.

(** ** Following a session *)

Section Session.
Context {W : Type} (h : handler W).

Definition anything (_ : call) : Prop := True.

Definition in_session (tr : list entry) (X : system W) : Prop :=
  robust h anything covered (collector X) (processor X) (world X) tr.

#[local] Instance covered_unmoved : Unmoved h anything covered.
Proof. by split. Qed.

Definition starts_collector (m : move) : bool :=
  match m with CollectorStarts _ => true | _ => false end.

Lemma session_start X fuel : in_session [] (go h X (CollectorStarts fuel)).
Proof.
  intros env. eapply wpc_mono; [apply main_synced; exact (synced_start (world X, env))|done|].
  intros r s lw _ H. by eapply ended_covered.
Qed.

Lemma next_of_world x w : (next_of h x w).1.2 = w \/ exists c, (next_of h x w).1.2 = (h c w).2.
Proof.
  assert (H : forall S A (q : prog S A) s, (next h q s w).1.2 = w \/ exists c, (next h q s w).1.2 = (h c w).2).
  { intros S A [a|c k|X f k] s; simpl; [by left|right; exists c; by destruct (h c w)|left; by destruct (f s)]. }
  destruct x as [ph q s|ph q|]; simpl; [..|by left].
  - specialize (H _ _ q s). by destruct (next h q s w) as [[[q' s'] w'] l].
  - specialize (H _ _ q tt). by destruct (next h q tt w) as [[[q' s'] w'] l].
Qed.

Lemma session_go tr X m l :
  starts_collector m = false -> in_session tr X ->
  log (go h X m) = (log X ++ l)%list ->
  in_session (tr ++ calls_of TheCollector l) (go h X m).
Proof.
  intros Hm Hs Hlog. unfold in_session. destruct m; [done|..]; cbn [go] in *.
  - pose proof (robust_next _ _ _ _ _ _ _ Hs) as Hn. destruct (next h _ _ _) as [[[q s] w] l'].
    simpl in *. apply app_inv_head in Hlog as <-. by rewrite calls_of_own.
  - simpl in *. rewrite <-(app_nil_r (log X)) in Hlog at 1. apply app_inv_head in Hlog as <-.
    by rewrite app_nil_r.
  - simpl in *. rewrite <-(app_nil_r (log X)) in Hlog at 1. apply app_inv_head in Hlog as <-.
    by rewrite app_nil_r.
  - destruct (jobs X !! j) as [x|].
    2: { rewrite <-(app_nil_r (log X)) in Hlog at 1. apply app_inv_head in Hlog as <-. by rewrite app_nil_r. }
    pose proof (next_of_world x (world X)) as Hw. destruct (next_of h x (world X)) as [[x' w] l']. simpl in *.
    apply app_inv_head in Hlog as <-. rewrite calls_of_other, app_nil_r by done.
    destruct Hw as [->|[c ->]]; [done|]. by apply (robust_call h anything).
  - simpl in *. rewrite <-(app_nil_r (log X)) in Hlog at 1. apply app_inv_head in Hlog as <-.
    by rewrite app_nil_r.
  - destruct (h c (world X)) as [r w] eqn:E. simpl in *. apply app_inv_head in Hlog as <-.
    rewrite app_nil_r. replace w with (h c (world X)).2 by (by rewrite E).
    by apply (robust_call h anything).
Qed.

Lemma session_run ms X l :
  steps h (fun _ m => starts_collector m = false) ms X -> in_session [] X ->
  log (run_system h ms X) = (log X ++ l)%list ->
  in_session (calls_of TheCollector l) (run_system h ms X).
Proof.
  intros Hms HX Hl.
  apply (run_invariant h (fun _ m => starts_collector m = false)
    (fun l => in_session (calls_of TheCollector l))) with (l0 := []) (X := X) (ms := ms); [|done..].
  intros X' m l0 l' Hm HI Hl'. rewrite calls_of_app. by apply session_go.
Qed.

Lemma session_covered tr X : in_session tr X -> covered (processor X) (Logged (world X) tr).
Proof. intros Hs. exact (robust_here _ _ _ _ _ _ _ (fun _ => []) Hs). Qed.
End Session.

Lemma executed_effects tr : executed (session tr) = tr ≫= effect.
Proof.
  induction tr as [|e tr IH] using rev_ind; [done|].
  rewrite session_snoc, observe_executed, IH, bind_app. simpl. by rewrite app_nil_r.
Qed.

(** ** The last write of a path *)

Lemma last_write_app k ws ws' :
  last_write k (ws ++ ws')
  = match last_write k ws' with Some o => Some o | None => last_write k ws end.
Proof.
  induction ws' as [|kv ws' IH] using rev_ind; [by rewrite app_nil_r|].
  rewrite app_assoc, !last_write_snoc. by case_decide.
Qed.

Lemma last_write_split {A} k (f : A -> list (string * option string)) l o :
  last_write k (l ≫= f) = Some o ->
  exists l1 a l2, l = (l1 ++ a :: l2)%list /\ last_write k (f a) = Some o /\
    last_write k (l2 ≫= f) = None.
Proof.
  induction l as [|a l IH]; [done|]. rewrite bind_cons, last_write_app.
  destruct (last_write k (l ≫= f)) as [o'|] eqn:E.
  - intros [= ->]. destruct (IH eq_refl) as (l1 & b & l2 & -> & H). by exists (a :: l1), b, l2.
  - intros H. by exists [], a, l.
Qed.

Lemma last_write_none k ws o : last_write k ws = None -> (k, o) ∉ ws.
Proof.
  induction ws as [|[k' o'] ws IH] using rev_ind; [by intros _ ?%elem_of_nil|].
  rewrite last_write_snoc. case_decide as Hk; [done|].
  intros E [Hin|Hin]%elem_of_app; [by apply IH|].
  apply list_elem_of_singleton in Hin. injection Hin as <- _. done.
Qed.

Definition pipeline_result (e : entry) : option (result unit) :=
  let '(Entry c r) := e in
  match c return result (resp c) -> option (result unit) with
  | RedisPipeline _ => fun r => Some r
  | _ => fun _ => None
  end r.

(** ** Properties *)

Section Properties.
Context {W : Type} (h : handler W) `{!RedisServer h} `{!RedisLaws h eq} `{!RedisScans h}.
Context (p : string) (Hp : lacks (chr 10) p = true) (cfg : config).
Hypothesis file_is_cfg : file_is cfg h.

Lemma proper_reached ms w : lawful h ms (idle w) -> proper h p cfg (run_system h ms (idle w)).
Proof. intros Hms. apply (proper_run h p Hp cfg file_is_cfg); [done|]. by apply proper_idle. Qed.

(** A pipeline of the collector that writes [p]. *)
Lemma write_recorded X m cmds v :
  log (go h X m) = (log X ++ [(TheCollector, Entry (RedisPipeline cmds) (Ok tt))])%list ->
  last_write p (cmds ≫= writes_of rs_encode "pending") = Some (Some v) ->
  p ∈ dom (hash (rs_db (world (go h X m))) "pending").
Proof.
  intros Hlog Hw.
  assert (Hc : exists w, world (go h X m) = (h (RedisPipeline cmds) w).2 /\
                         (h (RedisPipeline cmds) w).1 = Ok tt).
  { destruct m; simpl in *; try (apply (f_equal length) in Hlog; rewrite length_app in Hlog; simpl in *; lia).
    - destruct (collector X) as [a|c k|Y f k]; simpl in *; [by apply app_inv_head in Hlog| |].
      + destruct (h c (world X)) as [r w] eqn:E. apply app_inv_head in Hlog.
        pose proof (f_equal (omap (fun e => pipeline_result e.2)) Hlog) as Hr. simpl in Hr.
        injection Hlog as -> _. simpl in Hr. injection Hr as ->. exists (world X). by rewrite E.
      + destruct (f _). by apply app_inv_head in Hlog.
    - destruct (jobs X !! j) as [x|].
      + destruct (next_of h _ _) as [[x' w] [|e l']]; apply app_inv_head in Hlog; done.
      + apply (f_equal length) in Hlog. rewrite length_app in Hlog. simpl in *. lia.
    - destruct (h c (world X)). by apply app_inv_head in Hlog. }
  destruct Hc as (w & -> & Hr). destruct (rl_exec (RedisPipeline cmds) w) as (d & d' & _ & Hout & <-).
  rewrite Hr in Hout. destruct Hout as [-> _]. simpl.
  apply elem_of_dom. rewrite exec_pcmds_writes, lookup_writes, Hw. by eexists.
Qed.

Lemma followed ms w l1 cmds v l2 :
  lawful h ms (idle w) ->
  log (run_system h ms (idle w))
  = (l1 ++ (TheCollector, Entry (RedisPipeline cmds) (Ok tt)) :: l2)%list ->
  last_write p (cmds ≫= writes_of rs_encode "pending") = Some (Some v) ->
  Forall (keeps_entry rs_encode p) (calls_of TheCollector l2) ->
  recorded p (rs_db (world (run_system h ms (idle w)))) \/
  settled_by_one p cfg l2.
Proof.
  intros Hms Hlog Hw Hk.
  destruct (log_split h ms (idle w) l1 _ l2 Hlog) as (ms1 & m & ms2 & -> & H1 & H2).
  apply steps_app in Hms as [Hms1 [Hm Hms2]]. rewrite run_system_app in Hlog |- *.
  change (run_system h (m :: ms2)) with (fun X => run_system h ms2 (go h X m)) in *. cbv beta in *.
  assert (Hs : proper h p cfg (go h (run_system h ms1 (idle w)) m))
    by (apply proper_go; [done..|]; by apply proper_reached).
  eapply (tracked_safe h p cfg), (tracked_run h p Hp cfg file_is_cfg ms2); try done.
  - apply tracked_start; [apply Hs|]. eapply write_recorded; [|exact Hw]. rewrite H2, H1. done.
  - rewrite Hlog, H2. simpl. by rewrite <-app_assoc.
Qed.

Lemma pending_followed ms w ms' l :
  lawful h ms (idle w) -> lawful h ms' (run_system h ms (idle w)) ->
  log (run_system h ms' (run_system h ms (idle w)))
  = (log (run_system h ms (idle w)) ++ l)%list ->
  p ∈ dom (hash (rs_db (world (run_system h ms (idle w)))) "pending") ->
  Forall (keeps_entry rs_encode p) (calls_of TheCollector l) ->
  recorded p (rs_db (world (run_system h ms' (run_system h ms (idle w))))) \/
  settled_by_one p cfg l.
Proof.
  intros Hms Hms' Hlog Hin Hk. pose proof (proper_reached ms w Hms) as Hs.
  eapply (tracked_safe h p cfg), (tracked_run h p Hp cfg file_is_cfg); try done.
  by apply tracked_start; [apply Hs|].
Qed.

(** In a session without faults, what does not write [p] keeps its entry. *)
Lemma quiet_keeps tr :
  Forall (fun e => ~ fault e) tr ->
  last_write p ((tr ≫= effect) ≫= writes_of rs_encode "pending") = None ->
  Forall (keeps_entry rs_encode p) tr.
Proof.
  intros Hf Hn. apply Forall_forall. intros [c r] He.
  rewrite Forall_forall in Hf. specialize (Hf _ He). destruct c; try done.
  destruct r as [[]|e|]; [|by destruct Hf..]. intros Hin.
  apply (last_write_none p _ None Hn). apply list_elem_of_bind in Hin as (x & Hx & Hin).
  apply list_elem_of_bind. exists x. split; [done|]. apply list_elem_of_bind.
  by exists (Entry (RedisPipeline cmds) (Ok tt)).
Qed.

Lemma calls_of_bind {A} x (f : entry -> list A) l :
  calls_of x l ≫= f = l ≫= (fun e => if decide (e.1 = x) then f e.2 else []).
Proof.
  induction l as [|[y e] l IH]; [done|]. rewrite bind_cons, <-IH. unfold calls_of. simpl.
  by destruct (decide (y = x)).
Qed.

(** The calls of a session end with those after the last write of [p]. *)
Lemma last_write_in_log l o :
  last_write p ((calls_of TheCollector l ≫= effect) ≫= writes_of rs_encode "pending") = Some o ->
  exists l1 cmds r l2, l = (l1 ++ (TheCollector, Entry (RedisPipeline cmds) (Ok r)) :: l2)%list /\
    last_write p (cmds ≫= writes_of rs_encode "pending") = Some o /\
    last_write p ((calls_of TheCollector l2 ≫= effect) ≫= writes_of rs_encode "pending") = None.
Proof.
  assert (Hb : forall l', (calls_of TheCollector l' ≫= effect) ≫= writes_of rs_encode "pending"
    = l' ≫= (fun e => (if decide (e.1 = TheCollector) then effect e.2 else [])
                        ≫= writes_of rs_encode "pending")).
  { intros l'. rewrite calls_of_bind. induction l' as [|e l' IH]; [done|].
    by rewrite !bind_cons, bind_app, IH. }
  rewrite Hb. intros H. apply last_write_split in H as (l1 & [x [c r]] & l2 & -> & He & Hn).
  rewrite <-Hb in Hn. simpl in He. case_decide as Hx; [subst x|done].
  destruct c; try done. destruct r as [r|e|]; try done.
  by exists l1, cmds, r, l2.
Qed.

Lemma committed_followed ms0 w fuel ms l :
  lawful h ms0 (idle w) ->
  let X := run_system h ms0 (idle w) in
  lawful h ms (go h X (CollectorStarts fuel)) ->
  Forall (fun m => starts_collector m = false) ms ->
  let Y := run_system h (CollectorStarts fuel :: ms) X in
  log Y = (log X ++ l)%list -> good (calls_of TheCollector l) ->
  let v := session (calls_of TheCollector l) in
  exists k, (committed v <= k <= length (delivered v))%nat /\
    (is_Some (foldl apply_rule (hash (rs_db (world X)) "pending") (events (take k (delivered v))) !! p) ->
     exists l1 l2, l = (l1 ++ l2)%list /\
       last_write p (executed (session (calls_of TheCollector l2)) ≫= writes_of rs_encode "pending") = None /\
       (recorded p (rs_db (world Y)) \/ exists j, NoLoss.settled cfg p (calls_of (Job j) l2))).
Proof.
  intros Hms0 X Hms Hns Y Hlog Hg v.
  assert (Hcov : covered (processor Y) (Logged (world Y) (calls_of TheCollector l))).
  { apply (session_covered h). apply (session_run h ms (go h X (CollectorStarts fuel)));
      [by eapply steps_forall, Hns|apply session_start|exact Hlog]. }
  destruct (Hcov Hg) as (k & Hk & Hx). cbn [trace] in Hk, Hx. fold v in Hk, Hx. exists k. split; [done|].
  rewrite <-(exec_events rs_encode rl_encode_str). fold (commands (take k (delivered v))).
  rewrite <-Hx, exec_pcmds_writes, lookup_writes. unfold v at 1. rewrite executed_effects.
  assert (Hkeep : forall l1 l2, l = (l1 ++ l2)%list ->
    last_write p ((calls_of TheCollector l2 ≫= effect) ≫= writes_of rs_encode "pending") = None ->
    Forall (keeps_entry rs_encode p) (calls_of TheCollector l2)).
  { intros l1 l2 E. apply quiet_keeps. destruct Hg as [Hg _]. rewrite E, calls_of_app in Hg.
    by apply Forall_app in Hg as [_ Hg]. }
  destruct (last_write p _) as [o|] eqn:El; intros Hin.
  - destruct Hin as [val ->].
    apply last_write_in_log in El as (l1 & cmds & [] & l2 & -> & Hw & Hn).
    exists (l1 ++ [(TheCollector, Entry (RedisPipeline cmds) (Ok tt))])%list, l2.
    split; [by rewrite <-app_assoc|]. rewrite executed_effects. split; [done|].
    assert (HY : Y = run_system h (ms0 ++ CollectorStarts fuel :: ms) (idle w))
      by (by rewrite run_system_app).
    rewrite HY. eapply followed; [by apply steps_app; split; [|split]| |exact Hw|].
    + rewrite <-HY, Hlog. rewrite app_assoc. done.
    + apply (Hkeep (l1 ++ [(TheCollector, Entry (RedisPipeline cmds) (Ok tt))])%list); [|done].
      by rewrite <-app_assoc.
  - exists [], l. split; [done|]. rewrite executed_effects. split; [done|].
    apply (pending_followed ms0 w (CollectorStarts fuel :: ms)); try done.
    + by apply elem_of_dom.
    + by apply (Hkeep []).
Qed.

(** C2. A path without a line feed that is written is not lost, whatever the
    interleaving.  A collector, any number
    of backup and prune runs, and any processes that leave [pending] and
    [processing] alone work on one Redis, in any interleaving of their steps;
    the collector may be restarted and any job killed or started anywhere, any
    call may fail or hang; but the lock key expires or is deleted by others only
    while no job works, and the configuration file stays the same.  A path that the collector has written
    to [pending] and does not remove again is from then on always in [pending]
    or [processing], unless one of the backup runs has settled it by calls made
    {i after} that write: the file was found missing, or given to a [restic
    backup] of its repository that ended with exit code 0 or 3 (or the path has
    no repository under the configured depth). *)
Theorem written_path_safe ms w l1 cmds v l2 :
  lawful h ms (idle w) ->
  let X := run_system h ms (idle w) in
  log X = (l1 ++ (TheCollector, Entry (RedisPipeline cmds) (Ok tt)) :: l2)%list ->
  last_write p (cmds ≫= writes_of rs_encode "pending") = Some (Some v) ->
  Forall (keeps_entry rs_encode p) (calls_of TheCollector l2) ->
  recorded p (rs_db (world X)) \/ exists j, NoLoss.settled cfg p (calls_of (Job j) l2).
Proof. intros Hms X. by apply followed. Qed.

(** C3. At-least-once for the whole back end: a collector is started in any
    state [X] of the system, and runs beside backup and prune runs and other
    processes in any interleaving, with the jobs started and killed anywhere;
    the others leave both hashes alone, the lock key expires or is deleted by
    others only while no job works, and the configuration file stays the same.
    When the collector's session is [good] (no fault of [Session.fault], in
    particular no failed pipeline; each payload a well-formed event or one the
    parser counts and drops), there is a prefix of the delivered events that
    covers what is committed, such that each path without a line feed that has an
    entry after it, by the documented rules, is in [pending] or
    [processing], or was settled by calls that one backup run made after the
    collector's last write of the path. *)
Theorem committed_change_safe ms0 w fuel ms l :
  lawful h ms0 (idle w) ->
  let X := run_system h ms0 (idle w) in
  lawful h ms (go h X (CollectorStarts fuel)) ->
  Forall (fun m => starts_collector m = false) ms ->
  let Y := run_system h (CollectorStarts fuel :: ms) X in
  log Y = (log X ++ l)%list -> good (calls_of TheCollector l) ->
  let v := session (calls_of TheCollector l) in
  exists k, (committed v <= k <= length (delivered v))%nat /\
    (is_Some (foldl apply_rule (hash (rs_db (world X)) "pending") (events (take k (delivered v))) !! p) ->
     exists l1 l2, l = (l1 ++ l2)%list /\
       last_write p (executed (session (calls_of TheCollector l2)) ≫= writes_of rs_encode "pending") = None /\
       (recorded p (rs_db (world Y)) \/ exists j, NoLoss.settled cfg p (calls_of (Job j) l2))).
Proof. apply committed_followed. Qed.
End Properties.

(** ** Witnesses

    In the run of [System], the first backup has renamed [pending] when it is
    killed, and the third one settles the path. *)

(** The path is in neither hash at the end: the third backup has settled it. *)
Lemma system_end_unrecorded :
  ~ recorded "/home/s/u/a" (rs_db (h := demo_handler) (world system_run)).
Proof.
  intros [H|H]; apply elem_of_dom in H as [v H]; revert H; vm_compute; discriminate.
Qed.

Lemma written_path_safe_witness :
  exists j, NoLoss.settled demo_config "/home/s/u/a" (calls_of (Job j) (drop 27 (log system_run))).
Proof.
  destruct (written_path_safe demo_handler "/home/s/u/a" eq_refl demo_config (file_loads demo_config sim_handler)
    (CollectorStarts 20 :: system_moves) system_world (take 26 (log system_run))
    [PHSet "pending" (VStr "/home/s/u/a") (VStr "mtime_change")] "mtime_change"
    (drop 27 (log system_run)) system_lawful) as [H|H].
  - vm_compute. reflexivity.
  - vm_compute. reflexivity.
  - vm_compute. repeat constructor.
  - destruct (system_end_unrecorded H).
  - exact H.
Defined.

Lemma system_good : good (calls_of TheCollector (log system_run)).
Proof.
  split; [vm_compute; repeat constructor; by intros []|].
  assert (delivered (session (calls_of TheCollector (log system_run))) = [msg_event "/home/s/u/a"])
    as -> by (vm_compute; reflexivity).
  apply Forall_singleton. left. exists (MtimeChange "/home/s/u/a"). eexists. split; vm_compute; reflexivity.
Qed.

Lemma committed_change_safe_witness :
  exists l1 l2, log system_run = (l1 ++ l2)%list /\
    last_write "/home/s/u/a" (executed (session (calls_of TheCollector l2)) ≫= writes_of sim_encode "pending") = None /\
    exists j, NoLoss.settled demo_config "/home/s/u/a" (calls_of (Job j) l2).
Proof.
  destruct (committed_change_safe demo_handler "/home/s/u/a" eq_refl demo_config
    (file_loads demo_config sim_handler) [] system_world 20
    system_moves (log system_run)) as (k & Hk & Hs).
  - exact I.
  - exact (proj2 system_lawful).
  - unfold system_moves, moves_before, moves_after. vm_compute. repeat constructor.
  - vm_compute. reflexivity.
  - exact system_good.
  - assert (k = 1%nat) as ->.
    { revert Hk. vm_compute. lia. }
    destruct Hs as (l1 & l2 & Hl & Hn & [H|H]).
    + vm_compute. eexists. reflexivity.
    + destruct (system_end_unrecorded H).
    + exists l1, l2; exact (conj Hl (conj Hn H)).
Defined.

