(* ===== verification/EventText.v ===== *)
(** The text of an event: [json_escape], [build_json] and the text of a rename
    in the agent's [main.cpp], read back by the collector's [parse_event].

    A C++ [std::string] is its bytes.  [loads_build_json] and
    [loads_rename_json] say exactly what the collector's [json.loads] makes of
    the agent's text, for all bytes a path can hold. *)
From S2P Require Import Prelude PyStr PyVal Config Effects Semantics Redis Sim Consumer.
From stdpp Require Import pretty.
From Stdlib Require Import Ascii.

Local Open Scope string_scope.
Local Open Scope Z_scope.
Local Open Scope py_scope.

(** ** [json_escape] *)

Definition quote : ascii := chr 34.
Definition backslash : ascii := chr 92.

(** [snprintf(buf, sizeof(buf), "\\u%04x", c)], for a byte. *)
Definition hex_char (n : Z) : ascii := if n <? 10 then chr (48 + n) else chr (87 + n).
Definition u_escape (c : ascii) : string :=
  String backslash ("u00" +:+ String (hex_char (byte c / 16)) (String (hex_char (byte c mod 16)) "")).

Definition replacement : string := String backslash "ufffd".

(** The lead byte's announced length ([0]: none), and the continuation test. *)
Definition seq_len (c : ascii) : nat :=
  if Z.land (byte c) 224 =? 192 then 2
  else if Z.land (byte c) 240 =? 224 then 3
  else if Z.land (byte c) 248 =? 240 then 4
  else 0.
Definition is_cont (c : ascii) : bool := Z.land (byte c) 192 =? 128.

(** The [switch]: an ASCII byte. *)
Definition escape_ascii (c : ascii) : string :=
  if byte c =? 34 then String backslash (String quote "")
  else if byte c =? 92 then String backslash (String backslash "")
  else if byte c =? 8 then String backslash "b"
  else if byte c =? 12 then String backslash "f"
  else if byte c =? 10 then String backslash "n"
  else if byte c =? 13 then String backslash "r"
  else if byte c =? 9 then String backslash "t"
  else if byte c <? 32 then u_escape c
  else String c "".

(** What [json_escape(out, s)] appends to [out]. *)
Fixpoint json_escape (s : string) : string :=
  match s with
  | EmptyString => ""
  | String c s1 =>
    if byte c <? 128 then escape_ascii c +:+ json_escape s1
    else
      let invalid := replacement +:+ json_escape s1 in
      match seq_len c, s1 with
      | 2%nat, String c2 s2 =>
          if is_cont c2 then String c (String c2 (json_escape s2)) else invalid
      | 3%nat, String c2 (String c3 s3) =>
          if is_cont c2 && is_cont c3
          then String c (String c2 (String c3 (json_escape s3))) else invalid
      | 4%nat, String c2 (String c3 (String c4 s4)) =>
          if is_cont c2 && is_cont c3 && is_cont c4
          then String c (String c2 (String c3 (String c4 (json_escape s4)))) else invalid
      | _, _ => invalid
      end
  end.

(** ** The texts *)

(** Double quotes written as single ones, to read like the source. *)
Definition build_json (ts_ms : Z) (event_type path hostname : string) : string :=
  json_text "{'ts':" +:+ str_of_Z ts_ms +:+
  json_text ",'event':'" +:+ event_type +:+
  json_text "','path':'" +:+ json_escape path +:+
  json_text "','hostname':'" +:+ json_escape hostname +:+
  json_text "'}".

(** The text the lambda [on_rename] builds. *)
Definition rename_json (ts_ms : Z) (old_path new_path hostname : string) : string :=
  json_text "{'ts':" +:+ str_of_Z ts_ms +:+
  json_text ",'event':'rename','old_path':'" +:+ json_escape old_path +:+
  json_text "','new_path':'" +:+ json_escape new_path +:+
  json_text "','hostname':'" +:+ json_escape hostname +:+
  json_text "'}".

(** An event the agent sends, and the text it sends for it. *)
Inductive fs_event : Type :=
| FsMtime (path : string)
| FsDelete (path : string)
| FsRename (old_path new_path : string).

Definition event_json (ts_ms : Z) (hostname : string) (e : fs_event) : string :=
  match e with
  | FsMtime path => build_json ts_ms "mtime_change" path hostname
  | FsDelete path => build_json ts_ms "delete" path hostname
  | FsRename old_path new_path => rename_json ts_ms old_path new_path hostname
  end.

Definition event_paths (e : fs_event) : list string :=
  match e with FsMtime p | FsDelete p => [p] | FsRename o n => [o; n] end.

(** The collector's view of it. *)
Definition as_file_event (e : fs_event) : file_event :=
  match e with
  | FsMtime p => MtimeChange p
  | FsDelete _ => Deleted
  | FsRename o n => Renamed o n
  end.

(** What the escaped text stands for: every byte that starts no sequence is
    replaced by U+FFFD. *)
Fixpoint sanitize (s : string) : string :=
  match s with
  | EmptyString => ""
  | String c s1 =>
    if byte c <? 128 then String c (sanitize s1)
    else
      let invalid := utf8_encode 65533 +:+ sanitize s1 in
      match seq_len c, s1 with
      | 2%nat, String c2 s2 =>
          if is_cont c2 then String c (String c2 (sanitize s2)) else invalid
      | 3%nat, String c2 (String c3 s3) =>
          if is_cont c2 && is_cont c3
          then String c (String c2 (String c3 (sanitize s3))) else invalid
      | 4%nat, String c2 (String c3 (String c4 s4)) =>
          if is_cont c2 && is_cont c3 && is_cont c4
          then String c (String c2 (String c3 (String c4 (sanitize s4)))) else invalid
      | _, _ => invalid
      end
  end.

(** ** Bytes *)

Ltac all_bytes c := destruct c as [[] [] [] [] [] [] [] []].

Lemma byte_range c : 0 <= byte c < 256.
Proof. all_bytes c; vm_compute; split; congruence. Qed.

Lemma seq_len_range c :
  match seq_len c with
  | 2%nat => 192 <= byte c <= 223
  | 3%nat => 224 <= byte c <= 239
  | 4%nat => 240 <= byte c <= 247
  | 0%nat => byte c < 192 \/ 247 < byte c
  | _ => False
  end.
Proof. all_bytes c; vm_compute; first [split; congruence|left; congruence|right; congruence]. Qed.

Lemma is_cont_range c : is_cont c = in_range 128 191 c.
Proof. all_bytes c; reflexivity. Qed.

Lemma scan_escape_ascii c t :
  byte c < 128 -> scan_string (escape_ascii c +:+ t) = put (String c "") (scan_string t).
Proof. all_bytes c; intros H; try reflexivity; exfalso; revert H; vm_compute; done. Qed.

Lemma scan_high c t :
  128 <= byte c -> scan_string (String c t) = put (String c "") (scan_string t).
Proof.
  intros H. cbn [scan_string].
  destruct (Z.eqb_spec (byte c) 34); [lia|]. destruct (Z.ltb_spec (byte c) 32); [lia|].
  destruct (Z.eqb_spec (byte c) 92); [lia|done].
Qed.

Lemma put_put s t r : put s (put t r) = put (s +:+ t) r.
Proof. destruct r as [[v rest]| |]; simpl; [by rewrite app_assoc_str|done..]. Qed.

Lemma scan_replacement t : scan_string (replacement +:+ t) = put (utf8_encode 65533) (scan_string t).
Proof. reflexivity. Qed.

(** The parser reads back what [json_escape] wrote. *)
Lemma scan_escape s rest :
  scan_string (json_escape s +:+ String quote rest) = Ok (sanitize s, rest).
Proof.
  induction s as [s IH] using string_length_ind.
  destruct s as [|c s1]; [done|]. cbn [json_escape sanitize].
  destruct (Z.ltb_spec (byte c) 128).
  { rewrite app_assoc_str, scan_escape_ascii, IH by (simpl; lia || done). done. }
  assert (Hinv : scan_string ((replacement +:+ json_escape s1) +:+ String quote rest)
                 = Ok (utf8_encode 65533 +:+ sanitize s1, rest)).
  { rewrite app_assoc_str, scan_replacement, IH by (simpl; lia). done. }
  pose proof (seq_len_range c) as Hc. cbv zeta.
  destruct (seq_len c) as [|[|[|[|[|]]]]]; try done;
    destruct s1 as [|c2 [|c3 [|c4 s4]]]; try done;
    match goal with |- context [if ?b then _ else _] => destruct b eqn:Hk; [|done] end;
    repeat (apply andb_true_iff in Hk as [Hk ?]);
    repeat match goal with H : is_cont ?x = true |- _ =>
      rewrite is_cont_range in H; unfold in_range in H;
      apply andb_true_iff in H as [H%Z.leb_le _] end;
    cbn [String.append];
    rewrite !scan_high by lia; rewrite IH by (simpl; lia); done.
Qed.

(** *** UTF-8 *)

Lemma utf8_ascii b c t : byte c < 128 -> utf8_ok b (String c t) = utf8_ok b t.
Proof. intros H. cbn [utf8_ok]. by destruct (Z.ltb_spec (byte c) 128); [|lia]. Qed.

Lemma utf8_escape_ascii b c t :
  byte c < 128 -> utf8_ok b (escape_ascii c +:+ t) = utf8_ok b t.
Proof. all_bytes c; intros H; try reflexivity; exfalso; revert H; vm_compute; done. Qed.

Lemma in_range_out lo hi c : byte c < lo \/ hi < byte c -> in_range lo hi c = false.
Proof.
  unfold in_range. intros [H|H]; [by rewrite (proj2 (Z.leb_gt _ _) H)|].
  by rewrite (proj2 (Z.leb_gt _ _) H), andb_false_r.
Qed.

(** The strict test of one announced sequence, apart from what follows it. *)
Definition strict2 (c : ascii) : bool := 194 <=? byte c.
Definition strict3 (b : bool) (c c2 : ascii) : bool :=
  in_range (if byte c =? 224 then 160 else 128)
           (if (byte c =? 237) && negb b then 159 else 191) c2.
Definition strict4 (c c2 : ascii) : bool :=
  (byte c <=? 244) &&
  in_range (if byte c =? 240 then 144 else 128) (if byte c =? 244 then 143 else 191) c2.

Lemma utf8_two b c c2 t :
  192 <= byte c <= 223 -> is_cont c2 = true ->
  utf8_ok b (String c (String c2 t)) = strict2 c && utf8_ok b t.
Proof.
  intros Hc H2. rewrite is_cont_range in H2. cbn [utf8_ok].
  destruct (Z.ltb_spec (byte c) 128); [lia|]. unfold strict2.
  destruct (Z.leb_spec 194 (byte c)).
  - replace (in_range 194 223 c) with true; [by rewrite H2|].
    unfold in_range. destruct (Z.leb_spec 194 (byte c)), (Z.leb_spec (byte c) 223); lia || done.
  - rewrite !in_range_out by lia. cbn [andb]. destruct t as [|? []]; done.
Qed.

Lemma utf8_three b c c2 c3 t :
  224 <= byte c <= 239 -> is_cont c3 = true ->
  utf8_ok b (String c (String c2 (String c3 t))) = strict3 b c c2 && utf8_ok b t.
Proof.
  intros Hc H3. rewrite is_cont_range in H3. cbn [utf8_ok].
  destruct (Z.ltb_spec (byte c) 128); [lia|]. rewrite (in_range_out 194) by lia.
  replace (in_range 224 239 c) with true; [by rewrite H3, andb_true_r|].
  unfold in_range. destruct (Z.leb_spec 224 (byte c)), (Z.leb_spec (byte c) 239); lia || done.
Qed.

Lemma utf8_four b c c2 c3 c4 t :
  240 <= byte c <= 247 -> is_cont c3 = true -> is_cont c4 = true ->
  utf8_ok b (String c (String c2 (String c3 (String c4 t)))) = strict4 c c2 && utf8_ok b t.
Proof.
  intros Hc H3 H4. rewrite is_cont_range in H3, H4. cbn [utf8_ok].
  destruct (Z.ltb_spec (byte c) 128); [lia|]. rewrite (in_range_out 194), (in_range_out 224) by lia.
  rewrite H3, H4, !andb_true_r. unfold strict4. f_equal.
  unfold in_range at 1. by destruct (Z.leb_spec 240 (byte c)); [|lia].
Qed.

(** The escaped text is as good as what it stands for. *)
Lemma utf8_escape b s t :
  utf8_ok b (json_escape s +:+ t) = utf8_ok b (sanitize s) && utf8_ok b t.
Proof.
  induction s as [s IH] using string_length_ind.
  destruct s as [|c s1]; [done|]. cbn [json_escape sanitize].
  destruct (Z.ltb_spec (byte c) 128).
  { rewrite app_assoc_str, utf8_escape_ascii, utf8_ascii, IH by (simpl; lia || done). done. }
  assert (Hinv : utf8_ok b ((replacement +:+ json_escape s1) +:+ t)
                 = utf8_ok b (utf8_encode 65533 +:+ sanitize s1) && utf8_ok b t).
  { rewrite app_assoc_str. change (utf8_ok b (replacement +:+ ?u)) with (utf8_ok b u).
    rewrite IH by (simpl; lia). change (utf8_ok b (utf8_encode 65533 +:+ ?u)) with (utf8_ok b u). done. }
  pose proof (seq_len_range c) as Hc. cbv zeta.
  destruct (seq_len c) as [|[|[|[|[|]]]]]; try done;
    destruct s1 as [|c2 [|c3 [|c4 s4]]]; try done;
    match goal with |- context [if ?b then _ else _] => destruct b eqn:Hk; [|done] end;
    repeat (apply andb_true_iff in Hk as [Hk ?]); cbn [String.append];
    rewrite ?utf8_two, ?utf8_three, ?utf8_four, IH by (done || simpl; lia); apply andb_assoc.
Qed.

Lemma strict_seq_len c :
  (if in_range 194 223 c then seq_len c = 2%nat else True) /\
  (if in_range 224 239 c then seq_len c = 3%nat else True) /\
  (if in_range 240 244 c then seq_len c = 4%nat else True).
Proof. all_bytes c; vm_compute; done. Qed.

Lemma in_range_sub lo hi c :
  in_range lo hi c = true -> 128 <= lo -> hi <= 191 -> is_cont c = true.
Proof.
  rewrite is_cont_range. unfold in_range. rewrite !andb_true_iff, !Z.leb_le. lia.
Qed.

(** A valid path stands for itself. *)
Lemma sanitize_valid b s : utf8_ok b s = true -> sanitize s = s.
Proof.
  induction s as [s IH] using string_length_ind.
  destruct s as [|c s1]; [done|]. cbn [sanitize utf8_ok].
  destruct (Z.ltb_spec (byte c) 128); [intros Hu; by rewrite IH by (simpl; lia || done)|].
  destruct s1 as [|c2 s2]; [done|]. pose proof (strict_seq_len c) as (H2 & H3 & H4).
  destruct (in_range 194 223 c).
  { rewrite H2. intros [Hc Hs]%andb_true_iff. rewrite (in_range_sub _ _ _ Hc) by lia.
    by rewrite IH by (simpl; lia || done). }
  destruct s2 as [|c3 s3]; [done|]. destruct (in_range 224 239 c).
  { rewrite H3, !andb_true_iff. intros [[Hc Hc3] Hs].
    rewrite (in_range_sub _ _ _ Hc), (in_range_sub _ _ _ Hc3) by (repeat case_match; lia).
    by rewrite IH by (simpl; lia || done). }
  destruct s3 as [|c4 s4]; [done|]. rewrite !andb_true_iff. intros [[[[Hl Hc] Hc3] Hc4] Hs].
  rewrite Hl in H4. rewrite H4.
  rewrite (in_range_sub _ _ _ Hc), (in_range_sub _ _ _ Hc3), (in_range_sub _ _ _ Hc4)
    by (repeat case_match; lia).
  by rewrite IH by (simpl; lia || done).
Qed.

(** *** Numbers *)

Fixpoint digits (s : string) : bool :=
  match s with EmptyString => true | String c s' => is_digit c && digits s' end.

Lemma digit_range c : is_digit c = true -> 48 <= byte c <= 57.
Proof. unfold is_digit, in_range. rewrite andb_true_iff, !Z.leb_le. done. Qed.

Lemma digits_app s t : digits (s +:+ t) = digits s && digits t.
Proof. induction s as [|c s IH]; simpl; [done|]. by rewrite IH, andb_assoc. Qed.

Lemma digits_value_app s t acc :
  digits_value acc (s +:+ t) = digits_value (digits_value acc s) t.
Proof. revert acc. induction s as [|c s IH]; intros acc; simpl; [done|]. apply IH. Qed.

Lemma span_digits_app s c t :
  digits s = true -> is_digit c = false -> span_digits (s +:+ String c t) = (s, String c t).
Proof.
  intros Hs Hc. induction s as [|d s IH]; simpl in *; [by rewrite Hc|].
  apply andb_true_iff in Hs as [-> Hs]. by rewrite IH.
Qed.

Lemma utf8_digits b s t : digits s = true -> utf8_ok b (s +:+ t) = utf8_ok b t.
Proof.
  induction s as [|c s IH]; [done|]. cbn [digits String.append]. rewrite andb_true_iff.
  intros [Hc Hs]. apply digit_range in Hc. rewrite utf8_ascii by lia. by apply IH.
Qed.

(** The decimal notation of a positive number. *)
Definition numeral (n : Z) (s : string) : Prop :=
  digits s = true /\ digits_value 0 s = n /\
  (exists c s', s = String c s' /\ byte c <> 48) /\
  (forall k, n < 10 ^ Z.of_nat k -> (String.length s <= k)%nat).

Lemma pretty_char x :
  (x < 10)%N -> is_digit (pretty_N_char x) = true /\ byte (pretty_N_char x) = 48 + Z.of_N x.
Proof.
  intros H. assert (exists n, x = N.of_nat n /\ (n < 10)%nat) as (n & -> & Hn).
  { exists (N.to_nat x). lia. }
  do 10 (destruct n as [|n]; [by vm_compute|]). lia.
Qed.

Lemma pretty_go x s :
  (0 < x)%N -> exists ds, pretty_N_go x s = ds +:+ s /\ numeral (Z.of_N x) ds.
Proof.
  revert s. induction (N.lt_wf_0 x) as [x _ IH]. intros s Hx.
  rewrite pretty_N_go_step by done.
  assert (Hm : (x mod 10 < 10)%N) by (by apply N.mod_lt).
  destruct (pretty_char _ Hm) as [Hd Hb].
  generalize dependent (pretty_N_char (x mod 10)). intros c Hd Hb.
  pose proof (N.div_mod x 10 ltac:(done)) as Hdm.
  destruct (decide (x / 10 = 0)%N) as [E|E].
  - rewrite E, pretty_N_go_0. exists (String c ""). split; [done|].
    split; [by simpl; rewrite Hd|]. split; [simpl; lia|]. split.
    + exists c, "". split; [done|]. lia.
    + intros [|k] Hk; simpl; [|lia]. change (10 ^ Z.of_nat 0) with 1 in Hk. lia.
  - destruct (IH (x / 10)%N) with (s := String c s) as (ds & -> & Hds & Hv & (c0 & s' & -> & Hc0) & Hl).
    { by apply N.div_lt. } { lia. }
    exists (String c0 s' +:+ String c ""). split; [by rewrite app_assoc_str|].
    split; [by rewrite digits_app, Hds; simpl; rewrite Hd|].
    split; [rewrite digits_value_app, Hv; cbn [digits_value]; lia|]. split; [by exists c0, (s' +:+ String c "")|].
    intros [|k] Hk; [change (10 ^ Z.of_nat 0) with 1 in Hk; lia|].
    rewrite length_app_str. cbn [String.length]. enough (String.length (String c0 s') <= k)%nat by (simpl in *; lia).
    apply Hl. rewrite Nat2Z.inj_succ, Z.pow_succ_r in Hk by lia. revert Hk. generalize (10 ^ Z.of_nat k). clear -Hdm. generalize dependent (x `div` 10)%N; intros q. generalize (x `mod` 10)%N. lia.
Qed.

(** [std::to_string]: the decimal notation of an [int64_t]. *)
Lemma str_of_Z_cases z :
  z = 0 /\ str_of_Z z = "0" \/
  0 < z /\ numeral z (str_of_Z z) \/
  z < 0 /\ exists ds, str_of_Z z = String "-" ds /\ numeral (- z) ds.
Proof.
  assert (Hp : forall p, exists ds, pretty (Npos p) = ds /\ numeral (Zpos p) ds).
  { intros p. unfold pretty, pretty_N. case_decide; [done|].
    destruct (pretty_go (Npos p) "" eq_refl) as (ds & -> & Hds). rewrite app_empty_r. by exists ds. }
  unfold str_of_Z. destruct z as [|p|p]; [by left|right; left|right; right];
    (split; [done|]); destruct (Hp p) as (ds & E & Hds).
  - change (pretty (Zpos p)) with (pretty (Npos p)). by rewrite E.
  - exists ds. split; [|done]. change (pretty (Zneg p)) with ("-" +:+ pretty (Npos p)). by rewrite E.
Qed.

Definition int64 (z : Z) : Prop := - 2 ^ 63 <= z < 2 ^ 63.

(** What may follow a value in the texts. *)
Definition comma : ascii := chr 44.
Definition brace : ascii := chr 125.
Definition delimiter (d : ascii) : Prop := d = comma \/ d = brace.

Lemma digit_facts c :
  is_digit c = true ->
  forall t, startswith (String c t) "null" = false /\ startswith (String c t) "true" = false /\
  startswith (String c t) "false" = false /\ startswith (String c t) "NaN" = false /\
  startswith (String c t) "Infinity" = false /\ startswith (String c t) "-Infinity" = false /\
  is_ws c = false /\
  (byte c =? 34) = false /\ (byte c =? 123) = false /\ (byte c =? 91) = false /\ (byte c =? 45) = false.
Proof. all_bytes c; intros H t; try discriminate H; repeat split; reflexivity. Qed.

Lemma scan_numeral neg z s d rest :
  numeral z s -> 0 < z <= 2 ^ 63 -> delimiter d ->
  scan_number neg (s +:+ String d rest)
  = Ok (VInt ((if neg then -1 else 1) * z), String d rest).
Proof.
  intros (Hd & Hv & (c & s' & -> & Hc) & Hl) Hz Hdel. unfold scan_number.
  assert (scan_int (String c s' +:+ String d rest) = Some (String c s', String d rest)) as ->.
  { assert (is_digit d = false) as Hd' by (by destruct Hdel as [-> | ->]).
    pose proof (span_digits_app _ d rest Hd Hd') as Hs. cbn [String.append] in *.
    unfold scan_int. rewrite Hs. destruct (Z.eqb_spec (byte c) 48); [done|].
    cbn [digits] in Hd. by apply andb_true_iff in Hd as [-> _]. }
  assert (scan_frac (String d rest) = (@None string, String d rest)) as ->
    by (by destruct Hdel as [-> | ->]).
  assert (scan_exp (String d rest) = (@None Z, String d rest)) as ->
    by (by destruct Hdel as [-> | ->]). cbv iota beta.
  assert (String.length (String c s') <= 19)%nat by (apply Hl; lia).
  replace (int_max_str_digits <? String.length (String c s'))%nat with false; [by rewrite Hv|].
  symmetry. apply Nat.ltb_ge. unfold int_max_str_digits. lia.
Qed.

(** The text of a value: it starts with no white space and is scanned whole. *)
Definition value_text (raw : string) (v : pyval) : Prop :=
  forall fuel d rest, delimiter d ->
  skip_ws (raw +:+ String d rest) = raw +:+ String d rest /\
  scan_once (S fuel) (raw +:+ String d rest) = Ok (v, String d rest).

Lemma int64_text z : int64 z -> value_text (str_of_Z z) (VInt z).
Proof.
  unfold int64. intros Hz fuel d rest Hdel.
  destruct (str_of_Z_cases z) as [[-> ->]|[[Hp Hn]|(Hp & ds & -> & Hn)]].
  { destruct Hdel as [-> | ->]; done. }
  - pose proof (scan_numeral false _ _ d rest Hn ltac:(lia) Hdel) as Hs. rewrite Z.mul_1_l in Hs.
    destruct Hn as (Hd & _ & (c & s' & Es & _) & _). rewrite Es in *. cbn [digits String.append] in *.
    apply andb_true_iff in Hd as [Hc _]. destruct (digit_facts c Hc (s' +:+ String d rest))
      as (H1 & H2 & H3 & H4 & H5 & H6 & H8 & H9 & H10 & H11 & H12).
    cbn [scan_once skip_ws]. rewrite H8, H9, H10, H11. split; [done|].
    unfold scan_atom. by rewrite H1, H2, H3, H4, H5, H6, H12.
  - pose proof (scan_numeral true _ _ d rest Hn ltac:(lia) Hdel) as Hs.
    destruct Hn as (Hd & _ & (c & s' & -> & _) & _). cbn [digits String.append] in *.
    apply andb_true_iff in Hd as [Hc _]. destruct (digit_facts c Hc (s' +:+ String d rest))
      as (_ & _ & _ & _ & H5 & _). split; [done|]. cbn [scan_once].
    change (scan_atom (String "-" ?u)) with
      (if startswith u "Infinity" then Ok (VInfinity true, drop_str 8 u) else scan_number true u).
    simpl (byte "-" =? _). cbv iota. rewrite H5, Hs. do 3 f_equal. lia.
Qed.

(** *** Objects *)

Definition quoted (s : string) : string := String quote (s +:+ String quote "").

Lemma quoted_app s t : quoted s +:+ t = String quote (s +:+ String quote t).
Proof. unfold quoted. cbn [String.append]. by rewrite app_assoc_str. Qed.

Lemma escape_text s : value_text (quoted (json_escape s)) (VStr (sanitize s)).
Proof.
  intros fuel d rest _. rewrite quoted_app. split; [done|]. cbn [scan_once].
  change (byte quote =? 34) with true. cbv iota. by rewrite scan_escape.
Qed.

(** A text that needs no escape. *)
Fixpoint plain (s : string) : bool :=
  match s with
  | EmptyString => true
  | String c s' => String.eqb (escape_ascii c) (String c "") && (byte c <? 128) && plain s'
  end.

Lemma plain_escape s : plain s = true -> json_escape s = s /\ sanitize s = s.
Proof.
  induction s as [|c s IH]; [done|]. cbn [plain json_escape sanitize].
  rewrite !andb_true_iff. intros [[->%String.eqb_eq ->] Hs]. by destruct (IH Hs) as [-> ->].
Qed.

Lemma plain_text s : plain s = true -> value_text (quoted s) (VStr s).
Proof. intros [He Hs]%plain_escape. rewrite <-He at 1. rewrite <-Hs at 2. apply escape_text. Qed.

(** The text of an object's members: keys and value texts. *)
Fixpoint members (l : list (string * string)) : string :=
  match l with
  | [] => ""
  | (k, raw) :: l' =>
      quoted k +:+ String (chr 58) (raw +:+
        match l' with [] => String brace "" | _ :: _ => String comma (members l') end)
  end.

Lemma skip_ws_members l : skip_ws (members l) = members l.
Proof. destruct l as [|[k raw] l]; [done|]. cbn [members]. by rewrite quoted_app. Qed.

Lemma scan_members l vs acc fuel :
  l <> [] ->
  Forall2 (fun kr v => plain kr.1 = true /\ value_text kr.2 v) l vs ->
  scan_pairs (length l + S fuel) acc (members l)
  = Ok (VDict (foldl (fun d kv => dict_set d kv.1 kv.2) acc (zip l.*1 vs)), "").
Proof.
  intros Hne H. revert acc Hne. induction H as [|[k raw] v l vs [Hk Hv] Hl IH]; [done|].
  intros acc _. cbn [members length Nat.add]. rewrite quoted_app. cbn [scan_pairs fst snd] in *.
  change (negb (byte quote =? 34)) with false. cbv iota.
  apply plain_escape in Hk as [Hk1 Hk2]. pose proof (scan_escape k) as Hsc.
  rewrite Hk1, Hk2 in Hsc. rewrite Hsc. cbn [rbind].
  change (skip_ws (String (chr 58) ?u)) with (String (chr 58) u). cbv iota.
  change (negb (byte (chr 58) =? 58)) with false. cbv iota.
  rewrite Nat.add_succ_r.
  destruct l as [|kr l].
  - destruct (Hv (length (@nil (string * string)) + fuel)%nat brace "" (or_intror eq_refl)) as [-> ->].
    inversion Hl; subst. done.
  - destruct (Hv (length (kr :: l) + fuel)%nat comma (members (kr :: l)) (or_introl eq_refl)) as [-> ->].
    cbn [rbind]. change (skip_ws (String comma ?u)) with (String comma u). cbv iota.
    change (byte comma =? 125) with false. change (byte comma =? 44) with true. cbv iota.
    rewrite skip_ws_members, <-Nat.add_succ_r, IH by done. done.
Qed.

Lemma loads_members l vs :
  l <> [] ->
  Forall2 (fun kr v => plain kr.1 = true /\ value_text kr.2 v) l vs ->
  loads_str (String (chr 123) (members l))
  = Ok (VDict (foldl (fun d kv => dict_set d kv.1 kv.2) [] (zip l.*1 vs))).
Proof.
  intros Hne H. unfold loads_str. change (skip_ws (String (chr 123) ?u)) with (String (chr 123) u).
  assert (exists f, json_fuel (String (chr 123) (members l)) = S (length l + S f)) as [f ->].
  { assert (length l <= String.length (members l))%nat.
    { clear. induction l as [|[k raw] l IH]; [done|]. cbn [members]. rewrite quoted_app.
      cbn [String.length length]. rewrite length_app_str. cbn [String.length]. rewrite length_app_str.
      destruct l; simpl in *; lia. }
    exists (2 * String.length (members l) + 2 - length l)%nat. unfold json_fuel. cbn [String.length]. lia. }
  cbn [scan_once]. change (byte (chr 123) =? 34) with false. change (byte (chr 123) =? 123) with true.
  cbv iota. rewrite skip_ws_members. pose proof (scan_members l vs [] f Hne H) as Hs.
  destruct l as [|[k raw] l]; [done|]. cbn [members] in *. rewrite quoted_app in *.
  change (byte quote =? 125) with false. cbv iota. by rewrite Hs.
Qed.

(** *** The two texts *)

Lemma build_json_members ts kind path host :
  build_json ts kind path host
  = String (chr 123) (members [("ts", str_of_Z ts); ("event", quoted kind);
      ("path", quoted (json_escape path)); ("hostname", quoted (json_escape host))]).
Proof.
  unfold build_json. cbn [members]. unfold quoted. cbn [String.append].
  rewrite !app_assoc_str. reflexivity.
Qed.

Lemma rename_json_members ts o n host :
  rename_json ts o n host
  = String (chr 123) (members [("ts", str_of_Z ts); ("event", quoted "rename");
      ("old_path", quoted (json_escape o)); ("new_path", quoted (json_escape n));
      ("hostname", quoted (json_escape host))]).
Proof.
  unfold rename_json. cbn [members]. unfold quoted. cbn [String.append].
  rewrite !app_assoc_str. reflexivity.
Qed.

Lemma decode_object s :
  decode_json_bytes (String (chr 123) (String quote s))
  = if utf8_ok true s then Ok (String (chr 123) (String quote s)) else Exc UnicodeDecodeError.
Proof.
  unfold decode_json_bytes, detect_encoding.
  repeat match goal with |- context [startswith (String ?a ?t) ?p] =>
    change (startswith (String a t) p) with false end. cbv iota.
  change (nonzero_at 0 _) with true. change (nonzero_at 1 _) with true. cbn [negb].
  repeat case_match; try done; rewrite !utf8_ascii in * by (vm_compute; done); congruence.
Qed.

Lemma utf8_str_of_Z b z t : utf8_ok b (str_of_Z z +:+ t) = utf8_ok b t.
Proof.
  destruct (str_of_Z_cases z) as [[_ ->]|[[_ [Hd _]]|(_ & ds & -> & [Hd _])]]; [done|..].
  - by apply utf8_digits.
  - cbn [String.append]. rewrite utf8_ascii by (vm_compute; done). by apply utf8_digits.
Qed.

Lemma utf8_plain b s t : plain s = true -> utf8_ok b (s +:+ t) = utf8_ok b t.
Proof.
  induction s as [|c s IH]; [done|]. cbn [plain String.append]. rewrite !andb_true_iff.
  intros [[_ Hc%Z.ltb_lt] Hs]. rewrite utf8_ascii by done. by apply IH.
Qed.

(** Can the collector decode what the agent makes of these bytes? *)
Definition readable (s : string) : bool := utf8_ok true (sanitize s).

Lemma valid_readable s : utf8_ok true s = true -> readable s = true.
Proof. unfold readable. intros H. by rewrite (sanitize_valid _ _ H). Qed.

(** A member's text: its value, and whether its bytes are UTF-8. *)
Record member_text (kr : string * string) (v : pyval) (u : bool) : Prop := {
  mt_key : plain kr.1 = true;
  mt_value : value_text kr.2 v;
  mt_utf8 : forall t, utf8_ok true (kr.2 +:+ t) = u && utf8_ok true t
}.

Lemma utf8_quoted s u :
  (forall t, utf8_ok true (s +:+ t) = u && utf8_ok true t) ->
  forall t, utf8_ok true (quoted s +:+ t) = u && utf8_ok true t.
Proof.
  intros H t. rewrite quoted_app, utf8_ascii, H by (vm_compute; done).
  by rewrite utf8_ascii by (vm_compute; done).
Qed.

Lemma member_int64 k z : plain k = true -> int64 z -> member_text (k, str_of_Z z) (VInt z) true.
Proof. intros Hk Hz. split; [done|by apply int64_text|intros t; apply utf8_str_of_Z]. Qed.

Lemma member_plain k s :
  plain k = true -> plain s = true -> member_text (k, quoted s) (VStr s) true.
Proof.
  intros Hk Hs. split; [done|by apply plain_text|]. apply utf8_quoted. intros t. by apply utf8_plain.
Qed.

Lemma member_escape k s :
  plain k = true -> member_text (k, quoted (json_escape s)) (VStr (sanitize s)) (readable s).
Proof.
  intros Hk. split; [done|apply escape_text|]. apply utf8_quoted. intros t. apply utf8_escape.
Qed.

Lemma utf8_members l vs us :
  Forall3 member_text l vs us -> utf8_ok true (members l) = forallb id us.
Proof.
  induction 1 as [|[k raw] v u l vs us [Hk _ Hu] _ IH]; [done|]. cbn [members fst snd] in *.
  rewrite (utf8_quoted k true) by (intros t; by apply utf8_plain).
  rewrite utf8_ascii, Hu by (vm_compute; done). cbn [forallb id andb]. f_equal.
  destruct l; [|by rewrite utf8_ascii, IH by (vm_compute; done)].
  by inversion IH.
Qed.

Lemma loads_object l vs us :
  l <> [] -> Forall3 member_text l vs us ->
  loads (Some (String (chr 123) (members l)))
  = if forallb id us
    then Ok (VDict (foldl (fun d kv => dict_set d kv.1 kv.2) [] (zip l.*1 vs)))
    else Exc UnicodeDecodeError.
Proof.
  intros Hne H. rewrite <-(utf8_members _ _ _ H). cbn [loads].
  assert (Hd : decode_json_bytes (String (chr 123) (members l)) =
    if utf8_ok true (members l) then Ok (String (chr 123) (members l)) else Exc UnicodeDecodeError).
  { destruct l as [|[k raw] l]; [done|]. cbn [members]. rewrite quoted_app.
    rewrite (utf8_ascii _ quote) by (vm_compute; done). apply decode_object. }
  rewrite Hd. destruct (utf8_ok true (members l)); [|done]. cbn [rbind].
  apply loads_members; [done|]. clear Hne Hd. induction H as [|kr v u l vs us []]; constructor; auto.
Qed.

Ltac solve_members :=
  repeat apply Forall3_cons; auto using member_int64, member_plain, member_escape, Forall3_nil.

Lemma loads_build_json ts kind path host :
  int64 ts -> plain kind = true ->
  loads (Some (build_json ts kind path host))
  = if readable path && readable host
    then Ok (VDict [("ts", VInt ts); ("event", VStr kind); ("path", VStr (sanitize path));
                    ("hostname", VStr (sanitize host))])
    else Exc UnicodeDecodeError.
Proof.
  intros Hts Hk. rewrite build_json_members.
  rewrite (loads_object _ [VInt ts; VStr kind; VStr (sanitize path); VStr (sanitize host)]
             [true; true; readable path; readable host]) by (done || solve_members).
  cbn [forallb id andb]. by rewrite andb_true_r.
Qed.

Lemma loads_rename_json ts o n host :
  int64 ts ->
  loads (Some (rename_json ts o n host))
  = if readable o && readable n && readable host
    then Ok (VDict [("ts", VInt ts); ("event", VStr "rename"); ("old_path", VStr (sanitize o));
                    ("new_path", VStr (sanitize n)); ("hostname", VStr (sanitize host))])
    else Exc UnicodeDecodeError.
Proof.
  intros Hts. rewrite rename_json_members.
  rewrite (loads_object _ [VInt ts; VStr "rename"; VStr (sanitize o); VStr (sanitize n);
                           VStr (sanitize host)]
             [true; true; readable o; readable n; readable host]) by (done || solve_members).
  cbn [forallb id andb]. by rewrite andb_true_r, andb_assoc.
Qed.

Definition seen (e : fs_event) : file_event :=
  match e with
  | FsMtime p => MtimeChange (sanitize p)
  | FsDelete _ => Deleted
  | FsRename o n => Renamed (sanitize o) (sanitize n)
  end.

Lemma loads_event_json ts host e :
  int64 ts ->
  exists d, loads (Some (event_json ts host e))
    = (if forallb readable (host :: event_paths e) then Ok (VDict d) else Exc UnicodeDecodeError) /\
    (Forall (fun p => sanitize p <> "") (event_paths e) -> event_of (VDict d) = Some (seen e)).
Proof.
  intros Hts. destruct e as [p|p|o n]; cbn [event_json event_paths forallb]; eexists;
    (split; [rewrite ?loads_build_json, ?loads_rename_json by done; rewrite !andb_true_r, andb_comm; done|]);
    intros Hp; repeat (apply Forall_cons_1 in Hp as [? Hp]); simpl; by rewrite ?eqb_neq_str.
Qed.

Lemma event_json_well_formed ts host e :
  int64 ts -> readable host = true ->
  Forall (fun p => utf8_ok true p = true /\ p <> "") (event_paths e) ->
  well_formed (Some (event_json ts host e)) (as_file_event e).
Proof.
  intros Hts Hh Hp. destruct (loads_event_json ts host e Hts) as (d & Hl & Hd).
  assert (Hs : Forall (fun p => sanitize p = p /\ readable p = true /\ p <> "") (event_paths e)).
  { eapply Forall_impl; [exact Hp|]. intros p [H Hne].
    split; [by eapply sanitize_valid|]. by split; [apply valid_readable|]. }
  assert (forallb readable (host :: event_paths e) = true) as Hr.
  { cbn [forallb]. rewrite Hh. clear -Hs. by induction Hs as [|p l (_ & H & _) _ IH]; simpl; [|rewrite H]. }
  exists (VDict d). rewrite Hl, Hr. split; [done|]. rewrite Hd.
  - destruct e; repeat (apply Forall_cons_1 in Hs as [[? _] Hs]); simpl; congruence.
  - eapply Forall_impl; [exact Hs|]. intros p (-> & _ & ?). done.
Qed.

(** ** Lengths *)

Lemma length_escape_ascii c : (String.length (escape_ascii c) <= 6)%nat.
Proof. unfold escape_ascii. repeat case_match; simpl; lia. Qed.

Lemma length_json_escape s : (String.length (json_escape s) <= 6 * String.length s)%nat.
Proof.
  remember (String.length s) as n eqn:Hn. assert (H : (String.length s <= n)%nat) by lia. clear Hn.
  revert s H. induction n as [|n IH]; intros [|c s1] H; simpl in H; try (simpl; lia).
  cbn [json_escape]. pose proof (IH s1 ltac:(lia)) as H1.
  destruct (byte c <? 128).
  { rewrite length_app_str. pose proof (length_escape_ascii c). lia. }
  assert (Hinv : (String.length (replacement +:+ json_escape s1) <= 6 * S n)%nat)
    by (rewrite length_app_str; simpl; lia).
  destruct (seq_len c) as [|[|[|[|[|k]]]]]; try exact Hinv;
    repeat (match goal with |- context [match ?s with EmptyString => _ | String _ _ => _ end] =>
              destruct s as [|? ?]; try exact Hinv; simpl in H end);
    (case_match; [|exact Hinv]); cbn [String.length];
    match goal with |- context [json_escape ?s] => pose proof (IH s ltac:(lia)) end; lia.
Qed.

Lemma length_pretty_go k x s :
  (x < 2 ^ N.of_nat k)%N -> (String.length (pretty_N_go x s) <= k + String.length s)%nat.
Proof.
  revert x s. induction k as [|k IH]; intros x s Hx.
  { assert (x = 0%N) as -> by (simpl in Hx; lia). by rewrite pretty_N_go_0. }
  destruct (N.eq_dec x 0%N) as [->|Hne]; [rewrite pretty_N_go_0; lia|].
  rewrite pretty_N_go_step by lia. etrans; [apply IH|simpl; lia].
  rewrite Nnat.Nat2N.inj_succ, N.pow_succ_r' in Hx. apply N.Div0.div_lt_upper_bound. lia.
Qed.

Lemma length_int64 z : int64 z -> (String.length (str_of_Z z) <= 65)%nat.
Proof.
  intros Hz. assert (Hp : forall p, (Npos p < 2 ^ 64)%N -> (String.length (pretty (Npos p)) <= 64)%nat).
  { intros p Hp. unfold pretty, pretty_N. case_decide; [done|].
    etrans; [by apply (length_pretty_go 64)|]. simpl. lia. }
  unfold str_of_Z, int64 in *. destruct z as [|p|p].
  - simpl. lia.
  - change (pretty (Zpos p)) with (pretty (Npos p)). etrans; [apply Hp|]; lia.
  - change (pretty (Zneg p)) with ("-" +:+ pretty (Npos p)). rewrite length_app_str. simpl String.length.
    pose proof (Hp p). lia.
Qed.

(** The text's length is bounded by those of the host name and the paths. *)
Lemma length_event_json ts host e n :
  int64 ts -> Forall (fun p => (String.length p <= n)%nat) (host :: event_paths e) ->
  (String.length (event_json ts host e) <= 150 + 18 * n)%nat.
Proof.
  intros Hts [Hh Hp]%Forall_cons. pose proof (length_int64 ts Hts). pose proof (length_json_escape host).
  destruct e as [p|p|o w]; cbn [event_paths event_json] in *; unfold build_json, rename_json;
    repeat (apply Forall_cons in Hp as [? Hp]); rewrite !length_app_str;
    repeat match goal with |- context [json_escape ?s] =>
      lazymatch goal with H : (String.length (json_escape s) <= _)%nat |- _ => fail
      | _ => pose proof (length_json_escape s) end end; simpl; lia.
Qed.

(** ** Properties *)

(** C11. Round trip: the text the agent sends for an event on paths in UTF-8
    (whatever else they hold: quotes, control bytes, any encoding of the host
    name) is read by the collector as that event, path for path. *)
Theorem event_text_roundtrip ts host e :
  int64 ts -> readable host = true ->
  Forall (fun p => utf8_ok true p = true /\ p <> "") (event_paths e) ->
  well_formed (Some (event_json ts host e)) (as_file_event e).
Proof. apply event_json_well_formed. Qed.


(** ** Witnesses *)

Lemma event_text_roundtrip_witness :
  well_formed (Some (event_json 1710000000000 "node-001"
    (FsRename "/home/s/u/a b" (String quote "/home/x"))))
    (Renamed "/home/s/u/a b" (String quote "/home/x")).
Proof.
  apply (event_text_roundtrip 1710000000000 "node-001" (FsRename "/home/s/u/a b" (String quote "/home/x"))).
  - unfold int64. lia.
  - reflexivity.
  - repeat constructor; reflexivity || discriminate.
Defined.

(** The two bytes C0 80 announce a sequence of two and are no UTF-8. *)
Definition overlong_path : string := "/home/s/u/" +:+ bytes_of [192; 128].

