(* ===== verification/Debouncer.v ===== *)
(** [src/debouncer.cpp]: one report per file after a quiet period.

    Times and periods are integers in one unit (the nanoseconds of the steady
    clock).  [std::unordered_map] is a finite map with a traversal order of
    its own, [traversal]; the callback's calls are the list each operation
    returns. *)
From S2P Require Import Prelude.

Local Open Scope string_scope.
Local Open Scope Z_scope.
#[local] Set Warnings "-clear-no-such-hyp".

Definition EVENT_DELETE : Z := 0.
Definition EVENT_MTIME : Z := 1.

(** ** State *)

Record Entry := { first_seen : Z; last_seen : Z }.

Abbreviation entries := (gmap string Entry).

(** A call of the callback: path and event type. *)
Abbreviation fired := (list (string * Z)).

(** ** Operations *)

Section Debouncer.
Context (traversal : entries -> list (string * Entry)).
Context (quiet_period max_wait : Z).

Definition on_event (now : Z) (path : string) (event_type : Z) (m : entries) : entries * fired :=
  if event_type =? EVENT_DELETE then (delete path m, [(path, event_type)])
  else
    match m !! path with
    | Some e =>
        if max_wait <=? now - first_seen e then (delete path m, [(path, event_type)])
        else (<[path := {| first_seen := first_seen e; last_seen := now |}]> m, [])
    | None => (<[path := {| first_seen := now; last_seen := now |}]> m, [])
    end.

(** The body of [tick]'s loop, over one entry. *)
Definition tick_entry (now : Z) (st : entries * fired) (pe : string * Entry) : entries * fired :=
  let '(m, to_fire) := st in
  let '(path, e) := pe in
  if quiet_period <=? now - last_seen e
  then (delete path m, to_fire ++ [(path, EVENT_MTIME)])%list
  else (m, to_fire).

Definition tick (now : Z) (m : entries) : entries * fired :=
  foldl (tick_entry now) (m, []) (traversal m).

(** The number returned by [flush_all] is the length of the list. *)
Definition flush_all (m : entries) : entries * fired :=
  (∅, (fun pe => (pe.1, EVENT_MTIME)) <$> traversal m).

Definition pending (m : entries) : nat := size m.

(** ** Runs *)

Inductive input : Type :=
| OnEvent (path : string) (event_type : Z)
| Tick
| FlushAll.

Definition step (now : Z) (i : input) (m : entries) : entries * fired :=
  match i with
  | OnEvent path event_type => on_event now path event_type m
  | Tick => tick now m
  | FlushAll => flush_all m
  end.

(** What is seen of a run, in order: the changes that come in and the reports
    that go out. *)
Inductive observation : Type :=
| Changed (path : string)
| Reported (path : string) (event_type : Z).

Definition observed (i : input) (out : fired) : list observation :=
  match i with
  | OnEvent path event_type => if event_type =? EVENT_DELETE then [] else [Changed path]
  | _ => []
  end ++ ((fun pt => Reported pt.1 pt.2) <$> out).

Fixpoint run (ins : list (Z * input)) (m : entries) : entries * list observation :=
  match ins with
  | [] => (m, [])
  | (now, i) :: ins' =>
      let '(m1, out) := step now i m in
      let '(m2, obs) := run ins' m1 in (m2, observed i out ++ obs)%list
  end.

(** ** Specification: the paths changed since they were last reported *)
Definition owe (s : gset string) (o : observation) : gset string :=
  match o with
  | Changed p => {[p]} ∪ s
  | Reported p _ => s ∖ {[p]}
  end.

Definition owed (s : gset string) (obs : list observation) : gset string := foldl owe s obs.

(** Every report of a change is owed when it is made. *)
Fixpoint justified (s : gset string) (obs : list observation) : Prop :=
  match obs with
  | [] => True
  | o :: obs' =>
      match o with
      | Reported p t => t <> EVENT_DELETE -> p ∈ s
      | Changed _ => True
      end /\ justified (owe s o) obs'
  end.

(** The clock of a run does not go back. *)
Fixpoint clocked (t : Z) (ins : list (Z * input)) : Prop :=
  match ins with
  | [] => True
  | (now, _) :: ins' => t <= now /\ clocked now ins'
  end.

(** ** Lemmas *)

Hypothesis traversal_all : forall m, traversal m ≡ₚ map_to_list m.

Definition expired (now : Z) (pe : string * Entry) : Prop := quiet_period <= now - last_seen pe.2.
#[local] Instance expired_dec now pe : Decision (expired now pe).
Proof. unfold expired. apply _. Defined.

Lemma tick_entries now l m acc :
  foldl (tick_entry now) (m, acc) l
  = (foldl (fun m pe => delete pe.1 m) m (filter (expired now) l),
     acc ++ ((fun pe => (pe.1, EVENT_MTIME)) <$> filter (expired now) l))%list.
Proof.
  revert m acc. induction l as [|[p e] l IH]; intros m acc; [by rewrite app_nil_r|].
  cbn [foldl tick_entry]. destruct (decide (expired now (p, e))) as [He|He].
  - rewrite filter_cons_True by done. unfold expired in He. cbn [snd] in He.
    destruct (Z.leb_spec quiet_period (now - last_seen e)); [|lia]. rewrite IH.
    cbn [foldl fmap list_fmap fst]. by rewrite <-app_assoc.
  - rewrite filter_cons_False by done. unfold expired in He. cbn [snd] in He.
    destruct (Z.leb_spec quiet_period (now - last_seen e)); [lia|]. apply IH.
Qed.

Lemma lookup_delete_list (l : list (string * Entry)) (m : entries) p :
  foldl (fun m pe => delete pe.1 m) m l !! p = if decide (p ∈ l.*1) then None else m !! p.
Proof.
  revert m. induction l as [|[q e] l IH]; intros m; [done|]. cbn [foldl fst fmap list_fmap].
  rewrite IH. destruct (decide (p ∈ l.*1)) as [Hl|Hl].
  { by rewrite decide_True by by right. }
  destruct (decide (p = q)) as [->|Hn].
  - rewrite decide_True by by left. apply lookup_delete_eq.
  - rewrite decide_False by by intros [|]%elem_of_cons. by apply lookup_delete_ne.
Qed.

Lemma elem_of_traversal m p e : (p, e) ∈ traversal m <-> m !! p = Some e.
Proof. rewrite traversal_all. apply elem_of_map_to_list. Qed.

(** [tick] keeps the entries whose quiet period has not passed. *)
Lemma tick_lookup now m p :
  (tick now m).1 !! p
  = match m !! p with
    | Some e => if quiet_period <=? now - last_seen e then None else Some e
    | None => None
    end.
Proof.
  unfold tick. rewrite tick_entries. cbn [fst]. rewrite lookup_delete_list.
  destruct (m !! p) as [e|] eqn:E; case_decide as Hin; try done.
  - apply list_elem_of_fmap in Hin as ([q e'] & -> & [He' Hq%elem_of_traversal]%list_elem_of_filter).
    cbn [fst] in *. rewrite E in Hq. injection Hq as <-. unfold expired in He'. cbn [snd] in He'.
    by destruct (Z.leb_spec quiet_period (now - last_seen e)); [|lia].
  - destruct (Z.leb_spec quiet_period (now - last_seen e)); [|done]. destruct Hin.
    apply list_elem_of_fmap. exists (p, e). split; [done|]. apply list_elem_of_filter.
    split; [done|]. by apply elem_of_traversal.
Qed.

Lemma tick_fired now m p t :
  (p, t) ∈ (tick now m).2 <->
  t = EVENT_MTIME /\ exists e, m !! p = Some e /\ quiet_period <= now - last_seen e.
Proof.
  unfold tick. rewrite tick_entries. cbn [snd app]. rewrite list_elem_of_fmap. split.
  - intros ([q e] & [= -> ->] & [He Hq%elem_of_traversal]%list_elem_of_filter). split; [done|]. by exists e.
  - intros [-> (e & Hm & He)]. exists (p, e). split; [done|]. apply list_elem_of_filter.
    split; [done|]. by apply elem_of_traversal.
Qed.

(** *** Accounts *)

Abbreviation reports out := ((fun pt : string * Z => Reported pt.1 pt.2) <$> out).

Lemma owed_app s obs obs' : owed s (obs ++ obs') = owed (owed s obs) obs'.
Proof. apply foldl_app. Qed.

Lemma justified_app s obs obs' :
  justified s (obs ++ obs') <-> justified s obs /\ justified (owed s obs) obs'.
Proof.
  revert s. induction obs as [|o obs IH]; intros s; simpl; [tauto|]. rewrite IH. tauto.
Qed.

Lemma owed_reports s (out : fired) : owed s (reports out) = s ∖ list_to_set out.*1.
Proof.
  revert s. induction out as [|[p t] out IH]; intros s; [set_solver|].
  cbn [fmap list_fmap owed foldl owe fst snd]. unfold owed in IH. rewrite IH. set_solver.
Qed.

Lemma justified_reports s (out : fired) :
  NoDup out.*1 -> Forall (fun p => p ∈ s) out.*1 -> justified s (reports out).
Proof.
  revert s. induction out as [|[p t] out IH]; intros s Hnd Hin; [done|].
  cbn [fmap list_fmap fst] in Hnd, Hin. apply NoDup_cons in Hnd as [Hp Hnd].
  apply Forall_cons in Hin as [Hps Hin]. split; [done|]. apply IH; [done|].
  apply Forall_forall. intros q Hq. rewrite Forall_forall in Hin. set_solver.
Qed.

Lemma traversal_keys m : (traversal m).*1 ≡ₚ (map_to_list m).*1.
Proof. by rewrite traversal_all. Qed.

Lemma NoDup_traversal m : NoDup (traversal m).*1.
Proof. rewrite traversal_keys. apply NoDup_fst_map_to_list. Qed.

Lemma keys_traversal m : list_to_set (traversal m).*1 = dom m.
Proof.
  apply set_eq. intros p. rewrite elem_of_list_to_set, list_elem_of_fmap, elem_of_dom. split.
  - intros ([q e] & -> & H%elem_of_traversal). by exists e.
  - intros [e He]. exists (p, e). split; [done|]. by apply elem_of_traversal.
Qed.

Definition accounts_step (m : entries) (i : input) (m' : entries) (out : fired) : Prop :=
  dom m' = owed (dom m) (observed i out) /\ justified (dom m) (observed i out).

Lemma on_event_accounts now p ty m m' out :
  on_event now p ty m = (m', out) -> accounts_step m (OnEvent p ty) m' out.
Proof.
  unfold on_event, accounts_step, observed. destruct (Z.eqb_spec ty EVENT_DELETE) as [->|Hty].
  { intros [= <- <-]. simpl. split; [by rewrite dom_delete_L|done]. }
  intros H. rewrite owed_app, justified_app, owed_reports. simpl. destruct (m !! p) as [e|] eqn:E.
  - assert (p ∈ dom m) by (by apply elem_of_dom_2 in E).
    destruct (max_wait <=? now - first_seen e); simplify_eq; simpl.
    + split; [rewrite dom_delete_L; set_solver|]. split; [done|]. split; [set_solver|done].
    + split; [rewrite dom_insert_L; set_solver|done].
  - simplify_eq. simpl. split; [rewrite dom_insert_L; set_solver|done].
Qed.

Lemma NoDup_filter_keys {A} (P : string * A -> Prop) `{!forall x, Decision (P x)} l :
  NoDup l.*1 -> NoDup (filter P l).*1.
Proof.
  induction l as [|[p a] l IH]; [done|]. cbn [fmap list_fmap fst]. intros [Hp Hnd]%NoDup_cons.
  rewrite filter_cons. case_decide; [|by apply IH]. cbn [fmap list_fmap fst]. apply NoDup_cons.
  split; [|by apply IH]. contradict Hp. apply list_elem_of_fmap in Hp as (x & -> & Hx).
  apply list_elem_of_filter in Hx as [_ Hx]. apply list_elem_of_fmap. by exists x.
Qed.

Lemma tick_keys now m : (tick now m).2.*1 = (filter (expired now) (traversal m)).*1.
Proof.
  unfold tick. rewrite tick_entries. cbn [snd app]. by rewrite <-list_fmap_compose.
Qed.

Lemma tick_accounts now m : accounts_step m Tick (tick now m).1 (tick now m).2.
Proof.
  unfold accounts_step, observed. cbn [app]. rewrite owed_reports. split.
  - apply set_eq. intros p. rewrite elem_of_difference, elem_of_list_to_set, list_elem_of_fmap, !elem_of_dom.
    rewrite tick_lookup. split.
    + intros [e He]. destruct (m !! p) as [e'|] eqn:E; [|done].
      destruct (Z.leb_spec quiet_period (now - last_seen e')); [done|]. split; [by exists e'|].
      intros ([q t] & -> & (_ & e2 & He2 & Hq)%tick_fired). cbn [fst] in *. simplify_eq. lia.
    + intros [[e He] Hno]. rewrite He. destruct (Z.leb_spec quiet_period (now - last_seen e)) as [Hq|]; [|by exists e].
      destruct Hno. exists (p, EVENT_MTIME). split; [done|]. apply tick_fired. eauto.
  - apply justified_reports; [rewrite tick_keys; apply NoDup_filter_keys, NoDup_traversal|].
    apply Forall_forall. intros p ([q t] & -> & (_ & e & He & _)%tick_fired)%list_elem_of_fmap.
    apply elem_of_dom. by exists e.
Qed.

Lemma flush_keys m : (flush_all m).2.*1 = (traversal m).*1.
Proof. unfold flush_all. cbn [snd]. by rewrite <-list_fmap_compose. Qed.

Lemma flush_accounts m : accounts_step m FlushAll (flush_all m).1 (flush_all m).2.
Proof.
  unfold accounts_step, observed. cbn [app]. rewrite owed_reports, flush_keys, keys_traversal.
  split; [unfold flush_all; set_solver|].
  apply justified_reports; rewrite flush_keys; [apply NoDup_traversal|].
  apply Forall_forall. intros p Hp. rewrite <-keys_traversal. by apply elem_of_list_to_set.
Qed.

Lemma step_accounts now i m m' out : step now i m = (m', out) -> accounts_step m i m' out.
Proof.
  destruct i as [p ty| |]; cbn [step]; [apply on_event_accounts|..]; intros E.
  - pose proof (tick_accounts now m) as H. by rewrite E in H.
  - pose proof (flush_accounts m) as H. by rewrite E in H.
Qed.

Lemma run_accounts ins m m' obs :
  run ins m = (m', obs) -> dom m' = owed (dom m) obs /\ justified (dom m) obs.
Proof.
  revert m m' obs. induction ins as [|[now i] ins IH]; intros m m' obs; cbn [run]; [by intros [= <- <-]|].
  destruct (step now i m) as [m1 out] eqn:E1, (run ins m1) as [m2 obs'] eqn:E2. intros [= <- <-].
  apply step_accounts in E1 as [Hd Hj]. apply IH in E2 as [Hd' Hj']. rewrite Hd in *.
  by rewrite owed_app, justified_app.
Qed.

Lemma run_app ins ins' m :
  run (ins ++ ins') m
  = ((run ins' (run ins m).1).1, (run ins m).2 ++ (run ins' (run ins m).1).2)%list.
Proof.
  revert m. induction ins as [|[now i] ins IH]; intros m; cbn [run app].
  { cbn [fst snd app]. by destruct (run ins' m). }
  destruct (step now i m) as [m1 out]. rewrite IH. destruct (run ins m1) as [m2 obs]. cbn [fst snd].
  by rewrite <-app_assoc.
Qed.

(** *** Delays *)

(** At time [t], no entry is from the future or older than its window. *)
Definition timed (t : Z) (m : entries) : Prop :=
  forall p e, m !! p = Some e -> first_seen e <= last_seen e <= t /\ last_seen e <= first_seen e + max_wait.

Lemma timed_later t t' m : timed t m -> t <= t' -> timed t' m.
Proof. intros H Ht p e He. specialize (H p e He). lia. Qed.

Lemma timed_sub t m m' : (forall p e, m' !! p = Some e -> m !! p = Some e) -> timed t m -> timed t m'.
Proof. intros Hs H p e He. apply Hs in He. by apply (H p). Qed.

Lemma timed_insert t m p e :
  timed t m -> first_seen e <= last_seen e <= t /\ last_seen e <= first_seen e + max_wait ->
  timed t (<[p := e]> m).
Proof.
  intros H He q e' Hq. apply lookup_insert_Some in Hq as [[_ <-]|[_ Hq]]; [done|by apply (H q)].
Qed.

Lemma tick_sub now m p e : (tick now m).1 !! p = Some e -> m !! p = Some e.
Proof. rewrite tick_lookup. destruct (m !! p); [case_match; congruence|done]. Qed.

Lemma step_timed now i m : 0 <= max_wait -> timed now m -> timed now (step now i m).1.
Proof.
  intros Hw Hm. destruct i as [p ty| |]; cbn [step].
  - unfold on_event. destruct (ty =? EVENT_DELETE); cbn [fst].
    { eapply timed_sub; [|exact Hm]. intros q e H. by apply lookup_delete_Some in H as [_ H]. }
    destruct (m !! p) as [e|] eqn:E.
    + specialize (Hm p e E) as He. destruct (Z.leb_spec max_wait (now - first_seen e)); cbn [fst].
      * eapply timed_sub; [|exact Hm]. intros q e' H'. by apply lookup_delete_Some in H' as [_ H'].
      * apply timed_insert; [done|]. simpl. lia.
    + apply timed_insert; [done|]. simpl. lia.
  - eapply timed_sub; [apply tick_sub|done].
  - unfold flush_all. cbn [fst]. intros p e H. by rewrite lookup_empty in H.
Qed.

Lemma run_timed ins t now i m :
  0 <= max_wait -> timed t m -> clocked t (ins ++ [(now, i)]) -> timed now (run ins m).1.
Proof.
  intros Hw. revert t m. induction ins as [|[t' i'] ins IH]; intros t m Hm; cbn [app clocked run].
  - intros [Ht _]. by eapply timed_later.
  - intros [Ht Hc]. pose proof (step_timed t' i' m Hw (timed_later _ _ _ Hm Ht)) as H1.
    destruct (step t' i' m) as [m1 out]. specialize (IH t' m1 H1 Hc).
    by destruct (run ins m1).
Qed.

(** A change of [p] made by [t]: reported, or still waiting. *)
Definition waiting (t : Z) (p : string) (m : entries) : Prop :=
  exists e, m !! p = Some e /\ first_seen e <= t.

Lemma step_waiting now i m t p :
  waiting t p m ->
  (exists k, (p, k) ∈ (step now i m).2) \/ waiting t p (step now i m).1.
Proof.
  intros (e & He & Ht). destruct i as [q ty| |]; cbn [step].
  - unfold on_event. destruct (decide (p = q)) as [<-|Hne].
    + destruct (ty =? EVENT_DELETE); [left; exists ty; by left|]. rewrite He.
      destruct (max_wait <=? now - first_seen e); [left; exists ty; by left|right].
      eexists. split; [apply lookup_insert_eq|done].
    + right. exists e. split; [|done].
      destruct (ty =? EVENT_DELETE), (m !! q) as [e'|]; try destruct (max_wait <=? now - first_seen e');
        cbn [fst]; by rewrite ?lookup_delete_ne, ?lookup_insert_ne.
  - destruct (Z.leb_spec quiet_period (now - last_seen e)) as [Hq|Hq].
    + left. exists EVENT_MTIME. apply tick_fired. eauto.
    + right. exists e. rewrite tick_lookup, He.
      by destruct (Z.leb_spec quiet_period (now - last_seen e)); [lia|].
  - left. exists EVENT_MTIME. apply list_elem_of_fmap. exists (p, e). split; [done|].
    by apply elem_of_traversal.
Qed.

Lemma observed_fired i out p k : (p, k) ∈ out -> Reported p k ∈ observed i out.
Proof.
  intros H. unfold observed. apply elem_of_app. right. apply list_elem_of_fmap. by exists (p, k).
Qed.

Lemma run_waiting ins m t p :
  waiting t p m -> (exists k, Reported p k ∈ (run ins m).2) \/ waiting t p (run ins m).1.
Proof.
  revert m. induction ins as [|[now i] ins IH]; intros m Hm; [by right|]. cbn [run].
  destruct (step_waiting now i m t p Hm) as [[k Hk]|Hm1];
    destruct (step now i m) as [m1 out]; cbn [fst snd] in *.
  - left. exists k. destruct (run ins m1). apply elem_of_app. left. by apply observed_fired.
  - destruct (IH m1 Hm1) as [[k Hk]|H]; destruct (run ins m1); [left|by right].
    exists k. apply elem_of_app. by right.
Qed.

Lemma clocked_cut t0 ins t i rest :
  clocked t0 (ins ++ (t, i) :: rest) -> clocked t0 (ins ++ [(t, i)]) /\ clocked t rest.
Proof.
  revert t0. induction ins as [|[t' i'] ins IH]; intros t0 [Ht Hc]; [done|].
  apply IH in Hc as [Hc Hr]. done.
Qed.

(** A change is reported at once or waits. *)
Lemma on_event_waiting t p ty m :
  ty <> EVENT_DELETE -> timed t m ->
  (p, ty) ∈ (on_event t p ty m).2 \/ waiting t p (on_event t p ty m).1.
Proof.
  intros Hty Hm. unfold on_event. destruct (Z.eqb_spec ty EVENT_DELETE); [done|].
  destruct (m !! p) as [e|] eqn:Ee.
  - specialize (Hm p e Ee). destruct (max_wait <=? t - first_seen e); [left; by left|right].
    eexists. split; [apply lookup_insert_eq|simpl; lia].
  - right. eexists. split; [apply lookup_insert_eq|simpl; lia].
Qed.

(** The tick that comes late enough reports whatever still waits. *)
Lemma tick_reports now t p m :
  timed now m -> waiting t p m -> quiet_period + max_wait <= now - t ->
  Reported p EVENT_MTIME ∈ (run [(now, Tick)] m).2.
Proof.
  intros Hm (e & He & Hte) Hnow. specialize (Hm p e He). cbn [run step].
  destruct (tick now m) as [m2 out] eqn:E. cbn [snd]. rewrite app_nil_r.
  apply observed_fired. change out with (m2, out).2. rewrite <-E. apply tick_fired.
  split; [done|]. exists e. split; [done|lia].
Qed.

(** ** Properties *)

(** C14. The debouncer's accounts: over any sequence of events, ticks and
    flushes, the pending files are exactly those that changed since they were
    last reported, and no change is reported that was not owed: nothing is
    lost and nothing is reported twice. *)
Theorem debouncer_accounts ins m obs :
  run ins ∅ = (m, obs) -> dom m = owed ∅ obs /\ justified ∅ obs.
Proof. intros H. apply run_accounts in H. by rewrite dom_empty_L in H. Qed.

(** C26. A change is reported in time: the first tick that comes
    [quiet_period + max_wait] or more after a change of a file has been preceded,
    since the change, by a report of the file, or makes it; however often
    the file changes in between. *)
Theorem reported_in_time t0 ins1 t p ty ins2 now :
  0 <= max_wait -> ty <> EVENT_DELETE ->
  clocked t0 (ins1 ++ (t, OnEvent p ty) :: ins2 ++ [(now, Tick)]) ->
  quiet_period + max_wait <= now - t ->
  exists k, Reported p k ∈ (run ((t, OnEvent p ty) :: ins2 ++ [(now, Tick)]) (run ins1 ∅).1).2.
Proof.
  intros Hw Hty [Hc1 Hc2]%clocked_cut Hnow.
  assert (H0 : timed t (run ins1 ∅).1) by (eapply run_timed; [done|by intros ? ?|exact Hc1]).
  pose proof (on_event_waiting t p ty _ Hty H0) as Hin.
  pose proof (step_timed t (OnEvent p ty) _ Hw H0) as H1.
  set (m0 := (run ins1 ∅).1) in *. change ((t, OnEvent p ty) :: ?l) with ([(t, OnEvent p ty)] ++ l)%list.
  rewrite run_app. cbn [run step] in *. destruct (on_event t p ty m0) as [m1 out]. cbn [fst snd] in *.
  destruct Hin as [Hin|Hwait].
  { exists ty. rewrite app_nil_r. apply elem_of_app. left. by apply observed_fired. }
  rewrite run_app. destruct (run_waiting ins2 m1 t p Hwait) as [[k Hk]|Hw2].
  { exists k. apply elem_of_app. right. apply elem_of_app. by left. }
  exists EVENT_MTIME. apply elem_of_app. right. apply elem_of_app. right.
  eapply tick_reports; [|exact Hw2|done]. by eapply run_timed.
Qed.
End Debouncer.

(** ** Witnesses *)

Lemma debouncer_accounts_witness :
  dom (run map_to_list 10 100 [(0, OnEvent "/a" EVENT_MTIME); (5, OnEvent "/b" EVENT_MTIME); (12, Tick)] ∅).1
  = {["/b"]}.
Proof.
  destruct (run map_to_list 10 100 [(0, OnEvent "/a" EVENT_MTIME); (5, OnEvent "/b" EVENT_MTIME); (12, Tick)] ∅)
    as [m obs] eqn:E. cbn [fst].
  destruct (debouncer_accounts map_to_list 10 100 (fun m => Permutation_refl _) _ m obs E) as [-> _].
  vm_compute in E. injection E as _ <-. vm_compute. reflexivity.
Defined.

Lemma reported_in_time_witness :
  exists k, Reported "/a" k ∈
    (run map_to_list 10 100 ((0, OnEvent "/a" EVENT_MTIME) :: [(60, OnEvent "/a" EVENT_MTIME); (69, Tick)]
      ++ [(110, Tick)]) ∅).2.
Proof.
  apply (reported_in_time map_to_list 10 100 (fun m => Permutation_refl _) 0 [] 0 "/a" EVENT_MTIME
           [(60, OnEvent "/a" EVENT_MTIME); (69, Tick)] 110); simpl; lia || done.
Defined.
