(* ===== verification/Wal.v ===== *)
(** [src/wal.cpp]: the agent's write-ahead log.

    The log is the bytes of its file and whether [fp_] is open.  A record is a
    length, a CRC-32 and the data, the two [uint32_t] in the machine's
    (little-endian) order.  [fopen], [stat] and the writes answer as arguments:
    each may fail, and an [append] may leave any prefix of its record. *)
From S2P Require Import Prelude PyStr PyVal.
From Stdlib Require Import Ascii.

Local Open Scope string_scope.
Local Open Scope Z_scope.

(** ** CRC-32 *)

(** [(c & 1) ? (0xEDB88320 ^ (c >> 1)) : (c >> 1)] *)
Definition POLY : Z := 0xEDB88320.
Definition crc_step (c : Z) : Z :=
  if Z.land c 1 =? 0 then Z.shiftr c 1 else Z.lxor POLY (Z.shiftr c 1).

(** [init_crc32_table] *)
Definition crc32_table : list Z := (fun i => Nat.iter 8 crc_step (Z.of_nat i)) <$> seq 0 256.

(** [c = crc32_table[(c ^ buf[i]) & 0xFF] ^ (c >> 8)] *)
Definition crc_byte (c : Z) (b : ascii) : Z :=
  Z.lxor (nth (Z.to_nat (Z.land (Z.lxor c (byte b)) 0xFF)) crc32_table 0) (Z.shiftr c 8).

Fixpoint crc_loop (c : Z) (s : string) : Z :=
  match s with
  | EmptyString => c
  | String b s' => crc_loop (crc_byte c b) s'
  end.

Definition crc32 (s : string) : Z := Z.lxor (crc_loop 0xFFFFFFFF s) 0xFFFFFFFF.

(** ** Records *)

(** The bytes of a [uint32_t]. *)
Definition le32 (n : Z) : string :=
  String (chr (n mod 256)) (String (chr (n / 256 mod 256))
    (String (chr (n / 65536 mod 256)) (String (chr (n / 16777216 mod 256)) ""))).

Definition of_le32 (a b c d : ascii) : Z :=
  byte a + 256 * byte b + 65536 * byte c + 16777216 * byte d.

(** [static_cast<uint32_t>(data.size())] *)
Definition len32 (data : string) : Z := Z.of_nat (String.length data) mod 2 ^ 32.

Definition record (data : string) : string :=
  le32 (len32 data) +:+ le32 (crc32 data) +:+ take_str (Z.to_nat (len32 data)) data.

(** ** The log *)

(** [contents]: the bytes of the file, none when there is no file; [opened]:
    [fp_] is not null. *)
Record log_file := Log { contents : string; opened : bool }.

(** [WAL::WAL]: [ab] is whether [fopen(path, "ab+")] gives a file. *)
Definition open_wal (ab : bool) (bytes : string) : log_file :=
  {| contents := bytes; opened := ab |}.

(** The answers around one [append]: does the [stat] of [file_size] work, do
    the three [fwrite] calls report success, and how many bytes of the record
    are in the file after the [fflush], whose result is not looked at; [None] is
    all of them. *)
Record disk := DiskSays { stat_ok : bool; fwrite_ok : bool; landed : option nat }.

Definition reached (d : disk) (bytes : string) : string :=
  match landed d with Some n => take_str n bytes | None => bytes end.

Definition append (d : disk) (data : string) (w : log_file) : bool * log_file :=
  if negb (opened w) then (false, w)
  else (fwrite_ok d,
        {| contents := contents w +:+ reached d (record data); opened := true |}).

Definition MAX_RECORD : Z := 1024 * 1024.

(** The loop of [read_all]; [fuel] bounds the records, eight bytes each. *)
Fixpoint read_records (fuel : nat) (file : string) : list string :=
  match fuel with
  | O => []
  | S fuel' =>
    match file with
    | String l0 (String l1 (String l2 (String l3
        (String c0 (String c1 (String c2 (String c3 rest))))))) =>
      let len := of_le32 l0 l1 l2 l3 in
      let checksum := of_le32 c0 c1 c2 c3 in
      if MAX_RECORD <? len then []
      else if Z.of_nat (String.length rest) <? len then []
      else
        let data := take_str (Z.to_nat len) rest in
        if crc32 data =? checksum
        then data :: read_records fuel' (drop_str (Z.to_nat len) rest)
        else []
    | _ => []
    end
  end.

(** What a reader finds in a file with these bytes. *)
Definition read_file (file : string) : list string :=
  read_records (S (String.length file)) file.

(** [rb]: does [fopen(path, "rb")] give a file? *)
Definition read_all (rb : bool) (w : log_file) : list string :=
  if rb then read_file (contents w) else [].

(** [wb]: does [fopen(path, "wb")], which empties the file, give one?  [ab]: and
    then [fopen(path, "ab+")]?  After a failure [fp_] is null. *)
Definition truncate (wb ab : bool) (w : log_file) : log_file :=
  if wb then {| contents := ""; opened := ab |}
  else {| contents := contents w; opened := false |}.

(** [ok]: does [stat] work? *)
Definition file_size (ok : bool) (w : log_file) : Z :=
  if ok then Z.of_nat (String.length (contents w)) else 0.

(** ** Specification *)

(** The log that holds these records. *)
Definition wal_of (rs : list string) : string := foldr (fun r s => record r +:+ s) "" rs.

(** The records that are whole within the first [n] bytes of their log. *)
Fixpoint whole (n : nat) (rs : list string) : list string :=
  match rs with
  | [] => []
  | r :: rs' =>
      if (String.length (record r) <=? n)%nat
      then r :: whole (n - String.length (record r)) rs' else []
  end.

(** The disk works: every byte gets into the file. *)
Definition fine : disk := {| stat_ok := true; fwrite_ok := true; landed := None |}.

(** A record [append] writes and [read_all] accepts. *)
Definition fits (data : string) : Prop := Z.of_nat (String.length data) <= MAX_RECORD.

(** The bit-at-a-time CRC. *)
Fixpoint crc_bits (c : Z) (s : string) : Z :=
  match s with
  | EmptyString => c
  | String b s' => crc_bits (Nat.iter 8 crc_step (Z.lxor c (byte b))) s'
  end.

Example crc32_check : crc32 "123456789" = 0xCBF43926.
Proof. vm_compute. reflexivity. Qed.

(** ** Lemmas: the checksum *)

Lemma byte_bound b : 0 <= byte b < 256.
Proof. destruct b as [[] [] [] [] [] [] [] []]; vm_compute; split; congruence. Qed.

Lemma land_1_odd c : (Z.land c 1 =? 0) = negb (Z.odd c).
Proof.
  change 1 with (Z.ones 1) at 1. rewrite Z.land_ones by lia. change (2 ^ 1) with 2. rewrite Zmod_odd. by destruct (Z.odd c).
Qed.

(** A step is linear. *)
Lemma crc_step_lxor a b : crc_step (Z.lxor a b) = Z.lxor (crc_step a) (crc_step b).
Proof.
  unfold crc_step. rewrite !land_1_odd.
  assert (Z.odd (Z.lxor a b) = xorb (Z.odd a) (Z.odd b)) as ->
    by (by rewrite <-!Z.bit0_odd, Z.lxor_spec).
  rewrite Z.shiftr_lxor. set (x := Z.shiftr a 1). set (y := Z.shiftr b 1).
  destruct (Z.odd a), (Z.odd b); cbn [xorb negb]; apply Z.bits_inj'; intros n _;
    rewrite ?Z.lxor_spec; by destruct (Z.testbit POLY n), (Z.testbit x n), (Z.testbit y n).
Qed.

Lemma crc_steps_lxor n a b :
  Nat.iter n crc_step (Z.lxor a b) = Z.lxor (Nat.iter n crc_step a) (Nat.iter n crc_step b).
Proof. induction n as [|n IH]; [done|]. rewrite !Nat.iter_succ, IH. apply crc_step_lxor. Qed.

Lemma crc_steps_shiftl n y : Nat.iter n crc_step (Z.shiftl y (Z.of_nat n)) = y.
Proof.
  induction n as [|n IH]; [by apply Z.shiftl_0_r|]. rewrite Nat.iter_succ_r.
  replace (crc_step (Z.shiftl y (Z.of_nat (S n)))) with (Z.shiftl y (Z.of_nat n)); [done|].
  unfold crc_step. rewrite land_1_odd, <-Z.bit0_odd, Z.shiftl_spec_low by lia. cbn [negb].
  rewrite Z.shiftr_shiftl_l by lia. f_equal. lia.
Qed.

(** A 32-bit value. *)
Definition u32 (c : Z) : Prop := 0 <= c < 2 ^ 32.

Lemma u32_bits c : u32 c <-> 0 <= c /\ forall n, 32 <= n -> Z.testbit c n = false.
Proof.
  unfold u32. split.
  - intros [H0 H]. split; [done|]. intros n Hn. destruct (Z.eq_dec c 0) as [->|]; [apply Z.testbit_0_l|].
    apply Z.bits_above_log2; [done|]. apply Z.lt_le_trans with 32; [|done]. apply Z.log2_lt_pow2; lia.
  - intros [H0 H]. split; [done|]. destruct (Z.eq_dec c 0) as [->|]; [lia|].
    apply Z.log2_lt_pow2; [lia|]. apply Z.nle_gt. intros Hl.
    pose proof (Z.bit_log2 c ltac:(lia)) as Hb. by rewrite H in Hb.
Qed.

Lemma u32_lxor a b : u32 a -> u32 b -> u32 (Z.lxor a b).
Proof.
  rewrite !u32_bits. intros [Ha Ha'] [Hb Hb']. split; [by apply Z.lxor_nonneg|].
  intros n Hn. by rewrite Z.lxor_spec, Ha', Hb'.
Qed.

Lemma u32_shiftr c k : 0 <= k -> u32 c -> u32 (Z.shiftr c k).
Proof.
  intros Hk. rewrite !u32_bits. intros [H0 H]. split; [by apply Z.shiftr_nonneg|].
  intros n Hn. rewrite Z.shiftr_spec by lia. apply H. lia.
Qed.

Lemma u32_byte b : u32 (byte b).
Proof. pose proof (byte_bound b). unfold u32. lia. Qed.

Lemma u32_step c : u32 c -> u32 (crc_step c).
Proof.
  intros H. unfold crc_step. assert (u32 (Z.shiftr c 1)) by (by apply u32_shiftr).
  case_match; [done|]. apply u32_lxor; [|done]. unfold u32, POLY. lia.
Qed.

Lemma u32_steps n c : u32 c -> u32 (Nat.iter n crc_step c).
Proof. intros H. induction n as [|n IH]; [done|]. rewrite Nat.iter_succ. by apply u32_step. Qed.

(** The top bit of a step's result is the bit shifted out, so that a step can
    be undone. *)
Lemma crc_step_inj a b : u32 a -> u32 b -> crc_step a = crc_step b -> a = b.
Proof.
  intros Ha Hb E.
  assert (Htop : forall c, u32 c -> Z.testbit (crc_step c) 31 = Z.odd c).
  { intros c [_ Hc]%u32_bits. unfold crc_step. rewrite land_1_odd.
    assert (Z.testbit (Z.shiftr c 1) 31 = false) as Hs by (rewrite Z.shiftr_spec by lia; by apply Hc).
    destruct (Z.odd c); cbn [negb]; [|done]. by rewrite Z.lxor_spec, Hs. }
  assert (Hodd : Z.odd a = Z.odd b) by (rewrite <-!Htop by done; by rewrite E).
  assert (Hsh : Z.shiftr a 1 = Z.shiftr b 1).
  { unfold crc_step in E. rewrite !land_1_odd, Hodd in E. destruct (Z.odd b); cbn [negb] in E; [|done].
    apply (f_equal (Z.lxor POLY)) in E. by rewrite <-!Z.lxor_assoc, Z.lxor_nilpotent, !Z.lxor_0_l in E. }
  rewrite !Z.shiftr_div_pow2 in Hsh by lia. change (2 ^ 1) with 2 in Hsh.
  rewrite (Z.div_mod a 2), (Z.div_mod b 2), !Zmod_odd, Hodd, Hsh by lia. done.
Qed.

Lemma crc_steps_inj n a b :
  u32 a -> u32 b -> Nat.iter n crc_step a = Nat.iter n crc_step b -> a = b.
Proof.
  intros Ha Hb. induction n as [|n IH]; [done|]. rewrite !Nat.iter_succ.
  intros E%crc_step_inj; [by apply IH|by apply u32_steps..].
Qed.

(** The table holds the eight steps of each byte. *)
Lemma crc32_table_nth i : 0 <= i < 256 -> nth (Z.to_nat i) crc32_table 0 = Nat.iter 8 crc_step i.
Proof.
  intros Hi. unfold crc32_table. rewrite (nth_indep _ 0 (Nat.iter 8 crc_step (Z.of_nat 0))).
  - rewrite (map_nth (fun i => Nat.iter 8 crc_step (Z.of_nat i))), seq_nth by lia. f_equal. lia.
  - rewrite length_fmap, length_seq. lia.
Qed.

Lemma crc_byte_bits c b : crc_byte c b = Nat.iter 8 crc_step (Z.lxor c (byte b)).
Proof.
  unfold crc_byte. set (x := Z.lxor c (byte b)).
  assert (Hs : Z.shiftr c 8 = Z.shiftr x 8).
  { unfold x. rewrite Z.shiftr_lxor, (Z.shiftr_div_pow2 (byte b)) by lia.
    pose proof (byte_bound b). rewrite (Z.div_small (byte b)) by lia. by rewrite Z.lxor_0_r. }
  change 0xFF with (Z.ones 8). rewrite Hs, crc32_table_nth
    by (rewrite Z.land_ones by lia; apply Z.mod_pos_bound; lia).
  assert (Hx : x = Z.lxor (Z.land x (Z.ones 8)) (Z.shiftl (Z.shiftr x 8) 8)).
  { apply Z.bits_inj'. intros n Hn. rewrite Z.lxor_spec, Z.land_spec.
    destruct (Z.lt_ge_cases n 8).
    - rewrite Z.ones_spec_low, Z.shiftl_spec_low, xorb_false_r, andb_true_r by lia. done.
    - rewrite Z.ones_spec_high, Z.shiftl_spec_high, Z.shiftr_spec, andb_false_r by lia.
      simpl. f_equal. lia. }
  rewrite Hx at 3. rewrite crc_steps_lxor. f_equal. symmetry. apply (crc_steps_shiftl 8).
Qed.

Lemma u32_crc_byte c b : u32 c -> u32 (crc_byte c b).
Proof. intros H. rewrite crc_byte_bits. apply u32_steps, u32_lxor; [done|apply u32_byte]. Qed.

Lemma u32_crc_loop s c : u32 c -> u32 (crc_loop c s).
Proof. revert c. induction s as [|b s IH]; intros c H; [done|]. by apply IH, u32_crc_byte. Qed.

Lemma u32_crc32 s : u32 (crc32 s).
Proof. apply u32_lxor; [apply u32_crc_loop|]; unfold u32; lia. Qed.

Lemma lxor_cancel_l a b c : Z.lxor a b = Z.lxor a c -> b = c.
Proof.
  intros H. apply (f_equal (Z.lxor a)) in H.
  by rewrite <-!Z.lxor_assoc, Z.lxor_nilpotent, !Z.lxor_0_l in H.
Qed.

Lemma crc_loop_app c s t : crc_loop c (s +:+ t) = crc_loop (crc_loop c s) t.
Proof. revert c. induction s as [|b s IH]; intros c; [done|]. apply IH. Qed.

(** Two states never meet again on the same bytes. *)
Lemma crc_loop_inj s a b : u32 a -> u32 b -> crc_loop a s = crc_loop b s -> a = b.
Proof.
  revert a b. induction s as [|x s IH]; intros a b Ha Hb; [done|]. cbn [crc_loop].
  intros E%IH; try by apply u32_crc_byte. rewrite !crc_byte_bits in E.
  apply crc_steps_inj in E; [|apply u32_lxor; [done|apply u32_byte]..].
  rewrite (Z.lxor_comm a), (Z.lxor_comm b) in E. by eapply lxor_cancel_l.
Qed.

Lemma byte_inj a b : byte a = byte b -> a = b.
Proof.
  unfold byte. intros H%N2Z.inj. rewrite <-(ascii_N_embedding a), <-(ascii_N_embedding b). by rewrite H.
Qed.

(** The bytes of a string as one number, the first byte lowest. *)
Fixpoint low_first (s : string) : Z :=
  match s with
  | EmptyString => 0
  | String b s' => Z.lxor (byte b) (Z.shiftl (low_first s') 8)
  end.

Lemma iter_add {A} (f : A -> A) m n x : Nat.iter (m + n) f x = Nat.iter m f (Nat.iter n f x).
Proof. induction m as [|m IH]; [done|]. cbn [Nat.add]. by rewrite !Nat.iter_succ, IH. Qed.

(** The whole loop is one division of the message, read as a number. *)
Lemma crc_loop_steps s c :
  crc_loop c s = Nat.iter (8 * String.length s) crc_step (Z.lxor c (low_first s)).
Proof.
  revert c. induction s as [|b s IH]; intros c; cbn [crc_loop low_first String.length].
  { by rewrite Z.lxor_0_r. }
  rewrite IH, crc_byte_bits. replace (8 * S (String.length s))%nat with (8 * String.length s + 8)%nat by lia.
  rewrite iter_add. f_equal. rewrite <-Z.lxor_assoc, (crc_steps_lxor 8 _ (Z.shiftl _ _)). f_equal.
  symmetry. apply (crc_steps_shiftl 8).
Qed.

Lemma low_first_bound s : 0 <= low_first s /\ low_first s < 2 ^ (8 * Z.of_nat (String.length s)).
Proof.
  induction s as [|b s [H0 IH]]; [simpl; lia|]. cbn [low_first String.length].
  assert (Z.lxor (byte b) (Z.shiftl (low_first s) 8) = byte b + low_first s * 2 ^ 8) as ->.
  { rewrite <-Z.shiftl_mul_pow2 by lia. symmetry. apply Z.add_nocarry_lxor. apply Z.bits_inj'. intros n Hn. rewrite Z.land_spec, Z.testbit_0_l.
    pose proof (byte_bound b). destruct (Z.lt_ge_cases n 8); [by rewrite Z.shiftl_spec_low, andb_false_r by lia|].
    replace (Z.testbit (byte b) n) with false; [done|]. symmetry.
    rewrite <-(Z.mod_small (byte b) (2 ^ 8)) by lia. apply Z.mod_pow2_bits_high. lia. }
  pose proof (byte_bound b). rewrite Nat2Z.inj_succ, Z.mul_succ_r, Z.pow_add_r by lia.
  change (2 ^ 8) with 256. revert IH. generalize (2 ^ (8 * Z.of_nat (String.length s))). lia.
Qed.

Lemma low_first_inj s t :
  String.length s = String.length t -> low_first s = low_first t -> s = t.
Proof.
  revert t. induction s as [|a s IH]; intros [|b t]; try done. cbn [low_first String.length].
  intros [= Hl] E. assert (Hmod : forall x y, 0 <= x < 256 -> Z.lxor x (Z.shiftl y 8) mod 2 ^ 8 = x
                          /\ Z.shiftr (Z.lxor x (Z.shiftl y 8)) 8 = y).
  { intros x y Hx. split.
    - apply Z.bits_inj'. intros n Hn. destruct (Z.lt_ge_cases n 8).
      + rewrite Z.mod_pow2_bits_low, Z.lxor_spec, Z.shiftl_spec_low, xorb_false_r by lia. done.
      + rewrite Z.mod_pow2_bits_high by lia. rewrite <-(Z.mod_small x (2 ^ 8)) by lia.
        by rewrite Z.mod_pow2_bits_high by lia.
    - rewrite Z.shiftr_lxor, Z.shiftr_shiftl_l, (Z.shiftr_div_pow2 x) by lia.
      rewrite (Z.div_small x) by lia. by rewrite Z.lxor_0_l, Z.shiftl_0_r. }
  destruct (Hmod (byte a) (low_first s) (byte_bound a)) as [Ha Hs].
  destruct (Hmod (byte b) (low_first t) (byte_bound b)) as [Hb Ht].
  rewrite E in Ha, Hs. f_equal; [apply byte_inj; congruence|]. apply IH; [done|congruence].
Qed.

(** A burst of at most four bytes changes the checksum. *)
Lemma crc32_burst s u v t :
  String.length u = String.length v -> (String.length u <= 4)%nat ->
  crc32 (s +:+ u +:+ t) = crc32 (s +:+ v +:+ t) -> u = v.
Proof.
  intros Hl Hu E. unfold crc32 in E. rewrite !(Z.lxor_comm _ 0xFFFFFFFF) in E.
  apply lxor_cancel_l in E. rewrite !crc_loop_app in E.
  assert (H0 : u32 (crc_loop 0xFFFFFFFF s)) by (apply u32_crc_loop; unfold u32; lia).
  apply crc_loop_inj in E; [|by apply u32_crc_loop..]. rewrite (crc_loop_steps u), (crc_loop_steps v), <-Hl in E.
  assert (Hlow : forall w, (String.length w <= 4)%nat -> u32 (low_first w)).
  { intros w Hw. destruct (low_first_bound w) as [Hlo Hhi]. split; [done|].
    eapply Z.lt_le_trans; [exact Hhi|]. apply Z.pow_le_mono_r; lia. }
  apply crc_steps_inj in E; [|apply u32_lxor; [done|apply Hlow; lia]..].
  apply lxor_cancel_l in E. by apply low_first_inj.
Qed.

(** ** Lemmas: the file *)

Lemma le32_bytes n :
  u32 n -> exists a b c d, le32 n = String a (String b (String c (String d ""))) /\ of_le32 a b c d = n.
Proof.
  intros H. do 4 eexists. split; [done|]. unfold of_le32.
  assert (Hb : forall z, 0 <= z < 256 -> byte (chr z) = z).
  { intros z Hz. unfold byte, chr. rewrite N_ascii_embedding by lia. lia. }
  rewrite !Hb by (apply Z.mod_pos_bound; lia). unfold u32 in H.
  change 65536 with (256 * 256). change 16777216 with (256 * 256 * 256). rewrite <-!Z.div_div by lia.
  pose proof (Z.div_mod n 256 ltac:(lia)). pose proof (Z.div_mod (n / 256) 256 ltac:(lia)).
  pose proof (Z.div_mod (n / 256 / 256) 256 ltac:(lia)).
  rewrite (Z.mod_small (n / 256 / 256 / 256)); [lia|].
  rewrite !Z.div_div by lia. split; [apply Z.div_pos; lia|apply Z.div_lt_upper_bound; lia].
Qed.

Lemma take_str_app n s t :
  take_str n (s +:+ t)
  = if (n <? String.length s)%nat then take_str n s else s +:+ take_str (n - String.length s) t.
Proof.
  revert n. induction s as [|c s IH]; intros [|n]; try done. cbn [String.append take_str String.length].
  rewrite IH. change (S n <? S (String.length s))%nat with (n <? String.length s)%nat.
  by destruct (Nat.ltb_spec n (String.length s)).
Qed.

Lemma length_take_str n s : String.length (take_str n s) = (n `min` String.length s)%nat.
Proof. revert n. induction s as [|c s IH]; intros [|n]; simpl; try done. by rewrite IH. Qed.

Lemma take_str_all n s : (String.length s <= n)%nat -> take_str n s = s.
Proof.
  revert n. induction s as [|c s IH]; intros [|n] H; simpl in *; try done; [lia|]. by rewrite IH by lia.
Qed.

Lemma drop_take_app n s : take_str n s +:+ drop_str n s = s.
Proof. apply take_drop_str. Qed.

Lemma length_le32 n : String.length (le32 n) = 4%nat.
Proof. done. Qed.

Lemma len32_fits data : fits data -> len32 data = Z.of_nat (String.length data).
Proof. unfold fits, len32, MAX_RECORD. intros H. apply Z.mod_small. lia. Qed.

Lemma record_fits data :
  fits data -> record data = le32 (Z.of_nat (String.length data)) +:+ le32 (crc32 data) +:+ data.
Proof. intros H. unfold record. by rewrite len32_fits, Nat2Z.id, take_str_all by done. Qed.

Lemma length_record data : fits data -> String.length (record data) = (8 + String.length data)%nat.
Proof. intros H. by rewrite record_fits. Qed.

(** What [read_all]'s loop does with a header and what follows it. *)
Lemma read_header fuel len crc rest :
  u32 len -> u32 crc ->
  read_records (S fuel) (le32 len +:+ le32 crc +:+ rest)
  = if MAX_RECORD <? len then []
    else if Z.of_nat (String.length rest) <? len then []
    else if crc32 (take_str (Z.to_nat len) rest) =? crc
         then take_str (Z.to_nat len) rest :: read_records fuel (drop_str (Z.to_nat len) rest)
         else [].
Proof.
  intros Hl Hc. destruct (le32_bytes len Hl) as (a & b & c & d & -> & <-).
  destruct (le32_bytes crc Hc) as (e & f & g & h & -> & <-). done.
Qed.

Lemma read_short fuel s : (String.length s < 8)%nat -> read_records fuel s = [].
Proof.
  intros H. destruct fuel as [|fuel]; [done|].
  do 8 (destruct s as [|? s]; [done|]). simpl in H. lia.
Qed.

Lemma u32_length data : fits data -> u32 (Z.of_nat (String.length data)).
Proof. unfold fits, MAX_RECORD, u32. lia. Qed.

(** A whole record is read, whatever follows. *)
Lemma read_record fuel data rest :
  fits data -> read_records (S fuel) (record data +:+ rest) = data :: read_records fuel rest.
Proof.
  intros H. rewrite record_fits, !app_assoc_str, read_header by auto using u32_length, u32_crc32.
  unfold fits in H. rewrite (proj2 (Z.ltb_ge _ _) H), length_app_str, Nat2Z.id.
  rewrite (proj2 (Z.ltb_ge _ _)) by lia. by rewrite take_app, drop_app, Z.eqb_refl.
Qed.

(** A record cut short ends the reading. *)
Lemma read_torn_record fuel data n :
  fits data -> (n < String.length (record data))%nat ->
  read_records fuel (take_str n (record data)) = [].
Proof.
  intros H Hn. destruct (Nat.lt_ge_cases n 8) as [Hs|Hs].
  { apply read_short. rewrite length_take_str. lia. }
  rewrite length_record in Hn by done. rewrite record_fits, !take_str_app, !length_le32 by done.
  destruct (Nat.ltb_spec n 4); [lia|]. destruct (Nat.ltb_spec (n - 4) 4); [lia|].
  destruct fuel as [|fuel]; [done|].
  rewrite read_header by auto using u32_length, u32_crc32. case_match; [done|].
  rewrite (proj2 (Z.ltb_lt _ _)); [done|]. rewrite length_take_str. lia.
Qed.

Lemma read_torn_records rs n fuel :
  Forall fits rs -> (String.length (take_str n (wal_of rs)) < fuel)%nat ->
  read_records fuel (take_str n (wal_of rs)) = whole n rs.
Proof.
  intros H. revert n fuel. induction H as [|r rs Hr _ IH]; intros n fuel Hf.
  { apply read_short. rewrite length_take_str. simpl. lia. }
  cbn [wal_of foldr whole] in *. fold (wal_of rs) in *. rewrite take_str_app in *.
  destruct (Nat.ltb_spec n (String.length (record r))), (Nat.leb_spec (String.length (record r)) n); try lia.
  - by apply read_torn_record.
  - rewrite length_app_str, length_record in Hf by done. destruct fuel as [|fuel]; [lia|].
    rewrite read_record, (length_record r), IH by (done || lia). done.
Qed.

Lemma whole_all rs n : (String.length (wal_of rs) <= n)%nat -> whole n rs = rs.
Proof.
  revert n. induction rs as [|r rs IH]; intros n H; [done|]. cbn [whole wal_of foldr] in *.
  fold (wal_of rs) in *. rewrite length_app_str in H.
  destruct (Nat.leb_spec (String.length (record r)) n); [|lia]. by rewrite IH by lia.
Qed.

Lemma wal_of_app rs rs' : wal_of (rs ++ rs') = wal_of rs +:+ wal_of rs'.
Proof.
  induction rs as [|r rs IH]; [done|]. cbn [wal_of foldr app] in *. unfold wal_of in IH.
  by rewrite IH, app_assoc_str.
Qed.

Lemma wal_of_snoc rs r : wal_of (rs ++ [r]) = wal_of rs +:+ record r.
Proof. rewrite wal_of_app. cbn [wal_of foldr]. by rewrite app_empty_r. Qed.

(** What an [append] leaves in the file when the disk takes all or nothing. *)
Lemma append_contents d data w :
  landed d = None \/ landed d = Some 0%nat ->
  contents (append d data w).2 = contents w \/
  contents (append d data w).2 = contents w +:+ record data.
Proof.
  unfold append, reached. intros [-> | ->]; destruct (opened w); cbn; auto.
  left. by rewrite (app_empty_r (contents w)).
Qed.

Lemma append_fine data w :
  opened w = true ->
  append fine data w = (true, {| contents := contents w +:+ record data; opened := true |}).
Proof. unfold append. by intros ->. Qed.

Lemma append_opened d data w : opened (append d data w).2 = opened w.
Proof. unfold append. by destruct (opened w) eqn:E. Qed.

Lemma record_nonempty data s : s +:+ record data <> s.
Proof.
  intros H. apply (f_equal String.length) in H. revert H. unfold record.
  rewrite !length_app_str, !length_le32. lia.
Qed.

Lemma read_wal rs : Forall fits rs -> read_file (wal_of rs) = rs.
Proof.
  intros H. unfold read_file. rewrite <-(take_str_all (String.length (wal_of rs)) (wal_of rs)) at 2 by done.
  rewrite read_torn_records; [by apply whole_all|done|]. rewrite take_str_all by done. lia.
Qed.

(** Appends to an open log whose disk works. *)
Lemma foldl_append rs rs0 :
  foldl (fun w r => (append fine r w).2) (open_wal true (wal_of rs0)) rs
  = open_wal true (wal_of (rs0 ++ rs)).
Proof.
  revert rs0. induction rs as [|r rs IH]; intros rs0; cbn [foldl]; [by rewrite app_nil_r|].
  rewrite append_fine by done. cbn [snd contents open_wal]. rewrite <-wal_of_snoc.
  etransitivity; [apply IH|]. by rewrite <-app_assoc.
Qed.

(** A damaged record, behind whole ones. *)
Lemma read_damaged rs r u rest :
  Forall fits rs -> fits r -> String.length u = String.length r -> crc32 u <> crc32 r ->
  read_file (wal_of rs +:+ le32 (len32 r) +:+ le32 (crc32 r) +:+ u +:+ rest) = rs.
Proof.
  intros Hrs Hr Hu Hc. unfold read_file. set (file := _ +:+ _).
  assert (Hf : (String.length (wal_of rs) < S (String.length file))%nat).
  { unfold file. rewrite length_app_str. lia. }
  revert Hf. generalize (S (String.length file)). unfold file. clear file. intros fuel Hf.
  revert fuel Hf. induction Hrs as [|r0 rs Hr0 _ IH]; intros fuel Hf.
  - destruct fuel as [|fuel]; [done|]. cbn [wal_of foldr String.append].
    rewrite len32_fits, read_header by auto using u32_length, u32_crc32. case_match; [done|].
    case_match; [done|]. rewrite Nat2Z.id, <-Hu, take_app. by destruct (Z.eqb_spec (crc32 u) (crc32 r)).
  - cbn [wal_of foldr] in *. fold (wal_of rs) in *.
    rewrite length_app_str, length_record in Hf by done. destruct fuel as [|fuel]; [lia|].
    rewrite app_assoc_str, read_record, IH by (done || lia). done.
Qed.

(** ** Properties *)

(** C27. The log survives a crash: of any records of at most 1 MB appended one
    after the other to an open log whose disk works, a file cut off at any byte gives back
    exactly the records that are whole in it, in order; an uncut file gives back
    all of them. *)
Theorem torn_log rs n :
  Forall fits rs ->
  let file := contents (foldl (fun w r => (append fine r w).2) (open_wal true "") rs) in
  forall ab,
  read_all true (open_wal ab (take_str n file)) = whole n rs /\
  ((String.length file <= n)%nat -> read_all true (open_wal ab (take_str n file)) = rs).
Proof.
  intros H file ab. assert (Hf : file = wal_of rs).
  { unfold file. change "" with (wal_of []). by rewrite foldl_append. }
  rewrite Hf. unfold read_all, open_wal. cbn [contents].
  assert (Hr : read_file (take_str n (wal_of rs)) = whole n rs)
    by (apply read_torn_records; [done|lia]).
  split; [done|]. intros Hn. rewrite Hr. by apply whole_all.
Qed.

(** C28. Damage is detected: when a burst of at most four bytes of a record's
    data has changed, [read_all] gives back the records before it and stops,
    whatever follows. *)
Theorem damage_detected rs s u v t rest ab :
  Forall fits rs -> fits (s +:+ u +:+ t) ->
  String.length v = String.length u -> (String.length u <= 4)%nat -> v <> u ->
  let r := s +:+ u +:+ t in
  read_all true (open_wal ab
    (wal_of rs +:+ le32 (len32 r) +:+ le32 (crc32 r) +:+ (s +:+ v +:+ t) +:+ rest)) = rs.
Proof.
  intros Hrs Hr Hl Hu Hne r. apply read_damaged; [done|done|..]; unfold r.
  - by rewrite !length_app_str, Hl.
  - intros E. apply Hne. eapply crc32_burst; [done|lia|exact E].
Qed.

(** The table-driven checksum is the bit-at-a-time CRC-32 of polynomial
    0xEDB88320, on every message. *)
Theorem crc32_table_driven s :
  crc32 s = Z.lxor (crc_bits 0xFFFFFFFF s) 0xFFFFFFFF.
Proof.
  unfold crc32. f_equal. generalize 0xFFFFFFFF. induction s as [|b s IH]; intros c; [done|].
  cbn [crc_loop crc_bits]. by rewrite crc_byte_bits, IH.
Qed.

(** ** Witnesses *)

Lemma torn_log_witness :
  read_all true (open_wal true (take_str 25
    (contents (foldl (fun w r => (append fine r w).2) (open_wal true "") ["first"; "second"]))))
  = ["first"].
Proof.
  destruct (torn_log ["first"; "second"] 25) with (ab := true) as [-> _]; [|reflexivity].
  repeat constructor; vm_compute; discriminate.
Defined.

Lemma damage_detected_witness :
  read_all true (open_wal true
    (wal_of ["first"] +:+ le32 (len32 "second") +:+ le32 (crc32 "second") +:+ "seXond" +:+ "tail"))
  = ["first"].
Proof.
  apply (damage_detected ["first"] "se" "c" "X" "ond" "tail" true); try done;
    repeat constructor; vm_compute; discriminate.
Defined.
