(* ===== verification/Agent.v ===== *)
(** The agent's daemon, [src/main.cpp] with [include/common.h] and
    [src/kafka_producer.cpp]: from a kernel event to a Kafka record or the
    write-ahead log.

    [handle_event] is the ring buffer's callback; [sender] is what stands
    between an event's text and the broker's acknowledgement: librdkafka's
    queue, the delivery reports and the log.  librdkafka decides whether a
    message is queued and whether a queued one is delivered; the disk decides
    what of a record gets into the log ([Wal.v]), and the code ignores what
    [append] returns. *)
From S2P Require Import Prelude PyStr PyVal Effects Semantics Redis Sim Consumer ConsumerMain Session EventText Debouncer Wal.
From Stdlib Require Import Ascii.

Local Open Scope string_scope.
Local Open Scope Z_scope.
#[local] Set Warnings "-clear-no-such-hyp".

(** ** Kernel events *)

Definition EVENT_RENAME_FROM : Z := 2.
Definition EVENT_RENAME_TO : Z := 3.

(** [struct file_event]: the names of the path's components, the leaf first;
    [depth] says how many. *)
Record raw_event := Raw {
  event_type : Z;
  depth : nat;
  names : list string
}.

(** The loop of [build_path], from component [i - 1] down. *)
Fixpoint build_from (ns : list string) (i : nat) : string :=
  match i with
  | O => ""
  | S i' => "/" +:+ nth i' ns "" +:+ build_from ns i'
  end.

Definition build_path (evt : raw_event) : string :=
  let path := build_from (names evt) (depth evt) in
  if String.eqb path "" then "/" else path.

(** ** [handle_event] *)

Record EventCtx := {
  debouncer : gmap string Entry;
  pending_rename_from : string;
  has_pending_rename : bool
}.

Definition start_ctx : EventCtx :=
  {| debouncer := ∅; pending_rename_from := ""; has_pending_rename := false |}.

(** The callback of the debouncer: [type_str]. *)
Definition fs_event_of (pt : string * Z) : fs_event :=
  if pt.2 =? EVENT_DELETE then FsDelete pt.1 else FsMtime pt.1.

Section Events.
Context (traversal : gmap string Entry -> list (string * Entry)).
Context (watch_prefix : string) (quiet_period max_wait : Z).

Definition set_rename (from : string) (b : bool) (c : EventCtx) : EventCtx :=
  {| debouncer := debouncer c; pending_rename_from := from; has_pending_rename := b |}.
Definition set_debouncer (m : gmap string Entry) (c : EventCtx) : EventCtx :=
  {| debouncer := m; pending_rename_from := pending_rename_from c;
     has_pending_rename := has_pending_rename c |}.

(** [p.compare(0, watch_prefix.size(), watch_prefix) == 0] *)
Definition watched (p : string) : bool := startswith p watch_prefix.

Definition handle_event (now : Z) (evt : raw_event) (c : EventCtx) : EventCtx * list fs_event :=
  let path := build_path evt in
  if event_type evt =? EVENT_RENAME_FROM then (set_rename path true c, [])
  else if event_type evt =? EVENT_RENAME_TO then
    if has_pending_rename c then
      let old := pending_rename_from c in
      (set_rename old false c,
       if watched old || watched path then [FsRename old path] else [])
    else (c, [])
  else
    let c := set_rename (pending_rename_from c) false c in
    if negb (watched path) then (c, [])
    else
      let '(m, out) := on_event max_wait now path (event_type evt) (debouncer c) in
      (set_debouncer m c, fs_event_of <$> out).

(** [debouncer.tick()] and [debouncer.flush_all()], as [main] calls them. *)
Definition agent_tick (now : Z) (c : EventCtx) : EventCtx * list fs_event :=
  let '(m, out) := tick traversal quiet_period now (debouncer c) in
  (set_debouncer m c, fs_event_of <$> out).

Definition agent_flush (c : EventCtx) : EventCtx * list fs_event :=
  let '(m, out) := flush_all traversal (debouncer c) in
  (set_debouncer m c, fs_event_of <$> out).

Fixpoint handle_all (evts : list (Z * raw_event)) (c : EventCtx) : EventCtx * list fs_event :=
  match evts with
  | [] => (c, [])
  | (now, evt) :: evts' =>
      let '(c1, out) := handle_event now evt c in
      let '(c2, outs) := handle_all evts' c1 in (c2, out ++ outs)%list
  end.

(** ** Specification: file-system operations *)

(** An operation on one path, or a rename; the kernel reports a rename as two
    events. *)
Inductive operation : Type :=
| OnPath (evt : raw_event)
| Rename (from to : raw_event).

Definition proper (op : operation) : Prop :=
  match op with
  | OnPath evt => event_type evt <> EVENT_RENAME_FROM /\ event_type evt <> EVENT_RENAME_TO
  | Rename from to => event_type from = EVENT_RENAME_FROM /\ event_type to = EVENT_RENAME_TO
  end.

Definition kernel_events (op : Z * operation) : list (Z * raw_event) :=
  match op.2 with
  | OnPath evt => [(op.1, evt)]
  | Rename from to => [(op.1, from); (op.1, to)]
  end.

(** What an operation does to the debouncer, and what is sent for it. *)
Definition perform (op : Z * operation) (m : gmap string Entry) : gmap string Entry * list fs_event :=
  match op.2 with
  | OnPath evt =>
      if watched (build_path evt) then
        let '(m', out) := on_event max_wait op.1 (build_path evt) (event_type evt) m in
        (m', fs_event_of <$> out)
      else (m, [])
  | Rename from to =>
      (m, if watched (build_path from) || watched (build_path to)
          then [FsRename (build_path from) (build_path to)] else [])
  end.

Fixpoint perform_all (ops : list (Z * operation)) (m : gmap string Entry)
    : gmap string Entry * list fs_event :=
  match ops with
  | [] => (m, [])
  | op :: ops' =>
      let '(m1, out) := perform op m in
      let '(m2, outs) := perform_all ops' m1 in (m2, out ++ outs)%list
  end.
End Events.

(** ** The way to the broker *)

Record sender := {
  queue : list string;        (* in librdkafka, no delivery report yet *)
  wal : log_file;             (* the log *)
  acked : list string;        (* delivered to the broker *)
  dropped : list string;      (* "WAL size limit reached" *)
  lost : list string;         (* history: given to [append], not in the file *)
  copied : list string;       (* history: read for a replay, still in the file *)
  kafka_sent : Z;
  kafka_failed : Z;
  wal_replayed : Z
}.

Definition with_log (w : log_file) (gone kept : list string) (s : sender) : sender :=
  {| queue := queue s; wal := w; acked := acked s; dropped := dropped s; lost := lost s ++ gone;
     copied := copied s ++ kept; kafka_sent := kafka_sent s; kafka_failed := kafka_failed s;
     wal_replayed := wal_replayed s |}.
Definition with_dropped (json : string) (s : sender) : sender :=
  {| queue := queue s; wal := wal s; acked := acked s; dropped := dropped s ++ [json]; lost := lost s;
     copied := copied s; kafka_sent := kafka_sent s; kafka_failed := kafka_failed s;
     wal_replayed := wal_replayed s |}.
Definition with_queue (q acks : list string) (s : sender) : sender :=
  {| queue := q; wal := wal s; acked := acked s ++ acks; dropped := dropped s; lost := lost s;
     copied := copied s; kafka_sent := kafka_sent s; kafka_failed := kafka_failed s;
     wal_replayed := wal_replayed s |}.
Definition count (sent failed replayed : Z) (s : sender) : sender :=
  {| queue := queue s; wal := wal s; acked := acked s; dropped := dropped s; lost := lost s;
     copied := copied s; kafka_sent := kafka_sent s + sent; kafka_failed := kafka_failed s + failed;
     wal_replayed := wal_replayed s + replayed |}.

(** The answers to one [send]: does [rd_kafka_produce] take the message, and
    what does the disk do if not? *)
Abbreviation answer := (bool * disk)%type.

Definition taken : answer := (true, fine).
Definition refused : answer := (false, fine).

(** The answers around a replay: the [stat] before it, [fopen] for reading, and
    the two of [truncate]. *)
Record reopen := Reopen {
  size_ok : bool; read_ok : bool; wipe_ok : bool; append_ok : bool
}.

Definition reopened : reopen := {| size_ok := true; read_ok := true; wipe_ok := true; append_ok := true |}.

Section Sender.
Context (wal_max_bytes : Z).

(** The [on_fail] callback given to the producer.  What [append] returns is not
    used; [lost] notes whether the whole record has come into the file. *)
Definition on_fail (d : disk) (json : string) (s : sender) : sender :=
  let s := count 0 1 0 s in
  if file_size (stat_ok d) (wal s) <? wal_max_bytes then
    let '(_, w) := append d json (wal s) in
    with_log w (if String.eqb (contents w) (contents (wal s) +:+ record json) then [] else [json]) [] s
  else with_dropped json s.

(** [KafkaProducer::send] *)
Definition send (a : answer) (json : string) (s : sender) : bool * sender :=
  if a.1 then (true, with_queue (queue s ++ [json]) [] s)
  else (false, on_fail a.2 json s).

(** [if (kafka.send(json, hostname)) kafka_sent++;] *)
Definition send_event (a : answer) (json : string) (s : sender) : sender :=
  let '(ok, s) := send a json s in
  if ok then count 1 0 0 s else s.

(** [dr_msg_cb], for the [i]-th queued message. *)
Definition dr_msg_cb (i : nat) (delivered : bool) (d : disk) (s : sender) : sender :=
  match queue s !! i with
  | None => s
  | Some json =>
      let s := with_queue (delete i (queue s)) (if delivered then [json] else []) s in
      if delivered then s else on_fail d json s
  end.

(** [for (auto& json : records) { kafka.send(json, hostname); wal_replayed++; }];
    there are answers for each record, and a missing one is [refused]. *)
Fixpoint resend (records : list string) (answers : list answer) (s : sender) : sender :=
  match records with
  | [] => s
  | json :: rest =>
      resend rest (tail answers)
        (count 0 0 1 (send (default refused (head answers)) json s).2)
  end.

(** The replay at the start and every thirty seconds. *)
Definition replay (r : reopen) (answers : list answer) (s : sender) : sender :=
  match read_all (read_ok r) (wal s) with
  | [] => s
  | records =>
      resend records answers
        (with_log (truncate (wipe_ok r) (append_ok r) (wal s)) [] (if wipe_ok r then [] else records) s)
  end.

(** What the disk may do: [stat] works and a record gets into the file whole or
    not at all; if it [works], whole. *)
Definition steady (works : bool) (d : disk) : Prop :=
  stat_ok d = true /\ (landed d = None \/ works = false /\ landed d = Some 0%nat).

Definition reopens (works : bool) (r : reopen) : Prop := works = true -> wipe_ok r = true /\ append_ok r = true.

(** What can happen while the agent runs; the label is the text it is given. *)
Inductive sender_step (works : bool) : option string -> sender -> sender -> Prop :=
| step_send a json s :
    fits json -> steady works a.2 -> sender_step works (Some json) s (send_event a json s)
| step_report i delivered d s :
    steady works d -> sender_step works None s (dr_msg_cb i delivered d s)
| step_replay r answers s :
    reopens works r -> Forall (fun a => steady works a.2) answers ->
    sender_step works None s (replay r answers s).

(** A run from a state, with the texts given. *)
Inductive sender_run (works : bool) (s0 : sender) : list string -> sender -> Prop :=
| run_start : sender_run works s0 [] s0
| run_step given l s s' :
    sender_run works s0 given s -> sender_step works l s s' ->
    sender_run works s0 (given ++ option_list l) s'.
End Sender.

(** The whole records of the log's file. *)
Definition logged (s : sender) : list string := read_file (contents (wal s)).

(** An agent that starts on a log. *)
Definition start_sender (log : log_file) : sender :=
  {| queue := []; wal := log; acked := []; dropped := []; lost := []; copied := [];
     kafka_sent := 0; kafka_failed := 0; wal_replayed := 0 |}.

(** The machine goes down and the agent is started again: what librdkafka holds
    is gone. *)
Definition crash (s : sender) : sender := start_sender (open_wal true (contents (wal s))).

(** ** Lemmas *)

Definition slash : ascii := "/"%char.

Lemma build_from_head ns i : build_from ns (S i) = String slash (nth i ns "" +:+ build_from ns i).
Proof. done. Qed.

Lemma split_build ns i :
  (i <= length ns)%nat -> Forall (fun n => lacks slash n = true) (take i ns) ->
  split slash (build_from ns i) = "" :: rev (take i ns).
Proof.
  induction i as [|i IH]; [done|]. intros Hi Hl.
  destruct (lookup_lt_is_Some_2 ns i ltac:(lia)) as [n Hn].
  rewrite (take_S_r _ _ n) in * by done. apply Forall_app in Hl as [Hl Hn'%Forall_inv].
  rewrite rev_unit, build_from_head. rewrite (nth_lookup_Some _ _ _ _ Hn).
  specialize (IH ltac:(lia) Hl). cbn [split]. change (Ascii.eqb slash slash) with true. cbv iota. f_equal.
  destruct i as [|i].
  - rewrite app_empty_r. by apply split_lacks.
  - rewrite build_from_head in *. rewrite split_app_sep by done. cbn [split] in IH.
    change (Ascii.eqb slash slash) with true in IH. cbv iota in IH. congruence.
Qed.

Lemma handle_all_app prefix max_wait l l' c :
  handle_all prefix max_wait (l ++ l') c
  = ((handle_all prefix max_wait l' (handle_all prefix max_wait l c).1).1,
     (handle_all prefix max_wait l c).2
     ++ (handle_all prefix max_wait l' (handle_all prefix max_wait l c).1).2)%list.
Proof.
  revert c. induction l as [|[now evt] l IH]; intros c; cbn [handle_all app].
  { cbn [fst snd app]. by destruct (handle_all prefix max_wait l' c). }
  destruct (handle_event prefix max_wait now evt c) as [c1 out]. rewrite IH.
  destruct (handle_all prefix max_wait l c1) as [c2 outs]. cbn [fst snd]. by rewrite app_assoc.
Qed.

(** The events of one operation. *)
Lemma handle_operation prefix max_wait op c :
  proper op.2 -> has_pending_rename c = false ->
  let '(c', sent) := handle_all prefix max_wait (kernel_events op) c in
  (debouncer c', sent) = perform prefix max_wait op (debouncer c) /\ has_pending_rename c' = false.
Proof.
  destruct op as [now [evt|from to]]; intros [H2 H3] Hc; unfold kernel_events, perform;
    cbn [snd fst handle_all]; unfold handle_event.
  - destruct (Z.eqb_spec (event_type evt) EVENT_RENAME_FROM); [done|].
    destruct (Z.eqb_spec (event_type evt) EVENT_RENAME_TO); [done|].
    destruct (watched prefix (build_path evt)); [|done]. cbn [negb debouncer set_rename].
    destruct (on_event max_wait now (build_path evt) (event_type evt) (debouncer c)) as [m out].
    by rewrite app_nil_r.
  - rewrite H2, H3. simpl. by rewrite app_nil_r.
Qed.

Section Sending.
Context (wal_max_bytes : Z) (log0 : list string) (works opened0 : bool).

(** Every text given, and every copy a replay made, but for those in hand, is in
    exactly one place; the log is well formed and bounded; nothing is lost or
    copied while the disk works. *)
Definition placed (in_hand given : list string) (s : sender) : Prop :=
  exists rs, contents (wal s) = wal_of rs /\ Forall fits (in_hand ++ queue s ++ rs) /\
  log0 ++ given ++ copied s ≡ₚ in_hand ++ acked s ++ queue s ++ rs ++ dropped s ++ lost s /\
  file_size true (wal s)
    <= Z.max (Z.of_nat (String.length (wal_of log0))) (wal_max_bytes + 8 + MAX_RECORD) /\
  (works = true -> opened0 = true -> opened (wal s) = true /\ lost s = [] /\ copied s = []).

(** Counters do not matter. *)
Lemma count_placed a b c hand given s : placed hand given s -> placed hand given (count a b c s).
Proof. done. Qed.

Lemma on_fail_placed d json hand given s :
  steady works d -> placed (json :: hand) given s -> placed hand given (on_fail wal_max_bytes d json s).
Proof.
  intros [Hst Hd] (rs & Hw & Hf & Hp & Hb & Hg). unfold on_fail. cbn [app wal count] in *. rewrite Hst.
  apply Forall_cons in Hf as [Hj Hf]. destruct (Z.ltb_spec (file_size true (wal s)) wal_max_bytes) as [Hlt|_].
  2: { exists rs. do 2 (split; [done|]). cbn. split; [|done]. rewrite Hp. solve_Permutation. }
  pose proof (append_contents d json (wal s) ltac:(tauto)) as Hc.
  pose proof (append_opened d json (wal s)) as Ho.
  pose proof (append_fine json (wal s)) as Hfine.
  destruct (append d json (wal s)) as [ok w] eqn:E. cbn [snd] in *.
  assert (Hall : works = true -> opened0 = true ->
    contents w = contents (wal s) +:+ record json /\ opened (wal s) = true).
  { intros Hx Hy. destruct (Hg Hx Hy) as [Hop _]. split; [|done]. destruct Hd as [Hd|[? _]]; [|congruence].
    revert E. unfold append, reached. rewrite Hop, Hd. by intros [= _ <-]. }
  destruct Hc as [Hc|Hc]; rewrite Hc.
  - rewrite (proj2 (String.eqb_neq _ _)) by (intros H; by apply eq_sym, record_nonempty in H).
    exists rs. cbn. unfold file_size in *. rewrite app_nil_r, Hc. split; [done|]. split; [done|].
    split; [|split; [done|]].
    + rewrite Hp. solve_Permutation.
    + intros Hx Hy. destruct (Hall Hx Hy) as [Ha _]. rewrite Hc in Ha. by apply eq_sym, record_nonempty in Ha.
  - rewrite String.eqb_refl. exists (rs ++ [json])%list. cbn. unfold file_size in *. rewrite !app_nil_r, Hc.
    rewrite Hw, wal_of_snoc in *. split; [done|]. split; [|split; [|split]].
    + rewrite !app_assoc in *. apply Forall_app. by split; [|constructor].
    + rewrite Hp. solve_Permutation.
    + rewrite length_app_str, length_record by done. unfold fits in Hj. lia.
    + intros Hx Hy. rewrite Ho. by apply Hg.
Qed.

Lemma send_placed a json hand given s :
  steady works a.2 -> placed (json :: hand) given s ->
  placed hand given (send wal_max_bytes a json s).2.
Proof.
  intros Hd. unfold send. destruct a as [[|] d]; cbn [fst snd] in *; [|by apply on_fail_placed].
  intros (rs & Hw & Hf & Hp & Hb & Hg). exists rs. cbn. rewrite app_nil_r. split; [done|].
  split; [|split; [|done]].
  - eapply Forall_Permutation; [by intros ?| |exact Hf]. solve_Permutation.
  - rewrite Hp. solve_Permutation.
Qed.

Lemma send_event_placed a json given s :
  fits json -> steady works a.2 -> placed [] given s ->
  placed [] (given ++ [json]) (send_event wal_max_bytes a json s).
Proof.
  intros Hj Hd (rs & Hw & Hf & Hp & Hb & Hg). assert (H : placed [json] (given ++ [json]) s).
  { exists rs. split; [done|]. split; [by constructor|]. split; [|done].
    cbn [app] in *. rewrite <-Hp. solve_Permutation. }
  apply (send_placed a) in H; [|done]. unfold send_event.
  destruct (send wal_max_bytes a json s) as [ok s']. destruct ok; [|done]. by apply count_placed.
Qed.

(** A delivery report takes the message out of the queue. *)
Lemma report_placed i delivered d given s :
  steady works d -> placed [] given s -> placed [] given (dr_msg_cb wal_max_bytes i delivered d s).
Proof.
  intros Hd (rs & Hw & Hf & Hp & Hb & Hg). unfold dr_msg_cb.
  destruct (queue s !! i) as [json|] eqn:E; [|by exists rs].
  pose proof (delete_Permutation _ _ _ E) as Hq. remember (delete i (queue s)) as q'.
  rewrite Hq in Hf, Hp. cbv zeta. destruct delivered; [|apply on_fail_placed; [done|]];
    (exists rs; cbn; split; [done|]; split; [|split; [|done]]).
  - by apply Forall_cons in Hf as [_ Hf].
  - rewrite Hp. solve_Permutation.
  - done.
  - rewrite Hp. solve_Permutation.
Qed.

Lemma resend_placed records answers given s :
  Forall (fun a => steady works a.2) answers ->
  placed records given s -> placed [] given (resend wal_max_bytes records answers s).
Proof.
  intros Ha. revert answers Ha s. induction records as [|json rest IH]; intros answers Ha s H; [done|].
  cbn [resend]. apply IH; [by apply Forall_tail|]. apply count_placed, send_placed; [|done].
  destruct Ha as [|a answers Ha _]; [|done]. by split; [|left].
Qed.

Lemma replay_placed r answers given s :
  reopens works r -> Forall (fun a => steady works a.2) answers ->
  placed [] given s -> placed [] given (replay wal_max_bytes r answers s).
Proof.
  intros Hr Ha Hs. pose proof Hs as (rs & Hw & Hf & Hp & Hb & Hg). unfold replay, read_all. cbn [app] in Hf.
  apply Forall_app in Hf as [Hq Hrs]. destruct (read_ok r); [|exact Hs].
  rewrite Hw, read_wal by done. destruct rs as [|x rs]; [exact Hs|].
  remember (x :: rs) as records eqn:Er.
  replace (match records with [] => s | _ :: _ => _ end) with
    (resend wal_max_bytes records answers
       (with_log (truncate (wipe_ok r) (append_ok r) (wal s)) [] (if wipe_ok r then [] else records) s))
    by (by rewrite Er).
  apply resend_placed; [done|]. unfold truncate. destruct (wipe_ok r) eqn:Ew.
  - exists []. cbn. rewrite !app_nil_r. split; [done|]. split; [by apply Forall_app|].
    split; [rewrite Hp; solve_Permutation|]. split; [unfold file_size; cbn; lia|].
    intros Hx Hy. split; [by apply Hr|]. by apply Hg.
  - exists records. cbn. rewrite app_nil_r. split; [done|].
    split; [apply Forall_app; split; [done|]; by apply Forall_app|].
    split; [|split; [done|]].
    + rewrite !app_assoc, <-(app_assoc log0), Hp. solve_Permutation.
    + intros Hx Hy. destruct (Hr Hx). congruence.
Qed.

Lemma sender_run_placed given s :
  Forall fits log0 ->
  sender_run wal_max_bytes works (start_sender (open_wal opened0 (wal_of log0))) given s ->
  placed [] given s.
Proof.
  intros H0. induction 1 as [|given l s s' _ IH Hs].
  { exists log0. cbn. rewrite !app_nil_r. do 3 (split; [done|]). split; [unfold file_size; cbn; lia|done]. }
  destruct Hs as [a json s Hj Hd|i delivered d s Hd|r answers s Hr Ha]; cbn [option_list option_rect].
  - by apply send_event_placed.
  - rewrite app_nil_r. by apply report_placed.
  - rewrite app_nil_r. by apply replay_placed.
Qed.

(** The promise. *)
Definition conserved (given : list string) (s : sender) : Prop :=
  log0 ++ given ++ copied s ≡ₚ acked s ++ queue s ++ logged s ++ dropped s ++ lost s /\
  file_size true (wal s)
    <= Z.max (Z.of_nat (String.length (wal_of log0))) (wal_max_bytes + 8 + MAX_RECORD) /\
  (works = true -> opened0 = true -> lost s = [] /\ copied s = []).

Lemma placed_conserves given s : placed [] given s -> conserved given s.
Proof.
  intros (rs & Hw & Hf & Hp & Hb & Hg). cbn [app] in Hf. apply Forall_app in Hf as [_ Hrs].
  unfold conserved, logged. rewrite Hw, read_wal by done. split; [done|]. split; [done|].
  intros Hx Hy. by apply Hg.
Qed.
End Sending.

(** *** A log that cannot be opened *)

Definition unopened (s : sender) : Prop :=
  opened (wal s) = false /\ contents (wal s) = "" /\ dropped s = [] /\ copied s = [].

Lemma on_fail_unopened wal_max_bytes d json s :
  0 < wal_max_bytes -> unopened s -> unopened (on_fail wal_max_bytes d json s).
Proof.
  intros Hm (Ho & Hc & Hd & Hk). unfold on_fail, append, unopened. cbn [wal count].
  unfold file_size. rewrite Ho, Hc. cbn [negb String.length Z.of_nat].
  rewrite (proj2 (Z.ltb_lt _ _)) by (by destruct (stat_ok d)). rewrite Hc. cbn. rewrite Hk. done.
Qed.

Lemma send_unopened wal_max_bytes a json s :
  0 < wal_max_bytes -> unopened s -> unopened (send wal_max_bytes a json s).2.
Proof. intros Hm H. unfold send. destruct a as [[|] d]; [exact H|by apply on_fail_unopened]. Qed.

(** No step opens it: [truncate] is only called when there are records. *)
Lemma unopened_step wal_max_bytes works l s s' :
  0 < wal_max_bytes -> unopened s -> sender_step wal_max_bytes works l s s' -> unopened s'.
Proof.
  intros Hm H Hs. destruct Hs as [a json s _ _|i delivered d s _|r answers s _ _].
  - pose proof (send_unopened wal_max_bytes a json s Hm H) as H1. unfold send_event.
    destruct (send wal_max_bytes a json s) as [ok s1]. by destruct ok.
  - unfold dr_msg_cb. destruct (queue s !! i); [|done]. destruct delivered; [exact H|].
    by apply on_fail_unopened.
  - unfold replay, read_all. pose proof H as (_ & Hc & _). rewrite Hc. by destruct (read_ok r).
Qed.

Lemma unopened_run wal_max_bytes works s0 given s :
  0 < wal_max_bytes -> unopened s0 -> sender_run wal_max_bytes works s0 given s -> unopened s.
Proof. intros Hm H0. induction 1; [done|]. by eapply unopened_step. Qed.

(** ** Properties *)

(** [build_path] puts the components of a kernel event back in order: the
    path is absolute, and its parts are the event's names from the root down. *)
Theorem build_path_components evt :
  (0 < depth evt <= length (names evt))%nat ->
  Forall (fun n => lacks slash n = true) (take (depth evt) (names evt)) ->
  split slash (build_path evt) = "" :: rev (take (depth evt) (names evt)).
Proof.
  intros Hd Hl. unfold build_path. destruct (depth evt) as [|i] eqn:E; [lia|].
  rewrite build_from_head. cbn [String.eqb]. rewrite <-build_from_head. apply split_build; [lia|done].
Qed.

(** C29. Rename pairing: when the two events of each rename arrive one after the
    other, [handle_event] sends, for any sequence of operations, exactly the
    watched renames with both their paths, hands exactly the watched deletions
    and changes to the debouncer, and leaves no half rename behind. *)
Theorem renames_paired prefix max_wait ops c :
  Forall (fun op => proper op.2) ops -> has_pending_rename c = false ->
  let '(c', sent) := handle_all prefix max_wait (ops ≫= kernel_events) c in
  (debouncer c', sent) = perform_all prefix max_wait ops (debouncer c) /\
  has_pending_rename c' = false.
Proof.
  intros Hops. revert c. induction Hops as [|op ops Hop _ IH]; intros c Hc; [done|].
  rewrite bind_cons, handle_all_app. cbn [perform_all].
  pose proof (handle_operation prefix max_wait op c Hop Hc) as H1.
  destruct (handle_all prefix max_wait (kernel_events op) c) as [c1 out].
  destruct H1 as [<- Hc1]. cbn [fst snd].
  specialize (IH c1 Hc1). destruct (handle_all prefix max_wait (ops ≫= kernel_events) c1) as [c2 outs].
  destruct IH as [<- Hc2]. done.
Qed.

(** C12. What becomes of each event text between [send_event] and the broker
    while the agent runs.  Started on a log of whole records, open or not, with
    every [stat] working and every record written whole or not at all, whatever
    else librdkafka and the disk accept, refuse or fail and however often the log
    is replayed: the texts of the log, the texts given since (of at most 1 MB each), and
    those that a replay read and could not remove from the file, are together exactly the
    texts acknowledged, in librdkafka's queue, whole records of the log, dropped
    at the size limit, or lost because [append] could not write them.  The log
    outgrows its limit by at most one record, unless it was longer from the
    start.  If the log could be opened, and each record gets into it and each
    [truncate] works, no text is lost and none is copied. *)
Theorem sender_conserves wal_max_bytes log0 works opened0 given s :
  Forall fits log0 ->
  sender_run wal_max_bytes works (start_sender (open_wal opened0 (wal_of log0))) given s ->
  log0 ++ given ++ copied s ≡ₚ acked s ++ queue s ++ logged s ++ dropped s ++ lost s /\
  file_size true (wal s)
    <= Z.max (Z.of_nat (String.length (wal_of log0))) (wal_max_bytes + 8 + MAX_RECORD) /\
  (works = true -> opened0 = true -> lost s = [] /\ copied s = []).
Proof.
  intros H0 H. eapply placed_conserves, sender_run_placed; done.
Qed.

(** ** Where the promises stop *)

(** Two renames whose events interleave, as those of two CPUs do in the one
    ring buffer, are paired wrongly: a rename that never happened is sent and
    the two that did are not. *)
Theorem interleaved_renames_mispaired :
  let evt ty name := Raw ty 2 [name; "home"] in
  (handle_all "/home" 100 [(0, evt EVENT_RENAME_FROM "a"); (0, evt EVENT_RENAME_FROM "x");
                           (0, evt EVENT_RENAME_TO "b"); (0, evt EVENT_RENAME_TO "y")] start_ctx).2
  = [FsRename "/home/x" "/home/b"].
Proof. reflexivity. Qed.

(** A replay empties the log before the broker has its records: a crash right
    after it loses them. *)
Theorem replay_before_delivery json :
  fits json ->
  let s := crash (replay 1000 reopened [taken] (start_sender (open_wal true (wal_of [json])))) in
  logged s = [] /\ queue s = [] /\ acked s = [].
Proof.
  intros H. unfold replay, read_all. cbn [read_ok reopened wal start_sender contents open_wal].
  rewrite read_wal by (by constructor). done.
Qed.

(** A log that starts with a record cut short is never emptied, and what is
    appended behind it is not read: after the restart a text that could not be
    sent is in the log for good. *)
Theorem torn_log_blocks :
  let torn := (append (DiskSays true false (Some 12%nat)) "{'event':'mtime_change'}" (open_wal true "")).2 in
  let s := send_event 1000 refused "{'event':'delete'}" (start_sender torn) in
  replay 1000 reopened [taken; taken] s = s /\ logged s = [] /\ contents (wal s) <> contents torn.
Proof. vm_compute. repeat split; discriminate. Qed.

(** A replay whose [truncate] cannot empty the file: its records are sent and
    stay in the log, and the log is closed, so that the next text that cannot be
    sent is lost. *)
Theorem failed_truncate_closes_log :
  let s := replay 1000 (Reopen true true false true) [taken] (start_sender (open_wal true (wal_of ["a"]))) in
  queue s = ["a"] /\ logged s = ["a"] /\ lost (send_event 1000 refused "b" s) = ["b"].
Proof. vm_compute. repeat split; reflexivity. Qed.

(** One changed file whose name is no UTF-8 stops the collector: the agent's
    text raises in [parse_event], [main] ends with the exception and nothing is
    committed, so a collector that is started again meets the same record. *)
Theorem unreadable_name_stops_collector :
  let text := Some (event_json 1710000000000 "node-001" (FsMtime overlong_path)) in
  let world := with_polls [deliver text] (with_running (replicate 3 true) (with_cfg demo_config sim0)) in
  let '(r, s, lw) := Semantics.run (log_handler sim_handler) (main 20) init_heap (Logged world []) in
  r = Exc UnicodeDecodeError /\ delivered (session (trace lw)) = [text] /\
  committed (session (trace lw)) = 0%nat /\ errors (stats (processor s)) = 0.
Proof. vm_compute. repeat split; reflexivity. Qed.

(** ** Witnesses *)

Definition demo_event (ty : Z) (name : string) : raw_event := Raw ty 3 [name; "user"; "home"].

Lemma build_path_components_witness :
  split slash (build_path (demo_event EVENT_MTIME "f")) = ["" ; "home"; "user"; "f"].
Proof.
  apply (build_path_components (demo_event EVENT_MTIME "f")); [simpl; lia|]. repeat constructor.
Defined.

Lemma renames_paired_witness :
  (handle_all "/home" 100 ([(0, OnPath (demo_event EVENT_DELETE "d"));
      (1, Rename (demo_event EVENT_RENAME_FROM "a") (demo_event EVENT_RENAME_TO "b"))]
      ≫= kernel_events) start_ctx).2
  = [FsDelete "/home/user/d"; FsRename "/home/user/a" "/home/user/b"].
Proof.
  pose proof (renames_paired "/home" 100 [(0, OnPath (demo_event EVENT_DELETE "d"));
      (1, Rename (demo_event EVENT_RENAME_FROM "a") (demo_event EVENT_RENAME_TO "b"))] start_ctx) as H.
  destruct (handle_all _ _ _ _) as [c sent] eqn:E. cbn [snd].
  destruct H as [H _]; [repeat constructor; discriminate|reflexivity|].
  by injection H.
Defined.

(** A refused text goes to the log, a second one is queued, a third meets a full
    disk. *)
Lemma sender_conserves_witness :
  exists s, sender_run 1000 false (start_sender (open_wal true (wal_of ["a"]))) ["b"; "c"; "d"] s /\
  logged s = ["b"] /\ acked s = ["a"] /\ queue s = ["c"] /\ lost s = ["d"] /\
  ["a"; "b"; "c"; "d"] ≡ₚ acked s ++ queue s ++ logged s ++ dropped s ++ lost s.
Proof.
  set (full := DiskSays true false (Some 0%nat)).
  assert (Hfine : steady false fine) by (by split; [|left]).
  assert (Hfull : steady false full) by (by split; [|right]).
  set (s1 := replay 1000 reopened [taken] (start_sender (open_wal true (wal_of ["a"])))).
  set (s2 := send_event 1000 refused "b" s1). set (s3 := dr_msg_cb 1000 0 true fine s2).
  set (s4 := send_event 1000 taken "c" s3). set (s5 := send_event 1000 (false, full) "d" s4).
  assert (H : sender_run 1000 false (start_sender (open_wal true (wal_of ["a"]))) ["b"; "c"; "d"] s5).
  { apply (run_step 1000 false _ ["b"; "c"] (Some "d") s4); [|constructor; [vm_compute; discriminate|done]].
    apply (run_step 1000 false _ ["b"] (Some "c") s3); [|constructor; [vm_compute; discriminate|done]].
    apply (run_step 1000 false _ ["b"] None s2); [|by constructor].
    apply (run_step 1000 false _ [] (Some "b") s1); [|constructor; [vm_compute; discriminate|done]].
    apply (run_step 1000 false _ [] None (start_sender (open_wal true (wal_of ["a"])))); constructor; [done|].
    by constructor. }
  exists s5. split; [exact H|]. do 4 (split; [vm_compute; reflexivity|]).
  apply (sender_conserves 1000 ["a"] false true ["b"; "c"; "d"] s5); [|exact H].
  repeat constructor. vm_compute. discriminate.
Defined.
