(* ===== verification/AgentMain.v ===== *)
(** The main loop of [src/main.cpp]: start-up replay, iterations, shutdown.

    What the kernel, the clocks, librdkafka and the disk answer in an iteration
    is a [turn].  The statistics lines are left out: they only log. *)
From S2P Require Import Prelude PyStr EventText Debouncer Wal Agent.

Local Open Scope string_scope.
Local Open Scope Z_scope.
#[local] Set Warnings "-clear-no-such-hyp".

(** Thirty seconds of the steady clock, in nanoseconds. *)
Definition wal_retry_interval : Z := 30 * 1000000000.

(** The answers to one text: the system clock in milliseconds, and those of
    librdkafka and the disk. *)
Abbreviation stamp := (Z * answer)%type.

(** Delivery reports, in order: the position in the queue, the success, and the
    disk, if it is a failure. *)
Abbreviation reports := (list (nat * bool * disk)).

(** The answers around a replay and the [kafka.flush] after it. *)
Record replaying := Replay {
  reopening : reopen;
  requeued : list answer;
  replay_reports : reports
}.

Definition no_replay : replaying :=
  {| reopening := reopened; requeued := []; replay_reports := [] |}.

(** The answers in one iteration.  [polled]: the ring buffer's events with the
    times at which [on_event] reads the clock, or an error. *)
Record turn := Turn {
  running : bool;
  polled : option (list (Z * raw_event));
  tick_time : Z;
  stamps : list stamp;
  poll_reports : reports;
  loop_time : Z;
  retry : replaying
}.

(** The variables of [main]. *)
Record agent := {
  ectx : EventCtx;
  out : sender;
  last_wal_retry : Z
}.

Section Main.
Context (traversal : gmap string Entry -> list (string * Entry)).
Context (watch_prefix hostname : string) (quiet_period max_wait wal_max_bytes : Z).

(** The texts of some events, each with its answers; a missing answer stands for
    time 0 and a message that is taken. *)
Fixpoint texts (es : list fs_event) (env : list stamp) : list (answer * string) :=
  match es with
  | [] => []
  | e :: es' =>
      let '(ts, a) := default (0, taken) (head env) in
      (a, event_json ts hostname e) :: texts es' (tail env)
  end.

(** [send_event] and [on_rename] for each of them. *)
Definition send_all (ts : list (answer * string)) (s : sender) : sender :=
  foldl (fun s t => send_event wal_max_bytes t.1 t.2 s) s ts.

(** [kafka.poll] and [kafka.flush]: the delivery reports they run. *)
Definition deliver_reports (rs : reports) (s : sender) : sender :=
  foldl (fun s r => dr_msg_cb wal_max_bytes r.1.1 r.1.2 r.2 s) s rs.

(** The replay followed by its [kafka.flush], if there is a record. *)
Definition replay_flush (r : replaying) (s : sender) : sender :=
  match read_all (read_ok (reopening r)) (wal s) with
  | [] => s
  | _ => deliver_reports (replay_reports r) (replay wal_max_bytes (reopening r) (requeued r) s)
  end.

(** One iteration, its texts, and whether the loop goes on. *)
Definition iteration (t : turn) (st : agent) : agent * list string * bool :=
  match polled t with
  | None => (st, [], false)
  | Some evts =>
      let '(c1, es1) := handle_all watch_prefix max_wait evts (ectx st) in
      let '(c2, es2) := agent_tick traversal quiet_period (tick_time t) c1 in
      let ts := texts (es1 ++ es2) (stamps t) in
      let s := deliver_reports (poll_reports t) (send_all ts (out st)) in
      let now := loop_time t in
      if wal_retry_interval <=? now - last_wal_retry st then
        ({| ectx := c2;
            out := if 0 <? file_size (size_ok (reopening (retry t))) (wal s)
                   then replay_flush (retry t) s else s;
            last_wal_retry := now |}, ts.*2, true)
      else ({| ectx := c2; out := s; last_wal_retry := last_wal_retry st |}, ts.*2, true)
  end.

(** [while (running)], over the turns that are looked at. *)
Fixpoint loop (turns : list turn) (st : agent) : agent * list string :=
  match turns with
  | [] => (st, [])
  | t :: turns' =>
      if running t then
        let '(st1, ts1, go) := iteration t st in
        if go then let '(st2, ts2) := loop turns' st1 in (st2, ts1 ++ ts2)%list
        else (st1, ts1)
      else (st, [])
  end.

Definition shutdown (env : list stamp) (rs : reports) (st : agent) : agent * list string :=
  let '(c, es) := agent_flush traversal (ectx st) in
  let ts := texts es env in
  ({| ectx := c; out := deliver_reports rs (send_all ts (out st));
      last_wal_retry := last_wal_retry st |}, ts.*2).

(** [main], from the log it finds. *)
Definition main (log : log_file) (r0 : replaying) (start : Z) (turns : list turn)
    (env : list stamp) (rs : reports) : agent * list string :=
  let st0 := {| ectx := start_ctx; out := replay_flush r0 (start_sender log);
                last_wal_retry := start |} in
  let '(st1, ts1) := loop turns st0 in
  let '(st2, ts2) := shutdown env rs st1 in (st2, ts1 ++ ts2)%list.

(** ** What the machine may answer

    The clock has 64 bits and the disk is [steady]; if it [works], it takes
    everything. *)
Context (works : bool).

Definition answers_ok (l : list answer) : Prop := Forall (fun a => steady works a.2) l.
Definition stamps_ok (env : list stamp) : Prop := Forall (fun s => int64 s.1 /\ steady works s.2.2) env.
Definition reports_ok (rs : reports) : Prop := Forall (fun r => steady works r.2) rs.
Definition replay_ok (r : replaying) : Prop :=
  reopens works (reopening r) /\ answers_ok (requeued r) /\ reports_ok (replay_reports r).

(** What the struct of an event can hold. *)
Definition raw_ok (evt : raw_event) : Prop :=
  (depth evt <= 20)%nat /\ Forall (fun n => (String.length n < 256)%nat) (names evt).

Record turn_ok (t : turn) : Prop := {
  polled_ok : Forall (fun x => raw_ok x.2) (default [] (polled t));
  turn_stamps_ok : stamps_ok (stamps t);
  turn_reports_ok : reports_ok (poll_reports t);
  turn_retry_ok : replay_ok (retry t)
}.

(** ** Lemmas *)

Abbreviation sends := (sender_run wal_max_bytes works).

Lemma sends_trans s0 g1 s1 g2 s2 : sends s0 g1 s1 -> sends s1 g2 s2 -> sends s0 (g1 ++ g2) s2.
Proof.
  intros H1. induction 1 as [|g2 l s s' H2 IH Hs]; [by rewrite app_nil_r|].
  rewrite app_assoc. by eapply run_step.
Qed.

Lemma sends_one s l s' : sender_step wal_max_bytes works l s s' -> sends s (option_list l) s'.
Proof. intros H. exact (run_step _ _ s [] l s s' (run_start _ _ s) H). Qed.

Lemma sends_all ts s : answers_ok ts.*1 -> Forall fits ts.*2 -> sends s ts.*2 (send_all ts s).
Proof.
  revert s. induction ts as [|[a t] ts IH]; intros s Ha Hf; [apply run_start|].
  apply Forall_cons in Hf as [Ht Hf]. apply Forall_cons in Ha as [Hd Ha].
  apply (sends_trans s [t] (send_event wal_max_bytes a t s)); [|by apply IH].
  apply (sends_one s (Some t)). by constructor.
Qed.

Lemma sends_reports rs s : reports_ok rs -> sends s [] (deliver_reports rs s).
Proof.
  intros H. revert s. induction H as [|[[i b] d] rs Hd _ IH]; intros s; [apply run_start|].
  apply (sends_trans s [] (dr_msg_cb wal_max_bytes i b d s)); [|apply IH].
  apply (sends_one s None). by constructor.
Qed.

Lemma sends_replay r s : replay_ok r -> sends s [] (replay_flush r s).
Proof.
  intros (Hr & Ha & Hrs). unfold replay_flush. destruct (read_all _ (wal s)) eqn:E; [apply run_start|].
  apply (sends_trans s [] (replay wal_max_bytes (reopening r) (requeued r) s)); [|by apply sends_reports].
  apply (sends_one s None). by constructor.
Qed.

Lemma texts_answers es env : stamps_ok env -> answers_ok (texts es env).*1.
Proof.
  revert env. induction es as [|e es IH]; intros env Henv; [constructor|]. cbn [texts].
  assert (Hh : steady works (default (0, taken) (head env)).2.2).
  { destruct Henv as [|s env [_ Hs] _]; [|done]. by split; [|left]. }
  destruct (default (0, taken) (head env)) as [ms a]. constructor; [done|]. by apply IH, Forall_tail.
Qed.

(** Some texts, and the reports after them. *)
Lemma sends_texts es env rs s :
  stamps_ok env -> reports_ok rs -> Forall fits (texts es env).*2 ->
  sends s (texts es env).*2 (deliver_reports rs (send_all (texts es env) s)).
Proof.
  intros Henv Hrs Hf. rewrite <-(app_nil_r (texts es env).*2).
  eapply sends_trans; [apply sends_all; [by apply texts_answers|done]|by apply sends_reports].
Qed.

Lemma sends_iteration t st st' ts go :
  turn_ok t -> iteration t st = (st', ts, go) -> Forall fits ts -> sends (out st) ts (out st').
Proof.
  unfold iteration. intros Ht H Hf. destruct (polled t) as [evts|]; [|by simplify_eq; apply run_start].
  destruct (handle_all watch_prefix max_wait evts (ectx st)) as [c1 es1].
  destruct (agent_tick traversal quiet_period (tick_time t) c1) as [c2 es2].
  pose proof (sends_texts (es1 ++ es2) (stamps t) (poll_reports t) (out st)
    (turn_stamps_ok t Ht) (turn_reports_ok t Ht)) as Hs.
  set (tx := texts (es1 ++ es2) (stamps t)) in *.
  set (s := deliver_reports (poll_reports t) (send_all tx (out st))) in *.
  destruct (wal_retry_interval <=? _); injection H as <- <- <-; [|by apply Hs]. cbn [out].
  destruct (0 <? file_size _ (wal s)); [|by apply Hs].
  rewrite <-(app_nil_r tx.*2). eapply sends_trans; [by apply Hs|by apply sends_replay, turn_retry_ok].
Qed.

Lemma sends_loop turns st st' ts :
  Forall turn_ok turns -> loop turns st = (st', ts) -> Forall fits ts -> sends (out st) ts (out st').
Proof.
  intros Ht. revert st st' ts. induction Ht as [|t turns Ht _ IH]; intros st st' ts; simpl.
  { intros [= <- <-] _. apply run_start. }
  destruct (running t); [|intros [= <- <-] _; apply run_start].
  destruct (iteration t st) as [[st1 ts1] go] eqn:E. destruct go.
  - destruct (loop turns st1) as [st2 ts2] eqn:E2. intros [= <- <-] [Hf1 Hf2]%Forall_app.
    eapply sends_trans; [by eapply sends_iteration|by eapply IH].
  - intros [= <- <-] Hf. by eapply sends_iteration.
Qed.

Lemma sends_shutdown env rs st st' ts :
  stamps_ok env -> reports_ok rs ->
  shutdown env rs st = (st', ts) -> Forall fits ts -> sends (out st) ts (out st').
Proof.
  unfold shutdown. intros Henv Hrs. destruct (agent_flush traversal (ectx st)) as [c es].
  intros [= <- <-] Hf. by apply sends_texts.
Qed.
End Main.

(** *** The lengths of the texts *)

Definition short (p : string) : Prop := (String.length p <= 20 * 256)%nat.

Lemma build_path_short evt : raw_ok evt -> short (build_path evt).
Proof.
  intros [Hd Hn]. unfold build_path, short. destruct (String.eqb _ ""); [simpl; lia|].
  assert (H : forall i, (String.length (build_from (names evt) i) <= i * 256)%nat).
  { induction i as [|i IH]; [simpl; lia|]. rewrite build_from_head. cbn [String.length].
    rewrite length_app_str. assert (String.length (nth i (names evt) "") < 256)%nat; [|lia].
    destruct (Nat.lt_ge_cases i (length (names evt))) as [Hi|Hi].
    - rewrite Forall_forall in Hn. apply Hn. apply list_elem_of_In, nth_In. done.
    - rewrite nth_overflow by done. simpl. lia. }
  specialize (H (depth evt)). lia.
Qed.

Definition ctx_short (c : EventCtx) : Prop :=
  (forall p e, debouncer c !! p = Some e -> short p) /\ short (pending_rename_from c).

Definition event_short (e : fs_event) : Prop := Forall short (event_paths e).

Lemma start_ctx_short : ctx_short start_ctx.
Proof. split; [done|]. unfold short. simpl. lia. Qed.

Lemma fs_event_of_short pt : short pt.1 -> event_short (fs_event_of pt).
Proof. unfold fs_event_of. intros H. destruct (pt.2 =? EVENT_DELETE); by constructor. Qed.

Section Short.
Context (traversal : gmap string Entry -> list (string * Entry)).
Context (watch_prefix : string) (quiet_period max_wait : Z).
Hypothesis traversal_all : forall m, traversal m ≡ₚ map_to_list m.

Lemma on_event_short now p ty m :
  short p -> (forall q e, m !! q = Some e -> short q) ->
  let '(m', o) := on_event max_wait now p ty m in
  (forall q e, m' !! q = Some e -> short q) /\ Forall event_short (fs_event_of <$> o).
Proof.
  intros Hp Hm. unfold on_event.
  assert (Hd : forall q e, delete p m !! q = Some e -> short q)
    by (intros q e [_ H]%lookup_delete_Some; by eapply Hm).
  assert (Hi : forall e0 q e, <[p := e0]> m !! q = Some e -> short q)
    by (intros e0 q e [[<- _]|[_ H]]%lookup_insert_Some; [done|by eapply Hm]).
  assert (Ho : Forall event_short (fs_event_of <$> [(p, ty)]))
    by (constructor; [by apply fs_event_of_short|constructor]).
  destruct (ty =? EVENT_DELETE); [by split|]. destruct (m !! p) as [e|]; [|by split; [apply Hi|]].
  destruct (max_wait <=? _); by split; [first [apply Hd|apply Hi]|].
Qed.

Lemma handle_event_short now evt c :
  raw_ok evt -> ctx_short c ->
  let '(c', es) := handle_event watch_prefix max_wait now evt c in ctx_short c' /\ Forall event_short es.
Proof.
  intros He%build_path_short [Hm Hp]. unfold handle_event.
  destruct (event_type evt =? EVENT_RENAME_FROM); [by split|].
  destruct (event_type evt =? EVENT_RENAME_TO).
  { destruct (has_pending_rename c); [|by split]. split; [by split|].
    destruct (_ || _); [|done]. constructor; [|done]. apply Forall_cons. split; [done|]. by apply Forall_singleton. }
  destruct (negb _); [by split|]. cbn [debouncer set_rename].
  pose proof (on_event_short now (build_path evt) (event_type evt) (debouncer c) He Hm) as H.
  destruct (on_event max_wait now (build_path evt) (event_type evt) (debouncer c)) as [m o].
  destruct H. by split.
Qed.

Lemma handle_all_short evts c :
  Forall (fun x => raw_ok x.2) evts -> ctx_short c ->
  let '(c', es) := handle_all watch_prefix max_wait evts c in ctx_short c' /\ Forall event_short es.
Proof.
  intros H. revert c. induction H as [|[now evt] evts He _ IH]; intros c Hc; cbn [handle_all]; [done|].
  pose proof (handle_event_short now evt c He Hc) as H1.
  destruct (handle_event watch_prefix max_wait now evt c) as [c1 o]. destruct H1 as [Hc1 Ho].
  specialize (IH c1 Hc1). destruct (handle_all watch_prefix max_wait evts c1) as [c2 os].
  destruct IH. split; [done|by apply Forall_app].
Qed.

Lemma agent_tick_short now c :
  ctx_short c ->
  let '(c', es) := agent_tick traversal quiet_period now c in ctx_short c' /\ Forall event_short es.
Proof.
  intros [Hm Hp]. unfold agent_tick. destruct (tick traversal quiet_period now (debouncer c)) as [m o] eqn:E.
  split; [split; [|done]|].
  - intros p e H. eapply Hm, (tick_sub traversal quiet_period traversal_all now). by rewrite E.
  - apply Forall_fmap, Forall_forall. intros [p t] Hin. apply fs_event_of_short.
    assert (Hin' : (p, t) ∈ (tick traversal quiet_period now (debouncer c)).2) by (by rewrite E).
    apply (tick_fired traversal quiet_period traversal_all) in Hin' as (_ & e & He & _). by eapply Hm.
Qed.

Lemma agent_flush_short c :
  ctx_short c ->
  let '(c', es) := agent_flush traversal c in
  ctx_short c' /\ Forall event_short es /\ debouncer c' = ∅.
Proof.
  intros [Hm Hp]. cbn. split; [by split|]. split; [|done].
  apply Forall_fmap, Forall_fmap, Forall_forall. intros [p e] Hin. apply fs_event_of_short.
  apply (elem_of_traversal traversal traversal_all) in Hin. by eapply Hm.
Qed.
End Short.

Section Properties.
Context (traversal : gmap string Entry -> list (string * Entry)).
Context (watch_prefix hostname : string) (quiet_period max_wait wal_max_bytes : Z).
Hypothesis traversal_all : forall m, traversal m ≡ₚ map_to_list m.
Hypothesis hostname_short : short hostname.
Context (works : bool).

Lemma texts_fit es env :
  Forall event_short es -> stamps_ok works env -> Forall fits (texts hostname es env).*2.
Proof.
  intros Hes. revert env. induction Hes as [|e es He _ IH]; intros env Henv; [constructor|].
  cbn [texts]. destruct (default (0, taken) (head env)) as [ts q] eqn:E.
  assert (Hts : int64 ts).
  { destruct env as [|s env]; simplify_eq/=; [unfold int64; lia|]. by apply Forall_cons in Henv as [[? _] _]. }
  cbn [fmap list_fmap snd]. constructor.
  - unfold fits, MAX_RECORD. pose proof (length_event_json ts hostname e (20 * 256) Hts) as H.
    specialize (H ltac:(by apply Forall_cons)). lia.
  - apply IH. by apply Forall_tail.
Qed.

Abbreviation iter := (iteration traversal watch_prefix hostname quiet_period max_wait wal_max_bytes).
Abbreviation looping := (loop traversal watch_prefix hostname quiet_period max_wait wal_max_bytes).

Lemma iteration_short t st st' ts go :
  turn_ok works t -> ctx_short (ectx st) -> iter t st = (st', ts, go) -> ctx_short (ectx st') /\ Forall fits ts.
Proof.
  intros [Hp Hs _ _] Hc. unfold iteration. destruct (polled t) as [evts|]; [|by intros [= <- <- _]].
  pose proof (handle_all_short watch_prefix max_wait evts _ Hp Hc) as H1.
  destruct (handle_all watch_prefix max_wait evts (ectx st)) as [c1 es1]. destruct H1 as [Hc1 Hes1].
  pose proof (agent_tick_short traversal quiet_period traversal_all (tick_time t) c1 Hc1) as H2.
  destruct (agent_tick traversal quiet_period (tick_time t) c1) as [c2 es2]. destruct H2 as [Hc2 Hes2].
  assert (Hf : Forall fits (texts hostname (es1 ++ es2) (stamps t)).*2)
    by (apply texts_fit; [by apply Forall_app|done]).
  destruct (wal_retry_interval <=? _); by intros [= <- <- _].
Qed.

Lemma loop_short turns st st' ts :
  Forall (turn_ok works) turns -> ctx_short (ectx st) -> looping turns st = (st', ts) ->
  ctx_short (ectx st') /\ Forall fits ts.
Proof.
  intros Ht. revert st st' ts. induction Ht as [|t turns Ht _ IH]; intros st st' ts Hc; simpl;
    [by intros [= <- <-]|].
  destruct (running t); [|by intros [= <- <-]].
  destruct (iter t st) as [[st1 ts1] go] eqn:E. destruct (iteration_short _ _ _ _ _ Ht Hc E) as [Hc1 Hf1].
  destruct go; [|by intros [= <- <-]].
  destruct (looping turns st1) as [st2 ts2] eqn:E2. destruct (IH _ _ _ Hc1 E2).
  intros [= <- <-]. by split; [|apply Forall_app].
Qed.

(** The sender's part of the whole run. *)
Lemma main_sends log r0 start turns env rs st ts :
  replay_ok works r0 -> Forall (turn_ok works) turns -> stamps_ok works env -> reports_ok works rs ->
  main traversal watch_prefix hostname quiet_period max_wait wal_max_bytes
    log r0 start turns env rs = (st, ts) ->
  sender_run wal_max_bytes works (start_sender log) ts (out st) /\
  Forall fits ts /\ debouncer (ectx st) = ∅.
Proof.
  intros Hr0 Ht Henv Hrs. unfold main.
  set (st0 := {| ectx := start_ctx; out := _; last_wal_retry := start |}).
  destruct (looping turns st0) as [st1 ts1] eqn:E1.
  destruct (loop_short turns st0 st1 ts1 Ht start_ctx_short E1) as [Hc1 Hf1].
  destruct (shutdown traversal hostname wal_max_bytes env rs st1) as [st2 ts2] eqn:E2.
  intros [= <- <-].
  assert (Hf2 : Forall fits ts2 /\ debouncer (ectx st2) = ∅).
  { unfold shutdown in E2. pose proof (agent_flush_short traversal traversal_all (ectx st1) Hc1) as H.
    destruct (agent_flush traversal (ectx st1)) as [c es]. injection E2 as <- <-. destruct H as (_ & Hes & Hd).
    split; [by apply texts_fit|done]. }
  destruct Hf2 as [Hf2 Hd]. split; [|split; [by apply Forall_app|done]].
  apply (sends_trans _ _ _ [] (out st0)); [by apply sends_replay|].
  eapply sends_trans; [by eapply sends_loop|by eapply sends_shutdown].
Qed.

Lemma main_conserves log0 opened0 r0 start turns env rs st ts :
  Forall fits log0 -> replay_ok works r0 -> Forall (turn_ok works) turns ->
  stamps_ok works env -> reports_ok works rs ->
  main traversal watch_prefix hostname quiet_period max_wait wal_max_bytes
    (open_wal opened0 (wal_of log0)) r0 start turns env rs = (st, ts) ->
  conserved wal_max_bytes log0 works opened0 ts (out st) /\
  Forall fits ts /\ debouncer (ectx st) = ∅.
Proof.
  intros H0 Hr0 Ht Henv Hrs Hm.
  destruct (main_sends _ _ _ _ _ _ _ _ Hr0 Ht Henv Hrs Hm) as (Hs & Hf & Hd).
  split; [|done]. by eapply placed_conserves, sender_run_placed.
Qed.

(** ** Properties *)

(** The whole agent conserves its events: started on a log of whole records,
    with records that are written whole or not at all, for any events of the
    kernel, clocks, signals and other answers of librdkafka and the disk, when
    [main] ends the texts of the log, the texts sent for watched operations and
    reported changes, and the copies that a replay could not remove are
    together the texts acknowledged, still in librdkafka's queue, whole records
    of the log, dropped at the log's size limit, or lost in a failed write; the
    log outgrows its limit by at most one record; with a log that could be opened
    and a disk that works none is lost or copied; every text fits the log's record
    format, and no change waits in the debouncer any more. *)
Theorem agent_conserves log0 opened0 r0 start turns env rs st ts :
  Forall fits log0 -> replay_ok works r0 -> Forall (turn_ok works) turns ->
  stamps_ok works env -> reports_ok works rs ->
  main traversal watch_prefix hostname quiet_period max_wait wal_max_bytes
    (open_wal opened0 (wal_of log0)) r0 start turns env rs = (st, ts) ->
  conserved wal_max_bytes log0 works opened0 ts (out st) /\
  Forall fits ts /\ debouncer (ectx st) = ∅.
Proof. apply main_conserves. Qed.
End Properties.

(** ** The events of a run

    Without the sender: what [handle_event], [tick] and [flush_all] hand over. *)
Section Events.
Context (traversal : gmap string Entry -> list (string * Entry)).
Context (watch_prefix hostname : string) (quiet_period max_wait wal_max_bytes : Z).
Context (works : bool).
Hypothesis traversal_all : forall m, traversal m ≡ₚ map_to_list m.

Definition turn_events (t : turn) (c : EventCtx) : EventCtx * list fs_event :=
  match polled t with
  | None => (c, [])
  | Some evts =>
      let '(c1, es1) := handle_all watch_prefix max_wait evts c in
      let '(c2, es2) := agent_tick traversal quiet_period (tick_time t) c1 in (c2, es1 ++ es2)%list
  end.

Fixpoint loop_events (turns : list turn) (c : EventCtx) : EventCtx * list fs_event :=
  match turns with
  | [] => (c, [])
  | t :: turns' =>
      if running t then
        let '(c1, es1) := turn_events t c in
        match polled t with
        | None => (c1, es1)
        | Some _ => let '(c2, es2) := loop_events turns' c1 in (c2, es1 ++ es2)%list
        end
      else (c, [])
  end.

Definition main_events (turns : list turn) : list fs_event :=
  let '(c, es) := loop_events turns start_ctx in (es ++ (agent_flush traversal c).2)%list.

(** A text for each event, with a time of its own. *)
Definition stamped (es : list fs_event) (ts : list string) : Prop :=
  Forall2 (fun e t => exists ms, int64 ms /\ t = event_json ms hostname e) es ts.

Lemma texts_stamped es env : stamps_ok works env -> stamped es (texts hostname es env).*2.
Proof.
  revert env. induction es as [|e es IH]; intros env Henv; [constructor|].
  cbn [texts]. destruct (default (0, taken) (head env)) as [ms q] eqn:E. constructor.
  - exists ms. split; [|done].
    destruct env as [|s env]; simplify_eq/=; [unfold int64; lia|]. by apply Forall_cons in Henv as [[? _] _].
  - apply IH. by apply Forall_tail.
Qed.

Lemma loop_stamped turns st st' ts :
  Forall (turn_ok works) turns ->
  loop traversal watch_prefix hostname quiet_period max_wait wal_max_bytes turns st = (st', ts) ->
  exists es, loop_events turns (ectx st) = (ectx st', es) /\ stamped es ts.
Proof.
  intros Ht. revert st st' ts. induction Ht as [|t turns [_ Hs _ _] _ IH]; intros st st' ts; simpl.
  { intros [= <- <-]. exists []. split; [done|constructor]. }
  destruct (running t); [|intros [= <- <-]; exists []; split; [done|constructor]].
  unfold iteration, turn_events. destruct (polled t) as [evts|];
    [|intros [= <- <-]; exists []; split; [done|constructor]].
  destruct (handle_all watch_prefix max_wait evts (ectx st)) as [c1 es1].
  destruct (agent_tick traversal quiet_period (tick_time t) c1) as [c2 es2].
  pose proof (texts_stamped (es1 ++ es2) (stamps t) Hs) as Hx.
  set (tx := (texts hostname (es1 ++ es2) (stamps t)).*2) in *.
  destruct (wal_retry_interval <=? _);
    (destruct (loop _ _ _ _ _ _ turns _) as [st2 ts2] eqn:E2; intros [= <- <-];
     destruct (IH _ _ _ E2) as (es3 & He3 & Hs3); cbn [ectx] in He3; rewrite He3;
     eexists; split; [done|by apply Forall2_app]).
Qed.

Lemma main_stamped log r0 start turns env rs st ts :
  Forall (turn_ok works) turns -> stamps_ok works env ->
  main traversal watch_prefix hostname quiet_period max_wait wal_max_bytes
    log r0 start turns env rs = (st, ts) ->
  stamped (main_events turns) ts.
Proof.
  intros Ht Henv. unfold main, main_events.
  set (st0 := {| ectx := start_ctx; out := _; last_wal_retry := start |}).
  destruct (loop _ _ _ _ _ _ turns st0) as [st1 ts1] eqn:E1.
  destruct (loop_stamped turns st0 st1 ts1 Ht E1) as (es & He & Hs). cbn [ectx st0] in He. rewrite He.
  unfold shutdown. pose proof (texts_stamped (agent_flush traversal (ectx st1)).2 env Henv) as Hx.
  destruct (agent_flush traversal (ectx st1)) as [c es2]. intros [= <- <-]. by apply Forall2_app.
Qed.
End Events.

(** ** Witness

    A change is reported by the tick after the quiet period and delivered; a
    delete cannot be queued, goes to the log, and is replayed; a second change
    waits until the shutdown. *)

Definition demo_turns : list turn :=
  [Turn true (Some [(0, demo_event EVENT_MTIME "a")]) 1 [] [] 2 no_replay;
   Turn true (Some [(3, demo_event EVENT_DELETE "d")]) 200 [(5, refused); (6, taken)]
     [(0%nat, true, fine)] 201 no_replay;
   Turn true (Some [(300, demo_event EVENT_MTIME "b")]) 301 [] [] (40 * 1000000000)
     (Replay reopened [taken] [(0%nat, true, fine)]);
   Turn false None 0 [] [] 0 no_replay].

Definition demo_run : agent * list string :=
  main map_to_list "/home" "node-001" 100 1000 4096 (open_wal true "") no_replay 0 demo_turns
    [(7, taken)] [].

Lemma fine_steady works : steady works fine.
Proof. by split; [|left]. Qed.

Lemma no_replay_ok works : replay_ok works no_replay.
Proof. repeat split; constructor. Qed.

Lemma demo_turns_ok works : Forall (turn_ok works) demo_turns.
Proof.
  pose proof fine_steady works.
  repeat apply Forall_cons_2; [..|apply Forall_nil_2]; split; cbn; repeat constructor; simpl;
    unfold int64; try lia; done.
Qed.

Lemma agent_conserves_witness :
  demo_run.2 = [event_json 5 "node-001" (FsDelete "/home/user/d"); event_json 6 "node-001" (FsMtime "/home/user/a");
                event_json 7 "node-001" (FsMtime "/home/user/b")] /\
  acked (out demo_run.1) = [event_json 6 "node-001" (FsMtime "/home/user/a");
                            event_json 5 "node-001" (FsDelete "/home/user/d")] /\
  conserved 4096 [] true true demo_run.2 (out demo_run.1).
Proof.
  split; [vm_compute; reflexivity|]. split; [vm_compute; reflexivity|].
  destruct (agent_conserves map_to_list "/home" "node-001" 100 1000 4096 (fun m => reflexivity _)
    ltac:(vm_compute; lia) true [] true no_replay 0 demo_turns [(7, taken)] [] demo_run.1 demo_run.2) as [H _].
  - constructor.
  - apply no_replay_ok.
  - apply demo_turns_ok.
  - constructor; [|constructor]. split; [simpl; unfold int64; lia|apply fine_steady].
  - constructor.
  - unfold demo_run. apply surjective_pairing.
  - exact H.
Defined.
