(* ===== verification/AgentConfig.v ===== *)
(** The agent's configuration: [src/src/config.cpp] and the first part of
    [main] in [src/src/main.cpp], which turns the settings into those of the
    debouncer and the log and creates the log's directory.

    The TOML parser is a library: a document is what it hands over, section by
    section.  The conversions of [value_or] are those of the toml.hpp that the
    sources carry. *)
From S2P Require Import Prelude PyStr EventText Debouncer Wal Agent AgentMain.

Local Open Scope string_scope.
Local Open Scope Z_scope.
#[local] Set Warnings "-clear-no-such-hyp".

(** ** Documents *)

(** A value of a document.  [FloatNode (Some z)]: a float that is exactly the
    64-bit integer [z]; [OtherNode]: arrays, tables, dates and times. *)
Inductive node :=
  | StringNode (s : string)
  | IntegerNode (z : Z)
  | FloatNode (whole : option Z)
  | BooleanNode (b : bool)
  | OtherNode.

Abbreviation table := (gmap string node).

(** The top level: [None] is an entry that is not a table. *)
Abbreviation document := (gmap string (option table)).

(** [node::value<std::string>()]: strings only. *)
Definition value_string (n : node) : option string :=
  match n with StringNode s => Some s | _ => None end.

(** [node_integer_cast<uint64_t>]. *)
Definition node_integer_cast (val : Z) : option Z := if val <? 0 then None else Some val.

(** [node::value<uint64_t>()]. *)
Definition value_uint64 (n : node) : option Z :=
  match n with
  | IntegerNode val => node_integer_cast val
  | FloatNode (Some val) => node_integer_cast val
  | BooleanNode b => Some (Z.b2z b)
  | _ => None
  end.

(** [value_or], for a way to get a value. *)
Definition value_or {A} (value : node -> option A) (n : node) (default_value : A) : A :=
  default default_value (value n).

(** ** Settings *)

Record Config := {
  kafka_brokers : string;
  kafka_topic : string;
  debounce_quiet_ms : Z;
  debounce_max_wait_ms : Z;
  wal_path : string;
  wal_max_size_mb : Z;
  watch_prefix : string;
  log_level : string
}.

Definition default_config : Config := {|
  kafka_brokers := "localhost:9092";
  kafka_topic := "file-tracker-events";
  debounce_quiet_ms := 10000;
  debounce_max_wait_ms := 3600000;
  wal_path := "/var/lib/file-tracker/wal/events.wal";
  wal_max_size_mb := 1024;
  watch_prefix := "/home";
  log_level := "info"
|}.

(** One setting: [if (auto t = tbl[sec].as_table()) if (auto v = t->get(key))
    x = v->value_or(x);]. *)
Definition setting {A} (value : node -> option A) (tbl : document) (sec key : string) (x : A) : A :=
  match tbl !! sec with
  | Some (Some t) => match t !! key with Some v => value_or value v x | None => x end
  | _ => x
  end.

(** [Config::load]: [None] when the file cannot be read or parsed. *)
Definition load (parsed : option document) (c : Config) : option Config :=
  match parsed with
  | None => None
  | Some tbl => Some {|
      kafka_brokers := setting value_string tbl "kafka" "brokers" (kafka_brokers c);
      kafka_topic := setting value_string tbl "kafka" "topic" (kafka_topic c);
      debounce_quiet_ms := setting value_uint64 tbl "debounce" "quiet_ms" (debounce_quiet_ms c);
      debounce_max_wait_ms := setting value_uint64 tbl "debounce" "max_wait_ms" (debounce_max_wait_ms c);
      wal_path := setting value_string tbl "wal" "path" (wal_path c);
      wal_max_size_mb := setting value_uint64 tbl "wal" "max_size_mb" (wal_max_size_mb c);
      watch_prefix := setting value_string tbl "watch" "prefix" (watch_prefix c);
      log_level := setting value_string tbl "logging" "level" (log_level c)
    |}
  end.

(** ** Start-up *)

(** [cfg.wal_max_size_mb * 1024ULL * 1024ULL]. *)
Definition wal_max_bytes (c : Config) : Z := (wal_max_size_mb c * 1024 * 1024) mod 2 ^ 64.

(** The 64-bit signed product of the machine. *)
Definition wrap64 (n : Z) : Z := (n + 2 ^ 63) mod 2 ^ 64 - 2 ^ 63.

(** A number of milliseconds in the nanoseconds of the steady clock, as the
    comparisons in [on_event] and [tick] convert it: a 64-bit signed number, which
    wraps (the standard leaves a signed overflow open). *)
Definition nanoseconds (ms : Z) : Z := wrap64 (ms * 1000000).

(** [cfg.wal_path.substr(0, cfg.wal_path.rfind('/'))]: all of it when there is
    no slash. *)
Definition wal_dir (path : string) : string := rsplit1_head "/" path.

(** The [mkdir] calls that are left, [acc] being what has been read. *)
Fixpoint mkdir_calls (acc dir : string) : list string :=
  match dir with
  | EmptyString => []
  | String c rest =>
      let acc := acc +:+ String c "" in
      if Ascii.eqb c slash || String.eqb rest "" then acc :: mkdir_calls acc rest
      else mkdir_calls acc rest
  end.

(** ** Directories

    What the code relies on of [mkdir]: [is_dir] is what [stat] says of a path,
    [obstructed] that a path is taken by something else or may not be made. *)
Class FileSystem (Disk : Type) := {
  mkdir : string -> Disk -> Disk;
  is_dir : Disk -> string -> Prop;
  obstructed : Disk -> string -> Prop
}.

Class FileSystemLaws (Disk : Type) `{FileSystem Disk} := {
  root_is_dir fs : is_dir fs "/";
  is_dir_slash fs p : p <> "" -> is_dir fs (p +:+ "/") <-> is_dir fs p;
  mkdir_keeps fs p q : is_dir fs q -> is_dir (mkdir p fs) q;
  mkdir_obstructs fs p q : obstructed (mkdir p fs) q -> obstructed fs q;
  mkdir_makes fs base name slashes :
    base = "" \/ endswith base "/" = true /\ is_dir fs base ->
    name <> "" -> lacks slash name = true -> slashes = "" \/ slashes = "/" ->
    ~ obstructed fs (base +:+ name) ->
    is_dir (mkdir (base +:+ name +:+ slashes) fs) (base +:+ name)
}.

Definition mkdirs `{FileSystem Disk} (dir : string) (fs : Disk) : Disk :=
  foldl (fun fs p => mkdir p fs) fs (mkdir_calls "" dir).

(** ** [main]

    [open_log]: what the constructor's [fopen(path, "ab+")] gives, and the bytes
    of the file it finds; [None] is exit code 1, before any event is handled;
    [started]: producer, probe and ring buffer could be set up. *)
Definition agent_main `{FileSystem Disk} (open_log : Disk -> string -> bool * string) (fs : Disk)
    (traversal : gmap string Entry -> list (string * Entry)) (hostname : string)
    (parsed : option document) (started : bool) (r0 : replaying)
    (start : Z) (turns : list turn) (env : list stamp) (rs : reports) :
    option (agent * list string) :=
  match load parsed default_config with
  | None => None
  | Some cfg =>
      let fs := mkdirs (wal_dir (wal_path cfg)) fs in
      let '(ok, bytes) := open_log fs (wal_path cfg) in
      if started then
        Some (AgentMain.main traversal (watch_prefix cfg) hostname
                (nanoseconds (debounce_quiet_ms cfg)) (nanoseconds (debounce_max_wait_ms cfg))
                (wal_max_bytes cfg) (open_wal ok bytes) r0 start turns env rs)
      else None
  end.

(** ** Lemmas *)

(** What the parser guarantees: TOML integers have 64 bits. *)
Definition node_ok (n : node) : Prop :=
  match n with IntegerNode z | FloatNode (Some z) => int64 z | _ => True end.

Definition document_ok (tbl : document) : Prop :=
  forall sec key t v, tbl !! sec = Some (Some t) -> t !! key = Some v -> node_ok v.

Definition u63 (z : Z) : Prop := 0 <= z < 2 ^ 63.

Lemma value_uint64_bounded v z : node_ok v -> value_uint64 v = Some z -> u63 z.
Proof.
  assert (H : forall x, int64 x -> node_integer_cast x = Some z -> u63 z).
  { unfold node_integer_cast, int64, u63. intros x Hx. destruct (Z.ltb_spec x 0); intros [= <-]. lia. }
  destruct v as [?|?|[?|]|b|]; intros Hv; try discriminate; [by apply H|by apply H|].
  intros [= <-]. unfold u63. destruct b; simpl; lia.
Qed.

Lemma setting_bounded tbl sec key x :
  document_ok tbl -> u63 x -> u63 (setting value_uint64 tbl sec key x).
Proof.
  intros Hd Hx. unfold setting. destruct (tbl !! sec) as [[t|]|] eqn:Es; [|done..].
  destruct (t !! key) as [v|] eqn:Ek; [|done]. unfold value_or.
  destruct (value_uint64 v) eqn:Ev; [|done]. eapply value_uint64_bounded, Ev. by eapply Hd.
Qed.

Lemma wal_max_bytes_bound c :
  0 <= wal_max_size_mb c -> 0 <= wal_max_bytes c <= wal_max_size_mb c * 2 ^ 20.
Proof.
  intros H. unfold wal_max_bytes.
  pose proof (Z.mod_pos_bound (wal_max_size_mb c * 1024 * 1024) (2 ^ 64) ltac:(lia)).
  pose proof (Z.mod_le (wal_max_size_mb c * 1024 * 1024) (2 ^ 64) ltac:(lia) ltac:(lia)). lia.
Qed.

Lemma wrap64_small n : 0 <= n < 2 ^ 63 -> wrap64 n = n.
Proof. intros H. unfold wrap64. rewrite Z.mod_small; lia. Qed.

(** *** The directories of the log *)

Section Directories.
Context `{FileSystemLaws Disk}.
Implicit Types fs : Disk.

Lemma calls_keep calls fs q : is_dir fs q -> is_dir (foldl (fun fs p => mkdir p fs) fs calls) q.
Proof. revert fs. induction calls as [|p calls IH]; intros fs Hq; [done|]. by apply IH, mkdir_keeps. Qed.

Lemma endswith_snoc_slash s : endswith (s +:+ "/") "/" = true.
Proof. apply endswith_app. Qed.

Lemma app_not_empty s c : s +:+ String c "" <> "".
Proof. by destruct s. Qed.

(** The loop inside a component: [base] is made, [name] is being read. *)
Lemma calls_make fs base name dir :
  base = "" \/ endswith base "/" = true /\ is_dir fs base -> lacks slash name = true ->
  dir <> "" ->
  (forall p, startswith (base +:+ name +:+ dir) p = true -> ~ obstructed fs p) ->
  is_dir (foldl (fun fs p => mkdir p fs) fs (mkdir_calls (base +:+ name) dir)) (base +:+ name +:+ dir).
Proof.
  revert fs base name. induction dir as [|c rest IH]; intros fs base name Hb Hn Hd Ho; [done|].
  assert (Hfull : forall s, base +:+ name +:+ String c s = (base +:+ name +:+ String c "") +:+ s)
    by (intros s; by rewrite !app_assoc_str).
  assert (Hpre : forall p t, p +:+ t = base +:+ name +:+ String c rest -> ~ obstructed fs p).
  { intros p t E. apply Ho, startswith_iff. by exists t. }
  cbn [mkdir_calls]. rewrite app_assoc_str. destruct (Ascii.eqb_spec c slash) as [->|Hc].
  - cbn [orb foldl]. set (acc := base +:+ name +:+ String slash "").
    assert (Ha : is_dir (mkdir acc fs) acc).
    { destruct (decide (name = "")) as [->|Hne].
      - destruct Hb as [->|[Hb1 Hb2]]; [apply root_is_dir|].
        unfold acc. cbn [String.append]. apply is_dir_slash; [by intros ->|]. by apply mkdir_keeps.
      - unfold acc. rewrite <-app_assoc_str. apply is_dir_slash; [|rewrite app_assoc_str].
        { destruct base; [done|by destruct name]. }
        apply (mkdir_makes fs base name "/"); auto.
        apply (Hpre _ (String slash rest)). by rewrite app_assoc_str. }
    destruct (decide (rest = "")) as [->|Hr]; [done|].
    rewrite Hfull. fold acc. replace acc with (acc +:+ "") at 2 by apply app_empty_r.
    apply (IH (mkdir acc fs) acc ""); [|done|done|].
    { right. split; [|done]. unfold acc. rewrite <-app_assoc_str. apply endswith_snoc_slash. }
    intros p Hp Hx. apply mkdir_obstructs in Hx. revert Hx. apply Ho.
    rewrite Hfull. exact Hp.
  - (* a character of the name *)
    assert (Hn' : lacks slash (name +:+ String c "") = true).
    { rewrite lacks_app, Hn. cbn [lacks andb]. by destruct (Ascii.eqb_spec c slash). }
    destruct (decide (rest = "")) as [->|Hr].
    + cbn [String.eqb orb foldl mkdir_calls].
      pose proof (mkdir_makes fs base (name +:+ String c "") "" Hb (app_not_empty _ _) Hn' (or_introl eq_refl)) as Hm.
      rewrite app_empty_r in Hm. apply Hm. by apply (Hpre _ ""); rewrite app_empty_r.
    + destruct (String.eqb_spec rest "") as [?|_]; [done|]. cbn [orb].
      replace (base +:+ name +:+ String c rest) with (base +:+ (name +:+ String c "") +:+ rest)
        by (by rewrite !app_assoc_str).
      apply IH; [done|done|done|]. intros p Hp. apply Ho.
      rewrite <-Hp. by rewrite !app_assoc_str.
Qed.
End Directories.

(** A file system to evaluate the calls on: directories and other entries by
    their components, paths seen from the root. *)
Record tree := Tree { dirs : gset (list string); files : gset (list string) }.

Definition components (p : string) : list string := filter (fun c => c <> "") (split slash p).

Definition tree_dir (fs : tree) (q : list string) : Prop := q = [] \/ q ∈ dirs fs.

Definition tree_mkdir (p : string) (fs : tree) : tree :=
  let q := components p in
  if decide ((q ∉ files fs) /\ tree_dir fs (removelast q))
  then Tree ({[q]} ∪ dirs fs) (files fs) else fs.

#[export] Instance tree_fs : FileSystem tree := {
  mkdir := tree_mkdir;
  is_dir fs p := tree_dir fs (components p);
  obstructed fs p := components p ∈ files fs
}.

Lemma components_slash s : components (s +:+ "/") = components s.
Proof.
  unfold components. change (s +:+ "/") with (s +:+ String slash "").
  rewrite split_app_any, filter_app. cbn. by rewrite app_nil_r.
Qed.

Lemma components_app base name :
  base = "" \/ endswith base "/" = true -> name <> "" -> lacks slash name = true ->
  components (base +:+ name) = (components base ++ [name])%list.
Proof.
  intros [->|[u ->]%endswith_inv] Hne Hl.
  - unfold components. cbn. rewrite split_lacks by done. by rewrite filter_cons_True.
  - rewrite components_slash. unfold components. rewrite app_assoc_str.
    change (u +:+ "/" +:+ name) with (u +:+ String slash name). rewrite split_app_any, filter_app, (split_lacks slash name) by done.
    by rewrite filter_cons_True.
Qed.

#[export] Instance tree_laws : FileSystemLaws tree.
Proof.
  split; cbn [mkdir is_dir obstructed tree_fs].
  - intros fs. by left.
  - intros fs p _. by rewrite components_slash.
  - intros fs p q. unfold tree_mkdir, tree_dir. destruct (decide _); [|done]. cbn [dirs]. set_solver.
  - intros fs p q. unfold tree_mkdir. by destruct (decide _).
  - intros fs base name slashes Hb Hne Hl Hs Ho.
    assert (E : components (base +:+ name +:+ slashes) = components (base +:+ name)).
    { destruct Hs as [-> | ->]; [by rewrite app_empty_r|]. by rewrite <-app_assoc_str, components_slash. }
    unfold tree_mkdir. rewrite E. rewrite decide_True; [right; cbn [dirs]; set_solver|].
    split; [done|]. rewrite components_app by (destruct Hb as [?|[? _]]; auto). rewrite removelast_last.
    destruct Hb as [->|[_ Hb]]; [by left|done].
Qed.

(** ** Properties *)

(** The table that writes a configuration down. *)
Definition document_of (c : Config) : document :=
  {["kafka" := Some {["brokers" := StringNode (kafka_brokers c); "topic" := StringNode (kafka_topic c)]};
    "debounce" := Some {["quiet_ms" := IntegerNode (debounce_quiet_ms c);
                         "max_wait_ms" := IntegerNode (debounce_max_wait_ms c)]};
    "wal" := Some {["path" := StringNode (wal_path c); "max_size_mb" := IntegerNode (wal_max_size_mb c)]};
    "watch" := Some {["prefix" := StringNode (watch_prefix c)]};
    "logging" := Some {["level" := StringNode (log_level c)]}]}.

(** A configuration written down as a table is loaded as it was, whatever the
    settings before; and what a readable document does not set, keeps its
    value. *)
Theorem load_roundtrip c c0 :
  0 <= debounce_quiet_ms c -> 0 <= debounce_max_wait_ms c -> 0 <= wal_max_size_mb c ->
  load (Some (document_of c)) c0 = Some c /\ load (Some ∅) c0 = Some c0.
Proof.
  intros Hq Hm Hw. split; [|by destruct c0].
  unfold load, setting, value_or, document_of. simplify_map_eq.
  unfold node_integer_cast. rewrite !(proj2 (Z.ltb_ge _ _)) by done. by destruct c.
Qed.

(** Whatever the document says, the numbers of the settings have 63 bits, so
    that none changes when it becomes a [std::chrono] duration; the log's limit
    is the configured number of megabytes below 2^44 of them, and never more;
    up to 292 years, the longest wait is compared as configured. *)
Theorem settings_bounded tbl c :
  document_ok tbl -> load (Some tbl) default_config = Some c ->
  u63 (debounce_quiet_ms c) /\ u63 (debounce_max_wait_ms c) /\ u63 (wal_max_size_mb c) /\
  wal_max_bytes c <= wal_max_size_mb c * 2 ^ 20 /\
  (wal_max_size_mb c < 2 ^ 44 -> wal_max_bytes c = wal_max_size_mb c * 2 ^ 20) /\
  (debounce_max_wait_ms c <= 9223372036854 ->
   nanoseconds (debounce_max_wait_ms c) = debounce_max_wait_ms c * 1000000).
Proof.
  intros Hd [= <-]. cbn [debounce_quiet_ms debounce_max_wait_ms wal_max_size_mb].
  assert (Hw : forall sec key x, u63 x -> u63 (setting value_uint64 tbl sec key x))
    by (intros; by apply setting_bounded).
  split; [by apply Hw|].
  pose proof (Hw "debounce" "max_wait_ms" 3600000 ltac:(done)) as Hm. split; [done|].
  pose proof (Hw "wal" "max_size_mb" 1024 ltac:(done)) as [H0 H1]. split; [done|]. split.
  - by apply wal_max_bytes_bound.
  - split; [intros H2; unfold wal_max_bytes; cbn [wal_max_size_mb] in *; rewrite Z.mod_small; lia|].
    unfold nanoseconds, u63 in *. intros H2. apply wrap64_small. lia.
Qed.

(** C39. The loop over the characters of the log's directory makes that directory
    with all that lead to it, when none of them is obstructed, and keeps the
    directories there are. *)
Theorem wal_dir_made `{FileSystemLaws Disk} (fs : Disk) path :
  wal_dir path <> "" -> (forall p, startswith (wal_dir path) p = true -> ~ obstructed fs p) ->
  is_dir (mkdirs (wal_dir path) fs) (wal_dir path) /\
  (forall q, is_dir fs q -> is_dir (mkdirs (wal_dir path) fs) q).
Proof.
  intros Hd Ho. split; [|intros q; apply calls_keep].
  apply (calls_make fs "" "" (wal_dir path)); auto.
Qed.

Section Agent.
Context `{FileSystem Disk} (open_log : Disk -> string -> bool * string) (fs : Disk) (works : bool).
Context (traversal : gmap string Entry -> list (string * Entry)) (hostname : string).
Hypothesis traversal_all : forall m, traversal m ≡ₚ map_to_list m.
Hypothesis hostname_short : short hostname.

(** C13. The agent from its configuration file on.  Whatever a readable file
    says, whichever of its values have the wrong type: let the file at its log's
    path, once the directories have been made, be one of whole records, and
    opened or not; let every [stat] work and every record be written whole or not
    at all.  Then, for any events their struct can hold, clocks, signals and
    other answers of librdkafka and the disk, and a host name of at most 5120
    bytes, [main] gets to its end, where no change waits in the
    debouncer, and the texts of the log, the texts sent and the copies a replay
    could not remove are together the texts acknowledged, queued, in the log,
    dropped at the configured limit, or lost in a failed write; the log has at
    most the configured number of megabytes and one record more, unless it was
    longer at the start; and if the log could be opened and the disk works,
    nothing is lost or copied. *)
Theorem configured_agent tbl cfg log0 opened0 r0 start turns env rs :
  document_ok tbl -> load (Some tbl) default_config = Some cfg ->
  open_log (mkdirs (wal_dir (wal_path cfg)) fs) (wal_path cfg) = (opened0, wal_of log0) ->
  Forall fits log0 -> replay_ok works r0 -> Forall (turn_ok works) turns ->
  stamps_ok works env -> reports_ok works rs ->
  exists st ts,
    agent_main open_log fs traversal hostname (Some tbl) true r0 start turns env rs = Some (st, ts) /\
    debouncer (ectx st) = ∅ /\
    log0 ++ ts ++ copied (out st)
      ≡ₚ acked (out st) ++ queue (out st) ++ logged (out st) ++ dropped (out st) ++ lost (out st) /\
    file_size true (wal (out st)) <=
      Z.max (Z.of_nat (String.length (wal_of log0))) (wal_max_size_mb cfg * 2 ^ 20 + 8 + MAX_RECORD) /\
    (works = true -> opened0 = true -> lost (out st) = [] /\ copied (out st) = []).
Proof.
  intros Hd E Eo H0 Hr0 Ht Henv Hrs. unfold agent_main. rewrite E, Eo.
  destruct (AgentMain.main _ _ _ _ _ _ _ _ _ _ _ _) as [st ts] eqn:Em.
  exists st, ts. split; [done|].
  destruct (main_conserves _ _ _ _ _ _ traversal_all hostname_short _ _ _ _ _ _ _ _ _ _ H0 Hr0 Ht Henv Hrs Em)
    as ((Hp & Hb & Hg) & _ & Hn).
  split; [done|]. split; [done|]. split; [|done].
  assert (Hw : 0 <= wal_max_size_mb cfg).
  { injection E as <-. cbn [wal_max_size_mb]. by apply setting_bounded. }
  pose proof (wal_max_bytes_bound cfg Hw). lia.
Qed.
End Agent.

(** ** Where the promises stop *)

Lemma rfind_lacks s : lacks slash s = true -> rfind "/" s = None.
Proof.
  induction s as [|c s IH]; [done|]. intros [Hc Hs]%andb_true_iff.
  cbn [rfind startswith]. rewrite IH by done. fold slash.
  replace (Ascii.eqb slash c) with false; [done|]. rewrite Ascii.eqb_sym. by destruct (Ascii.eqb c slash).
Qed.

(** The log's path without a slash: [rfind] finds nothing, the directory is the
    path itself, and the log cannot be opened because it is a directory. *)
Theorem bare_log_name_is_directory `{FileSystemLaws Disk} (fs : Disk) path :
  path <> "" -> lacks slash path = true ->
  (forall p, startswith path p = true -> ~ obstructed fs p) ->
  is_dir (mkdirs (wal_dir path) fs) path.
Proof.
  intros Hne Hl Ho. unfold wal_dir, rsplit1_head. rewrite rfind_lacks by done.
  by apply (calls_make fs "" "" path); auto.
Qed.


(** A limit of 2^44 megabytes is none at all: the product wraps to 0, and every
    text that cannot be sent is dropped.  A [max_wait_ms] of 317 years is a
    negative number of nanoseconds: a file's second event is reported at once. *)
Theorem large_settings_overflow :
  (exists c, load (Some {["wal" := Some {["max_size_mb" := IntegerNode (2 ^ 44)]}]}) default_config = Some c /\
     wal_max_bytes c = 0) /\
  nanoseconds 10000000000000 < 0.
Proof. split; [eexists; split; reflexivity|]. vm_compute. reflexivity. Qed.

(** ** Witnesses *)

Lemma wal_dir_made_witness :
  mkdir_calls "" (wal_dir (wal_path default_config)) =
    ["/"; "/var/"; "/var/lib/"; "/var/lib/file-tracker/"; "/var/lib/file-tracker/wal"] /\
  is_dir (mkdirs (wal_dir (wal_path default_config)) (Tree {[ ["var"]; ["home"] ]} ∅))
    "/var/lib/file-tracker/wal".
Proof.
  split; [vm_compute; reflexivity|].
  refine (proj1 (wal_dir_made (Tree {[ ["var"]; ["home"] ]} ∅) (wal_path default_config) _ _)).
  - vm_compute. discriminate.
  - intros p _ Hx. cbn in Hx. set_solver.
Defined.

Lemma settings_bounded_witness :
  u63 (debounce_quiet_ms default_config) /\ wal_max_bytes default_config = 1024 * 2 ^ 20.
Proof.
  assert (Hd : document_ok ∅) by (intros sec key t v; by rewrite lookup_empty).
  destruct (settings_bounded ∅ default_config Hd eq_refl) as (Hq & _ & _ & _ & Hw & _).
  split; [exact Hq|]. apply Hw. reflexivity.
Defined.

Lemma load_roundtrip_witness :
  load (Some (document_of default_config)) default_config = Some default_config.
Proof. apply load_roundtrip; vm_compute; discriminate. Defined.

(** A limit of no megabytes, given as a float, and a quiet period that is a
    string: the first is used, the second is not. *)
Definition odd_document : document :=
  {["wal" := Some {["max_size_mb" := FloatNode (Some 0)]};
    "debounce" := Some {["quiet_ms" := StringNode "10s"]}]}.

Lemma odd_document_ok : document_ok odd_document.
Proof.
  intros sec key t v. unfold odd_document. intros [[_ E]|[_ [_ E]%lookup_singleton_Some]]%lookup_insert_Some;
    injection E as <-; intros [_ <-]%lookup_singleton_Some; cbn; unfold int64; lia.
Qed.

Definition odd_config : Config := default default_config (load (Some odd_document) default_config).

(** Every file of [tree] can be opened and is empty. *)
Definition open_empty (fs : tree) (path : string) : bool * string := (true, "").

Abbreviation root_only := (Tree ∅ ∅).

Definition odd_run : option (agent * list string) :=
  agent_main open_empty root_only map_to_list "node-001" (Some odd_document) true no_replay 0
    demo_turns [(7, taken)] [].

Lemma configured_agent_witness :
  from_option (fun r => (length r.2, length (dropped (out r.1)))) (0%nat, 0%nat) odd_run = (3%nat, 1%nat) /\
  exists st ts, odd_run = Some (st, ts) /\ debouncer (ectx st) = ∅ /\ lost (out st) = [].
Proof.
  split; [vm_compute; reflexivity|].
  destruct (configured_agent open_empty root_only true map_to_list "node-001" (fun m => reflexivity _)
    ltac:(vm_compute; lia) odd_document odd_config [] true no_replay 0 demo_turns [(7, taken)] [])
    as (st & ts & Hm & Hn & _ & _ & Hg).
  - exact odd_document_ok.
  - reflexivity.
  - reflexivity.
  - constructor.
  - apply no_replay_ok.
  - apply demo_turns_ok.
  - constructor; [|constructor]. split; [simpl; unfold int64; lia|apply fine_steady].
  - constructor.
  - exists st, ts. split; [exact Hm|]. split; [exact Hn|]. by apply Hg.
Defined.

(** Directories cannot be opened; every other file can, and is empty. *)
Definition open_tree (fs : tree) (path : string) : bool * string :=
  (negb (bool_decide (components path = [] \/ components path ∈ dirs fs)), "").

Definition bare_document : document := {["wal" := Some {["path" := StringNode "events.wal"]}]}.

Definition bare_config : Config := default default_config (load (Some bare_document) default_config).

Definition bare_run : option (agent * list string) :=
  agent_main open_tree root_only map_to_list "node-001" (Some bare_document) true no_replay 0
    demo_turns [(7, taken)] [].

