(* ===== verification/Probe.v ===== *)
(** [src/bpf/probe.bpf.c], the kernel side of the agent: from a hooked file
    operation to the events in the ring buffer.

    A [dentry] is the chain of names the kernel keeps for a file, up to the root
    of its file system.  [probe] is the state of the probe's maps for one CPU,
    whose hooks do not interleave; the times, the answers of the ring buffer
    and the evictions of the LRU map are arguments.  Names hold no zero byte. *)
From S2P Require Import Prelude PyStr EventText Debouncer Agent.
From Stdlib Require Import Ascii.

Local Open Scope string_scope.
Local Open Scope Z_scope.
#[local] Set Warnings "-clear-no-such-hyp".

Definition MAX_DEPTH : nat := 20.
Definition MAX_NAME_LEN : nat := 256.
Definition DEDUP_INTERVAL_NS : Z := 1000000000.

(** ** The kernel's data *)

(** [d_name], [d_inode->i_ino] and [d_parent]; a root is its own parent. *)
Inductive dentry : Type :=
| Root (inode : Z)
| Dentry (name : string) (inode : Z) (parent : dentry).

Definition i_ino (d : dentry) : Z :=
  match d with Root ino | Dentry _ ino _ => ino end.

(** Names from the file up to the root. *)
Fixpoint components (d : dentry) : list string :=
  match d with
  | Root _ => []
  | Dentry name _ parent => name :: components parent
  end.

(** The path of these components. *)
Definition path_of (names : list string) : string :=
  foldl (fun path name => "/" +:+ name +:+ path) "" names.

(** ** The maps *)

Record probe := {
  scratch : list string;      (* evt->names of the scratch event *)
  total : Z;                  (* CTR_TOTAL *)
  drops : Z;                  (* CTR_DROPS *)
  dedup_skipped : Z;          (* CTR_DEDUP *)
  dedup : gmap Z Z            (* inode -> time of the last check that passed *)
}.

Definition u64 (z : Z) : Z := z mod 2 ^ 64.

Definition start_probe : probe :=
  {| scratch := replicate MAX_DEPTH ""; total := 0; drops := 0; dedup_skipped := 0; dedup := ∅ |}.

(** ** [emit_event] *)

(** The loop over [i], [n] steps before its end; [evt->depth] is [i]. *)
Fixpoint walk (n i : nat) (d : dentry) (ns : list string) : list string * nat :=
  match n with
  | O => (ns, i)
  | S n' =>
      match d with
      | Root _ => (ns, i)
      | Dentry name _ parent =>
          if String.eqb name "" then (ns, i)
          else walk n' (S i) parent (<[i := take_str (MAX_NAME_LEN - 1) name]> ns)
      end
  end.

(** [output]: does [bpf_ringbuf_output] find room? *)
Definition emit_event (now : Z) (output : bool) (d : dentry) (ty : Z) (st : probe)
    : probe * list (Z * raw_event) :=
  let '(ns, depth) := walk MAX_DEPTH 0 d (scratch st) in
  match depth with
  | O => ({| scratch := ns; total := total st; drops := drops st;
             dedup_skipped := dedup_skipped st; dedup := dedup st |}, [])
  | _ => ({| scratch := ns; total := u64 (total st + 1);
             drops := if output then drops st else u64 (drops st + 1);
             dedup_skipped := dedup_skipped st; dedup := dedup st |},
          if output then [(now, Raw ty depth ns)] else [])
  end.

(** [dedup_check]; [evicted] are the inodes the LRU map throws out. *)
Definition dedup_check (now : Z) (evicted : list Z) (d : dentry) (st : probe) : bool * probe :=
  let recent := match dedup st !! i_ino d with
                | Some last => u64 (now - last) <? DEDUP_INTERVAL_NS
                | None => false
                end in
  if recent
  then (true, {| scratch := scratch st; total := total st; drops := drops st;
                 dedup_skipped := u64 (dedup_skipped st + 1); dedup := dedup st |})
  else (false, {| scratch := scratch st; total := total st; drops := drops st;
                  dedup_skipped := dedup_skipped st;
                  dedup := <[i_ino d := now]> (foldr delete (dedup st) evicted) |}).

(** ** The hooks *)

Inductive hook : Type :=
| vfs_unlink (d : dentry)
| vfs_write (d : dentry)
| do_truncate (d : dentry)
| vfs_rename (old_dentry new_dentry : dentry)
| vfs_utimes (d : dentry).

(** What the kernel decides around a hook: the answers of the two clock reads
    and of the two outputs a hook can make, and the evictions. *)
Record kernel := Kernel {
  ktime : Z; ktime' : Z; output : bool; output' : bool; evicted : list Z
}.

Definition trace_mtime (k : kernel) (d : dentry) (st : probe) : probe * list (Z * raw_event) :=
  let '(skip, st) := dedup_check (ktime k) (evicted k) d st in
  if skip then (st, []) else emit_event (ktime' k) (output k) d EVENT_MTIME st.

Definition trace_hook (k : kernel) (hk : hook) (st : probe) : probe * list (Z * raw_event) :=
  match hk with
  | vfs_unlink d => emit_event (ktime k) (output k) d EVENT_DELETE st
  | vfs_write d | do_truncate d => trace_mtime k d st
  | vfs_rename old_dentry new_dentry =>
      let '(st1, e1) := emit_event (ktime k) (output k) old_dentry EVENT_RENAME_FROM st in
      let '(st2, e2) := emit_event (ktime' k) (output' k) new_dentry EVENT_RENAME_TO st1 in
      (st2, e1 ++ e2)%list
  | vfs_utimes d => emit_event (ktime k) (output k) d EVENT_MTIME st
  end.

Fixpoint trace_hooks (l : list (kernel * hook)) (st : probe) : probe * list (Z * raw_event) :=
  match l with
  | [] => (st, [])
  | (k, hk) :: l' =>
      let '(st1, e1) := trace_hook k hk st in
      let '(st2, e2) := trace_hooks l' st1 in (st2, e1 ++ e2)%list
  end.

(** ** Specification: what the agent should see of a file operation *)

(** The path the agent can know: the last [MAX_DEPTH] components. *)
Definition path (d : dentry) : string := path_of (take MAX_DEPTH (components d)).

(** A file below the root of its file system, with names the kernel allows. *)
Definition named (d : dentry) : Prop :=
  components d <> [] /\
  Forall (fun name => name <> "" /\ (String.length name < MAX_NAME_LEN)%nat) (components d).

Definition hook_named (hk : hook) : Prop :=
  match hk with
  | vfs_unlink d | vfs_write d | do_truncate d | vfs_utimes d => named d
  | vfs_rename old_dentry new_dentry => named old_dentry /\ named new_dentry
  end.

(** The inode a hook checks for repetition. *)
Definition checked_inode (hk : hook) : option Z :=
  match hk with vfs_write d | do_truncate d => Some (i_ino d) | _ => None end.

(** What the history of the hooks, newest first, says of an inode: the time of
    its last write or truncation that was not itself a repetition, unless a
    later one has evicted it. *)
Fixpoint remembered (hist : list (kernel * hook)) (ino : Z) : option Z :=
  match hist with
  | [] => None
  | (k, hk) :: older =>
      match checked_inode hk with
      | None => remembered older ino
      | Some i =>
          if match remembered older i with Some t => u64 (ktime k - t) <? 10 ^ 9 | None => false end
          then remembered older ino
          else if i =? ino then Some (ktime k)
          else if decide (ino ∈ evicted k) then None
          else remembered older ino
      end
  end.

(** A repetition: a write or truncation less than a second after one of the same
    inode number that is remembered. *)
Definition repeated (hist : list (kernel * hook)) (k : kernel) (hk : hook) : bool :=
  match checked_inode hk with
  | Some i => match remembered hist i with Some t => u64 (ktime k - t) <? 10 ^ 9 | None => false end
  | None => false
  end.

(** Does the probe skip the write? *)
Definition skipped (k : kernel) (hk : hook) (st : probe) : bool :=
  match hk with
  | vfs_write d | do_truncate d => (dedup_check (ktime k) (evicted k) d st).1
  | _ => false
  end.

Section Agent.
Context (watch_prefix : string) (max_wait : Z).

Definition report (now : Z) (p : string) (ty : Z) (m : gmap string Entry)
    : gmap string Entry * list fs_event :=
  if watched watch_prefix p then
    let '(m', out) := on_event max_wait now p ty m in (m', fs_event_of <$> out)
  else (m, []).

Definition see (now : Z) (hk : hook) (m : gmap string Entry) : gmap string Entry * list fs_event :=
  match hk with
  | vfs_unlink d => report now (path d) EVENT_DELETE m
  | vfs_write d | do_truncate d | vfs_utimes d => report now (path d) EVENT_MTIME m
  | vfs_rename o n =>
      (m, if watched watch_prefix (path o) || watched watch_prefix (path n)
          then [FsRename (path o) (path n)] else [])
  end.

(** Hooks and the times at which the agent gets their events: the history, the
    operations that are no repetitions, and their effect. *)
Fixpoint see_all (l : list (Z * kernel * hook)) (hist : list (kernel * hook)) (m : gmap string Entry)
    : gmap string Entry * list fs_event :=
  match l with
  | [] => (m, [])
  | (now, k, hk) :: l' =>
      let '(m1, out) := if repeated hist k hk then (m, []) else see now hk m in
      let '(m2, outs) := see_all l' ((k, hk) :: hist) m1 in (m2, out ++ outs)%list
  end.

(** The events as [handle_event] gets them from the ring buffer. *)
Fixpoint ring (l : list (Z * kernel * hook)) (st : probe) : list (Z * raw_event) :=
  match l with
  | [] => []
  | (now, k, hk) :: l' =>
      let '(st1, evs) := trace_hook k hk st in
      ((fun e => (now, e.2)) <$> evs) ++ ring l' st1
  end.
End Agent.

(** ** Lemmas *)

Lemma take_str_short n s : (String.length s <= n)%nat -> take_str n s = s.
Proof.
  revert n. induction s as [|c s IH]; intros [|n] Hl; simpl in *; try done; [lia|].
  rewrite IH by lia. done.
Qed.

Lemma path_of_snoc names name : path_of (names ++ [name]) = "/" +:+ name +:+ path_of names.
Proof. unfold path_of. by rewrite foldl_app. Qed.

Lemma path_of_nonempty names : names <> [] -> String.eqb (path_of names) "" = false.
Proof. destruct names as [|x names _] using rev_ind; [done|]. intros _. by rewrite path_of_snoc. Qed.

Lemma build_from_path ns i : (i <= length ns)%nat -> build_from ns i = path_of (take i ns).
Proof.
  induction i as [|i IH]; intros Hi; [done|].
  destruct (lookup_lt_is_Some_2 ns i ltac:(lia)) as [n Hn].
  rewrite (take_S_r _ _ n), path_of_snoc by done. cbn [build_from].
  rewrite (nth_lookup_Some _ _ _ _ Hn), IH by lia. done.
Qed.

Lemma walk_names n i d ns :
  Forall (fun name => name <> "" /\ (String.length name < MAX_NAME_LEN)%nat) (components d) ->
  (i + n <= length ns)%nat ->
  let '(ns', depth) := walk n i d ns in
  length ns' = length ns /\ depth = (i + length (take n (components d)))%nat /\
  take depth ns' = (take i ns ++ take n (components d))%list.
Proof.
  revert i d ns. induction n as [|n IH]; intros i d ns Hn Hi; cbn [walk].
  { rewrite app_nil_r. repeat split; simpl; lia. }
  destruct d as [ino|name ino parent]; cbn [components take length] in *.
  { rewrite app_nil_r. repeat split; simpl; lia. }
  apply Forall_cons in Hn as [[Hne Hl] Hn].
  destruct (String.eqb_spec name "") as [|_]; [done|].
  rewrite take_str_short by (unfold MAX_NAME_LEN in *; lia).
  specialize (IH (S i) parent (<[i := name]> ns) Hn). rewrite length_insert in IH.
  specialize (IH ltac:(lia)). destruct (walk n (S i) parent (<[i:=name]> ns)) as [ns' depth].
  destruct IH as (Hl' & -> & Ht). split; [done|]. split; [lia|]. rewrite Ht.
  rewrite (take_S_r _ _ name), take_insert_ge, <-app_assoc by (rewrite ?list_lookup_insert_eq; lia || done).
  done.
Qed.

Lemma emit_named now d ty st :
  length (scratch st) = MAX_DEPTH -> named d ->
  exists st' evt, emit_event now true d ty st = (st', [(now, evt)]) /\
    length (scratch st') = MAX_DEPTH /\ dedup st' = dedup st /\
    event_type evt = ty /\ build_path evt = path d.
Proof.
  intros Hs [Hne Hn]. unfold emit_event.
  pose proof (walk_names MAX_DEPTH 0 d (scratch st) Hn ltac:(lia)) as H.
  destruct (walk MAX_DEPTH 0 d (scratch st)) as [ns depth]. destruct H as (Hl & Hd & Ht).
  assert (Hpos : (0 < depth)%nat).
  { rewrite Hd. destruct (components d); [done|]. simpl. lia. }
  destruct depth as [|i]; [lia|]. do 2 eexists. split; [done|]. cbn [scratch Probe.dedup event_type].
  repeat (split; [done || lia|]). unfold build_path. cbn [names Agent.depth].
  rewrite build_from_path, Ht by (rewrite length_take in Hd; lia). simpl (take 0 _ ++ _)%list.
  unfold path. rewrite path_of_nonempty; [done|]. intros Et. rewrite Et in Hd. simpl in Hd. lia.
Qed.

(** One hook: its events do what should be seen of it. *)
Lemma ring_hook prefix max_wait now k hk st c :
  output k = true -> output' k = true -> length (scratch st) = MAX_DEPTH -> hook_named hk ->
  has_pending_rename c = false ->
  let '(st', evs) := trace_hook k hk st in
  let '(c', sent) := handle_all prefix max_wait ((fun e => (now, e.2)) <$> evs) c in
  length (scratch st') = MAX_DEPTH /\ has_pending_rename c' = false /\
  (debouncer c', sent) = if skipped k hk st then (debouncer c, [])
                         else see prefix max_wait now hk (debouncer c).
Proof.
  intros Ho Ho' Hs Hn Hc.
  assert (Hemit : forall t d ty st0, length (scratch st0) = MAX_DEPTH -> named d ->
    ty <> EVENT_RENAME_FROM /\ ty <> EVENT_RENAME_TO ->
    let '(st', evs) := emit_event t true d ty st0 in
    let '(c', sent) := handle_all prefix max_wait ((fun e => (now, e.2)) <$> evs) c in
    length (scratch st') = MAX_DEPTH /\ has_pending_rename c' = false /\
    (debouncer c', sent) = report prefix max_wait now (path d) ty (debouncer c)).
  { intros t d ty st0 Hs0 Hd Hty. destruct (emit_named t d ty st0 Hs0 Hd) as (st' & evt & -> & Hs' & _ & Ht & Hp).
    assert (Hpr : proper (now, OnPath evt).2) by (simpl; by rewrite Ht).
    pose proof (handle_operation prefix max_wait (now, OnPath evt) c Hpr Hc) as H.
    unfold kernel_events in H. cbn [snd fst] in H. cbn [fmap list_fmap snd].
    destruct (handle_all prefix max_wait [(now, evt)] c) as [c' sent]. destruct H as [-> Hc'].
    split; [done|]. split; [done|]. unfold perform, report. cbn [snd fst]. by rewrite Hp, Ht. }
  destruct hk as [d|d|d|o n|d]; cbn [trace_hook skipped see hook_named] in *;
    unfold trace_mtime; rewrite ?Ho, ?Ho'.
  1,5: by apply Hemit.
  1,2: destruct (dedup_check (ktime k) (evicted k) d st) as [skip st1] eqn:Ed;
    assert (Hs1 : length (scratch st1) = MAX_DEPTH)
      by (unfold dedup_check in Ed; by repeat case_match; simplify_eq);
    cbn [fst]; destruct skip; [done|by apply Hemit].
  destruct Hn as [Hn1 Hn2].
  destruct (emit_named (ktime k) o EVENT_RENAME_FROM st Hs Hn1) as (st1 & e1 & -> & Hs1 & _ & Ht1 & Hp1).
  destruct (emit_named (ktime' k) n EVENT_RENAME_TO st1 Hs1 Hn2) as (st2 & e2 & -> & Hs2 & _ & Ht2 & Hp2).
  pose proof (handle_operation prefix max_wait (now, Rename e1 e2) c (conj Ht1 Ht2) Hc) as H.
  unfold kernel_events in H. cbn [snd fst] in H. cbn [fmap list_fmap snd app].
  destruct (handle_all prefix max_wait [(now, e1); (now, e2)] c) as [c' sent]. destruct H as [-> Hc'].
  split; [done|]. split; [done|]. unfold perform. cbn [snd]. by rewrite Hp1, Hp2.
Qed.

(** *** The table and the history *)

Lemma emit_dedup now ok d ty st : dedup (emit_event now ok d ty st).1 = dedup st.
Proof. unfold emit_event. by destruct (walk MAX_DEPTH 0 d (scratch st)) as [ns [|i]]. Qed.

Lemma lookup_foldr_delete evicted (m : gmap Z Z) ino :
  foldr delete m evicted !! ino = if decide (ino ∈ evicted) then None else m !! ino.
Proof.
  induction evicted as [|e l IH]; cbn [foldr]; [by rewrite decide_False by set_solver|].
  destruct (decide (ino = e)) as [->|Hne].
  - by rewrite lookup_delete_eq, decide_True by set_solver.
  - rewrite lookup_delete_ne, IH by done. by destruct (decide (ino ∈ l)), (decide (ino ∈ e :: l)); try (exfalso; set_solver).
Qed.

(** The table holds what the history says. *)
Definition follows (st : probe) (hist : list (kernel * hook)) : Prop :=
  forall ino, dedup st !! ino = remembered hist ino.

Lemma skipped_repeated st hist k hk : follows st hist -> skipped k hk st = repeated hist k hk.
Proof.
  intros H. unfold repeated. destruct hk as [d|d|d|o n|d]; cbn [skipped checked_inode]; try done;
    unfold dedup_check; rewrite H; (destruct (remembered hist (i_ino d)) as [t|]; [|done]);
    change DEDUP_INTERVAL_NS with (10 ^ 9); by destruct (_ <? _).
Qed.

Lemma mtime_follows k d hk st hist :
  checked_inode hk = Some (i_ino d) -> follows st hist ->
  follows (trace_mtime k d st).1 ((k, hk) :: hist).
Proof.
  intros Hi H ino. cbn [remembered]. rewrite Hi. unfold trace_mtime, dedup_check. rewrite (H (i_ino d)).
  change DEDUP_INTERVAL_NS with (10 ^ 9).
  destruct (match remembered hist (i_ino d) with Some _ => _ | None => _ end); [apply H|].
  rewrite emit_dedup. cbn [dedup]. destruct (Z.eqb_spec (i_ino d) ino) as [->|Hne]; [by rewrite lookup_insert_eq|].
  rewrite lookup_insert_ne, lookup_foldr_delete by done. by rewrite H.
Qed.

Lemma hook_follows k hk st hist :
  follows st hist -> follows (trace_hook k hk st).1 ((k, hk) :: hist).
Proof.
  intros H. destruct hk as [d|d|d|o n|d]; cbn [trace_hook]; try by apply mtime_follows.
  1,3: intros ino; rewrite emit_dedup; apply H.
  intros ino. pose proof (emit_dedup (ktime k) (output k) o EVENT_RENAME_FROM st) as H1.
  destruct (emit_event (ktime k) (output k) o EVENT_RENAME_FROM st) as [st1 e1].
  pose proof (emit_dedup (ktime' k) (output' k) n EVENT_RENAME_TO st1) as H2.
  destruct (emit_event (ktime' k) (output' k) n EVENT_RENAME_TO st1) as [st2 e2].
  cbn [fst] in *. rewrite H2, H1. apply H.
Qed.

(** From any point of the probe's history on. *)
Lemma ring_seen prefix max_wait l st hist c :
  follows st hist -> length (scratch st) = MAX_DEPTH -> has_pending_rename c = false ->
  Forall (fun x => output x.1.2 = true /\ output' x.1.2 = true /\ hook_named x.2) l ->
  let '(c', sent) := handle_all prefix max_wait (ring l st) c in
  (debouncer c', sent) = see_all prefix max_wait l hist (debouncer c).
Proof.
  intros Hf Hs Hc Hl. revert st hist c Hf Hs Hc. induction Hl as [|[[now k] hk] l (Ho & Ho' & Hn) _ IH];
    intros st hist c Hf Hs Hc; cbn [ring see_all]; [done|].
  pose proof (ring_hook prefix max_wait now k hk st c Ho Ho' Hs Hn Hc) as H.
  pose proof (hook_follows k hk st hist Hf) as Hf1. rewrite (skipped_repeated st hist k hk Hf) in H.
  destruct (trace_hook k hk st) as [st1 evs]. rewrite handle_all_app. cbn [fst] in *.
  destruct (handle_all prefix max_wait ((fun e => (now, e.2)) <$> evs) c) as [c1 out].
  destruct H as (Hs1 & Hc1 & H). cbn [fst snd].
  destruct (if repeated hist k hk then (debouncer c, []) else see prefix max_wait now hk (debouncer c)) as [m1 o].
  injection H as <- <-. specialize (IH st1 ((k, hk) :: hist) c1 Hf1 Hs1 Hc1).
  destruct (handle_all prefix max_wait (ring l st1) c1) as [c2 outs]. by rewrite <-IH.
Qed.

(** ** Properties *)

(** C30. What the agent knows of file operations: for any sequence of hooked
    operations, one after the other, from the probe's start, on files with kernel-legal names below the
    root of their file system, when the ring buffer has room for every event, and
    whatever the clocks read and the table of recent writes evicts: the debouncer
    receives and the agent sends exactly the watched operations, each with the
    last twenty components of its file's path below the root of its file system,
    but for the repetitions: the writes and truncations less than a second after
    a remembered one of the same inode number. *)
Theorem agent_sees_operations prefix max_wait l c :
  has_pending_rename c = false ->
  Forall (fun x => output x.1.2 = true /\ output' x.1.2 = true /\ hook_named x.2) l ->
  let '(c', sent) := handle_all prefix max_wait (ring l start_probe) c in
  (debouncer c', sent) = see_all prefix max_wait l [] (debouncer c).
Proof. intros Hc Hl. by apply ring_seen. Qed.

(** *** Counters and repeated writes *)

Lemma u64_add a b : u64 (u64 a + b) = u64 (a + b).
Proof. unfold u64. apply Zplus_mod_idemp_l. Qed.

Lemma u64_id a : u64 (u64 a) = u64 a.
Proof. unfold u64. by rewrite Zmod_mod. Qed.

Definition counted (n : nat) (st : probe) : Prop := total st = u64 (drops st + Z.of_nat n).

Lemma emit_counted now ok d ty st n :
  counted n st -> let '(st', evs) := emit_event now ok d ty st in counted (n + length evs) st'.
Proof.
  unfold counted, emit_event. intros H. destruct (walk MAX_DEPTH 0 d (scratch st)) as [ns [|i]].
  { simpl. by rewrite Nat.add_0_r. }
  destruct ok; cbn [length total drops]; rewrite H, u64_add; [f_equal; lia|].
  rewrite u64_add. f_equal. lia.
Qed.

Lemma trace_hook_counted k hk st n :
  counted n st -> let '(st', evs) := trace_hook k hk st in counted (n + length evs) st'.
Proof.
  intros H. destruct hk as [d|d|d|o w|d]; cbn [trace_hook]; try (by apply emit_counted).
  1,2: unfold trace_mtime; destruct (dedup_check (ktime k) (evicted k) d st) as [skip st1] eqn:E;
    assert (counted n st1) by (unfold dedup_check, counted in *; by repeat case_match; simplify_eq);
    destruct skip; [by rewrite Nat.add_0_r|by apply emit_counted].
  pose proof (emit_counted (ktime k) (output k) o EVENT_RENAME_FROM st n H) as H1.
  destruct (emit_event (ktime k) (output k) o EVENT_RENAME_FROM st) as [st1 e1].
  pose proof (emit_counted (ktime' k) (output' k) w EVENT_RENAME_TO st1 _ H1) as H2.
  destruct (emit_event (ktime' k) (output' k) w EVENT_RENAME_TO st1) as [st2 e2].
  by rewrite length_app, Nat.add_assoc.
Qed.

Lemma trace_hooks_counted l st n :
  counted n st -> let '(st', evs) := trace_hooks l st in counted (n + length evs) st'.
Proof.
  revert st n. induction l as [|[k hk] l IH]; intros st n H; cbn [trace_hooks]; [by rewrite Nat.add_0_r|].
  pose proof (trace_hook_counted k hk st n H) as H1. destruct (trace_hook k hk st) as [st1 e1].
  specialize (IH st1 _ H1). destruct (trace_hooks l st1) as [st2 e2]. by rewrite length_app, Nat.add_assoc.
Qed.

Lemma trace_hooks_snoc l k hk st :
  (trace_hooks (l ++ [(k, hk)]) st).1 = (trace_hook k hk (trace_hooks l st).1).1.
Proof.
  revert st. induction l as [|[k0 hk0] l IH]; intros st; cbn [trace_hooks app].
  { cbn [fst]. by destruct (trace_hook k hk st). }
  destruct (trace_hook k0 hk0 st) as [st1 e1]. specialize (IH st1).
  destruct (trace_hooks (l ++ [(k, hk)]) st1), (trace_hooks l st1). exact IH.
Qed.

(** A check of the inode that passed at time [t], in a sequence of hooks. *)
Definition passed (l : list (kernel * hook)) (ino t : Z) : Prop :=
  exists l1 k hk l2, l = (l1 ++ (k, hk) :: l2)%list /\ checked_inode hk = Some ino /\ ktime k = t /\
    skipped k hk (trace_hooks l1 start_probe).1 = false.

Lemma passed_snoc l x ino t : passed l ino t -> passed (l ++ [x]) ino t.
Proof.
  intros (l1 & k & hk & l2 & -> & H). exists l1, k, hk, (l2 ++ [x])%list. split; [by rewrite <-app_assoc|done].
Qed.

Lemma lookup_evicted evicted (m : gmap Z Z) ino t :
  foldr delete m evicted !! ino = Some t -> m !! ino = Some t.
Proof.
  induction evicted as [|e l IH]; simpl; [done|]. intros H. apply lookup_delete_Some in H as [_ H]. by apply IH.
Qed.

Lemma hook_dedup k hk st ino t :
  dedup (trace_hook k hk st).1 !! ino = Some t ->
  dedup st !! ino = Some t \/ (checked_inode hk = Some ino /\ ktime k = t /\ skipped k hk st = false).
Proof.
  assert (Hm : forall d, dedup (trace_mtime k d st).1 !! ino = Some t ->
    dedup st !! ino = Some t \/
    (Some (i_ino d) = Some ino /\ ktime k = t /\ (dedup_check (ktime k) (evicted k) d st).1 = false)).
  { intros d. unfold trace_mtime. destruct (dedup_check (ktime k) (evicted k) d st) as [skip st1] eqn:E.
    unfold dedup_check in E. destruct (match dedup st !! i_ino d with Some _ => _ | None => _ end);
      injection E as <- <-; [by left|]. rewrite emit_dedup. cbn [dedup].
    intros [[<- <-]|[_ H]]%lookup_insert_Some; [by right|left]. by eapply lookup_evicted. }
  destruct hk as [d|d|d|o n|d]; cbn [trace_hook checked_inode skipped]; [|apply Hm|apply Hm|..].
  - rewrite emit_dedup. by left.
  - pose proof (emit_dedup (ktime k) (output k) o EVENT_RENAME_FROM st) as H1.
    destruct (emit_event (ktime k) (output k) o EVENT_RENAME_FROM st) as [st1 e1].
    pose proof (emit_dedup (ktime' k) (output' k) n EVENT_RENAME_TO st1) as H2.
    destruct (emit_event (ktime' k) (output' k) n EVENT_RENAME_TO st1) as [st2 e2].
    cbn [fst] in *. rewrite H2, H1. by left.
  - rewrite emit_dedup. by left.
Qed.

Lemma dedup_passed l ino t : dedup (trace_hooks l start_probe).1 !! ino = Some t -> passed l ino t.
Proof.
  induction l as [|[k hk] l IH] using rev_ind; [done|]. rewrite trace_hooks_snoc.
  intros [H|(Hi & Ht & Hs)]%hook_dedup; [by apply passed_snoc, IH|].
  exists l, k, hk, []. done.
Qed.

(** The counters add up: after any sequence of hooks, the total is the
    number of events in the ring buffer plus the drops, in 64-bit arithmetic. *)
Theorem probe_counts l :
  let '(st, evs) := trace_hooks l start_probe in total st = u64 (drops st + Z.of_nat (length evs)).
Proof. by apply (trace_hooks_counted l start_probe 0). Qed.

(** Only repetitions are skipped: a write or truncation that the probe
    skips comes less than a second after one of a file with the same inode
    number that was not skipped, in any sequence of hooks, clock values and
    evictions. *)
Theorem skip_is_recent l k hk :
  skipped k hk (trace_hooks l start_probe).1 = true ->
  exists ino t, checked_inode hk = Some ino /\ passed l ino t /\ u64 (ktime k - t) < DEDUP_INTERVAL_NS.
Proof.
  intros H. assert (exists d, checked_inode hk = Some (i_ino d) /\
    (dedup_check (ktime k) (evicted k) d (trace_hooks l start_probe).1).1 = true) as (d & -> & Hd)
    by (destruct hk; cbn [skipped] in H; try done; eauto).
  unfold dedup_check in Hd. destruct (dedup _ !! i_ino d) as [t|] eqn:E; [|done].
  destruct (Z.ltb_spec (u64 (ktime k - t)) DEDUP_INTERVAL_NS); [|done].
  exists (i_ino d), t. split; [done|]. split; [by apply dedup_passed|done].
Qed.

(** ** Where the promises stop *)

(** The file with these names, from the root of its file system down. *)
Definition below (root : dentry) (ino : Z) (names : list string) : dentry :=
  foldl (fun parent name => Dentry name ino parent) root names.

Definition on_time : kernel := Kernel 0 1 true true [].

(** A file more than twenty levels deep loses the head of its path, and with it
    the watched prefix: its changes are never reported. *)
Theorem deep_file_unwatched :
  let d := below (Root 2) 9 ("home" :: replicate 20 "d") in
  watched "/home" (path_of (components d)) = true /\
  named d /\
  (handle_all "/home" 0 (ring [(0, on_time, vfs_write d)] start_probe) start_ctx).2 = [] /\
  debouncer (handle_all "/home" 0 (ring [(0, on_time, vfs_write d)] start_probe) start_ctx).1 = ∅.
Proof.
  split; [reflexivity|]. split; [|split; vm_compute; reflexivity].
  split; [done|]. repeat constructor; done || (simpl; unfold MAX_NAME_LEN; lia).
Qed.

(** The chain of parents ends at the root of the file system: with [/home] a
    mount of its own, its files are seen without the [/home], and none passes
    the filter. *)
Theorem mounted_home_unseen :
  let d := below (Root 2) 9 ["stor1"; "userA"; "report.txt"] in
  path d = "/stor1/userA/report.txt" /\ watched "/home" (path d) = false.
Proof. split; reflexivity. Qed.

(** The table of recent writes knows no device: a write to a file is skipped
    because a file of another file system with the same inode number was
    written just before. *)
Theorem dedup_ignores_device :
  let log := below (Root 2) 4711 ["var"; "log"; "messages"] in
  let doc := below (Root 128) 4711 ["home"; "s"; "thesis.tex"] in
  map (fun e => build_path e.2)
    (ring [(0, on_time, vfs_write log); (0, Kernel 1000 1001 true true [], vfs_write doc)] start_probe)
  = ["/var/log/messages"].
Proof. vm_compute. reflexivity. Qed.

(** The two events of a rename carry the times of two clock reads, not the
    shared one of the comment. *)
Theorem rename_times_differ :
  let f name := below (Root 2) 9 ["home"; name] in
  map fst (trace_hook on_time (vfs_rename (f "a") (f "b")) start_probe).2 = [0; 1].
Proof. reflexivity. Qed.

(** ** Witnesses *)

Definition demo_file (name : string) : dentry := below (Root 2) 9 ["home"; "user"; name].

Definition demo_hooks : list (Z * kernel * hook) :=
  [(5, on_time, vfs_rename (demo_file "a") (demo_file "b"));
   (6, Kernel 10 11 true true [], vfs_write (demo_file "b"));
   (7, Kernel 20 21 true true [], vfs_write (demo_file "b"));
   (8, Kernel 30 31 true true [], vfs_unlink (demo_file "c"))].

Lemma demo_named name : name ∈ ["a"; "b"; "c"] -> named (demo_file name).
Proof.
  intros Hn. split; [done|]. unfold MAX_NAME_LEN.
  repeat (apply elem_of_cons in Hn as [->|Hn]; [repeat constructor; done || (simpl; lia)|]).
  by apply elem_of_nil in Hn.
Qed.

Lemma agent_sees_operations_witness :
  let '(c, sent) := handle_all "/home" 100 (ring demo_hooks start_probe) start_ctx in
  (debouncer c, sent)
  = ({["/home/user/b" := {| first_seen := 6; last_seen := 6 |}]},
     [FsRename "/home/user/a" "/home/user/b"; FsDelete "/home/user/c"]).
Proof.
  pose proof (agent_sees_operations "/home" 100 demo_hooks start_ctx eq_refl) as H.
  destruct (handle_all "/home" 100 (ring demo_hooks start_probe) start_ctx) as [c sent].
  rewrite H; [vm_compute; reflexivity|].
  unfold demo_hooks. repeat (apply Forall_cons; split); try done; cbn [fst snd hook_named];
    repeat split; apply demo_named; set_solver.
Defined.

Lemma skip_is_recent_witness :
  exists ino t, checked_inode (vfs_write (demo_file "b")) = Some ino /\
    passed [(Kernel 10 11 true true [], vfs_write (demo_file "b"))] ino t /\ u64 (20 - t) < DEDUP_INTERVAL_NS.
Proof.
  apply (skip_is_recent [(Kernel 10 11 true true [], vfs_write (demo_file "b"))]
    (Kernel 20 21 true true []) (vfs_write (demo_file "b"))).
  vm_compute. reflexivity.
Defined.
