(* ===== verification/EndToEnd.v ===== *)
(** From a file operation to restic: agent, Kafka, collector and backup together.

    A change of a watched file that the kernel reports to the agent is in
    [pending] once agent and collector have stopped, if the log of the agent
    could be sent and nothing failed, and a backup without faults settles it
    then: whatever order the log's replays give the records, however the
    debouncer delays the report, whatever else happens to other files.  With
    anything running beside the collector, and failing, it is not lost. *)
From S2P Require Import Repo Backup NoLoss Progress Jobs System BackEnd.
From S2P Require Import Prelude PyStr PyVal Config Effects Semantics Redis Sim Consumer ConsumerMain Session EventText Debouncer Wal Agent AgentMain.

Local Open Scope string_scope.
Local Open Scope Z_scope.
#[local] Set Warnings "-clear-no-such-hyp".

(** ** In the agent: a change is handed over *)

Section Change.
Context (traversal : gmap string Entry -> list (string * Entry)).
Context (watch_prefix : string) (quiet_period max_wait : Z).
Hypothesis traversal_all : forall m, traversal m ≡ₚ map_to_list m.
Context (p : string).

(** Events that take the path away. *)
Definition deletes (evt : raw_event) : Prop := event_type evt = EVENT_DELETE /\ build_path evt = p.
Definition renames (evt : raw_event) : Prop := event_type evt = EVENT_RENAME_FROM /\ build_path evt = p.

(** An event that reports a change of it. *)
Definition changes (evt : raw_event) : Prop :=
  build_path evt = p /\ watched watch_prefix p = true /\
  event_type evt <> EVENT_DELETE /\ event_type evt <> EVENT_RENAME_FROM /\ event_type evt <> EVENT_RENAME_TO.

(** The change is waiting or has been handed over. *)
Definition known (c : EventCtx) (es : list fs_event) : Prop :=
  p ∈ dom (debouncer c) \/ FsMtime p ∈ es.

Lemma known_more c es es' : known c es -> known c (es ++ es').
Proof. intros [H|H]; [by left|right; apply elem_of_app; by left]. Qed.

Lemma known_prepend c es es' : known c es' -> known c (es ++ es').
Proof. intros [H|H]; [by left|right; apply elem_of_app; by right]. Qed.

Lemma on_event_known now q ty m :
  ~ (ty = EVENT_DELETE /\ q = p) -> p ∈ dom m \/ (q = p /\ ty <> EVENT_DELETE) ->
  let '(m', o) := on_event max_wait now q ty m in p ∈ dom m' \/ FsMtime p ∈ (fs_event_of <$> o).
Proof.
  intros Hnd Hp. unfold on_event. destruct (Z.eqb_spec ty EVENT_DELETE) as [->|Hty].
  { left. destruct Hp as [Hp|[_ []]]; [|done]. rewrite dom_delete_L. set_solver. }
  destruct (decide (q = p)) as [->|Hne].
  - destruct (m !! p) as [e|] eqn:E; [|left; rewrite dom_insert_L; set_solver].
    destruct (max_wait <=? now - first_seen e); [|left; rewrite dom_insert_L; set_solver].
    right. cbn [fmap list_fmap]. unfold fs_event_of. cbn [fst snd].
    destruct (Z.eqb_spec ty EVENT_DELETE); [done|set_solver].
  - assert (Hin : p ∈ dom m) by (destruct Hp as [Hp|[Hq _]]; [exact Hp|by destruct Hne]).
    destruct (m !! q) as [e|]; [destruct (max_wait <=? now - first_seen e)|]; left;
      rewrite ?dom_insert_L, ?dom_delete_L; set_solver.
Qed.

Lemma handle_event_known now evt c :
  ~ deletes evt -> p ∈ dom (debouncer c) \/ changes evt ->
  let '(c', es) := handle_event watch_prefix max_wait now evt c in known c' es.
Proof.
  intros Hnd Hp. unfold handle_event, known.
  destruct (Z.eqb_spec (event_type evt) EVENT_RENAME_FROM) as [E1|E1].
  { left. destruct Hp as [Hp|(_ & _ & _ & [] & _)]; done. }
  destruct (Z.eqb_spec (event_type evt) EVENT_RENAME_TO) as [E2|E2].
  { destruct Hp as [Hp|(_ & _ & _ & _ & [])]; [|done]. destruct (has_pending_rename c); by left. }
  destruct (watched watch_prefix (build_path evt)) eqn:Ew; cbn [negb].
  - cbn [debouncer set_rename].
    pose proof (on_event_known now (build_path evt) (event_type evt) (debouncer c) Hnd) as H.
    destruct (on_event max_wait now (build_path evt) (event_type evt) (debouncer c)) as [m o].
    apply H. destruct Hp as [Hp|(Hq & _ & Ht & _)]; [by left|by right].
  - destruct Hp as [Hp|(Hq & Hw & _)]; [by left|congruence].
Qed.

Lemma handle_all_known evts c :
  Forall (fun x => ~ deletes x.2) evts -> p ∈ dom (debouncer c) ->
  let '(c', es) := handle_all watch_prefix max_wait evts c in known c' es.
Proof.
  intros H. revert c. induction H as [|[now evt] evts Hd _ IH]; intros c Hc; cbn [handle_all]; [by left|].
  pose proof (handle_event_known now evt c Hd (or_introl Hc)) as H1.
  destruct (handle_event watch_prefix max_wait now evt c) as [c1 o]. destruct H1 as [H1|H1].
  - specialize (IH c1 H1). destruct (handle_all watch_prefix max_wait evts c1). by apply known_prepend.
  - destruct (handle_all watch_prefix max_wait evts c1). right. apply elem_of_app. by left.
Qed.

Lemma agent_tick_known now c :
  p ∈ dom (debouncer c) ->
  let '(c', es) := agent_tick traversal quiet_period now c in known c' es.
Proof.
  intros [e He]%elem_of_dom. unfold agent_tick, known.
  pose proof (tick_lookup traversal quiet_period traversal_all now (debouncer c) p) as Hl. rewrite He in Hl.
  pose proof (tick_fired traversal quiet_period traversal_all now (debouncer c) p EVENT_MTIME) as Hf.
  destruct (tick traversal quiet_period now (debouncer c)) as [m o]. cbn [fst snd debouncer set_debouncer] in *.
  destruct (Z.leb_spec quiet_period (now - last_seen e)); [right|left; by apply elem_of_dom].
  apply list_elem_of_fmap. exists (p, EVENT_MTIME). split; [done|]. apply Hf. eauto.
Qed.

Lemma agent_flush_known c : p ∈ dom (debouncer c) -> FsMtime p ∈ (agent_flush traversal c).2.
Proof.
  intros [e He]%elem_of_dom. cbn. apply list_elem_of_fmap. exists (p, EVENT_MTIME). split; [done|].
  apply list_elem_of_fmap. exists (p, e). split; [done|]. by apply (elem_of_traversal traversal traversal_all).
Qed.

(** *** The loop *)

(** The events that the loop gets to see. *)
Fixpoint seen_events (turns : list turn) : list (Z * raw_event) :=
  match turns with
  | [] => []
  | t :: turns' =>
      if running t then
        match polled t with Some evts => evts ++ seen_events turns' | None => [] end
      else []
  end.

Abbreviation loops := (loop_events traversal watch_prefix quiet_period max_wait).

Lemma turn_known t evts c c1 es1 :
  polled t = Some evts -> handle_all watch_prefix max_wait evts c = (c1, es1) -> known c1 es1 ->
  let '(c', es) := turn_events traversal watch_prefix quiet_period max_wait t c in known c' es.
Proof.
  intros Hp H Hk. unfold turn_events. rewrite Hp, H. destruct Hk as [Hk|Hk].
  - pose proof (agent_tick_known (tick_time t) c1 Hk) as H2.
    destruct (agent_tick traversal quiet_period (tick_time t) c1). by apply known_prepend.
  - destruct (agent_tick traversal quiet_period (tick_time t) c1). right. apply elem_of_app. by left.
Qed.

Lemma loop_known turns c :
  Forall (fun x => ~ deletes x.2) (seen_events turns) -> p ∈ dom (debouncer c) ->
  let '(c', es) := loops turns c in known c' es.
Proof.
  revert c. induction turns as [|t turns IH]; intros c Hd Hc; cbn [loop_events seen_events] in *; [by left|].
  destruct (running t); [|by left]. destruct (polled t) as [evts|] eqn:Ep.
  2: { unfold turn_events. rewrite Ep. by left. }
  apply Forall_app in Hd as [Hd1 Hd2]. pose proof (handle_all_known evts c Hd1 Hc) as H1.
  destruct (handle_all watch_prefix max_wait evts c) as [c1 es1] eqn:E1.
  pose proof (turn_known t evts c c1 es1 Ep E1 H1) as H2.
  destruct (turn_events traversal watch_prefix quiet_period max_wait t c) as [c2 es2]. destruct H2 as [H2|H2].
  - specialize (IH c2 Hd2 H2). destruct (loops turns c2). by apply known_prepend.
  - destruct (loops turns c2). right. apply elem_of_app. by left.
Qed.

Lemma loop_change turns c pre now evt post :
  seen_events turns = (pre ++ (now, evt) :: post)%list -> changes evt ->
  Forall (fun x => ~ deletes x.2) post ->
  let '(c', es) := loops turns c in known c' es.
Proof.
  revert c pre. induction turns as [|t turns IH]; intros c pre Hs Hch Hd;
    cbn [loop_events seen_events] in *; [by destruct pre|].
  destruct (running t); [|by destruct pre]. destruct (polled t) as [evts|] eqn:Ep; [|by destruct pre].
  apply app_eq_inv in Hs as [(k & Hk & Hpost)|(k & -> & Hk)].
  - destruct k as [|x k].
    { rewrite app_nil_l in Hpost. rewrite app_nil_r in Hk. subst pre.
      destruct (turn_events traversal watch_prefix quiet_period max_wait t c) as [c2 es2].
      specialize (IH c2 [] (eq_sym Hpost) Hch Hd). destruct (loops turns c2). by apply known_prepend. }
    injection Hpost as <- ->. apply Forall_app in Hd as [Hd1 Hd2].
    assert (Hh : let '(c1, es1) := handle_all watch_prefix max_wait evts c in known c1 es1).
    { rewrite Hk, handle_all_app. destruct (handle_all watch_prefix max_wait pre c) as [c0 es0].
      cbn [fst snd handle_all].
      assert (Hnd : ~ deletes evt) by (intros [? _]; by destruct Hch as (_ & _ & [] & _)).
      pose proof (handle_event_known now evt c0 Hnd (or_intror Hch)) as H1.
      destruct (handle_event watch_prefix max_wait now evt c0) as [c1 es1]. destruct H1 as [H1|H1].
      - pose proof (handle_all_known k c1 Hd1 H1) as H2.
        destruct (handle_all watch_prefix max_wait k c1). by do 2 apply known_prepend.
      - destruct (handle_all watch_prefix max_wait k c1). right. set_solver. }
    destruct (handle_all watch_prefix max_wait evts c) as [c1 es1] eqn:E1.
    pose proof (turn_known t evts c c1 es1 Ep E1 Hh) as H2.
    destruct (turn_events traversal watch_prefix quiet_period max_wait t c) as [c2 es2]. destruct H2 as [H2|H2].
    + pose proof (loop_known turns c2 Hd2 H2) as H3. destruct (loops turns c2). by apply known_prepend.
    + destruct (loops turns c2). right. apply elem_of_app. by left.
  - destruct (turn_events traversal watch_prefix quiet_period max_wait t c) as [c2 es2].
    specialize (IH c2 k Hk Hch Hd). destruct (loops turns c2). by apply known_prepend.
Qed.

Lemma main_change turns pre now evt post :
  seen_events turns = (pre ++ (now, evt) :: post)%list -> changes evt ->
  Forall (fun x => ~ deletes x.2) post ->
  FsMtime p ∈ main_events traversal watch_prefix quiet_period max_wait turns.
Proof.
  intros Hs Hch Hd. unfold main_events. pose proof (loop_change turns start_ctx pre now evt post Hs Hch Hd) as H.
  destruct (loops turns start_ctx) as [c es]. apply elem_of_app. destruct H as [H|H]; [right|by left].
  by apply agent_flush_known.
Qed.
End Change.

(** ** In the agent: no rename takes the path away *)

Section Away.
Context (traversal : gmap string Entry -> list (string * Entry)).
Context (watch_prefix : string) (quiet_period max_wait : Z) (p : string).

Definition takes_away (e : fs_event) : Prop := exists n, e = FsRename p n.

Definition no_rename_from (c : EventCtx) : Prop :=
  has_pending_rename c = true -> pending_rename_from c <> p.

Lemma fs_event_of_stays pt : ~ takes_away (fs_event_of pt).
Proof. unfold fs_event_of. by destruct (pt.2 =? EVENT_DELETE); intros [n ?]. Qed.

Lemma fs_events_stay (l : list (string * Z)) : Forall (fun e => ~ takes_away e) (fs_event_of <$> l).
Proof. apply Forall_fmap, Forall_forall. intros pt _. apply fs_event_of_stays. Qed.

Lemma handle_event_stays now evt c :
  ~ renames p evt -> no_rename_from c ->
  let '(c', es) := handle_event watch_prefix max_wait now evt c in
  no_rename_from c' /\ Forall (fun e => ~ takes_away e) es.
Proof.
  intros Hr Hc. unfold handle_event, no_rename_from, renames in *.
  destruct (Z.eqb_spec (event_type evt) EVENT_RENAME_FROM) as [E1|E1].
  { split; [|done]. intros _ H. by apply Hr. }
  destruct (Z.eqb_spec (event_type evt) EVENT_RENAME_TO) as [E2|E2].
  { destruct (has_pending_rename c) eqn:Eh; [|by rewrite Eh]. split; [done|].
    destruct (_ || _); [|done]. constructor; [|done]. intros [n [= Hn _]]. by apply Hc. }
  destruct (negb _); [by split|]. cbn [debouncer set_rename].
  destruct (on_event max_wait now (build_path evt) (event_type evt) (debouncer c)) as [m o].
  split; [done|apply fs_events_stay].
Qed.

Lemma handle_all_stays evts c :
  Forall (fun x => ~ renames p x.2) evts -> no_rename_from c ->
  let '(c', es) := handle_all watch_prefix max_wait evts c in
  no_rename_from c' /\ Forall (fun e => ~ takes_away e) es.
Proof.
  intros H. revert c. induction H as [|[now evt] evts Hr _ IH]; intros c Hc; cbn [handle_all]; [done|].
  pose proof (handle_event_stays now evt c Hr Hc) as H1.
  destruct (handle_event watch_prefix max_wait now evt c) as [c1 o]. destruct H1 as [Hc1 Ho].
  specialize (IH c1 Hc1). destruct (handle_all watch_prefix max_wait evts c1). destruct IH.
  split; [done|by apply Forall_app].
Qed.

Lemma loop_stays turns c :
  Forall (fun x => ~ renames p x.2) (seen_events turns) -> no_rename_from c ->
  Forall (fun e => ~ takes_away e) (loop_events traversal watch_prefix quiet_period max_wait turns c).2.
Proof.
  revert c. induction turns as [|t turns IH]; intros c Hr Hc; cbn [loop_events seen_events] in *; [done|].
  destruct (running t); [|done]. unfold turn_events. destruct (polled t) as [evts|]; [|done].
  apply Forall_app in Hr as [Hr1 Hr2]. pose proof (handle_all_stays evts c Hr1 Hc) as H1.
  destruct (handle_all watch_prefix max_wait evts c) as [c1 es1]. destruct H1 as [Hc1 He1].
  unfold agent_tick. destruct (tick traversal quiet_period (tick_time t) (debouncer c1)) as [m o].
  specialize (IH (set_debouncer m c1) Hr2 Hc1). destruct (loop_events _ _ _ _ turns _) as [c3 es3].
  apply Forall_app. split; [|done]. apply Forall_app. split; [done|apply fs_events_stay].
Qed.

Lemma main_stays turns :
  Forall (fun x => ~ renames p x.2) (seen_events turns) ->
  Forall (fun e => ~ takes_away e) (main_events traversal watch_prefix quiet_period max_wait turns).
Proof.
  intros Hr. unfold main_events. pose proof (loop_stays turns start_ctx Hr ltac:(done)) as H.
  destruct (loop_events _ _ _ _ turns start_ctx) as [c es]. apply Forall_app. split; [done|].
  apply fs_events_stay.
Qed.
End Away.

(** ** In the collector: the event's entry stays *)

Lemma rules_keep p evs m :
  MtimeChange p ∈ evs -> (forall n, Renamed p n ∉ evs) -> is_Some (foldl apply_rule m evs !! p).
Proof.
  induction evs as [|ev evs IH] using rev_ind; intros Hin Hno; [by apply elem_of_nil in Hin|].
  rewrite foldl_app. simpl. apply elem_of_app in Hin as [Hin|Hin%list_elem_of_singleton].
  - assert (IH' : is_Some (foldl apply_rule m evs !! p)).
    { apply IH; [done|]. intros n H. apply (Hno n), elem_of_app. by left. }
    destruct ev as [q| |o n]; simpl; [|done|].
    + destruct (decide (q = p)) as [->|]; [rewrite lookup_insert_eq|rewrite lookup_insert_ne by done]; done.
    + destruct (decide (n = p)) as [->|]; [by rewrite lookup_insert_eq|]. rewrite lookup_insert_ne by done.
      rewrite lookup_delete_ne; [done|]. intros ->. apply (Hno n). set_solver.
  - subst ev. simpl. by rewrite lookup_insert_eq.
Qed.

(** Events whose text the collector can read. *)
Definition legible (e : fs_event) : Prop :=
  Forall (fun p => utf8_ok true p = true /\ p <> "") (event_paths e).

Lemma well_formed_payload m ev : well_formed m ev -> payload_events m = [ev].
Proof. intros (v & Hl & He). unfold payload_events. by rewrite Hl, He. Qed.

Lemma stamped_payloads host es ts :
  readable host = true -> Forall legible es -> stamped host es ts ->
  Forall clean (Some <$> ts) /\ events (Some <$> ts) = as_file_event <$> es.
Proof.
  intros Hh Hes. revert ts. induction Hes as [|e es He _ IH]; intros ts Hts.
  { apply Forall2_nil_inv_l in Hts as ->. done. }
  apply Forall2_cons_inv_l in Hts as (t & ts' & (ms & Hms & ->) & Hts & ->).
  destruct (IH _ Hts) as [Hc He']. pose proof (event_json_well_formed ms host e Hms Hh He) as Hw.
  rewrite !fmap_cons. split.
  - constructor; [|done]. left. by exists (as_file_event e).
  - unfold events in *. rewrite bind_cons, He', (well_formed_payload _ _ Hw). done.
Qed.

(** Any order of delivery. *)
Lemma permuted_payloads host es ts ts' :
  readable host = true -> Forall legible es -> stamped host es ts -> ts ≡ₚ ts' ->
  Forall clean (Some <$> ts') /\ events (Some <$> ts') ≡ₚ (as_file_event <$> es).
Proof.
  intros Hh Hes Hts Hp. destruct (stamped_payloads host es ts Hh Hes Hts) as [Hc He]. split.
  - by rewrite <-Hp.
  - rewrite <-He. unfold events. by rewrite Hp.
Qed.

Lemma as_file_event_inv e :
  (forall p, as_file_event e = MtimeChange p <-> e = FsMtime p) /\
  (forall o n, as_file_event e = Renamed o n <-> e = FsRename o n).
Proof. destruct e; split; intros; simpl; split; intros H; simplify_eq; done. Qed.

(** ** The runs together *)

Section Agent.
Context (p : string) (traversal : gmap string Entry -> list (string * Entry)) (prefix host : string)
  (quiet_period max_wait wal_max_bytes : Z) (turns : list turn) (env : list stamp) (start : Z)
  (delivery_reports : reports) (works opened0 : bool) (r0 : replaying) (st : agent) (ts : list string)
  (pre : list (Z * raw_event)) (now : Z) (evt : raw_event) (post : list (Z * raw_event)).

(** The agent runs from an empty log to its end ([seen_run]) and sees a change
    of the watched file [p] ([seen_change]), with no delete of it afterwards and
    no rename away from it; the collector can read the paths it reports; all it
    sent has been acknowledged: nothing is left in librdkafka's queue or in the
    log, nothing was dropped or lost, and no replay left its records in the log. *)
Record change_seen : Prop := {
  seen_traversal : forall m, traversal m ≡ₚ map_to_list m;
  seen_host : short host /\ readable host = true;
  seen_turns : Forall (turn_ok works) turns /\ stamps_ok works env;
  seen_disk : replay_ok works r0 /\ reports_ok works delivery_reports;
  seen_run : AgentMain.main traversal prefix host quiet_period max_wait wal_max_bytes
    (open_wal opened0 "") r0 start turns env delivery_reports = (st, ts);
  seen_change : seen_events turns = (pre ++ (now, evt) :: post)%list /\ changes prefix p evt;
  seen_no_delete : Forall (fun x => ~ deletes p x.2) post;
  seen_no_rename : Forall (fun x => ~ renames p x.2) (seen_events turns);
  seen_legible : Forall legible (main_events traversal prefix quiet_period max_wait turns);
  seen_acked : queue (out st) = [] /\ logged (out st) = [] /\ dropped (out st) = [] /\
    lost (out st) = [] /\ copied (out st) = []
}.

(** What the collector sees of it: all records are well formed, in whatever
    order they come, and leave an entry for the file. *)
Lemma change_events m :
  change_seen ->
  Forall clean (Some <$> acked (out st)) /\
  is_Some (foldl apply_rule m (events (Some <$> acked (out st))) !! p).
Proof.
  intros [Htr [Hsh Hrd] [Ht Henv] [Hr0 Hrs] Hm [Hs Hch] Hd Hr Hleg (Hq & Hw & Hdr & Hlo & Hco)].
  pose proof (main_stamped _ _ _ _ _ _ _ _ _ _ _ _ _ _ _ Ht Henv Hm) as Hst.
  pose proof (main_conserves _ _ _ _ _ _ Htr Hsh works [] opened0 _ _ _ _ _ _ _ ltac:(constructor) Hr0 Ht Henv Hrs Hm)
    as ((Hp & _) & _).
  rewrite Hq, Hw, Hdr, Hlo, Hco in Hp. cbn [app] in Hp. rewrite !app_nil_r in Hp.
  destruct (permuted_payloads host _ ts (acked (out st)) Hrd Hleg Hst Hp) as [Hc He].
  split; [done|]. apply rules_keep.
  - rewrite He. apply list_elem_of_fmap. exists (FsMtime p). split; [done|].
    by eapply main_change.
  - intros n. rewrite He. intros (e & Heq & Hin)%list_elem_of_fmap.
    symmetry in Heq. apply as_file_event_inv in Heq as ->.
    pose proof (main_stays traversal prefix quiet_period max_wait p turns Hr) as Hstay.
    rewrite Forall_forall in Hstay. apply (Hstay _ Hin). by exists n.
Qed.

(** *** What becomes of the change *)

Hypothesis seen : change_seen.

(** The runs of agent and collector as one chain: see [change_reaches_redis]. *)
Lemma change_recorded {W} (h : handler W) `{!RedisServer h} `{!RedisLaws h (keeps_recorded p)} fuel w s lw :
  Semantics.run (log_handler h) (ConsumerMain.main fuel) init_heap (Logged w []) = (Ok tt, s, lw) ->
  Forall (fun e => ~ fault e) (trace lw) ->
  delivered (session (trace lw)) = Some <$> acked (out st) ->
  recorded p (rs_db (base lw)).
Proof.
  intros Hrun Hf Hdel.
  apply (returned_recorded h p fuel w s lw Hrun); [split; [done|]|]; rewrite Hdel.
  - by apply (change_events ∅).
  - by apply change_events.
Qed.

(** ** Properties *)

(** A change reaches Redis: let the agent run from an empty log to its end,
    and see a change of the watched file [p] with no delete of it afterwards
    and no rename away from it; let everything it sent be acknowledged, and the
    collector receive these records, in any order, in a session without a failed
    pipeline, and stop.  Then [p] is in [pending], or in [processing] if a backup
    has taken it over: whatever else happens to other files, whatever the
    debouncer's timing, and however many records went through the log. *)
Theorem change_reaches_redis {W} (h : handler W) `{!RedisServer h} `{!RedisLaws h (keeps_recorded p)} fuel w s lw :
  Semantics.run (log_handler h) (ConsumerMain.main fuel) init_heap (Logged w []) = (Ok tt, s, lw) ->
  Forall (fun e => ~ fault e) (trace lw) ->
  delivered (session (trace lw)) = Some <$> acked (out st) ->
  recorded p (rs_db (base lw)).
Proof. intros. by eapply change_recorded. Qed.

(** C5. A change is backed up when nothing fails: the whole pipeline, from the
    kernel's event to restic.  Let the agent start on an empty log, see a change
    of the watched file [p], whose path has no line feed, with no delete of it
    afterwards and no rename away from it, and send only texts the collector can
    read; let everything it sent be acknowledged ([seen_acked]); let a collector
    receive exactly these records, in any order, with no call that fails, and
    stop; let then a backup run with a complete configuration, with no
    [processing] key left over from an interrupted run, and with no call that
    fails; and let other clients of Redis neither remove [p] from [pending] nor
    touch [processing].  Then the backup run returns, and [p] has been settled
    by it, in one of three ways: [p] has no repository under the configured depth, its file was found
    missing, or it was a line of a list file given to a [restic backup] of its
    repository that ended with exit code 0 or 3. *)
Theorem change_is_backed_up {W} (h : handler W) `{!RedisServer h} `{!RedisLaws h (leaves_processing p)}
    fuel w s lw cfg fuel' sched order m r m' lw' :
  Semantics.run (log_handler h) (ConsumerMain.main fuel) init_heap (Logged w []) = (Ok tt, s, lw) ->
  Forall (fun e => ~ fault e) (trace lw) ->
  delivered (session (trace lw)) = Some <$> acked (out st) ->
  lacks (chr 10) p = true -> complete cfg = true -> (forall n, order n ≡ₚ seq 0 n) ->
  ~ key_exists (rs_db (base lw)) "processing" ->
  Semantics.run (log_handler h) (run_backup fuel' sched order cfg) m (Logged (base lw) []) = (r, m', lw') ->
  Forall faultless (trace lw') -> r <> Running ->
  r = Ok tt /\ NoLoss.settled cfg p (trace lw').
Proof.
  intros Hrun Hf Hdel Hnl Hcfg Hord Hk E Hall Hrun'.
  assert (Hl : RedisLaws h (keeps_recorded p)).
  { apply (redis_laws_mono h (leaves_processing p)); [|done].
    intros d d' [[E1 E2] _] [H|H]; [left; auto|right; by rewrite E1]. }
  assert (Hrec : recorded p (rs_db (base lw))) by (by eapply change_recorded).
  destruct (faultless_ends h p cfg fuel' sched order m (base lw) r m' lw' Hnl Hcfg Hord) as (H1 & H2 & _);
    [|done..].
  right. split; [|done]. destruct Hrec as [|H]; [done|]. destruct Hk. by eapply dom_hash_field.
Qed.

(** C4. A change is not lost, whatever runs beside the collector.  Let the agent
    see a change of [p] as before (empty log, line-feed-free path, no later delete
    or rename away, readable texts, everything acknowledged), and a collector
    session receive exactly the acknowledged records, in any order, with none of
    its own calls failing, in a [system] in which backup and prune runs and other
    processes are interleaved with it, started and killed anywhere, with any of
    their calls failing or hanging; all backup runs load the one configuration
    file, the lock key expires or is deleted by others only while no job works,
    and other processes leave the two hashes alone ([lawful]).  When the
    collector has committed all these records, [p] is in [pending] or
    [processing], or one backup run has settled it ([p] has no repository, its
    file was missing, or restic was given it) by calls made after the collector's
    last write of [p]. *)
Theorem change_never_lost {W} (h : handler W) `{!RedisServer h} `{!RedisLaws h eq} `{!RedisScans h}
    cfg ms0 w fuel ms l :
  lacks (chr 10) p = true -> file_is cfg h ->
  lawful h ms0 (idle w) ->
  let X := run_system h ms0 (idle w) in
  lawful h ms (go h X (CollectorStarts fuel)) ->
  Forall (fun m => starts_collector m = false) ms ->
  let Y := run_system h (CollectorStarts fuel :: ms) X in
  log Y = (log X ++ l)%list ->
  let v := session (calls_of TheCollector l) in
  Forall (fun e => ~ fault e) (calls_of TheCollector l) ->
  delivered v = Some <$> acked (out st) -> committed v = length (delivered v) ->
  exists l1 l2, l = (l1 ++ l2)%list /\
    last_write p (executed (session (calls_of TheCollector l2)) ≫= writes_of rs_encode "pending") = None /\
    (recorded p (rs_db (world Y)) \/ exists j, NoLoss.settled cfg p (calls_of (Job j) l2)).
Proof.
  intros Hnl Hcfg Hms0 X Hms Hns Y Hlog v Hf Hdel Hcom.
  destruct (change_events (hash (rs_db (world X)) "pending") seen) as [Hc Hin].
  destruct (committed_followed h p Hnl cfg Hcfg ms0 w fuel ms l Hms0 Hms Hns Hlog) as (k & Hk & Hx).
  { split; [done|]. fold v. by rewrite Hdel. }
  apply Hx. fold v. assert (k = length (delivered v)) as -> by (fold v in Hk; lia).
  by rewrite firstn_all, Hdel.
Qed.
End Agent.

(** ** Where the promise stops *)

(** The log changes the order of the events: a rename that waited in it comes
    after the change of a new file under the old name, and takes the new file's
    entry away; in the order of the events the entry stays. *)
Theorem replay_reorders :
  let mv := event_json 1 "node-001" (FsRename "/home/s/a" "/home/s/b") in
  let new := event_json 2 "node-001" (FsMtime "/home/s/a") in
  let s1 := send_event 4096 refused mv (start_sender (open_wal true "")) in
  let s2 := dr_msg_cb 4096 0 true fine (send_event 4096 taken new s1) in
  let s3 := dr_msg_cb 4096 0 true fine (replay 4096 reopened [taken] s2) in
  let pending texts := foldl apply_rule ∅ (events (Some <$> texts)) in
  acked s3 = [new; mv] /\
  pending [mv; new] !! "/home/s/a" = Some "mtime_change" /\ pending (acked s3) !! "/home/s/a" = None.
Proof. vm_compute. repeat split; reflexivity. Qed.

(** ** Witness: the change of one file, with a delete that goes through the log. *)

Definition change_turns : list turn :=
  [Turn true (Some [(0, demo_event EVENT_MTIME "a")]) 1 [] [] 2 no_replay;
   Turn true (Some [(3, demo_event EVENT_DELETE "d")]) 200 [(5, refused); (6, taken)]
     [(0%nat, true, fine)] 201 no_replay;
   Turn true (Some []) 300 [] [] (40 * 1000000000) (Replay reopened [taken] [(0%nat, true, fine)])].

Abbreviation change_agent :=
  (AgentMain.main map_to_list "/home" "node-001" 100 1000 4096 (open_wal true "") no_replay 0
     change_turns [] []).

Definition change_texts : list string :=
  [event_json 6 "node-001" (FsMtime "/home/user/a"); event_json 5 "node-001" (FsDelete "/home/user/d")].

Definition change_world : sim :=
  with_polls (deliver <$> (Some <$> change_texts))
    (with_running (replicate 8 true) (with_files ["/home/user/a"] (with_cfg demo_config sim0))).

Abbreviation change_collector :=
  (Semantics.run (log_handler sim_handler) (ConsumerMain.main 20) init_heap (Logged change_world [])).

Lemma sim_keeps p : RedisLaws sim_handler (keeps_recorded p).
Proof. apply (redis_laws_mono sim_handler eq); [by intros d d' -> ?|apply sim_laws]. Qed.

(** What the witnesses need to know of the two runs. *)
Lemma change_runs :
  let '(st, ts) := change_agent in
  let '(r, s, lw) := change_collector in
  (queue (out st) = [] /\ logged (out st) = [] /\ dropped (out st) = [] /\
   lost (out st) = [] /\ copied (out st) = []) /\ r = Ok tt /\
  Forall (fun e => ~ fault e) (trace lw) /\ delivered (session (trace lw)) = Some <$> acked (out st).
Proof.
  assert (Ha : acked (out change_agent.1) = change_texts /\ queue (out change_agent.1) = [] /\
    logged (out change_agent.1) = [] /\ dropped (out change_agent.1) = [] /\
    lost (out change_agent.1) = [] /\ copied (out change_agent.1) = [])
    by (vm_compute; repeat split; reflexivity).
  assert (Hr : change_collector.1.1 = Ok tt) by (vm_compute; reflexivity).
  assert (Hd : delivered (session (trace change_collector.2)) = Some <$> change_texts)
    by (vm_compute; reflexivity).
  assert (Hf : Forall (fun e => ~ fault e) (trace change_collector.2))
    by (vm_compute; repeat constructor; by intros []).
  destruct Ha as [Ha Hx].
  destruct change_agent as [st ts]. destruct change_collector as [[r s] lw].
  cbn [fst snd] in *. by rewrite Hd, Ha.
Qed.

Lemma change_inputs :
  short "node-001" /\ Forall (turn_ok true) change_turns /\ changes "/home" "/home/user/a" (demo_event EVENT_MTIME "a") /\
  Forall (fun x => ~ deletes "/home/user/a" x.2) [(3, demo_event EVENT_DELETE "d")] /\
  Forall (fun x => ~ renames "/home/user/a" x.2) (seen_events change_turns) /\
  Forall legible (main_events map_to_list "/home" 100 1000 change_turns).
Proof.
  split; [unfold short; simpl; lia|]. split.
  { pose proof (fine_steady true). repeat apply Forall_cons_2; [..|apply Forall_nil_2]; split; cbn;
      repeat constructor; simpl; unfold int64; try lia; done. }
  split; [repeat split; discriminate|].
  split; [constructor; [by intros [_ ?]|constructor]|].
  split; [constructor; [|constructor; [|constructor]]; by intros [? _]|].
  assert (main_events map_to_list "/home" 100 1000 change_turns
          = [FsDelete "/home/user/d"; FsMtime "/home/user/a"]) as -> by (vm_compute; reflexivity).
  repeat constructor; discriminate.
Qed.

Lemma change_agent_seen st ts :
  change_agent = (st, ts) ->
  queue (out st) = [] /\ logged (out st) = [] /\ dropped (out st) = [] /\
    lost (out st) = [] /\ copied (out st) = [] ->
  change_seen "/home/user/a" map_to_list "/home" "node-001" 100 1000 4096 change_turns [] 0 [] true true
    no_replay st ts
    [] 0 (demo_event EVENT_MTIME "a") [(3, demo_event EVENT_DELETE "d")].
Proof.
  intros Em Hacked. destruct change_inputs as (Hsh & Ht & Hch & Hnd & Hnr & Hleg).
  split; [intros m; reflexivity|exact (conj Hsh eq_refl)|exact (conj Ht (Forall_nil_2 _))|
    exact (conj (no_replay_ok true) (Forall_nil_2 _))|exact Em|
    exact (conj eq_refl Hch)|exact Hnd|exact Hnr|exact Hleg|exact Hacked].
Qed.

Lemma change_reaches_redis_witness :
  recorded "/home/user/a" (rs_db (base change_collector.2)).
Proof.
  pose proof change_runs as H.
  destruct change_agent as [st ts] eqn:Em. destruct change_collector as [[r s] lw] eqn:Ec.
  destruct H as (Hx & -> & Hf & Hd). cbn [fst snd].
  exact (@change_reaches_redis _ _ _ _ _ _ _ _ _ _ _ _ _ _ _ _ _ _ _ _
    (change_agent_seen st ts Em Hx) sim sim_handler _ (sim_keeps _)
    20 change_world s lw Ec Hf Hd).
Defined.

(** The backup after it. *)
Abbreviation change_backup :=
  (Semantics.run (log_handler sim_handler) (run_backup 2 [] (seq 0) demo_cfg) new_manager
     (Logged (base change_collector.2) [])).

Lemma change_is_backed_up_witness :
  NoLoss.settled demo_cfg "/home/user/a" (trace change_backup.2).
Proof.
  pose proof change_runs as H.
  assert (Hall : Forall faultless (trace change_backup.2)).
  { vm_compute. repeat (constructor; [first [reflexivity|exact I|left; reflexivity]|]). constructor. }
  assert (Hr : change_backup.1.1 <> Running) by (vm_compute; discriminate).
  assert (Hk : ~ key_exists (rs_db (base change_collector.2)) "processing").
  { intros [Hk|[v Hk]]; revert Hk; vm_compute; [by intros []|discriminate]. }
  destruct change_agent as [st ts] eqn:Em. destruct change_collector as [[r s] lw] eqn:Ec.
  destruct H as (Hx & -> & Hf & Hd). cbn [fst snd] in *.
  destruct (Semantics.run (log_handler sim_handler) (run_backup 2 [] (seq 0) demo_cfg) new_manager
     (Logged (base lw) [])) as [[rb m'] lwb] eqn:Eb. cbn [fst snd] in *.
  exact (proj2 (@change_is_backed_up _ _ _ _ _ _ _ _ _ _ _ _ _ _ _ _ _ _ _ _
    (change_agent_seen st ts Em Hx) sim sim_handler _ (sim_leaves_processing _)
    20 change_world s lw demo_cfg 2 [] (seq 0) new_manager rb m' lwb Ec Hf Hd
    eq_refl eq_refl (fun n => reflexivity _) Hk Eb Hall Hr)).
Defined.

(** A backup starts while the collector runs, and is killed in its scan. *)
Definition change_moves : list move :=
  (replicate 90 CollectorMoves ++ BackupStarts 2 [] (seq 0) :: replicate 11 (JobMoves 0)
   ++ JobKilled 0 :: replicate 10 CollectorMoves)%list.

Abbreviation change_system :=
  (run_system demo_handler (CollectorStarts 20 :: change_moves) (idle change_world)).

Lemma change_lawful :
  lawful demo_handler change_moves (go demo_handler (idle change_world) (CollectorStarts 20)).
Proof.
  apply (steps_forall _ (fun m => forall X : system sim, legal X m)); [auto|].
  unfold change_moves. solve_legal.
Qed.

Lemma change_never_lost_witness :
  exists l1 l2, log change_system = (l1 ++ l2)%list /\
    last_write "/home/user/a" (executed (session (calls_of TheCollector l2)) ≫= writes_of sim_encode "pending") = None /\
    (recorded "/home/user/a" (rs_db (h := demo_handler) (world change_system)) \/
     exists j, NoLoss.settled demo_config "/home/user/a" (calls_of (Job j) l2)).
Proof.
  assert (Ha : change_agent.1 = change_agent.1 /\ acked (out change_agent.1) = change_texts /\
    queue (out change_agent.1) = [] /\ logged (out change_agent.1) = [] /\
    dropped (out change_agent.1) = [] /\ lost (out change_agent.1) = [] /\
    copied (out change_agent.1) = []) by (vm_compute; repeat split; reflexivity).
  assert (Hf : Forall (fun e => ~ fault e) (calls_of TheCollector (log change_system)))
    by (vm_compute; repeat constructor; by intros []).
  assert (Hd : delivered (session (calls_of TheCollector (log change_system))) = Some <$> change_texts)
    by (vm_compute; reflexivity).
  assert (Hc : committed (session (calls_of TheCollector (log change_system)))
               = length (delivered (session (calls_of TheCollector (log change_system)))))
    by (vm_compute; reflexivity).
  assert (Hns : Forall (fun m => starts_collector m = false) change_moves)
    by (unfold change_moves; vm_compute; repeat constructor).
  destruct change_agent as [st ts] eqn:Em. cbn [fst] in Ha. destruct Ha as (_ & Ha & Hx).
  rewrite <-Ha in Hd.
  exact (@change_never_lost _ _ _ _ _ _ _ _ _ _ _ _ _ _ _ _ _ _ _ _
    (change_agent_seen st ts Em Hx) sim demo_handler _ _ _ demo_config [] change_world 20 change_moves
    (log change_system) eq_refl (file_loads demo_config sim_handler) I change_lawful Hns eq_refl Hf Hd Hc).
Defined.
